(* ===== verification/_CoqProject ===== *)
-Q . S2P
Prelude.v
GoTime.v
Api.v
GoHeap.v
DeepCopy.v
Prog.v
Threads.v
Kube.v
Conditions.v
Schedule.v
Drift.v
Filters.v
Cordon.v
Ownership.v
DrainNode.v
DrainStatus.v
DrainPool.v
DrainReconcile.v
Status.v
Preview.v
Reconcile.v
Metrics.v
Controller.v
Pass.v
Watch.v
Cluster.v
Refine.v
WellTyped.v
Settle.v
Converge.v
Webhook.v
CertEnv.v
CertBootstrap.v
CertHA.v
CertExample.v
Main.v
Wiring.v
