(* ===== verification/Prelude.v ===== *)
(** * Verification of node-maintenance-orchestrator

    The operator takes nodes of a Kubernetes cluster into maintenance.  A
    [NodeMaintenancePlan] names nodes (or selects them by label); the controller
    adopts them with annotations, cordons them, evicts their pods, reports
    progress in the plan's status, hands them back when somebody returns them to
    service, and releases everything when the plan is deleted.  A validating
    webhook keeps two plans off the same node; the process gives itself the
    certificates the webhook needs.  This library models that code, translated
    from the Go sources under src/, and proves it correct.  This comment is its
    documentation.

    ** The program as a model

    - The cluster is an adversary.  [Kube.call] lists every
      interaction with the outside (client requests, events, clock readings, the
      order in which a Go map is ranged over) and [Kube.resp] the type of each
      answer.  A program ([Prog.prog]) is a well-founded tree of calls whose
      branches are all possible answers.  A theorem about [run p t a] therefore
      holds for a cluster that changes between any two calls, for concurrent
      writers, for API errors at every request and for every map order.
      Hypotheses on the answers, where a theorem needs any, are a predicate on the
      trace: [answered echoes t] (a patch is answered with the object sent: nobody
      else writes it meanwhile), [answered keepsNames t] (the server does not
      rename nodes), [Webhook.consistent] (two reads of one admission agree).
      Cluster then adds one API server that keeps plans and nodes, with merge
      patches by key, and caches of both that may hold anything ([serveFrom];
      [serve] is the server with caches that are up to date), and runs the passes
      of all plans against it call by call ([cstep]); Threads is the logic for one program among others that change
      the state between its calls.
    - The Go objects the code shares through pointers are state of the monad
      [Kube.M]: the plan of the pass, and a heap of [corev1.Node] objects, because
      the slices of an [OwnershipResolution], its maps and the loop variables
      alias the same nodes and a patch overwrites the object it is given.
      Copies taken with [DeepCopy] are the values of their time; that they may be
      is proved in DeepCopy, over a model of memory with pointers and slices.
    - A result is a value, a Go error ([Kube.error], with wrapping as
      [fmt.Errorf("...: %w")] does and [errors.As] as functions) or a run-time
      panic (nil map write, nil dereference).
    - Integers keep their width where the code computes: [GoTime.int32],
      [GoTime.int64] wrap around, [time.Duration] is an int64 of nanoseconds and
      [Time.Sub] saturates.  An instant is a Z of nanoseconds.
    - Programs are inductive trees, so each terminates against every environment
      ([Prog.interp_total]).  The two loops of the code that go on until their
      context is done take the number of their rounds as an argument:
      [waitForConfig] its polls and [Start] its ticks, and end in [Polling] when
      it is used up.  [EnsureCerts_returns] says how many polls are enough;
      theorems about [Start] hold for every number of ticks.
    - What runs concurrently is a step relation: the drain pool ([pool_step],
      proved well-founded), the replicas that start together ([hstep]) and the
      reconciles of many plans on one cluster ([cstep]).
    - The files of a pod are a map; [CertEnv.fsStep] is the effect of a system
      call with its answer on them, and [CertEnv.wp] reasons about every state
      between two calls.
    - Code of other packages is a parameter with its documented laws: apimachinery's
      condition helpers ([ConditionOps], [ConditionLaws]), label selectors
      ([SelectorOps]), controller-runtime's finalizer helpers ([FinalizerOps],
      [FinalizerLaws]) and its predicates and handlers ([WatchOps], [WatchLaws]),
      crypto/x509 with encoding/pem ([CryptoOps], [CryptoLaws]), the copies of
      apimachinery's own types ([MetaOps], [MetaLaws]) and its scheme ([SchemeOps],
      [SchemeLaws]), Prometheus ([GaugeOps], [GaugeLaws]); each has a concrete
      instance the witnesses use.

    ** Files

    - Prelude: nil-able string maps, [%q], list searches and updates.
    - GoTime: machine integers and package time.
    - Api: api/v1alpha1 and the Kubernetes objects the program uses.
    - GoHeap, DeepCopy: Go memory, and the generated deep copies of api/v1alpha1.
    - Prog: call trees, their executions, a rely/guarantee logic.
    - Threads: a logic for a program whose state others change between its calls.
    - Kube: calls, errors, the monad, its proof rules and automation.
    - Conditions: conditions.go.
    - Schedule: schedule.go.
    - Drift: node_health.go and drift.go.
    - Filters: drain_filters.go.
    - Cordon: cordon.go, and the node writes of cleanup.go and ownership.go.
    - Ownership: nodes.go, ownership.go, [CleanUp] of cleanup.go.
    - DrainNode: drain_node.go.
    - DrainStatus, DrainPool, DrainReconcile: drain_reconcile.go (its status
      bookkeeping with the summaries of status.go, its goroutine pool, the phase).
    - Status: status.go.
    - Preview: reconcile_preview.go.
    - Reconcile: reconcile.go and reconcile_drift.go.
    - Metrics: internal/metrics/metrics.go, its [init] and the panics included.
    - Controller: the reconciler and the event predicates of internal/controller.
    - Pass: properties of whole reconciles.
    - Watch: [SetupWithManager], the watches and their predicates.
    - Cluster: the API server and its caches, many plans reconciled on one cluster.
    - Refine: what a whole reconcile makes of every node, against a specification.
    - WellTyped: the type of a status, kept by every operation.
    - Settle: a second reconcile finds nothing left to do.
    - Converge: a drain comes to an end.
    - Webhook: internal/webhook/validator.go.
    - CertEnv: the calls, crypto and file system of the certificate bootstrap.
    - CertBootstrap: internal/webhook/certbootstrap.go.
    - CertHA: several replicas bootstrapping at once.
    - CertExample: a toy crypto and cluster, the witnesses and examples of both.
    - Main: cmd/main.go.
    - Wiring: service.go, groupversion_info.go, the [init] functions.

    Definitions carry the name of the Go function they translate; the body of a
    loop or of a case of a long function is a definition of its own, named after
    what it does, and the function is composed from them in the order of the
    source.  Files under internal/maintenance/ belong to one Go type,
    [MaintenanceService]; its fields (client, clock, recorder) are the calls.

    ** How the parts interact

    [Controller.Reconcile] reads the plan and runs [reconcilePass]: finalizer,
    ownership resolution, schedule, adoption, status, preview, drift, cordon,
    drain, metrics.  Steps communicate through the resolution (heap locations
    sorted into to-adopt, to-release, stable and conflicting) and through the
    plan's status, which each status patch replaces by the server's answer.
    [Watch.SetupWithManager] registers what starts a pass: events of plans and,
    by [Controller.nodeRelevantChange] and [nodeToPlans], of nodes.

    [Main.main] runs [EnsureCerts] before the manager exists, makes the webhook
    and metrics servers from what it left, hands the bootstrapper to the manager
    as the renewal loop [Start], and runs [SetupWithManager]; the calls of these
    two are embedded in its own ([MCert], [MSetup]).  Replicas share the CA
    through a Secret and nothing else.

    ** What the theorems show

    - Ownership safety: a pass only patches nodes that are unowned or the plan's
      own, whatever other writers do (reconcilePass_ownership); the decision is a
      partition independent of map order (ComputeOwnership_partition); adoption,
      drift handling and the cordon phase touch exactly the nodes they may
      (ReconcileOwnership_adopts, ReconcileDrift_releases, ReconcileCordon_effect);
      deletion undoes everything and only then drops the finalizer
      (CleanUp_releases, Reconcile_deletion); adopting and releasing is a round
      trip for a node nobody had cordoned (adopt_release_roundtrip), atomic
      (AdoptNode_atomic), and cordoning is idempotent (CordonNode_idempotent).
    - The cluster as a whole: with any number of plans reconciled concurrently, users
      and other controllers changing nodes and plans, failing requests and crashes
      between any two calls, no node is ever left in the name of a plan that is gone
      (cluster_no_orphans).  The manager's client reads from caches, which in the
      model may hold anything; the theorem takes that a plan read with the finalizer
      has it on the server and that a listing of all nodes misses no node of the
      plan ([caughtUp]).  It takes, too, at most one pass per plan at a time, and
      requests that are carried out, if at all, before they are answered.  With a
      cache that is behind an adoption it fails (stale_cache_orphans).  Left to
      itself, with caches that are up to date, a deletion completes in one reconcile
      and gives every node back schedulable and without the operator's marks
      (deletion_completes).
    - The whole pass: against a faithful server, with caches that are up to date and
      nobody else writing, every node ends as the specification [nodeSpec] says (reconcile_refines), and
      reconciling again at once changes no node (reconcile_settles: it takes that
      the server stores the status it is sent; a free node with a cordon
      annotation left on it is let go again by the second pass,
      stale_annotation_unsettled).  In any environment it never panics (Reconcile_no_panic), writes no node before
      the finalizer is stored (reconcilePass_finalizer_first) and removes pods only
      in its drain phase, with the drain window open (reconcilePass_evictions).
      Every status it sends is well formed (Reconcile_wellTyped).
    - Progress: a drain whose evictions are accepted succeeds in the first pass
      after the pods have gone (drain_completes), and the events a plan depends on
      start a pass (SetupWithManager_wakes, SetupWithManager_plan_events).
    - Drain safety: which pods are evicted and from which nodes
      (ReconcileDrain_evictions, classifyPods_evictable_iff), and that a node
      reported ready is empty (ReconcileDrain_ready_empty).  The classification is
      its declarative specification (classifyPods_spec) and monotone in the
      options (classifyPods_laxer); the outcome of a node's drain is exact on every
      branch (drainNode_outcome).
    - Concurrency: the pool of goroutines refines the sequential loop
      (drainPool_refines), respects its semaphore (drainPool_bounded) and always
      terminates (drainPool_finishes).
    - Status: what each phase may write (UpdateStatus_patch, ReconcilePreview_safe,
      applyDrainResults_pass), conditions and phase (setDrainConditions_verdict,
      computePhase_iff), counters and percentages without overflow
      (applyOutcome_progress, recomputePlanSummaries_spec), what survives a pass
      (buildNodeStatus_carries), deadlines (applyDrainResults_deadline,
      ReconcileDrain_terminal), budgets (buildPDBIssues_spec).
    - Scheduling (CheckSchedule_spec, scheduleAt_requeue), admission
      (Handle_nodes, Handle_selector), metrics: what is exported (RecordPlan_gauges),
      that it goes with the plan and never panics (RecordPlan_DeletePlan).
    - Certificates: a check leaves every server with a valid pair and the webhook
      with its CA (EnsureCerts_serves), writes nothing when nothing is due
      (EnsureCerts_idempotent), returns (EnsureCerts_returns), and replaces files
      whole even when interrupted (writeCertsToDisk_atomic); replicas that start
      together agree on one CA (EnsureCerts_HA); the renewal loop outlives failed
      checks (Start_survives).
    - The model itself: a copy of a plan is a snapshot, whatever is written in
      place afterwards (DeepCopy_snapshot).
    - The process: what makes it exit (main_exits) and which servers it runs with
      which certificates (main_certificates); what its [init] functions leave
      (inits_spec).

    ** Bounds

    - [maxPods] = 21474836: with at most that many pods (nodes), [x * 100] fits an
      int32, so progress and averages are exact.  Clusters have thousands.
    - [podListsFit]: a pod list is shorter than 2^31, so [int32(len(..))] is exact.
    - [maxTimeoutMinutes] = 153722867: the largest [timeoutMinutes] whose Duration
      fits an int64 (292 years); a larger one wraps (drainExpired_overflow).
    - [waitFits]: a start time less than 292 years away; beyond it the requeue
      interval wraps (CheckSchedule_overflow).
    - [polls]: the bootstrap waits two seconds between polls under a deadline of
      two minutes, so at most sixty waits and 61 polls are enough.
    - [validFor]: a certificate lasts ninety days from its creation, less the
      second DER encoding truncates.

    ** Not modelled

    Logging; the parsing of the command line ([Flags] is its result); resource
    versions; of the objects in Cluster, the fields the operator neither reads nor
    writes; how the caches of the manager's client are filled (in Cluster they hold
    anything, elsewhere a read may answer anything); file permissions beyond the arguments of the calls that set them. *)
From stdpp Require Export base tactics option list gmap strings pretty numbers.
From Stdlib Require Export ZArith Lia.

#[global] Open Scope string_scope.
#[global] Open Scope list_scope.
#[global] Open Scope Z_scope.

Coercion Z.of_nat : nat >-> Z.

(** ** Go values the whole program uses *)

(** A Go [map[string]string]: [None] is the nil map. *)
Abbreviation strmap := (option (gmap string string)).

(** [m[k]] of a possibly nil map: the zero value when the key is absent. *)
Definition mapGet (m : strmap) (k : string) : string :=
  default "" (m ≫= lookup k).

#[global] Arguments mapGet : simpl never.

(** [_, ok := m[k]]. *)
Definition mapHas (m : strmap) (k : string) : bool :=
  bool_decide (is_Some (m ≫= lookup k)).

(** [delete(m, k)]: a no-op on the nil map. *)
Definition mapDelete (m : strmap) (k : string) : strmap := delete k <$> m.

(** [m[k] = v]: [None] is the run-time panic of writing to a nil map. *)
Definition mapSet (m : strmap) (k v : string) : option strmap :=
  match m with
  | Some m' => Some (Some (<[k:=v]> m'))
  | None => None
  end.

(** [if m == nil { m = map[string]string{} }]. *)
Definition mapInit (m : strmap) : strmap :=
  match m with Some _ => m | None => Some ∅ end.

(** Text of [fmt.Sprintf]: [%d] is [pretty], [%q] is [quote]. *)
Definition dquote : string := String (Ascii.ascii_of_nat 34) EmptyString.

Definition hexDigit (n : nat) : string :=
  default "0" (String.get n "0123456789abcdef" ≫= λ c, Some (String c EmptyString)).

(** One byte of [strconv.Quote]; bytes from 128 on are kept (the names printed
    with [%q] in this program are DNS labels, hence ASCII). *)
Definition quoteByte (c : Ascii.ascii) : string :=
  let n := Ascii.nat_of_ascii c in
  if decide (n = 34 ∨ n = 92)%nat then String (Ascii.ascii_of_nat 92) (String c EmptyString)
  else if decide (n = 7)%nat then "\a"
  else if decide (n = 8)%nat then "\b"
  else if decide (n = 9)%nat then "\t"
  else if decide (n = 10)%nat then "\n"
  else if decide (n = 11)%nat then "\v"
  else if decide (n = 12)%nat then "\f"
  else if decide (n = 13)%nat then "\r"
  else if decide (n < 32 ∨ n = 127)%nat then "\x" +:+ hexDigit (n / 16) +:+ hexDigit (n mod 16)
  else String c EmptyString.

Fixpoint quoteBytes (s : string) : string :=
  match s with
  | EmptyString => EmptyString
  | String c s' => quoteByte c +:+ quoteBytes s'
  end.

Definition quote (s : string) : string := dquote +:+ quoteBytes s +:+ dquote.

(** [strings.Join]. *)
Fixpoint strJoin (sep : string) (l : list string) : string :=
  match l with
  | [] => ""
  | [s] => s
  | s :: l' => s +:+ sep +:+ strJoin sep l'
  end.

(** [for i := range xs { if p(xs[i]) { xs[i] = f(xs[i]); return } }]: the first
    matching element of a slice is updated in place. *)
Fixpoint updateFirst {A} (p : A → bool) (f : A → A) (l : list A) : list A :=
  match l with
  | [] => []
  | x :: l' => if p x then f x :: l' else x :: updateFirst p f l'
  end.

(** [for _, x := range xs { if p(x) { return x } }]. *)
Fixpoint findFirst {A} (p : A → bool) (l : list A) : option A :=
  match l with
  | [] => None
  | x :: l' => if p x then Some x else findFirst p l'
  end.

(** ** Generic lemmas *)

Lemma not_ex_and {A} (P Q : A → Prop) : (¬ ∃ x, P x ∧ Q x) ↔ ∀ x, P x → ¬ Q x.
Proof. firstorder. Qed.

Lemma negb_true_not b : negb b = true ↔ ¬ b = true.
Proof. destruct b; cbn; split; congruence. Qed.

Lemma findFirst_Some {A} (p : A → bool) l x : findFirst p l = Some x → x ∈ l ∧ p x = true.
Proof.
  induction l as [|y l IH]; cbn; [done|]. destruct (p y) eqn:E.
  - intros [= ->]. split; [apply list_elem_of_here|done].
  - intros H. destruct (IH H). split; [by apply list_elem_of_further|done].
Qed.

Lemma findFirst_None {A} (p : A → bool) l : findFirst p l = None ↔ ∀ x, x ∈ l → p x = false.
Proof.
  induction l as [|y l IH]; cbn.
  - split; [|done]. intros _ x Hx. by apply not_elem_of_nil in Hx.
  - destruct (p y) eqn:E.
    + split; [done|]. intros H. specialize (H y (list_elem_of_here _ _)). congruence.
    + rewrite IH. setoid_rewrite elem_of_cons. split; [|by eauto]. intros H x [->|?]; eauto.
Qed.

(** The first match is updated when the update keeps it a match ... *)
Lemma findFirst_updateFirst_same {A} (p : A → bool) f l :
  (∀ x, p x = true → p (f x) = true) → findFirst p (updateFirst p f l) = f <$> findFirst p l.
Proof.
  intros Hf. induction l as [|y l IH]; cbn; [done|].
  destruct (p y) eqn:E; cbn; [by rewrite (Hf y E)|by rewrite E].
Qed.

(** ... and the first match of a disjoint predicate is not touched. *)
Lemma findFirst_updateFirst_other {A} (p q : A → bool) f l :
  (∀ x, p x = true → q x = false ∧ q (f x) = false) →
  findFirst q (updateFirst p f l) = findFirst q l.
Proof.
  intros Hf. induction l as [|y l IH]; cbn; [done|].
  destruct (p y) eqn:E; cbn; [by destruct (Hf y E) as [-> ->]|by rewrite IH].
Qed.

Lemma length_updateFirst {A} (p : A → bool) f l : length (updateFirst p f l) = length l.
Proof. induction l as [|y l IH]; cbn; [done|]. destruct (p y); cbn; [done|by rewrite IH]. Qed.

Lemma map_updateFirst {A B} (g : A → B) (p : A → bool) f l :
  (∀ x, g (f x) = g x) → map g (updateFirst p f l) = map g l.
Proof.
  intros Hf. induction l as [|y l IH]; cbn; [done|].
  destruct (p y); cbn; [by rewrite Hf|by rewrite IH].
Qed.

Lemma elem_of_concat {A} (x : A) ls : x ∈ concat ls ↔ ∃ l, x ∈ l ∧ l ∈ ls.
Proof.
  rewrite list_elem_of_In, in_concat. setoid_rewrite list_elem_of_In.
  split; intros (l & ? & ?); by exists l.
Qed.
