(* ===== verification/GoTime.v ===== *)
(** * Machine integers and the [time] package

    Go's [int32]/[int64] wrap-around and the operations of package [time] the
    program uses.  An instant ([time.Time], [metav1.Time]) is a number of
    nanoseconds since the Unix epoch in [Z]; a [time.Duration] is an [int64]
    number of nanoseconds, so arithmetic on durations is written with [int64]. *)
From S2P Require Import Prelude.

(** Two's complement truncation to a width. *)
Definition wrap (bits z : Z) : Z := (z + 2 ^ (bits - 1)) `mod` 2 ^ bits - 2 ^ (bits - 1).
Definition int32 (z : Z) : Z := wrap 32 z.
Definition int64 (z : Z) : Z := wrap 64 z.

Definition isInt32 (z : Z) : Prop := - 2 ^ 31 ≤ z < 2 ^ 31.
Definition isInt64 (z : Z) : Prop := - 2 ^ 63 ≤ z < 2 ^ 63.

Abbreviation Time := Z.
Abbreviation Duration := Z.

Definition Second : Duration := 1000000000.
Definition Millisecond : Duration := 1000000.
Definition Minute : Duration := 60 * Second.
Definition Hour : Duration := 60 * Minute.
Definition minDuration : Duration := - 2 ^ 63.
Definition maxDuration : Duration := 2 ^ 63 - 1.

(** [time.Time{}], 1 January of year 1. *)
Definition zeroTime : Time := - 62135596800 * 1000000000.

Definition Before (t u : Time) : bool := t <? u.
Definition After (t u : Time) : bool := u <? t.
Definition Add (t : Time) (d : Duration) : Time := t + d.

(** [Time.Sub] saturates at the bounds of [Duration]. *)
Definition Sub (t u : Time) : Duration := Z.max minDuration (Z.min maxDuration (t - u)).

(** [metav1.Time.IsZero] of a pointer. *)
Definition IsZero (t : option Time) : bool :=
  match t with None => true | Some t => t =? zeroTime end.

(** [time.Duration(n) * unit]. *)
Definition scaleDuration (n unit : Z) : Duration := int64 (n * unit).

(** ** [Time.UTC().Format(time.RFC3339)] *)

(** Proleptic Gregorian date of a day number counted from 1970-01-01. *)
Definition civilFromDays (days : Z) : Z * Z * Z :=
  let z := days + 719468 in
  let era := z `div` 146097 in
  let doe := z - era * 146097 in
  let yoe := (doe - doe `div` 1460 + doe `div` 36524 - doe `div` 146096) `div` 365 in
  let doy := doe - (365 * yoe + yoe `div` 4 - yoe `div` 100) in
  let mp := (5 * doy + 2) `div` 153 in
  let d := doy - (153 * mp + 2) `div` 5 + 1 in
  let m := if mp <? 10 then mp + 3 else mp - 9 in
  (yoe + era * 400 + (if m <=? 2 then 1 else 0), m, d).

(** A non-negative number padded with zeros to at least [width] digits. *)
Definition padZero (width : nat) (n : Z) : string :=
  let digits := pretty n in
  (String.concat "" (replicate (width - String.length digits) "0")) +:+ digits.

Definition formatRFC3339 (t : Time) : string :=
  let seconds := t `div` Second in
  let '(y, m, d) := civilFromDays (seconds `div` 86400) in
  let s := seconds `mod` 86400 in
  padZero 4 y +:+ "-" +:+ padZero 2 m +:+ "-" +:+ padZero 2 d +:+ "T"
  +:+ padZero 2 (s `div` 3600) +:+ ":" +:+ padZero 2 ((s `div` 60) `mod` 60) +:+ ":"
  +:+ padZero 2 (s `mod` 60) +:+ "Z".

(** ** Lemmas *)

Example formatRFC3339_epoch : formatRFC3339 0 = "1970-01-01T00:00:00Z".
Proof. reflexivity. Qed.

Example formatRFC3339_2026 :
  formatRFC3339 (1780365600 * Second) = "2026-06-02T02:00:00Z".
Proof. reflexivity. Qed.

Lemma wrap_id bits z : 0 < bits → - 2 ^ (bits - 1) ≤ z < 2 ^ (bits - 1) → wrap bits z = z.
Proof.
  intros Hb Hz. unfold wrap.
  assert (2 ^ bits = 2 * 2 ^ (bits - 1)) as Hp.
  { rewrite <-(Z.pow_succ_r 2 (bits - 1)) by lia. f_equal. lia. }
  rewrite Z.mod_small; lia.
Qed.

Lemma wrap_range bits z : 0 < bits → - 2 ^ (bits - 1) ≤ wrap bits z < 2 ^ (bits - 1).
Proof.
  intros Hb. unfold wrap.
  assert (2 ^ bits = 2 * 2 ^ (bits - 1)) as Hp.
  { rewrite <-(Z.pow_succ_r 2 (bits - 1)) by lia. f_equal. lia. }
  pose proof (Z.pow_pos_nonneg 2 (bits - 1) ltac:(lia) ltac:(lia)).
  pose proof (Z.mod_pos_bound (z + 2 ^ (bits - 1)) (2 ^ bits) ltac:(lia)). lia.
Qed.

Lemma int32_id z : isInt32 z → int32 z = z.
Proof. intros. apply wrap_id; [lia|]. exact H. Qed.

Lemma int64_id z : isInt64 z → int64 z = z.
Proof. intros. apply wrap_id; [lia|]. exact H. Qed.

Lemma int32_range z : isInt32 (int32 z).
Proof. apply (wrap_range 32). lia. Qed.

Lemma int64_range z : isInt64 (int64 z).
Proof. apply (wrap_range 64). lia. Qed.

(** One wrap past the upper bound. *)
Lemma int64_over z : 2 ^ 63 ≤ z < 2 ^ 64 → int64 z = z - 2 ^ 64.
Proof.
  intros Hz. unfold int64, wrap. change (2 ^ (64 - 1)) with (2 ^ 63).
  replace (z + 2 ^ 63) with (z - 2 ^ 63 + 1 * 2 ^ 64) by (change (2 ^ 64) with (2 * 2 ^ 63); lia).
  change (2 ^ 64) with (2 * 2 ^ 63) in *.
  rewrite Z.mod_add, Z.mod_small by lia. lia.
Qed.

Lemma int32_add_l a b : int32 (int32 a + b) = int32 (a + b).
Proof.
  unfold int32, wrap. f_equal.
  replace ((a + 2 ^ (32 - 1)) `mod` 2 ^ 32 - 2 ^ (32 - 1) + b + 2 ^ (32 - 1))
    with ((a + 2 ^ (32 - 1)) `mod` 2 ^ 32 + b) by lia.
  rewrite Zplus_mod_idemp_l. f_equal. lia.
Qed.

Lemma int32_0 : int32 0 = 0.
Proof. reflexivity. Qed.

(** [Time.Sub] inside its range, and its sign everywhere. *)
Lemma Sub_exact t u : minDuration ≤ t - u ≤ maxDuration → Sub t u = t - u.
Proof. unfold Sub. lia. Qed.

Lemma Sub_pos t u : u < t → 0 < Sub t u.
Proof. unfold Sub, maxDuration, minDuration. lia. Qed.

Lemma Sub_range t u : minDuration ≤ Sub t u ≤ maxDuration.
Proof. unfold Sub, maxDuration, minDuration. lia. Qed.

Lemma Before_spec t u : reflect (t < u) (Before t u).
Proof. apply Z.ltb_spec0. Qed.

Lemma After_spec t u : reflect (u < t) (After t u).
Proof. apply Z.ltb_spec0. Qed.

Ltac time_cases :=
  repeat match goal with
  | |- context [Before ?t ?u] => destruct (Before_spec t u)
  | |- context [After ?t ?u] => destruct (After_spec t u)
  | H : context [Before ?t ?u] |- _ => destruct (Before_spec t u)
  | H : context [After ?t ?u] |- _ => destruct (After_spec t u)
  end.
