(* ===== verification/Api.v ===== *)
(** * The API objects

    The types of [api/v1alpha1] (the [NodeMaintenancePlan] resource, its spec and
    status) and, of the Kubernetes types the program reads or writes, the fields
    it uses: [Node], [Pod], [PodDisruptionBudget], [Condition], [LabelSelector].
    A Go pointer that may be nil is an [option]; a string map that may be nil is a
    [strmap].  Metadata the program never reads ([LastTransitionTime], resource
    versions, managed fields) has no field.  Each [set_*] is the assignment
    [x.Field = v] on one field. *)
From S2P Require Import Prelude GoTime.

(** ** Kubernetes data *)

Record LabelSelectorRequirement : Type := MkLabelSelectorRequirement {
  lsr_Key : string;
  lsr_Operator : string;
  lsr_Values : list string
}.

Record LabelSelector : Type := MkLabelSelector {
  ls_MatchLabels : list (string * string);
  ls_MatchExpressions : list LabelSelectorRequirement
}.

Record Condition : Type := MkCondition {
  cd_Type : string;
  cd_Status : string;
  cd_ObservedGeneration : Z;
  cd_Reason : string;
  cd_Message : string
}.

Definition ConditionTrue : string := "True".
Definition ConditionFalse : string := "False".
Definition ConditionUnknown : string := "Unknown".

Record NodeCondition : Type := MkNodeCondition {
  nc_Type : string;
  nc_Status : string
}.

Definition NodeReady : string := "Ready".

Record Node : Type := MkNode {
  n_Name : string;
  n_Labels : strmap;
  n_Annotations : strmap;
  n_DeletionTimestamp : option Time;
  n_Unschedulable : bool;
  n_Conditions : list NodeCondition
}.

Definition set_n_Labels (v : strmap) (x : Node) : Node :=
  MkNode x.(n_Name) v x.(n_Annotations) x.(n_DeletionTimestamp) x.(n_Unschedulable)
    x.(n_Conditions).
Definition set_n_Annotations (v : strmap) (x : Node) : Node :=
  MkNode x.(n_Name) x.(n_Labels) v x.(n_DeletionTimestamp) x.(n_Unschedulable) x.(n_Conditions).
Definition set_n_Unschedulable (v : bool) (x : Node) : Node :=
  MkNode x.(n_Name) x.(n_Labels) x.(n_Annotations) x.(n_DeletionTimestamp) v x.(n_Conditions).

Record OwnerReference : Type := MkOwnerReference {
  or_Kind : string;
  or_Controller : option bool
}.

(** A volume; [v_EmptyDir] says whether [vol.EmptyDir != nil]. *)
Record Volume : Type := MkVolume { v_EmptyDir : bool }.

Record Pod : Type := MkPod {
  pod_Namespace : string;
  pod_Name : string;
  pod_Labels : strmap;
  pod_Annotations : strmap;
  pod_DeletionTimestamp : option Time;
  pod_OwnerReferences : list OwnerReference;
  pod_TerminationGracePeriodSeconds : option Z;
  pod_Volumes : list Volume;
  pod_Phase : string
}.

Definition PodSucceeded : string := "Succeeded".
Definition PodFailed : string := "Failed".
Definition MirrorPodAnnotationKey : string := "kubernetes.io/config.mirror".

Record PodDisruptionBudget : Type := MkPodDisruptionBudget {
  pdb_Name : string;
  pdb_Selector : option LabelSelector;
  pdb_DisruptionsAllowed : Z
}.

Definition EventTypeNormal : string := "Normal".
Definition EventTypeWarning : string := "Warning".

(** ** annotations.go *)

Definition ManagedByAnnotation : string := "maintenance.nmoo.io/managed-by".
Definition ReasonAnnotation : string := "maintenance.nmoo.io/reason".
Definition CordonedAnnotation : string := "maintenance.nmoo.io/cordoned".
Definition InMaintenanceLabel : string := "maintenance.nmoo.io/in-maintenance".

(** ** nodemaintenanceplan_types.go *)

Definition NodeMaintenancePlanFinalizer : string := "maintenance.nmoo.io/finalizer".

Definition PhasePending : string := "Pending".
Definition PhaseAdopted : string := "Adopted".
Definition PhaseScheduled : string := "Scheduled".
Definition PhaseCordoned : string := "Cordoned".
Definition PhaseDraining : string := "Draining".
Definition PhaseBlocked : string := "Blocked".
Definition PhaseReady : string := "Ready".
Definition PhaseTimedOut : string := "TimedOut".
Definition PhaseConflict : string := "Conflict".

Definition ConditionNodesSelected : string := "NodesSelected".
Definition ConditionScheduled : string := "Scheduled".
Definition ConditionCordoned : string := "Cordoned".
Definition ConditionNodeNotReady : string := "NodeNotReady".
Definition ConditionDrainInProgress : string := "DrainInProgress".
Definition ConditionDrainSucceeded : string := "DrainSucceeded".
Definition ConditionDrainBlocked : string := "DrainBlocked".
Definition ConditionConflict : string := "ConflictDetected".
Definition ConditionDriftDetected : string := "DriftDetected".
Definition ConditionDrainTimedOut : string := "DrainTimedOut".

Record CordonSpec : Type := MkCordonSpec {
  c_Enabled : bool;
  c_StartAt : option Time
}.

Record DrainOptions : Type := MkDrainOptions {
  o_MaxParallel : Z;
  o_IgnoreDaemonSets : bool;
  o_DeleteEmptyDirData : bool;
  o_Force : bool;
  o_PodTerminationGracePeriodSeconds : option Z;
  o_RespectPodDisruptionBudgets : bool
}.

Record DrainSpec : Type := MkDrainSpec {
  d_Enabled : bool;
  d_StartAt : option Time;
  d_Options : option DrainOptions;
  d_TimeoutMinutes : option Z
}.

Record NodeMaintenancePlanSpec : Type := MkNodeMaintenancePlanSpec {
  s_Nodes : list string;
  s_NodeSelector : option LabelSelector;
  s_Reason : string;
  s_Cordon : option CordonSpec;
  s_Drain : option DrainSpec
}.

Record PodReference : Type := MkPodReference {
  pr_Namespace : string;
  pr_Name : string
}.

Record NodeIssue : Type := MkNodeIssue {
  i_Type : string;
  i_Message : string;
  i_PodRef : option PodReference
}.

Record NodeDrainPreview : Type := MkNodeDrainPreview {
  pv_EvictableCount : Z;
  pv_SkippedCount : Z;
  pv_Issues : list NodeIssue;
  pv_ComputedAt : option Time
}.

Record NodeStatus : Type := MkNodeStatus {
  ns_Name : string;
  ns_Cordoned : bool;
  ns_CordonedAt : option Time;
  ns_DrainProgress : Z;
  ns_Drifted : bool;
  ns_DriftReason : string;
  ns_TotalPods : Z;
  ns_InitialPodCount : Z;
  ns_EvictablePods : Z;
  ns_BlockedPods : Z;
  ns_EvictedTotal : Z;
  ns_DrainPreview : option NodeDrainPreview;
  ns_Issues : list NodeIssue;
  ns_NotReadySince : option Time;
  ns_ReadyForMaintenance : bool
}.

Record NodeMaintenancePlanStatus : Type := MkNodeMaintenancePlanStatus {
  ps_ResolvedNodes : list string;
  ps_NodeSnapshotTaken : bool;
  ps_Conditions : list Condition;
  ps_Nodes : list NodeStatus;
  ps_DrainStartedAt : option Time;
  ps_LastPreviewTime : option Time;
  ps_TotalEvictablePods : Z;
  ps_TotalPreviewIssues : Z;
  ps_ObservedGeneration : Z;
  ps_AllNodesReadyForMaintenance : bool;
  ps_NodeCount : Z;
  ps_Phase : string;
  ps_ReadySummary : string;
  ps_DrainProgress : string;
  ps_DrainingNodeCount : string;
  ps_BlockedNodeCount : string;
  ps_Drifted : option bool
}.

Record NodeMaintenancePlan : Type := MkNodeMaintenancePlan {
  p_Name : string;
  p_Namespace : string;
  p_Generation : Z;
  p_DeletionTimestamp : option Time;
  p_Finalizers : list string;
  p_Spec : NodeMaintenancePlanSpec;
  p_Status : NodeMaintenancePlanStatus
}.

(** The zero value [NodeStatus{}]. *)
Definition zeroNodeStatus : NodeStatus :=
  MkNodeStatus "" false None 0 false "" 0 0 0 0 0 None [] None false.

(** The zero value [NodeMaintenancePlanStatus{}]. *)
Definition zeroPlanStatus : NodeMaintenancePlanStatus :=
  MkNodeMaintenancePlanStatus [] false [] [] None None 0 0 0 false 0 "" "" "" "" "" None.

Definition set_ns_Name (v : string) (x : NodeStatus) : NodeStatus :=
  MkNodeStatus v x.(ns_Cordoned) x.(ns_CordonedAt) x.(ns_DrainProgress) x.(ns_Drifted)
    x.(ns_DriftReason) x.(ns_TotalPods) x.(ns_InitialPodCount) x.(ns_EvictablePods)
    x.(ns_BlockedPods) x.(ns_EvictedTotal) x.(ns_DrainPreview) x.(ns_Issues)
    x.(ns_NotReadySince) x.(ns_ReadyForMaintenance).
Definition set_ns_Cordoned (v : bool) (x : NodeStatus) : NodeStatus :=
  MkNodeStatus x.(ns_Name) v x.(ns_CordonedAt) x.(ns_DrainProgress) x.(ns_Drifted)
    x.(ns_DriftReason) x.(ns_TotalPods) x.(ns_InitialPodCount) x.(ns_EvictablePods)
    x.(ns_BlockedPods) x.(ns_EvictedTotal) x.(ns_DrainPreview) x.(ns_Issues)
    x.(ns_NotReadySince) x.(ns_ReadyForMaintenance).
Definition set_ns_DrainProgress (v : Z) (x : NodeStatus) : NodeStatus :=
  MkNodeStatus x.(ns_Name) x.(ns_Cordoned) x.(ns_CordonedAt) v x.(ns_Drifted) x.(ns_DriftReason)
    x.(ns_TotalPods) x.(ns_InitialPodCount) x.(ns_EvictablePods) x.(ns_BlockedPods)
    x.(ns_EvictedTotal) x.(ns_DrainPreview) x.(ns_Issues) x.(ns_NotReadySince)
    x.(ns_ReadyForMaintenance).
Definition set_ns_Drifted (v : bool) (x : NodeStatus) : NodeStatus :=
  MkNodeStatus x.(ns_Name) x.(ns_Cordoned) x.(ns_CordonedAt) x.(ns_DrainProgress) v
    x.(ns_DriftReason) x.(ns_TotalPods) x.(ns_InitialPodCount) x.(ns_EvictablePods)
    x.(ns_BlockedPods) x.(ns_EvictedTotal) x.(ns_DrainPreview) x.(ns_Issues)
    x.(ns_NotReadySince) x.(ns_ReadyForMaintenance).
Definition set_ns_DriftReason (v : string) (x : NodeStatus) : NodeStatus :=
  MkNodeStatus x.(ns_Name) x.(ns_Cordoned) x.(ns_CordonedAt) x.(ns_DrainProgress) x.(ns_Drifted)
    v x.(ns_TotalPods) x.(ns_InitialPodCount) x.(ns_EvictablePods) x.(ns_BlockedPods)
    x.(ns_EvictedTotal) x.(ns_DrainPreview) x.(ns_Issues) x.(ns_NotReadySince)
    x.(ns_ReadyForMaintenance).
Definition set_ns_TotalPods (v : Z) (x : NodeStatus) : NodeStatus :=
  MkNodeStatus x.(ns_Name) x.(ns_Cordoned) x.(ns_CordonedAt) x.(ns_DrainProgress) x.(ns_Drifted)
    x.(ns_DriftReason) v x.(ns_InitialPodCount) x.(ns_EvictablePods) x.(ns_BlockedPods)
    x.(ns_EvictedTotal) x.(ns_DrainPreview) x.(ns_Issues) x.(ns_NotReadySince)
    x.(ns_ReadyForMaintenance).
Definition set_ns_InitialPodCount (v : Z) (x : NodeStatus) : NodeStatus :=
  MkNodeStatus x.(ns_Name) x.(ns_Cordoned) x.(ns_CordonedAt) x.(ns_DrainProgress) x.(ns_Drifted)
    x.(ns_DriftReason) x.(ns_TotalPods) v x.(ns_EvictablePods) x.(ns_BlockedPods)
    x.(ns_EvictedTotal) x.(ns_DrainPreview) x.(ns_Issues) x.(ns_NotReadySince)
    x.(ns_ReadyForMaintenance).
Definition set_ns_EvictablePods (v : Z) (x : NodeStatus) : NodeStatus :=
  MkNodeStatus x.(ns_Name) x.(ns_Cordoned) x.(ns_CordonedAt) x.(ns_DrainProgress) x.(ns_Drifted)
    x.(ns_DriftReason) x.(ns_TotalPods) x.(ns_InitialPodCount) v x.(ns_BlockedPods)
    x.(ns_EvictedTotal) x.(ns_DrainPreview) x.(ns_Issues) x.(ns_NotReadySince)
    x.(ns_ReadyForMaintenance).
Definition set_ns_BlockedPods (v : Z) (x : NodeStatus) : NodeStatus :=
  MkNodeStatus x.(ns_Name) x.(ns_Cordoned) x.(ns_CordonedAt) x.(ns_DrainProgress) x.(ns_Drifted)
    x.(ns_DriftReason) x.(ns_TotalPods) x.(ns_InitialPodCount) x.(ns_EvictablePods) v
    x.(ns_EvictedTotal) x.(ns_DrainPreview) x.(ns_Issues) x.(ns_NotReadySince)
    x.(ns_ReadyForMaintenance).
Definition set_ns_EvictedTotal (v : Z) (x : NodeStatus) : NodeStatus :=
  MkNodeStatus x.(ns_Name) x.(ns_Cordoned) x.(ns_CordonedAt) x.(ns_DrainProgress) x.(ns_Drifted)
    x.(ns_DriftReason) x.(ns_TotalPods) x.(ns_InitialPodCount) x.(ns_EvictablePods)
    x.(ns_BlockedPods) v x.(ns_DrainPreview) x.(ns_Issues) x.(ns_NotReadySince)
    x.(ns_ReadyForMaintenance).
Definition set_ns_DrainPreview (v : option NodeDrainPreview) (x : NodeStatus) : NodeStatus :=
  MkNodeStatus x.(ns_Name) x.(ns_Cordoned) x.(ns_CordonedAt) x.(ns_DrainProgress) x.(ns_Drifted)
    x.(ns_DriftReason) x.(ns_TotalPods) x.(ns_InitialPodCount) x.(ns_EvictablePods)
    x.(ns_BlockedPods) x.(ns_EvictedTotal) v x.(ns_Issues) x.(ns_NotReadySince)
    x.(ns_ReadyForMaintenance).
Definition set_ns_Issues (v : list NodeIssue) (x : NodeStatus) : NodeStatus :=
  MkNodeStatus x.(ns_Name) x.(ns_Cordoned) x.(ns_CordonedAt) x.(ns_DrainProgress) x.(ns_Drifted)
    x.(ns_DriftReason) x.(ns_TotalPods) x.(ns_InitialPodCount) x.(ns_EvictablePods)
    x.(ns_BlockedPods) x.(ns_EvictedTotal) x.(ns_DrainPreview) v x.(ns_NotReadySince)
    x.(ns_ReadyForMaintenance).
Definition set_ns_NotReadySince (v : option Time) (x : NodeStatus) : NodeStatus :=
  MkNodeStatus x.(ns_Name) x.(ns_Cordoned) x.(ns_CordonedAt) x.(ns_DrainProgress) x.(ns_Drifted)
    x.(ns_DriftReason) x.(ns_TotalPods) x.(ns_InitialPodCount) x.(ns_EvictablePods)
    x.(ns_BlockedPods) x.(ns_EvictedTotal) x.(ns_DrainPreview) x.(ns_Issues) v
    x.(ns_ReadyForMaintenance).
Definition set_ns_ReadyForMaintenance (v : bool) (x : NodeStatus) : NodeStatus :=
  MkNodeStatus x.(ns_Name) x.(ns_Cordoned) x.(ns_CordonedAt) x.(ns_DrainProgress) x.(ns_Drifted)
    x.(ns_DriftReason) x.(ns_TotalPods) x.(ns_InitialPodCount) x.(ns_EvictablePods)
    x.(ns_BlockedPods) x.(ns_EvictedTotal) x.(ns_DrainPreview) x.(ns_Issues)
    x.(ns_NotReadySince) v.

Definition set_ps_ResolvedNodes (v : list string) (x : NodeMaintenancePlanStatus) : NodeMaintenancePlanStatus :=
  MkNodeMaintenancePlanStatus v x.(ps_NodeSnapshotTaken) x.(ps_Conditions) x.(ps_Nodes)
    x.(ps_DrainStartedAt) x.(ps_LastPreviewTime) x.(ps_TotalEvictablePods)
    x.(ps_TotalPreviewIssues) x.(ps_ObservedGeneration) x.(ps_AllNodesReadyForMaintenance)
    x.(ps_NodeCount) x.(ps_Phase) x.(ps_ReadySummary) x.(ps_DrainProgress)
    x.(ps_DrainingNodeCount) x.(ps_BlockedNodeCount) x.(ps_Drifted).
Definition set_ps_NodeSnapshotTaken (v : bool) (x : NodeMaintenancePlanStatus) : NodeMaintenancePlanStatus :=
  MkNodeMaintenancePlanStatus x.(ps_ResolvedNodes) v x.(ps_Conditions) x.(ps_Nodes)
    x.(ps_DrainStartedAt) x.(ps_LastPreviewTime) x.(ps_TotalEvictablePods)
    x.(ps_TotalPreviewIssues) x.(ps_ObservedGeneration) x.(ps_AllNodesReadyForMaintenance)
    x.(ps_NodeCount) x.(ps_Phase) x.(ps_ReadySummary) x.(ps_DrainProgress)
    x.(ps_DrainingNodeCount) x.(ps_BlockedNodeCount) x.(ps_Drifted).
Definition set_ps_Conditions (v : list Condition) (x : NodeMaintenancePlanStatus) : NodeMaintenancePlanStatus :=
  MkNodeMaintenancePlanStatus x.(ps_ResolvedNodes) x.(ps_NodeSnapshotTaken) v x.(ps_Nodes)
    x.(ps_DrainStartedAt) x.(ps_LastPreviewTime) x.(ps_TotalEvictablePods)
    x.(ps_TotalPreviewIssues) x.(ps_ObservedGeneration) x.(ps_AllNodesReadyForMaintenance)
    x.(ps_NodeCount) x.(ps_Phase) x.(ps_ReadySummary) x.(ps_DrainProgress)
    x.(ps_DrainingNodeCount) x.(ps_BlockedNodeCount) x.(ps_Drifted).
Definition set_ps_Nodes (v : list NodeStatus) (x : NodeMaintenancePlanStatus) : NodeMaintenancePlanStatus :=
  MkNodeMaintenancePlanStatus x.(ps_ResolvedNodes) x.(ps_NodeSnapshotTaken) x.(ps_Conditions) v
    x.(ps_DrainStartedAt) x.(ps_LastPreviewTime) x.(ps_TotalEvictablePods)
    x.(ps_TotalPreviewIssues) x.(ps_ObservedGeneration) x.(ps_AllNodesReadyForMaintenance)
    x.(ps_NodeCount) x.(ps_Phase) x.(ps_ReadySummary) x.(ps_DrainProgress)
    x.(ps_DrainingNodeCount) x.(ps_BlockedNodeCount) x.(ps_Drifted).
Definition set_ps_DrainStartedAt (v : option Time) (x : NodeMaintenancePlanStatus) : NodeMaintenancePlanStatus :=
  MkNodeMaintenancePlanStatus x.(ps_ResolvedNodes) x.(ps_NodeSnapshotTaken) x.(ps_Conditions)
    x.(ps_Nodes) v x.(ps_LastPreviewTime) x.(ps_TotalEvictablePods) x.(ps_TotalPreviewIssues)
    x.(ps_ObservedGeneration) x.(ps_AllNodesReadyForMaintenance) x.(ps_NodeCount) x.(ps_Phase)
    x.(ps_ReadySummary) x.(ps_DrainProgress) x.(ps_DrainingNodeCount) x.(ps_BlockedNodeCount)
    x.(ps_Drifted).
Definition set_ps_LastPreviewTime (v : option Time) (x : NodeMaintenancePlanStatus) : NodeMaintenancePlanStatus :=
  MkNodeMaintenancePlanStatus x.(ps_ResolvedNodes) x.(ps_NodeSnapshotTaken) x.(ps_Conditions)
    x.(ps_Nodes) x.(ps_DrainStartedAt) v x.(ps_TotalEvictablePods) x.(ps_TotalPreviewIssues)
    x.(ps_ObservedGeneration) x.(ps_AllNodesReadyForMaintenance) x.(ps_NodeCount) x.(ps_Phase)
    x.(ps_ReadySummary) x.(ps_DrainProgress) x.(ps_DrainingNodeCount) x.(ps_BlockedNodeCount)
    x.(ps_Drifted).
Definition set_ps_TotalEvictablePods (v : Z) (x : NodeMaintenancePlanStatus) : NodeMaintenancePlanStatus :=
  MkNodeMaintenancePlanStatus x.(ps_ResolvedNodes) x.(ps_NodeSnapshotTaken) x.(ps_Conditions)
    x.(ps_Nodes) x.(ps_DrainStartedAt) x.(ps_LastPreviewTime) v x.(ps_TotalPreviewIssues)
    x.(ps_ObservedGeneration) x.(ps_AllNodesReadyForMaintenance) x.(ps_NodeCount) x.(ps_Phase)
    x.(ps_ReadySummary) x.(ps_DrainProgress) x.(ps_DrainingNodeCount) x.(ps_BlockedNodeCount)
    x.(ps_Drifted).
Definition set_ps_TotalPreviewIssues (v : Z) (x : NodeMaintenancePlanStatus) : NodeMaintenancePlanStatus :=
  MkNodeMaintenancePlanStatus x.(ps_ResolvedNodes) x.(ps_NodeSnapshotTaken) x.(ps_Conditions)
    x.(ps_Nodes) x.(ps_DrainStartedAt) x.(ps_LastPreviewTime) x.(ps_TotalEvictablePods) v
    x.(ps_ObservedGeneration) x.(ps_AllNodesReadyForMaintenance) x.(ps_NodeCount) x.(ps_Phase)
    x.(ps_ReadySummary) x.(ps_DrainProgress) x.(ps_DrainingNodeCount) x.(ps_BlockedNodeCount)
    x.(ps_Drifted).
Definition set_ps_ObservedGeneration (v : Z) (x : NodeMaintenancePlanStatus) : NodeMaintenancePlanStatus :=
  MkNodeMaintenancePlanStatus x.(ps_ResolvedNodes) x.(ps_NodeSnapshotTaken) x.(ps_Conditions)
    x.(ps_Nodes) x.(ps_DrainStartedAt) x.(ps_LastPreviewTime) x.(ps_TotalEvictablePods)
    x.(ps_TotalPreviewIssues) v x.(ps_AllNodesReadyForMaintenance) x.(ps_NodeCount) x.(ps_Phase)
    x.(ps_ReadySummary) x.(ps_DrainProgress) x.(ps_DrainingNodeCount) x.(ps_BlockedNodeCount)
    x.(ps_Drifted).
Definition set_ps_AllNodesReadyForMaintenance (v : bool) (x : NodeMaintenancePlanStatus) : NodeMaintenancePlanStatus :=
  MkNodeMaintenancePlanStatus x.(ps_ResolvedNodes) x.(ps_NodeSnapshotTaken) x.(ps_Conditions)
    x.(ps_Nodes) x.(ps_DrainStartedAt) x.(ps_LastPreviewTime) x.(ps_TotalEvictablePods)
    x.(ps_TotalPreviewIssues) x.(ps_ObservedGeneration) v x.(ps_NodeCount) x.(ps_Phase)
    x.(ps_ReadySummary) x.(ps_DrainProgress) x.(ps_DrainingNodeCount) x.(ps_BlockedNodeCount)
    x.(ps_Drifted).
Definition set_ps_NodeCount (v : Z) (x : NodeMaintenancePlanStatus) : NodeMaintenancePlanStatus :=
  MkNodeMaintenancePlanStatus x.(ps_ResolvedNodes) x.(ps_NodeSnapshotTaken) x.(ps_Conditions)
    x.(ps_Nodes) x.(ps_DrainStartedAt) x.(ps_LastPreviewTime) x.(ps_TotalEvictablePods)
    x.(ps_TotalPreviewIssues) x.(ps_ObservedGeneration) x.(ps_AllNodesReadyForMaintenance) v
    x.(ps_Phase) x.(ps_ReadySummary) x.(ps_DrainProgress) x.(ps_DrainingNodeCount)
    x.(ps_BlockedNodeCount) x.(ps_Drifted).
Definition set_ps_Phase (v : string) (x : NodeMaintenancePlanStatus) : NodeMaintenancePlanStatus :=
  MkNodeMaintenancePlanStatus x.(ps_ResolvedNodes) x.(ps_NodeSnapshotTaken) x.(ps_Conditions)
    x.(ps_Nodes) x.(ps_DrainStartedAt) x.(ps_LastPreviewTime) x.(ps_TotalEvictablePods)
    x.(ps_TotalPreviewIssues) x.(ps_ObservedGeneration) x.(ps_AllNodesReadyForMaintenance)
    x.(ps_NodeCount) v x.(ps_ReadySummary) x.(ps_DrainProgress) x.(ps_DrainingNodeCount)
    x.(ps_BlockedNodeCount) x.(ps_Drifted).
Definition set_ps_ReadySummary (v : string) (x : NodeMaintenancePlanStatus) : NodeMaintenancePlanStatus :=
  MkNodeMaintenancePlanStatus x.(ps_ResolvedNodes) x.(ps_NodeSnapshotTaken) x.(ps_Conditions)
    x.(ps_Nodes) x.(ps_DrainStartedAt) x.(ps_LastPreviewTime) x.(ps_TotalEvictablePods)
    x.(ps_TotalPreviewIssues) x.(ps_ObservedGeneration) x.(ps_AllNodesReadyForMaintenance)
    x.(ps_NodeCount) x.(ps_Phase) v x.(ps_DrainProgress) x.(ps_DrainingNodeCount)
    x.(ps_BlockedNodeCount) x.(ps_Drifted).
Definition set_ps_DrainProgress (v : string) (x : NodeMaintenancePlanStatus) : NodeMaintenancePlanStatus :=
  MkNodeMaintenancePlanStatus x.(ps_ResolvedNodes) x.(ps_NodeSnapshotTaken) x.(ps_Conditions)
    x.(ps_Nodes) x.(ps_DrainStartedAt) x.(ps_LastPreviewTime) x.(ps_TotalEvictablePods)
    x.(ps_TotalPreviewIssues) x.(ps_ObservedGeneration) x.(ps_AllNodesReadyForMaintenance)
    x.(ps_NodeCount) x.(ps_Phase) x.(ps_ReadySummary) v x.(ps_DrainingNodeCount)
    x.(ps_BlockedNodeCount) x.(ps_Drifted).
Definition set_ps_DrainingNodeCount (v : string) (x : NodeMaintenancePlanStatus) : NodeMaintenancePlanStatus :=
  MkNodeMaintenancePlanStatus x.(ps_ResolvedNodes) x.(ps_NodeSnapshotTaken) x.(ps_Conditions)
    x.(ps_Nodes) x.(ps_DrainStartedAt) x.(ps_LastPreviewTime) x.(ps_TotalEvictablePods)
    x.(ps_TotalPreviewIssues) x.(ps_ObservedGeneration) x.(ps_AllNodesReadyForMaintenance)
    x.(ps_NodeCount) x.(ps_Phase) x.(ps_ReadySummary) x.(ps_DrainProgress) v
    x.(ps_BlockedNodeCount) x.(ps_Drifted).
Definition set_ps_BlockedNodeCount (v : string) (x : NodeMaintenancePlanStatus) : NodeMaintenancePlanStatus :=
  MkNodeMaintenancePlanStatus x.(ps_ResolvedNodes) x.(ps_NodeSnapshotTaken) x.(ps_Conditions)
    x.(ps_Nodes) x.(ps_DrainStartedAt) x.(ps_LastPreviewTime) x.(ps_TotalEvictablePods)
    x.(ps_TotalPreviewIssues) x.(ps_ObservedGeneration) x.(ps_AllNodesReadyForMaintenance)
    x.(ps_NodeCount) x.(ps_Phase) x.(ps_ReadySummary) x.(ps_DrainProgress)
    x.(ps_DrainingNodeCount) v x.(ps_Drifted).
Definition set_ps_Drifted (v : option bool) (x : NodeMaintenancePlanStatus) : NodeMaintenancePlanStatus :=
  MkNodeMaintenancePlanStatus x.(ps_ResolvedNodes) x.(ps_NodeSnapshotTaken) x.(ps_Conditions)
    x.(ps_Nodes) x.(ps_DrainStartedAt) x.(ps_LastPreviewTime) x.(ps_TotalEvictablePods)
    x.(ps_TotalPreviewIssues) x.(ps_ObservedGeneration) x.(ps_AllNodesReadyForMaintenance)
    x.(ps_NodeCount) x.(ps_Phase) x.(ps_ReadySummary) x.(ps_DrainProgress)
    x.(ps_DrainingNodeCount) x.(ps_BlockedNodeCount) v.

Definition set_p_Finalizers (v : list string) (x : NodeMaintenancePlan) : NodeMaintenancePlan :=
  MkNodeMaintenancePlan x.(p_Name) x.(p_Namespace) x.(p_Generation) x.(p_DeletionTimestamp) v
    x.(p_Spec) x.(p_Status).
Definition set_p_Status (v : NodeMaintenancePlanStatus) (x : NodeMaintenancePlan) : NodeMaintenancePlan :=
  MkNodeMaintenancePlan x.(p_Name) x.(p_Namespace) x.(p_Generation) x.(p_DeletionTimestamp)
    x.(p_Finalizers) x.(p_Spec) v.

(** [plan.Status.F = v]. *)
Definition updStatus (f : NodeMaintenancePlanStatus → NodeMaintenancePlanStatus)
    (p : NodeMaintenancePlan) : NodeMaintenancePlan := set_p_Status (f (p_Status p)) p.

(** [plan.Spec.Cordon != nil && plan.Spec.Cordon.Enabled]. *)
Definition cordonEnabled (plan : NodeMaintenancePlan) : bool :=
  match s_Cordon (p_Spec plan) with Some c => c_Enabled c | None => false end.

(** [plan.Spec.Drain != nil && plan.Spec.Drain.Enabled]. *)
Definition drainEnabled (plan : NodeMaintenancePlan) : bool :=
  match s_Drain (p_Spec plan) with Some d => d_Enabled d | None => false end.

(** ** Reading the operator's annotations off a node *)

(** [node.Annotations[ManagedByAnnotation]]. *)
Definition owner (n : Node) : string := mapGet (n_Annotations n) ManagedByAnnotation.

(** [node.Annotations[CordonedAnnotation] == "true"]. *)
Definition operatorCordoned (n : Node) : bool :=
  bool_decide (mapGet (n_Annotations n) CordonedAnnotation = "true").
