(* ===== verification/GoHeap.v ===== *)
(** * Go memory

    Structs, pointers, slices and arrays in memory, for the code whose purpose is
    what is shared in memory: the deep copies of api/v1alpha1.  A view relates a
    value in memory to the immutable value it stands for in the rest of this
    library; a copy is deep when the copied value is viewed by newly allocated
    memory alone. *)
From S2P Require Import Prelude GoTime Api.

(** ** Values in memory *)

Abbreviation addr := positive.
Abbreviation ptr := (option addr).

(** A slice header: its array, where in it the slice starts, and its length. *)
Record sliceHeader : Type := MkSliceHeader { sl_array : addr; sl_offset : nat; sl_len : nat }.
Abbreviation slice := (option sliceHeader).

(** apimachinery's structs in memory, and what cells of theirs hold. *)
Class MetaTypes : Type := {
  GLabelSelector : Type;
  GObjectMeta : Type;
  GListMeta : Type;
  GMetaCell : Type;
  zeroLabelSelector : GLabelSelector;
  zeroObjectMeta : GObjectMeta;
  zeroListMeta : GListMeta;
  zeroMetaCell : GMetaCell
}.

Record TypeMeta : Type := MkTypeMeta { tm_Kind : string; tm_APIVersion : string }.

Section Structs.
Context `{MT : MetaTypes}.

Record GCordonSpec : Type := MkGCordonSpec { gc_Enabled : bool; gc_StartAt : ptr }.

Record GDrainOptions : Type := MkGDrainOptions {
  go_MaxParallel : Z;
  go_IgnoreDaemonSets : bool;
  go_DeleteEmptyDirData : bool;
  go_Force : bool;
  go_PodTerminationGracePeriodSeconds : ptr;
  go_RespectPodDisruptionBudgets : bool
}.

Record GDrainSpec : Type := MkGDrainSpec {
  gd_Enabled : bool;
  gd_StartAt : ptr;
  gd_Options : ptr;
  gd_TimeoutMinutes : ptr
}.

Record GNodeMaintenancePlanSpec : Type := MkGNodeMaintenancePlanSpec {
  gs_Nodes : slice;
  gs_NodeSelector : ptr;
  gs_Reason : string;
  gs_Cordon : ptr;
  gs_Drain : ptr
}.

Record GNodeIssue : Type := MkGNodeIssue {
  gi_Type : string;
  gi_Message : string;
  gi_PodRef : ptr
}.

Record GNodeDrainPreview : Type := MkGNodeDrainPreview {
  gv_EvictableCount : Z;
  gv_SkippedCount : Z;
  gv_Issues : slice;
  gv_ComputedAt : ptr
}.

Record GNodeStatus : Type := MkGNodeStatus {
  gn_Name : string;
  gn_Cordoned : bool;
  gn_CordonedAt : ptr;
  gn_DrainProgress : Z;
  gn_Drifted : bool;
  gn_DriftReason : string;
  gn_TotalPods : Z;
  gn_InitialPodCount : Z;
  gn_EvictablePods : Z;
  gn_BlockedPods : Z;
  gn_EvictedTotal : Z;
  gn_DrainPreview : ptr;
  gn_Issues : slice;
  gn_NotReadySince : ptr;
  gn_ReadyForMaintenance : bool
}.

Record GNodeMaintenancePlanStatus : Type := MkGNodeMaintenancePlanStatus {
  gt_ResolvedNodes : slice;
  gt_NodeSnapshotTaken : bool;
  gt_Conditions : slice;
  gt_Nodes : slice;
  gt_DrainStartedAt : ptr;
  gt_LastPreviewTime : ptr;
  gt_TotalEvictablePods : Z;
  gt_TotalPreviewIssues : Z;
  gt_ObservedGeneration : Z;
  gt_AllNodesReadyForMaintenance : bool;
  gt_NodeCount : Z;
  gt_Phase : string;
  gt_ReadySummary : string;
  gt_DrainProgress : string;
  gt_DrainingNodeCount : string;
  gt_BlockedNodeCount : string;
  gt_Drifted : ptr
}.

Record GNodeMaintenancePlan : Type := MkGNodeMaintenancePlan {
  gp_TypeMeta : TypeMeta;
  gp_ObjectMeta : GObjectMeta;
  gp_Spec : GNodeMaintenancePlanSpec;
  gp_Status : GNodeMaintenancePlanStatus
}.

Record GNodeMaintenancePlanList : Type := MkGNodeMaintenancePlanList {
  gl_TypeMeta : TypeMeta;
  gl_ListMeta : GListMeta;
  gl_Items : slice
}.

(** ** Cells *)

Inductive ty : Type :=
| TTime | TInt32 | TInt64 | TBool | TString | TCondition | TLabelSelector | TMetaCell
| TPodReference | TNodeIssue | TNodeDrainPreview | TNodeStatus | TCordonSpec | TDrainOptions
| TDrainSpec | TSpec | TStatus | TPlan | TPlanList
| TArray (t : ty).

#[export] Instance ty_eq_dec : EqDecision ty.
Proof. solve_decision. Defined.

Fixpoint den (t : ty) : Type :=
  match t with
  | TTime => Time
  | TInt32 | TInt64 => Z
  | TBool => bool
  | TString => string
  | TCondition => Condition
  | TLabelSelector => GLabelSelector
  | TMetaCell => GMetaCell
  | TPodReference => PodReference
  | TNodeIssue => GNodeIssue
  | TNodeDrainPreview => GNodeDrainPreview
  | TNodeStatus => GNodeStatus
  | TCordonSpec => GCordonSpec
  | TDrainOptions => GDrainOptions
  | TDrainSpec => GDrainSpec
  | TSpec => GNodeMaintenancePlanSpec
  | TStatus => GNodeMaintenancePlanStatus
  | TPlan => GNodeMaintenancePlan
  | TPlanList => GNodeMaintenancePlanList
  | TArray t => list (den t)
  end.

Definition zeroSpec : GNodeMaintenancePlanSpec := MkGNodeMaintenancePlanSpec None None "" None None.
Definition zeroStatus : GNodeMaintenancePlanStatus :=
  MkGNodeMaintenancePlanStatus None false None None None None 0 0 0 false 0 "" "" "" "" "" None.
Definition zeroTypeMeta : TypeMeta := MkTypeMeta "" "".

(** The zero value of a type. *)
Definition zero (t : ty) : den t :=
  match t return den t with
  | TTime => (0 : Time)
  | TInt32 | TInt64 => 0%Z
  | TBool => false
  | TString => ""
  | TCondition => MkCondition "" "" 0 "" ""
  | TLabelSelector => zeroLabelSelector
  | TMetaCell => zeroMetaCell
  | TPodReference => MkPodReference "" ""
  | TNodeIssue => MkGNodeIssue "" "" None
  | TNodeDrainPreview => MkGNodeDrainPreview 0 0 None None
  | TNodeStatus =>
      MkGNodeStatus "" false None 0 false "" 0 0 0 0 0 None None None false
  | TCordonSpec => MkGCordonSpec false None
  | TDrainOptions => MkGDrainOptions 0 false false false None false
  | TDrainSpec => MkGDrainSpec false None None None
  | TSpec => zeroSpec
  | TStatus => zeroStatus
  | TPlan => MkGNodeMaintenancePlan zeroTypeMeta zeroObjectMeta zeroSpec zeroStatus
  | TPlanList => MkGNodeMaintenancePlanList zeroTypeMeta zeroListMeta None
  | TArray _ => []
  end.

Inductive cell : Type := Cell (t : ty) (v : den t).

End Structs.

Abbreviation mem := (gmap addr cell).

Section Memory.
Context `{MT : MetaTypes}.

(** ** The monad: memory, and the panic of a bad dereference or index *)

Definition G (A : Type) : Type := mem → option (mem * A).

#[export] Instance G_ret : MRet G := λ A a m, Some (m, a).
#[export] Instance G_bind : MBind G := λ A B f g m,
  match g m with Some (m', a) => f a m' | None => None end.

Definition load (t : ty) (l : addr) : G (den t) := λ m,
  match m !! l with
  | Some (Cell t' v) =>
      match decide (t' = t) with
      | left e => Some (m, eq_rect t' den v t e)
      | right _ => None
      end
  | None => None
  end.

Definition store (t : ty) (l : addr) (v : den t) : G unit := λ m, Some (<[l := Cell t v]> m, tt).

(** [new(T)], [make([]T, n)]. *)
Definition new (t : ty) : G addr := λ m,
  let l := fresh (dom m) in Some (<[l := Cell t (zero t)]> m, l).

Definition make (t : ty) (n : nat) : G addr := λ m,
  let l := fresh (dom m) in Some (<[l := Cell (TArray t) (repeat (zero t) n)]> m, l).

Definition orPanic {A} (o : option A) : G A := λ m, a ← o; Some (m, a).

(** [a[i]], [a[i] = v]. *)
Definition index (t : ty) (l : addr) (i : nat) : G (den t) :=
  vs ← load (TArray t) l;
  orPanic ((vs : list (den t)) !! i).

Definition setIndex (t : ty) (l : addr) (i : nat) (v : den t) : G unit :=
  vs ← load (TArray t) l;
  orPanic ((vs : list (den t)) !! i);;
  store (TArray t) l (<[i := v]> (vs : list (den t))).

(** ** Copies the generator emits *)

(** [if in != nil { out = new(T); in.DeepCopyInto(out) }]. *)
Definition copyPtr (t : ty) (into : den t → G (den t)) (p : ptr) : G ptr :=
  match p with
  | None => mret None
  | Some l =>
      out ← new t;
      v ← load t l;
      v' ← into v;
      store t out v';;
      mret (Some out)
  end.

(** The loop that copies element after element, from [i] on. *)
Fixpoint copyElems (t : ty) (into : den t → G (den t)) (src : addr) (off : nat) (dst : addr)
    (n i : nat) : G unit :=
  match n with
  | O => mret tt
  | S n =>
      v ← index t src (off + i);
      v' ← into v;
      setIndex t dst i v';;
      copyElems t into src off dst n (S i)
  end.

(** [if in != nil { out = make([]T, len(in)); for i := range in { ... } }]. *)
Definition copySlice (t : ty) (into : den t → G (den t)) (s : slice) : G slice :=
  match s with
  | None => mret None
  | Some h =>
      out ← make t (sl_len h);
      copyElems t into (sl_array h) (sl_offset h) out (sl_len h) 0;;
      mret (Some (MkSliceHeader out 0 (sl_len h)))
  end.
End Memory.

(** ** Views *)

Section Views.
Context `{MT : MetaTypes}.

(** What a value in memory stands for. *)
Definition view (V A : Type) : Type := mem → V → A → Prop.

(** More memory does not change it. *)
Class Monotone {V A} (R : view V A) : Prop :=
  monotone m m' v a : m ⊆ m' → R m v a → R m' v a.

(** A value without pointers stands for itself. *)
Definition flat {V} : view V V := λ _ v a, v = a.

Definition ptrView (t : ty) {A} (R : view (den t) A) : view ptr (option A) := λ m p a,
  match p, a with
  | None, None => True
  | Some l, Some a => ∃ v, m !! l = Some (Cell t v) ∧ R m v a
  | _, _ => False
  end.

(** The elements of a slice; the nil slice has none. *)
Definition sliceView (t : ty) {A} (R : view (den t) A) : view slice (list A) := λ m s xs,
  match s with
  | None => xs = []
  | Some h => ∃ vs : list (den t), m !! sl_array h = Some (Cell (TArray t) vs) ∧
      (sl_offset h + sl_len h ≤ length vs)%nat ∧
      Forall2 (R m) (take (sl_len h) (drop (sl_offset h) vs)) xs
  end.

#[export] Instance flat_monotone {V} : Monotone (@flat V).
Proof. by intros m m' v a _. Qed.

#[export] Instance ptrView_monotone t {A} (R : view (den t) A) : Monotone R → Monotone (ptrView t R).
Proof.
  intros HR m m' [l|] [a|] Hs; cbn; try done. intros (v & Hl & Hv). exists v.
  split; [by eapply lookup_weaken|by eapply HR].
Qed.

#[export] Instance sliceView_monotone t {A} (R : view (den t) A) : Monotone R → Monotone (sliceView t R).
Proof.
  intros HR m m' [h|] xs Hs; cbn; [|done]. intros (vs & Hl & Hlen & Hxs). exists vs.
  split_and!; [by eapply lookup_weaken|done|]. eapply Forall2_impl; [|exact Hxs]. intros v a. by apply HR.
Qed.

(** ** Deep copies *)

(** [c] started in [m] succeeds, changes none of the cells of [m], and [Q] holds
    of its result in the cells that are not in [m0]. *)
Definition yields (m0 m : mem) {W} (c : G W) (Q : mem → W → Prop) : Prop :=
  ∃ m' w, c m = Some (m', w) ∧ m ⊆ m' ∧ Q (m' ∖ m0) w.

(** The copy of a value stands for the same, in newly allocated cells alone. *)
Class DeepCopies {V A} (f : V → G V) (R : view V A) : Prop :=
  deepCopies m v a : R m v a → yields m m (f v) (λ h v', R h v' a).

Lemma difference_mono (m0 m m' : mem) : m ⊆ m' → m ∖ m0 ⊆ m' ∖ m0.
Proof.
  intros Hs. apply map_subseteq_spec. intros l c. rewrite !lookup_difference_Some.
  intros [Hl Hn]. split; [by eapply lookup_weaken|done].
Qed.

Lemma difference_anti (m0 m m' : mem) : m0 ⊆ m → m' ∖ m ⊆ m' ∖ m0.
Proof.
  intros Hs. apply map_subseteq_spec. intros l c. rewrite !lookup_difference_Some.
  intros [Hl Hn]. split; [done|]. by eapply lookup_weaken_None.
Qed.

Lemma yields_ret m0 m {W} (w : W) (Q : mem → W → Prop) : Q (m ∖ m0) w → yields m0 m (mret w) Q.
Proof. intros HQ. by exists m, w. Qed.

(** One field after the other. *)
Lemma yields_bind m0 m {V A W} (f : V → G V) (R : view V A) `{!DeepCopies f R} `{!Monotone R}
    v a (k : V → G W) (Q : mem → W → Prop) :
  m0 ⊆ m → R m0 v a →
  (∀ m' v', m0 ⊆ m' → yields m0 m' (k v') (λ h w, R h v' a → Q h w)) →
  yields m0 m (f v ≫= k) Q.
Proof.
  intros Hm Hv Hk. destruct (deepCopies m v a (monotone _ _ _ _ Hm Hv)) as (m1 & v1 & Ef & Hs1 & Hv1).
  destruct (Hk m1 v1) as (m2 & w & Ek & Hs2 & HQ); [by etrans|].
  exists m2, w. unfold mbind, G_bind. rewrite Ef. split_and!; [done|by etrans|].
  apply HQ. eapply monotone; [|exact Hv1]. etrans; [by apply difference_mono|by apply difference_anti].
Qed.

(** *** Memory operations *)

Lemma load_cell t (l : addr) (v : den t) (m : mem) : m !! l = Some (Cell t v) → load t l m = Some (m, v).
Proof.
  intros Hl. unfold load. rewrite Hl. cbn. destruct (decide (t = t)) as [e|]; [|done].
  by assert (e = eq_refl) as -> by apply proof_irrel.
Qed.

Lemma fresh_dom (m : mem) : m !! fresh (dom m) = None.
Proof. apply not_elem_of_dom, is_fresh. Qed.

Lemma index_cell t (l : addr) i vs v (m : mem) :
  m !! l = Some (Cell (TArray t) vs) → (vs : list (den t)) !! i = Some v → index t l i m = Some (m, v).
Proof. intros Hl Hi. unfold index, mbind, G_bind. rewrite (load_cell _ _ _ _ Hl). unfold orPanic. by rewrite Hi. Qed.

Lemma setIndex_cell t (l : addr) i vs v0 v (m : mem) :
  m !! l = Some (Cell (TArray t) vs) → (vs : list (den t)) !! i = Some v0 →
  setIndex t l i v m = Some (<[l := Cell (TArray t) (<[i := v]> (vs : list (den t)))]> m, tt).
Proof.
  intros Hl Hi. unfold setIndex, mbind, G_bind. rewrite (load_cell _ _ _ _ Hl). unfold orPanic.
  by rewrite Hi.
Qed.

(** *** Pointers *)

#[export] Instance copyPtr_copies t {A} into (R : view (den t) A) :
  DeepCopies into R → Monotone R → DeepCopies (copyPtr t into) (ptrView t R).
Proof.
  intros HC HM m [l|] [a|] H; cbn in H; try done; [|by apply yields_ret].
  destruct H as (v & Hl & Hv). set (out := fresh (dom m)).
  assert (m !! out = None) as Hout by apply fresh_dom.
  set (m1 := <[out := Cell t (zero t)]> m). assert (m ⊆ m1) as Hs by by apply insert_subseteq.
  destruct (deepCopies m1 v a (monotone _ _ _ _ Hs Hv)) as (m2 & v' & Ei & Hs2 & Hv').
  exists (<[out := Cell t v']> m2), (Some out).
  assert (m ⊆ <[out := Cell t v']> m2) as Hsub
    by (apply insert_subseteq_r; [done|by etrans]).
  split_and!; [|done|].
  - unfold copyPtr, new, mbind, G_bind. fold out m1.
    rewrite (load_cell t l v); [|by eapply lookup_weaken]. by rewrite Ei.
  - exists v'. split.
    + apply lookup_difference_Some. by rewrite lookup_insert_eq.
    + eapply monotone; [|exact Hv']. apply map_subseteq_spec. intros k c.
      rewrite !lookup_difference_Some. intros [Hk Hn].
      assert (k ≠ out) as Hne by (intros ->; unfold m1 in Hn; by rewrite lookup_insert_eq in Hn).
      rewrite lookup_insert_ne by done. split; [done|].
      unfold m1 in Hn. by rewrite lookup_insert_ne in Hn.
Qed.

(** *** Slices *)

(** The loop of [copySlice] after [i] elements: the array [dst] holds the copies
    made, which are viewed by cells [h] that are new and are not [dst]. *)
Definition copied (t : ty) {A} (R : view (den t) A) (m : mem) (dst : addr) (n i : nat) (xs : list A)
    (m' : mem) : Prop :=
  m ⊆ m' ∧ ∃ (done : list (den t)) h,
    m' !! dst = Some (Cell (TArray t) (done ++ repeat (zero t) (n - i))) ∧
    length done = i ∧ h ⊆ m' ∧ h ##ₘ m ∧ h !! dst = None ∧ Forall2 (R h) done (take i xs).

Lemma copied_step t {A} into (R : view (den t) A) m dst n i xs m1 v a :
  DeepCopies into R → Monotone R → m !! dst = None → (i < n)%nat →
  copied t R m dst n i xs m1 → xs !! i = Some a → R m v a →
  ∃ m2 v', into v m1 = Some (m2, v') ∧ m1 ⊆ m2 ∧
    ∃ m3, setIndex t dst i v' m2 = Some (m3, tt) ∧ copied t R m dst n (S i) xs m3.
Proof.
  intros HC HM Hdst Hi (Hs & dn & h & Hd & Hlen & Hh & Hdisj & Hhd & Hall) Hx Hv.
  destruct (deepCopies m1 v a (monotone _ _ _ _ Hs Hv)) as (m2 & v' & Ei & Hs2 & Hv').
  exists m2, v'. split_and!; [done|done|].
  replace (n - i)%nat with (S (n - S i)) in Hd by lia. cbn [repeat] in Hd.
  pose proof (lookup_weaken _ _ _ _ Hd Hs2) as Hd2.
  exists (<[dst := Cell (TArray t) (<[i := v']> (dn ++ zero t :: repeat (zero t) (n - S i)))]> m2).
  split; [eapply setIndex_cell; [exact Hd2|]; by rewrite list_lookup_middle|].
  split; [apply insert_subseteq_r; [done|by etrans]|].
  exists (dn ++ [v']), (h ∪ m2 ∖ m1). split_and!.
  - rewrite lookup_insert_eq. f_equal. f_equal. rewrite insert_app_r_alt by lia.
    rewrite Hlen, Nat.sub_diag. cbn. by rewrite <-app_assoc.
  - rewrite length_app, Hlen. cbn. lia.
  - apply insert_subseteq_r.
    + apply lookup_union_None. split; [done|]. apply lookup_difference_None. right. by eexists.
    + apply map_union_least; [by etrans|apply map_subseteq_difference_l; done].
  - apply map_disjoint_union_l. split; [done|]. apply map_disjoint_spec. intros k c c'.
    rewrite lookup_difference_Some. intros [_ Hn] Hm. by rewrite (lookup_weaken _ _ _ _ Hm Hs) in Hn.
  - apply lookup_union_None. split; [done|]. apply lookup_difference_None. right. by eexists.
  - rewrite (take_S_r _ _ a) by done. apply Forall2_app.
    + eapply Forall2_impl; [|exact Hall]. intros w b. apply monotone, map_union_subseteq_l.
    + constructor; [|constructor]. eapply monotone; [|exact Hv'].
      apply map_union_subseteq_r, map_disjoint_spec. intros k c c' Hk.
      rewrite lookup_difference_Some. intros [_ Hn]. by rewrite (lookup_weaken _ _ _ _ Hk Hh) in Hn.
Qed.

Lemma copyElems_copied t {A} into (R : view (den t) A) m src off vs dst n xs :
  DeepCopies into R → Monotone R → m !! dst = None →
  m !! src = Some (Cell (TArray t) vs) → Forall2 (R m) (take n (drop off vs)) xs → length xs = n →
  ∀ k i m1, (i + k = n)%nat → copied t R m dst n i xs m1 →
  ∃ m2, copyElems t into src off dst k i m1 = Some (m2, tt) ∧ copied t R m dst n n xs m2.
Proof.
  intros HC HM Hdst Hsrc Hall Hlen. induction k as [|k IH]; intros i m1 Hik Hc.
  { replace n with i at 2 by lia. exists m1. split; [done|]. by replace n with i in * by lia. }
  assert (is_Some (xs !! i)) as [a Ha] by (apply lookup_lt_is_Some; lia).
  destruct (Forall2_lookup_r _ _ _ _ _ Hall Ha) as (v & Hv & HR).
  apply lookup_take_Some in Hv as [Hv _]. rewrite lookup_drop in Hv.
  destruct (copied_step t into R m dst n i xs m1 v a) as (m2 & v' & Ei & Hs2 & m3 & Es & Hc3);
    [done..|lia|done|done|done|].
  destruct (IH (S i) m3) as (m4 & El & Hc4); [lia|done|]. exists m4. split; [|done].
  cbn [copyElems]. unfold mbind, G_bind.
  rewrite (index_cell t src (off + i) vs v); [|by eapply lookup_weaken; [|apply Hc]|done].
  by rewrite Ei, Es.
Qed.

#[export] Instance copySlice_copies t {A} into (R : view (den t) A) :
  DeepCopies into R → Monotone R → DeepCopies (copySlice t into) (sliceView t R).
Proof.
  intros HC HM m [h|] xs H; cbn in H; [|by apply yields_ret].
  destruct H as (vs & Hsrc & Hle & Hall). pose proof (Forall2_length Hall) as Hlen.
  rewrite length_take, length_drop in Hlen. set (n := sl_len h) in *. set (out := fresh (dom m)).
  assert (m !! out = None) as Hout by apply fresh_dom.
  destruct (copyElems_copied t into R m (sl_array h) (sl_offset h) vs out n xs HC HM Hout Hsrc Hall
    ltac:(lia) n 0 (<[out := Cell (TArray t) (repeat (zero t) n)]> m)) as
    (m2 & El & Hs & dn & g & Hd & Hn & Hg & Hdisj & _ & Hall'); [done| |].
  { split; [by apply insert_subseteq|]. exists [], ∅. rewrite lookup_insert_eq, Nat.sub_0_r.
    split_and!; [done|done|apply map_empty_subseteq|apply map_disjoint_empty_l|done|constructor]. }
  exists m2, (Some (MkSliceHeader out 0 n)). split_and!; [|done|].
  - unfold copySlice, make, mbind, G_bind. fold out n. by rewrite El.
  - rewrite Nat.sub_diag in Hd. cbn [repeat] in Hd. rewrite app_nil_r in Hd. exists dn. cbn.
    split_and!; [apply lookup_difference_Some; by split|lia|].
    rewrite drop_0, take_ge by lia. rewrite take_ge in Hall' by lia.
    eapply Forall2_impl; [|exact Hall']. intros v a. apply monotone, map_subseteq_spec.
    intros l c Hl. apply lookup_difference_Some. split; [by eapply lookup_weaken|].
    destruct (m !! l) eqn:E; [|done]. by destruct (proj1 (map_disjoint_spec g m) Hdisj l c _ Hl E).
Qed.

(** The builtin [copy] into an array just made. *)
Definition copyFlat (t : ty) (s : slice) : G slice :=
  match s with
  | None => mret None
  | Some h =>
      out ← make t (sl_len h);
      vs ← load (TArray t) (sl_array h);
      store (TArray t) out (take (sl_len h) (drop (sl_offset h) (vs : list (den t))));;
      mret (Some (MkSliceHeader out 0 (sl_len h)))
  end.

#[export] Instance copyFlat_copies t : DeepCopies (copyFlat t) (sliceView t flat).
Proof.
  intros m [h|] xs H; cbn in H; [|by apply yields_ret].
  destruct H as (vs & Hsrc & Hle & Hall). set (out := fresh (dom m)).
  assert (m !! out = None) as Hout by apply fresh_dom.
  set (new := take (sl_len h) (drop (sl_offset h) vs)).
  exists (<[out := Cell (TArray t) new]> (<[out := Cell (TArray t) (repeat (zero t) (sl_len h))]> m)),
    (Some (MkSliceHeader out 0 (sl_len h))).
  split_and!; [|by do 2 (apply insert_subseteq_r; [done|])|].
  - unfold copyFlat, make, mbind, G_bind. fold out.
    rewrite (load_cell (TArray t) (sl_array h) vs);
      [done|by eapply lookup_weaken, insert_subseteq].
  - assert (length new = sl_len h) as Hn by (unfold new; rewrite length_take, length_drop; lia).
    exists new. cbn. rewrite insert_insert_eq, drop_0, take_ge by lia.
    split_and!; [apply lookup_difference_Some; by rewrite lookup_insert_eq|lia|exact Hall].
Qed.

#[export] Instance mret_copies {V} : DeepCopies (mret : V → G V) flat.
Proof. intros m v a H. by apply yields_ret. Qed.
End Views.

(** The copy of a struct, field by field. *)
Ltac copy_fields :=
  lazymatch goal with
  | |- yields _ _ (mret _) _ => apply yields_ret
  | |- yields _ _ (_ ≫= _) _ =>
      eapply yields_bind; [apply _|apply _|done|eassumption|
        let m := fresh "m" in let v := fresh "v" in let H := fresh "H" in intros m v H; copy_fields]
  end.
