(* ===== verification/DeepCopy.v ===== *)
(** * Deep copies (api/v1alpha1/zz_generated.deepcopy.go)

    The code takes a [DeepCopy] of a plan, goes on changing the plan in place and
    sends the difference.  The rest of this library reads that copy as the
    immutable value of the plan at the time; [DeepCopy_snapshot] is what
    justifies it. *)
From S2P Require Import Prelude GoTime Api GoHeap.

(** ** apimachinery's part

    The metadata of an object, as far as the program reads it. *)
Record ObjectMeta : Type := MkObjectMeta {
  om_Name : string;
  om_Namespace : string;
  om_Generation : Z;
  om_DeletionTimestamp : option Time;
  om_Finalizers : list string
}.

(** The copies of apimachinery's own types, what these types stand for, and that
    the copies are deep. *)
Class MetaOps `{MetaTypes} : Type := {
  ListMeta : Type;
  labelSelectorView : view GLabelSelector LabelSelector;
  objectMetaView : view GObjectMeta ObjectMeta;
  listMetaView : view GListMeta ListMeta;
  Time_DeepCopy : ptr → G ptr;
  Condition_DeepCopyInto : Condition → G Condition;
  LabelSelector_DeepCopyInto : GLabelSelector → G GLabelSelector;
  ObjectMeta_DeepCopyInto : GObjectMeta → G GObjectMeta;
  ListMeta_DeepCopyInto : GListMeta → G GListMeta
}.

Class MetaLaws `{MetaOps} : Prop := {
  #[global] labelSelectorView_monotone :: Monotone labelSelectorView;
  #[global] objectMetaView_monotone :: Monotone objectMetaView;
  #[global] listMetaView_monotone :: Monotone listMetaView;
  #[global] Time_copies :: DeepCopies Time_DeepCopy (ptrView TTime flat);
  #[global] Condition_copies :: DeepCopies Condition_DeepCopyInto flat;
  #[global] LabelSelector_copies :: DeepCopies LabelSelector_DeepCopyInto labelSelectorView;
  #[global] ObjectMeta_copies :: DeepCopies ObjectMeta_DeepCopyInto objectMetaView;
  #[global] ListMeta_copies :: DeepCopies ListMeta_DeepCopyInto listMetaView
}.

Section Generated.
Context `{MT : MetaTypes} {MO : MetaOps}.

(** ** The generated functions

    [*out = *in], then the fields that hold references.  A reference that is nil
    is left as it is, which is what the copies of [copyPtr], [copySlice],
    [copyFlat] and [Time_DeepCopy] make of it. *)

Definition CordonSpec_DeepCopyInto (x : GCordonSpec) : G GCordonSpec :=
  startAt ← Time_DeepCopy (gc_StartAt x);
  mret (MkGCordonSpec (gc_Enabled x) startAt).

Definition CordonSpec_DeepCopy : ptr → G ptr := copyPtr TCordonSpec CordonSpec_DeepCopyInto.

Definition DrainOptions_DeepCopyInto (x : GDrainOptions) : G GDrainOptions :=
  grace ← copyPtr TInt64 mret (go_PodTerminationGracePeriodSeconds x);
  mret (MkGDrainOptions (go_MaxParallel x) (go_IgnoreDaemonSets x) (go_DeleteEmptyDirData x)
          (go_Force x) grace (go_RespectPodDisruptionBudgets x)).

Definition DrainOptions_DeepCopy : ptr → G ptr := copyPtr TDrainOptions DrainOptions_DeepCopyInto.

Definition DrainSpec_DeepCopyInto (x : GDrainSpec) : G GDrainSpec :=
  startAt ← Time_DeepCopy (gd_StartAt x);
  options ← copyPtr TDrainOptions DrainOptions_DeepCopyInto (gd_Options x);
  timeoutMinutes ← copyPtr TInt32 mret (gd_TimeoutMinutes x);
  mret (MkGDrainSpec (gd_Enabled x) startAt options timeoutMinutes).

Definition DrainSpec_DeepCopy : ptr → G ptr := copyPtr TDrainSpec DrainSpec_DeepCopyInto.

Definition PodReference_DeepCopyInto (x : PodReference) : G PodReference := mret x.

Definition PodReference_DeepCopy : ptr → G ptr := copyPtr TPodReference PodReference_DeepCopyInto.

Definition NodeIssue_DeepCopyInto (x : GNodeIssue) : G GNodeIssue :=
  podRef ← copyPtr TPodReference mret (gi_PodRef x);
  mret (MkGNodeIssue (gi_Type x) (gi_Message x) podRef).

Definition NodeIssue_DeepCopy : ptr → G ptr := copyPtr TNodeIssue NodeIssue_DeepCopyInto.

Definition NodeDrainPreview_DeepCopyInto (x : GNodeDrainPreview) : G GNodeDrainPreview :=
  issues ← copySlice TNodeIssue NodeIssue_DeepCopyInto (gv_Issues x);
  computedAt ← Time_DeepCopy (gv_ComputedAt x);
  mret (MkGNodeDrainPreview (gv_EvictableCount x) (gv_SkippedCount x) issues computedAt).

Definition NodeDrainPreview_DeepCopy : ptr → G ptr :=
  copyPtr TNodeDrainPreview NodeDrainPreview_DeepCopyInto.

Definition NodeStatus_DeepCopyInto (x : GNodeStatus) : G GNodeStatus :=
  cordonedAt ← Time_DeepCopy (gn_CordonedAt x);
  drainPreview ← copyPtr TNodeDrainPreview NodeDrainPreview_DeepCopyInto (gn_DrainPreview x);
  issues ← copySlice TNodeIssue NodeIssue_DeepCopyInto (gn_Issues x);
  notReadySince ← Time_DeepCopy (gn_NotReadySince x);
  mret (MkGNodeStatus (gn_Name x) (gn_Cordoned x) cordonedAt (gn_DrainProgress x) (gn_Drifted x)
          (gn_DriftReason x) (gn_TotalPods x) (gn_InitialPodCount x) (gn_EvictablePods x)
          (gn_BlockedPods x) (gn_EvictedTotal x) drainPreview issues notReadySince
          (gn_ReadyForMaintenance x)).

Definition NodeStatus_DeepCopy : ptr → G ptr := copyPtr TNodeStatus NodeStatus_DeepCopyInto.

Definition NodeMaintenancePlanSpec_DeepCopyInto (x : GNodeMaintenancePlanSpec)
    : G GNodeMaintenancePlanSpec :=
  nodes ← copyFlat TString (gs_Nodes x);
  nodeSelector ← copyPtr TLabelSelector LabelSelector_DeepCopyInto (gs_NodeSelector x);
  cordon ← copyPtr TCordonSpec CordonSpec_DeepCopyInto (gs_Cordon x);
  drain ← copyPtr TDrainSpec DrainSpec_DeepCopyInto (gs_Drain x);
  mret (MkGNodeMaintenancePlanSpec nodes nodeSelector (gs_Reason x) cordon drain).

Definition NodeMaintenancePlanSpec_DeepCopy : ptr → G ptr :=
  copyPtr TSpec NodeMaintenancePlanSpec_DeepCopyInto.

Definition NodeMaintenancePlanStatus_DeepCopyInto (x : GNodeMaintenancePlanStatus)
    : G GNodeMaintenancePlanStatus :=
  resolvedNodes ← copyFlat TString (gt_ResolvedNodes x);
  conditions ← copySlice TCondition Condition_DeepCopyInto (gt_Conditions x);
  nodes ← copySlice TNodeStatus NodeStatus_DeepCopyInto (gt_Nodes x);
  drainStartedAt ← Time_DeepCopy (gt_DrainStartedAt x);
  lastPreviewTime ← Time_DeepCopy (gt_LastPreviewTime x);
  drifted ← copyPtr TBool mret (gt_Drifted x);
  mret (MkGNodeMaintenancePlanStatus resolvedNodes (gt_NodeSnapshotTaken x) conditions nodes
          drainStartedAt lastPreviewTime (gt_TotalEvictablePods x) (gt_TotalPreviewIssues x)
          (gt_ObservedGeneration x) (gt_AllNodesReadyForMaintenance x) (gt_NodeCount x)
          (gt_Phase x) (gt_ReadySummary x) (gt_DrainProgress x) (gt_DrainingNodeCount x)
          (gt_BlockedNodeCount x) drifted).

Definition NodeMaintenancePlanStatus_DeepCopy : ptr → G ptr :=
  copyPtr TStatus NodeMaintenancePlanStatus_DeepCopyInto.

Definition NodeMaintenancePlan_DeepCopyInto (x : GNodeMaintenancePlan) : G GNodeMaintenancePlan :=
  objectMeta ← ObjectMeta_DeepCopyInto (gp_ObjectMeta x);
  spec ← NodeMaintenancePlanSpec_DeepCopyInto (gp_Spec x);
  status ← NodeMaintenancePlanStatus_DeepCopyInto (gp_Status x);
  mret (MkGNodeMaintenancePlan (gp_TypeMeta x) objectMeta spec status).

Definition NodeMaintenancePlan_DeepCopy : ptr → G ptr :=
  copyPtr TPlan NodeMaintenancePlan_DeepCopyInto.

(** An interface value: nil, or the pointer. *)
Definition NodeMaintenancePlan_DeepCopyObject (p : ptr) : G ptr :=
  c ← NodeMaintenancePlan_DeepCopy p;
  match c with Some l => mret (Some l) | None => mret None end.

Definition NodeMaintenancePlanList_DeepCopyInto (x : GNodeMaintenancePlanList)
    : G GNodeMaintenancePlanList :=
  listMeta ← ListMeta_DeepCopyInto (gl_ListMeta x);
  items ← copySlice TPlan NodeMaintenancePlan_DeepCopyInto (gl_Items x);
  mret (MkGNodeMaintenancePlanList (gl_TypeMeta x) listMeta items).

Definition NodeMaintenancePlanList_DeepCopy : ptr → G ptr :=
  copyPtr TPlanList NodeMaintenancePlanList_DeepCopyInto.

Definition NodeMaintenancePlanList_DeepCopyObject (p : ptr) : G ptr :=
  c ← NodeMaintenancePlanList_DeepCopy p;
  match c with Some l => mret (Some l) | None => mret None end.

(** ** What the structs stand for: the records of Api *)

Definition cordonSpecView : view GCordonSpec CordonSpec := λ m v a,
  ∃ startAt, a = MkCordonSpec (gc_Enabled v) startAt ∧ ptrView TTime flat m (gc_StartAt v) startAt.

Definition drainOptionsView : view GDrainOptions DrainOptions := λ m v a,
  ∃ grace, a = MkDrainOptions (go_MaxParallel v) (go_IgnoreDaemonSets v) (go_DeleteEmptyDirData v)
      (go_Force v) grace (go_RespectPodDisruptionBudgets v) ∧
    ptrView TInt64 flat m (go_PodTerminationGracePeriodSeconds v) grace.

Definition drainSpecView : view GDrainSpec DrainSpec := λ m v a,
  ∃ startAt options timeout, a = MkDrainSpec (gd_Enabled v) startAt options timeout ∧
    ptrView TTime flat m (gd_StartAt v) startAt ∧
    ptrView TDrainOptions drainOptionsView m (gd_Options v) options ∧
    ptrView TInt32 flat m (gd_TimeoutMinutes v) timeout.

Definition specView : view GNodeMaintenancePlanSpec NodeMaintenancePlanSpec := λ m v a,
  ∃ nodes selector cordon drain, a = MkNodeMaintenancePlanSpec nodes selector (gs_Reason v) cordon drain ∧
    sliceView TString flat m (gs_Nodes v) nodes ∧
    ptrView TLabelSelector labelSelectorView m (gs_NodeSelector v) selector ∧
    ptrView TCordonSpec cordonSpecView m (gs_Cordon v) cordon ∧
    ptrView TDrainSpec drainSpecView m (gs_Drain v) drain.

Definition nodeIssueView : view GNodeIssue NodeIssue := λ m v a,
  ∃ podRef, a = MkNodeIssue (gi_Type v) (gi_Message v) podRef ∧
    ptrView TPodReference flat m (gi_PodRef v) podRef.

Definition previewView : view GNodeDrainPreview NodeDrainPreview := λ m v a,
  ∃ issues computedAt,
    a = MkNodeDrainPreview (gv_EvictableCount v) (gv_SkippedCount v) issues computedAt ∧
    sliceView TNodeIssue nodeIssueView m (gv_Issues v) issues ∧
    ptrView TTime flat m (gv_ComputedAt v) computedAt.

Definition nodeStatusView : view GNodeStatus NodeStatus := λ m v a,
  ∃ cordonedAt preview issues notReadySince,
    a = MkNodeStatus (gn_Name v) (gn_Cordoned v) cordonedAt (gn_DrainProgress v) (gn_Drifted v)
          (gn_DriftReason v) (gn_TotalPods v) (gn_InitialPodCount v) (gn_EvictablePods v)
          (gn_BlockedPods v) (gn_EvictedTotal v) preview issues notReadySince
          (gn_ReadyForMaintenance v) ∧
    ptrView TTime flat m (gn_CordonedAt v) cordonedAt ∧
    ptrView TNodeDrainPreview previewView m (gn_DrainPreview v) preview ∧
    sliceView TNodeIssue nodeIssueView m (gn_Issues v) issues ∧
    ptrView TTime flat m (gn_NotReadySince v) notReadySince.

Definition statusView : view GNodeMaintenancePlanStatus NodeMaintenancePlanStatus := λ m v a,
  ∃ resolved conditions nodes startedAt previewTime drifted,
    a = MkNodeMaintenancePlanStatus resolved (gt_NodeSnapshotTaken v) conditions nodes startedAt
          previewTime (gt_TotalEvictablePods v) (gt_TotalPreviewIssues v) (gt_ObservedGeneration v)
          (gt_AllNodesReadyForMaintenance v) (gt_NodeCount v) (gt_Phase v) (gt_ReadySummary v)
          (gt_DrainProgress v) (gt_DrainingNodeCount v) (gt_BlockedNodeCount v) drifted ∧
    sliceView TString flat m (gt_ResolvedNodes v) resolved ∧
    sliceView TCondition flat m (gt_Conditions v) conditions ∧
    sliceView TNodeStatus nodeStatusView m (gt_Nodes v) nodes ∧
    ptrView TTime flat m (gt_DrainStartedAt v) startedAt ∧
    ptrView TTime flat m (gt_LastPreviewTime v) previewTime ∧
    ptrView TBool flat m (gt_Drifted v) drifted.

Definition planView : view GNodeMaintenancePlan (TypeMeta * NodeMaintenancePlan) := λ m v a,
  ∃ om spec status,
    a = (gp_TypeMeta v, MkNodeMaintenancePlan (om_Name om) (om_Namespace om) (om_Generation om)
          (om_DeletionTimestamp om) (om_Finalizers om) spec status) ∧
    objectMetaView m (gp_ObjectMeta v) om ∧ specView m (gp_Spec v) spec ∧
    statusView m (gp_Status v) status.

Definition planListView
    : view GNodeMaintenancePlanList (TypeMeta * ListMeta * list (TypeMeta * NodeMaintenancePlan)) := λ m v a,
  ∃ lm items, a = (gl_TypeMeta v, lm, items) ∧
    listMetaView m (gl_ListMeta v) lm ∧ sliceView TPlan planView m (gl_Items v) items.
End Generated.

(** ** The copies are deep *)

Section Deep.
Context `{MT : MetaTypes} {MO : MetaOps} {ML : MetaLaws}.

Ltac view_open := repeat match goal with H : _ ∧ _ |- _ => destruct H | H : ∃ _, _ |- _ => destruct H end; subst.

Ltac view_mono :=
  intros m m' v a Hs Hv; hnf in Hv; view_open; repeat eexists; by (eapply monotone; [exact Hs|eassumption]).

#[local] Instance cordonSpecView_monotone : Monotone cordonSpecView.
Proof. view_mono. Qed.
#[local] Instance drainOptionsView_monotone : Monotone drainOptionsView.
Proof. view_mono. Qed.
#[local] Instance drainSpecView_monotone : Monotone drainSpecView.
Proof. view_mono. Qed.
#[local] Instance specView_monotone : Monotone specView.
Proof. view_mono. Qed.
#[local] Instance nodeIssueView_monotone : Monotone nodeIssueView.
Proof. view_mono. Qed.
#[local] Instance previewView_monotone : Monotone previewView.
Proof. view_mono. Qed.
#[local] Instance nodeStatusView_monotone : Monotone nodeStatusView.
Proof. view_mono. Qed.
#[local] Instance statusView_monotone : Monotone statusView.
Proof. view_mono. Qed.
#[local] Instance planView_monotone : Monotone planView.
Proof.
  intros m m' v a Hs (om & spec & status & -> & ? & ? & ?). exists om, spec, status.
  split_and!; [done|by (eapply monotone; [exact Hs|eassumption])..].
Qed.
#[local] Instance planListView_monotone : Monotone planListView.
Proof. view_mono. Qed.

(** A struct is copied field by field. *)
Tactic Notation "deep_copy" reference(f) :=
  intros m v a Hv; hnf in Hv; view_open; unfold f; copy_fields; intros; repeat eexists; eassumption.

#[local] Instance CordonSpec_copies : DeepCopies CordonSpec_DeepCopyInto cordonSpecView.
Proof. deep_copy CordonSpec_DeepCopyInto. Qed.

#[local] Instance DrainOptions_copies : DeepCopies DrainOptions_DeepCopyInto drainOptionsView.
Proof. deep_copy DrainOptions_DeepCopyInto. Qed.

#[local] Instance DrainSpec_copies : DeepCopies DrainSpec_DeepCopyInto drainSpecView.
Proof. deep_copy DrainSpec_DeepCopyInto. Qed.

#[local] Instance NodeIssue_copies : DeepCopies NodeIssue_DeepCopyInto nodeIssueView.
Proof. deep_copy NodeIssue_DeepCopyInto. Qed.

#[local] Instance NodeDrainPreview_copies : DeepCopies NodeDrainPreview_DeepCopyInto previewView.
Proof. deep_copy NodeDrainPreview_DeepCopyInto. Qed.

#[local] Instance NodeStatus_copies : DeepCopies NodeStatus_DeepCopyInto nodeStatusView.
Proof. deep_copy NodeStatus_DeepCopyInto. Qed.

#[local] Instance NodeMaintenancePlanSpec_copies : DeepCopies NodeMaintenancePlanSpec_DeepCopyInto specView.
Proof. deep_copy NodeMaintenancePlanSpec_DeepCopyInto. Qed.

#[local] Instance NodeMaintenancePlanStatus_copies : DeepCopies NodeMaintenancePlanStatus_DeepCopyInto statusView.
Proof. deep_copy NodeMaintenancePlanStatus_DeepCopyInto. Qed.

#[local] Instance NodeMaintenancePlan_copies : DeepCopies NodeMaintenancePlan_DeepCopyInto planView.
Proof.
  intros m v a (om & spec & status & -> & ? & ? & ?). unfold NodeMaintenancePlan_DeepCopyInto. copy_fields. intros.
  by exists om, spec, status.
Qed.

#[local] Instance NodeMaintenancePlanList_copies : DeepCopies NodeMaintenancePlanList_DeepCopyInto planListView.
Proof. deep_copy NodeMaintenancePlanList_DeepCopyInto. Qed.

Lemma DeepCopyObject_same p m :
  NodeMaintenancePlan_DeepCopyObject p m = NodeMaintenancePlan_DeepCopy p m ∧
  NodeMaintenancePlanList_DeepCopyObject p m = NodeMaintenancePlanList_DeepCopy p m.
Proof.
  unfold NodeMaintenancePlan_DeepCopyObject, NodeMaintenancePlanList_DeepCopyObject, mbind, G_bind.
  split; [destruct (NodeMaintenancePlan_DeepCopy p m) as [[m' [l|]]|]|
    destruct (NodeMaintenancePlanList_DeepCopy p m) as [[m' [l|]]|]]; done.
Qed.

(** A deep copy of a pointer: new, viewed by new memory, the original untouched. *)
Lemma copyPtr_snapshot t {A} into (R : view (den t) A) m l a :
  DeepCopies into R → Monotone R → ptrView t R m (Some l) (Some a) →
  ∃ m' l', copyPtr t into (Some l) m = Some (m', Some l') ∧ m !! l' = None ∧ m ⊆ m' ∧
    ∀ m'', m' ∖ m ⊆ m'' → ptrView t R m'' (Some l') (Some a).
Proof.
  intros HC HM Hv. destruct (deepCopies (f:=copyPtr t into) m (Some l) (Some a) Hv) as
    (m' & p & E & Hs & Hp).
  destruct p as [l'|]; [|done]. exists m', l'. split_and!; [done| |done|].
  - destruct Hp as (v & Hl & _). by apply lookup_difference_Some in Hl as [_ ?].
  - intros m'' Hs''. by eapply monotone.
Qed.

(** C28: a [DeepCopy] is a snapshot.  Copying a plan in memory succeeds, changes no
    memory in use, and gives a plan at a new address that stands for the same
    value, type and metadata, spec and status with all their lists and
    pointers, in newly allocated memory alone.  So the copy keeps this value
    whatever is later written to any object there was before, such as the plan it
    was taken of and everything reachable from it, and writes to what the copy
    reaches never change the plan.  [DeepCopyObject], which client libraries use,
    is the same copy. *)
Theorem DeepCopy_snapshot m l tm plan :
  ptrView TPlan planView m (Some l) (Some (tm, plan)) →
  ∃ m' l', NodeMaintenancePlan_DeepCopy (Some l) m = Some (m', Some l') ∧
    NodeMaintenancePlan_DeepCopyObject (Some l) m = Some (m', Some l') ∧
    m !! l' = None ∧ m ⊆ m' ∧
    (∀ m'', m' ∖ m ⊆ m'' → ptrView TPlan planView m'' (Some l') (Some (tm, plan))) ∧
    (∀ m'', m ⊆ m'' → ptrView TPlan planView m'' (Some l) (Some (tm, plan))).
Proof.
  intros Hv. destruct (copyPtr_snapshot TPlan NodeMaintenancePlan_DeepCopyInto planView m l (tm, plan)
    _ _ Hv) as (m' & l' & E & Hl & Hs & Hc).
  exists m', l'. split_and!; [exact E| |done|done|exact Hc|intros m'' Hs''; by eapply monotone].
  by rewrite (proj1 (DeepCopyObject_same _ _)).
Qed.

(** The same for lists. *)
Lemma DeepCopyList_snapshot m l tm lm items :
  ptrView TPlanList planListView m (Some l) (Some (tm, lm, items)) →
  ∃ m' l', NodeMaintenancePlanList_DeepCopy (Some l) m = Some (m', Some l') ∧
    m !! l' = None ∧ m ⊆ m' ∧
    ∀ m'', m' ∖ m ⊆ m'' → ptrView TPlanList planListView m'' (Some l') (Some (tm, lm, items)).
Proof. exact (copyPtr_snapshot TPlanList _ planListView m l _ _ _). Qed.
End Deep.

(** ** Witness

    apimachinery's types without pointers of their own. *)
#[local] Instance plainTypes : MetaTypes := {|
  GLabelSelector := LabelSelector;
  GObjectMeta := ObjectMeta;
  GListMeta := string;
  GMetaCell := unit;
  zeroLabelSelector := MkLabelSelector [] [];
  zeroObjectMeta := MkObjectMeta "" "" 0 None [];
  zeroListMeta := "";
  zeroMetaCell := tt
|}.

#[local] Instance plainOps : MetaOps := {|
  ListMeta := string;
  labelSelectorView := flat;
  objectMetaView := flat;
  listMetaView := flat;
  Time_DeepCopy := copyPtr TTime mret;
  Condition_DeepCopyInto := mret;
  LabelSelector_DeepCopyInto := mret;
  ObjectMeta_DeepCopyInto := mret;
  ListMeta_DeepCopyInto := mret
|}.

#[local] Instance plainLaws : MetaLaws.
Proof.
  split; try apply flat_monotone; try apply mret_copies.
  exact (copyPtr_copies TTime mret flat mret_copies flat_monotone).
Qed.

(** A plan at 1 whose status has one node, in the array at 2, cordoned at the
    instant at 3. *)
Definition gNode (cordoned : bool) : GNodeStatus :=
  MkGNodeStatus "n1" cordoned (Some 3%positive) 0 false "" 4 4 4 0 0 None None None false.

Definition gPlan : GNodeMaintenancePlan :=
  MkGNodeMaintenancePlan (MkTypeMeta "NodeMaintenancePlan" "maintenance.nmoo.io/v1alpha1")
    (MkObjectMeta "plan-a" "" 1 None []) zeroSpec
    (MkGNodeMaintenancePlanStatus None false None (Some (MkSliceHeader 2 0 1)) None None
       0 0 0 false 1 "" "" "" "" "" None).

Definition nodesAt (l : addr) (cordoned : bool) (m : mem) : mem :=
  <[l := Cell (TArray TNodeStatus) [gNode cordoned]]> m.

Definition planMem : mem :=
  nodesAt 2 true (<[3%positive := Cell TTime (7 : Time)]> {[1%positive := Cell TPlan gPlan]}).

(** The plan as the rest of the library has it. *)
Definition valueOf (cordoned : bool) : TypeMeta * NodeMaintenancePlan :=
  (MkTypeMeta "NodeMaintenancePlan" "maintenance.nmoo.io/v1alpha1",
   MkNodeMaintenancePlan "plan-a" "" 1 None []
     (MkNodeMaintenancePlanSpec [] None "" None None)
     (set_ps_NodeCount 1 (set_ps_Nodes
       [MkNodeStatus "n1" cordoned (Some 7) 0 false "" 4 4 4 0 0 None [] None false] zeroPlanStatus))).

Lemma gPlan_view cordoned (m : mem) :
  m !! 2%positive = Some (Cell (TArray TNodeStatus) [gNode cordoned]) →
  m !! 3%positive = Some (Cell TTime (7 : Time)) → planView m gPlan (valueOf cordoned).
Proof.
  intros H2 H3. exists (MkObjectMeta "plan-a" "" 1 None []). do 2 eexists.
  split_and!; [reflexivity|done| |].
  - exists [], None, None, None. by split_and!.
  - do 6 eexists. split_and!; [reflexivity|..]; try done; cbn.
    exists [gNode cordoned]. split_and!; [done|cbn; lia|]. constructor; [|constructor].
    do 4 eexists. split_and!; [reflexivity|..]; try done. cbn. by eexists.
Qed.

Lemma planMem_view : ptrView TPlan planView planMem (Some 1%positive) (Some (valueOf true)).
Proof. exists gPlan. split; [reflexivity|]. by apply gPlan_view. Qed.

(** The plan's status is updated in place after the copy was taken: the plan has
    changed, the copy has not. *)
Lemma DeepCopy_snapshot_witness :
  ∃ m' l', NodeMaintenancePlan_DeepCopy (Some 1%positive) planMem = Some (m', Some l') ∧
    ptrView TPlan planView (nodesAt 2 false m') (Some l') (Some (valueOf true)) ∧
    ptrView TPlan planView (nodesAt 2 false m') (Some 1%positive) (Some (valueOf false)).
Proof.
  destruct (DeepCopy_snapshot planMem 1 _ _ planMem_view) as (m' & l' & E & _ & _ & Hs & Hc & _).
  exists m', l'. split_and!; [exact E| |].
  - apply Hc. apply insert_subseteq_r; [|apply map_subseteq_difference_l; reflexivity].
    apply lookup_difference_None. right. by eexists.
  - exists gPlan. split.
    + unfold nodesAt. rewrite lookup_insert_ne by done. by eapply lookup_weaken; [|exact Hs].
    + apply gPlan_view; unfold nodesAt; [apply lookup_insert_eq|].
      rewrite lookup_insert_ne by done. by eapply lookup_weaken; [|exact Hs].
Defined.

(** A plain struct copy would not do: it sees the update. *)
Example struct_copy_follows :
  let m := <[4%positive := Cell TPlan gPlan]> planMem in
  ptrView TPlan planView m (Some 4%positive) (Some (valueOf true)) ∧
  ptrView TPlan planView (nodesAt 2 false m) (Some 4%positive) (Some (valueOf false)).
Proof. split; exists gPlan; (split; [reflexivity|by apply gPlan_view]). Qed.
