(* ===== verification/Prog.v ===== *)
(** * Programs that talk to an environment

    The operator only acts through calls to the outside (the API server, the
    event recorder, the clock, the scheduler of map iteration).  A program is a
    well-founded tree of such calls: [Vis c k] issues the call [c] and goes on
    with its answer, [Ret a] returns.  The tree is inductive, so a program that
    can be written here terminates whatever the environment answers.

    Two readings of a program are used: [run p t a], the executions ([t] is the
    list of calls issued with the answers received, the environment is
    unconstrained), and [rg R G p Q], a rely/guarantee logic: if the answers
    satisfy [R], then every call satisfies [G] and the result satisfies [Q]. *)
From S2P Require Import Prelude.

Section Prog.
Context {Act : Type} {Res : Act → Type}.

Inductive prog (A : Type) : Type :=
| Ret (a : A)
| Vis (c : Act) (k : Res c → prog A).
Arguments Ret {A} a.
Arguments Vis {A} c k.

Fixpoint pbind {A B} (p : prog A) (f : A → prog B) : prog B :=
  match p with
  | Ret a => f a
  | Vis c k => Vis c (λ r, pbind (k r) f)
  end.

Definition trigger (c : Act) : prog (Res c) := Vis c Ret.

(** A call together with the answer it got. *)
Record event : Type := Ev { ev_act : Act; ev_res : Res ev_act }.

(** ** Executions *)

Fixpoint run {A} (p : prog A) (t : list event) (a : A) : Prop :=
  match p with
  | Ret x => t = [] ∧ a = x
  | Vis c k => ∃ r t', t = Ev c r :: t' ∧ run (k r) t' a
  end.

(** Execution against an environment given as a state machine. *)
Section Interp.
Context {W : Type} (answer : ∀ c : Act, W → Res c * W).

Fixpoint interp {A} (p : prog A) (w : W) : list event * A * W :=
  match p with
  | Ret a => ([], a, w)
  | Vis c k =>
      let '(r, w1) := answer c w in
      let '(t, a, w2) := interp (k r) w1 in
      (Ev c r :: t, a, w2)
  end.
End Interp.

(** ** Rely/guarantee logic *)

Definition rely : Type := ∀ c : Act, Res c → Prop.
Definition guar : Type := Act → Prop.

Definition anyAnswer : rely := λ _ _, True.
Definition anyCall : guar := λ _, True.

Fixpoint rg (R : rely) (G : guar) {A} (p : prog A) (Q : A → Prop) : Prop :=
  match p with
  | Ret a => Q a
  | Vis c k => G c ∧ ∀ r, R c r → rg R G (k r) Q
  end.

(** An execution in which every answer satisfies the rely. *)
Definition answered (R : rely) (t : list event) : Prop :=
  Forall (λ e, R (ev_act e) (ev_res e)) t.

(** An execution in which every call satisfies the guarantee. *)
Definition issued (G : guar) (t : list event) : Prop :=
  Forall (λ e, G (ev_act e)) t.

Lemma rg_sound R G {A} (p : prog A) Q t a :
  rg R G p Q → run p t a → answered R t → issued G t ∧ Q a.
Proof.
  revert t. induction p as [x|c k IH]; intros t Hrg Hrun Hans; cbn in *.
  - destruct Hrun as [-> ->]. split; [constructor|done].
  - destruct Hrun as (r & t' & -> & Hrun), Hrg as [Hc Hk].
    inversion_clear Hans as [|?? Hr Ht].
    destruct (IH r t' (Hk r Hr) Hrun Ht) as [Hi Hq].
    split; [constructor; done|done].
Qed.

Lemma rg_mono R1 R2 (G1 G2 : guar) {A} (p : prog A) (Q1 Q2 : A → Prop) :
  rg R1 G1 p Q1 → (∀ c r, R2 c r → R1 c r) → (∀ c, G1 c → G2 c) →
  (∀ a, Q1 a → Q2 a) → rg R2 G2 p Q2.
Proof.
  intros H HR HG HQ. induction p as [x|c k IH]; cbn in *; [by apply HQ|].
  destruct H as [Hc Hk]. split; [by apply HG|]. intros r Hr. by apply IH, Hk, HR.
Qed.

Lemma rg_post R G {A} (p : prog A) (Q1 Q2 : A → Prop) :
  rg R G p Q1 → (∀ a, Q1 a → Q2 a) → rg R G p Q2.
Proof. intros H HQ. by apply (rg_mono R R G G p Q1 Q2). Qed.

Lemma rg_bind R G {A B} (p : prog A) (f : A → prog B) Q :
  rg R G p (λ a, rg R G (f a) Q) → rg R G (pbind p f) Q.
Proof.
  induction p as [x|c k IH]; cbn; [done|].
  intros [Hc Hk]. split; [done|]. intros r Hr. by apply IH, Hk.
Qed.

Lemma rg_and R G1 G2 {A} (p : prog A) (Q1 Q2 : A → Prop) :
  rg R G1 p Q1 → rg R G2 p Q2 → rg R (λ c, G1 c ∧ G2 c) p (λ a, Q1 a ∧ Q2 a).
Proof.
  induction p as [x|c k IH]; cbn; [done|].
  intros [Hc Hk] [Hc' Hk']. split; [done|]. intros r Hr. by apply IH; auto.
Qed.

(** Every event of an execution is of the kind its calls are guaranteed to be. *)
Lemma issued_elem (G : guar) t e : issued G t → e ∈ t → G (ev_act e).
Proof. intros Hi He. unfold issued in Hi. rewrite list.Forall_forall in Hi. by apply Hi. Qed.

Lemma answered_any t : answered anyAnswer t.
Proof. by apply Forall_true. Qed.

Lemma run_bind {A B} (p : prog A) (f : A → prog B) t b :
  run (pbind p f) t b ↔ ∃ t1 a t2, t = t1 ++ t2 ∧ run p t1 a ∧ run (f a) t2 b.
Proof.
  revert t. induction p as [x|c k IH]; intros t; cbn; split.
  - intros Hr. by exists [], x, t.
  - by intros (t1 & a & t2 & -> & [-> ->] & Hr).
  - intros (r & t' & -> & Hr). apply IH in Hr as (t1 & a & t2 & -> & H1 & H2).
    exists (Ev c r :: t1), a, t2. split; [done|]. split; [|done]. by exists r, t1.
  - intros (t1 & a & t2 & -> & (r & t' & -> & H1) & H2).
    exists r, (t' ++ t2). split; [done|]. apply IH. by exists t', a, t2.
Qed.

Lemma interp_run {W A} (h : ∀ c : Act, W → Res c * W) (p : prog A) w t a w' :
  interp h p w = (t, a, w') → run p t a.
Proof.
  revert w t a w'. induction p as [x|c k IH]; intros w t a w' H; cbn in *.
  - by simplify_eq.
  - destruct (h c w) as [r w1]. destruct (interp h (k r) w1) as [[t' a'] w2] eqn:E.
    simplify_eq. exists r, t'. split; [done|]. by eapply IH.
Qed.

(** Every program has an execution against every environment: it terminates. *)
Lemma interp_total {W A} (h : ∀ c : Act, W → Res c * W) (p : prog A) w :
  ∃ t a w', interp h p w = (t, a, w') ∧ run p t a.
Proof.
  destruct (interp h p w) as [[t a] w'] eqn:E. exists t, a, w'.
  split; [done|]. by eapply interp_run.
Qed.
End Prog.

Arguments prog {Act} Res A.
Arguments Ret {Act Res A} a.
Arguments Vis {Act Res A} c k.
Arguments event {Act} Res.
Arguments Ev {Act Res} ev_act ev_res.
Arguments rely {Act} Res.
Arguments guar Act : clear implicits.

(** An environment all of whose answers satisfy the rely. *)
Lemma interp_answered {Act} {Res : Act → Type} {W A} (R : rely Res) (h : ∀ c : Act, W → Res c * W)
    (p : prog Res A) w :
  (∀ c w, R c (h c w).1) → answered R (interp h p w).1.1.
Proof.
  intros Hh. revert w. induction p as [x|c k IH]; intros w; cbn; [constructor|].
  pose proof (Hh c w) as Hc. destruct (h c w) as [r w1]. cbn in Hc.
  specialize (IH r w1). destruct (interp h (k r) w1) as [[t a] w2]. by constructor.
Qed.

(** The same when only the answers to guaranteed calls satisfy it. *)
Lemma interp_answered_rg {Act} {Res : Act → Type} {W A} (R : rely Res) (G : guar Act)
    (h : ∀ c : Act, W → Res c * W) (p : prog Res A) (Q : A → Prop) w :
  (∀ c w, G c → R c (h c w).1) → rg R G p Q → answered R (interp h p w).1.1.
Proof.
  intros Hh. revert w. induction p as [x|c k IH]; intros w Hp; cbn; [constructor|].
  destruct Hp as [Hc Hk]. pose proof (Hh c w Hc) as Hr. destruct (h c w) as [r w1]. cbn in Hr.
  specialize (IH r w1 (Hk r Hr)). destruct (interp h (k r) w1) as [[t a] w2]. by constructor.
Qed.
