(* ===== verification/Threads.v ===== *)
(** * A program among other programs

    [rg] (Prog.v) reasons about one program whose environment answers anything
    within a rely.  Where several programs talk to one server, the answers depend
    on the server's state and the state on everybody's calls.  [tp] is the logic
    of one program in such company, and is shared by the replicas of CertHA.v and
    the concurrent passes of Cluster.v: between any two calls of the program the
    state may change as [evolves] allows, a call is one step [serve] of the server,
    and the program owes [may] for each step it causes.  A system keeps [tp] for each of its
    programs by [tp_call] for the one that moves and [tp_evolves] for the rest. *)
From S2P Require Import Prelude Prog.

Section Threads.
Context {Act : Type} {Res : Act → Type} {W : Type}.
Context (evolves : W → W → Prop) (sane : W → Prop).
Context (serve may : W → event Res → W → Prop).

(** From the state [σ], with the others running: each call keeps to [may], and
    the program ends with [Q]. *)
Fixpoint tp {A} (p : prog Res A) (σ : W) (Q : A → W → Prop) : Prop :=
  match p with
  | Ret a => Q a σ
  | Vis c k => ∀ σ1, evolves σ σ1 → sane σ1 → ∀ r σ2, serve σ1 (Ev c r) σ2 →
      may σ1 (Ev c r) σ2 ∧ tp (k r) σ2 Q
  end.

Lemma tp_mono {A} (p : prog Res A) σ (Q1 Q2 : A → W → Prop) :
  tp p σ Q1 → (∀ a σ', Q1 a σ' → Q2 a σ') → tp p σ Q2.
Proof.
  revert σ. induction p as [a|c k IH]; intros σ H HQ; cbn in *; [by apply HQ|].
  intros σ1 He Hs r σ2 Hsv. destruct (H σ1 He Hs r σ2 Hsv) as [Hm Hk].
  split; [done|]. by apply IH.
Qed.

Lemma tp_and {A} (p : prog Res A) σ (Q1 Q2 : A → W → Prop) :
  tp p σ Q1 → tp p σ Q2 → tp p σ (λ a σ', Q1 a σ' ∧ Q2 a σ').
Proof.
  revert σ. induction p as [a|c k IH]; intros σ H1 H2; cbn in *; [done|].
  intros σ1 He Hs r σ2 Hsv. destruct (H1 σ1 He Hs r σ2 Hsv) as [Hm Hk1].
  destruct (H2 σ1 He Hs r σ2 Hsv) as [_ Hk2]. split; [done|]. by apply IH.
Qed.

Lemma tp_pbind {A B} (p : prog Res A) (f : A → prog Res B) σ Q :
  tp p σ (λ a σ', tp (f a) σ' Q) → tp (pbind p f) σ Q.
Proof.
  revert σ. induction p as [a|c k IH]; intros σ H; cbn in *; [done|].
  intros σ1 He Hs r σ2 Hsv. destruct (H σ1 He Hs r σ2 Hsv) as [Hm Hk].
  split; [done|]. by apply IH.
Qed.

(** Without calls the state does not move. *)
Lemma tp_silent {A} R (p : prog Res A) σ (Q1 : A → Prop) (Q2 : A → W → Prop) :
  rg R (λ _, False) p Q1 → (∀ a, Q1 a → Q2 a σ) → tp p σ Q2.
Proof. destruct p as [a|c k]; cbn; [auto|by intros [[] _]]. Qed.

(** A part known in the rely/guarantee logic runs among others while [I] is
    stable and every call it makes is fine in [I]. *)
Lemma tp_rg R (G : guar Act) (I : W → Prop) {A} (p : prog Res A) σ Q :
  (∀ σ σ', I σ → evolves σ σ' → I σ') →
  (∀ c r σ1 σ2, I σ1 → sane σ1 → G c → serve σ1 (Ev c r) σ2 →
     R c r ∧ may σ1 (Ev c r) σ2 ∧ I σ2) →
  rg R G p Q → I σ → tp p σ (λ a σ', I σ' ∧ Q a).
Proof.
  intros Hst Hc. revert σ. induction p as [a|c k IH]; intros σ Hp HI; cbn in *; [done|].
  destruct Hp as [HG Hk]. intros σ1 He Hs r σ2 Hsv.
  destruct (Hc c r σ1 σ2 (Hst _ _ HI He) Hs HG Hsv) as (HR & Hm & HI2).
  split; [done|]. by apply IH; [apply Hk|].
Qed.

Section System.
Context `{!PreOrder evolves}.

(** The others move. *)
Lemma tp_evolves {A} (p : prog Res A) σ σ' (Q : A → W → Prop) :
  (∀ a σ σ', evolves σ σ' → Q a σ → Q a σ') → evolves σ σ' → tp p σ Q → tp p σ' Q.
Proof.
  intros HQ He. destruct p as [a|c k]; cbn; [by apply HQ|].
  intros H σ1 He1. apply H. by etrans.
Qed.

(** The program moves. *)
Lemma tp_call {A} c (k : Res c → prog Res A) σ r σ' Q :
  tp (Vis c k) σ Q → sane σ → serve σ (Ev c r) σ' → may σ (Ev c r) σ' ∧ tp (k r) σ' Q.
Proof. intros H Hs Hsv. by apply (H σ). Qed.
End System.
End Threads.

(** A duty that depends on the calls being guaranteed. *)
Lemma tp_under {Act} {Res : Act → Type} {W} (evolves : W → W → Prop) (sane : W → Prop)
    (serve may1 may2 : W → event Res → W → Prop) R G {A} (p : prog Res A) σ
    (Q1 : A → W → Prop) (Q2 : A → Prop) :
  (∀ c r σ1 σ2, sane σ1 → G c → serve σ1 (Ev c r) σ2 →
     R c r ∧ (may1 σ1 (Ev c r) σ2 → may2 σ1 (Ev c r) σ2)) →
  tp evolves sane serve may1 p σ Q1 → rg R G p Q2 →
  tp evolves sane serve may2 p σ (λ a σ', Q1 a σ' ∧ Q2 a).
Proof.
  intros Hc. revert σ. induction p as [a|c k IH]; intros σ Hp Hrg; cbn in *; [done|].
  destruct Hrg as [HG Hk]. intros σ1 He Hs r σ2 Hsv. destruct (Hp σ1 He Hs r σ2 Hsv) as [Hm Hk'].
  destruct (Hc c r σ1 σ2 Hs HG Hsv) as [HR Hmay]. split; [by apply Hmay|]. by apply IH, Hk.
Qed.

(** A program alone with a server given as a function. *)
Definition servedBy {Act} {Res : Act → Type} {W} (h : ∀ c : Act, W → Res c * W)
    (σ : W) (e : event Res) (σ' : W) : Prop :=
  h (ev_act e) σ = (ev_res e, σ').

Lemma tp_interp {Act} {Res : Act → Type} {W} (h : ∀ c : Act, W → Res c * W) (sane : W → Prop)
    (may : W → event Res → W → Prop) {A} (p : prog Res A) σ (Q : A → W → Prop) :
  (∀ c σ, sane σ → sane (h c σ).2) → sane σ → tp eq sane (servedBy h) may p σ Q →
  Q (interp h p σ).1.2 (interp h p σ).2.
Proof.
  intros Hh. revert σ. induction p as [a|c k IH]; intros σ Hs Hp; cbn in *; [done|].
  pose proof (Hh c σ Hs) as Hs'. destruct (h c σ) as [r σ'] eqn:Hr. cbn in Hs'.
  destruct (Hp σ eq_refl Hs r σ' Hr) as [_ Hk]. specialize (IH r σ' Hs' Hk).
  by destruct (interp h (k r) σ') as [[t a] σ2].
Qed.

(** What every answer keeps, a run keeps. *)
Lemma interp_sane {Act} {Res : Act → Type} {W} (h : ∀ c : Act, W → Res c * W) (sane : W → Prop) {A}
    (p : prog Res A) σ :
  (∀ c σ, sane σ → sane (h c σ).2) → sane σ → sane (interp h p σ).2.
Proof.
  intros Hh. revert σ. induction p as [a|c k IH]; intros σ Hs; cbn; [done|].
  pose proof (Hh c σ Hs) as Hs'. destruct (h c σ) as [r σ']. specialize (IH r σ' Hs').
  by destruct (interp h (k r) σ') as [[t a] σ2].
Qed.
