(* ===== verification/Kube.v ===== *)
(** * The operator's environment and its monad

    [call] lists every interaction of the maintenance code with the outside:
    requests of the controller-runtime client, [recorder.Eventf], the injected
    clock, [metav1.Now()], and the iteration order Go picks for a map.  [resp]
    gives the type of each answer.  The environment is not modelled: an answer
    may be anything of its type, which covers a changing cluster, concurrent
    writers and API failures.  [M] is the monad the service is written in: the
    shared mutable objects (the [*NodeMaintenancePlan] of the pass and the
    [corev1.Node] objects its slices and maps point into) are its state, and an
    outcome is a result, a Go error or a run-time panic. *)
From S2P Require Import Prelude GoTime Api Prog Threads.

(** ** Errors *)

(** What [apierrors.IsNotFound], [IsTooManyRequests], [IsAlreadyExists] read off
    an API error. *)
Inductive StatusReason : Type :=
| ReasonNotFound | ReasonTooManyRequests | ReasonAlreadyExists | ReasonOther.

#[export] Instance StatusReason_eq_dec : EqDecision StatusReason.
Proof. solve_decision. Defined.

Record ApiError : Type := MkApiError { ae_Reason : StatusReason; ae_Message : string }.

Definition IsNotFound (e : ApiError) : bool := bool_decide (ae_Reason e = ReasonNotFound).
Definition IsTooManyRequests (e : ApiError) : bool :=
  bool_decide (ae_Reason e = ReasonTooManyRequests).

(** drain_node.go: pods that prevent the drain of a node. *)
Record drainBlockedError : Type := MkDrainBlockedError {
  db_node : string;
  db_pods : list Pod;
  db_pdbBlocked : bool
}.

(** node_health.go: the node is NotReady. *)
Record nodeNotReadyError : Type := MkNodeNotReadyError {
  nr_node : string;
  nr_notReadySince : option Time
}.

Inductive error : Type :=
| ErrApi (e : ApiError)
| ErrNew (msg : string)
| ErrWrap (msg : string) (e : error)   (* fmt.Errorf("<msg>: %w", e) *)
| ErrDrainBlocked (e : drainBlockedError)
| ErrNodeNotReady (e : nodeNotReadyError).

Definition drainBlockedError_Error (e : drainBlockedError) : string :=
  if db_pdbBlocked e
  then "node " +:+ db_node e +:+ ": drain blocked by PDB on "
       +:+ pretty (length (db_pods e)) +:+ " pod(s)"
  else "node " +:+ db_node e +:+ ": drain blocked by "
       +:+ pretty (length (db_pods e)) +:+ " unevictable pod(s)".

Definition nodeNotReadyError_Error (e : nodeNotReadyError) : string :=
  "node " +:+ nr_node e +:+ " is NotReady".

(** [err.Error()]. *)
Fixpoint Error (e : error) : string :=
  match e with
  | ErrApi e => ae_Message e
  | ErrNew msg => msg
  | ErrWrap msg e => msg +:+ ": " +:+ Error e
  | ErrDrainBlocked e => drainBlockedError_Error e
  | ErrNodeNotReady e => nodeNotReadyError_Error e
  end.

(** [errors.As(err, &target)] for the two custom error types. *)
Fixpoint asDrainBlocked (e : error) : option drainBlockedError :=
  match e with
  | ErrDrainBlocked b => Some b
  | ErrWrap _ e => asDrainBlocked e
  | _ => None
  end.

Fixpoint asNodeNotReady (e : error) : option nodeNotReadyError :=
  match e with
  | ErrNodeNotReady b => Some b
  | ErrWrap _ e => asNodeNotReady e
  | _ => None
  end.

(** ** Label selectors

    [metav1.LabelSelectorAsSelector] and [labels.Selector.Matches] belong to
    apimachinery: a parameter of the functions that use them. *)
Class SelectorOps : Type := {
  LabelSelectorAsSelector : LabelSelector → string + (strmap → bool)
}.

(** ** Calls *)

(** The arguments of [recorder.Eventf(plan, related, eventtype, reason, action,
    note, args...)], the note formatted. *)
Record Event : Type := MkEvent {
  ev_Plan : string;
  ev_Related : option string;
  ev_Type : string;
  ev_Reason : string;
  ev_Action : string;
  ev_Note : string
}.

Inductive call : Type :=
| CGetNode (name : string)
| CListNodes (selector : option LabelSelector) (limit : option Z)
| CListPods (nodeName : string)
| CListPDBs (namespace : string)
| CGetPlan (name : string)
| CListPlans
| CEvict (pod : Pod) (gracePeriodSeconds : option Z)
| CDeletePod (pod : Pod)
| CPatchNode (original modified : Node)
| CPatchPlan (original modified : NodeMaintenancePlan)
| CPatchPlanStatus (original modified : NodeMaintenancePlan)
| CEvent (e : Event)
| CNow                             (* s.clock.Now(), s.clock.Since *)
| CMetaNow                         (* metav1.Now() *)
| CMapOrder (keys : list string)   (* for k := range m *)
| CRecordPlan (plan : NodeMaintenancePlan)   (* metrics.RecordPlan, see Metrics.v *)
| CDeletePlan (plan : NodeMaintenancePlan).  (* metrics.DeletePlan *)

(** [inl] is the error of the request; a [nat] answer to [CMapOrder] selects one
    of the orders of the keys. *)
Definition resp (c : call) : Type :=
  match c with
  | CGetNode _ => ApiError + Node
  | CListNodes _ _ => ApiError + list Node
  | CListPods _ => ApiError + list Pod
  | CListPDBs _ => ApiError + list PodDisruptionBudget
  | CGetPlan _ => ApiError + NodeMaintenancePlan
  | CListPlans => ApiError + list NodeMaintenancePlan
  | CEvict _ _ | CDeletePod _ => option ApiError
  | CPatchNode _ _ => ApiError + Node
  | CPatchPlan _ _ | CPatchPlanStatus _ _ => ApiError + NodeMaintenancePlan
  | CEvent _ | CRecordPlan _ | CDeletePlan _ => unit
  | CNow | CMetaNow => Time
  | CMapOrder _ => nat
  end.

Abbreviation kprog := (prog resp).
Abbreviation ktrace := (list (event resp)).

(** ** The monad *)

(** A pointer to a node object of the pass. *)
Abbreviation loc := nat.

Record st : Type := MkSt {
  st_plan : NodeMaintenancePlan;
  st_heap : list Node
}.

Inductive outcome (A : Type) : Type :=
| OK (a : A)
| Fail (e : error)
| Panic.
Arguments OK {A} a.
Arguments Fail {A} e.
Arguments Panic {A}.

Definition M (A : Type) : Type := st → kprog (st * outcome A).

Definition mbindOutcome {A B} (f : A → M B) (r : st * outcome A) : kprog (st * outcome B) :=
  match r.2 with
  | OK a => f a r.1
  | Fail e => Ret (r.1, Fail e)
  | Panic => Ret (r.1, Panic)
  end.

#[export] Instance M_ret : MRet M := λ A a s, Ret (s, OK a).
#[export] Instance M_bind : MBind M := λ A B f m s, pbind (m s) (mbindOutcome f).

Definition throw {A} (e : error) : M A := λ s, Ret (s, Fail e).
Definition panic {A} : M A := λ s, Ret (s, Panic).

Definition perform (c : call) : M (resp c) := λ s, Vis c (λ r, Ret (s, OK r)).

(** [if err != nil { return fmt.Errorf("<msg>: %w", err) }]. *)
Definition wrapErr {A} (msg : string) (m : M A) : M A := λ s,
  pbind (m s) (λ r, Ret (r.1, match r.2 with Fail e => Fail (ErrWrap msg e) | o => o end)).

(** [x, err := ...; if err != nil { return err }] for an answer of the client. *)
Definition orThrow {A} (r : ApiError + A) : M A :=
  match r with inl e => throw (ErrApi e) | inr a => mret a end.

(** [for _, x := range xs { ... }] whose body may return an error. *)
Fixpoint rangeM {A} (xs : list A) (f : A → M unit) : M unit :=
  match xs with
  | [] => mret tt
  | x :: xs' => f x ;; rangeM xs' f
  end.

(** The same with variables the body updates. *)
Fixpoint foldM {A B} (f : B → A → M B) (b : B) (xs : list A) : M B :=
  match xs with
  | [] => mret b
  | x :: xs' => b' ← f b x; foldM f b' xs'
  end.

(** *** The shared plan *)
Definition getPlan : M NodeMaintenancePlan := λ s, Ret (s, OK (st_plan s)).
Definition setPlan (p : NodeMaintenancePlan) : M unit := λ s, Ret (MkSt p (st_heap s), OK tt).
Definition modifyPlan (f : NodeMaintenancePlan → NodeMaintenancePlan) : M unit :=
  λ s, Ret (MkSt (f (st_plan s)) (st_heap s), OK tt).

(** *** Node objects *)
Definition load (l : loc) : M Node := λ s,
  match st_heap s !! l with Some n => Ret (s, OK n) | None => Ret (s, Panic) end.
Definition store (l : loc) (n : Node) : M unit := λ s,
  Ret (MkSt (st_plan s) (<[l:=n]> (st_heap s)), OK tt).
Definition alloc (n : Node) : M loc := λ s,
  Ret (MkSt (st_plan s) (st_heap s ++ [n]), OK (length (st_heap s))).

(** An assignment into a node's map: a panic when the map is nil. *)
Definition storeOr {A} (o : option A) : M A :=
  match o with Some a => mret a | None => panic end.

(** *** Requests *)

(** [s.client.Patch(ctx, node, client.MergeFrom(original))]: on success the
    object holds the server's answer. *)
Definition patchNode (l : loc) (original : Node) : M unit :=
  n ← load l;
  r ← perform (CPatchNode original n);
  n' ← orThrow r;
  store l n'.

Definition patchPlan (original : NodeMaintenancePlan) : M unit :=
  p ← getPlan;
  r ← perform (CPatchPlan original p);
  p' ← orThrow r;
  setPlan p'.

Definition patchPlanStatus (original : NodeMaintenancePlan) : M unit :=
  p ← getPlan;
  r ← perform (CPatchPlanStatus original p);
  p' ← orThrow r;
  setPlan p'.

(** [s.recorder.Eventf(plan, related, ...)]. *)
Definition Eventf (related : option string) (eventtype reason action note : string) : M unit :=
  p ← getPlan;
  perform (CEvent (MkEvent (p_Name p) related eventtype reason action note)).

(** [for k, v := range m]: the entries of the map in the order picked. *)
Definition rangeMap {A} (m : gmap string A) : M (list (string * A)) :=
  i ← perform (CMapOrder (map_to_list m).*1);
  mret (default (map_to_list m) (permutations (map_to_list m) !! i)).

(** ** Rely/guarantee for the monad *)

Definition rgM (R : rely resp) (G : guar call) {A} (m : M A) (s : st)
    (Q : st → outcome A → Prop) : Prop := rg R G (m s) (λ r, Q r.1 r.2).

(** Executions of a monadic program from a state. *)
Definition runM {A} (m : M A) (s : st) (t : ktrace) (s' : st) (o : outcome A) : Prop :=
  run (m s) t (s', o).

Lemma runM_bind {A B} (m : M A) (f : A → M B) s t s' o :
  runM (m ≫= f) s t s' o ↔
  ∃ t1 s1 o1 t2, t = t1 ++ t2 ∧ runM m s t1 s1 o1 ∧
    match o1 with
    | OK a => runM (f a) s1 t2 s' o
    | Fail e => t2 = [] ∧ s' = s1 ∧ o = Fail e
    | Panic => t2 = [] ∧ s' = s1 ∧ o = Panic
    end.
Proof.
  unfold runM, mbind, M_bind. rewrite run_bind. split.
  - intros (t1 & [s1 o1] & t2 & -> & H1 & H2). exists t1, s1, o1, t2. split_and!; [done|done|].
    destruct o1; cbn in H2; [done|by destruct H2 as [-> [= -> ->]]..].
  - intros (t1 & s1 & o1 & t2 & -> & H1 & H2). exists t1, (s1, o1), t2. split_and!; [done|done|].
    destruct o1; cbn; [done|by destruct H2 as (-> & -> & ->)..].
Qed.

Lemma wrapErr_run {A} msg (m : M A) s t s' o :
  runM (wrapErr msg m) s t s' o →
  ∃ o', runM m s t s' o' ∧ o = match o' with Fail e => Fail (ErrWrap msg e) | o => o end.
Proof.
  unfold wrapErr, runM. intros (t1 & [s1 o1] & t2 & -> & Hm & [-> [= -> ->]])%run_bind.
  exists o1. rewrite app_nil_r. split; [done|by destruct o1].
Qed.

(** ** Rules

    One rule per constructor of the monad; [rg_steps] applies them until the
    goal speaks about states and outcomes only. *)

Lemma rgM_sound {R G A} {m : M A} {s Q t s' o} :
  rgM R G m s Q → runM m s t s' o → answered R t → issued G t ∧ Q s' o.
Proof. intros H Hr Ha. by destruct (rg_sound R G _ _ t _ H Hr Ha). Qed.

Lemma rgM_mono {R1 R2} {G1 G2 : guar call} {A} {m : M A} {s} {Q1 Q2 : st → outcome A → Prop} :
  rgM R1 G1 m s Q1 → (∀ c r, R2 c r → R1 c r) → (∀ c, G1 c → G2 c) →
  (∀ s' o, Q1 s' o → Q2 s' o) → rgM R2 G2 m s Q2.
Proof. intros H HR HG HQ. eapply rg_mono; eauto. Qed.

Lemma rgM_post {R G A} {m : M A} {s} {Q1 Q2 : st → outcome A → Prop} :
  rgM R G m s Q1 → (∀ s' o, Q1 s' o → Q2 s' o) → rgM R G m s Q2.
Proof. intros H HQ. by apply (rgM_mono H). Qed.

Section Rules.
Context (R : rely resp) (G : guar call).

Lemma rgM_ret {A} (a : A) s Q : Q s (OK a) → rgM R G (mret a) s Q.
Proof. done. Qed.

Lemma rgM_throw {A} e s (Q : st → outcome A → Prop) : Q s (Fail e) → rgM R G (throw e) s Q.
Proof. done. Qed.

Lemma rgM_panic {A} s (Q : st → outcome A → Prop) : Q s Panic → rgM R G panic s Q.
Proof. done. Qed.

Lemma rgM_bind {A B} (m : M A) (f : A → M B) s Q :
  rgM R G m s (λ s' o, match o with
    | OK a => rgM R G (f a) s' Q
    | Fail e => Q s' (Fail e)
    | Panic => Q s' Panic
    end) → rgM R G (m ≫= f) s Q.
Proof.
  intros H. apply rg_bind. eapply rg_post; [exact H|]. intros [s' [a|e|]]; cbn; auto.
Qed.

Lemma rgM_wrapErr {A} msg (m : M A) s Q :
  rgM R G m s (λ s' o, match o with
    | Fail e => Q s' (Fail (ErrWrap msg e))
    | o => Q s' o
    end) → rgM R G (wrapErr msg m) s Q.
Proof.
  intros H. apply rg_bind. eapply rg_post; [exact H|]. intros [s' [a|e|]]; cbn; auto.
Qed.

Lemma rgM_perform c s Q :
  G c → (∀ r, R c r → Q s (OK r)) → rgM R G (perform c) s Q.
Proof. done. Qed.

Lemma rgM_getPlan s Q : Q s (OK (st_plan s)) → rgM R G getPlan s Q.
Proof. done. Qed.

Lemma rgM_setPlan p s (Q : st → outcome unit → Prop) :
  Q (MkSt p (st_heap s)) (OK tt) → rgM R G (setPlan p) s Q.
Proof. done. Qed.

Lemma rgM_modifyPlan f s (Q : st → outcome unit → Prop) :
  Q (MkSt (f (st_plan s)) (st_heap s)) (OK tt) → rgM R G (modifyPlan f) s Q.
Proof. done. Qed.

Lemma rgM_load l s Q :
  (∀ n, st_heap s !! l = Some n → Q s (OK n)) →
  (st_heap s !! l = None → Q s Panic) → rgM R G (load l) s Q.
Proof. intros H1 H2. unfold rgM, load. destruct (st_heap s !! l) eqn:E; cbn; auto. Qed.

Lemma rgM_store l n s (Q : st → outcome unit → Prop) :
  Q (MkSt (st_plan s) (<[l:=n]> (st_heap s))) (OK tt) → rgM R G (store l n) s Q.
Proof. done. Qed.

Lemma rgM_alloc n s (Q : st → outcome loc → Prop) :
  Q (MkSt (st_plan s) (st_heap s ++ [n])) (OK (length (st_heap s))) → rgM R G (alloc n) s Q.
Proof. done. Qed.

Lemma rgM_orThrow {A} (r : ApiError + A) s Q :
  (∀ e, r = inl e → Q s (Fail (ErrApi e))) → (∀ a, r = inr a → Q s (OK a)) →
  rgM R G (orThrow r) s Q.
Proof. intros H1 H2. destruct r; [by apply H1|by apply H2]. Qed.

Lemma rgM_storeOr {A} (o : option A) s Q :
  (∀ a, o = Some a → Q s (OK a)) → (o = None → Q s Panic) → rgM R G (storeOr o) s Q.
Proof. intros H1 H2. destruct o; [by apply H1|by apply H2]. Qed.

Lemma rgM_Eventf related ty reason action note s (Q : st → outcome unit → Prop) :
  G (CEvent (MkEvent (p_Name (st_plan s)) related ty reason action note)) →
  Q s (OK tt) → rgM R G (Eventf related ty reason action note) s Q.
Proof. intros HG HQ. split; [done|]. by intros [] _. Qed.

(** A loop keeps an invariant over the elements still to be visited. *)
Lemma rgM_rangeM {A} (I : list A → st → Prop) (f : A → M unit) xs s (Q : st → outcome unit → Prop) :
  (∀ x xs' s, I (x :: xs') s →
     rgM R G (f x) s (λ s' o, match o with OK _ => I xs' s' | o => Q s' o end)) →
  (∀ s, I [] s → Q s (OK tt)) →
  I xs s → rgM R G (rangeM xs f) s Q.
Proof.
  intros Hstep Hend. revert s. induction xs as [|x xs IH]; intros s HI; cbn [rangeM].
  - by apply rgM_ret, Hend.
  - apply rgM_bind. eapply rgM_post; [by apply Hstep|]. intros s' [[]|e|]; auto.
Qed.

Lemma rgM_foldM {A B} (I : B → list A → st → Prop) (f : B → A → M B) b xs s Q :
  (∀ b x xs' s, I b (x :: xs') s →
     rgM R G (f b x) s (λ s' o, match o with OK b' => I b' xs' s' | o => Q s' o end)) →
  (∀ b s, I b [] s → Q s (OK b)) →
  I b xs s → rgM R G (foldM f b xs) s Q.
Proof.
  intros Hstep Hend. revert b s. induction xs as [|x xs IH]; intros b s HI; cbn [foldM].
  - by apply rgM_ret, Hend.
  - apply rgM_bind. eapply rgM_post; [by apply Hstep|]. intros s' [b'|e|]; auto.
Qed.

(** Whatever order is picked, the visited entries are those of the map. *)
Lemma rgM_rangeMap {A} (m : gmap string A) s (Q : st → outcome (list (string * A)) → Prop) :
  G (CMapOrder (map_to_list m).*1) →
  (∀ l, l ≡ₚ map_to_list m → Q s (OK l)) → rgM R G (rangeMap m) s Q.
Proof.
  intros HG HQ. apply rgM_bind, rgM_perform; [done|]. intros i _. apply rgM_ret, HQ.
  destruct (permutations (map_to_list m) !! i) as [l|] eqn:E; [|done]. cbn.
  apply list_elem_of_lookup_2 in E. by apply permutations_Permutation in E.
Qed.

(** The node object ends up holding the server's answer, or is left as it was. *)
Lemma rgM_patchNode l orig s n (Q : st → outcome unit → Prop) :
  st_heap s !! l = Some n →
  G (CPatchNode orig n) →
  (∀ e, R (CPatchNode orig n) (inl e) → Q s (Fail (ErrApi e))) →
  (∀ n', R (CPatchNode orig n) (inr n') →
     Q (MkSt (st_plan s) (<[l:=n']> (st_heap s))) (OK tt)) →
  rgM R G (patchNode l orig) s Q.
Proof.
  intros Hl HG He Hok. apply rgM_bind, rgM_load; [|congruence].
  intros n0 Hn0. simplify_eq. apply rgM_bind, rgM_perform; [done|].
  intros [e|n'] Hr; [by apply He|by apply Hok].
Qed.

Lemma rgM_patchPlan orig s (Q : st → outcome unit → Prop) :
  G (CPatchPlan orig (st_plan s)) →
  (∀ e, R (CPatchPlan orig (st_plan s)) (inl e) → Q s (Fail (ErrApi e))) →
  (∀ p, R (CPatchPlan orig (st_plan s)) (inr p) → Q (MkSt p (st_heap s)) (OK tt)) →
  rgM R G (patchPlan orig) s Q.
Proof.
  intros HG He Hok. apply rgM_bind, rgM_getPlan, rgM_bind, rgM_perform; [done|].
  intros [e|p] Hr; [by apply He|by apply Hok].
Qed.

Lemma rgM_patchPlanStatus orig s (Q : st → outcome unit → Prop) :
  G (CPatchPlanStatus orig (st_plan s)) →
  (∀ e, R (CPatchPlanStatus orig (st_plan s)) (inl e) → Q s (Fail (ErrApi e))) →
  (∀ p, R (CPatchPlanStatus orig (st_plan s)) (inr p) → Q (MkSt p (st_heap s)) (OK tt)) →
  rgM R G (patchPlanStatus orig) s Q.
Proof.
  intros HG He Hok. apply rgM_bind, rgM_getPlan, rgM_bind, rgM_perform; [done|].
  intros [e|p] Hr; [by apply He|by apply Hok].
Qed.
End Rules.

(** Symbolic execution: one rule application per step. *)
Ltac rg_step :=
  lazymatch goal with
  | |- rgM _ _ (mbind _ _) _ _ => apply rgM_bind
  | |- rgM _ _ (mret _) _ _ => apply rgM_ret
  | |- rgM _ _ (throw _) _ _ => apply rgM_throw
  | |- rgM _ _ panic _ _ => apply rgM_panic
  | |- rgM _ _ (wrapErr _ _) _ _ => apply rgM_wrapErr
  | |- rgM _ _ getPlan _ _ => apply rgM_getPlan
  | |- rgM _ _ (setPlan _) _ _ => apply rgM_setPlan
  | |- rgM _ _ (modifyPlan _) _ _ => apply rgM_modifyPlan
  | |- rgM _ _ (store _ _) _ _ => apply rgM_store
  | |- rgM _ _ (alloc _) _ _ => apply rgM_alloc
  | |- rgM _ _ (perform _) _ _ => apply rgM_perform; [|intros ? ?]
  | |- rgM _ _ (Eventf _ _ _ _ _) _ _ => apply rgM_Eventf
  | |- rgM _ _ (load _) _ _ => apply rgM_load; [intros ? ?|intros ?]
  | |- rgM _ _ (orThrow _) _ _ => apply rgM_orThrow; intros ? ->
  | |- rgM _ _ (storeOr _) _ _ => apply rgM_storeOr; [intros ? ?|intros ?]
  | |- rgM _ _ (if ?b then _ else _) _ _ => destruct b eqn:?
  | |- rgM _ _ (match ?o with Some _ => _ | None => _ end) _ _ => destruct o eqn:?
  end; cbn beta iota.

Ltac rg_steps := repeat rg_step.

(** ** Programs that keep an invariant

    [preserves R G I m]: from any state in [I], [m] stays in [I] and issues only
    calls in [G].  The rules follow the structure of the program, so [keep_inv]
    proves it for a whole operation. *)
Definition preserves (R : rely resp) (G : guar call) (I : st → Prop) {A} (m : M A) : Prop :=
  ∀ s, I s → rgM R G m s (λ s' _, I s').

Section Preserves.
Context {R : rely resp} {G : guar call} {I : st → Prop}.

Lemma preserves_ret {A} (a : A) : preserves R G I (mret a).
Proof. by intros s Hs. Qed.

Lemma preserves_throw {A} e : preserves R G I (throw (A:=A) e).
Proof. by intros s Hs. Qed.

Lemma preserves_panic {A} : preserves R G I (panic (A:=A)).
Proof. by intros s Hs. Qed.

Lemma preserves_bind {A B} (m : M A) (f : A → M B) :
  preserves R G I m → (∀ a, preserves R G I (f a)) → preserves R G I (m ≫= f).
Proof.
  intros Hm Hf s Hs. apply rgM_bind. eapply rgM_post; [by apply Hm|].
  intros s' [a|e|] Hs'; [by apply Hf|done|done].
Qed.

Lemma preserves_wrapErr {A} msg (m : M A) : preserves R G I m → preserves R G I (wrapErr msg m).
Proof.
  intros Hm s Hs. apply rgM_wrapErr. eapply rgM_post; [by apply Hm|]. by intros s' [a|e|] Hs'.
Qed.

Lemma preserves_perform c : G c → preserves R G I (perform c).
Proof. intros Hc s Hs. by apply rgM_perform. Qed.

Lemma preserves_getPlan : preserves R G I getPlan.
Proof. by intros s Hs. Qed.

Lemma preserves_load l : preserves R G I (load l).
Proof. intros s Hs. by apply rgM_load. Qed.

Lemma preserves_orThrow {A} (r : ApiError + A) : preserves R G I (orThrow r).
Proof. intros s Hs. by apply rgM_orThrow. Qed.

Lemma preserves_storeOr {A} (o : option A) : preserves R G I (storeOr o).
Proof. intros s Hs. by apply rgM_storeOr. Qed.

Lemma preserves_store l n :
  (∀ s, I s → I (MkSt (st_plan s) (<[l:=n]> (st_heap s)))) → preserves R G I (store l n).
Proof. intros HI s Hs. apply rgM_store. by apply HI. Qed.

Lemma preserves_alloc n :
  (∀ s, I s → I (MkSt (st_plan s) (st_heap s ++ [n]))) → preserves R G I (alloc n).
Proof. intros HI s Hs. apply rgM_alloc. by apply HI. Qed.

Lemma preserves_modifyPlan f :
  (∀ s, I s → I (MkSt (f (st_plan s)) (st_heap s))) → preserves R G I (modifyPlan f).
Proof. intros Hf s Hs. apply rgM_modifyPlan. by apply Hf. Qed.

Lemma preserves_Eventf related ty reason action note :
  (∀ e, G (CEvent e)) → preserves R G I (Eventf related ty reason action note).
Proof. intros HG s Hs. by apply rgM_Eventf. Qed.

Lemma preserves_rangeM {A} (xs : list A) (f : A → M unit) :
  (∀ x, preserves R G I (f x)) → preserves R G I (rangeM xs f).
Proof.
  intros Hf. induction xs as [|x xs IH]; cbn [rangeM]; [apply preserves_ret|].
  by apply preserves_bind.
Qed.

Lemma preserves_foldM {A B} (f : B → A → M B) b xs :
  (∀ b x, preserves R G I (f b x)) → preserves R G I (foldM f b xs).
Proof.
  intros Hf. revert b. induction xs as [|x xs IH]; intros b; cbn [foldM]; [apply preserves_ret|].
  by apply preserves_bind.
Qed.

Lemma preserves_rangeMap {A} (m : gmap string A) :
  (∀ ks, G (CMapOrder ks)) → preserves R G I (rangeMap m).
Proof. intros HG s Hs. by apply rgM_rangeMap. Qed.

Lemma preserves_patchPlanStatus original :
  (∀ p q, G (CPatchPlanStatus p q)) →
  (∀ s p, I s → R (CPatchPlanStatus original (st_plan s)) (inr p) → I (MkSt p (st_heap s))) →
  preserves R G I (patchPlanStatus original).
Proof. intros HG HI s Hs. apply rgM_patchPlanStatus; [done|done|]. intros p Hp. by apply HI. Qed.

Lemma preserves_patchPlan original :
  (∀ p q, G (CPatchPlan p q)) →
  (∀ s p, I s → R (CPatchPlan original (st_plan s)) (inr p) → I (MkSt p (st_heap s))) →
  preserves R G I (patchPlan original).
Proof. intros HG HI s Hs. apply rgM_patchPlan; [done|done|]. intros p Hp. by apply HI. Qed.
End Preserves.

(** One structural step; leaves the side conditions that are not automatic. *)
Ltac keep_step :=
  lazymatch goal with
  | |- preserves _ _ _ (mbind _ _) => apply preserves_bind; [|intros ?]
  | |- preserves _ _ _ (mret _) => apply preserves_ret
  | |- preserves _ _ _ (throw _) => apply preserves_throw
  | |- preserves _ _ _ panic => apply preserves_panic
  | |- preserves _ _ _ (wrapErr _ _) => apply preserves_wrapErr
  | |- preserves _ _ _ (perform _) => apply preserves_perform
  | |- preserves _ _ _ getPlan => apply preserves_getPlan
  | |- preserves _ _ _ (load _) => apply preserves_load
  | |- preserves _ _ _ (orThrow _) => apply preserves_orThrow
  | |- preserves _ _ _ (store _ _) => apply preserves_store
  | |- preserves _ _ _ (alloc _) => apply preserves_alloc
  | |- preserves _ _ _ (storeOr _) => apply preserves_storeOr
  | |- preserves _ _ _ (Eventf _ _ _ _ _) => apply preserves_Eventf
  | |- preserves _ _ _ (rangeM _ _) => apply preserves_rangeM; intros ?
  | |- preserves _ _ _ (foldM _ _ _) => apply preserves_foldM; intros ? ?
  | |- preserves _ _ _ (rangeMap _) => apply preserves_rangeMap
  | |- preserves _ _ _ (if ?b then _ else _) => destruct b
  | |- preserves _ _ _ (match ?x with _ => _ end) => destruct x
  end.
Ltac keep_inv :=
  repeat keep_step;
  try lazymatch goal with |- preserves _ _ _ _ => fail | |- _ => done end.

(** ** Standard relies *)

(** No concurrent writer: a successful patch answers with the object as sent. *)
Definition echoes : rely resp := λ c,
  match c return resp c → Prop with
  | CPatchNode _ m => λ r, ∀ n, r = inr n → n = m
  | CPatchPlan _ m | CPatchPlanStatus _ m => λ r, ∀ p, r = inr p → p = m
  | _ => λ _, True
  end.

(** The API server never renames an object. *)
Definition keepsNames : rely resp := λ c,
  match c return resp c → Prop with
  | CPatchNode _ m => λ r, ∀ n, r = inr n → n_Name n = n_Name m
  | CPatchPlan _ m | CPatchPlanStatus _ m => λ r, ∀ p, r = inr p → p_Name p = p_Name m
  | _ => λ _, True
  end.

(** Events and the clock. *)
Definition notifies (c : call) : Prop :=
  match c with CEvent _ | CNow => True | _ => False end.

(** Everything but a write to a node. *)
Definition noNodeWrites : guar call := λ c,
  match c with CPatchNode _ _ => False | _ => True end.

(** The nodes of the pass are as they were and the plan keeps its name. *)
Definition framed (h : list Node) (name : string) (s : st) : Prop :=
  st_heap s = h ∧ p_Name (st_plan s) = name.

(** Programs that write no node. *)
Abbreviation quiet m := (∀ h name, preserves keepsNames noNodeWrites (framed h name) m).

Create HintDb quiet.
#[export] Hint Constants Opaque : quiet.

Lemma quiet_modifyPlan f :
  (∀ p, p_Name (f p) = p_Name p) → quiet (modifyPlan f).
Proof.
  intros Hf h name. apply preserves_modifyPlan. intros s [Hh Hn]. split; [done|]. cbn.
  by rewrite Hf.
Qed.

Lemma quiet_patchPlanStatus original : quiet (patchPlanStatus original).
Proof.
  intros h name. apply preserves_patchPlanStatus; [done|]. intros s p [Hh Hn] Hr. cbn in Hr.
  split; [done|]. cbn. by rewrite (Hr p eq_refl).
Qed.

Lemma quiet_patchPlan original : quiet (patchPlan original).
Proof.
  intros h name. apply preserves_patchPlan; [done|]. intros s p [Hh Hn] Hr. cbn in Hr.
  split; [done|]. cbn. by rewrite (Hr p eq_refl).
Qed.

#[export] Hint Resolve quiet_patchPlanStatus quiet_patchPlan : quiet.

(** Quietness of a whole operation, from its parts in the database. *)
Ltac quiet_tac :=
  intros ? ?; keep_inv;
  lazymatch goal with
  | |- preserves _ _ _ (modifyPlan _) => apply quiet_modifyPlan; intros ?; try reflexivity
  | |- _ => auto with quiet nocore
  end.

(** No call at all. *)
Definition silent : guar call := λ _, False.

Lemma silent_trace (t : ktrace) : issued silent t → t = [].
Proof. intros H. destruct t; [done|]. by inversion H. Qed.

(** The object at [l] replaced. *)
Definition heapSet (s : st) (l : loc) (n : Node) : st :=
  MkSt (st_plan s) (<[l:=n]> (st_heap s)).

Lemma heapSet_lookup s l n m :
  st_heap s !! l = Some m → st_heap (heapSet s l n) !! l = Some n.
Proof. intros Hl. apply list_lookup_insert_eq. by eapply lookup_lt_Some. Qed.

Lemma heapSet_lookup_ne s l l' n : l ≠ l' → st_heap (heapSet s l n) !! l' = st_heap s !! l'.
Proof. intros. by apply list_lookup_insert_ne. Qed.

Lemma heapSet_heapSet s l n m : heapSet (heapSet s l n) l m = heapSet s l m.
Proof. unfold heapSet. cbn. by rewrite list_insert_insert_eq. Qed.

Lemma heapSet_id s l n : st_heap s !! l = Some n → heapSet s l n = s.
Proof. intros Hl. unfold heapSet. rewrite list_insert_id by done. by destruct s. Qed.

(** [patchNode] after the local mutation of the object to [m]. *)
Lemma rgM_storePatch (R : rely resp) (G : guar call) {A} l orig s n m (f : unit → M A) (Q : st → outcome A → Prop) :
  st_heap s !! l = Some n →
  G (CPatchNode orig m) →
  (∀ e, R (CPatchNode orig m) (inl e) → Q (heapSet s l m) (Fail (ErrApi e))) →
  (∀ n', R (CPatchNode orig m) (inr n') → rgM R G (f tt) (heapSet s l n') Q) →
  rgM R G (store l m;; patchNode l orig ≫= f) s Q.
Proof.
  intros Hl HG He Hok. apply rgM_bind, rgM_store, rgM_bind.
  change (MkSt _ _) with (heapSet s l m).
  eapply rgM_patchNode; [by eapply heapSet_lookup|done|done|].
  intros n' Hr. change (MkSt _ _) with (heapSet (heapSet s l m) l n').
  rewrite heapSet_heapSet. by apply Hok.
Qed.

Lemma rgM_bind_ret (R : rely resp) (G : guar call) (m : M unit) s (Q : st → outcome unit → Prop) :
  rgM R G (m ≫= λ _, mret tt) s Q → rgM R G m s Q.
Proof.
  unfold rgM, mbind, M_bind. generalize (m s) as p.
  induction p as [[s' [[]|e|]]|c k IH]; cbn; auto.
  intros [Hc Hk]. split; [done|]. intros r Hr. by apply IH, Hk.
Qed.

(** ** The monad among other programs

    The rules of [tp] for monadic programs: only a call meets the others. *)
Definition tpM {W} (evolves : W → W → Prop) (sane : W → Prop) (serve may : W → event resp → W → Prop)
    {A} (m : M A) (s : st) (σ : W) (Q : st → outcome A → W → Prop) : Prop :=
  tp evolves sane serve may (m s) σ (λ r, Q r.1 r.2).

Section Company.
Context {W : Type} (evolves : W → W → Prop) (sane : W → Prop).
Context (serve may : W → event resp → W → Prop).
Abbreviation tpM := (tpM evolves sane serve may).

Lemma tpM_bind {A B} (m : M A) (f : A → M B) s σ (Q : st → outcome B → W → Prop) :
  tpM m s σ (λ s' o σ', match o with
    | OK a => tpM (f a) s' σ' Q
    | Fail e => Q s' (Fail e) σ'
    | Panic => Q s' Panic σ'
    end) → tpM (m ≫= f) s σ Q.
Proof. intros Hm. apply tp_pbind. eapply tp_mono; [exact Hm|]. by intros [s' [a|e|]]. Qed.

Lemma tpM_wrapErr {A} msg (m : M A) s σ (Q : st → outcome A → W → Prop) :
  tpM m s σ (λ s' o σ', Q s' (match o with Fail e => Fail (ErrWrap msg e) | o => o end) σ') →
  tpM (wrapErr msg m) s σ Q.
Proof. intros Hm. apply tp_pbind. eapply tp_mono; [exact Hm|]. by intros [s' [a|e|]]. Qed.

Lemma tpM_post {A} (m : M A) s σ (Q1 Q2 : st → outcome A → W → Prop) :
  tpM m s σ Q1 → (∀ s' o σ', Q1 s' o σ' → Q2 s' o σ') → tpM m s σ Q2.
Proof. intros Hm HQ. eapply tp_mono; [exact Hm|]. intros [s' o] σ'. apply HQ. Qed.

Lemma tpM_and {A} (m : M A) s σ (Q1 Q2 : st → outcome A → W → Prop) :
  tpM m s σ Q1 → tpM m s σ Q2 → tpM m s σ (λ s' o σ', Q1 s' o σ' ∧ Q2 s' o σ').
Proof. apply tp_and. Qed.

(** A part without calls. *)
Lemma tpM_silent {A} (m : M A) s σ (Q : st → outcome A → W → Prop) :
  rgM anyAnswer silent m s (λ s' o, Q s' o σ) → tpM m s σ Q.
Proof. intros Hm. eapply tp_silent; [exact Hm|]. done. Qed.

Lemma tpM_ret {A} (a : A) s σ (Q : st → outcome A → W → Prop) : Q s (OK a) σ → tpM (mret a) s σ Q.
Proof. done. Qed.

Lemma tpM_getPlan_bind {B} (f : NodeMaintenancePlan → M B) s σ (Q : st → outcome B → W → Prop) :
  tpM (f (st_plan s)) s σ Q → tpM (getPlan ≫= f) s σ Q.
Proof. done. Qed.

Lemma tpM_modifyPlan_bind {B} g (f : unit → M B) s σ (Q : st → outcome B → W → Prop) :
  tpM (f tt) (MkSt (g (st_plan s)) (st_heap s)) σ Q → tpM (modifyPlan g ≫= f) s σ Q.
Proof. done. Qed.

Lemma tpM_load_bind {B} l n (f : Node → M B) s σ (Q : st → outcome B → W → Prop) :
  st_heap s !! l = Some n → tpM (f n) s σ Q → tpM (load l ≫= f) s σ Q.
Proof. intros Hl Hf. apply tpM_bind. unfold load. unfold Kube.tpM, tp. rewrite Hl. exact Hf. Qed.

Lemma tpM_store_bind {B} l n (f : unit → M B) s σ (Q : st → outcome B → W → Prop) :
  tpM (f tt) (heapSet s l n) σ Q → tpM (store l n ≫= f) s σ Q.
Proof. done. Qed.

Lemma tpM_orThrow_bind {A B} (r : ApiError + A) (f : A → M B) s σ (Q : st → outcome B → W → Prop) :
  (∀ e, r = inl e → Q s (Fail (ErrApi e)) σ) → (∀ a, r = inr a → tpM (f a) s σ Q) →
  tpM (orThrow r ≫= f) s σ Q.
Proof. intros He Ha. destruct r as [e|a]; [exact (He e eq_refl)|exact (Ha a eq_refl)]. Qed.
End Company.

(** ** A small concrete environment

    Tables for the reads, every write accepted and echoed, maps ranged over in
    their stored order: the environment of the worked examples. *)
Record tables : Type := MkTables {
  tb_nodes : list Node;
  tb_pods : string → list Pod;
  tb_pdbs : list PodDisruptionBudget;
  tb_plans : list NodeMaintenancePlan;
  tb_evict : Pod → option ApiError;
  tb_now : Time
}.

Definition notFound : ApiError := MkApiError ReasonNotFound "not found".

Definition lookupNamed {A} (name : A → string) (x : string) (xs : list A) : ApiError + A :=
  match findFirst (λ a, bool_decide (name a = x)) xs with
  | Some a => inr a
  | None => inl notFound
  end.

Definition tableEnv (tb : tables) (c : call) (w : unit) : resp c * unit :=
  (match c return resp c with
   | CGetNode name => lookupNamed n_Name name (tb_nodes tb)
   | CListNodes _ _ => inr (tb_nodes tb)
   | CListPods nodeName => inr (tb_pods tb nodeName)
   | CListPDBs _ => inr (tb_pdbs tb)
   | CGetPlan name => lookupNamed p_Name name (tb_plans tb)
   | CListPlans => inr (tb_plans tb)
   | CEvict pod _ => tb_evict tb pod
   | CDeletePod _ => None
   | CPatchNode _ m => inr m
   | CPatchPlan _ m => inr m
   | CPatchPlanStatus _ m => inr m
   | CEvent _ => tt
   | CNow => tb_now tb
   | CMetaNow => tb_now tb
   | CMapOrder _ => 0%nat
   | CRecordPlan _ => tt
   | CDeletePlan _ => tt
   end, w).

Definition emptyTables : tables := MkTables [] (λ _, []) [] [] (λ _, None) 0.

(** The execution of a program in the environment of some tables. *)
Definition execTrace (tb : tables) {A} (m : M A) (s : st) : ktrace := (interp (tableEnv tb) (m s) tt).1.1.
Definition execResult (tb : tables) {A} (m : M A) (s : st) : st * outcome A :=
  (interp (tableEnv tb) (m s) tt).1.2.

Lemma exec_run tb {A} (m : M A) s :
  runM m s (execTrace tb m s) (execResult tb m s).1 (execResult tb m s).2.
Proof.
  unfold execTrace, execResult, runM.
  destruct (interp (tableEnv tb) (m s) tt) as [[t [s' o]] []] eqn:E. by eapply interp_run.
Qed.

Lemma exec_answered (R : rely resp) tb {A} (m : M A) s :
  (∀ c w, R c (tableEnv tb c w).1) → answered R (execTrace tb m s).
Proof. apply interp_answered. Qed.

Lemma exec_echoes tb {A} (m : M A) s : answered echoes (execTrace tb m s).
Proof. apply interp_answered. intros [] []; cbn; try done; congruence. Qed.

Lemma exec_keepsNames tb {A} (m : M A) s : answered keepsNames (execTrace tb m s).
Proof. apply interp_answered. intros [] []; cbn; try done; congruence. Qed.

Definition exampleSpec (names : list string) : NodeMaintenancePlanSpec :=
  MkNodeMaintenancePlanSpec names None "kernel upgrade" (Some (MkCordonSpec true None))
    (Some (MkDrainSpec true None None (Some 60))).

Definition examplePlan (names : list string) : NodeMaintenancePlan :=
  MkNodeMaintenancePlan "plan-a" "" 1 None [] (exampleSpec names) zeroPlanStatus.

Definition exampleNode (name : string) : Node :=
  MkNode name None None None false [MkNodeCondition NodeReady ConditionTrue].
