(* ===== verification/Conditions.v ===== *)
(** * Status conditions (internal/maintenance/conditions.go)

    [apimeta.SetStatusCondition] and [apimeta.FindStatusCondition] belong to
    apimachinery: they are the operations of [ConditionOps], and [ConditionLaws]
    states what their documentation promises (one condition per type, upserted;
    the condition found is the first of its type).  [listConditions] is a
    concrete pair of functions with these laws. *)
From S2P Require Import Prelude GoTime Api.

Class ConditionOps : Type := {
  SetStatusCondition : list Condition → Condition → list Condition;
  FindStatusCondition : list Condition → string → option Condition
}.

Class ConditionLaws `{ConditionOps} : Prop := {
  find_set_same cs c : FindStatusCondition (SetStatusCondition cs c) (cd_Type c) = Some c;
  find_set_other cs c t :
    t ≠ cd_Type c → FindStatusCondition (SetStatusCondition cs c) t = FindStatusCondition cs t;
  find_is_first cs t :
    FindStatusCondition cs t = findFirst (λ c, bool_decide (cd_Type c = t)) cs
}.

Section Conditions.
Context `{CO : ConditionOps}.

Definition setCondition (plan : NodeMaintenancePlan) (condType status reason message : string)
    : NodeMaintenancePlan :=
  updStatus (λ s, set_ps_Conditions
    (SetStatusCondition (ps_Conditions s)
       (MkCondition condType status (p_Generation plan) reason message)) s) plan.

Definition isConditionTrue (plan : NodeMaintenancePlan) (condType : string) : bool :=
  match FindStatusCondition (ps_Conditions (p_Status plan)) condType with
  | Some c => bool_decide (cd_Status c = ConditionTrue)
  | None => false
  end.
End Conditions.

(** A concrete condition store. *)
Definition upsertCondition (cs : list Condition) (c : Condition) : list Condition :=
  match findFirst (λ c', bool_decide (cd_Type c' = cd_Type c)) cs with
  | None => cs ++ [c]
  | Some _ => updateFirst (λ c', bool_decide (cd_Type c' = cd_Type c)) (λ _, c) cs
  end.

Definition findCondition (cs : list Condition) (t : string) : option Condition :=
  findFirst (λ c, bool_decide (cd_Type c = t)) cs.

#[export] Instance listConditions : ConditionOps := {|
  SetStatusCondition := upsertCondition;
  FindStatusCondition := findCondition
|}.

Lemma findCondition_upsert_same cs c : findCondition (upsertCondition cs c) (cd_Type c) = Some c.
Proof.
  unfold findCondition, upsertCondition.
  induction cs as [|c' cs IH]; cbn; [by rewrite bool_decide_eq_true_2|].
  case_bool_decide as Hc; cbn; [by rewrite bool_decide_eq_true_2|].
  destruct (findFirst _ cs); cbn; by rewrite bool_decide_eq_false_2.
Qed.

Lemma findCondition_upsert_other cs c t :
  t ≠ cd_Type c → findCondition (upsertCondition cs c) t = findCondition cs t.
Proof.
  intros Ht. unfold findCondition, upsertCondition.
  induction cs as [|c' cs IH]; cbn; [by rewrite bool_decide_eq_false_2 by congruence|].
  case_bool_decide as Hc; cbn.
  - by rewrite !bool_decide_eq_false_2 by congruence.
  - destruct (findFirst _ cs); cbn; rewrite IH; done.
Qed.

#[export] Instance listConditions_laws : ConditionLaws.
Proof.
  split; [apply findCondition_upsert_same|apply findCondition_upsert_other|done].
Qed.

(** ** Reading back what was set *)
Section ConditionLemmas.
Context `{CL : ConditionLaws}.

Lemma isConditionTrue_set_same plan t status reason msg :
  isConditionTrue (setCondition plan t status reason msg) t = bool_decide (status = ConditionTrue).
Proof.
  unfold isConditionTrue, setCondition. cbn.
  change t with (cd_Type (MkCondition t status (p_Generation plan) reason msg)) at 2.
  by rewrite find_set_same.
Qed.

Lemma isConditionTrue_set_other plan t t' status reason msg :
  t' ≠ t →
  isConditionTrue (setCondition plan t status reason msg) t' = isConditionTrue plan t'.
Proof. intros Ht. unfold isConditionTrue, setCondition. cbn. by rewrite find_set_other. Qed.

Lemma isConditionTrue_ext p q t :
  ps_Conditions (p_Status p) = ps_Conditions (p_Status q) →
  isConditionTrue p t = isConditionTrue q t.
Proof. unfold isConditionTrue. by intros ->. Qed.
End ConditionLemmas.

(** Solves [isConditionTrue] of a plan built by [setCondition]s. *)
Ltac cond_simpl :=
  repeat first
    [ rewrite isConditionTrue_set_same
    | rewrite isConditionTrue_set_other by discriminate ];
  cbn [bool_decide].

(** Solves [t ∉ ts] for condition types. *)
Ltac unlisted :=
  repeat (apply not_elem_of_cons; split; [discriminate|]); apply not_elem_of_nil.
