(* ===== verification/Schedule.v ===== *)
(** * Scheduling (internal/maintenance/schedule.go)

    When each phase of a plan may act, and how long to wait until it may. *)
From S2P Require Import Prelude GoTime Api Prog Kube.

Definition scheduleBuffer : Duration := 100 * Millisecond.

Record ScheduleResult : Type := MkScheduleResult {
  sr_ShouldAct : bool;
  sr_RequeueAfter : Duration
}.

Record PlanSchedule : Type := MkPlanSchedule {
  sch_Cordon : ScheduleResult;
  sch_Drain : ScheduleResult;
  sch_RequeueAfter : Duration
}.

Definition CheckSchedule (startAt : option Time) (alreadyActed : bool) (now : Time)
    : ScheduleResult :=
  if alreadyActed then MkScheduleResult false 0
  else match startAt with
  | None => MkScheduleResult true 0
  | Some start =>
      if negb (Before now start) then MkScheduleResult true 0
      else MkScheduleResult false (int64 (Sub start now + scheduleBuffer))
  end.

Definition cordonSchedule (plan : NodeMaintenancePlan) (now : Time) : ScheduleResult :=
  match s_Cordon (p_Spec plan) with
  | Some c => if c_Enabled c then CheckSchedule (c_StartAt c) false now
              else MkScheduleResult true 0
  | None => MkScheduleResult true 0
  end.

Definition drainSchedule (plan : NodeMaintenancePlan) (now : Time) : ScheduleResult :=
  match s_Drain (p_Spec plan) with
  | Some d => if d_Enabled d then CheckSchedule (d_StartAt d) false now
              else MkScheduleResult false 0
  | None => MkScheduleResult false 0
  end.

(** [ComputeSchedule] once the clock has been read. *)
Definition scheduleAt (plan : NodeMaintenancePlan) (now : Time) : PlanSchedule :=
  let cordon := cordonSchedule plan now in
  let drain := drainSchedule plan now in
  let requeue :=
    if (0 <? sr_RequeueAfter cordon) && (0 <? sr_RequeueAfter drain)
    then Z.min (sr_RequeueAfter cordon) (sr_RequeueAfter drain)
    else Z.max (sr_RequeueAfter cordon) (sr_RequeueAfter drain) in
  MkPlanSchedule cordon drain requeue.

Definition ComputeSchedule : M PlanSchedule :=
  now ← perform CNow;
  plan ← getPlan;
  mret (scheduleAt plan now).

(** ** Theorems *)

#[local] Arguments CheckSchedule : simpl never.

(** The start times whose wait, buffer included, fits a [time.Duration]. *)
Definition waitFits (startAt : option Time) (now : Time) : Prop :=
  match startAt with
  | None => True
  | Some start => start - now ≤ maxDuration - scheduleBuffer
  end.

Lemma CheckSchedule_pending start now :
  now < start → start - now ≤ maxDuration - scheduleBuffer →
  CheckSchedule (Some start) false now = MkScheduleResult false (start - now + scheduleBuffer).
Proof.
  intros Hlt Hfit. unfold CheckSchedule. time_cases; [|lia]. cbn.
  unfold scheduleBuffer, Millisecond, maxDuration in *.
  rewrite Sub_exact by (unfold minDuration, maxDuration; lia).
  rewrite int64_id by (unfold isInt64; lia). done.
Qed.

Lemma CheckSchedule_due startAt now :
  (∀ start, startAt = Some start → start ≤ now) →
  CheckSchedule startAt false now = MkScheduleResult true 0.
Proof.
  intros H. unfold CheckSchedule. destruct startAt as [start|]; [|done].
  specialize (H start eq_refl). time_cases; [lia|done].
Qed.

Lemma CheckSchedule_cases startAt now :
  waitFits startAt now →
  (CheckSchedule startAt false now = MkScheduleResult true 0 ∧
     ∀ start, startAt = Some start → start ≤ now) ∨
  (∃ start, startAt = Some start ∧ now < start ∧
     CheckSchedule startAt false now = MkScheduleResult false (start - now + scheduleBuffer)).
Proof.
  intros Hfit. destruct startAt as [start|].
  - destruct (decide (now < start)) as [Hlt|Hge].
    + right. exists start. split_and!; [done..|]. by apply CheckSchedule_pending.
    + left. split; [apply CheckSchedule_due|]; intros ? [= <-]; lia.
  - left. split; [by apply CheckSchedule_due|done].
Qed.

Lemma CheckSchedule_overflow start now :
  maxDuration - scheduleBuffer < start - now →
  ∃ d, d < 0 ∧ CheckSchedule (Some start) false now = MkScheduleResult false d.
Proof.
  intros Hover. unfold CheckSchedule.
  assert (now < start) by (unfold maxDuration, scheduleBuffer, Millisecond in *; lia).
  time_cases; [cbn|lia]. eexists; split; [|done].
  assert (2 ^ 63 ≤ Sub start now + scheduleBuffer < 2 ^ 64) as Hr; [|rewrite int64_over; lia].
  unfold Sub, scheduleBuffer, Millisecond, maxDuration, minDuration in *. lia.
Qed.

(** C38: a phase acts exactly when it has not acted yet and its start time, if
    any, has come; when it does not act the requeue interval it asks for is
    positive exactly when the wait fits a [time.Duration] (a start more than 292
    years away wraps to a negative interval), and then waiting that long is
    enough: at any later instant the phase acts. *)
Theorem CheckSchedule_spec startAt acted now :
  let r := CheckSchedule startAt acted now in
  (sr_ShouldAct r = true ↔ acted = false ∧ ∀ start, startAt = Some start → start ≤ now) ∧
  (sr_ShouldAct r = true → sr_RequeueAfter r = 0) ∧
  (acted = false → sr_ShouldAct r = false →
     (0 < sr_RequeueAfter r ↔ waitFits startAt now) ∧
     (0 < sr_RequeueAfter r → ∀ later, now + sr_RequeueAfter r ≤ later →
        sr_ShouldAct (CheckSchedule startAt false later) = true)).
Proof.
  cbn zeta. destruct acted; [cbn; split_and!; [split; [done|by intros []]|done..]|].
  destruct startAt as [start|]; [|cbn; split_and!; [done|done|done]].
  destruct (decide (now < start)) as [Hlt|Hge].
  2: { rewrite CheckSchedule_due by (intros ? [= <-]; lia). cbn.
       split_and!; [|done|done]. split; [|done]. intros _. split; [done|intros ? [= <-]; lia]. }
  assert (¬ ∀ st, Some start = Some st → st ≤ now) as Hnot.
  { intros H. specialize (H start eq_refl). lia. }
  destruct (decide (start - now ≤ maxDuration - scheduleBuffer)) as [Hfit|Hover].
  - rewrite CheckSchedule_pending by done. cbn.
    split_and!; [split; [done|tauto]|done|]. intros _ _.
    unfold scheduleBuffer, Millisecond in *. split; [split; [done|lia]|].
    intros _ later Hl. rewrite CheckSchedule_due; [done|]. intros ? [= <-]. lia.
  - destruct (CheckSchedule_overflow start now) as (d & Hd & ->); [lia|]. cbn.
    split_and!; [split; [done|tauto]|done|]. intros _ _. split; [split; [lia|done]|lia].
Qed.

(** The start time a phase waits for: that of an enabled phase. *)
Definition cordonStart (plan : NodeMaintenancePlan) : option Time :=
  if cordonEnabled plan then s_Cordon (p_Spec plan) ≫= c_StartAt else None.

Definition drainStart (plan : NodeMaintenancePlan) : option Time :=
  if drainEnabled plan then s_Drain (p_Spec plan) ≫= d_StartAt else None.

(** What a phase contributes to the requeue interval. *)
Definition phaseWait (start : option Time) (now : Time) (r : ScheduleResult) : Prop :=
  (sr_RequeueAfter r = 0 ∧ ∀ st, start = Some st → st ≤ now) ∨
  (∃ st, start = Some st ∧ now < st ∧ sr_RequeueAfter r = st - now + scheduleBuffer).

Lemma CheckSchedule_wait start now :
  waitFits start now → phaseWait start now (CheckSchedule start false now).
Proof.
  intros Hfit. destruct (CheckSchedule_cases start now Hfit) as [[-> ?]|(? & ? & ? & ->)].
  - by left.
  - right; eauto.
Qed.

Lemma cordonSchedule_wait plan now :
  waitFits (cordonStart plan) now → phaseWait (cordonStart plan) now (cordonSchedule plan now).
Proof.
  unfold cordonStart, cordonEnabled, cordonSchedule.
  destruct (s_Cordon (p_Spec plan)) as [[[] start]|]; [apply CheckSchedule_wait|by left..].
Qed.

Lemma drainSchedule_wait plan now :
  waitFits (drainStart plan) now → phaseWait (drainStart plan) now (drainSchedule plan now).
Proof.
  unfold drainStart, drainEnabled, drainSchedule.
  destruct (s_Drain (p_Spec plan)) as [[[] start opts tm]|]; [apply CheckSchedule_wait|by left..].
Qed.

(** The first of the waiting phases. *)
Ltac solve_first :=
  intros st' [E|E] ?;
  repeat match goal with
  | H : ∀ st, ?s = Some st → st ≤ _, E : ?s = Some _ |- _ => specialize (H _ E)
  | H : ?s = Some ?a, E : ?s = Some ?b |- _ =>
      assert (a = b) by congruence; clear E; subst
  end; lia.

(** With start times whose waits fit a [time.Duration], the interval a plan
    asks for is zero exactly when no enabled phase is waiting, and otherwise is
    the wait of the phase that starts first. *)
Theorem scheduleAt_requeue plan now :
  waitFits (cordonStart plan) now → waitFits (drainStart plan) now →
  let requeue := sch_RequeueAfter (scheduleAt plan now) in
  let waiting start := cordonStart plan = Some start ∨ drainStart plan = Some start in
  (requeue = 0 ↔ ∀ start, waiting start → start ≤ now) ∧
  (requeue ≠ 0 → ∃ start, waiting start ∧ now < start ∧
     requeue = start - now + scheduleBuffer ∧
     ∀ start', waiting start' → now < start' → start ≤ start').
Proof.
  intros Hc%cordonSchedule_wait Hd%drainSchedule_wait. unfold scheduleAt. cbn zeta.
  cbn [sch_RequeueAfter]. unfold phaseWait, scheduleBuffer, Millisecond in *.
  generalize dependent (cordonSchedule plan now). generalize dependent (drainSchedule plan now).
  intros d Hd c Hc.
  destruct Hc as [[-> Hc]|(st1 & Ec1 & Hlt1 & Ec)], Hd as [[-> Hd]|(st2 & Ed1 & Hlt2 & Ed)].
  - cbn. split; [|done]. split; [|done]. intros _ st [E|E]; eauto.
  - rewrite Ed. cbn. split; [split; [lia|]|].
    + intros Hw. specialize (Hw st2 (or_intror Ed1)). lia.
    + intros _. exists st2. split_and!; [by right|done|lia|solve_first].
  - rewrite Ec, andb_false_r. split; [split; [lia|]|].
    + intros Hw. specialize (Hw st1 (or_introl Ec1)). lia.
    + intros _. exists st1. split_and!; [by left|done|lia|solve_first].
  - rewrite Ec, Ed.
    rewrite (proj2 (Z.ltb_lt 0 (st1 - now + 100 * 1000000))) by lia.
    rewrite (proj2 (Z.ltb_lt 0 (st2 - now + 100 * 1000000))) by lia. cbn [andb].
    split; [split; [lia|intros Hw; specialize (Hw st1 (or_introl Ec1)); lia]|].
    intros _. destruct (decide (st1 ≤ st2)).
    + exists st1. split_and!; [by left|done|lia|solve_first].
    + exists st2. split_and!; [by right|done|lia|solve_first].
Qed.

Definition exampleCordonPlan (start : option Time) : NodeMaintenancePlan :=
  MkNodeMaintenancePlan "plan-a" "" 1 None []
    (MkNodeMaintenancePlanSpec ["n1"] None "" (Some (MkCordonSpec true start))
       (Some (MkDrainSpec true (option_map (Z.add 900) start) None None))) zeroPlanStatus.

Lemma scheduleAt_requeue_witness :
  waitFits (cordonStart (exampleCordonPlan (Some 1000))) 100 ∧
  sch_RequeueAfter (scheduleAt (exampleCordonPlan (Some 1000)) 100) = 900 + scheduleBuffer ∧
  ∃ start, (cordonStart (exampleCordonPlan (Some 1000)) = Some start ∨
            drainStart (exampleCordonPlan (Some 1000)) = Some start) ∧ 100 < start.
Proof.
  split; [vm_compute; discriminate|]. split; [reflexivity|].
  destruct (scheduleAt_requeue (exampleCordonPlan (Some 1000)) 100) as [_ H];
    [vm_compute; discriminate|vm_compute; discriminate|].
  destruct H as (start & Hw & Hlt & _); [vm_compute; discriminate|]. exists start. by split.
Defined.
