(* ===== verification/Drift.v ===== *)
(** * Node health and drift detection (node_health.go, drift.go)

    Pure predicates over a node and the plan: is the node Ready, has its cordon
    state drifted from what the plan expects, and what the plan's status recorded
    about it in an earlier pass. *)
From S2P Require Import Prelude GoTime Api Prog Kube.

(** ** node_health.go *)

Definition nodeNotReadyThreshold : Duration := 300 * Second.

Definition isNodeReady (node : Node) : bool :=
  match findFirst (λ c, bool_decide (nc_Type c = NodeReady)) (n_Conditions node) with
  | Some c => bool_decide (nc_Status c = ConditionTrue)
  | None => false
  end.

Definition nodeNotReadyIssue (yielded : bool) : NodeIssue :=
  MkNodeIssue "NodeNotReady"
    (if yielded
     then "node has been NotReady for >300s; yielding drain to Kubernetes node lifecycle controller — manual verification may be required before marking maintenance complete"
     else "node is NotReady; drain will resume when the node recovers")
    None.

(** [notReadySince != nil && now.Sub(notReadySince) >= nodeNotReadyThreshold]. *)
Definition notReadyBeyondThreshold (since : option Time) (now : Time) : bool :=
  match since with
  | Some t => nodeNotReadyThreshold <=? Sub now t
  | None => false
  end.

(** ** drift.go *)

Definition DriftReasonManualUncordon : string := "ManualUncordon".
Definition DriftReasonExternalCordon : string := "ExternalCordon".
Definition DriftReasonMaintenanceComplete : string := "MaintenanceComplete".

Definition DetectNodeDrift (node : option Node) (plan : NodeMaintenancePlan) : bool * string :=
  match node with
  | None => (false, "")
  | Some node =>
      match n_Annotations node with
      | None => (false, "")
      | Some _ =>
          if decide (owner node ≠ p_Name plan) then (false, "")
          else if cordonEnabled plan && operatorCordoned node && negb (n_Unschedulable node) then
            if existsb (λ ns, bool_decide (ns_Name ns = n_Name node) && ns_ReadyForMaintenance ns)
                 (ps_Nodes (p_Status plan))
            then (true, DriftReasonMaintenanceComplete)
            else (true, DriftReasonManualUncordon)
          else if negb (cordonEnabled plan) && negb (operatorCordoned node) && n_Unschedulable node
          then (true, DriftReasonExternalCordon)
          else (false, "")
      end
  end.

(** The first status entry of a node. *)
Definition findNodeStatus (plan : NodeMaintenancePlan) (nodeName : string) : option NodeStatus :=
  findFirst (λ ns, bool_decide (ns_Name ns = nodeName)) (ps_Nodes (p_Status plan)).

Definition GetNodeDriftState (plan : NodeMaintenancePlan) (nodeName : string) : bool * string :=
  match findNodeStatus plan nodeName with
  | Some ns => (ns_Drifted ns, ns_DriftReason ns)
  | None => (false, "")
  end.

Definition nodeCompletedMaintenance (plan : NodeMaintenancePlan) (nodeName : string) : bool :=
  match findNodeStatus plan nodeName with
  | Some ns => ns_ReadyForMaintenance ns
  | None => false
  end.
