(* ===== verification/Filters.v ===== *)
(** * Pod classification for drain (drain_filters.go, getDrainConfig)

    Which of a node's pods a drain evicts, which block it, which are already
    going away, and which it leaves alone. *)
From S2P Require Import Prelude GoTime Api Prog Kube.

(** drain_node.go: drain options with defaults applied. *)
Record drainConfig : Type := MkDrainConfig {
  dc_IgnoreDaemonSets : bool;
  dc_DeleteEmptyDirData : bool;
  dc_Force : bool;
  dc_PodTerminationGracePeriodSeconds : option Z;
  dc_RespectPodDisruptionBudgets : bool
}.

Definition getDrainConfig (plan : NodeMaintenancePlan) : option drainConfig :=
  match s_Drain (p_Spec plan) with
  | None => None
  | Some d =>
      if d_Enabled d then
        match d_Options d with
        | None => Some (MkDrainConfig true false false None true)
        | Some opts =>
            Some (MkDrainConfig (o_IgnoreDaemonSets opts) (o_DeleteEmptyDirData opts)
                    (o_Force opts) (o_PodTerminationGracePeriodSeconds opts)
                    (o_RespectPodDisruptionBudgets opts))
        end
      else None
  end.

Record drainFilterResult : Type := MkDrainFilterResult {
  fr_Evictable : list Pod;
  fr_Blocked : list Pod;
  fr_Terminating : list Pod;
  fr_StuckTerminating : list Pod;
  fr_Skipped : list Pod
}.

Definition stuckTerminatingBuffer : Duration := 60 * Second.

Definition isDaemonSetPod (pod : Pod) : bool :=
  existsb (λ o, bool_decide (or_Kind o = "DaemonSet")) (pod_OwnerReferences pod).

Definition hasController (pod : Pod) : bool :=
  existsb (λ o, match or_Controller o with Some b => b | None => false end)
    (pod_OwnerReferences pod).

Definition hasEmptyDir (pod : Pod) : bool := existsb v_EmptyDir (pod_Volumes pod).

(** The instant after which a terminating pod counts as stuck. *)
Definition stuckDeadline (pod : Pod) (deletion : Time) : Time :=
  let gracePeriod := default 30 (pod_TerminationGracePeriodSeconds pod) in
  Add deletion (int64 (scaleDuration gracePeriod Second + stuckTerminatingBuffer)).

(** One iteration of the loop of [classifyPods]: [append] the pod to one bucket. *)
Definition classifyPod (cfg : drainConfig) (now : Time) (r : drainFilterResult) (pod : Pod)
    : drainFilterResult :=
  let 'MkDrainFilterResult ev bl te stk sk := r in
  if mapHas (pod_Annotations pod) MirrorPodAnnotationKey then
    MkDrainFilterResult ev bl te stk (sk ++ [pod])
  else match pod_DeletionTimestamp pod with
  | Some deletion =>
      if After now (stuckDeadline pod deletion)
      then MkDrainFilterResult ev bl te (stk ++ [pod]) sk
      else MkDrainFilterResult ev bl (te ++ [pod]) stk sk
  | None =>
      if bool_decide (pod_Phase pod = PodSucceeded) || bool_decide (pod_Phase pod = PodFailed)
      then MkDrainFilterResult ev bl te stk (sk ++ [pod])
      else if isDaemonSetPod pod then
        if dc_IgnoreDaemonSets cfg
        then MkDrainFilterResult ev bl te stk (sk ++ [pod])
        else MkDrainFilterResult ev (bl ++ [pod]) te stk sk
      else if negb (hasController pod) && negb (dc_Force cfg) then
        MkDrainFilterResult ev (bl ++ [pod]) te stk sk
      else if hasEmptyDir pod && negb (dc_DeleteEmptyDirData cfg) then
        MkDrainFilterResult ev (bl ++ [pod]) te stk sk
      else MkDrainFilterResult (ev ++ [pod]) bl te stk sk
  end.

Definition classifyPods (pods : list Pod) (cfg : drainConfig) (now : Time) : drainFilterResult :=
  foldl (classifyPod cfg now) (MkDrainFilterResult [] [] [] [] []) pods.

(** A [kprog] returning a Go [(value, error)] pair: the caller decides. *)
Definition filterPodsForDrain (node : Node) (cfg : drainConfig)
    : kprog (error + drainFilterResult) :=
  pbind (trigger (CListPods (n_Name node))) (λ r : resp (CListPods (n_Name node)),
  match r with
  | inl e => Ret (inl (ErrWrap ("listing pods on node " +:+ n_Name node) (ErrApi e)))
  | inr pods => pbind (trigger CNow) (λ now : Time, Ret (inr (classifyPods pods cfg now)))
  end).

(** ** What each bucket holds

    The five predicates, each stated on its own from the rules the comments of
    drain_filters.go give. *)

Definition isMirror (pod : Pod) : bool := mapHas (pod_Annotations pod) MirrorPodAnnotationKey.

Definition isTerminating (pod : Pod) : bool := bool_decide (is_Some (pod_DeletionTimestamp pod)).

Definition isCompleted (pod : Pod) : bool :=
  bool_decide (pod_Phase pod = PodSucceeded) || bool_decide (pod_Phase pod = PodFailed).

(** A live pod: drain has to decide about it. *)
Definition isLive (pod : Pod) : bool :=
  negb (isMirror pod) && negb (isTerminating pod) && negb (isCompleted pod).

(** Past its grace period and the buffer. *)
Definition isStuck (now : Time) (pod : Pod) : bool :=
  match pod_DeletionTimestamp pod with
  | Some t => After now (stuckDeadline pod t)
  | None => false
  end.

Definition evictable (cfg : drainConfig) (pod : Pod) : bool :=
  isLive pod && negb (isDaemonSetPod pod)
  && (hasController pod || dc_Force cfg) && (negb (hasEmptyDir pod) || dc_DeleteEmptyDirData cfg).

Definition blocked (cfg : drainConfig) (pod : Pod) : bool :=
  isLive pod &&
  (if isDaemonSetPod pod then negb (dc_IgnoreDaemonSets cfg)
   else (negb (hasController pod) && negb (dc_Force cfg))
        || (hasEmptyDir pod && negb (dc_DeleteEmptyDirData cfg))).

Definition terminating (now : Time) (pod : Pod) : bool :=
  negb (isMirror pod) && isTerminating pod && negb (isStuck now pod).

Definition stuckTerminating (now : Time) (pod : Pod) : bool :=
  negb (isMirror pod) && isTerminating pod && isStuck now pod.

Definition skipped (cfg : drainConfig) (pod : Pod) : bool :=
  isMirror pod
  || (negb (isTerminating pod)
      && (isCompleted pod || (isDaemonSetPod pod && dc_IgnoreDaemonSets cfg))).

Definition keep (f : Pod → bool) (pods : list Pod) : list Pod := filter (λ p, f p = true) pods.

Lemma keep_cons f pod pods :
  keep f (pod :: pods) = (if f pod then [pod] else []) ++ keep f pods.
Proof. unfold keep. rewrite filter_cons. by destruct (f pod). Qed.

(** The bucket a pod goes to is the one whose predicate it satisfies. *)
Lemma classifyPod_spec cfg now ev bl te stk sk pod :
  classifyPod cfg now (MkDrainFilterResult ev bl te stk sk) pod =
  MkDrainFilterResult
    (ev ++ keep (evictable cfg) [pod]) (bl ++ keep (blocked cfg) [pod])
    (te ++ keep (terminating now) [pod]) (stk ++ keep (stuckTerminating now) [pod])
    (sk ++ keep (skipped cfg) [pod]).
Proof.
  rewrite !keep_cons. change (keep ?f []) with (@nil Pod). rewrite !app_nil_r.
  unfold classifyPod, evictable, blocked, terminating, stuckTerminating, skipped, isLive, isStuck.
  fold (isMirror pod). fold (isCompleted pod).
  destruct (isMirror pod); cbn [negb andb orb]; [by rewrite !app_nil_r|].
  unfold isTerminating. destruct (pod_DeletionTimestamp pod) as [t|]; cbn [negb andb orb].
  - rewrite bool_decide_eq_true_2 by eauto. cbn [negb andb orb].
    destruct (After now (stuckDeadline pod t)); cbn; by rewrite !app_nil_r.
  - rewrite bool_decide_eq_false_2 by (intros [? ?]; done). cbn [negb andb orb].
    destruct (isCompleted pod); cbn [negb andb orb]; [by rewrite !app_nil_r|].
    destruct (isDaemonSetPod pod), (dc_IgnoreDaemonSets cfg), (hasController pod), (dc_Force cfg),
      (hasEmptyDir pod), (dc_DeleteEmptyDirData cfg); cbn; by rewrite !app_nil_r.
Qed.

Lemma keep_app f xs ys : keep f (xs ++ ys) = keep f xs ++ keep f ys.
Proof. apply list.filter_app. Qed.

Lemma classifyPods_acc cfg now pods ev bl te stk sk :
  foldl (classifyPod cfg now) (MkDrainFilterResult ev bl te stk sk) pods =
  MkDrainFilterResult
    (ev ++ keep (evictable cfg) pods) (bl ++ keep (blocked cfg) pods)
    (te ++ keep (terminating now) pods) (stk ++ keep (stuckTerminating now) pods)
    (sk ++ keep (skipped cfg) pods).
Proof.
  revert ev bl te stk sk. induction pods as [|pod pods IH]; intros; cbn [foldl].
  - change (keep ?f []) with (@nil Pod). by rewrite !app_nil_r.
  - rewrite classifyPod_spec, IH, <-!app_assoc, <-!keep_app. done.
Qed.

Lemma elem_of_keep f pod pods : pod ∈ keep f pods ↔ f pod = true ∧ pod ∈ pods.
Proof. unfold keep. by rewrite list_elem_of_filter. Qed.

(** Exactly one of the five predicates holds of a pod. *)
Lemma bucket_unique cfg now pod :
  let b := (evictable cfg pod, blocked cfg pod, terminating now pod, stuckTerminating now pod,
            skipped cfg pod) in
  b = (true, false, false, false, false) ∨ b = (false, true, false, false, false) ∨
  b = (false, false, true, false, false) ∨ b = (false, false, false, true, false) ∨
  b = (false, false, false, false, true).
Proof.
  cbn zeta. unfold evictable, blocked, terminating, stuckTerminating, skipped, isLive.
  destruct (isMirror pod); cbn [negb andb orb]; [tauto|].
  destruct (isTerminating pod); cbn [negb andb orb]; [destruct (isStuck now pod); tauto|].
  destruct (isCompleted pod); cbn [negb andb orb]; [tauto|].
  destruct (isDaemonSetPod pod); cbn [negb andb orb]; [destruct (dc_IgnoreDaemonSets cfg); tauto|].
  destruct (hasController pod), (dc_Force cfg), (hasEmptyDir pod), (dc_DeleteEmptyDirData cfg);
    cbn; tauto.
Qed.

Lemma buckets_perm cfg now pods :
  keep (evictable cfg) pods ++ keep (blocked cfg) pods ++ keep (terminating now) pods
    ++ keep (stuckTerminating now) pods ++ keep (skipped cfg) pods ≡ₚ pods.
Proof.
  induction pods as [|pod pods IH]; [done|]. rewrite !keep_cons. rewrite <-IH at 6.
  destruct (bucket_unique cfg now pod) as [E|[E|[E|[E|E]]]]; simplify_eq;
    repeat match goal with E : _ = _ :> bool |- _ => rewrite E; clear E end; cbn [app];
    by rewrite <-?Permutation_middle.
Qed.

(** C35: the five buckets are the pods of the list that satisfy the five
    predicates, in the order of the list, and every pod is in exactly one of
    them: together they are a permutation of the input. *)
Theorem classifyPods_spec pods cfg now :
  let r := classifyPods pods cfg now in
  r = MkDrainFilterResult (keep (evictable cfg) pods) (keep (blocked cfg) pods)
        (keep (terminating now) pods) (keep (stuckTerminating now) pods)
        (keep (skipped cfg) pods) ∧
  fr_Evictable r ++ fr_Blocked r ++ fr_Terminating r ++ fr_StuckTerminating r ++ fr_Skipped r
    ≡ₚ pods.
Proof.
  cbn zeta. unfold classifyPods. rewrite classifyPods_acc. split; [done|].
  apply buckets_perm.
Qed.

(** ** Evictable pods *)

Lemma isDaemonSetPod_iff pod :
  isDaemonSetPod pod = true ↔ ∃ o, o ∈ pod_OwnerReferences pod ∧ or_Kind o = "DaemonSet".
Proof.
  unfold isDaemonSetPod. rewrite existsb_exists. setoid_rewrite bool_decide_eq_true.
  by setoid_rewrite list_elem_of_In.
Qed.

Lemma hasController_iff pod :
  hasController pod = true ↔
  ∃ o, o ∈ pod_OwnerReferences pod ∧ or_Controller o = Some true.
Proof.
  unfold hasController. rewrite existsb_exists. setoid_rewrite list_elem_of_In.
  split; intros (o & Ho & H); exists o; (split; [done|]).
  - destruct (or_Controller o) as [[]|]; congruence.
  - by rewrite H.
Qed.

Lemma hasEmptyDir_iff pod :
  hasEmptyDir pod = true ↔ ∃ v, v ∈ pod_Volumes pod ∧ v_EmptyDir v = true.
Proof. unfold hasEmptyDir. rewrite existsb_exists. by setoid_rewrite list_elem_of_In. Qed.

Lemma isLive_iff pod :
  isLive pod = true ↔
  mapHas (pod_Annotations pod) MirrorPodAnnotationKey = false ∧
  pod_DeletionTimestamp pod = None ∧ pod_Phase pod ≠ PodSucceeded ∧ pod_Phase pod ≠ PodFailed.
Proof.
  unfold isLive, isMirror, isTerminating, isCompleted.
  rewrite !andb_true_iff, !negb_true_iff, orb_false_iff, !bool_decide_eq_false.
  rewrite <-eq_None_not_Some. tauto.
Qed.

(** C19: drain evicts a pod of the node exactly when it is not a mirror pod, is
    not being deleted, has not completed, is not owned by a DaemonSet, has a
    controlling owner unless [force] is set, and has no emptyDir volume unless
    [deleteEmptyDirData] is set. *)
Theorem classifyPods_evictable_iff pods cfg now pod :
  pod ∈ fr_Evictable (classifyPods pods cfg now) ↔
  pod ∈ pods ∧
  mapHas (pod_Annotations pod) MirrorPodAnnotationKey = false ∧
  pod_DeletionTimestamp pod = None ∧
  pod_Phase pod ≠ PodSucceeded ∧ pod_Phase pod ≠ PodFailed ∧
  (∀ o, o ∈ pod_OwnerReferences pod → or_Kind o ≠ "DaemonSet") ∧
  (dc_Force cfg = true ∨ ∃ o, o ∈ pod_OwnerReferences pod ∧ or_Controller o = Some true) ∧
  (dc_DeleteEmptyDirData cfg = true ∨ ∀ v, v ∈ pod_Volumes pod → v_EmptyDir v = false).
Proof.
  unfold classifyPods. rewrite classifyPods_acc. cbn [fr_Evictable app].
  rewrite elem_of_keep. unfold evictable.
  rewrite !andb_true_iff, !orb_true_iff, !negb_true_not.
  rewrite isDaemonSetPod_iff, hasController_iff, hasEmptyDir_iff, isLive_iff.
  rewrite !not_ex_and. setoid_rewrite not_true_iff_false. tauto.
Qed.

(** The options of [cfg'] allow at least what those of [cfg] allow. *)
Definition laxer (cfg cfg' : drainConfig) : Prop :=
  (dc_IgnoreDaemonSets cfg = true → dc_IgnoreDaemonSets cfg' = true) ∧
  (dc_DeleteEmptyDirData cfg = true → dc_DeleteEmptyDirData cfg' = true) ∧
  (dc_Force cfg = true → dc_Force cfg' = true).

(** Relaxing the options never blocks a pod that was not blocked and never
    stops evicting one that was evicted; the buckets of the pods already going
    away do not depend on the options. *)
Theorem classifyPods_laxer pods cfg cfg' now :
  laxer cfg cfg' →
  fr_Evictable (classifyPods pods cfg now) ⊆ fr_Evictable (classifyPods pods cfg' now) ∧
  fr_Blocked (classifyPods pods cfg' now) ⊆ fr_Blocked (classifyPods pods cfg now) ∧
  fr_Terminating (classifyPods pods cfg now) = fr_Terminating (classifyPods pods cfg' now) ∧
  fr_StuckTerminating (classifyPods pods cfg now) =
    fr_StuckTerminating (classifyPods pods cfg' now).
Proof.
  intros (Hds & Hed & Hf). unfold classifyPods. rewrite !classifyPods_acc.
  cbn [fr_Evictable fr_Blocked fr_Terminating fr_StuckTerminating app].
  split_and!; [| |done|done]; intros pod; rewrite !elem_of_keep; intros [H Hin];
    (split; [|done]); revert H; unfold evictable, blocked;
    destruct cfg as [[] [] [] ? ?], cfg' as [[] [] [] ? ?]; cbn in *;
    try (by specialize (Hds eq_refl)); try (by specialize (Hed eq_refl));
    try (by specialize (Hf eq_refl));
    destruct (isLive pod), (isDaemonSetPod pod), (hasController pod), (hasEmptyDir pod); done.
Qed.

Definition examplePod (name : string) (owners : list OwnerReference) : Pod :=
  MkPod "default" name None None None owners None [] "Running".

Definition strictConfig : drainConfig := MkDrainConfig true false false None true.
Definition forceConfig : drainConfig := MkDrainConfig true true true None true.

Lemma classifyPods_laxer_witness :
  laxer strictConfig forceConfig ∧
  fr_Evictable (classifyPods [examplePod "a" []] strictConfig 0)
    ⊆ fr_Evictable (classifyPods [examplePod "a" []] forceConfig 0) ∧
  fr_Blocked (classifyPods [examplePod "a" []] strictConfig 0) = [examplePod "a" []].
Proof.
  assert (laxer strictConfig forceConfig) as H by (repeat split; reflexivity).
  split; [exact H|]. split; [|reflexivity].
  exact (proj1 (classifyPods_laxer [examplePod "a" []] strictConfig forceConfig 0 H)).
Defined.
