(* ===== verification/Cordon.v ===== *)
(** * Node mutations (cordon.go, cleanup.go, AdoptNode of ownership.go)

    The four operations that write a node: adopt, cordon, uncordon, release.
    Each is the local mutation of the node object followed by the merge patch
    against the copy taken before it.  [CleanUp], the finalizer's work, is in
    Ownership.v, after the listing of the owned nodes it starts from. *)
From S2P Require Import Prelude GoTime Api Prog Kube Drift.

(** ** The mutations, on the object *)

(** [node.Annotations == nil] becomes an empty map; then the annotations and the
    label of an adopted node.  [None] is a write to a nil map. *)
Definition adoptMutation (plan : NodeMaintenancePlan) (cordon : bool) (node : Node) : option Node :=
  let anns := mapInit (n_Annotations node) in
  let labels := mapInit (n_Labels node) in
  anns ← mapSet anns ManagedByAnnotation (p_Name plan);
  anns ← mapSet anns ReasonAnnotation (s_Reason (p_Spec plan));
  labels ← mapSet labels InMaintenanceLabel "true";
  if cordon then
    anns ← mapSet anns CordonedAnnotation "true";
    Some (set_n_Labels labels (set_n_Annotations anns
            (if negb (n_Unschedulable node) then set_n_Unschedulable true node else node)))
  else Some (set_n_Labels labels (set_n_Annotations anns node)).

Definition cordonMutation (node : Node) : option Node :=
  anns ← mapSet (mapInit (n_Annotations node)) CordonedAnnotation "true";
  Some (set_n_Annotations anns (set_n_Unschedulable true node)).

Definition uncordonMutation (node : Node) : Node :=
  set_n_Annotations (mapDelete (n_Annotations node) CordonedAnnotation)
    (set_n_Unschedulable false node).

Definition releaseMutation (node : Node) : Node :=
  set_n_Labels (mapDelete (n_Labels node) InMaintenanceLabel)
    (set_n_Annotations
       (mapDelete (mapDelete (mapDelete (n_Annotations node)
          ManagedByAnnotation) ReasonAnnotation) CordonedAnnotation) node).

(** ** The operations *)

Definition AdoptNode (l : loc) (cordon : bool) : M unit :=
  plan ← getPlan;
  node ← load l;
  let original := node in
  node' ← storeOr (adoptMutation plan cordon node);
  store l node';;
  patchNode l original;;
  node'' ← load l;
  if cordon
  then Eventf (Some (n_Name node'')) EventTypeNormal "NodeCordoned" "AdoptNode"
         ("node " +:+ quote (n_Name node'') +:+ " adopted and cordoned")
  else Eventf (Some (n_Name node'')) EventTypeNormal "NodeAdopted" "AdoptNode"
         ("node " +:+ quote (n_Name node'') +:+ " adopted").

Definition alreadyCordoned (node : Node) : bool := n_Unschedulable node && operatorCordoned node.

Definition CordonNode (l : loc) : M bool :=
  node ← load l;
  if alreadyCordoned node then mret false
  else
    let original := node in
    node' ← storeOr (cordonMutation node);
    store l node';;
    patchNode l original;;
    mret true.

Definition annotationPresent (node : Node) : bool :=
  bool_decide (mapGet (n_Annotations node) CordonedAnnotation ≠ "").

Definition UncordonNode (l : loc) : M bool :=
  node ← load l;
  if negb (n_Unschedulable node) && negb (annotationPresent node) then mret false
  else
    let original := node in
    store l (uncordonMutation node);;
    patchNode l original;;
    mret true.

Definition ReleaseNode (l : loc) : M unit :=
  plan ← getPlan;
  node ← load l;
  match n_Annotations node with
  | None => mret tt
  | Some _ =>
      if decide (owner node ≠ p_Name plan) then mret tt
      else
        let original := node in
        store l (releaseMutation node);;
        patchNode l original
  end.

(** ** What the mutations do *)

(** The annotation keys the operator owns. *)
Definition operatorKeys : list string := [ManagedByAnnotation; ReasonAnnotation; CordonedAnnotation].

Lemma mapGet_Some m k : mapGet (Some m) k = default "" (m !! k).
Proof. done. Qed.

Lemma mapInit_get m k : mapGet (mapInit m) k = mapGet m k.
Proof. destruct m; [done|]. unfold mapGet. cbn. by rewrite lookup_empty. Qed.

Lemma mapInit_Some m : ∃ m', mapInit m = Some m'.
Proof. destruct m; cbn; eauto. Qed.

Lemma adoptMutation_Some plan cordon node : ∃ node', adoptMutation plan cordon node = Some node'.
Proof.
  unfold adoptMutation. destruct (mapInit_Some (n_Annotations node)) as [a ->].
  destruct (mapInit_Some (n_Labels node)) as [b ->]. destruct cordon; cbn; eauto.
Qed.

Lemma cordonMutation_Some node : ∃ node', cordonMutation node = Some node'.
Proof.
  unfold cordonMutation. destruct (mapInit_Some (n_Annotations node)) as [a ->]. cbn. eauto.
Qed.

Lemma mapDelete_get m k k' :
  mapGet (mapDelete m k) k' = if decide (k = k') then "" else mapGet m k'.
Proof.
  destruct m as [m|]; cbn; [|by case_decide].
  unfold mapGet. cbn. rewrite lookup_delete. by case_decide.
Qed.

Lemma mapGet_insert m k v k' :
  mapGet (Some (<[k:=v]> m)) k' = if decide (k = k') then v else mapGet (Some m) k'.
Proof. unfold mapGet. cbn. rewrite lookup_insert. by case_decide. Qed.

(** ** Symbolic execution of the four operations *)

Section CordonRules.
Context (R : rely resp) (G : guar call).

Lemma rgM_CordonNode l s n (Q : st → outcome bool → Prop) :
  st_heap s !! l = Some n →
  (alreadyCordoned n = true → Q s (OK false)) →
  (alreadyCordoned n = false → ∀ m, cordonMutation n = Some m →
     G (CPatchNode n m) ∧
     (∀ e, R (CPatchNode n m) (inl e) → Q (heapSet s l m) (Fail (ErrApi e))) ∧
     (∀ n', R (CPatchNode n m) (inr n') → Q (heapSet s l n') (OK true))) →
  rgM R G (CordonNode l) s Q.
Proof.
  intros Hl H1 H2. unfold CordonNode. do 2 rg_step; [|congruence].
  simplify_eq. rg_step; [rg_step; auto|].
  destruct (cordonMutation_Some n) as [m Hm]. destruct (H2 eq_refl m Hm) as (HG & He & Hok).
  rewrite Hm. do 2 rg_step; [|done]. simplify_eq.
  eapply rgM_storePatch; eauto.
Qed.

Lemma rgM_UncordonNode l s n (Q : st → outcome bool → Prop) :
  st_heap s !! l = Some n →
  (n_Unschedulable n = false → annotationPresent n = false → Q s (OK false)) →
  (n_Unschedulable n = true ∨ annotationPresent n = true →
     G (CPatchNode n (uncordonMutation n)) ∧
     (∀ e, R (CPatchNode n (uncordonMutation n)) (inl e) →
        Q (heapSet s l (uncordonMutation n)) (Fail (ErrApi e))) ∧
     (∀ n', R (CPatchNode n (uncordonMutation n)) (inr n') → Q (heapSet s l n') (OK true))) →
  rgM R G (UncordonNode l) s Q.
Proof.
  intros Hl H1 H2. unfold UncordonNode. do 2 rg_step; [|congruence]. simplify_eq.
  destruct (n_Unschedulable n) eqn:E1, (annotationPresent n) eqn:E2; cbn [negb andb].
  4: { rg_step; auto. }
  all: destruct (H2 ltac:(tauto)) as (HG & He & Hok); eapply rgM_storePatch; eauto.
Qed.

Lemma rgM_ReleaseNode l s n (Q : st → outcome unit → Prop) :
  st_heap s !! l = Some n →
  (n_Annotations n = None ∨ owner n ≠ p_Name (st_plan s) → Q s (OK tt)) →
  (owner n = p_Name (st_plan s) →
     G (CPatchNode n (releaseMutation n)) ∧
     (∀ e, R (CPatchNode n (releaseMutation n)) (inl e) →
        Q (heapSet s l (releaseMutation n)) (Fail (ErrApi e))) ∧
     (∀ n', R (CPatchNode n (releaseMutation n)) (inr n') → Q (heapSet s l n') (OK tt))) →
  rgM R G (ReleaseNode l) s Q.
Proof.
  intros Hl H1 H2. unfold ReleaseNode. do 4 rg_step; [|congruence]. simplify_eq.
  destruct (n_Annotations n) eqn:Ea; [|rg_step; auto].
  case_decide as Ho; [rg_step; auto|].
  destruct (H2 Ho) as (HG & He & Hok).
  apply rgM_bind, rgM_store. change (MkSt _ _) with (heapSet s l (releaseMutation n)).
  eapply rgM_patchNode; [by eapply heapSet_lookup|done|done|].
  intros n' Hr. change (MkSt _ _) with (heapSet (heapSet s l (releaseMutation n)) l n').
  rewrite heapSet_heapSet. by apply Hok.
Qed.

Lemma rgM_AdoptNode l cordon s n (Q : st → outcome unit → Prop) :
  (∀ e, G (CEvent e)) →
  st_heap s !! l = Some n →
  (∀ m, adoptMutation (st_plan s) cordon n = Some m →
     G (CPatchNode n m) ∧
     (∀ e, R (CPatchNode n m) (inl e) → Q (heapSet s l m) (Fail (ErrApi e))) ∧
     (∀ n', R (CPatchNode n m) (inr n') → Q (heapSet s l n') (OK tt))) →
  rgM R G (AdoptNode l cordon) s Q.
Proof.
  intros Hev Hl H. unfold AdoptNode. do 4 rg_step; [|congruence]. simplify_eq.
  destruct (adoptMutation_Some (st_plan s) cordon n) as [m Hm].
  destruct (H m Hm) as (HG & He & Hok). rewrite Hm. do 2 rg_step; [|done]. simplify_eq.
  eapply rgM_storePatch; eauto. intros n' Hr. do 2 rg_step.
  - destruct cordon; (apply rgM_Eventf; [done|by apply Hok]).
  - by rewrite (heapSet_lookup _ _ _ _ Hl) in *.
Qed.
End CordonRules.

(** ** Facts about the mutations *)

Lemma adoptMutation_spec plan cordon n m :
  adoptMutation plan cordon n = Some m →
  owner m = p_Name plan ∧
  mapGet (n_Labels m) InMaintenanceLabel = "true" ∧
  n_Unschedulable m = cordon || n_Unschedulable n ∧
  (cordon = true → operatorCordoned m = true) ∧
  n_Name m = n_Name n ∧
  (∀ k, k ∉ operatorKeys → mapGet (n_Annotations m) k = mapGet (n_Annotations n) k).
Proof.
  unfold adoptMutation, owner, operatorCordoned, operatorKeys.
  pose proof (mapInit_get (n_Annotations n)) as Hget.
  destruct (mapInit_Some (n_Annotations n)) as [a Ha]. rewrite Ha in *.
  destruct (mapInit_Some (n_Labels n)) as [b ->].
  destruct cordon; cbn; intros [= <-]; [destruct (n_Unschedulable n) eqn:Eu; cbn|cbn];
    rewrite ?Eu; split_and!; try done; try (by intros _; rewrite !mapGet_insert); try (by rewrite !mapGet_insert);
    intros k Hk; rewrite <-Hget, !mapGet_insert; repeat case_decide; set_solver.
Qed.

Lemma cordonMutation_spec n m :
  cordonMutation n = Some m →
  n_Unschedulable m = true ∧ operatorCordoned m = true ∧ n_Name m = n_Name n ∧
  n_Labels m = n_Labels n ∧
  (∀ k, k ≠ CordonedAnnotation → mapGet (n_Annotations m) k = mapGet (n_Annotations n) k).
Proof.
  unfold cordonMutation, operatorCordoned.
  pose proof (mapInit_get (n_Annotations n)) as Hget.
  destruct (mapInit_Some (n_Annotations n)) as [a Ha]. rewrite Ha in *. cbn. intros [= <-].
  split_and!; cbn; try done; [by rewrite mapGet_insert|].
  intros k Hk. rewrite <-Hget, mapGet_insert. by case_decide.
Qed.

(** ** Theorems *)

(** A node without any annotation or label of the operator. *)
Definition unmarked (n : Node) : Prop :=
  (∀ k, k ∈ operatorKeys → n_Annotations n ≫= lookup k = None) ∧
  n_Labels n ≫= lookup InMaintenanceLabel = None.

(** The node with nil maps made empty: what remains of a visit. *)
Definition mapsInitialised (n : Node) : Node :=
  set_n_Labels (mapInit (n_Labels n)) (set_n_Annotations (mapInit (n_Annotations n)) n).

Lemma mapInit_lookup_None m m' k :
  mapInit m = Some m' → m ≫= lookup k = None → m' !! k = None.
Proof. destruct m; cbn; intros [= <-]; [done|by rewrite lookup_empty]. Qed.

Lemma mutations_roundtrip plan cordon n m :
  unmarked n → adoptMutation plan cordon n = Some m →
  releaseMutation (uncordonMutation m) = set_n_Unschedulable false (mapsInitialised n) ∧
  releaseMutation m = set_n_Unschedulable (cordon || n_Unschedulable n) (mapsInitialised n).
Proof.
  intros (Ha & Hl). unfold adoptMutation, mapsInitialised, operatorKeys in *.
  destruct (mapInit_Some (n_Annotations n)) as [a Ea].
  destruct (mapInit_Some (n_Labels n)) as [b Eb]. rewrite Ea, Eb.
  assert (∀ k, k ∈ operatorKeys → a !! k = None) as Ha'.
  { intros k Hk. eapply mapInit_lookup_None; [done|]. by apply Ha. }
  assert (b !! InMaintenanceLabel = None) as Hb by (by eapply mapInit_lookup_None).
  assert (∀ v w, delete CordonedAnnotation (delete ReasonAnnotation (delete ManagedByAnnotation
    (<[ReasonAnnotation:=v]> (<[ManagedByAnnotation:=w]> a)))) = a) as E1.
  { intros v w. apply map_eq. intros k. rewrite !lookup_delete, !lookup_insert.
    repeat case_decide; subst; try done; symmetry; apply Ha'; set_solver. }
  assert (∀ u v w, delete CordonedAnnotation (delete ReasonAnnotation (delete ManagedByAnnotation
    (<[CordonedAnnotation:=u]> (<[ReasonAnnotation:=v]> (<[ManagedByAnnotation:=w]> a))))) = a)
    as E2.
  { intros u v w. apply map_eq. intros k. rewrite !lookup_delete, !lookup_insert.
    repeat case_decide; subst; try done; symmetry; apply Ha'; set_solver. }
  assert (∀ m : gmap string string, delete CordonedAnnotation (delete ReasonAnnotation
    (delete ManagedByAnnotation (delete CordonedAnnotation m))) =
    delete CordonedAnnotation (delete ReasonAnnotation (delete ManagedByAnnotation m))) as E3.
  { intros m0. apply map_eq. intros k. rewrite !lookup_delete. repeat case_decide; done. }
  unfold releaseMutation, uncordonMutation.
  destruct n as [nm lb an dt un cs]. cbn in *.
  destruct cordon, un; cbn; intros [= <-]; cbn; rewrite E3, ?E1, ?E2, delete_insert_id by done; done.
Qed.

Lemma adoptMutation_annotated plan cordon n m :
  adoptMutation plan cordon n = Some m → n_Annotations m ≠ None.
Proof.
  unfold adoptMutation. destruct (mapInit_Some (n_Annotations n)) as [a ->].
  destruct (mapInit_Some (n_Labels n)) as [b ->].
  destruct cordon; cbn; intros [= <-]; done.
Qed.

Lemma uncordonMutation_owner n : owner (uncordonMutation n) = owner n.
Proof. unfold owner. cbn. rewrite mapDelete_get. by case_decide. Qed.

Lemma uncordonMutation_annotated n :
  n_Annotations n ≠ None → n_Annotations (uncordonMutation n) ≠ None.
Proof. cbn. by destruct (n_Annotations n). Qed.

(** C25: adopting a node (with or without the cordon), then uncordoning and
    releasing it is a round trip.  Take a node that carries none of the operator's
    annotations and not its label.  Whenever the three operations succeed and nobody
    else writes the node meanwhile, it comes back with the labels, annotations and
    everything else it had before, up to nil maps having become empty ones, and
    schedulable: as it was, if it was schedulable; a node somebody else had cordoned
    loses that cordon. *)
Theorem adopt_release_roundtrip l cordon s n t s' :
  st_heap s !! l = Some n → unmarked n →
  runM (AdoptNode l cordon;; UncordonNode l;; ReleaseNode l) s t s' (OK tt) →
  answered echoes t →
  s' = heapSet s l (set_n_Unschedulable false (mapsInitialised n)).
Proof.
  intros Hl Hn Hrun Hans.
  refine (proj2 (rgM_sound (G := anyCall)
    (Q := λ s' o, o = OK tt → s' = heapSet s l (set_n_Unschedulable false (mapsInitialised n))) _ Hrun Hans) eq_refl).
  apply rgM_bind, (rgM_AdoptNode _ _ _ _ _ n); [done|done|].
  intros m Hm. split_and!; [done|done|]. intros n' Hr. cbn in Hr. rewrite (Hr n' eq_refl).
  destruct (mutations_roundtrip _ _ _ _ Hn Hm) as [Hrel1 Hrel2].
  destruct (adoptMutation_spec _ _ _ _ Hm) as (Ho & _ & Hu & _).
  pose proof (heapSet_lookup s l m n Hl) as Hl1.
  pose proof (adoptMutation_annotated _ _ _ _ Hm) as Hann.
  apply rgM_bind, (rgM_UncordonNode _ _ _ _ m); [done| |].
  - intros Hum _. apply (rgM_ReleaseNode _ _ _ _ m); [done|intros [?|?]; done|].
    intros _. split_and!; [done|done|]. intros n'' Hr' _. cbn in Hr'. rewrite (Hr' n'' eq_refl).
    by rewrite heapSet_heapSet, Hrel2, <-Hu, Hum.
  - intros _. split_and!; [done|done|]. intros n1 Hr1. cbn in Hr1. rewrite (Hr1 n1 eq_refl).
    rewrite heapSet_heapSet.
    apply (rgM_ReleaseNode _ _ _ _ (uncordonMutation m)); [by eapply heapSet_lookup| |].
    + rewrite uncordonMutation_owner. pose proof (uncordonMutation_annotated m Hann).
      intros [?|?]; done.
    + intros _. split_and!; [done|done|]. intros n2 Hr2 _. cbn in Hr2. rewrite (Hr2 n2 eq_refl).
      by rewrite heapSet_heapSet, Hrel1.
Qed.

Definition exampleState : st := MkSt (examplePlan ["n1"]) [exampleNode "n1"].

Lemma adopt_release_roundtrip_witness :
  (execResult emptyTables (AdoptNode 0 true;; UncordonNode 0;; ReleaseNode 0) exampleState).1
  = heapSet exampleState 0 (mapsInitialised (exampleNode "n1")).
Proof.
  apply (adopt_release_roundtrip 0 true exampleState (exampleNode "n1")
           (execTrace emptyTables (AdoptNode 0 true;; UncordonNode 0;; ReleaseNode 0) exampleState)).
  - reflexivity.
  - split; [intros k _|]; reflexivity.
  - exact (exec_run emptyTables (AdoptNode 0 true;; UncordonNode 0;; ReleaseNode 0) exampleState).
  - apply exec_echoes.
Defined.

(** When a node is adopted with the cordon, every patch the operator sends for
    it carries the ownership, the cordon and the operator's cordon annotation
    together, so no reconcile that reads the node after the patch, under
    whatever plan, sees it as drifted. *)
Theorem AdoptNode_atomic l s n t s' o :
  st_heap s !! l = Some n →
  runM (AdoptNode l true) s t s' o →
  issued (λ c, match c with
    | CPatchNode original m =>
        original = n ∧ owner m = p_Name (st_plan s) ∧ n_Unschedulable m = true ∧
        operatorCordoned m = true ∧ ∀ plan, DetectNodeDrift (Some m) plan = (false, "")
    | CEvent _ => True
    | _ => False
    end) t ∧ o ≠ Panic.
Proof.
  intros Hl Hrun.
  eapply (rgM_sound (R := anyAnswer) (Q := λ s' o, o ≠ Panic) _ Hrun).
  { by apply Forall_true. }
  Unshelve. eapply rgM_AdoptNode; [done|done|].
  intros m Hm. destruct (adoptMutation_spec _ _ _ _ Hm) as (Ho & _ & Hu & Hc & _).
  cbn; split_and!; [done|done|done|by apply Hc| |done|done].
  intros plan. unfold DetectNodeDrift. destruct (n_Annotations m); [|done].
  rewrite Hu, (Hc eq_refl). case_decide; [done|]. cbn. by rewrite !andb_false_r.
Qed.

Lemma AdoptNode_atomic_witness :
  st_heap exampleState !! 0%nat = Some (exampleNode "n1") ∧
  (execResult emptyTables (AdoptNode 0 true) exampleState).2 ≠ Panic.
Proof.
  split; [reflexivity|].
  exact (proj2 (AdoptNode_atomic 0 exampleState (exampleNode "n1") _ _ _ eq_refl
                  (exec_run emptyTables (AdoptNode 0 true) exampleState))).
Defined.

(** Cordoning is effective and idempotent: after a successful [CordonNode],
    nobody else writing, the node is unschedulable and carries the operator's
    annotation, its owner and every other annotation are as before; cordoning
    it again makes no request at all and reports no change. *)
Theorem CordonNode_idempotent l s n t s' changed t' s'' o :
  st_heap s !! l = Some n →
  runM (CordonNode l) s t s' (OK changed) → answered echoes t →
  runM (CordonNode l) s' t' s'' o →
  (∃ n', s' = heapSet s l n' ∧ n_Unschedulable n' = true ∧ operatorCordoned n' = true ∧
     (∀ k, k ≠ CordonedAnnotation → mapGet (n_Annotations n') k = mapGet (n_Annotations n) k)) ∧
  changed = negb (alreadyCordoned n) ∧
  t' = [] ∧ s'' = s' ∧ o = OK false.
Proof.
  intros Hl Hrun Hans Hrun'.
  assert (changed = negb (alreadyCordoned n) ∧ ∃ n', s' = heapSet s l n' ∧
    alreadyCordoned n' = true ∧
    ∀ k, k ≠ CordonedAnnotation → mapGet (n_Annotations n') k = mapGet (n_Annotations n) k)
    as (Hch & n' & -> & Hal & Hk).
  { refine (proj2 (rgM_sound (G := anyCall) (Q := λ s' o, ∀ b, o = OK b → b = negb (alreadyCordoned n) ∧
      ∃ n', s' = heapSet s l n' ∧ alreadyCordoned n' = true ∧
      ∀ k, k ≠ CordonedAnnotation → mapGet (n_Annotations n') k = mapGet (n_Annotations n) k)
      _ Hrun Hans) _ eq_refl).
    eapply rgM_CordonNode; [done| |].
    - intros Hc b [= <-]. rewrite Hc. split; [done|]. exists n. by rewrite heapSet_id.
    - intros Hc m Hm. destruct (cordonMutation_spec _ _ Hm) as (Hu & Ho & _ & _ & Hk).
      split_and!; [done|done|]. intros n' Hr b [= <-]. cbn in Hr. rewrite (Hr n' eq_refl), Hc.
      split; [done|]. exists m. split_and!; [done| |done]. unfold alreadyCordoned.
      by rewrite Hu, Ho. }
  pose proof (heapSet_lookup s l n' n Hl) as Hl'.
  destruct (rgM_sound (R := anyAnswer) (G := silent)
    (Q := λ s'' o, s'' = heapSet s l n' ∧ o = OK false)
    ltac:(eapply rgM_CordonNode; [done|done|congruence]) Hrun'
    ltac:(by apply Forall_true)) as [Hsil [-> ->]].
  apply andb_true_iff in Hal as Hal'. destruct Hal' as [Hu Ho].
  split_and!; [exists n'; by split_and!|done|by apply silent_trace|done|done].
Qed.

Lemma CordonNode_idempotent_witness :
  (execResult emptyTables (CordonNode 0)
     (execResult emptyTables (CordonNode 0) exampleState).1).2 = OK false.
Proof.
  exact (proj2 (proj2 (proj2 (proj2 (CordonNode_idempotent 0 exampleState (exampleNode "n1") _ _ true
    _ _ _ eq_refl (exec_run emptyTables (CordonNode 0) exampleState)
    (exec_echoes emptyTables (CordonNode 0) exampleState)
    (exec_run emptyTables (CordonNode 0)
       (execResult emptyTables (CordonNode 0) exampleState).1)))))).
Defined.
