(* ===== verification/Ownership.v ===== *)
(** * Node resolution and ownership (nodes.go, ownership.go, cleanup.go)

    Which nodes a plan wants, which it already owns, and the classification of
    both into the [OwnershipResolution] the rest of the pass works on. *)
From S2P Require Import Prelude GoTime Api Prog Kube Cordon.

(** ** nodes.go *)

Record NodeResolutionResult : Type := MkNodeResolutionResult {
  rr_Nodes : list Node;
  rr_Issues : list NodeIssue
}.

(** Body of the loop of [resolveExplicitNodes]. *)
Definition resolveExplicitStep (result : NodeResolutionResult) (nodeName : string)
    : M NodeResolutionResult :=
  r ← perform (CGetNode nodeName);
  match r with
  | inl e =>
      if IsNotFound e then
        mret (MkNodeResolutionResult (rr_Nodes result)
          (rr_Issues result ++ [MkNodeIssue "NodeNotFound"
             ("node " +:+ quote nodeName +:+ " does not exist") None]))
      else throw (ErrApi e)
  | inr node => mret (MkNodeResolutionResult (rr_Nodes result ++ [node]) (rr_Issues result))
  end.

Definition resolveExplicitNodes : M NodeResolutionResult :=
  plan ← getPlan;
  foldM resolveExplicitStep (MkNodeResolutionResult [] []) (s_Nodes (p_Spec plan)).

Definition resolveSnapshotStep (result : NodeResolutionResult) (name : string)
    : M NodeResolutionResult :=
  r ← perform (CGetNode name);
  match r with
  | inl e =>
      if IsNotFound e then mret result
      else throw (ErrWrap ("getting node " +:+ quote name) (ErrApi e))
  | inr node => mret (MkNodeResolutionResult (rr_Nodes result ++ [node]) (rr_Issues result))
  end.

Definition resolveSnapshotNodes (names : list string) : M NodeResolutionResult :=
  foldM resolveSnapshotStep (MkNodeResolutionResult [] []) names.

Section Ownership.
Context `{SO : SelectorOps}.

Definition resolveSelectorNodes (selector : LabelSelector) : M NodeResolutionResult :=
  match LabelSelectorAsSelector selector with
  | inl e => throw (ErrWrap "invalid node selector" (ErrNew e))
  | inr _ =>
      r ← perform (CListNodes (Some selector) None);
      nodes ← wrapErr "listing nodes" (orThrow r);
      let issues := match nodes with
        | [] => [MkNodeIssue "NoMatchingNodes" "no nodes match the provided selector" None]
        | _ => []
        end in
      mret (MkNodeResolutionResult nodes issues)
  end.

Definition ResolveNodes : M (option NodeResolutionResult) :=
  plan ← getPlan;
  match s_Nodes (p_Spec plan), s_NodeSelector (p_Spec plan) with
  | _ :: _, _ => result ← resolveExplicitNodes; mret (Some result)
  | [], Some selector => result ← resolveSelectorNodes selector; mret (Some result)
  | [], None => mret None
  end.

(** ** ownership.go *)

Record OwnershipResolution : Type := MkOwnershipResolution {
  ow_ToAdopt : list loc;
  ow_ToRelease : list loc;
  ow_Stable : list loc;
  ow_Conflicting : list loc;
  ow_All : list loc;
  ow_SnapshotNodes : option (list string)
}.

(** [m[node.Name] = node] for each element of a slice, [node] pointing into it. *)
Definition indexNode (m : gmap string loc) (node : Node) : M (gmap string loc) :=
  l ← alloc node;
  mret (<[n_Name node := l]> m).

Definition indexOwnedNode (planName : string) (m : gmap string loc) (node : Node)
    : M (gmap string loc) :=
  l ← alloc node;
  mret (if decide (owner node = planName) then <[n_Name node := l]> m else m).

Definition ResolveOwnedNodes (planName : string) : M (gmap string loc) :=
  r ← perform (CListNodes None None);
  nodes ← wrapErr "listing nodes" (orThrow r);
  foldM (indexOwnedNode planName) ∅ nodes.

(** Body of the loop over [desired]. *)
Definition classifyDesired (planName : string) (res : OwnershipResolution) (e : string * loc)
    : M OwnershipResolution :=
  let l := e.2 in
  node ← load l;
  let 'MkOwnershipResolution ad re sta con all sn := res in
  mret (
    if decide (owner node = "") then MkOwnershipResolution (ad ++ [l]) re sta con (all ++ [l]) sn
    else if decide (owner node = planName)
    then MkOwnershipResolution ad re (sta ++ [l]) con (all ++ [l]) sn
    else MkOwnershipResolution ad re sta (con ++ [l]) (all ++ [l]) sn).

(** Body of the loop over [managed]. *)
Definition classifyManaged (desired : gmap string loc) (res : OwnershipResolution)
    (e : string * loc) : OwnershipResolution :=
  match desired !! e.1 with
  | Some _ => res
  | None => MkOwnershipResolution (ow_ToAdopt res) (ow_ToRelease res ++ [e.2]) (ow_Stable res)
              (ow_Conflicting res) (ow_All res) (ow_SnapshotNodes res)
  end.

Definition ComputeOwnership (desired managed : gmap string loc) (planName : string)
    : M OwnershipResolution :=
  desiredEntries ← rangeMap desired;
  res ← foldM (classifyDesired planName) (MkOwnershipResolution [] [] [] [] [] None) desiredEntries;
  managedEntries ← rangeMap managed;
  mret (foldl (classifyManaged desired) res managedEntries).

Definition setSnapshotNodes (v : option (list string)) (r : OwnershipResolution)
    : OwnershipResolution :=
  MkOwnershipResolution (ow_ToAdopt r) (ow_ToRelease r) (ow_Stable r) (ow_Conflicting r)
    (ow_All r) v.

(** The three ways [ComputeOwnershipResolution] resolves the desired nodes, with
    the snapshot to persist. *)
Definition resolveDesired : M (option NodeResolutionResult * option (list string)) :=
  plan ← getPlan;
  match s_NodeSelector (p_Spec plan) with
  | Some selector =>
      if ps_NodeSnapshotTaken (p_Status plan) then
        result ← wrapErr "resolving snapshot nodes"
          (resolveSnapshotNodes (ps_ResolvedNodes (p_Status plan)));
        mret (Some result, None)
      else
        result ← wrapErr "resolving selector nodes" (resolveSelectorNodes selector);
        mret (Some result, Some (map n_Name (rr_Nodes result)))
  | None =>
      result ← wrapErr "resolving desired nodes" ResolveNodes;
      mret (result, None)
  end.

Definition ComputeOwnershipResolution : M OwnershipResolution :=
  d ← resolveDesired;
  let '(result, snapshotNodes) := d : option NodeResolutionResult * option (list string) in
  desired ← foldM indexNode ∅ (match result with Some r => rr_Nodes r | None => [] end);
  plan ← getPlan;
  managed ← wrapErr "resolving owned nodes" (ResolveOwnedNodes (p_Name plan));
  res ← ComputeOwnership desired managed (p_Name plan);
  mret (setSnapshotNodes snapshotNodes res).
End Ownership.

(** ** cleanup.go *)

(** Body of the loop of [CleanUp]. *)
Definition cleanUpNode (e : string * loc) : M unit :=
  let l := e.2 in
  node ← load l;
  wrapErr ("uncordoning node " +:+ quote (n_Name node) +:+ " during cleanup") (UncordonNode l);;
  node ← load l;
  wrapErr ("releasing node " +:+ quote (n_Name node) +:+ " during cleanup") (ReleaseNode l);;
  node ← load l;
  Eventf (Some (n_Name node)) "Normal" "NodeReleased" "ReleaseNode"
    ("node " +:+ quote (n_Name node) +:+ " uncordoned and released as part of plan deletion").

Definition CleanUp : M unit :=
  plan ← getPlan;
  owned ← wrapErr "resolving owned nodes" (ResolveOwnedNodes (p_Name plan));
  entries ← rangeMap owned;
  rangeM entries cleanUpNode.

(** ** Classification *)

(** The owner annotation of the node at [l]. *)
Definition ownerAt (s : st) (l : loc) : option string := owner <$> st_heap s !! l.

(** The three buckets the loop over [desired] sorts a node into. *)
Inductive claimOn : Type := Free | Mine | Foreign.

#[export] Instance claimOn_eq_dec : EqDecision claimOn.
Proof. solve_decision. Defined.

Definition claim (planName : string) (s : st) (l : loc) : claimOn :=
  if decide (ownerAt s l = Some "") then Free
  else if decide (ownerAt s l = Some planName) then Mine else Foreign.

Lemma claim_node planName s l n :
  st_heap s !! l = Some n →
  claim planName s l = if decide (owner n = "") then Free
                       else if decide (owner n = planName) then Mine else Foreign.
Proof.
  intros Hl. unfold claim, ownerAt. rewrite Hl. cbn.
  repeat case_decide; congruence.
Qed.

Definition withClaim (planName : string) (s : st) (c : claimOn) (ls : list loc) : list loc :=
  filter (λ l, claim planName s l = c) ls.

Lemma withClaim_cons planName s c l ls :
  withClaim planName s c (l :: ls) =
  (if decide (claim planName s l = c) then [l] else []) ++ withClaim planName s c ls.
Proof. unfold withClaim. rewrite filter_cons. by case_decide. Qed.

Lemma withClaim_perm planName s ls :
  withClaim planName s Free ls ++ withClaim planName s Mine ls ++ withClaim planName s Foreign ls
    ≡ₚ ls.
Proof.
  induction ls as [|l ls IH]; [done|]. rewrite !withClaim_cons. rewrite <-IH at 4.
  destruct (claim planName s l); repeat case_decide; try congruence; cbn;
    by rewrite <-?Permutation_middle.
Qed.

Lemma elem_of_withClaim planName s c l ls :
  l ∈ withClaim planName s c ls ↔ claim planName s l = c ∧ l ∈ ls.
Proof. unfold withClaim. by rewrite list_elem_of_filter. Qed.

Lemma rgM_classifyDesired R planName r es s :
  rgM R silent (foldM (classifyDesired planName) r es) s (λ s' o, s' = s ∧
    ((∀ e, e ∈ es → is_Some (st_heap s !! e.2)) → ∃ r', o = OK r') ∧
    ∀ r', o = OK r' → r' = MkOwnershipResolution
      (ow_ToAdopt r ++ withClaim planName s Free es.*2) (ow_ToRelease r)
      (ow_Stable r ++ withClaim planName s Mine es.*2)
      (ow_Conflicting r ++ withClaim planName s Foreign es.*2)
      (ow_All r ++ es.*2) (ow_SnapshotNodes r)).
Proof.
  revert r. induction es as [|e es IH]; intros r; cbn [foldM].
  { rg_step. split_and!; [done|by eexists|]. intros r' [= <-]. destruct r. by rewrite !app_nil_r. }
  rg_step. destruct r as [ad re sta con all sn].
  assert (∀ Q : st → outcome OwnershipResolution → Prop,
    (∀ r', r' = MkOwnershipResolution (ad ++ withClaim planName s Free [e.2]) re
       (sta ++ withClaim planName s Mine [e.2]) (con ++ withClaim planName s Foreign [e.2])
       (all ++ [e.2]) sn → Q s (OK r')) → (st_heap s !! e.2 = None → Q s Panic) →
    rgM R silent (classifyDesired planName (MkOwnershipResolution ad re sta con all sn) e) s Q)
    as Hstep.
  { intros Q HQ HP. unfold classifyDesired. do 2 rg_step; [|by apply HP].
    rewrite !withClaim_cons in HQ. change (withClaim planName s ?c []) with (@nil loc) in HQ.
    match goal with Hl : _ = Some _ |- _ => rewrite (claim_node _ _ _ _ Hl) in HQ end.
    rg_step. apply HQ. destruct (decide (owner n = "")); [|destruct (decide (owner n = planName))];
      cbn; by rewrite ?app_nil_r. }
  apply Hstep.
  2: { intros Hl. split_and!; [done| |done]. intros Hv.
       destruct (Hv e (list_elem_of_here _ _)) as [n Hn]. congruence. }
  intros r' ->. eapply rgM_post; [apply IH|]. intros s' o (-> & Hv & Ho).
  split_and!; [done|intros Hv'; apply Hv; intros; apply Hv'; by apply list_elem_of_further|]. intros r' Hr'. rewrite (Ho r' Hr').
  cbn [ow_ToAdopt ow_ToRelease ow_Stable ow_Conflicting ow_All ow_SnapshotNodes].
  change ((e :: es).*2) with ([e.2] ++ es.*2). unfold withClaim.
  by rewrite !list.filter_app, !app_assoc.
Qed.

(** The entries of [managed] whose name is not desired. *)
Definition undesired (desired : gmap string loc) (es : list (string * loc)) : list (string * loc) :=
  filter (λ e, desired !! e.1 = None) es.

Lemma foldl_classifyManaged desired r es :
  foldl (classifyManaged desired) r es =
  MkOwnershipResolution (ow_ToAdopt r) (ow_ToRelease r ++ (undesired desired es).*2) (ow_Stable r)
    (ow_Conflicting r) (ow_All r) (ow_SnapshotNodes r).
Proof.
  revert r. induction es as [|e es IH]; intros r; cbn [foldl].
  { destruct r. cbn. by rewrite app_nil_r. }
  rewrite IH. unfold classifyManaged, undesired. rewrite filter_cons.
  destruct (desired !! e.1) as [l|] eqn:E; cbn.
  - case_decide; [congruence|done].
  - case_decide; [|congruence]. by rewrite <-app_assoc.
Qed.

(** What [ComputeOwnership] returns, whatever the iteration orders. *)
Definition ownershipSpec (s : st) (desired managed : gmap string loc) (planName : string)
    (res : OwnershipResolution) : Prop :=
  ow_All res ≡ₚ (map_to_list desired).*2 ∧
  ow_ToAdopt res = withClaim planName s Free (ow_All res) ∧
  ow_Stable res = withClaim planName s Mine (ow_All res) ∧
  ow_Conflicting res = withClaim planName s Foreign (ow_All res) ∧
  ow_ToRelease res ≡ₚ (undesired desired (map_to_list managed)).*2.

(** Only the iteration order is asked for. *)
Definition ordersOnly (c : call) : Prop := match c with CMapOrder _ => True | _ => False end.

Lemma rgM_ComputeOwnership R desired managed planName s :
  rgM R ordersOnly (ComputeOwnership desired managed planName) s (λ s' o, s' = s ∧
    ((∀ k l, desired !! k = Some l → is_Some (st_heap s !! l)) → ∃ res, o = OK res) ∧
    ∀ res, o = OK res → ownershipSpec s desired managed planName res ∧ ow_SnapshotNodes res = None).
Proof.
  unfold ComputeOwnership. rg_step. apply rgM_rangeMap; [done|]. intros des Hdes. rg_step.
  eapply rgM_mono; [apply (rgM_classifyDesired R)|done|done|]. intros s' o (-> & Hv & Ho).
  assert ((∀ k l, desired !! k = Some l → is_Some (st_heap s !! l)) → ∃ res, o = OK res) as Hv'.
  { intros Hval. apply Hv. intros [k l] He. rewrite Hdes in He. by apply elem_of_map_to_list, Hval in He. }
  destruct o as [res|e|]; [|by split_and!..]. rg_step.
  apply rgM_rangeMap; [done|]. intros man Hman. rg_step. split_and!; [done|by eexists|].
  intros res' [= <-].
  rewrite foldl_classifyManaged, (Ho res eq_refl). unfold ownershipSpec. cbn.
  split_and!; [by rewrite Hdes|done..| |done]. unfold undesired. by rewrite Hman.
Qed.

Lemma elem_of_undesired desired managed l :
  l ∈ (undesired desired (map_to_list managed)).*2 ↔
  ∃ k, managed !! k = Some l ∧ desired !! k = None.
Proof.
  unfold undesired. rewrite list_elem_of_fmap. split.
  - intros ([k l'] & -> & [Hd He%elem_of_map_to_list]%list_elem_of_filter). by exists k.
  - intros (k & Hm & Hd). exists (k, l). split; [done|]. apply list_elem_of_filter.
    split; [done|]. by apply elem_of_map_to_list.
Qed.

Lemma claim_spec planName s l :
  (claim planName s l = Free ↔ ownerAt s l = Some "") ∧
  (claim planName s l = Mine ↔ ownerAt s l = Some planName ∧ planName ≠ "") ∧
  (claim planName s l = Foreign ↔ ownerAt s l ≠ Some "" ∧ ownerAt s l ≠ Some planName).
Proof.
  unfold claim. destruct (decide (ownerAt s l = Some "")) as [E|E];
    [|destruct (decide (ownerAt s l = Some planName)) as [E'|E']];
    split_and!; split; try done; try (intros [? ?]; congruence); intros _; split; congruence.
Qed.

(** C18: the ownership decision is a partition that no iteration order can
    change.  [ComputeOwnership] leaves the nodes alone and always returns a
    resolution; the desired nodes are split, each into exactly one list, into the
    unowned ones to adopt, the plan's own stable ones and the ones of other
    plans; what is released is exactly what is managed and not desired. *)
Theorem ComputeOwnership_partition desired managed planName s t s' o :
  (∀ k l, desired !! k = Some l → is_Some (st_heap s !! l)) →
  runM (ComputeOwnership desired managed planName) s t s' o →
  s' = s ∧ ∃ res, o = OK res ∧
    ow_ToAdopt res ++ ow_Stable res ++ ow_Conflicting res ≡ₚ ow_All res ∧
    ow_All res ≡ₚ (map_to_list desired).*2 ∧
    (∀ l, l ∈ ow_ToAdopt res ↔ l ∈ ow_All res ∧ ownerAt s l = Some "") ∧
    (∀ l, l ∈ ow_Stable res ↔ l ∈ ow_All res ∧ ownerAt s l = Some planName ∧ planName ≠ "") ∧
    (∀ l, l ∈ ow_Conflicting res ↔
       l ∈ ow_All res ∧ ownerAt s l ≠ Some "" ∧ ownerAt s l ≠ Some planName) ∧
    (∀ l, l ∈ ow_ToRelease res ↔ ∃ k, managed !! k = Some l ∧ desired !! k = None).
Proof.
  intros Hv Hrun.
  destruct (rgM_sound (rgM_ComputeOwnership anyAnswer desired managed planName s) Hrun
    (answered_any _)) as (_ & -> & Hok & Hspec).
  destruct (Hok Hv) as [res ->]. destruct (Hspec res eq_refl) as [(H1 & H2 & H3 & H4 & H5) _].
  split; [done|]. exists res. split; [done|].
  split; [rewrite H2, H3, H4; apply withClaim_perm|]. split; [done|].
  split_and!; intros l; [rewrite H2|rewrite H3|rewrite H4|];
    rewrite ?elem_of_withClaim, ?H5, ?elem_of_undesired; [..|done];
    destruct (claim_spec planName s l) as (C1 & C2 & C3); tauto.
Qed.

(** ** The resolution of a pass *)

(** The node objects may have been added to, not changed. *)
Definition extends (s s' : st) : Prop :=
  st_plan s' = st_plan s ∧ ∃ ns, st_heap s' = st_heap s ++ ns.

Lemma extends_refl s : extends s s.
Proof. split; [done|]. exists []. by rewrite app_nil_r. Qed.

Lemma extends_trans s1 s2 s3 : extends s1 s2 → extends s2 s3 → extends s1 s3.
Proof.
  intros (H1 & ns & H2) (H3 & ms & H4). split; [congruence|]. exists (ns ++ ms).
  by rewrite H4, H2, app_assoc.
Qed.

Lemma extends_lookup s s' l n :
  extends s s' → st_heap s !! l = Some n → st_heap s' !! l = Some n.
Proof. intros (_ & ns & ->) Hl. by apply lookup_app_l_Some. Qed.

(** A map from names to pointers at or above [base]: each to an object of that
    name that satisfies [P]. *)
Definition indexed (P : Node → Prop) (base : nat) (s : st) (m : gmap string loc) : Prop :=
  ∀ k l, m !! k = Some l → (base ≤ l)%nat ∧ ∃ n, st_heap s !! l = Some n ∧ n_Name n = k ∧ P n.

Lemma indexed_empty P base s : indexed P base s ∅.
Proof. intros k l H. by rewrite lookup_empty in H. Qed.

Lemma indexed_extends P base s s' m : extends s s' → indexed P base s m → indexed P base s' m.
Proof.
  intros Hext Hm k l Hkl. destruct (Hm k l Hkl) as (Hb & n & Hn & ? & ?).
  split; [done|]. exists n. split_and!; [by eapply extends_lookup|done|done].
Qed.

Lemma indexed_alloc (P : Node → Prop) base s m n :
  (base ≤ length (st_heap s))%nat → P n → indexed P base s m →
  indexed P base (MkSt (st_plan s) (st_heap s ++ [n])) (<[n_Name n := length (st_heap s)]> m).
Proof.
  intros Hb HP Hm k l. rewrite lookup_insert. case_decide as Hk.
  - intros [= <-]. split; [done|]. exists n. cbn. split_and!; [|done|done].
    by rewrite lookup_app_r, Nat.sub_diag by lia.
  - apply (indexed_extends P base s); [|done]. split; [done|]. by exists [n].
Qed.

Lemma indexed_inj P base s m k k' l : indexed P base s m → m !! k = Some l → m !! k' = Some l → k = k'.
Proof.
  intros Hm H1 H2. destruct (Hm k l H1) as (_ & n & Hn & <- & _).
  destruct (Hm k' l H2) as (_ & n' & Hn' & <- & _). congruence.
Qed.

Lemma indexed_NoDup P base s m : indexed P base s m → NoDup (map_to_list m).*2.
Proof.
  intros Hm. apply NoDup_fmap_2_strong; [|apply NoDup_map_to_list].
  intros [k l] [k' l'] H1%elem_of_map_to_list H2%elem_of_map_to_list Heq. cbn in Heq. subst l'.
  f_equal. by eapply indexed_inj.
Qed.

Lemma undesired_NoDup P base s desired m :
  indexed P base s m → NoDup (undesired desired (map_to_list m)).*2.
Proof.
  intros Hm. apply NoDup_fmap_2_strong; [|apply list.NoDup_filter, NoDup_map_to_list].
  intros [k l] [k' l'] [_ H1%elem_of_map_to_list]%list_elem_of_filter
    [_ H2%elem_of_map_to_list]%list_elem_of_filter Heq. cbn in Heq. subst l'.
  f_equal. by eapply indexed_inj.
Qed.

(** Both indexing loops at once: [f] allocates the node and may insert it. *)
Lemma rgM_indexLoop R (P : Node → Prop) base (f : gmap string loc → Node → M (gmap string loc))
    m nodes s :
  (∀ m n s (Q : st → outcome (gmap string loc) → Prop),
     (∀ m', m' = m ∨ (P n ∧ m' = <[n_Name n := length (st_heap s)]> m) →
        Q (MkSt (st_plan s) (st_heap s ++ [n])) (OK m')) → rgM R silent (f m n) s Q) →
  (base ≤ length (st_heap s))%nat → indexed P base s m →
  rgM R silent (foldM f m nodes) s (λ s' o, extends s s' ∧
    ∃ m', o = OK m' ∧ indexed P base s' m').
Proof.
  intros Hf. revert m s. induction nodes as [|n nodes IH]; intros m s Hb Hm; cbn [foldM].
  { rg_step. split; [apply extends_refl|]. by exists m. }
  rg_step. apply Hf. intros m' Hm'.
  assert (extends s (MkSt (st_plan s) (st_heap s ++ [n]))) as Hext by (split; [done|by exists [n]]).
  eapply rgM_post; [apply IH|].
  - cbn. rewrite length_app. lia.
  - destruct Hm' as [->|[HP ->]]; [by eapply indexed_extends|by apply indexed_alloc].
  - intros s' o [He Ho]. split; [by eapply extends_trans|done].
Qed.

Lemma rgM_indexNodes R base m nodes s :
  (base ≤ length (st_heap s))%nat → indexed (λ _, True) base s m →
  rgM R silent (foldM indexNode m nodes) s (λ s' o, extends s s' ∧
    ∃ m', o = OK m' ∧ indexed (λ _, True) base s' m').
Proof.
  apply rgM_indexLoop. intros m0 n s0 Q HQ. unfold indexNode. rg_steps. apply HQ. by right.
Qed.

Lemma rgM_indexOwned R planName base m nodes s :
  (base ≤ length (st_heap s))%nat → indexed (λ n, owner n = planName) base s m →
  rgM R silent (foldM (indexOwnedNode planName) m nodes) s (λ s' o, extends s s' ∧
    ∃ m', o = OK m' ∧ indexed (λ n, owner n = planName) base s' m').
Proof.
  apply rgM_indexLoop. intros m0 n s0 Q HQ. unfold indexOwnedNode. rg_steps. apply HQ.
  case_decide; auto.
Qed.

(** Requests that change nothing. *)
Definition readsOnly (c : call) : Prop :=
  match c with CGetNode _ | CListNodes _ _ | CMapOrder _ => True | _ => False end.

Lemma rgM_listOwned R (G : guar call) planName s : G (CListNodes None None) →
  rgM R G (ResolveOwnedNodes planName) s (λ s' o, extends s s' ∧
    o ≠ Panic ∧ ∀ m, o = OK m → indexed (λ n, owner n = planName) (length (st_heap s)) s' m).
Proof.
  intros HG. unfold ResolveOwnedNodes. do 2 rg_step; [done|]. rg_steps.
  - split_and!; [apply extends_refl|done|done].
  - eapply rgM_mono; [apply (rgM_indexOwned R _ (length (st_heap s))); [done|apply indexed_empty]|done| |].
    + by intros [].
    + intros s' o (He & m' & -> & Hm). split_and!; [done|done|]. by intros m [= <-].
Qed.

Lemma rgM_ResolveOwnedNodes R planName s :
  rgM R readsOnly (ResolveOwnedNodes planName) s (λ s' o, extends s s' ∧
    o ≠ Panic ∧ ∀ m, o = OK m → indexed (λ n, owner n = planName) (length (st_heap s)) s' m).
Proof. by apply rgM_listOwned. Qed.

(** What a pass relies on: the lists point to distinct node objects, with the
    owners their names say. *)
Definition resolutionWF (planName : string) (s : st) (res : OwnershipResolution) : Prop :=
  NoDup (ow_ToAdopt res ++ ow_Stable res ++ ow_ToRelease res) ∧
  (∀ l, l ∈ ow_ToAdopt res → ownerAt s l = Some "") ∧
  (∀ l, l ∈ ow_Stable res → ownerAt s l = Some planName) ∧
  (∀ l, l ∈ ow_ToRelease res → ownerAt s l = Some planName).

Lemma ownershipSpec_WF base s desired managed planName res :
  (∀ k l, desired !! k = Some l → (l < base)%nat) →
  indexed (λ _, True) 0 s desired → indexed (λ n, owner n = planName) base s managed →
  ownershipSpec s desired managed planName res → resolutionWF planName s res.
Proof.
  intros Hlt Hd Hm (H1 & H2 & H3 & H4 & H5).
  assert (NoDup (ow_All res)) as Hall by (rewrite H1; by eapply indexed_NoDup).
  assert (∀ l, l ∈ ow_All res → (l < base)%nat) as Hallb.
  { intros l Hl. rewrite H1 in Hl. apply list_elem_of_fmap in Hl as ([k l'] & -> & Hk).
    apply elem_of_map_to_list in Hk. by eapply Hlt. }
  assert (∀ l, l ∈ ow_ToRelease res → ∃ k, managed !! k = Some l) as Hrel.
  { intros l Hl. rewrite H5 in Hl. apply elem_of_undesired in Hl as (k & ? & _). by exists k. }
  split_and!.
  - rewrite H2, H3. apply list.NoDup_app. split_and!; [by apply list.NoDup_filter| |].
    + intros l [Hc Hl]%elem_of_withClaim [[Hc' _]%elem_of_withClaim|Hr]%elem_of_app; [congruence|].
      specialize (Hallb l Hl). destruct (Hrel l Hr) as [k Hk]. destruct (Hm k l Hk) as [? _]. lia.
    + apply list.NoDup_app. split_and!; [by apply list.NoDup_filter| |].
      * intros l [Hc Hl]%elem_of_withClaim Hr.
        specialize (Hallb l Hl). destruct (Hrel l Hr) as [k Hk]. destruct (Hm k l Hk) as [? _]. lia.
      * rewrite H5. by eapply undesired_NoDup.
  - intros l Hl. rewrite H2 in Hl. apply elem_of_withClaim in Hl as [Hc _].
    by apply (claim_spec planName s l).
  - intros l Hl. rewrite H3 in Hl. apply elem_of_withClaim in Hl as [Hc _].
    by apply (claim_spec planName s l).
  - intros l Hl. destruct (Hrel l Hl) as [k Hk]. destruct (Hm k l Hk) as (_ & n & Hn & _ & <-).
    unfold ownerAt. by rewrite Hn.
Qed.

Section Resolution.
Context `{SO : SelectorOps}.

Lemma preserves_resolveDesired R I : preserves R readsOnly I resolveDesired.
Proof.
  unfold resolveDesired, resolveSnapshotNodes, resolveSelectorNodes, ResolveNodes,
    resolveExplicitNodes, resolveSelectorNodes.
  keep_inv; unfold resolveSnapshotStep, resolveExplicitStep; keep_inv.
Qed.

Lemma rgM_ComputeOwnershipResolution R s :
  rgM R readsOnly ComputeOwnershipResolution s (λ s' o, extends s s' ∧
    ∀ res, o = OK res → resolutionWF (p_Name (st_plan s)) s' res).
Proof.
  unfold ComputeOwnershipResolution. rg_step.
  eapply rgM_post; [by apply (preserves_resolveDesired R (eq s))|]. intros s1 o <-.
  destruct o as [[result snap]|e|]; [|by split; [apply extends_refl|]..].
  rg_step. eapply rgM_mono; [apply (rgM_indexNodes R 0); [lia|apply indexed_empty]|done|by intros []|].
  intros s1 o (He1 & desired & -> & Hd). do 4 rg_step.
  eapply rgM_post; [apply rgM_ResolveOwnedNodes|]. intros s2 o (He2 & _ & Hm).
  pose proof He1 as [Hp1 _]. rewrite Hp1 in *.
  assert (extends s s2) as He by (by eapply extends_trans).
  destruct o as [managed|e|]; [|by split..]. rg_step.
  eapply rgM_mono; [apply (rgM_ComputeOwnership R)|done|by intros []|].
  intros s3 o (-> & _ & Ho). destruct o as [res|e|]; [|by split..]. rg_step. split; [done|].
  intros res' [= <-]. destruct (Ho res eq_refl) as [Hspec _]. unfold resolutionWF. cbn.
  eapply (ownershipSpec_WF (length (st_heap s1))); [..|done].
  - intros k l Hkl. destruct (Hd k l Hkl) as (_ & n & Hn & _). by eapply lookup_lt_Some.
  - exact (indexed_extends _ _ _ _ _ He2 Hd).
  - by apply Hm.
Qed.
End Resolution.

(** ** The cleanup of a deleted plan *)

(** What [CleanUp] makes of a node. *)
Definition cleaned (planName : string) (n : Node) : Node :=
  if decide (owner n = planName) then
    releaseMutation (if n_Unschedulable n || annotationPresent n then uncordonMutation n else n)
  else n.

Lemma cleaned_spec planName n :
  planName ≠ "" →
  let n' := cleaned planName n in
  owner n' ≠ planName ∧ n_Name n' = n_Name n ∧
  (owner n = planName → n_Unschedulable n' = false ∧ operatorCordoned n' = false ∧ owner n' = "") ∧
  (owner n ≠ planName → n' = n).
Proof.
  intros Hne. cbn zeta. unfold cleaned. case_decide as Ho; [|by split_and!].
  assert (∀ m, owner (releaseMutation m) = "" ∧ operatorCordoned (releaseMutation m) = false) as Hr.
  { intros m. unfold owner, operatorCordoned. cbn. rewrite !mapDelete_get.
    repeat case_decide; done. }
  destruct (Hr (if n_Unschedulable n || annotationPresent n then uncordonMutation n else n))
    as [Hro Hrc].
  split_and!; [congruence| | |done].
  - by destruct (n_Unschedulable n || annotationPresent n).
  - intros _. split_and!; [|done|done].
    destruct (n_Unschedulable n) eqn:E, (annotationPresent n); cbn; done.
Qed.

Lemma owner_annotated n : owner n ≠ "" → n_Annotations n ≠ None.
Proof. unfold owner. by destruct (n_Annotations n). Qed.

(** Uncordon, release, notify: the work on one node of the cleanup and of the
    release loop, when nobody else writes the node. *)
Lemma rgM_uncordonRelease l s n msg1 (msg2 : Node → string) (ev : Node → M unit)
    (Q : st → outcome unit → Prop) :
  (∀ n' s' (Q : st → outcome unit → Prop), Q s' (OK tt) → rgM echoes anyCall (ev n') s' Q) →
  st_heap s !! l = Some n → owner n = p_Name (st_plan s) → p_Name (st_plan s) ≠ "" →
  Q (heapSet s l (cleaned (p_Name (st_plan s)) n)) (OK tt) →
  (∀ s' e, Q s' (Fail e)) →
  rgM echoes anyCall
    (wrapErr msg1 (UncordonNode l);;
     node ← load l; wrapErr (msg2 node) (ReleaseNode l);;
     node ← load l; ev node) s Q.
Proof.
  intros Hev Hl Ho Hne HQ Hfail. unfold cleaned in *. rewrite decide_True in HQ by done.
  do 2 rg_step.
  assert (∀ m, owner m = owner n → (m = n ∨ n_Annotations m ≠ None) →
    Q (heapSet s l (releaseMutation m)) (OK tt) →
    rgM echoes anyCall (node ← load l; wrapErr (msg2 node) (ReleaseNode l);;
      node ← load l; ev node) (heapSet s l m) Q) as Hrel.
  { intros m Hm Ha HQm. pose proof (heapSet_lookup s l m n Hl) as Hlm.
    rg_step. rg_step; [|congruence]. simplify_eq. do 2 rg_step.
    eapply rgM_ReleaseNode; [done| |].
    - intros [Hn|Hn]; [|cbn in Hn; congruence]. exfalso.
      destruct Ha as [->|?]; [|congruence]. apply (owner_annotated n); [congruence|done].
    - intros _. split_and!; [done|by intros; apply Hfail|]. intros n' Hr. cbn in Hr.
      rewrite (Hr n' eq_refl), heapSet_heapSet. rg_step. rg_step.
      + by apply Hev.
      + exfalso. pose proof (heapSet_lookup s l (releaseMutation m) n Hl). congruence. }
  eapply rgM_UncordonNode; [done| |].
  - intros Hu Ha. rewrite Hu, Ha in HQ. rewrite <-(heapSet_id s l n Hl). apply Hrel; auto.
  - intros Hor. rewrite (proj2 (orb_true_iff _ _) Hor) in HQ.
    split_and!; [done|by intros; apply Hfail|]. intros n' Hr. cbn in Hr. rewrite (Hr n' eq_refl).
    apply Hrel; [by rewrite uncordonMutation_owner| |done]. right.
    apply uncordonMutation_annotated, owner_annotated. congruence.
Qed.

Lemma rgM_cleanUpNode e s n (Q : st → outcome unit → Prop) :
  st_heap s !! e.2 = Some n → owner n = p_Name (st_plan s) → p_Name (st_plan s) ≠ "" →
  Q (heapSet s e.2 (cleaned (p_Name (st_plan s)) n)) (OK tt) →
  (∀ s' e, Q s' (Fail e)) →
  rgM echoes anyCall (cleanUpNode e) s Q.
Proof.
  intros Hl Ho Hne HQ Hfail. unfold cleanUpNode. rg_step. rg_step; [|congruence]. simplify_eq.
  eapply (rgM_uncordonRelease e.2 _ _ _ (λ node, "releasing node " +:+ quote (n_Name node)
    +:+ " during cleanup")); [|done..].
  intros n' s' Q' HQ'. by apply rgM_Eventf.
Qed.

(** The map [ResolveOwnedNodes] builds. *)
Fixpoint ownedMap (planName : string) (base : nat) (nodes : list Node) (m : gmap string loc)
    : gmap string loc :=
  match nodes with
  | [] => m
  | n :: nodes => ownedMap planName (S base) nodes
                    (if decide (owner n = planName) then <[n_Name n := base]> m else m)
  end.

Lemma rgM_indexOwnedNode R G planName m n s (Q : st → outcome (gmap string loc) → Prop) :
  Q (MkSt (st_plan s) (st_heap s ++ [n]))
    (OK (if decide (owner n = planName) then <[n_Name n := length (st_heap s)]> m else m)) →
  rgM R G (indexOwnedNode planName m n) s Q.
Proof. intros HQ. unfold indexOwnedNode. rg_steps. exact HQ. Qed.

Lemma rgM_indexOwned_exact R planName nodes m s (Q : st → outcome (gmap string loc) → Prop) :
  Q (MkSt (st_plan s) (st_heap s ++ nodes)) (OK (ownedMap planName (length (st_heap s)) nodes m)) →
  rgM R silent (foldM (indexOwnedNode planName) m nodes) s Q.
Proof.
  revert m s. induction nodes as [|n nodes IH]; intros m s HQ; cbn [foldM].
  { rg_step. rewrite app_nil_r in HQ. by destruct s. }
  rg_step. apply rgM_indexOwnedNode. apply IH. cbn [st_heap st_plan]. rewrite length_app, Nat.add_1_r, <-app_assoc. exact HQ.
Qed.

Lemma ownedMap_other planName base nodes m k :
  (∀ n, n ∈ nodes → n_Name n ≠ k) → ownedMap planName base nodes m !! k = m !! k.
Proof.
  revert base m. induction nodes as [|n nodes IH]; intros base m Hk; [done|]. cbn [ownedMap].
  rewrite IH by (intros; apply Hk; by apply list_elem_of_further).
  case_decide; [|done]. rewrite lookup_insert_ne; [done|]. apply Hk, list_elem_of_here.
Qed.

(** With distinct names, the map holds exactly the plan's nodes. *)
Lemma ownedMap_lookup planName base nodes m l n :
  NoDup (map n_Name nodes) → nodes !! l = Some n → owner n = planName →
  ownedMap planName base nodes m !! n_Name n = Some (base + l)%nat.
Proof.
  revert base m l. induction nodes as [|n0 nodes IH]; intros base m [|l] Hnd Hl Ho; simplify_eq/=;
    apply list.NoDup_cons in Hnd as [Hn Hnd].
  - rewrite ownedMap_other, decide_True, lookup_insert_eq, Nat.add_0_r; [done|done|].
    intros n' Hn' Heq. apply Hn. rewrite <-Heq. by apply list_elem_of_fmap_2.
  - rewrite (IH _ _ l Hnd Hl eq_refl). f_equal. lia.
Qed.

Lemma ownedMap_elem planName base nodes m k l :
  ownedMap planName base nodes m !! k = Some l →
  m !! k = Some l ∨ ∃ i n, nodes !! i = Some n ∧ owner n = planName ∧ n_Name n = k ∧
    l = (base + i)%nat.
Proof.
  revert base m. induction nodes as [|n0 nodes IH]; intros base m Hk; [by left|].
  cbn [ownedMap] in Hk. destruct (IH _ _ Hk) as [Hm|(i & n & Hi & Ho & Hn & ->)].
  - case_decide; [|by left]. apply lookup_insert_Some in Hm as [[<- <-]|[_ Hm]]; [|by left].
    right. exists 0%nat, n0. split_and!; [done..|lia].
  - right. exists (S i), n. split_and!; [done..|lia].
Qed.

(** The node objects while the entries [es] are still to be cleaned up. *)
Definition halfCleaned (planName : string) (nodes : list Node) (es : list (string * loc)) (s : st)
    : Prop :=
  p_Name (st_plan s) = planName ∧ NoDup es.*2 ∧
  (∀ l, l ∈ es.*2 → ∃ n, nodes !! l = Some n ∧ owner n = planName) ∧
  length (st_heap s) = length nodes ∧
  ∀ l n, nodes !! l = Some n →
    st_heap s !! l = Some (if decide (l ∈ es.*2) then n else cleaned planName n).

Lemma rgM_cleanUpLoop planName nodes es s :
  planName ≠ "" → halfCleaned planName nodes es s →
  rgM echoes anyCall (rangeM es cleanUpNode) s (λ s' o, o = OK tt →
    st_heap s' = map (cleaned planName) nodes).
Proof.
  intros Hne. apply (rgM_rangeM echoes anyCall (halfCleaned planName nodes)).
  - intros e es' s0 (Hp & Hnd & Hes & Hlen & Hheap).
    apply list.NoDup_cons in Hnd as [Hnin Hnd].
    destruct (Hes e.2) as (n & Hn & Ho); [rewrite fmap_cons; apply list_elem_of_here|].
    pose proof (Hheap _ _ Hn) as Hl. rewrite decide_True in Hl by (rewrite fmap_cons; set_solver).
    apply (rgM_cleanUpNode _ _ n); [done|congruence|congruence| |done]. rewrite Hp.
    split_and!; [done|done| | |].
    + intros l Hl'. apply Hes. rewrite fmap_cons. set_solver.
    + cbn. by rewrite length_insert.
    + intros l n' Hn'. destruct (decide (l = e.2)) as [->|Hlne].
      * rewrite (heapSet_lookup _ _ _ _ Hl), decide_False by done. congruence.
      * rewrite heapSet_lookup_ne by done. rewrite (Hheap _ _ Hn'). f_equal.
        rewrite fmap_cons. destruct (decide (l ∈ e.2 :: es'.*2)) as [H1|H1],
          (decide (l ∈ es'.*2)) as [H2|H2]; [done| | |done]; set_solver.
  - intros s0 (_ & _ & _ & Hlen & Hheap) _. apply list_eq. intros l.
    change (map ?f nodes) with (f <$> nodes). rewrite list_lookup_fmap.
    destruct (nodes !! l) as [n|] eqn:E; cbn.
    + rewrite (Hheap _ _ E), decide_False; [done|]. by intros ?%elem_of_nil.
    + apply lookup_ge_None in E. apply lookup_ge_None. lia.
Qed.

Lemma halfCleaned_init plan nodes es :
  NoDup (map n_Name nodes) → es ≡ₚ map_to_list (ownedMap (p_Name plan) 0 nodes ∅) →
  halfCleaned (p_Name plan) nodes es (MkSt plan nodes).
Proof.
  intros Hnd Hes.
  assert (∀ l, l ∈ es.*2 ↔ ∃ n, nodes !! l = Some n ∧ owner n = p_Name plan) as Hel.
  { intros l. rewrite Hes, list_elem_of_fmap. split.
    - intros ([k l'] & -> & Hk%elem_of_map_to_list).
      apply ownedMap_elem in Hk as [Hk|(i & n & Hi & Ho & _ & ->)]; [by rewrite lookup_empty in Hk|].
      by exists n.
    - intros (n & Hn & Ho). exists (n_Name n, l). split; [done|]. apply elem_of_map_to_list.
      by rewrite (ownedMap_lookup _ 0 nodes ∅ l n Hnd Hn Ho). }
  split_and!; [done| |intros l; apply Hel|done|].
  - rewrite Hes. apply (indexed_NoDup (λ _, True) 0 (MkSt plan nodes)). intros k l Hk.
    split; [lia|]. apply ownedMap_elem in Hk as [Hk|(i & n & Hi & _ & Hn & ->)];
      [by rewrite lookup_empty in Hk|]. by exists n.
  - intros l n Hn. cbn. rewrite Hn. f_equal. case_decide as Hd; [done|].
    unfold cleaned. rewrite decide_False; [done|]. intros Ho. apply Hd, Hel. by exists n.
Qed.

Lemma ResolveOwnedNodes_run planName plan t s' owned :
  runM (ResolveOwnedNodes planName) (MkSt plan []) t s' (OK owned) →
  ∃ nodes, t = [Ev (CListNodes None None) (inr nodes)] ∧ s' = MkSt plan nodes ∧
    owned = ownedMap planName 0 nodes ∅.
Proof.
  unfold ResolveOwnedNodes. intros Hrun.
  apply runM_bind in Hrun as (t1 & s1 & o1 & t2 & -> & Hl & Hrun).
  destruct Hl as (r & t3 & -> & -> & [= -> ->]). destruct r as [e|nodes];
    apply runM_bind in Hrun as (t4 & s4 & o4 & t5 & -> & (o5 & [-> [= -> ->]] & ->)%wrapErr_run & Hrun);
    [by destruct Hrun as (_ & _ & [=])|].
  exists nodes.
  assert (issued silent t5 ∧ s' = MkSt plan nodes ∧ OK owned = OK (ownedMap planName 0 nodes ∅))
    as (Hsil%silent_trace & -> & [= ->]).
  { refine (rgM_sound (R:=anyAnswer) (G:=silent) (Q:=λ s o, s = MkSt plan nodes ∧
      o = OK (ownedMap planName 0 nodes ∅)) _ Hrun (answered_any _)).
    apply rgM_indexOwned_exact. by split. }
  by subst t5.
Qed.

(** The finalizer's work.  Over a cluster whose nodes have distinct names
    and which nobody else writes meanwhile, a successful [CleanUp] leaves the
    nodes of other plans and the unowned ones exactly as they were and turns
    every node of the plan into one that is schedulable, unowned and without
    the operator's cordon annotation: none is left owned, in whatever order the
    nodes are visited. *)
Theorem CleanUp_releases plan t s' :
  p_Name plan ≠ "" → runM CleanUp (MkSt plan []) t s' (OK tt) → answered echoes t →
  ∃ nodes, Ev (CListNodes None None) (inr nodes) ∈ t ∧
    (NoDup (map n_Name nodes) →
     st_heap s' = map (cleaned (p_Name plan)) nodes ∧
     ∀ n, n ∈ nodes → let n' := cleaned (p_Name plan) n in
       owner n' ≠ p_Name plan ∧
       (owner n = p_Name plan →
          n_Unschedulable n' = false ∧ operatorCordoned n' = false ∧ owner n' = "") ∧
       (owner n ≠ p_Name plan → n' = n)).
Proof.
  intros Hne Hrun Hans. unfold CleanUp in Hrun.
  apply runM_bind in Hrun as (t1 & s1 & o1 & t2 & -> & [-> [= -> ->]] & Hrun).
  apply runM_bind in Hrun as (t3 & s3 & o3 & t4 & -> & (o5 & Ho & ->)%wrapErr_run & Hrun).
  destruct o5 as [owned|e|]; [|by destruct Hrun as (_ & _ & [=])..].
  apply ResolveOwnedNodes_run in Ho as (nodes & -> & -> & ->).
  exists nodes. split; [apply list_elem_of_here|]. intros Hnd. split.
  2: { intros n _. destruct (cleaned_spec (p_Name plan) n Hne) as (? & _ & ? & ?). by split_and!. }
  inversion_clear Hans as [|?? _ Hans'].
  refine (proj2 (rgM_sound (R:=echoes) (G:=anyCall)
    (Q:=λ s o, o = OK tt → st_heap s = map (cleaned (p_Name plan)) nodes) _ Hrun Hans') eq_refl).
  rg_step. apply rgM_rangeMap; [done|]. intros es Hes.
  apply rgM_cleanUpLoop; [done|]. by apply halfCleaned_init.
Qed.

(** ** Witnesses *)

(** A node as [AdoptNode] leaves it under a plan of the given name. *)
Definition ownedNode (planName name : string) : Node :=
  MkNode name (Some {[ InMaintenanceLabel := "true" ]})
    (Some {[ ManagedByAnnotation := planName; CordonedAnnotation := "true" ]}) None true
    [MkNodeCondition NodeReady ConditionTrue].

(** One free node, one of plan-a, one of plan-b. *)
Definition exampleCluster : list Node :=
  [exampleNode "n1"; ownedNode "plan-a" "n2"; ownedNode "plan-b" "n3"].

Definition clusterTables : tables :=
  MkTables exampleCluster (λ _, []) [] [] (λ _, None) 0.

Definition exampleDesired : gmap string loc := {[ "n1" := 0%nat; "n3" := 2%nat ]}.
Definition exampleManaged : gmap string loc := {[ "n2" := 1%nat ]}.

Lemma ComputeOwnership_partition_witness :
  let s := MkSt (examplePlan ["n1"]) exampleCluster in
  let r := execResult emptyTables (ComputeOwnership exampleDesired exampleManaged "plan-a") s in
  r.2 = OK (MkOwnershipResolution [0%nat] [1%nat] [] [2%nat] [2%nat; 0%nat] None) ∧ r.1 = s.
Proof.
  intros s r. split; [vm_compute; reflexivity|].
  refine (proj1 (ComputeOwnership_partition exampleDesired exampleManaged "plan-a" s _ _ _ _
    (exec_run emptyTables (ComputeOwnership exampleDesired exampleManaged "plan-a") s))).
  unfold exampleDesired. intros k l Hkl.
  apply lookup_insert_Some in Hkl as [[<- <-]|[_ Hkl]]; [by eexists|].
  apply lookup_singleton_Some in Hkl as [<- <-]. by eexists.
Defined.

Lemma CleanUp_releases_witness :
  let plan := examplePlan ["n2"] in
  let r := execResult clusterTables CleanUp (MkSt plan []) in
  r.2 = OK tt ∧
  ∃ nodes, Ev (CListNodes None None) (inr nodes) ∈ execTrace clusterTables CleanUp (MkSt plan []).
Proof.
  intros plan r. assert (r.2 = OK tt) as Hok by (vm_compute; reflexivity). split; [exact Hok|].
  pose proof (exec_run clusterTables CleanUp (MkSt plan [])) as Hrun. fold r in Hrun.
  rewrite Hok in Hrun.
  destruct (CleanUp_releases plan _ _ ltac:(discriminate) Hrun (exec_echoes _ _ _))
    as (nodes & Hin & _).
  exists nodes. exact Hin.
Defined.
