(* ===== verification/DrainNode.v ===== *)
(** * Draining one node (drain_node.go)

    One drain pass over one node: list and classify its pods, ask for the
    eviction of the evictable ones, count, and report what blocks.  The function
    reads the plan and the node and mutates neither, so it is a program over the
    environment alone: several of them run concurrently (DrainPool.v). *)
From S2P Require Import Prelude GoTime Api Prog Kube Filters.

Record drainOutcome : Type := MkDrainOutcome {
  do_Evicted : Z;
  do_Total : Z;
  do_Evictable : Z;
  do_Terminating : Z;
  do_StuckTerminating : Z;
  do_StuckPods : list Pod
}.

Definition zeroOutcome : drainOutcome := MkDrainOutcome 0 0 0 0 0 [].

(** [outcome.Evicted++]. *)
Definition incEvicted (o : drainOutcome) : drainOutcome :=
  MkDrainOutcome (int32 (do_Evicted o + 1)) (do_Total o) (do_Evictable o) (do_Terminating o)
    (do_StuckTerminating o) (do_StuckPods o).

(** [int32(len(xs))]. *)
Definition len32 {A} (xs : list A) : Z := int32 (length xs).

Definition initialOutcome (r : drainFilterResult) : drainOutcome :=
  MkDrainOutcome 0
    (int32 (length (fr_Evictable r) + length (fr_Blocked r)
            + length (fr_Terminating r) + length (fr_StuckTerminating r)))
    (len32 (fr_Evictable r)) (len32 (fr_Terminating r)) (len32 (fr_StuckTerminating r))
    (fr_StuckTerminating r).

Definition evictPod (pod : Pod) (gracePeriodSeconds : option Z) : kprog (option ApiError) :=
  trigger (CEvict pod gracePeriodSeconds).

Definition podKey (pod : Pod) : string := pod_Namespace pod +:+ "/" +:+ pod_Name pod.

(** The loop over the evictable pods.  The result is the outcome so far with
    either the error the loop returns or the pods a budget refused. *)
Fixpoint evictLoop (cfg : drainConfig) (outcome : drainOutcome) (pdbBlocked : list Pod)
    (pods : list Pod) : kprog (drainOutcome * (error + list Pod)) :=
  match pods with
  | [] => Ret (outcome, inr pdbBlocked)
  | pod :: rest =>
      pbind (evictPod pod (dc_PodTerminationGracePeriodSeconds cfg)) (λ r,
      match r with
      | None => evictLoop cfg (incEvicted outcome) pdbBlocked rest
      | Some err =>
          if IsTooManyRequests err then
            if negb (dc_RespectPodDisruptionBudgets cfg) then
              pbind (trigger (CDeletePod pod)) (λ d : resp (CDeletePod pod),
              match d with
              | Some delErr =>
                  if negb (IsNotFound delErr)
                  then Ret (outcome, inl (ErrWrap ("force-deleting PDB-blocked pod " +:+ podKey pod)
                                            (ErrApi delErr)))
                  else evictLoop cfg (incEvicted outcome) pdbBlocked rest
              | None => evictLoop cfg (incEvicted outcome) pdbBlocked rest
              end)
            else evictLoop cfg outcome (pdbBlocked ++ [pod]) rest
          else if IsNotFound err then evictLoop cfg outcome pdbBlocked rest
          else Ret (outcome, inl (ErrWrap ("evicting pod " +:+ podKey pod) (ErrApi err)))
      end)
  end.

(** The error after the loop: config-blocked pods first, then budget-blocked. *)
Definition blockedResult (nodeName : string) (blocked pdbBlocked : list Pod) : option error :=
  match blocked, pdbBlocked with
  | _ :: _, _ => Some (ErrDrainBlocked (MkDrainBlockedError nodeName blocked false))
  | [], _ :: _ => Some (ErrDrainBlocked (MkDrainBlockedError nodeName pdbBlocked true))
  | [], [] => None
  end.

Definition drainNode (plan : NodeMaintenancePlan) (node : Node)
    : kprog (drainOutcome * option error) :=
  match getDrainConfig plan with
  | None =>
      Ret (zeroOutcome, Some (ErrNew ("drain not enabled for plan " +:+ p_Namespace plan
             +:+ "/" +:+ p_Name plan)))
  | Some cfg =>
      pbind (filterPodsForDrain node cfg) (λ r,
      match r with
      | inl err => Ret (zeroOutcome, Some err)
      | inr result =>
          pbind (evictLoop cfg (initialOutcome result) [] (fr_Evictable result)) (λ l,
          match l.2 with
          | inl err => Ret (l.1, Some err)
          | inr pdbBlocked =>
              Ret (l.1, blockedResult (n_Name node) (fr_Blocked result) pdbBlocked)
          end)
      end)
  end.

(** ** What an execution of the drain of one node did *)

(** A request that removed (or will remove) a pod: an accepted eviction, or a
    deletion that succeeded or found the pod gone. *)
Definition isAccepted (e : event resp) : bool :=
  match e with
  | Ev c r =>
      match c return resp c → bool with
      | CEvict _ _ => λ r, match r with None => true | Some _ => false end
      | CDeletePod _ => λ r, match r with None => true | Some err => IsNotFound err end
      | _ => λ _, false
      end r
  end.

Definition accepted (t : ktrace) : nat := length (filter (λ e, isAccepted e = true) t).

(** The pod of an eviction a disruption budget refused. *)
Definition refusedPod (e : event resp) : option Pod :=
  match e with
  | Ev c r =>
      match c return resp c → option Pod with
      | CEvict pod _ => λ r, match r with
          | Some err => if IsTooManyRequests err then Some pod else None
          | None => None
          end
      | _ => λ _, None
      end r
  end.

Definition refused (t : ktrace) : list Pod := omap refusedPod t.

Lemma accepted_cons e t :
  accepted (e :: t) = ((if isAccepted e then 1 else 0) + accepted t)%nat.
Proof. unfold accepted. rewrite filter_cons. by destruct (isAccepted e). Qed.

Lemma refused_cons e t :
  refused (e :: t) = match refusedPod e with Some p => [p] | None => [] end ++ refused t.
Proof. unfold refused. cbn. by destruct (refusedPod e). Qed.

(** The pods whose eviction was asked for, in order. *)
Definition requestedPod (e : event resp) : option Pod :=
  match ev_act e with CEvict pod _ => Some pod | _ => None end.

Definition requested (t : ktrace) : list Pod := omap requestedPod t.

Lemma requested_cons e t :
  requested (e :: t) = match requestedPod e with Some p => [p] | None => [] end ++ requested t.
Proof. unfold requested. cbn. by destruct (requestedPod e). Qed.

(** The error of a request the API failed: an eviction answered with anything but a
    refused budget or a missing pod, a deletion answered with anything but a missing
    pod. *)
Definition failureOf (e : event resp) : option error :=
  match e with
  | Ev c r =>
      match c return resp c → option error with
      | CEvict pod _ => λ r, match r with
          | Some err => if IsTooManyRequests err || IsNotFound err then None
                        else Some (ErrWrap ("evicting pod " +:+ podKey pod) (ErrApi err))
          | None => None
          end
      | CDeletePod pod => λ r, match r with
          | Some err => if IsNotFound err then None
                        else Some (ErrWrap ("force-deleting PDB-blocked pod " +:+ podKey pod) (ErrApi err))
          | None => None
          end
      | _ => λ _, None
      end r
  end.

Definition failures (t : ktrace) : list error := omap failureOf t.

(** The last request of a trace failed with [e], and none before it. *)
Definition stoppedBy (e : error) (t : ktrace) : Prop :=
  ∃ t0 ev, t = t0 ++ [ev] ∧ failures t0 = [] ∧ failureOf ev = Some e.

(** [outcome.Evicted] after [n] increments. *)
Fixpoint evictedBy (n : nat) (o : drainOutcome) : drainOutcome :=
  match n with O => o | S n => evictedBy n (incEvicted o) end.

(** The calls the loop may make. *)
Definition evictionCall (cfg : drainConfig) (pods : list Pod) (c : call) : Prop :=
  match c with
  | CEvict pod grace => pod ∈ pods ∧ grace = dc_PodTerminationGracePeriodSeconds cfg
  | CDeletePod pod => pod ∈ pods ∧ dc_RespectPodDisruptionBudgets cfg = false
  | _ => False
  end.

Lemma evictionCall_cons cfg pod pods c :
  evictionCall cfg pods c → evictionCall cfg (pod :: pods) c.
Proof. destruct c; cbn; set_solver. Qed.

(** An API failure, wrapped: neither of the two errors the caller recognises. *)
Definition plainError (e : error) : Prop := asDrainBlocked e = None ∧ asNodeNotReady e = None.

(** What the loop guarantees of an execution. *)
Definition loopOutcome (cfg : drainConfig) (o : drainOutcome) (pdb pods : list Pod) (t : ktrace)
    (o' : drainOutcome) (res : error + list Pod) : Prop :=
  o' = evictedBy (accepted t) o ∧ (accepted t ≤ length pods)%nat ∧
  issued (evictionCall cfg pods) t ∧ requested t `prefix_of` pods ∧
  match res with
  | inr pdb' =>
      requested t = pods ∧ failures t = [] ∧
      pdb' = pdb ++ (if dc_RespectPodDisruptionBudgets cfg then refused t else [])
  | inl e => plainError e ∧ stoppedBy e t
  end.

(** The loop went on with the next pod: after the calls [t0] about [pod]. *)
Lemma loopOutcome_step cfg o pdb pod pods t0 t o' res :
  loopOutcome cfg (evictedBy (accepted t0) o)
    (pdb ++ (if dc_RespectPodDisruptionBudgets cfg then refused t0 else [])) pods t o' res →
  (accepted t0 ≤ 1)%nat → issued (evictionCall cfg (pod :: pods)) t0 → requested t0 = [pod] →
  failures t0 = [] → loopOutcome cfg o pdb (pod :: pods) (t0 ++ t) o' res.
Proof.
  intros (-> & Hle & Hi & Hp & Hres) Hle0 Hi0 Hreq Hf0.
  assert (accepted (t0 ++ t) = (accepted t0 + accepted t)%nat) as Ha.
  { unfold accepted. by rewrite list.filter_app, length_app. }
  assert (requested (t0 ++ t) = pod :: requested t) as Hr.
  { unfold requested in *. by rewrite omap_app, Hreq. }
  split_and!.
  - rewrite Ha. clear. revert o. induction (accepted t0) as [|n IH]; intros o; cbn; [done|apply IH].
  - rewrite Ha. cbn. lia.
  - apply Forall_app. split; [done|]. eapply Forall_impl; [|exact Hi].
    intros e. apply evictionCall_cons.
  - rewrite Hr. by apply prefix_cons.
  - destruct res as [e|pdb'].
    { destruct Hres as (Hpl & t1 & ev & -> & Hf1 & Hev). split; [done|]. exists (t0 ++ t1), ev.
      rewrite app_assoc. split_and!; [done| |done]. unfold failures in *. by rewrite omap_app, Hf0, Hf1. }
    destruct Hres as (Hpods & Hf & ->). rewrite Hr, Hpods. split; [done|].
    split; [unfold failures in *; by rewrite omap_app, Hf0, Hf|].
    destruct (dc_RespectPodDisruptionBudgets cfg); [|by rewrite !app_nil_r].
    unfold refused. by rewrite omap_app, app_assoc.
Qed.

(** The loop stopped on an API failure after the calls [t0]. *)
Lemma loopOutcome_stop cfg o pdb pod pods t0 e :
  accepted t0 = 0%nat → issued (evictionCall cfg (pod :: pods)) t0 → requested t0 = [pod] →
  plainError e → stoppedBy e t0 → loopOutcome cfg o pdb (pod :: pods) t0 o (inl e).
Proof.
  intros Ha Hi Hr He Hst. split_and!; [by rewrite Ha|rewrite Ha; lia|done| |done|done].
  rewrite Hr. by exists pods.
Qed.

Lemma accepted_nil : accepted [] = 0%nat.
Proof. done. Qed.

Lemma evictLoop_run cfg o pdb pods t o' res :
  run (evictLoop cfg o pdb pods) t (o', res) → loopOutcome cfg o pdb pods t o' res.
Proof.
  revert o pdb t. induction pods as [|pod pods IH]; intros o pdb t Hrun.
  { cbn in Hrun. destruct Hrun as [-> [= -> ->]]. split_and!; [done|done|by constructor|done|done|done|].
    destruct (dc_RespectPodDisruptionBudgets cfg); by rewrite app_nil_r. }
  cbn in Hrun. destruct Hrun as (r & t1 & -> & Hrun).
  set (ev := CEvict pod (dc_PodTerminationGracePeriodSeconds cfg)) in *.
  assert (∀ r : resp ev, issued (evictionCall cfg (pod :: pods)) [Ev (Res:=resp) ev r]) as Hiss
    by (intros; apply Forall_singleton; cbn; set_solver).
  assert (∀ r t2 o1,
    run (evictLoop cfg o1 (pdb ++ (if dc_RespectPodDisruptionBudgets cfg
      then match refusedPod (Ev (Res:=resp) ev r) with Some p => [p] | None => [] end else []))
      pods) t2 (o', res) →
    o1 = evictedBy (accepted [Ev (Res:=resp) ev r]) o → failures [Ev (Res:=resp) ev r] = [] →
    loopOutcome cfg o pdb (pod :: pods) (Ev (Res:=resp) ev r :: t2) o' res) as Hnext.
  { intros r0 t2 o1 Hrun2 -> Hf0. apply IH in Hrun2.
    apply (loopOutcome_step _ _ _ _ _ [Ev (Res:=resp) ev r0]); [|by destruct r0; cbv; lia|done|done|done].
    rewrite refused_cons, app_nil_r. done. }
  destruct r as [err|]; [|by eapply Hnext; [rewrite Tauto.if_same, app_nil_r| |]].
  destruct (IsTooManyRequests err) eqn:Etm.
  2: { destruct (IsNotFound err) eqn:Enf; cbn in Hrun.
       - eapply Hnext; [|done|unfold failures; cbn; by rewrite Etm, Enf].
         cbn. by rewrite Etm, Tauto.if_same, app_nil_r.
       - destruct Hrun as [-> [= -> ->]]. apply loopOutcome_stop; try done.
         eexists [], _. split_and!; [done|done|]. cbn. by rewrite Etm, Enf. }
  destruct (dc_RespectPodDisruptionBudgets cfg) eqn:Er; cbn in Hrun.
  { eapply Hnext; [|done|unfold failures; cbn; by rewrite Etm]. cbn. by rewrite Etm. }
  destruct Hrun as (d & t2 & -> & Hrun). clear Hnext.
  assert (issued (evictionCall cfg (pod :: pods))
    [Ev (Res:=resp) ev (Some err); Ev (CDeletePod pod) d]) as Hiss2
    by (constructor; [cbn; set_solver|]; apply Forall_singleton; cbn; set_solver).
  destruct d as [delErr|]; [destruct (IsNotFound delErr) eqn:Enf; cbn in Hrun|].
  2: { destruct Hrun as [-> [= -> ->]]. apply loopOutcome_stop; [|done..|].
       - rewrite !accepted_cons. cbn. by rewrite Enf.
       - eexists [Ev (Res:=resp) ev (Some err)], _. split_and!; [done|unfold failures; cbn; by rewrite Etm|].
         cbn. by rewrite Enf. }
  all: apply (loopOutcome_step _ _ _ _ _ [Ev (Res:=resp) ev (Some err); Ev (CDeletePod pod) _]);
    [|rewrite !accepted_cons, accepted_nil; cbn; rewrite ?Enf; lia|done|done|
      unfold failures; cbn; by rewrite Etm, ?Enf];
    rewrite !accepted_cons, accepted_nil, Er, app_nil_r; cbn; rewrite ?Enf; by apply IH.
Qed.

Lemma evictedBy_Evicted n o :
  do_Evicted (evictedBy n o) = if (n =? 0)%nat then do_Evicted o else int32 (do_Evicted o + n).
Proof.
  revert o. induction n as [|n IH]; intros o; [done|]. cbn [evictedBy Nat.eqb]. rewrite IH.
  destruct n as [|n]; cbn [Nat.eqb]; [done|]. cbn [incEvicted do_Evicted].
  rewrite int32_add_l. f_equal. lia.
Qed.

Lemma evictedBy_counters n o :
  do_Total (evictedBy n o) = do_Total o ∧ do_Evictable (evictedBy n o) = do_Evictable o ∧
  do_Terminating (evictedBy n o) = do_Terminating o ∧
  do_StuckTerminating (evictedBy n o) = do_StuckTerminating o ∧
  do_StuckPods (evictedBy n o) = do_StuckPods o.
Proof. revert o. induction n as [|n IH]; intros o; [done|]. cbn. by destruct (IH (incEvicted o)). Qed.

(** The executions of the drain of a node: the pod list failed, or the loop ran
    over the evictable pods of the list. *)
Lemma drainNode_run plan node cfg t o err :
  getDrainConfig plan = Some cfg →
  run (drainNode plan node) t (o, err) →
  (∃ e, t = [Ev (CListPods (n_Name node)) (inl e)] ∧ o = zeroOutcome ∧
     ∃ e', err = Some e' ∧ plainError e') ∨
  ∃ pods now t' res,
    t = Ev (CListPods (n_Name node)) (inr pods) :: Ev CNow now :: t' ∧
    let r := classifyPods pods cfg now in
    loopOutcome cfg (initialOutcome r) [] (fr_Evictable r) t' o res ∧
    err = match res with
          | inl e => Some e
          | inr pdb => blockedResult (n_Name node) (fr_Blocked r) pdb
          end.
Proof.
  intros Hcfg Hrun. unfold drainNode in Hrun. rewrite Hcfg in Hrun.
  apply run_bind in Hrun as (t1 & r & t2 & -> & Hf & Hrun).
  cbn in Hf. destruct Hf as (lr & t3 & -> & Hf). destruct lr as [e|pods].
  - left. destruct Hf as [-> ->]. destruct Hrun as [-> [= -> ->]].
    exists e. split_and!; [done|done|]. by eexists.
  - right. destruct Hf as (now & t4 & -> & -> & ->). cbn [app].
    apply run_bind in Hrun as (t5 & [o1 res] & t6 & -> & Hloop & Hrun).
    apply evictLoop_run in Hloop.
    exists pods, now, t5, res.
    destruct res as [e|pdb]; destruct Hrun as [-> [= -> ->]]; rewrite app_nil_r; by split_and!.
Qed.

(** Drain only ever removes pods the classification calls evictable.  In
    every execution of [drainNode], against any cluster, an eviction names a pod
    of the node's own pod list that is evictable under the plan's options, with
    the configured grace period; a pod is deleted directly only when the plan
    waives disruption budgets; nothing else is written. *)
Lemma drainNode_events plan node t o err :
  run (drainNode plan node) t (o, err) →
  ∀ e, e ∈ t →
  let allowed pod (cond : drainConfig → Prop) :=
    ∃ cfg pods, getDrainConfig plan = Some cfg ∧ Ev (CListPods (n_Name node)) (inr pods) ∈ t ∧
      pod ∈ pods ∧ evictable cfg pod = true ∧ cond cfg in
  match ev_act e with
  | CListPods name => name = n_Name node
  | CNow => True
  | CEvict pod grace => allowed pod (λ cfg, grace = dc_PodTerminationGracePeriodSeconds cfg)
  | CDeletePod pod => allowed pod (λ cfg, dc_RespectPodDisruptionBudgets cfg = false)
  | _ => False
  end.
Proof.
  intros Hrun e He allowed. destruct (getDrainConfig plan) as [cfg|] eqn:Hcfg.
  2: { unfold drainNode in Hrun. rewrite Hcfg in Hrun. destruct Hrun as [-> _]. by inversion He. }
  destruct (drainNode_run _ _ _ _ _ _ Hcfg Hrun) as
    [(e' & -> & _)|(pods & now & t' & res & -> & (_ & _ & Hi & _) & _)].
  { by apply list_elem_of_singleton in He as ->. }
  rewrite !elem_of_cons in He. destruct He as [->|[->|He]]; [done|done|].
  unfold issued in Hi. rewrite Forall_forall in Hi. specialize (Hi e).
  rewrite <-list_elem_of_In in Hi. specialize (Hi He). revert Hi.
  assert (∀ pod (cond : drainConfig → Prop), cond cfg →
    pod ∈ fr_Evictable (classifyPods pods cfg now) → allowed pod cond) as Hallowed.
  { intros pod cond Hc Hpod. unfold classifyPods in Hpod. rewrite classifyPods_acc in Hpod.
    apply elem_of_keep in Hpod as [Hev Hin]. exists cfg, pods. split_and!; [done| |done..].
    rewrite !elem_of_cons. by left. }
  destruct (ev_act e); cbn [evictionCall]; [done..| | |done|done|done|done|done|done|done|done|done];
    intros [Hin Hc]; by apply Hallowed.
Qed.

(** ** A drained node is empty *)

(** The eviction of the pod was answered "not found". *)
Definition goneDuring (t : ktrace) (pod : Pod) : Prop :=
  ∃ grace err, Ev (CEvict pod grace) (Some err) ∈ t ∧ IsNotFound err = true.

(** A loop that went through with nothing accepted and nothing refused found
    every pod already gone. *)
Lemma evictLoop_gone cfg o pdb pods t o' pdb' :
  run (evictLoop cfg o pdb pods) t (o', inr pdb') →
  accepted t = 0%nat → (dc_RespectPodDisruptionBudgets cfg = true → refused t = []) →
  ∀ pod, pod ∈ pods → goneDuring t pod.
Proof.
  revert o pdb t. induction pods as [|pod pods IH]; intros o pdb t Hrun Hacc Href.
  { intros ? []%elem_of_nil. }
  cbn in Hrun. destruct Hrun as (r & t1 & -> & Hrun).
  rewrite accepted_cons in Hacc. rewrite refused_cons in Href.
  destruct r as [err|]; [|done]. cbn in Hacc, Href.
  destruct (IsTooManyRequests err).
  - destruct (dc_RespectPodDisruptionBudgets cfg) eqn:Er; cbn in Hrun; [by specialize (Href eq_refl)|].
    destruct Hrun as (d & t2 & -> & Hrun). rewrite accepted_cons in Hacc.
    destruct d as [delErr|]; [|done]. cbn in Hacc.
    destruct (IsNotFound delErr); cbn in Hrun; [lia|]. by destruct Hrun as [_ [=]].
  - destruct (IsNotFound err) eqn:Enf; cbn in Hrun; [|by destruct Hrun as [_ [=]]].
    assert (∀ x, x ∈ pods → goneDuring t1 x) as Hrest by (by eapply IH).
    intros x [->|Hx]%elem_of_cons.
    + eexists _, err. split; [apply list_elem_of_here|done].
    + destruct (Hrest x Hx) as (g & er & Hin & Hnf). exists g, er.
      split; [by apply list_elem_of_further|done].
Qed.

(** Pod lists whose length fits an [int32]. *)
Definition podListsFit (t : ktrace) : Prop :=
  ∀ name pods, Ev (CListPods name) (inr pods) ∈ t → length pods < 2 ^ 31.

Definition podListFits (e : event resp) : bool :=
  match e with
  | Ev c r =>
      match c return resp c → bool with
      | CListPods _ => λ r, match r with inl _ => true | inr pods => length pods <? 2 ^ 31 end
      | _ => λ _, true
      end r
  end.

Lemma podListsFit_check t : forallb podListFits t = true → podListsFit t.
Proof.
  rewrite forallb_forall. intros Hall name pods Hin. apply list_elem_of_In in Hin.
  specialize (Hall _ Hin). by apply Z.ltb_lt.
Qed.

Lemma keep_length f pods : (length (keep f pods) ≤ length pods)%nat.
Proof. apply length_filter. Qed.

Lemma len32_keep f pods : length pods < 2 ^ 31 → len32 (keep f pods) = length (keep f pods).
Proof. intros. pose proof (keep_length f pods). apply int32_id. unfold isInt32. lia. Qed.

Lemma keep_nil f pods pod : length (keep f pods) = 0%nat → pod ∈ pods → f pod = false.
Proof.
  intros Hn%nil_length_inv Hin. destruct (f pod) eqn:E; [|done].
  assert (pod ∈ keep f pods) as He by (by apply elem_of_keep). rewrite Hn in He.
  by apply elem_of_nil in He.
Qed.

(** A drain without error, evictions, terminating or stuck pods: each pod of the
    list is one drain leaves alone, or was found gone. *)
Lemma drainNode_empty plan node cfg t o :
  getDrainConfig plan = Some cfg → run (drainNode plan node) t (o, None) → podListsFit t →
  do_Evicted o = 0 → do_Terminating o = 0 → do_StuckTerminating o = 0 →
  ∃ pods, Ev (CListPods (n_Name node)) (inr pods) ∈ t ∧
    ∀ pod, pod ∈ pods → skipped cfg pod = true ∨ goneDuring t pod.
Proof.
  intros Hcfg Hrun Hfit Hev Hte Hst. unfold drainNode in Hrun. rewrite Hcfg in Hrun.
  apply run_bind in Hrun as (t1 & r & t2 & -> & Hf & Hrun).
  cbn in Hf. destruct Hf as (lr & t3 & -> & Hf). destruct lr as [e|pods].
  { destruct Hf as [-> ->]. by destruct Hrun as [_ [=]]. }
  destruct Hf as (now & t4 & -> & -> & ->).
  apply run_bind in Hrun as (t5 & [o1 res] & t6 & -> & Hloop & Hrun).
  exists pods. split; [set_solver|].
  destruct res as [e|pdb]; [by destruct Hrun as [_ [=]]|].
  destruct Hrun as [-> [= -> Hres]]. cbn [fst snd] in *.
  pose proof (Hfit (n_Name node) pods ltac:(set_solver)) as Hlen.
  pose proof (evictLoop_run _ _ _ _ _ _ _ Hloop) as (Ho & Hle & _ & _ & _ & _ & Hpdb).
  subst o1. destruct (evictedBy_counters (accepted t5) (initialOutcome (classifyPods pods cfg now)))
    as (_ & _ & H3 & H4 & _).
  rewrite H3 in Hte. rewrite H4 in Hst. rewrite evictedBy_Evicted in Hev.
  unfold classifyPods in *. rewrite classifyPods_acc in *. cbn in Hte, Hst, Hle, Hres, Hev, Hloop.
  rewrite len32_keep in Hte, Hst by done.
  assert (accepted t5 = 0%nat) as Hacc.
  { destruct (accepted t5) as [|k] eqn:E; [done|]. pose proof (keep_length (evictable cfg) pods).
    cbn -[Z.of_nat int32] in Hev.
    rewrite int32_id in Hev by (unfold isInt32; lia). lia. }
  destruct (keep (blocked cfg) pods) as [|b bs] eqn:Hb; [|done].
  destruct pdb; [|done]. cbn [app] in Hpdb.
  intros pod Hpod. destruct (bucket_unique cfg now pod) as [E|[E|[E|[E|E]]]]; simplify_eq.
  - right. destruct (evictLoop_gone _ _ _ _ _ _ _ Hloop Hacc) with (pod := pod) as (g & er & Hin & Hnf).
    { intros Hr. by rewrite Hr in Hpdb. }
    { by apply elem_of_keep. }
    exists g, er. split; [set_solver|done].
  - assert (blocked cfg pod = false); [|congruence]. apply (keep_nil _ pods); [by rewrite Hb|done].
  - assert (terminating now pod = false); [|congruence]. apply (keep_nil _ pods); [lia|done].
  - assert (stuckTerminating now pod = false); [|congruence]. apply (keep_nil _ pods); [lia|done].
  - by left.
Qed.

(** A node with a pod owned by a ReplicaSet and a bare pod; every eviction is
    accepted. *)
Definition exampleController : OwnerReference := MkOwnerReference "ReplicaSet" (Some true).

Definition drainTables : tables :=
  MkTables [] (λ _, [examplePod "web" [exampleController]; examplePod "bare" []]) [] []
    (λ _, None) 0.

Definition runDrain (plan : NodeMaintenancePlan) (node : Node) : ktrace * (drainOutcome * option error) :=
  (interp (tableEnv drainTables) (drainNode plan node) tt).1.

Lemma runDrain_run plan node :
  run (drainNode plan node) (runDrain plan node).1 (runDrain plan node).2.
Proof.
  unfold runDrain. destruct (interp _ _ _) as [[t r] []] eqn:E. by eapply interp_run.
Qed.

(** C21: the result of draining one node, for every behaviour of the cluster.
    When drain is enabled the pods of the node are listed once; if that fails the
    outcome is empty and the error an ordinary one.  Otherwise the counters are
    the sizes of the buckets (as [int32]), [Evicted] counts the requests that removed
    a pod and is at most the number of evictable pods, and the error says what
    happened: none exactly when no request failed, no pod blocks and every evictable
    pod was asked to go; a blocking error when no request failed either, naming the
    config-blocked pods if there are any, else the pods a budget refused; and the
    error of the request, an ordinary one, when an eviction or deletion failed (other
    than by a refused budget or a missing pod): that request was the last one. *)
Theorem drainNode_outcome plan node cfg t o err :
  getDrainConfig plan = Some cfg →
  run (drainNode plan node) t (o, err) →
  (∃ e e', t = [Ev (CListPods (n_Name node)) (inl e)] ∧ o = zeroOutcome ∧
     err = Some e' ∧ plainError e') ∨
  ∃ pods now t',
    t = Ev (CListPods (n_Name node)) (inr pods) :: Ev CNow now :: t' ∧
    let r := classifyPods pods cfg now in
    do_Total o = int32 (length (fr_Evictable r) + length (fr_Blocked r)
                        + length (fr_Terminating r) + length (fr_StuckTerminating r)) ∧
    do_Evictable o = len32 (fr_Evictable r) ∧ do_Terminating o = len32 (fr_Terminating r) ∧
    do_StuckTerminating o = len32 (fr_StuckTerminating r) ∧
    do_StuckPods o = fr_StuckTerminating r ∧
    do_Evicted o = int32 (accepted t') ∧ (accepted t' ≤ length (fr_Evictable r))%nat ∧
    let refusals := if dc_RespectPodDisruptionBudgets cfg then refused t' else [] in
    match err with
    | None => failures t' = [] ∧ fr_Blocked r = [] ∧ refusals = [] ∧ requested t' = fr_Evictable r
    | Some e =>
        match asDrainBlocked e with
        | Some b =>
            failures t' = [] ∧ db_node b = n_Name node ∧ db_pods b ≠ [] ∧ requested t' = fr_Evictable r ∧
            (if db_pdbBlocked b then fr_Blocked r = [] ∧ db_pods b = refusals
             else db_pods b = fr_Blocked r)
        | None => asNodeNotReady e = None ∧ stoppedBy e t' ∧ requested t' `prefix_of` fr_Evictable r
        end
    end.
Proof.
  intros Hcfg Hrun.
  destruct (drainNode_run _ _ _ _ _ _ Hcfg Hrun) as
    [(e & -> & -> & e' & -> & He)|(pods & now & t' & res & -> & (Ho & Hle & _ & Hp & Hres) & ->)].
  { left. exists e, e'. by split_and!. }
  right. exists pods, now, t'. split; [done|]. set (r := classifyPods pods cfg now) in *.
  destruct (evictedBy_counters (accepted t') (initialOutcome r)) as (H1 & H2 & H3 & H4 & H5).
  rewrite Ho, H1, H2, H3, H4, H5, evictedBy_Evicted. cbn zeta.
  split_and!; [done..| |done|].
  - cbn. destruct (accepted t'); [done|]. by rewrite Z.add_0_l.
  - destruct res as [e|pdb]; [by destruct Hres as [[-> ->] Hst]|]. destruct Hres as (Hreq & Hf & ->).
    cbn [app]. destruct (fr_Blocked r) as [|p ps]; cbn [blockedResult]; [|by split_and!].
    destruct (if dc_RespectPodDisruptionBudgets cfg then _ else _); cbn; by split_and!.
Qed.

Lemma drainNode_outcome_witness :
  getDrainConfig (examplePlan ["n1"]) = Some strictConfig ∧
  let r := runDrain (examplePlan ["n1"]) (exampleNode "n1") in
  (do_Evicted r.2.1 = 1 ∧ do_Total r.2.1 = 2) ∧
  ∃ pods now, ∃ t' : ktrace,
    r.1 = Ev (CListPods "n1") (inr pods) :: Ev CNow now :: t' ∧
    do_Evicted r.2.1 = int32 (accepted t').
Proof.
  assert (getDrainConfig (examplePlan ["n1"]) = Some strictConfig) as Hcfg by reflexivity.
  split; [exact Hcfg|]. split; [split; reflexivity|].
  assert (run (drainNode (examplePlan ["n1"]) (exampleNode "n1"))
    (runDrain (examplePlan ["n1"]) (exampleNode "n1")).1
    ((runDrain (examplePlan ["n1"]) (exampleNode "n1")).2.1,
     (runDrain (examplePlan ["n1"]) (exampleNode "n1")).2.2)) as Hrun
    by (rewrite <-surjective_pairing; apply runDrain_run).
  destruct (drainNode_outcome _ _ _ _ _ _ Hcfg Hrun) as
    [(e & e' & Ht & _)|(pods & now & t' & Ht & H)].
  - apply (f_equal length) in Ht. vm_compute in Ht. discriminate.
  - exists pods, now, t'. split; [exact Ht|].
    exact (proj1 (proj2 (proj2 (proj2 (proj2 (proj2 H)))))).
Defined.
