(* ===== verification/DrainStatus.v ===== *)
(** * Drain bookkeeping in the plan status (drain_reconcile.go, pure part)

    How the outcome of one node's drain pass is written into its [NodeStatus],
    when a node and the plan become ready, the three drain conditions, and the
    plan-level summaries of status.go that are recomputed after them. *)
From S2P Require Import Prelude GoTime Api Prog Kube Conditions Drift Filters DrainNode.

(** Reversed application, to read a chain of assignments top down. *)
Notation "x |> f" := (f x) (at level 61, left associativity, only parsing).

Definition mapNodes (f : list NodeStatus → list NodeStatus) (plan : NodeMaintenancePlan)
    : NodeMaintenancePlan := updStatus (λ s, set_ps_Nodes (f (ps_Nodes s)) s) plan.

(** The assignments of [updateNodeDrainStatus] to the matching entry. *)
Definition applyOutcome (outcome : drainOutcome) (issues : list NodeIssue) (ns : NodeStatus)
    : NodeStatus :=
  let ns :=
    if (ns_InitialPodCount ns =? 0) && (0 <? do_Total outcome)
    then set_ns_InitialPodCount (do_Total outcome) ns else ns in
  let ns := ns
    |> set_ns_TotalPods (do_Total outcome)
    |> set_ns_EvictablePods (do_Evictable outcome)
    |> set_ns_BlockedPods
         (int32 (int32 (do_Total outcome - do_Evictable outcome) - do_Terminating outcome))
    |> set_ns_EvictedTotal (int32 (ns_EvictedTotal ns + do_Evicted outcome))
    |> set_ns_Issues issues in
  if 0 <? ns_InitialPodCount ns then
    let remaining := Z.min (do_Total outcome) (ns_InitialPodCount ns) in
    set_ns_DrainProgress
      (int32 (Z.quot (int32 (int32 (ns_InitialPodCount ns - remaining) * 100))
                     (ns_InitialPodCount ns))) ns
  else ns.

Definition updateNodeDrainStatus (nodeName : string) (outcome : drainOutcome)
    (issues : list NodeIssue) (plan : NodeMaintenancePlan) : NodeMaintenancePlan :=
  mapNodes (updateFirst (λ ns, bool_decide (ns_Name ns = nodeName)) (applyOutcome outcome issues))
    plan.

Definition setNodeIssues (nodeName : string) (issues : list NodeIssue)
    (plan : NodeMaintenancePlan) : NodeMaintenancePlan :=
  mapNodes (updateFirst (λ ns, bool_decide (ns_Name ns = nodeName)) (set_ns_Issues issues)) plan.

(** The plan and whether the flag was newly set. *)
Definition markNodeReadyForMaintenance (nodeName : string) (plan : NodeMaintenancePlan)
    : NodeMaintenancePlan * bool :=
  match findNodeStatus plan nodeName with
  | None => (plan, false)
  | Some ns =>
      if negb (ns_Cordoned ns) || ns_ReadyForMaintenance ns then (plan, false)
      else (mapNodes (updateFirst (λ ns, bool_decide (ns_Name ns = nodeName))
              (λ ns, ns |> set_ns_ReadyForMaintenance true |> set_ns_DrainProgress 100)) plan,
            true)
  end.

Definition wasNodeDraining (plan : NodeMaintenancePlan) (nodeName : string) : bool :=
  match findNodeStatus plan nodeName with
  | Some ns => (0 <? ns_InitialPodCount ns) && (ns_DrainProgress ns <? 100)
  | None => false
  end.

Definition allNodesReady (plan : NodeMaintenancePlan) : bool :=
  match ps_Nodes (p_Status plan) with
  | [] => false
  | nodes => forallb ns_ReadyForMaintenance nodes
  end.

Definition podRef (pod : Pod) : PodReference := MkPodReference (pod_Namespace pod) (pod_Name pod).

Definition blockedPodIssues (blocked : drainBlockedError) : list NodeIssue :=
  map (λ pod,
    if db_pdbBlocked blocked
    then MkNodeIssue "PDBBlocked" "pod eviction rejected by PodDisruptionBudget" (Some (podRef pod))
    else MkNodeIssue "ConfigBlocked"
           "pod cannot be evicted: set force=true or deleteEmptyDirData=true to proceed"
           (Some (podRef pod))) (db_pods blocked).

Definition stuckTerminatingIssues (pods : list Pod) : list NodeIssue :=
  map (λ pod, MkNodeIssue "StuckTerminating"
    "pod has not terminated after exceeding its grace period" (Some (podRef pod))) pods.

Section DrainStatus.
Context `{CO : ConditionOps}.

Definition setDrainConditions (allDone anyBlocked evictionsInFlight : bool)
    (plan : NodeMaintenancePlan) : NodeMaintenancePlan :=
  let set t status reason msg plan := setCondition plan t status reason msg in
  if allDone then plan
    |> set ConditionDrainSucceeded ConditionTrue "AllPodsEvicted"
         "All target pods have been evicted and removed from the nodes"
    |> set ConditionDrainInProgress ConditionFalse "Idle" "Drain is not in progress"
    |> set ConditionDrainBlocked ConditionFalse "Cleared" "No blocking issues"
  else if anyBlocked && negb evictionsInFlight then plan
    |> set ConditionDrainBlocked ConditionTrue "PodBlocked" "One or more pods cannot be evicted"
    |> set ConditionDrainInProgress ConditionFalse "Blocked"
         "Drain is blocked and not making progress"
    |> set ConditionDrainSucceeded ConditionFalse "Blocked" "Drain has not succeeded yet"
  else
    let plan := plan
      |> set ConditionDrainInProgress ConditionTrue "Evicting" "Pod evictions in progress"
      |> set ConditionDrainSucceeded ConditionFalse "InProgress" "Drain has not succeeded yet" in
    if anyBlocked then plan
      |> set ConditionDrainBlocked ConditionTrue "PDBBlocked"
           "One or more pods are blocked by PodDisruptionBudgets"
    else plan |> set ConditionDrainBlocked ConditionFalse "Cleared" "No blocking issues".

(** ** Plan-level summaries (status.go) *)

Definition computePhase (plan : NodeMaintenancePlan) : string :=
  if isConditionTrue plan ConditionDrainTimedOut then PhaseTimedOut
  else if isConditionTrue plan ConditionConflict then PhaseConflict
  else if ps_AllNodesReadyForMaintenance (p_Status plan) then PhaseReady
  else if isConditionTrue plan ConditionDrainBlocked then PhaseBlocked
  else if isConditionTrue plan ConditionDrainInProgress then PhaseDraining
  else if isConditionTrue plan ConditionCordoned then PhaseCordoned
  else if isConditionTrue plan ConditionScheduled then PhaseScheduled
  else if isConditionTrue plan ConditionNodesSelected then PhaseAdopted
  else PhasePending.

(** The accumulators of the loop of [recomputePlanSummaries]. *)
Record summary : Type := MkSummary {
  sm_ready : Z;
  sm_draining : Z;
  sm_blocked : Z;
  sm_totalProgress : Z;
  sm_anyDrifted : bool
}.

Definition summaryStep (acc : summary) (ns : NodeStatus) : summary :=
  let totalProgress := int32 (sm_totalProgress acc + ns_DrainProgress ns) in
  let '(ready, draining) :=
    if ns_ReadyForMaintenance ns then (int32 (sm_ready acc + 1), sm_draining acc)
    else if (0 <? ns_TotalPods ns) && (ns_BlockedPods ns <? ns_TotalPods ns)
    then (sm_ready acc, int32 (sm_draining acc + 1))
    else (sm_ready acc, sm_draining acc) in
  let blocked :=
    if (0 <? ns_BlockedPods ns) && (ns_BlockedPods ns =? ns_TotalPods ns)
    then int32 (sm_blocked acc + 1) else sm_blocked acc in
  MkSummary ready draining blocked totalProgress (sm_anyDrifted acc || ns_Drifted ns).

Definition summarise (nodes : list NodeStatus) : summary :=
  foldl summaryStep (MkSummary 0 0 0 0 false) nodes.

(** [fmt.Sprintf("%d/%d", a, b)]. *)
Definition fraction (a b : Z) : string := pretty a +:+ "/" +:+ pretty b.

(** The average progress, [totalProgress/total] in [int32]. *)
Definition averageProgress (sm : summary) (total : Z) : Z :=
  if 0 <? total then int32 (Z.quot (sm_totalProgress sm) total) else 0.

Definition recomputePlanSummaries (plan : NodeMaintenancePlan) : NodeMaintenancePlan :=
  let nodes := ps_Nodes (p_Status plan) in
  let total := len32 nodes in
  let sm := summarise nodes in
  let plan := updStatus (λ s, s
    |> set_ps_ReadySummary (fraction (sm_ready sm) total)
    |> set_ps_DrainingNodeCount (fraction (sm_draining sm) total)
    |> set_ps_BlockedNodeCount (fraction (sm_blocked sm) total)
    |> set_ps_Drifted (Some (sm_anyDrifted sm))
    |> set_ps_DrainProgress (pretty (averageProgress sm total) +:+ "%")) plan in
  updStatus (set_ps_Phase (computePhase plan)) plan.
End DrainStatus.

(** ** Reading a status back *)

Lemma findNodeStatus_mapNodes plan (f : NodeStatus → NodeStatus) name name' :
  (∀ ns, ns_Name (f ns) = ns_Name ns) →
  findNodeStatus (mapNodes (updateFirst (λ ns, bool_decide (ns_Name ns = name)) f) plan) name' =
  (if decide (name' = name) then f else id) <$> findNodeStatus plan name'.
Proof.
  intros Hf. unfold findNodeStatus. cbn. case_decide as Hn.
  - subst. apply findFirst_updateFirst_same. intros ns. by rewrite Hf.
  - rewrite option_fmap_id. apply findFirst_updateFirst_other. intros ns.
    rewrite Hf, bool_decide_eq_true, !bool_decide_eq_false. intros ->. by split.
Qed.

Lemma mapNodes_names plan p (f : NodeStatus → NodeStatus) :
  (∀ ns, ns_Name (f ns) = ns_Name ns) →
  map ns_Name (ps_Nodes (p_Status (mapNodes (updateFirst p f) plan))) =
  map ns_Name (ps_Nodes (p_Status plan)).
Proof. intros Hf. by apply map_updateFirst. Qed.

Lemma applyOutcome_Name o issues ns : ns_Name (applyOutcome o issues ns) = ns_Name ns.
Proof.
  unfold applyOutcome. destruct (_ && _); cbn [ns_Name]; destruct (0 <? _); reflexivity.
Qed.

(** ** Progress of one node *)

(** The largest number of pods whose progress fits the [int32] computation. *)
Definition maxPods : Z := 21474836.

Lemma progress_exact initial total :
  0 < initial ≤ maxPods → 0 ≤ total →
  let remaining := Z.min total initial in
  int32 (Z.quot (int32 (int32 (initial - remaining) * 100)) initial) =
    ((initial - remaining) * 100) `div` initial.
Proof.
  unfold maxPods. intros Hi Ht. cbn zeta.
  rewrite (int32_id (initial - _)) by (unfold isInt32; lia).
  rewrite (int32_id (_ * 100)) by (unfold isInt32; lia).
  rewrite Z.quot_div_nonneg by lia. apply int32_id. unfold isInt32.
  assert (0 ≤ ((initial - Z.min total initial) * 100) `div` initial ≤ 100); [|lia].
  split; [apply Z.div_pos; lia|]. apply Z.div_le_upper_bound; lia.
Qed.

Lemma applyOutcome_initial o issues ns :
  ns_InitialPodCount (applyOutcome o issues ns) =
  (if (ns_InitialPodCount ns =? 0) && (0 <? do_Total o) then do_Total o
   else ns_InitialPodCount ns).
Proof. unfold applyOutcome. destruct (_ && _); cbn; by destruct (0 <? _). Qed.

Lemma applyOutcome_DrainProgress o issues ns :
  ns_DrainProgress (applyOutcome o issues ns) =
  let initial := ns_InitialPodCount (applyOutcome o issues ns) in
  if 0 <? initial
  then int32 (Z.quot (int32 (int32 (initial - Z.min (do_Total o) initial) * 100)) initial)
  else ns_DrainProgress ns.
Proof.
  cbn zeta. rewrite applyOutcome_initial. unfold applyOutcome.
  destruct (_ && _); cbn; by destruct (0 <? _).
Qed.

(** C37: the progress of a node, as long as its pod counts stay within 0 and
    21474836 (beyond that the code's int32 product with 100 overflows) and its
    recorded progress within 0 and 100.  After a drain pass over its pods, the
    initial pod count is the first positive total that a drain pass has seen (not
    the count when the node was cordoned) and never changes again; once it is set the progress is the percentage of the initial pods
    that are gone, rounded down, between 0 and 100, and it is 100 exactly when
    no pod is left. *)
Theorem applyOutcome_progress o issues ns :
  0 ≤ do_Total o ≤ maxPods → 0 ≤ ns_InitialPodCount ns ≤ maxPods →
  0 ≤ ns_DrainProgress ns ≤ 100 →
  let ns' := applyOutcome o issues ns in
  let initial := ns_InitialPodCount ns' in
  initial = (if ns_InitialPodCount ns =? 0 then do_Total o else ns_InitialPodCount ns) ∧
  0 ≤ ns_DrainProgress ns' ≤ 100 ∧
  (0 < initial →
     ns_DrainProgress ns' = ((initial - Z.min (do_Total o) initial) * 100) `div` initial ∧
     (ns_DrainProgress ns' = 100 ↔ do_Total o = 0)).
Proof.
  intros Ht Hi Hp ns' initial.
  assert (initial = if ns_InitialPodCount ns =? 0 then do_Total o else ns_InitialPodCount ns)
    as Hinit.
  { subst initial ns'. rewrite applyOutcome_initial.
    destruct (Z.eqb_spec (ns_InitialPodCount ns) 0), (Z.ltb_spec 0 (do_Total o)); cbn; lia. }
  assert (0 ≤ initial ≤ maxPods) as Hr by (rewrite Hinit; case_match; lia).
  split; [done|].
  pose proof (applyOutcome_DrainProgress o issues ns) as Hd. cbn zeta in Hd. fold ns' initial in Hd.
  destruct (Z.ltb_spec 0 initial) as [Hpos|Hneg]; [|rewrite Hd; split; [done|lia]].
  rewrite progress_exact in Hd by lia. rewrite Hd.
  set (r := Z.min (do_Total o) initial) in *.
  assert (0 ≤ r ≤ initial) as Hrem by (subst r; lia).
  pose proof (Z.div_mod ((initial - r) * 100) initial ltac:(lia)) as Hdm.
  pose proof (Z.mod_pos_bound ((initial - r) * 100) initial ltac:(lia)) as Hm.
  split; [nia|]. intros _. split; [done|]. split; [|intros H0].
  - intros H100. rewrite H100 in Hdm. assert (r = 0) by nia. subst r. lia.
  - replace r with 0 by lia. rewrite Z.sub_0_r, Z.mul_comm. apply Z.div_mul. lia.
Qed.

Lemma applyOutcome_progress_witness :
  let o := MkDrainOutcome 1 3 1 0 2 [] in
  let ns := set_ns_InitialPodCount 8 zeroNodeStatus in
  ns_DrainProgress (applyOutcome o [] ns) = 62 ∧
  (ns_DrainProgress (applyOutcome o [] ns) = 100 ↔ do_Total o = 0).
Proof.
  cbn zeta. split; [reflexivity|].
  exact (proj2 (proj2 (proj2 (applyOutcome_progress (MkDrainOutcome 1 3 1 0 2 []) []
    (set_ns_InitialPodCount 8 zeroNodeStatus)
    ltac:(split; discriminate) ltac:(split; discriminate) ltac:(split; discriminate))) eq_refl)).
Defined.

(** ** The drain conditions and the phase *)
Section ConditionTheorems.
Context `{CL : ConditionLaws}.

Lemma setDrainConditions_effect allDone anyBlocked evictionsInFlight plan :
  let plan' := setDrainConditions allDone anyBlocked evictionsInFlight plan in
  isConditionTrue plan' ConditionDrainSucceeded = allDone ∧
  isConditionTrue plan' ConditionDrainBlocked = negb allDone && anyBlocked ∧
  isConditionTrue plan' ConditionDrainInProgress =
    negb allDone && (evictionsInFlight || negb anyBlocked) ∧
  (∀ t, t ∉ [ConditionDrainSucceeded; ConditionDrainBlocked; ConditionDrainInProgress] →
     isConditionTrue plan' t = isConditionTrue plan t) ∧
  ps_Nodes (p_Status plan') = ps_Nodes (p_Status plan).
Proof.
  cbn zeta. unfold setDrainConditions.
  destruct allDone, anyBlocked, evictionsInFlight; cbn [negb andb orb]; cbv zeta beta;
    (split_and!; [cond_simpl; reflexivity..| |reflexivity]);
    intros t Ht; rewrite !isConditionTrue_set_other by set_solver; reflexivity.
Qed.

(** The three drain conditions after a pass.  [DrainSucceeded] says every
    node is drained, [DrainBlocked] that some node is blocked, [DrainInProgress]
    that there is work left and it is not all blocked; hence a drain is never
    both succeeded and in progress or blocked, and until it has succeeded at
    least one of the other two holds.  No other condition changes. *)
Theorem setDrainConditions_verdict allDone anyBlocked evictionsInFlight plan :
  let plan' := setDrainConditions allDone anyBlocked evictionsInFlight plan in
  isConditionTrue plan' ConditionDrainSucceeded = allDone ∧
  isConditionTrue plan' ConditionDrainBlocked = negb allDone && anyBlocked ∧
  isConditionTrue plan' ConditionDrainInProgress =
    negb allDone && (evictionsInFlight || negb anyBlocked) ∧
  (∀ t, t ∉ [ConditionDrainSucceeded; ConditionDrainBlocked; ConditionDrainInProgress] →
     isConditionTrue plan' t = isConditionTrue plan t) ∧
  ps_Nodes (p_Status plan') = ps_Nodes (p_Status plan).
Proof. apply setDrainConditions_effect. Qed.

(** The phase says what the conditions say, the worst first: each of the
    nine phases is reported exactly under its own circumstances. *)
Theorem computePhase_iff plan :
  let timedOut := isConditionTrue plan ConditionDrainTimedOut in
  let conflict := isConditionTrue plan ConditionConflict in
  let ready := ps_AllNodesReadyForMaintenance (p_Status plan) in
  let blocked := isConditionTrue plan ConditionDrainBlocked in
  let draining := isConditionTrue plan ConditionDrainInProgress in
  let cordoned := isConditionTrue plan ConditionCordoned in
  let scheduled := isConditionTrue plan ConditionScheduled in
  let selected := isConditionTrue plan ConditionNodesSelected in
  let phase := computePhase plan in
  let quiet := negb (timedOut || conflict || ready || blocked || draining) in
  (phase = PhaseTimedOut ↔ timedOut = true) ∧
  (phase = PhaseConflict ↔ conflict && negb timedOut = true) ∧
  (phase = PhaseReady ↔ ready && negb (timedOut || conflict) = true) ∧
  (phase = PhaseBlocked ↔ blocked && negb (timedOut || conflict || ready) = true) ∧
  (phase = PhaseDraining ↔ draining && negb (timedOut || conflict || ready || blocked) = true) ∧
  (phase = PhaseCordoned ↔ cordoned && quiet = true) ∧
  (phase = PhaseScheduled ↔ scheduled && negb cordoned && quiet = true) ∧
  (phase = PhaseAdopted ↔ selected && negb cordoned && negb scheduled && quiet = true) ∧
  (phase = PhasePending ↔
     negb selected && negb cordoned && negb scheduled && quiet = true).
Proof.
  cbn zeta. unfold computePhase.
  destruct (isConditionTrue plan ConditionDrainTimedOut),
    (isConditionTrue plan ConditionConflict),
    (ps_AllNodesReadyForMaintenance (p_Status plan)),
    (isConditionTrue plan ConditionDrainBlocked),
    (isConditionTrue plan ConditionDrainInProgress),
    (isConditionTrue plan ConditionCordoned),
    (isConditionTrue plan ConditionScheduled),
    (isConditionTrue plan ConditionNodesSelected); cbn [negb andb orb];
    split_and!; split; solve [done | intros H; vm_compute in H; discriminate].
Qed.
End ConditionTheorems.

Lemma setDrainConditions_verdict_witness :
  isConditionTrue (setDrainConditions false true true (examplePlan ["n1"])) ConditionDrainInProgress
  = true.
Proof.
  exact (proj1 (proj2 (proj2 (setDrainConditions_verdict false true true (examplePlan ["n1"]))))).
Defined.

(** ** Plan-level summaries *)

Definition isDraining (ns : NodeStatus) : bool :=
  negb (ns_ReadyForMaintenance ns) && (0 <? ns_TotalPods ns) && (ns_BlockedPods ns <? ns_TotalPods ns).

Definition isBlocked (ns : NodeStatus) : bool :=
  (0 <? ns_BlockedPods ns) && (ns_BlockedPods ns =? ns_TotalPods ns).

(** The number of statuses a predicate holds of. *)
Fixpoint count (p : NodeStatus → bool) (nodes : list NodeStatus) : nat :=
  match nodes with [] => 0 | ns :: nodes => (if p ns then 1 else 0) + count p nodes end.

Definition sumProgress (nodes : list NodeStatus) : Z := foldr (λ ns z, ns_DrainProgress ns + z) 0 nodes.

Lemma count_le p nodes : (count p nodes ≤ length nodes)%nat.
Proof. induction nodes as [|ns nodes IH]; cbn; [lia|]. destruct (p ns); lia. Qed.

Lemma count_disjoint p q nodes :
  (∀ ns, p ns = true → q ns = false) → (count p nodes + count q nodes ≤ length nodes)%nat.
Proof.
  intros H. induction nodes as [|ns nodes IH]; cbn; [lia|].
  specialize (H ns). destruct (p ns); [rewrite (H eq_refl)|destruct (q ns)]; lia.
Qed.

Lemma sumProgress_bounds nodes :
  (∀ ns, ns ∈ nodes → 0 ≤ ns_DrainProgress ns ≤ 100) → 0 ≤ sumProgress nodes ≤ 100 * length nodes.
Proof.
  induction nodes as [|ns nodes IH]; intros H; [done|]. cbn [sumProgress foldr length].
  fold (sumProgress nodes). pose proof (H ns (list_elem_of_here _ _)).
  specialize (IH (λ x Hx, H x (list_elem_of_further _ _ _ Hx))). lia.
Qed.

Lemma foldl_summary nodes r d b p dr :
  foldl summaryStep (MkSummary (int32 r) (int32 d) (int32 b) (int32 p) dr) nodes =
  MkSummary (int32 (r + count ns_ReadyForMaintenance nodes)) (int32 (d + count isDraining nodes))
    (int32 (b + count isBlocked nodes)) (int32 (p + sumProgress nodes))
    (dr || existsb ns_Drifted nodes).
Proof.
  revert r d b p dr. induction nodes as [|ns nodes IH]; intros r d b p dr; cbn [foldl].
  { cbn. by rewrite !Z.add_0_r, orb_false_r. }
  assert (summaryStep (MkSummary (int32 r) (int32 d) (int32 b) (int32 p) dr) ns =
    MkSummary (int32 (r + (if ns_ReadyForMaintenance ns then 1 else 0)))
      (int32 (d + (if isDraining ns then 1 else 0))) (int32 (b + (if isBlocked ns then 1 else 0)))
      (int32 (p + ns_DrainProgress ns)) (dr || ns_Drifted ns)) as ->.
  { unfold summaryStep, isDraining, isBlocked. cbn [sm_totalProgress sm_ready sm_draining sm_blocked].
    rewrite int32_add_l.
    destruct (ns_ReadyForMaintenance ns), (0 <? ns_TotalPods ns), (ns_BlockedPods ns <? ns_TotalPods ns),
      (0 <? ns_BlockedPods ns), (ns_BlockedPods ns =? ns_TotalPods ns); cbn [negb andb];
      by rewrite ?int32_add_l, ?Z.add_0_r. }
  rewrite IH. cbn [count existsb sumProgress foldr]. fold (sumProgress nodes).
  f_equal; [..|by rewrite orb_assoc]; f_equal; repeat case_match; lia.
Qed.

Lemma summarise_spec nodes :
  summarise nodes =
  MkSummary (int32 (count ns_ReadyForMaintenance nodes)) (int32 (count isDraining nodes))
    (int32 (count isBlocked nodes)) (int32 (sumProgress nodes)) (existsb ns_Drifted nodes).
Proof. exact (foldl_summary nodes 0 0 0 0 false). Qed.

Section SummaryTheorem.
Context `{CO : ConditionOps}.

(** The plan-level summaries.  For any status whose node progresses are
    percentages and that has fewer than 21 million nodes, no counter overflows:
    the summaries count the ready, the draining and the blocked nodes, the ready
    and the draining ones are disjoint, the plan's progress is the average of
    the nodes' rounded down and again a percentage, and the phase is computed
    from the conditions, which, like the node statuses, are left alone. *)
Theorem recomputePlanSummaries_spec plan :
  let nodes := ps_Nodes (p_Status plan) in
  length nodes ≤ maxPods → (∀ ns, ns ∈ nodes → 0 ≤ ns_DrainProgress ns ≤ 100) →
  let plan' := recomputePlanSummaries plan in
  let s' := p_Status plan' in
  let average := sumProgress nodes `div` length nodes in
  ps_ReadySummary s' = fraction (count ns_ReadyForMaintenance nodes) (length nodes) ∧
  ps_DrainingNodeCount s' = fraction (count isDraining nodes) (length nodes) ∧
  ps_BlockedNodeCount s' = fraction (count isBlocked nodes) (length nodes) ∧
  (count ns_ReadyForMaintenance nodes + count isDraining nodes ≤ length nodes)%nat ∧
  ps_DrainProgress s' = pretty average +:+ "%" ∧ 0 ≤ average ≤ 100 ∧
  ps_Drifted s' = Some (existsb ns_Drifted nodes) ∧
  ps_Phase s' = computePhase plan ∧
  ps_Nodes s' = nodes ∧ ps_Conditions s' = ps_Conditions (p_Status plan).
Proof.
  intros nodes Hlen Hp plan' s' average.
  pose proof (sumProgress_bounds nodes Hp) as Hsum.
  assert (∀ p, int32 (count p nodes) = count p nodes) as Hcount.
  { intros p. pose proof (count_le p nodes). apply int32_id. unfold isInt32, maxPods in *. lia. }
  assert (len32 nodes = length nodes) as Hl
    by (apply int32_id; unfold isInt32, maxPods in *; lia).
  assert (0 ≤ average ≤ 100) as Havg.
  { subst average. destruct (decide (length nodes = 0%nat)) as [E|E].
    - rewrite E, Zdiv_0_r. lia.
    - split; [apply Z.div_pos; lia|]. apply Z.div_le_upper_bound; lia. }
  subst s' plan'. unfold recomputePlanSummaries. fold nodes. rewrite summarise_spec. cbn [sm_ready
    sm_draining sm_blocked sm_anyDrifted p_Status updStatus]. rewrite Hl, !Hcount.
  do 3 (split; [reflexivity|]). split; [|split; [|split; [done|repeat split]]].
  - apply count_disjoint. intros ns Hr. unfold isDraining. by rewrite Hr.
  - cbn. f_equal. f_equal. unfold averageProgress. cbn.
    rewrite (int32_id (sumProgress nodes)) by (unfold isInt32, maxPods in *; lia).
    subst average. destruct (Z.ltb_spec 0 (length nodes)) as [H|H].
    + rewrite Z.quot_div_nonneg by lia. apply int32_id. unfold isInt32. lia.
    + replace (length nodes : Z) with 0 by lia. by rewrite Zdiv_0_r.
Qed.
End SummaryTheorem.

Lemma recomputePlanSummaries_spec_witness :
  let node name progress total blocked :=
    set_ns_Name name (set_ns_DrainProgress progress (set_ns_TotalPods total
      (set_ns_BlockedPods blocked zeroNodeStatus))) in
  let plan := updStatus (set_ps_Nodes [node "n1" 50 4 1; node "n2" 25 2 2]) (examplePlan ["n1"]) in
  ps_DrainProgress (p_Status (recomputePlanSummaries plan)) = "37%" ∧
  ps_BlockedNodeCount (p_Status (recomputePlanSummaries plan)) = "1/2".
Proof.
  intros node plan.
  assert (length (ps_Nodes (p_Status plan)) ≤ maxPods) as H1 by (vm_compute; discriminate).
  assert (∀ ns, ns ∈ ps_Nodes (p_Status plan) → 0 ≤ ns_DrainProgress ns ≤ 100) as H2.
  { intros ns [->|[->|[]%elem_of_nil]%elem_of_cons]%elem_of_cons; vm_compute; split; discriminate. }
  destruct (recomputePlanSummaries_spec plan H1 H2) as (_ & _ & Hb & _ & Hp & _).
  split; [exact Hp|exact Hb].
Defined.
