(* ===== verification/DrainPool.v ===== *)
(** * The drain worker pool ([drainNodes] of drain_reconcile.go)

    [drainNodes] starts one goroutine per node; a buffered channel of capacity
    [maxParallel] admits at most that many of them into [drainNode] at a time,
    and a wait group joins them.  [pool_step] is that machine, one step per
    channel operation or environment call of a goroutine, in any interleaving.
    [drainNodes] is the schedule that runs the goroutines one after the other:
    the refinement theorem below shows that every run of the machine ends with
    the results of an execution of [drainNodes]. *)
From S2P Require Import Prelude GoTime Api Prog Kube Filters DrainNode.

Record drainNodeResult : Type := MkDrainNodeResult {
  dr_NodeName : string;
  dr_Outcome : drainOutcome;
  dr_Err : option error
}.

(** The goroutine's work while it holds a slot. *)
Definition drainWorker (plan : NodeMaintenancePlan) (node : Node) : kprog drainNodeResult :=
  pbind (drainNode plan node) (λ r, Ret (MkDrainNodeResult (n_Name node) r.1 r.2)).

(** One program after the other. *)
Fixpoint inOrder {A} (ps : list (kprog A)) : kprog (list A) :=
  match ps with
  | [] => Ret []
  | p :: ps' => pbind p (λ a, pbind (inOrder ps') (λ rest, Ret (a :: rest)))
  end.

Definition drainNodes (plan : NodeMaintenancePlan) (nodes : list Node) : kprog (list drainNodeResult) :=
  inOrder (map (drainWorker plan) nodes).

(** ** The concurrent machine *)

(** A goroutine: blocked on [sem <- struct{}{}], inside [drainNode] with the
    calls it still has to make, or done with [results[i]] written. *)
Inductive goroutine (A : Type) : Type :=
| Waiting (p : kprog A)
| Running (p : kprog A)
| Finished (a : A).
Arguments Waiting {A} p.
Arguments Running {A} p.
Arguments Finished {A} a.

Definition isRunning {A} (g : goroutine A) : bool :=
  match g with Running _ => true | _ => false end.

(** The number of tokens in the channel. *)
Definition held {A} (gs : list (goroutine A)) : nat := length (filter (λ g, isRunning g = true) gs).

Definition startPool {A} (ps : list (kprog A)) : list (goroutine A) := map Waiting ps.

Inductive pool_step {A} (maxParallel : nat) :
    list (goroutine A) → option (event resp) → list (goroutine A) → Prop :=
| step_acquire gs i p :
    gs !! i = Some (Waiting p) → (held gs < maxParallel)%nat →
    pool_step maxParallel gs None (<[i := Running p]> gs)
| step_call gs i c k (r : resp c) :
    gs !! i = Some (Running (Vis c k)) →
    pool_step maxParallel gs (Some (Ev c r)) (<[i := Running (k r)]> gs)
| step_release gs i a :
    gs !! i = Some (Running (Ret a)) →
    pool_step maxParallel gs None (<[i := Finished a]> gs).

(** Runs of the pool with the trace of calls. *)
Inductive pool_run {A} (maxParallel : nat) :
    list (goroutine A) → ktrace → list (goroutine A) → Prop :=
| pool_refl gs : pool_run maxParallel gs [] gs
| pool_silent gs gs' gs'' t :
    pool_step maxParallel gs None gs' → pool_run maxParallel gs' t gs'' →
    pool_run maxParallel gs t gs''
| pool_call gs gs' gs'' e t :
    pool_step maxParallel gs (Some e) gs' → pool_run maxParallel gs' t gs'' →
    pool_run maxParallel gs (e :: t) gs''.

(** [wg.Wait()] returns: every goroutine is done. *)
Definition joined {A} (gs : list (goroutine A)) (results : list A) : Prop :=
  gs = map Finished results.

(** [maxParallel], at least 1. *)
Definition drainParallelism (plan : NodeMaintenancePlan) : Z :=
  match s_Drain (p_Spec plan) with
  | Some d => match d_Options d with
              | Some opts => if 0 <? o_MaxParallel opts then o_MaxParallel opts else 1
              | None => 1
              end
  | None => 1
  end.

(** The capacity of the channel. *)
Definition poolSize (plan : NodeMaintenancePlan) : nat := Z.to_nat (drainParallelism plan).

(** The goroutines of a drain pass before any of them has run. *)
Definition drainPool (plan : NodeMaintenancePlan) (nodes : list Node)
    : list (goroutine drainNodeResult) := startPool (map (drainWorker plan) nodes).

Lemma drainParallelism_pos plan : 1 ≤ drainParallelism plan.
Proof.
  unfold drainParallelism. destruct (s_Drain _) as [d|]; [|done].
  destruct (d_Options d) as [opts|]; [|done]. destruct (Z.ltb_spec 0 (o_MaxParallel opts)); lia.
Qed.

Lemma poolSize_pos plan : (0 < poolSize plan)%nat.
Proof. pose proof (drainParallelism_pos plan). unfold poolSize. lia. Qed.

Section Pool.
Context {A : Type}.
Implicit Types (gs : list (goroutine A)) (g : goroutine A) (p : kprog A).

(** *** Slots *)

Definition slot g : nat := if isRunning g then 1 else 0.

Lemma held_cons g gs : held (g :: gs) = (slot g + held gs)%nat.
Proof. unfold held, slot. rewrite filter_cons. by destruct (isRunning g). Qed.

Lemma held_insert gs i g g' :
  gs !! i = Some g → (held (<[i:=g']> gs) + slot g = held gs + slot g')%nat.
Proof.
  revert i. induction gs as [|g0 gs IH]; intros [|i] Hi; simplify_eq/=; rewrite !held_cons; [lia|].
  specialize (IH i Hi). lia.
Qed.

Lemma held_startPool (ps : list (kprog A)) : held (startPool ps) = 0%nat.
Proof. induction ps as [|p ps IH]; [done|]. cbn [startPool map]. by rewrite held_cons. Qed.

Lemma held_finished (results : list A) : held (map Finished results) = 0%nat.
Proof. induction results as [|a rs IH]; [done|]. cbn [map]. by rewrite held_cons. Qed.

Lemma pool_step_held n gs e gs' :
  pool_step n gs e gs' → (held gs ≤ n)%nat → (held gs' ≤ n)%nat.
Proof.
  destruct 1 as [gs i p Hi Hn|gs i c k r Hi|gs i a Hi]; intros Hle;
    [pose proof (held_insert _ _ _ (Running p) Hi) as H
    |pose proof (held_insert _ _ _ (Running (k r)) Hi) as H
    |pose proof (held_insert _ _ _ (Finished a) Hi) as H]; cbn in H; lia.
Qed.

Lemma pool_run_held n gs t gs' :
  pool_run n gs t gs' → (held gs ≤ n)%nat → (held gs' ≤ n)%nat.
Proof. induction 1; eauto using pool_step_held. Qed.

(** *** Progress *)

(** Every call can be answered. *)
Lemma resp_inhabited (c : call) : inhabited (resp c).
Proof.
  destruct c; cbn; constructor;
    first [exact (inl notFound) | exact None | exact tt | exact 0 | exact 0%nat].
Qed.

Lemma goroutine_cases gs :
  (∃ results, joined gs results) ∨ (∃ i p, gs !! i = Some (Running p)) ∨
  ((∃ i p, gs !! i = Some (Waiting p)) ∧ held gs = 0%nat).
Proof.
  induction gs as [|g gs IH]; [left; by exists []|].
  destruct g as [p|p|a].
  - destruct IH as [[rs Hj]|[(i & q & Hi)|[_ Hz]]].
    + right. right. split; [by exists 0%nat, p|]. rewrite held_cons, Hj. apply held_finished.
    + right. left. by exists (S i), q.
    + right. right. split; [by exists 0%nat, p|]. by rewrite held_cons.
  - right. left. by exists 0%nat, p.
  - destruct IH as [[rs Hj]|[(i & q & Hi)|[(i & q & Hi) Hz]]].
    + left. exists (a :: rs). by rewrite Hj.
    + right. left. by exists (S i), q.
    + right. right. split; [by exists (S i), q|]. by rewrite held_cons.
Qed.

Lemma pool_progress n gs :
  (0 < n)%nat → (∃ results, joined gs results) ∨ ∃ e gs', pool_step n gs e gs'.
Proof.
  intros Hn. destruct (goroutine_cases gs) as [?|[(i & p & Hi)|[(i & p & Hi) Hz]]]; [by left|..];
    right.
  - destruct p as [a|c k]; [eexists _, _; by eapply step_release|].
    destruct (resp_inhabited c) as [r]. eexists _, _. by eapply (step_call _ _ _ _ _ r).
  - eexists _, _. eapply step_acquire; [done|]. by rewrite Hz.
Qed.

(** *** Termination *)

(** One move of one goroutine. *)
Inductive gstep : goroutine A → goroutine A → Prop :=
| gstep_acquire p : gstep (Running p) (Waiting p)
| gstep_call c k (r : resp c) : gstep (Running (k r)) (Running (Vis c k))
| gstep_release a : gstep (Finished a) (Running (Ret a)).

Lemma gstep_acc g : Acc gstep g.
Proof.
  assert (∀ a, Acc gstep (Finished a)) as Hf by (intros a; constructor; intros g'; inversion 1).
  assert (∀ p, Acc gstep (Running p)) as Hr.
  { induction p as [a|c k IH]; constructor; intros g' Hg'.
    - inversion Hg'; subst. apply Hf.
    - assert (∃ r, g' = Running (k r)) as [r ->]; [|apply IH].
      refine (match Hg' in gstep g1 g2 return
                match g2 with Running (Vis c k) => ∃ r, g1 = Running (k r) | _ => True end
              with gstep_call c k r => _ | _ => _ end); [done| |done]. by exists r. }
  destruct g as [p|p|a]; [|apply Hr|apply Hf].
  constructor. intros g'. inversion 1. apply Hr.
Qed.

Definition lstep gs' gs : Prop := ∃ i g g', gs !! i = Some g ∧ gs' = <[i:=g']> gs ∧ gstep g' g.

Lemma lstep_acc gs : Acc lstep gs.
Proof.
  induction gs as [|g gs IH].
  - constructor. intros gs' (i & g & g' & Hi & _). by rewrite lookup_nil in Hi.
  - pose proof (gstep_acc g) as Hg. revert gs IH. induction Hg as [g _ IHg].
    intros gs Hgs. induction Hgs as [gs Hgs IHgs]. constructor.
    intros gs' ([|i] & g1 & g2 & Hi & -> & Hstep); simplify_eq/=.
    + apply IHg; [done|]. by constructor.
    + apply IHgs. by exists i, g1, g2.
Qed.

Lemma pool_step_lstep n gs e gs' : pool_step n gs e gs' → lstep gs' gs.
Proof. destruct 1; (eexists _, _, _; split_and!; [done|done|]; by constructor). Qed.

Lemma pool_acc n gs : Acc (λ gs' gs, ∃ e, pool_step n gs e gs') gs.
Proof.
  induction (lstep_acc gs) as [gs _ IH]. constructor. intros gs' [e Hstep].
  by eapply IH, pool_step_lstep.
Qed.

(** *** Refinement *)

(** The calls a goroutine still has to make. *)
Definition progOf g : kprog A :=
  match g with Waiting p => p | Running p => p | Finished a => Ret a end.

Lemma inOrder_cons p ps t (a : A) rest :
  run (inOrder (p :: ps)) t (a :: rest) ↔
  ∃ t1 t2, t = t1 ++ t2 ∧ run p t1 a ∧ run (inOrder ps) t2 rest.
Proof.
  cbn [inOrder]. rewrite run_bind. split.
  - intros (t1 & a' & t2 & -> & H1 & H2). apply run_bind in H2 as (t3 & l & t4 & -> & H3 & H4).
    cbn in H4. destruct H4 as [-> [= -> ->]]. exists t1, t3. by rewrite app_nil_r.
  - intros (t1 & t2 & -> & H1 & H2). exists t1, a, t2. split_and!; [done|done|].
    apply run_bind. exists t2, rest, []. by rewrite app_nil_r.
Qed.

Lemma inOrder_shape p ps t (results : list A) :
  run (inOrder (p :: ps)) t results → ∃ a rest, results = a :: rest.
Proof.
  cbn [inOrder]. intros (t1 & a & t2 & _ & _ & H)%run_bind.
  apply run_bind in H as (t3 & rest & t4 & _ & _ & H). cbn in H. destruct H as [_ ->].
  by exists a, rest.
Qed.

(** Each event belongs to one of the programs, and so does each result. *)
Lemma inOrder_event ps t (results : list A) e :
  run (inOrder ps) t results → e ∈ t → ∃ p t1 a, p ∈ ps ∧ run p t1 a ∧ e ∈ t1 ∧ t1 ⊆ t.
Proof.
  revert t results. induction ps as [|p ps IH]; intros t results Hrun He.
  { destruct Hrun as [-> _]. by apply elem_of_nil in He. }
  destruct (inOrder_shape _ _ _ _ Hrun) as (a & rest & ->).
  apply inOrder_cons in Hrun as (t1 & t2 & -> & H1 & H2).
  apply elem_of_app in He as [He|He].
  - exists p, t1, a. split_and!; [apply list_elem_of_here|done|done|set_solver].
  - destruct (IH _ _ H2 He) as (q & t3 & b & Hq & Hr & He' & Hs).
    exists q, t3, b. split_and!; [by apply list_elem_of_further|done|done|set_solver].
Qed.

Lemma inOrder_result ps t (results : list A) a :
  run (inOrder ps) t results → a ∈ results → ∃ p t1, p ∈ ps ∧ run p t1 a ∧ t1 ⊆ t.
Proof.
  revert t results. induction ps as [|p ps IH]; intros t results Hrun Ha.
  { destruct Hrun as [_ ->]. by apply elem_of_nil in Ha. }
  destruct (inOrder_shape _ _ _ _ Hrun) as (b & rest & ->).
  apply inOrder_cons in Hrun as (t1 & t2 & -> & H1 & H2).
  apply elem_of_cons in Ha as [->|Ha].
  - exists p, t1. split_and!; [apply list_elem_of_here|done|set_solver].
  - destruct (IH _ _ H2 Ha) as (q & t3 & Hq & Hr & Hs).
    exists q, t3. split_and!; [by apply list_elem_of_further|done|set_solver].
Qed.

Lemma inOrder_Ret (results : list A) : run (inOrder (map Ret results)) [] results.
Proof.
  induction results as [|a rs IH]; [done|]. cbn [map]. apply inOrder_cons.
  by exists [], [].
Qed.

(** A call of the [i]-th program can be moved to the place it has in order. *)
Lemma inOrder_call ps i c k (r : resp c) t (results : list A) :
  ps !! i = Some (Vis c k) → run (inOrder (<[i:=k r]> ps)) t results →
  ∃ t', t' ≡ₚ Ev c r :: t ∧ run (inOrder ps) t' results.
Proof.
  revert i t results. induction ps as [|p ps IH]; intros [|i] t results Hi Hrun; simplify_eq/=.
  - destruct (inOrder_shape _ _ _ _ Hrun) as (a & rest & ->).
    apply inOrder_cons in Hrun as (t1 & t2 & -> & H1 & H2).
    exists (Ev c r :: t1 ++ t2). split; [done|].
    apply (proj2 (inOrder_cons (Vis c k) ps _ a rest)).
    exists (Ev c r :: t1), t2. split_and!; [done| |done]. by exists r, t1.
  - destruct (inOrder_shape _ _ _ _ Hrun) as (a & rest & ->).
    apply inOrder_cons in Hrun as (t1 & t2 & -> & H1 & H2).
    destruct (IH i t2 rest Hi H2) as (t' & Hperm & H').
    exists (t1 ++ t'). split; [rewrite Hperm; by rewrite <-Permutation_middle|].
    apply (proj2 (inOrder_cons p ps _ a rest)). by exists t1, t'.
Qed.

Lemma progOf_insert_same gs i g g' :
  gs !! i = Some g → progOf g' = progOf g → progOf <$> <[i:=g']> gs = progOf <$> gs.
Proof.
  intros Hi Heq. rewrite list_fmap_insert, Heq.
  apply list_insert_id. by rewrite list_lookup_fmap, Hi.
Qed.

Lemma pool_run_refines n gs t gs' results :
  pool_run n gs t gs' → joined gs' results →
  ∃ t', t' ≡ₚ t ∧ run (inOrder (progOf <$> gs)) t' results.
Proof.
  induction 1 as [gs|gs gs1 gs2 t Hs _ IH|gs gs1 gs2 e t Hs _ IH]; intros Hj.
  - rewrite Hj. change (progOf <$> map Finished results) with (map progOf (map Finished results)).
    rewrite map_map. exists []. split; [done|]. apply inOrder_Ret.
  - destruct (IH Hj) as (t' & Hp & Hr). exists t'. split; [done|].
    inversion Hs as [? i p Hi _| |? i a Hi]; subst;
      by erewrite progOf_insert_same in Hr by done.
  - destruct (IH Hj) as (t' & Hp & Hr). inversion Hs as [|? i c k r Hi|]; subst.
    rewrite list_fmap_insert in Hr.
    destruct (inOrder_call (progOf <$> gs) i c k r t' results) as (t'' & Hp' & Hr');
      [by rewrite list_lookup_fmap, Hi|done|].
    exists t''. split; [by rewrite Hp', Hp|done].
Qed.

Lemma startPool_progOf (ps : list (kprog A)) : progOf <$> startPool ps = ps.
Proof. induction ps as [|p ps IH]; [done|]. exact (f_equal (cons p) IH). Qed.
End Pool.

(** The semaphore works: in every interleaving of the goroutines of a drain
    pass, at most [maxParallel] of them are inside [drainNode]. *)
Theorem drainPool_bounded plan nodes t gs :
  pool_run (poolSize plan) (drainPool plan nodes) t gs → held gs ≤ drainParallelism plan.
Proof.
  intros Hrun. apply pool_run_held in Hrun; [|unfold drainPool; rewrite held_startPool; lia].
  pose proof (drainParallelism_pos plan). unfold poolSize in Hrun. lia.
Qed.

(** C36: the pool always finishes: from every state of the machine no infinite
    sequence of steps exists, and a state that is not joined has a step, so
    [wg.Wait()] returns under every scheduler whatever the cluster answers and
    whatever [maxParallel] the plan asks for. *)
Theorem drainPool_finishes plan (gs : list (goroutine drainNodeResult)) :
  Acc (λ gs' gs, ∃ e, pool_step (poolSize plan) gs e gs') gs ∧
  ((∃ results, joined gs results) ∨ ∃ e gs', pool_step (poolSize plan) gs e gs').
Proof. split; [apply pool_acc|]. apply pool_progress, poolSize_pos. Qed.

(** C9: concurrency changes nothing but the order of the calls: the results of
    every complete run of the pool are the results, in node order, of an
    execution of the sequential [drainNodes] that makes the same calls with the
    same answers. *)
Theorem drainPool_refines plan nodes t gs results :
  pool_run (poolSize plan) (drainPool plan nodes) t gs → joined gs results →
  ∃ t', t' ≡ₚ t ∧ run (drainNodes plan nodes) t' results.
Proof.
  intros Hrun Hj. destruct (pool_run_refines _ _ _ _ _ Hrun Hj) as (t' & Hp & Hr).
  exists t'. split; [done|]. unfold drainPool in Hr. by rewrite startPool_progOf in Hr.
Qed.

(** Two empty nodes drained with two slots, the goroutines in lock step. *)
Definition parallelPlan : NodeMaintenancePlan :=
  let spec := MkNodeMaintenancePlanSpec ["n1"; "n2"] None "kernel upgrade"
    (Some (MkCordonSpec true None))
    (Some (MkDrainSpec true None (Some (MkDrainOptions 2 true false false None true)) None)) in
  MkNodeMaintenancePlan "plan-a" "" 1 None [] spec zeroPlanStatus.

Definition poolNodes : list Node := [exampleNode "n1"; exampleNode "n2"].

(** The goroutine after it got an empty pod list and the time 0. *)
Definition emptyNodeResult (name : string) : drainNodeResult :=
  MkDrainNodeResult name zeroOutcome None.

Ltac pool_acquire j :=
  eapply pool_silent;
    [eapply (step_acquire _ _ j); [reflexivity|apply Nat.ltb_lt; vm_compute; reflexivity]|cbn [insert list_insert]].
Ltac pool_call j c r :=
  eapply pool_call; [eapply (step_call _ _ j c _ r); reflexivity|cbn [insert list_insert]].
Ltac pool_release j :=
  eapply pool_silent; [eapply (step_release _ _ j); reflexivity|cbn [insert list_insert]].

Definition bothInside : list (goroutine drainNodeResult) :=
  map Running (map (drainWorker parallelPlan) poolNodes).

Definition lockStepTrace : ktrace :=
  [Ev (CListPods "n1") (inr []); Ev (CListPods "n2") (inr []); Ev CNow 0; Ev CNow 0].

Lemma drainPool_bounded_witness :
  pool_run (poolSize parallelPlan) (drainPool parallelPlan poolNodes) [] bothInside ∧
  held bothInside = 2%nat ∧ held bothInside ≤ drainParallelism parallelPlan.
Proof.
  assert (pool_run (poolSize parallelPlan) (drainPool parallelPlan poolNodes) [] bothInside) as H
    by (pool_acquire 0%nat; pool_acquire 1%nat; apply pool_refl).
  split; [exact H|]. split; [reflexivity|].
  exact (drainPool_bounded parallelPlan poolNodes [] bothInside H).
Defined.

Lemma drainPool_refines_witness :
  let results := [emptyNodeResult "n1"; emptyNodeResult "n2"] in
  pool_run (poolSize parallelPlan) (drainPool parallelPlan poolNodes) lockStepTrace
    (map Finished results) ∧
  ∃ t', t' ≡ₚ lockStepTrace ∧ run (drainNodes parallelPlan poolNodes) t' results.
Proof.
  intros results.
  assert (pool_run (poolSize parallelPlan) (drainPool parallelPlan poolNodes) lockStepTrace
    (map Finished results)) as H.
  { pool_acquire 0%nat; pool_acquire 1%nat.
    pool_call 0%nat (CListPods "n1") (@inr ApiError (list Pod) []);
    pool_call 1%nat (CListPods "n2") (@inr ApiError (list Pod) []).
    pool_call 0%nat CNow 0; pool_call 1%nat CNow 0.
    pool_release 0%nat; pool_release 1%nat. apply pool_refl. }
  split; [exact H|].
  exact (drainPool_refines parallelPlan poolNodes lockStepTrace _ results H eq_refl).
Defined.
