(* ===== verification/DrainReconcile.v ===== *)
(** * The drain phase of a pass (drain_reconcile.go) *)
From S2P Require Import Prelude GoTime Api Prog Kube Conditions Drift Filters Ownership.
From S2P Require Import DrainNode DrainStatus DrainPool.

Definition noRequeue : Duration := 0.
Definition drainCheckInterval : Duration := 5 * Second.
Definition drainBlockedRetry : Duration := 15 * Second.

(** A program of the environment that does not touch the pass's objects. *)
Definition liftProg {A} (p : kprog A) : M A := λ s, pbind p (λ a, Ret (s, OK a)).

(** [%v] of an error value. *)
Definition errText (e : option error) : string :=
  match e with Some e => Error e | None => "<nil>" end.

(** The aggregate flags of [applyDrainResults]. *)
Record drainFlags : Type := MkDrainFlags {
  fl_allDone : bool;
  fl_evictionsInFlight : bool;
  fl_anyBlocked : bool
}.

(** Which case of the switch a result falls in. *)
Inductive drainCase : Type :=
| CaseDrained | CaseEvicting | CaseStuck | CaseTerminating
| CaseNotReady (e : nodeNotReadyError) | CaseBlocked (e : drainBlockedError) | CaseError.

Definition drainCaseOf (r : drainNodeResult) : drainCase :=
  let o := dr_Outcome r in
  match dr_Err r with
  | None =>
      if (do_Evicted o =? 0) && (do_Terminating o =? 0) && (do_StuckTerminating o =? 0)
      then CaseDrained
      else if 0 <? do_Evicted o then CaseEvicting
      else if 0 <? do_StuckTerminating o then CaseStuck
      else if 0 <? do_Terminating o then CaseTerminating
      else CaseError
  | Some err =>
      match asNodeNotReady err with
      | Some notReady => CaseNotReady notReady
      | None => match asDrainBlocked err with
                | Some blocked => CaseBlocked blocked
                | None => CaseError
                end
      end
  end.

(** The flags after a result of each case. *)
Definition drainFlagsStep (fl : drainFlags) (r : drainNodeResult) : drainFlags :=
  let inFlight := fl_evictionsInFlight fl || (0 <? do_Terminating (dr_Outcome r)) in
  match drainCaseOf r with
  | CaseDrained => fl
  | CaseEvicting | CaseTerminating => MkDrainFlags false true (fl_anyBlocked fl)
  | CaseStuck | CaseBlocked _ => MkDrainFlags false inFlight true
  | CaseNotReady _ => MkDrainFlags false (fl_evictionsInFlight fl) true
  | CaseError => MkDrainFlags false (fl_evictionsInFlight fl) (fl_anyBlocked fl)
  end.

(** [now.Sub(since) >= threshold] with the clock read only for a non-nil pointer. *)
Definition clockYielded (since : option Time) : M bool :=
  match since with
  | None => mret false
  | Some t => now ← perform CNow; mret (notReadyBeyondThreshold (Some t) now)
  end.

(** The effects of one iteration of the loop over [results]; [original] is the
    plan as it was before the loop. *)
Definition applyDrainResult (original : NodeMaintenancePlan) (r : drainNodeResult) : M unit :=
  let name := dr_NodeName r in
  let o := dr_Outcome r in
  let stuckIssues := stuckTerminatingIssues (do_StuckPods o) in
  match drainCaseOf r with
  | CaseDrained =>
      modifyPlan (updateNodeDrainStatus name o []);;
      (if wasNodeDraining original name
       then Eventf None EventTypeNormal "NodeDrained" "CompleteDrain"
              ("node " +:+ quote name +:+ " has been fully drained")
       else mret tt);;
      plan ← getPlan;
      let '(plan', transitioned) := markNodeReadyForMaintenance name plan in
      setPlan plan';;
      if transitioned
      then Eventf None EventTypeNormal "NodeReadyForMaintenance" "CompleteDrain"
             ("node " +:+ quote name +:+ " is ready for maintenance")
      else mret tt
  | CaseEvicting | CaseTerminating => modifyPlan (updateNodeDrainStatus name o stuckIssues)
  | CaseStuck =>
      modifyPlan (updateNodeDrainStatus name o stuckIssues);;
      Eventf None EventTypeWarning "DrainBlocked" "DrainNode"
        ("node " +:+ quote name +:+ ": " +:+ pretty (do_StuckTerminating o)
         +:+ " pod(s) stuck in Terminating beyond grace period")
  | CaseNotReady notReady =>
      yielded ← clockYielded (nr_notReadySince notReady);
      modifyPlan (setNodeIssues name [nodeNotReadyIssue yielded]);;
      if yielded : bool
      then Eventf None EventTypeWarning "NodeNotReady" "YieldDrain"
             ("node " +:+ quote name +:+ " has been NotReady for >"
              +:+ pretty (Z.quot nodeNotReadyThreshold Second)
              +:+ "s; yielding drain to Kubernetes node lifecycle controller")
      else mret tt
  | CaseBlocked blocked =>
      modifyPlan (updateNodeDrainStatus name o (blockedPodIssues blocked ++ stuckIssues));;
      Eventf None EventTypeWarning "DrainBlocked" "DrainNode"
        ("node " +:+ quote name +:+ ": " +:+ drainBlockedError_Error blocked)
  | CaseError =>
      modifyPlan (updateNodeDrainStatus name o stuckIssues);;
      Eventf None EventTypeWarning "DrainError" "DrainNode"
        ("node " +:+ quote name +:+ ": " +:+ errText (dr_Err r))
  end.

Section DrainReconcile.
Context `{CO : ConditionOps}.

(** [plan.Status.DrainStartedAt] after the first active pass. *)
Definition ensureDrainStarted (now : Time) (plan : NodeMaintenancePlan) : NodeMaintenancePlan :=
  match ps_DrainStartedAt (p_Status plan) with
  | None => updStatus (set_ps_DrainStartedAt (Some now)) plan
  | Some _ => plan
  end.

(** The instant the plan's timeout expires. *)
Definition drainDeadline (started : Time) (timeoutMinutes : Z) : Time :=
  Add started (scaleDuration timeoutMinutes Minute).

(** The deadline check: [Some true] when the drain has timed out.  With a timeout,
    [plan.Status.DrainStartedAt] is dereferenced: [None] is the panic of a nil one. *)
Definition drainExpired (plan : NodeMaintenancePlan) (timeoutMinutes : option Z) (now : Time)
    : option bool :=
  match timeoutMinutes with
  | None => Some false
  | Some m =>
      started ← ps_DrainStartedAt (p_Status plan);
      Some (After now (drainDeadline started m))
  end.

(** The three conditions set when the deadline has passed. *)
Definition setTimedOutConditions (minutes : Z) (plan : NodeMaintenancePlan) : NodeMaintenancePlan :=
  let set t status reason msg plan := setCondition plan t status reason msg in
  plan
    |> set ConditionDrainTimedOut ConditionTrue "DeadlineExceeded"
         ("drain did not complete within " +:+ pretty minutes +:+ " minute(s)")
    |> set ConditionDrainInProgress ConditionFalse "TimedOut" "Drain stopped due to timeout"
    |> set ConditionDrainSucceeded ConditionFalse "TimedOut" "Drain timed out before completion".

(** The timed-out branch: conditions, event, patch. *)
Definition abortDrain (original : NodeMaintenancePlan) (minutes : Z) : M Duration :=
  modifyPlan (setTimedOutConditions minutes);;
  Eventf None EventTypeWarning "DrainTimedOut" "AbortDrain"
    ("drain deadline of " +:+ pretty minutes +:+ " minute(s) exceeded");;
  wrapErr "patching drain timeout status" (patchPlanStatus original);;
  mret noRequeue.

Definition requeueOf (fl : drainFlags) : Duration :=
  if fl_allDone fl then noRequeue
  else if fl_evictionsInFlight fl then drainCheckInterval
  else drainBlockedRetry.

(** The rest of [applyDrainResults] when no deadline has passed. *)
Definition finishDrainPass (original : NodeMaintenancePlan) (fl : drainFlags) : M Duration :=
  modifyPlan (setDrainConditions (fl_allDone fl) (fl_anyBlocked fl) (fl_evictionsInFlight fl));;
  modifyPlan (λ plan, updStatus (set_ps_AllNodesReadyForMaintenance (allNodesReady plan)) plan);;
  plan ← getPlan;
  (if negb (ps_AllNodesReadyForMaintenance (p_Status original))
      && ps_AllNodesReadyForMaintenance (p_Status plan)
   then Eventf None EventTypeNormal "AllNodesReadyForMaintenance" "ReconcileDrain"
          "all managed nodes are ready for maintenance"
   else mret tt);;
  modifyPlan recomputePlanSummaries;;
  wrapErr "patching drain status" (patchPlanStatus original);;
  mret (requeueOf fl).

Definition initialFlags : drainFlags := MkDrainFlags true false false.

(** What follows the loop, at the instant [now]: the start of the drain and its
    deadline while work remains, then the conditions. *)
Definition endDrainPass (original : NodeMaintenancePlan) (fl : drainFlags) (now : Time) : M Duration :=
  if negb (fl_allDone fl) then
    modifyPlan (ensureDrainStarted now);;
    plan ← getPlan;
    match s_Drain (p_Spec plan) with
    | None => panic
    | Some d =>
        match drainExpired plan (d_TimeoutMinutes d) now with
        | None => panic
        | Some true => abortDrain original (default 0 (d_TimeoutMinutes d))
        | Some false => finishDrainPass original fl
        end
    end
  else finishDrainPass original fl.

Definition applyDrainResults (results : list drainNodeResult) : M Duration :=
  original ← getPlan;
  rangeM results (applyDrainResult original);;
  let fl := foldl drainFlagsStep initialFlags results in
  now ← perform CMetaNow;
  endDrainPass original fl now.

(** The lookup of [NotReadySince] by node name. *)
Definition notReadyIndex (nodes : list NodeStatus) : gmap string Time :=
  foldl (λ m ns, match ns_NotReadySince ns with
                 | Some t => <[ns_Name ns := t]> m
                 | None => m
                 end) ∅ nodes.

(** The loop over [res.Stable]: synthetic results of NotReady nodes, and the
    nodes to drain. *)
Definition selectNode (notReadySince : gmap string Time)
    (acc : list drainNodeResult * list Node) (node : Node) : list drainNodeResult * list Node :=
  if negb (n_Unschedulable node) then acc
  else if negb (isNodeReady node) then
    (acc.1 ++ [MkDrainNodeResult (n_Name node) zeroOutcome
       (Some (ErrNodeNotReady
          (MkNodeNotReadyError (n_Name node) (notReadySince !! n_Name node))))], acc.2)
  else (acc.1, acc.2 ++ [node]).

Definition selectDrainTarget (notReadySince : gmap string Time)
    (acc : list drainNodeResult * list Node) (l : loc) : M (list drainNodeResult * list Node) :=
  node ← load l;
  mret (selectNode notReadySince acc node).

Definition ReconcileDrain (res : OwnershipResolution) : M Duration :=
  plan ← getPlan;
  match getDrainConfig plan with
  | None => mret noRequeue
  | Some cfg =>
      if isConditionTrue plan ConditionDrainTimedOut then mret noRequeue
      else
        targets ← foldM (selectDrainTarget (notReadyIndex (ps_Nodes (p_Status plan)))) ([], [])
                    (ow_Stable res);
        let '(results, nodesToDrain) := targets : list drainNodeResult * list Node in
        match results, nodesToDrain with
        | [], [] => mret noRequeue
        | _, _ =>
            drained ← liftProg (drainNodes plan nodesToDrain);
            applyDrainResults (results ++ drained)
        end
  end.
End DrainReconcile.

(** ** The flags of a list of results *)

Definition isDrained (r : drainNodeResult) : bool :=
  match drainCaseOf r with CaseDrained => true | _ => false end.

(** A node that cannot make progress by itself: budget, configuration, stuck
    pods, or not ready. *)
Definition reportsBlocked (r : drainNodeResult) : bool :=
  match drainCaseOf r with CaseStuck | CaseBlocked _ | CaseNotReady _ => true | _ => false end.

(** A node with pods on their way out. *)
Definition reportsInFlight (r : drainNodeResult) : bool :=
  match drainCaseOf r with
  | CaseEvicting | CaseTerminating => true
  | CaseStuck | CaseBlocked _ => 0 <? do_Terminating (dr_Outcome r)
  | _ => false
  end.

Lemma isDrained_iff r :
  isDrained r = true ↔
  dr_Err r = None ∧ do_Evicted (dr_Outcome r) = 0 ∧ do_Terminating (dr_Outcome r) = 0 ∧
  do_StuckTerminating (dr_Outcome r) = 0.
Proof.
  unfold isDrained, drainCaseOf. destruct (dr_Err r).
  { split; [by repeat case_match|by intros (? & _)]. }
  destruct ((do_Evicted _ =? 0) && _ && _) eqn:E.
  - rewrite !andb_true_iff, !Z.eqb_eq in E. tauto.
  - rewrite !andb_false_iff, !Z.eqb_neq in E. split; [by repeat case_match|]. intros. lia.
Qed.

Lemma foldl_drainFlags a b c results :
  foldl drainFlagsStep (MkDrainFlags a b c) results =
  MkDrainFlags (a && forallb isDrained results) (b || existsb reportsInFlight results)
    (c || existsb reportsBlocked results).
Proof.
  revert a b c. induction results as [|r results IH]; intros a b c; cbn [foldl forallb existsb].
  { by rewrite andb_true_r, !orb_false_r. }
  assert (drainFlagsStep (MkDrainFlags a b c) r =
    MkDrainFlags (a && isDrained r) (b || reportsInFlight r) (c || reportsBlocked r)) as ->.
  { unfold drainFlagsStep, isDrained, reportsInFlight, reportsBlocked.
    destruct (drainCaseOf r); cbn;
      by rewrite ?andb_true_r, ?andb_false_r, ?orb_false_r, ?orb_true_r. }
  by rewrite IH, andb_assoc, !orb_assoc.
Qed.

(** The flags of a pass. *)
Definition flagsOf (results : list drainNodeResult) : drainFlags :=
  MkDrainFlags (forallb isDrained results) (existsb reportsInFlight results)
    (existsb reportsBlocked results).

Lemma flagsOf_spec results : foldl drainFlagsStep initialFlags results = flagsOf results.
Proof. apply foldl_drainFlags. Qed.

(** ** One result *)

(** What one result may change in the plan: the node statuses, never their
    cordon flag; a node becomes ready only when it is drained and cordoned. *)
Definition statusStep (name : string) (drained : bool) (p p' : NodeMaintenancePlan) : Prop :=
  ps_Conditions (p_Status p') = ps_Conditions (p_Status p) ∧
  p_Spec p' = p_Spec p ∧ p_Name p' = p_Name p ∧ p_Finalizers p' = p_Finalizers p ∧
  ps_DrainStartedAt (p_Status p') = ps_DrainStartedAt (p_Status p) ∧
  map ns_Name (ps_Nodes (p_Status p')) = map ns_Name (ps_Nodes (p_Status p)) ∧
  ∀ x, match findNodeStatus p x, findNodeStatus p' x with
       | None, None => True
       | Some ns, Some ns' =>
           ns_Cordoned ns' = ns_Cordoned ns ∧
           (ns_ReadyForMaintenance ns' = true →
              ns_ReadyForMaintenance ns = true ∨
              (x = name ∧ drained = true ∧ ns_Cordoned ns = true))
       | _, _ => False
       end.

Lemma statusStep_refl name d p : statusStep name d p p.
Proof.
  split_and!; try reflexivity. intros x. destruct (findNodeStatus p x); [|done].
  split; [done|]. by left.
Qed.

Lemma statusStep_trans name d p q r :
  statusStep name d p q → statusStep name d q r → statusStep name d p r.
Proof.
  intros (H1 & H2 & H3 & H4 & H5 & H6 & H) (K1 & K2 & K3 & K4 & K5 & K6 & K).
  split_and!; try congruence. intros x. specialize (H x). specialize (K x).
  destruct (findNodeStatus p x), (findNodeStatus q x), (findNodeStatus r x); try tauto.
  destruct H as [Hc Hr], K as [Kc Kr]. split; [congruence|]. intros Hx.
  destruct (Kr Hx) as [Hq|(-> & -> & Hq)]; [by apply Hr|]. right. split_and!; congruence.
Qed.

(** The updates of one entry that keep its name, cordon and readiness. *)
Lemma statusStep_mapNodes name d p x (f : NodeStatus → NodeStatus) :
  (∀ ns, ns_Name (f ns) = ns_Name ns ∧ ns_Cordoned (f ns) = ns_Cordoned ns ∧
     (ns_ReadyForMaintenance (f ns) = true →
        ns_ReadyForMaintenance ns = true ∨ (x = name ∧ d = true ∧
          (findNodeStatus p x = Some ns → ns_Cordoned ns = true)))) →
  statusStep name d p (mapNodes (updateFirst (λ ns, bool_decide (ns_Name ns = x)) f) p).
Proof.
  intros Hf. split_and!; try reflexivity.
  { apply mapNodes_names. intros ns. apply Hf. }
  intros y. rewrite findNodeStatus_mapNodes by (intros ns; apply Hf).
  destruct (findNodeStatus p y) as [ns|] eqn:E; [|done]. cbn.
  case_decide as Hy; [|split; [done|by left]]. subst y.
  destruct (Hf ns) as (_ & Hc & Hr). split; [done|].
  intros H. destruct (Hr H) as [?|(-> & -> & Hcd)]; [by left|]. right. split_and!; [done|done|].
  by apply Hcd.
Qed.

Lemma statusStep_update name d p x o issues :
  statusStep name d p (updateNodeDrainStatus x o issues p).
Proof.
  apply statusStep_mapNodes. intros ns. split; [apply applyOutcome_Name|].
  unfold applyOutcome. destruct (_ && _); cbn [ns_Name]; destruct (0 <? _);
    (split; [reflexivity|by left]).
Qed.

Lemma statusStep_setIssues name d p x issues : statusStep name d p (setNodeIssues x issues p).
Proof. apply statusStep_mapNodes. intros ns. split_and!; [done|done|by left]. Qed.

Lemma statusStep_markReady name p : statusStep name true p (markNodeReadyForMaintenance name p).1.
Proof.
  unfold markNodeReadyForMaintenance.
  destruct (findNodeStatus p name) as [ns|] eqn:E; [|apply statusStep_refl].
  destruct (ns_Cordoned ns) eqn:Hc; cbn [negb orb]; [|apply statusStep_refl].
  destruct (ns_ReadyForMaintenance ns); [apply statusStep_refl|].
  apply statusStep_mapNodes. intros ns'. split_and!; [done|done|].
  intros _. right. split_and!; [done|done|]. rewrite E. by intros [= <-].
Qed.

Lemma rgM_applyDrainResult R original r s :
  rgM R notifies (applyDrainResult original r) s (λ s' o, o = OK tt ∧ st_heap s' = st_heap s ∧
    statusStep (dr_NodeName r) (isDrained r) (st_plan s) (st_plan s')).
Proof.
  unfold applyDrainResult. pose proof (statusStep_update (dr_NodeName r) (isDrained r) (st_plan s)
    (dr_NodeName r) (dr_Outcome r)) as Hup.
  destruct (drainCaseOf r) eqn:Hcase.
  - do 2 rg_step. rg_step.
    assert (∀ s0, st_heap s0 = st_heap s →
      statusStep (dr_NodeName r) (isDrained r) (st_plan s) (st_plan s0) →
      rgM R notifies (plan ← getPlan;
        let '(plan', transitioned) := markNodeReadyForMaintenance (dr_NodeName r) plan in
        setPlan plan';;
        if transitioned
        then Eventf None EventTypeNormal "NodeReadyForMaintenance" "CompleteDrain"
               ("node " +:+ quote (dr_NodeName r) +:+ " is ready for maintenance")
        else mret tt) s0 (λ s' o, o = OK tt ∧ st_heap s' = st_heap s ∧
          statusStep (dr_NodeName r) (isDrained r) (st_plan s) (st_plan s'))) as Hmark.
    { intros s0 Hh Hs. do 2 rg_step.
      pose proof (statusStep_markReady (dr_NodeName r) (st_plan s0)) as Hm.
      destruct (markNodeReadyForMaintenance (dr_NodeName r) (st_plan s0)) as [p' tr]. cbn in Hm.
      unfold isDrained in *. rewrite Hcase in *.
      rg_steps; try done; (split_and!; [done|done|by eapply statusStep_trans]). }
    rg_steps; try done; apply Hmark; try done; apply Hup.
  - rg_steps. split_and!; [done|done|apply Hup].
  - rg_steps; [done|]. split_and!; [done|done|apply Hup].
  - rg_steps. split_and!; [done|done|apply Hup].
  - unfold clockYielded. rg_steps; try done;
      (split_and!; [done|done|apply statusStep_setIssues]).
  - rg_steps; [done|]. split_and!; [done|done|apply Hup].
  - rg_steps; [done|]. split_and!; [done|done|apply Hup].
Qed.

(** The same for a list of results. *)
Definition statusSteps (results : list drainNodeResult) (p p' : NodeMaintenancePlan) : Prop :=
  ps_Conditions (p_Status p') = ps_Conditions (p_Status p) ∧
  p_Spec p' = p_Spec p ∧ p_Name p' = p_Name p ∧ p_Finalizers p' = p_Finalizers p ∧
  ps_DrainStartedAt (p_Status p') = ps_DrainStartedAt (p_Status p) ∧
  map ns_Name (ps_Nodes (p_Status p')) = map ns_Name (ps_Nodes (p_Status p)) ∧
  ∀ x, match findNodeStatus p x, findNodeStatus p' x with
       | None, None => True
       | Some ns, Some ns' =>
           ns_Cordoned ns' = ns_Cordoned ns ∧
           (ns_ReadyForMaintenance ns' = true →
              ns_ReadyForMaintenance ns = true ∨
              (ns_Cordoned ns = true ∧
               ∃ r, r ∈ results ∧ dr_NodeName r = x ∧ isDrained r = true))
       | _, _ => False
       end.

Lemma statusSteps_nil p : statusSteps [] p p.
Proof.
  split_and!; try reflexivity. intros x. destruct (findNodeStatus p x); [|done].
  split; [done|by left].
Qed.

Lemma statusSteps_cons r results p q q' :
  statusStep (dr_NodeName r) (isDrained r) p q → statusSteps results q q' →
  statusSteps (r :: results) p q'.
Proof.
  intros (H1 & H2 & H3 & H4 & H5 & H6 & H) (K1 & K2 & K3 & K4 & K5 & K6 & K).
  split_and!; try congruence. intros x. specialize (H x). specialize (K x).
  destruct (findNodeStatus p x), (findNodeStatus q x), (findNodeStatus q' x); try tauto.
  destruct H as [Hc Hr], K as [Kc Kr]. split; [congruence|]. intros Hx.
  destruct (Kr Hx) as [Hq|(Hcd & r' & Hin & Hn & Hd)].
  - destruct (Hr Hq) as [?|(-> & Hd & Hcd)]; [by left|]. right. split; [done|].
    exists r. split_and!; [apply list_elem_of_here|done|done].
  - right. split; [congruence|]. exists r'. split_and!; [by apply list_elem_of_further|done|done].
Qed.

Lemma rgM_applyDrainResult_all R original results s :
  rgM R notifies (rangeM results (applyDrainResult original)) s (λ s' o, o = OK tt ∧
    st_heap s' = st_heap s ∧ statusSteps results (st_plan s) (st_plan s')).
Proof.
  revert s. induction results as [|r results IH]; intros s; cbn [rangeM].
  { rg_step. split_and!; [done|done|apply statusSteps_nil]. }
  rg_step. eapply rgM_post; [apply rgM_applyDrainResult|]. intros s1 o (-> & Hh & Hs).
  eapply rgM_post; [apply IH|]. intros s2 o (-> & Hh2 & Hs2). split_and!; [done|congruence|].
  by eapply statusSteps_cons.
Qed.

(** ** A whole pass *)
Section DrainTheorems.
Context `{CL : ConditionLaws}.

(** The plan's deadline, counted from the recorded start of the drain (from [now]
    if there is none), lies before [now]. *)
Definition deadlinePassed (p : NodeMaintenancePlan) (now : Time) : bool :=
  match s_Drain (p_Spec p) ≫= d_TimeoutMinutes with
  | None => false
  | Some m => After now (drainDeadline (default now (ps_DrainStartedAt (p_Status p))) m)
  end.

(** Work is left and the deadline has passed. *)
Definition expiredAt (results : list drainNodeResult) (p : NodeMaintenancePlan) (now : Time) : bool :=
  negb (fl_allDone (flagsOf results)) && deadlinePassed p now.

(** The status a pass over [results] at [now] sends, starting from the plan [p]. *)
Definition passStatus (results : list drainNodeResult) (p : NodeMaintenancePlan) (now : Time)
    (p' : NodeMaintenancePlan) : Prop :=
  let fl := flagsOf results in
  let unfinished := negb (fl_allDone fl) in
  let expired := expiredAt results p now in
  ps_DrainStartedAt (p_Status p') =
    (if unfinished then Some (default now (ps_DrainStartedAt (p_Status p)))
     else ps_DrainStartedAt (p_Status p)) ∧
  isConditionTrue p' ConditionDrainTimedOut =
    expired || isConditionTrue p ConditionDrainTimedOut ∧
  isConditionTrue p' ConditionDrainSucceeded = fl_allDone fl ∧
  isConditionTrue p' ConditionDrainInProgress =
    unfinished && negb expired && (fl_evictionsInFlight fl || negb (fl_anyBlocked fl)) ∧
  (expired = false → isConditionTrue p' ConditionDrainBlocked = unfinished && fl_anyBlocked fl ∧
     ps_AllNodesReadyForMaintenance (p_Status p') = allNodesReady p').

(** The requeue interval of that pass. *)
Definition passRequeue (results : list drainNodeResult) (p : NodeMaintenancePlan) (now : Time)
    : Duration :=
  let fl := flagsOf results in
  if fl_allDone fl then noRequeue
  else if expiredAt results p now then noRequeue
  else if fl_evictionsInFlight fl then drainCheckInterval else drainBlockedRetry.

(** Readiness after a pass: as before, or newly earned by a drained result of a
    cordoned node. *)
Definition readyEarned (results : list drainNodeResult) (p p' : NodeMaintenancePlan) : Prop :=
  ∀ x ns', findNodeStatus p' x = Some ns' → ns_ReadyForMaintenance ns' = true →
  ∃ ns, findNodeStatus p x = Some ns ∧ ns_Cordoned ns = ns_Cordoned ns' ∧
    (ns_ReadyForMaintenance ns = true ∨
     ns_Cordoned ns = true ∧ ∃ r, r ∈ results ∧ dr_NodeName r = x ∧ isDrained r = true).

Lemma readyEarned_steps results p p' q :
  statusSteps results p p' → ps_Nodes (p_Status q) = ps_Nodes (p_Status p') →
  readyEarned results p q.
Proof.
  intros (_ & _ & _ & _ & _ & _ & Hall) Heq x ns' Hx Hr. unfold findNodeStatus in Hx.
  rewrite Heq in Hx. specialize (Hall x). unfold findNodeStatus in Hall. rewrite Hx in Hall.
  unfold findNodeStatus.
  destruct (findFirst _ (ps_Nodes (p_Status p))) as [ns|] eqn:E; [|done].
  destruct Hall as [Hc Hall].
  exists ns. split_and!; [done|done|]. by apply Hall.
Qed.

(** The calls that follow the reading [now] of the clock ... *)
Definition passCallAt (results : list drainNodeResult) (p : NodeMaintenancePlan) (now : Time) (c : call)
    : Prop :=
  match c with
  | CEvent _ | CNow => True
  | CPatchPlanStatus original p' =>
      original = p ∧ readyEarned results p p' ∧ passStatus results p now p'
  | _ => False
  end.

(** ... and all the calls of the status bookkeeping of a pass. *)
Definition passCall (results : list drainNodeResult) (p : NodeMaintenancePlan) (c : call) : Prop :=
  match c with CMetaNow => True | _ => ∃ now, passCallAt results p now c end.

(** The plan [finishDrainPass] sends. *)
Definition finishedPlan (fl : drainFlags) (p : NodeMaintenancePlan) : NodeMaintenancePlan :=
  let q := setDrainConditions (fl_allDone fl) (fl_anyBlocked fl) (fl_evictionsInFlight fl) p in
  recomputePlanSummaries (updStatus (set_ps_AllNodesReadyForMaintenance (allNodesReady q)) q).

Lemma ensureDrainStarted_same now p :
  ps_Nodes (p_Status (ensureDrainStarted now p)) = ps_Nodes (p_Status p) ∧
  ps_Conditions (p_Status (ensureDrainStarted now p)) = ps_Conditions (p_Status p) ∧
  p_Spec (ensureDrainStarted now p) = p_Spec p ∧ p_Name (ensureDrainStarted now p) = p_Name p.
Proof. unfold ensureDrainStarted. destruct (ps_DrainStartedAt _); by split_and!. Qed.

Lemma ensureDrainStarted_at now p :
  ps_DrainStartedAt (p_Status (ensureDrainStarted now p)) = Some (default now (ps_DrainStartedAt (p_Status p))).
Proof. unfold ensureDrainStarted. by destruct (ps_DrainStartedAt (p_Status p)) eqn:E; cbn; rewrite ?E. Qed.

Lemma setDrainConditions_same a b c p :
  let q := setDrainConditions a b c p in
  ps_DrainStartedAt (p_Status q) = ps_DrainStartedAt (p_Status p) ∧ p_Name q = p_Name p ∧
  p_Spec q = p_Spec p.
Proof. cbn zeta. unfold setDrainConditions. repeat case_match; by split_and!. Qed.

Lemma finishedPlan_conditions fl p t :
  isConditionTrue (finishedPlan fl p) t =
  isConditionTrue (setDrainConditions (fl_allDone fl) (fl_anyBlocked fl)
    (fl_evictionsInFlight fl) p) t.
Proof. reflexivity. Qed.

(** The plan the loop left, with the drain start recorded when work remains. *)
Definition startedPlan (fl : drainFlags) (now : Time) (p : NodeMaintenancePlan) : NodeMaintenancePlan :=
  if fl_allDone fl then p else ensureDrainStarted now p.

Lemma startedPlan_same fl now p :
  ps_Nodes (p_Status (startedPlan fl now p)) = ps_Nodes (p_Status p) ∧
  ps_Conditions (p_Status (startedPlan fl now p)) = ps_Conditions (p_Status p) ∧
  p_Spec (startedPlan fl now p) = p_Spec p ∧ p_Name (startedPlan fl now p) = p_Name p.
Proof. unfold startedPlan. destruct (fl_allDone fl); [by split_and!|]. apply ensureDrainStarted_same. Qed.

Lemma startedPlan_DrainStartedAt fl now p q :
  ps_DrainStartedAt (p_Status p) = ps_DrainStartedAt (p_Status q) →
  ps_DrainStartedAt (p_Status (startedPlan fl now p)) =
  ps_DrainStartedAt (p_Status (startedPlan fl now q)).
Proof.
  intros Heq. unfold startedPlan, ensureDrainStarted. destruct (fl_allDone fl); [done|].
  destruct (ps_DrainStartedAt (p_Status p)) eqn:Ep, (ps_DrainStartedAt (p_Status q)) eqn:Eq; cbn;
    congruence.
Qed.

(** With the start recorded the deadline check is answered, and as it should be. *)
Lemma drainExpired_started p now d :
  s_Drain (p_Spec p) = Some d →
  drainExpired (ensureDrainStarted now p) (d_TimeoutMinutes d) now = Some (deadlinePassed p now).
Proof.
  intros Hd. unfold drainExpired, deadlinePassed, ensureDrainStarted. rewrite Hd. cbn.
  destruct (d_TimeoutMinutes d); [|done]. by destruct (ps_DrainStartedAt (p_Status p)) eqn:E; cbn; rewrite ?E.
Qed.

(** What the loop over the results leaves the deadline alone. *)
Lemma deadlinePassed_steps results p p' now :
  statusSteps results p p' → deadlinePassed p' now = deadlinePassed p now.
Proof. intros (_ & Hs & _ & _ & Hd & _). unfold deadlinePassed. by rewrite Hs, Hd. Qed.

Lemma finishedPlan_call results p0 p1 now :
  statusSteps results p0 p1 → expiredAt results p0 now = false →
  passCallAt results p0 now
    (CPatchPlanStatus p0 (finishedPlan (flagsOf results) (startedPlan (flagsOf results) now p1))).
Proof.
  intros Hst Hexp. set (fl := flagsOf results). set (p2 := startedPlan fl now p1).
  destruct (setDrainConditions_effect (fl_allDone fl) (fl_anyBlocked fl)
    (fl_evictionsInFlight fl) p2) as (Hsu & Hbl & Hip & Hoth & Hno).
  destruct (setDrainConditions_same (fl_allDone fl) (fl_anyBlocked fl)
    (fl_evictionsInFlight fl) p2) as (Hqd & _).
  destruct (startedPlan_same fl now p1) as (Hn & Hc & _). fold p2 in Hn, Hc.
  split; [done|]. split; [eapply readyEarned_steps; [done|exact (eq_trans Hno Hn)]|].
  destruct Hst as (Hc0 & _ & _ & _ & Hd & _ & _).
  unfold passStatus. rewrite Hexp, !finishedPlan_conditions. fold fl. rewrite Hsu, Hip. cbn [negb orb].
  split; [|split; [|split; [done|split; [by rewrite andb_true_r|]]]].
  - transitivity (ps_DrainStartedAt (p_Status p2)); [exact Hqd|].
    unfold p2. rewrite (startedPlan_DrainStartedAt _ _ _ _ Hd). unfold startedPlan.
    destruct (fl_allDone fl); [done|]. apply ensureDrainStarted_at.
  - rewrite Hoth by unlisted. apply isConditionTrue_ext. congruence.
  - intros _. split; [exact Hbl|reflexivity].
Qed.

Lemma rgM_finishDrainPass R results p0 p1 now s :
  statusSteps results p0 p1 → expiredAt results p0 now = false →
  st_plan s = startedPlan (flagsOf results) now p1 →
  rgM R (passCallAt results p0 now) (finishDrainPass p0 (flagsOf results)) s
    (λ s' o, o ≠ Panic ∧ st_heap s' = st_heap s ∧ ∀ d, o = OK d → d = requeueOf (flagsOf results)).
Proof.
  intros Hst Hexp Hs. pose proof (finishedPlan_call _ _ _ _ Hst Hexp) as Hpatch.
  rewrite <-Hs in Hpatch. unfold finishDrainPass.
  rg_steps; try done; (apply rgM_patchPlanStatus; cbn [st_plan st_heap];
    [exact Hpatch|intros e _; by split_and!|intros p' _; rg_steps; by split_and!; [..|intros ? [= <-]]]).
Qed.

(** The plan the timed-out branch sends. *)
Lemma timedOutPlan_call results p0 p1 now minutes :
  statusSteps results p0 p1 → expiredAt results p0 now = true →
  passCallAt results p0 now
    (CPatchPlanStatus p0 (setTimedOutConditions minutes (ensureDrainStarted now p1))).
Proof.
  intros Hst Hexp. destruct (ensureDrainStarted_same now p1) as (Hn & _).
  split; [done|]. split; [eapply readyEarned_steps; [done|exact Hn]|].
  destruct Hst as (_ & _ & _ & _ & Hd & _ & _). unfold passStatus. rewrite Hexp.
  pose proof Hexp as [Hun%negb_true_iff _]%andb_true_iff. rewrite Hun.
  unfold setTimedOutConditions. cbv beta zeta. cbn [negb].
  split; [|split; [cond_simpl; reflexivity|split; [cond_simpl; reflexivity|
    split; [cond_simpl; reflexivity|done]]]].
  rewrite <-Hd. apply (ensureDrainStarted_at now p1).
Qed.

Lemma rgM_endDrainPass R results p0 now s :
  is_Some (s_Drain (p_Spec p0)) → statusSteps results p0 (st_plan s) →
  rgM R (passCallAt results p0 now) (endDrainPass p0 (flagsOf results) now) s (λ s' o,
    o ≠ Panic ∧ st_heap s' = st_heap s ∧ ∀ d, o = OK d → d = passRequeue results p0 now).
Proof.
  intros [dr Hdr] Hst. unfold endDrainPass, passRequeue.
  destruct (fl_allDone (flagsOf results)) eqn:Hall; cbn [negb].
  { eapply rgM_post; [apply (rgM_finishDrainPass R results _ (st_plan s) now); [done| |]|].
    - unfold expiredAt. by rewrite Hall.
    - unfold startedPlan. by rewrite Hall.
    - intros s2 o (? & ? & Hq). split_and!; [done|done|]. intros d Ho.
      rewrite (Hq d Ho). unfold requeueOf. by rewrite Hall. }
  pose proof Hst as (_ & Hsp & _). do 4 rg_step. cbn [st_plan].
  destruct (ensureDrainStarted_same now (st_plan s)) as (_ & _ & Hsp' & _).
  rewrite Hsp', Hsp, Hdr, drainExpired_started by congruence.
  assert (deadlinePassed (st_plan s) now = expiredAt results p0 now) as ->
    by (unfold expiredAt; rewrite Hall; by apply (deadlinePassed_steps results)).
  destruct (expiredAt results p0 now) eqn:He.
  - unfold abortDrain. rg_steps; [done|]. apply rgM_patchPlanStatus; cbn [st_plan st_heap];
      [by apply timedOutPlan_call|by intros e _; split_and!|].
    intros p' _. rg_step. split_and!; [done|done|]. by intros d [= <-].
  - eapply rgM_post; [apply (rgM_finishDrainPass R results _ (st_plan s) now); [done|done|]|].
    + unfold startedPlan. by rewrite Hall.
    + intros s2 o (? & ? & Hq). split_and!; [done|done|]. intros d Ho.
      rewrite (Hq d Ho). unfold requeueOf. by rewrite Hall.
Qed.

Lemma rgM_applyDrainResults R results s :
  is_Some (s_Drain (p_Spec (st_plan s))) →
  rgM R (passCall results (st_plan s)) (applyDrainResults results) s (λ s' o,
    o ≠ Panic ∧ st_heap s' = st_heap s).
Proof.
  intros Hdr. unfold applyDrainResults. rewrite flagsOf_spec. do 3 rg_step.
  apply (rgM_mono (rgM_applyDrainResult_all R (st_plan s) results s));
    [done|by intros [] ?; try done; by exists 0|].
  intros s1 o (-> & Hh & Hst). do 2 rg_step; [done|].
  eapply rgM_mono; [by apply (rgM_endDrainPass R)|done|by intros [] ?; try done; by exists r|].
  intros s2 o (? & ? & _). split; congruence.
Qed.

(** Every way to the end sends a status. *)
Lemma patchPlanStatus_run original s t s' o :
  runM (patchPlanStatus original) s t s' o →
  CPatchPlanStatus original (st_plan s) ∈ ev_act <$> t.
Proof. intros (r & t' & -> & _). apply list_elem_of_here. Qed.

Lemma runM_modifyPlan {A} f (m : M A) s t s' o :
  runM (modifyPlan f;; m) s t s' o → runM m (MkSt (f (st_plan s)) (st_heap s)) t s' o.
Proof. exact id. Qed.

Lemma runM_getPlan {A} (k : NodeMaintenancePlan → M A) s t s' o :
  runM (p ← getPlan; k p) s t s' o → runM (k (st_plan s)) s t s' o.
Proof. exact id. Qed.

Lemma finishDrainPass_run original fl s t s' o :
  runM (finishDrainPass original fl) s t s' o →
  CPatchPlanStatus original (finishedPlan fl (st_plan s)) ∈ ev_act <$> t ∧
  ∀ d, o = OK d → d = requeueOf fl.
Proof.
  unfold finishDrainPass. intros Hrun%runM_modifyPlan%runM_modifyPlan%runM_getPlan.
  apply runM_bind in Hrun as (t1 & s1 & o1 & t2 & -> & Hev & Hrun).
  assert (o1 = OK tt ∧ s1 = MkSt (updStatus (set_ps_AllNodesReadyForMaintenance (allNodesReady
    (setDrainConditions (fl_allDone fl) (fl_anyBlocked fl) (fl_evictionsInFlight fl) (st_plan s))))
    (setDrainConditions (fl_allDone fl) (fl_anyBlocked fl) (fl_evictionsInFlight fl) (st_plan s)))
    (st_heap s)) as [-> ->].
  { destruct (_ && _) in Hev; [destruct Hev as ([] & t9 & -> & -> & [= -> ->])|
      destruct Hev as [-> [= -> ->]]]; done. }
  apply runM_modifyPlan in Hrun.
  apply runM_bind in Hrun as (t3 & s3 & o3 & t4 & -> & Hpatch & Hrun).
  apply wrapErr_run in Hpatch as (o' & Hpatch%patchPlanStatus_run & _). cbn [st_plan] in Hpatch.
  split.
  - rewrite !fmap_app, !elem_of_app. right. left. exact Hpatch.
  - intros d ->. destruct o3 as [[]|e|]; [|by destruct Hrun as (_ & _ & [=])..].
    by destruct Hrun as [_ [= _ ->]].
Qed.

Lemma abortDrain_run original minutes s t s' o :
  runM (abortDrain original minutes) s t s' o →
  ∃ p', CPatchPlanStatus original p' ∈ ev_act <$> t.
Proof.
  unfold abortDrain. intros Hrun%runM_modifyPlan.
  apply runM_bind in Hrun as (t1 & s1 & o1 & t2 & -> & Hev & Hrun).
  destruct Hev as ([] & t9 & -> & -> & [= -> ->]). cbn [app] in *.
  apply runM_bind in Hrun as (t3 & s3 & o3 & t4 & -> & Hpatch & _).
  apply wrapErr_run in Hpatch as (o' & Hpatch%patchPlanStatus_run & _).
  eexists. rewrite fmap_cons, fmap_app, elem_of_cons, elem_of_app. right. left. exact Hpatch.
Qed.

(** The instant a reading of the clock answers. *)
Definition metaNowOf (e : event resp) : option Time :=
  match e with
  | Ev c r => match c return resp c → option Time with CMetaNow => Some | _ => λ _, None end r
  end.

(** A pass is its loop, one reading of the clock and what follows it. *)
Lemma applyDrainResults_run results s t s' o :
  runM (applyDrainResults results) s t s' o →
  ∃ t1 s1 now t2, t = t1 ++ Ev CMetaNow now :: t2 ∧ issued notifies t1 ∧
    statusSteps results (st_plan s) (st_plan s1) ∧
    runM (endDrainPass (st_plan s) (flagsOf results) now) s1 t2 s' o.
Proof.
  unfold applyDrainResults. intros Hrun%runM_getPlan. rewrite flagsOf_spec in Hrun.
  apply runM_bind in Hrun as (t1 & s1 & o1 & t2 & -> & Hloop & Hrun).
  destruct (rgM_sound (rgM_applyDrainResult_all anyAnswer (st_plan s) results s) Hloop (answered_any _))
    as (Hi & -> & _ & Hst).
  apply runM_bind in Hrun as (t3 & s3 & o3 & t4 & -> & Hnow & Hrun).
  destruct Hnow as (now & t5 & -> & -> & [= -> ->]). by exists t1, s1, now, t4.
Qed.

Lemma endDrainPass_sends results p0 now s t s' o :
  is_Some (s_Drain (p_Spec p0)) → statusSteps results p0 (st_plan s) →
  runM (endDrainPass p0 (flagsOf results) now) s t s' o → ∃ p', CPatchPlanStatus p0 p' ∈ ev_act <$> t.
Proof.
  intros [dr Hdr] Hst Hrun. unfold endDrainPass in Hrun. destruct (negb _).
  2: { apply finishDrainPass_run in Hrun as [Hp _]. by eexists. }
  apply runM_modifyPlan, runM_getPlan in Hrun. cbn [st_plan] in Hrun.
  destruct (ensureDrainStarted_same now (st_plan s)) as (_ & _ & Hsp' & _).
  rewrite Hsp', (proj1 (proj2 Hst)), Hdr, drainExpired_started in Hrun by (rewrite (proj1 (proj2 Hst)); exact Hdr).
  destruct (deadlinePassed _ _); [by eapply abortDrain_run|].
  apply finishDrainPass_run in Hrun as [Hp _]. by eexists.
Qed.

(** C20: one pass over the results of the nodes.  Whatever the API server
    answers, the pass never panics, reads the clock for its deadline exactly once,
    writes nothing but the status of the plan (from the copy taken at its start),
    and does write it.  In that status the drain conditions, the recorded start of
    the drain and the aggregate readiness are the ones the results call for at that
    very reading of the clock: success when every node is drained; a time-out when
    work is left and the plan's deadline, counted from the recorded start of the
    drain, has passed; otherwise progress or blocked.  A successful pass asks to be
    repeated after 5 s, or 15 s when only blocked nodes remain, unless everything is
    drained or the drain timed out. *)
Theorem applyDrainResults_pass results s t s' o :
  is_Some (s_Drain (p_Spec (st_plan s))) →
  runM (applyDrainResults results) s t s' o →
  o ≠ Panic ∧ ∃ now,
  (∀ now', Ev CMetaNow now' ∈ t ↔ now' = now) ∧
  (∀ d, o = OK d → d = passRequeue results (st_plan s) now) ∧
  (∃ p', CPatchPlanStatus (st_plan s) p' ∈ ev_act <$> t) ∧
  ∀ e, e ∈ t → match ev_act e with
    | CPatchPlanStatus original p' => original = st_plan s ∧ passStatus results (st_plan s) now p'
    | CEvent _ | CNow | CMetaNow => True
    | _ => False
    end.
Proof.
  intros Hd (t1 & s1 & now & t2 & -> & Hi1 & Hst & Hrun)%applyDrainResults_run.
  destruct (rgM_sound (rgM_endDrainPass anyAnswer results _ now s1 Hd Hst) Hrun (answered_any _))
    as (Hi & Ho & _ & Hq).
  split; [done|]. exists now. split_and!; [| exact Hq | |].
  - intros now'. rewrite elem_of_app, elem_of_cons. split; [|intros ->; right; by left].
    intros [He|[He|He]]; [by pose proof (issued_elem _ _ _ Hi1 He)| |by pose proof (issued_elem _ _ _ Hi He)].
    apply (f_equal metaNowOf) in He. by injection He.
  - destruct (endDrainPass_sends _ _ _ _ _ _ _ Hd Hst Hrun) as [p' Hp]. exists p'.
    rewrite fmap_app, fmap_cons, elem_of_app, elem_of_cons. auto.
  - intros e [He|[->|He]%elem_of_cons]%elem_of_app; [|done|].
    + pose proof (issued_elem _ _ _ Hi1 He). by destruct (ev_act e).
    + pose proof (issued_elem _ _ _ Hi He) as Hc. destruct (ev_act e); cbn in Hc; tauto.
Qed.

(** Readiness in the statuses a pass sends is earned by a drained result. *)
Lemma applyDrainResults_ready results s t s' o :
  is_Some (s_Drain (p_Spec (st_plan s))) →
  runM (applyDrainResults results) s t s' o →
  ∀ original p', CPatchPlanStatus original p' ∈ ev_act <$> t →
  ∀ x ns', findNodeStatus p' x = Some ns' → ns_ReadyForMaintenance ns' = true →
  ∃ ns, findNodeStatus (st_plan s) x = Some ns ∧
    (ns_ReadyForMaintenance ns = true ∨
     ns_Cordoned ns = true ∧ ∃ r, r ∈ results ∧ dr_NodeName r = x ∧
       dr_Err r = None ∧ do_Evicted (dr_Outcome r) = 0 ∧ do_Terminating (dr_Outcome r) = 0 ∧
       do_StuckTerminating (dr_Outcome r) = 0).
Proof.
  intros Hd Hrun original p' Hin x ns' Hx Hr.
  destruct (rgM_sound (rgM_applyDrainResults anyAnswer results s Hd) Hrun) as (Hi & _).
  { by apply Forall_true. }
  apply list_elem_of_fmap in Hin as (e & Heq & He).
  unfold issued in Hi. rewrite Forall_forall in Hi. specialize (Hi e).
  rewrite <-list_elem_of_In in Hi. specialize (Hi He). rewrite <-Heq in Hi.
  destruct Hi as (now & _ & Hearn & _). destruct (Hearn x ns' Hx Hr) as (ns & Hns & _ & H1).
  exists ns. split; [done|]. destruct H1 as [?|(Hc & r & Hrin & Hn & Hdr)]; [by left|]. right.
  split; [done|]. exists r. split_and!; [done|done|by apply isDrained_iff..].
Qed.

(** ** The targets *)

(** A stable node that may be drained: cordoned in the cluster and Ready. *)
Definition drainTarget (s : st) (res : OwnershipResolution) (n : Node) : Prop :=
  (∃ l, l ∈ ow_Stable res ∧ st_heap s !! l = Some n) ∧
  n_Unschedulable n = true ∧ isNodeReady n = true.

Lemma rgM_selectDrainTarget R G idx acc l s (Q : st → outcome _ → Prop) :
  (∀ n, st_heap s !! l = Some n → Q s (OK (selectNode idx acc n))) →
  (st_heap s !! l = None → Q s Panic) → rgM R G (selectDrainTarget idx acc l) s Q.
Proof. intros H1 H2. unfold selectDrainTarget. rg_steps; auto. Qed.

Lemma rgM_selectDrainTargets R idx ls acc s (P : Node → Prop) :
  (∀ l n, l ∈ ls → st_heap s !! l = Some n → n_Unschedulable n = true → isNodeReady n = true → P n) →
  (∀ r, r ∈ acc.1 → isDrained r = false) → (∀ n, n ∈ acc.2 → P n) →
  rgM R silent (foldM (selectDrainTarget idx) acc ls) s (λ s' o, s' = s ∧
    (∀ e, o ≠ Fail e) ∧ ∀ acc', o = OK acc' → (∀ r, r ∈ acc'.1 → isDrained r = false) ∧ (∀ n, n ∈ acc'.2 → P n)).
Proof.
  revert acc. induction ls as [|l ls IH]; intros acc HP Hr Hn; cbn [foldM].
  { rg_step. split_and!; [done|done|]. by intros acc' [= <-]. }
  rg_step. apply rgM_selectDrainTarget; [intros n Hl|by intros _; split_and!].
  unfold selectNode. apply IH; [intros; eapply HP; [by apply list_elem_of_further|done..]|..];
    destruct (n_Unschedulable n) eqn:Hu, (isNodeReady n) eqn:Hrd; cbn; try done.
  - intros r [?| ->%list_elem_of_singleton]%elem_of_app; [by apply Hr|done].
  - intros n' [?| ->%list_elem_of_singleton]%elem_of_app; [by apply Hn|].
    eapply HP; [apply list_elem_of_here|done..].
Qed.

Lemma liftProg_run {A} (p : kprog A) s t s' o :
  runM (liftProg p) s t s' o → ∃ a, s' = s ∧ o = OK a ∧ run p t a.
Proof.
  unfold runM, liftProg. intros (t1 & a & t2 & -> & Hp & Hr)%run_bind.
  cbn in Hr. destruct Hr as [-> [= -> ->]]. exists a. by rewrite app_nil_r.
Qed.

Lemma getDrainConfig_drain plan cfg : getDrainConfig plan = Some cfg → is_Some (s_Drain (p_Spec plan)).
Proof. unfold getDrainConfig. by destruct (s_Drain (p_Spec plan)). Qed.

(** The shape of a drain phase: nothing, or the drains of the targets followed by
    the bookkeeping over their results. *)
Lemma ReconcileDrain_run res s t s' o :
  runM (ReconcileDrain res) s t s' o →
  (t = [] ∧ s' = s ∧ (o = OK noRequeue ∨ o = Panic)) ∨
  ∃ cfg notReady nodes drained t1 t2,
    getDrainConfig (st_plan s) = Some cfg ∧
    isConditionTrue (st_plan s) ConditionDrainTimedOut = false ∧
    (∀ r, r ∈ notReady → isDrained r = false) ∧ (∀ n, n ∈ nodes → drainTarget s res n) ∧
    t = t1 ++ t2 ∧ run (drainNodes (st_plan s) nodes) t1 drained ∧
    runM (applyDrainResults (notReady ++ drained)) s t2 s' o.
Proof.
  unfold ReconcileDrain. intros Hrun.
  apply runM_bind in Hrun as (t1 & s1 & o1 & t2 & -> & Hg & Hrun).
  destruct Hg as [-> [= -> ->]]. cbn [app].
  destruct (getDrainConfig (st_plan s)) as [cfg|] eqn:Hcfg.
  2: { destruct Hrun as [-> [= -> ->]]. left. split_and!; [done|done|by left]. }
  destruct (isConditionTrue (st_plan s) ConditionDrainTimedOut) eqn:Hto.
  { destruct Hrun as [-> [= -> ->]]. left. split_and!; [done|done|by left]. }
  apply runM_bind in Hrun as (t3 & s3 & o3 & t4 & -> & Hsel & Hrun).
  destruct (rgM_sound (rgM_selectDrainTargets anyAnswer
    (notReadyIndex (ps_Nodes (p_Status (st_plan s)))) (ow_Stable res) ([], []) s
    (drainTarget s res)
    ltac:(intros l n ? ? ? ?; split_and!; [by exists l|done|done])
    ltac:(intros ? []%elem_of_nil) ltac:(intros ? []%elem_of_nil)) Hsel (answered_any _))
    as (Hsil%silent_trace & -> & Hnf & Hacc). subst t3. cbn [app].
  destruct o3 as [[notReady nodes]|e|].
  2: { by destruct (Hnf e). }
  2: { destruct Hrun as (-> & -> & ->). left. split_and!; [done|done|by right]. }
  destruct (Hacc _ eq_refl) as [Hnr Hnd]. cbn [fst snd] in *.
  assert (∀ X, (notReady = [] ∧ nodes = [] ∧ runM (mret noRequeue) s t4 s' o ∨
    runM (drained ← liftProg (drainNodes (st_plan s) nodes); applyDrainResults (notReady ++ drained))
      s t4 s' o → X) → X) as Hsplit.
  { intros X HX. apply HX. destruct notReady, nodes; [by left|by right..]. }
  apply Hsplit. clear Hsplit. intros [(-> & -> & Hrun')|Hrun'].
  { destruct Hrun' as [-> [= -> ->]]. left. split_and!; [done|done|by left]. }
  right. apply runM_bind in Hrun' as (t5 & s5 & o5 & t6 & -> & Hd & Hrun').
  apply liftProg_run in Hd as (drained & -> & -> & Hd).
  exists cfg, notReady, nodes, drained, t5, t6. by split_and!.
Qed.

(** The events and the drained results of the sequential schedule are those of
    the drains of its nodes. *)
Lemma drainNodes_event plan nodes t results e :
  run (drainNodes plan nodes) t results → e ∈ t →
  ∃ n t1 o err, n ∈ nodes ∧ run (drainNode plan n) t1 (o, err) ∧ e ∈ t1 ∧ t1 ⊆ t.
Proof.
  intros Hrun He. destruct (inOrder_event _ _ _ _ Hrun He) as (p & t1 & a & Hp & Hr & He1 & Hs).
  apply list_elem_of_fmap in Hp as (n & -> & Hn). unfold drainWorker in Hr.
  apply run_bind in Hr as (t2 & [o err] & t3 & -> & Hr & [-> ->]). rewrite app_nil_r in *.
  by exists n, t2, o, err.
Qed.

Lemma drainNodes_result plan nodes t results r :
  run (drainNodes plan nodes) t results → r ∈ results →
  ∃ n t1, n ∈ nodes ∧ dr_NodeName r = n_Name n ∧
    run (drainNode plan n) t1 (dr_Outcome r, dr_Err r) ∧ t1 ⊆ t.
Proof.
  intros Hrun Hin. destruct (inOrder_result _ _ _ _ Hrun Hin) as (p & t1 & Hp & Hr & Hs).
  apply list_elem_of_fmap in Hp as (n & -> & Hn). unfold drainWorker in Hr.
  apply run_bind in Hr as (t2 & [o err] & t3 & -> & Hr & [-> ->]). rewrite app_nil_r in *.
  by exists n, t2.
Qed.

(** What an event of a drain phase with trace [t] may be. *)
Definition drainEvent (res : OwnershipResolution) (s : st) (t : ktrace) (e : event resp) : Prop :=
  let justified pod (cond : drainConfig → Prop) :=
    isConditionTrue (st_plan s) ConditionDrainTimedOut = false ∧
    ∃ cfg n pods, getDrainConfig (st_plan s) = Some cfg ∧ drainTarget s res n ∧
      Ev (CListPods (n_Name n)) (inr pods) ∈ t ∧ pod ∈ pods ∧ evictable cfg pod = true ∧
      cond cfg in
  match ev_act e with
  | CEvict pod grace => justified pod (λ cfg, grace = dc_PodTerminationGracePeriodSeconds cfg)
  | CDeletePod pod => justified pod (λ cfg, dc_RespectPodDisruptionBudgets cfg = false)
  | CListPods name => ∃ n, drainTarget s res n ∧ name = n_Name n
  | CPatchPlanStatus original _ => original = st_plan s
  | CEvent _ | CNow | CMetaNow => True
  | _ => False
  end.

Lemma ReconcileDrain_event res s t s' o e :
  runM (ReconcileDrain res) s t s' o → e ∈ t → drainEvent res s t e.
Proof.
  intros Hrun He. unfold drainEvent.
  destruct (ReconcileDrain_run _ _ _ _ _ Hrun) as
    [(-> & _)|(cfg & nr & nodes & drained & t1 & t2 & Hcfg & Hto & _ & Hnd & -> & Hd & Ha)].
  { by apply elem_of_nil in He. }
  apply elem_of_app in He as [He|He].
  - destruct (drainNodes_event _ _ _ _ _ Hd He) as (n & t3 & o3 & err & Hn & Hr & He3 & Hs).
    pose proof (drainNode_events _ _ _ _ _ Hr e He3) as Hev. specialize (Hnd n Hn).
    destruct (ev_act e); try done; [by exists n|..];
      destruct Hev as (cfg' & pods & ? & ? & ? & ? & ?); (split; [done|]);
      exists cfg', n, pods; split_and!; try done; set_solver.
  - destruct (getDrainConfig_drain _ _ Hcfg) as [d Hdr].
    destruct (rgM_sound (rgM_applyDrainResults anyAnswer _ s ltac:(by eexists)) Ha
      (answered_any _)) as [Hi _].
    pose proof (issued_elem _ _ _ Hi He) as Hc. destruct (ev_act e); cbn in Hc; try done;
      destruct Hc as [now Hc]; tauto.
Qed.

(** C5: what a drain phase does to the cluster.  For every cluster behaviour, a
    pod is evicted or deleted only if the plan enables drain and has not timed
    out, and the pod was listed in this very pass on a node that is stable
    (owned by the plan before the pass), unschedulable and Ready, and is
    evictable under the plan's options; direct deletion needs the budgets waived
    by the plan.  Apart from that the phase writes only the plan's status: it
    patches no node and not the plan itself. *)
Theorem ReconcileDrain_evictions res s t s' o :
  runM (ReconcileDrain res) s t s' o →
  ∀ e, e ∈ t →
  let justified pod (cond : drainConfig → Prop) :=
    isConditionTrue (st_plan s) ConditionDrainTimedOut = false ∧
    ∃ cfg n pods, getDrainConfig (st_plan s) = Some cfg ∧ drainTarget s res n ∧
      Ev (CListPods (n_Name n)) (inr pods) ∈ t ∧ pod ∈ pods ∧ evictable cfg pod = true ∧
      cond cfg in
  match ev_act e with
  | CEvict pod grace => justified pod (λ cfg, grace = dc_PodTerminationGracePeriodSeconds cfg)
  | CDeletePod pod => justified pod (λ cfg, dc_RespectPodDisruptionBudgets cfg = false)
  | CListPods name => ∃ n, drainTarget s res n ∧ name = n_Name n
  | CPatchPlanStatus original _ => original = st_plan s
  | CEvent _ | CNow | CMetaNow => True
  | _ => False
  end.
Proof. intros Hrun e He. exact (ReconcileDrain_event _ _ _ _ _ _ Hrun He). Qed.

(** C7: "ready for maintenance" means empty.  When a drain phase sends a status
    in which a node is ready that was not before, the node is cordoned according
    to the plan's status, it was one of the drained nodes, and its pod list of
    this pass holds only pods drain leaves alone (mirror, completed or ignored
    DaemonSet pods) or pods whose eviction was answered "not found": no pod is
    left running, blocked, terminating or stuck.  (The pod lists of the pass are
    assumed to be shorter than 2^31 pods, since the pods are counted in int32.) *)
Theorem ReconcileDrain_ready_empty res s t s' o :
  runM (ReconcileDrain res) s t s' o → podListsFit t →
  ∀ original p' x ns', CPatchPlanStatus original p' ∈ ev_act <$> t →
  findNodeStatus p' x = Some ns' → ns_ReadyForMaintenance ns' = true →
  ∃ ns, findNodeStatus (st_plan s) x = Some ns ∧
    (ns_ReadyForMaintenance ns = true ∨
     ns_Cordoned ns = true ∧ ∃ cfg n pods, getDrainConfig (st_plan s) = Some cfg ∧
       drainTarget s res n ∧ n_Name n = x ∧ Ev (CListPods x) (inr pods) ∈ t ∧
       ∀ pod, pod ∈ pods → skipped cfg pod = true ∨ goneDuring t pod).
Proof.
  intros Hrun Hfit original p' x ns' Hp Hx Hr.
  destruct (ReconcileDrain_run _ _ _ _ _ Hrun) as
    [(-> & _)|(cfg & nr & nodes & drained & t1 & t2 & Hcfg & _ & Hnr & Hnd & -> & Hd & Ha)].
  { by apply elem_of_nil in Hp. }
  apply list_elem_of_fmap in Hp as (e & Heq & He).
  apply elem_of_app in He as [He|He].
  { destruct (drainNodes_event _ _ _ _ _ Hd He) as (n & t3 & o3 & err & _ & Hrn & He3 & _).
    pose proof (drainNode_events _ _ _ _ _ Hrn e He3) as Hev. by rewrite <-Heq in Hev. }
  destruct (applyDrainResults_ready _ _ _ _ _ (getDrainConfig_drain _ _ Hcfg) Ha original p')
    with (x := x) (ns' := ns') as (ns & Hns & H1); [|done|done|].
  { rewrite Heq. by apply list_elem_of_fmap_2. }
  exists ns. split; [done|]. destruct H1 as [?|(Hc & r & Hin & Hn & Her & Hz)]; [by left|]. right.
  split; [done|]. apply elem_of_app in Hin as [Hin|Hin].
  { specialize (Hnr r Hin). assert (isDrained r = true) by (by apply isDrained_iff). congruence. }
  destruct (drainNodes_result _ _ _ _ _ Hd Hin) as (n & t3 & Hnn & Hname & Hrn & Hs).
  rewrite Her in Hrn. destruct Hz as (Hz1 & Hz2 & Hz3).
  destruct (drainNode_empty _ _ _ _ _ Hcfg Hrn 
    ltac:(intros ? ? ?; eapply Hfit; apply elem_of_app; left; by apply Hs) Hz1 Hz2 Hz3)
    as (pods & Hl & Hpods).
  exists cfg, n, pods. split_and!; [done|by apply Hnd|congruence| |].
  - rewrite Hname in Hn. subst x. set_solver.
  - intros pod Hpod. destruct (Hpods pod Hpod) as [?|(g & er & Hg & ?)]; [by left|]. right.
    exists g, er. split; [set_solver|done].
Qed.

(** A timed-out drain stays timed out: with the condition set, or with drain
    not enabled, the phase makes no call, changes nothing and asks for no
    requeue. *)
Theorem ReconcileDrain_terminal res s t s' o :
  isConditionTrue (st_plan s) ConditionDrainTimedOut = true ∨ getDrainConfig (st_plan s) = None →
  runM (ReconcileDrain res) s t s' o → t = [] ∧ s' = s ∧ o = OK noRequeue.
Proof.
  unfold ReconcileDrain. intros Hoff Hrun.
  apply runM_bind in Hrun as (t1 & s1 & o1 & t2 & -> & [-> [= -> ->]] & Hrun).
  destruct (getDrainConfig (st_plan s)); [destruct (isConditionTrue _ _)|];
    [|by destruct Hoff|]; by destruct Hrun as [-> [= -> ->]].
Qed.

End DrainTheorems.

(** ** Node objects

    The drain phase writes no node and keeps the plan's name. *)
Lemma preserves_liftProg R G I {A} (p : kprog A) :
  rg R G p (λ _, True) → preserves R G I (liftProg p).
Proof.
  intros Hp s Hs. apply rg_bind. eapply rg_post; [exact Hp|]. intros a _. exact Hs.
Qed.

(** The calls of the workers: pods and the clock. *)
Definition podCalls : guar call := λ c,
  match c with CListPods _ | CEvict _ _ | CDeletePod _ | CNow => True | _ => False end.

Lemma rg_evictLoop R cfg o pdb pods : rg R podCalls (evictLoop cfg o pdb pods) (λ _, True).
Proof.
  revert o pdb. induction pods as [|pod pods IH]; intros o pdb; [done|]. cbn [evictLoop].
  apply rg_bind. split; [done|]. intros [err|] _; cbn; [|apply IH].
  repeat case_match; cbn; try done; try apply IH.
  split; [done|]. intros [d|] _; [|apply IH]. destruct (IsNotFound d); cbn; [apply IH|done].
Qed.

Lemma rg_drainNode R plan node : rg R podCalls (drainNode plan node) (λ _, True).
Proof.
  unfold drainNode. destruct (getDrainConfig plan) as [cfg|]; [|done].
  unfold filterPodsForDrain. split; [done|]. intros [e|pods] _; cbn; [done|].
  split; [done|]. intros now _. apply rg_bind. eapply rg_post; [apply rg_evictLoop|].
  by intros [o [e|pdb]] _.
Qed.

Lemma rg_drainNodes R plan nodes : rg R podCalls (drainNodes plan nodes) (λ _, True).
Proof.
  unfold drainNodes. induction nodes as [|n nodes IH]; [done|]. cbn [map inOrder].
  apply rg_bind. unfold drainWorker at 1. apply rg_bind.
  eapply rg_post; [apply rg_drainNode|]. intros r _. cbn. apply rg_bind.
  eapply rg_post; [exact IH|]. done.
Qed.

Section Quiet.
Context `{CO : ConditionOps}.

Lemma setDrainConditions_Name a b c p : p_Name (setDrainConditions a b c p) = p_Name p.
Proof. unfold setDrainConditions. by repeat case_match. Qed.

Lemma quiet_applyDrainResult original r : quiet (applyDrainResult original r).
Proof.
  intros h name s [Hh Hn].
  eapply rgM_mono; [apply (rgM_applyDrainResult keepsNames)|done|by intros []|].
  intros s' o (_ & Hh' & (_ & _ & Hn' & _)). split; congruence.
Qed.

#[local] Hint Resolve quiet_applyDrainResult : quiet.

Lemma quiet_finishDrainPass original fl : quiet (finishDrainPass original fl).
Proof. unfold finishDrainPass. quiet_tac. apply setDrainConditions_Name. Qed.

Lemma quiet_abortDrain original m : quiet (abortDrain original m).
Proof. unfold abortDrain. quiet_tac. Qed.

#[local] Hint Resolve quiet_finishDrainPass quiet_abortDrain : quiet.

Lemma quiet_endDrainPass original fl now : quiet (endDrainPass original fl now).
Proof. unfold endDrainPass. quiet_tac. apply ensureDrainStarted_same. Qed.

#[local] Hint Resolve quiet_endDrainPass : quiet.

Lemma quiet_applyDrainResults results : quiet (applyDrainResults results).
Proof. unfold applyDrainResults. quiet_tac. Qed.

Lemma quiet_selectDrainTarget idx acc l : quiet (selectDrainTarget idx acc l).
Proof. unfold selectDrainTarget. quiet_tac. Qed.

Lemma quiet_drainNodes plan nodes : quiet (liftProg (drainNodes plan nodes)).
Proof.
  intros h name. apply preserves_liftProg. eapply rg_mono; [apply rg_drainNodes|done|by intros []|done].
Qed.

#[local] Hint Resolve quiet_applyDrainResults quiet_selectDrainTarget quiet_drainNodes : quiet.

Lemma quiet_ReconcileDrain res : quiet (ReconcileDrain res).
Proof. unfold ReconcileDrain. quiet_tac. Qed.
End Quiet.

#[export] Hint Resolve quiet_ReconcileDrain : quiet.

(** ** The deadline *)

(** The largest timeout whose duration fits an [int64] of nanoseconds. *)
Definition maxTimeoutMinutes : Z := 153722867.

Lemma deadlinePassed_iff p now :
  (∀ m, s_Drain (p_Spec p) ≫= d_TimeoutMinutes = Some m → 0 ≤ m ≤ maxTimeoutMinutes) →
  deadlinePassed p now = true ↔
  ∃ m, s_Drain (p_Spec p) ≫= d_TimeoutMinutes = Some m ∧
    default now (ps_DrainStartedAt (p_Status p)) + m * 60 * 1000000000 < now.
Proof.
  unfold deadlinePassed, maxTimeoutMinutes. intros Hm.
  destruct (s_Drain (p_Spec p) ≫= d_TimeoutMinutes) as [m|]; [|split; [done|by intros (m & [=] & _)]].
  specialize (Hm m eq_refl). unfold drainDeadline, scaleDuration, Add, After, Minute, Second.
  rewrite int64_id by (unfold isInt64; lia). rewrite Z.ltb_lt.
  split; [intros; exists m; split; [done|lia]|]. intros (? & [= <-] & ?). lia.
Qed.

(** C33: the deadline of a drain.  Take a pass over the results of the nodes with
    work left, for a plan that has not timed out and whose timeout, if it has one,
    is at most 153722867 minutes (292 years: a larger one overflows).  It sends a
    status, in which the start of the drain is the one recorded before or, on the
    first pass with work left (evicting or blocked), the instant the pass read from
    the clock; and that status says the drain timed out exactly when there is a
    timeout and strictly more than that many minutes lie between that start and
    that reading.  So a drain never times out on its first pass, nor without a
    timeout. *)
Theorem applyDrainResults_deadline `{CL : ConditionLaws} results s t s' o :
  is_Some (s_Drain (p_Spec (st_plan s))) →
  (∀ m, s_Drain (p_Spec (st_plan s)) ≫= d_TimeoutMinutes = Some m → 0 ≤ m ≤ maxTimeoutMinutes) →
  isConditionTrue (st_plan s) ConditionDrainTimedOut = false →
  forallb isDrained results = false →
  runM (applyDrainResults results) s t s' o →
  ∃ now p', Ev CMetaNow now ∈ t ∧ CPatchPlanStatus (st_plan s) p' ∈ ev_act <$> t ∧
  let started := default now (ps_DrainStartedAt (p_Status (st_plan s))) in
  ps_DrainStartedAt (p_Status p') = Some started ∧
  (isConditionTrue p' ConditionDrainTimedOut = true ↔
   ∃ m, s_Drain (p_Spec (st_plan s)) ≫= d_TimeoutMinutes = Some m ∧
     started + m * 60 * 1000000000 < now).
Proof.
  intros Hd Hm Hto Hwork (t1 & s1 & now & t2 & -> & _ & Hst & Hrun)%applyDrainResults_run.
  destruct (rgM_sound (rgM_endDrainPass anyAnswer results _ now s1 Hd Hst) Hrun (answered_any _))
    as (Hi & _).
  destruct (endDrainPass_sends _ _ _ _ _ _ _ Hd Hst Hrun) as [p' Hp].
  pose proof Hp as (e & Heq & He)%list_elem_of_fmap. pose proof (issued_elem _ _ _ Hi He) as Hc.
  rewrite <-Heq in Hc. destruct Hc as (_ & _ & Hstart & Hexp & _).
  assert (fl_allDone (flagsOf results) = false) as Hleft by exact Hwork. exists now, p'. cbn zeta. split_and!.
  - apply elem_of_app. right. apply list_elem_of_here.
  - rewrite fmap_app, fmap_cons, elem_of_app, elem_of_cons. auto.
  - by rewrite Hleft in Hstart.
  - rewrite Hexp, Hto, orb_false_r. unfold expiredAt. rewrite Hleft. by apply deadlinePassed_iff.
Qed.

(** One minute more and the product overflows: the deadline lies in the past and
    the drain expires on its first pass. *)
Example drainExpired_overflow :
  drainExpired (ensureDrainStarted 0 (examplePlan ["n1"])) (Some (maxTimeoutMinutes + 1)) 0 = Some true.
Proof. reflexivity. Qed.

(** The timed-out branch leaves the phase as it was. *)
Lemma setTimedOutConditions_phase `{CO : ConditionOps} minutes plan :
  ps_Phase (p_Status (setTimedOutConditions minutes plan)) = ps_Phase (p_Status plan).
Proof. reflexivity. Qed.

(** A node whose pods could not be listed counts as an error, and its entry is
    updated with the empty outcome: a node with all of its eight pods left to
    evict is reported as fully drained. *)
Example listFailure_progress (ns : NodeStatus) :
  drainCaseOf (MkDrainNodeResult "n1" zeroOutcome (Some (ErrWrap "listing pods on node n1" (ErrApi notFound)))) =
    CaseError ∧
  ns_DrainProgress (applyOutcome zeroOutcome [] (set_ns_InitialPodCount 8 ns)) = 100.
Proof. split; reflexivity. Qed.

(** ** Witnesses

    One stable node, cordoned, with a status entry; drain enabled. *)
Definition cordonedNode (name : string) : Node := set_n_Unschedulable true (exampleNode name).

Definition cordonedStatus (name : string) : NodeStatus :=
  set_ns_Name name (set_ns_Cordoned true zeroNodeStatus).

Definition drainingPlan : NodeMaintenancePlan :=
  updStatus (set_ps_Nodes [cordonedStatus "n1"]) (examplePlan ["n1"]).

Definition drainState : st := MkSt drainingPlan [cordonedNode "n1"].

Definition stableResolution : OwnershipResolution :=
  MkOwnershipResolution [] [] [0%nat] [] [0%nat] None.

Abbreviation drainExec tb := (execTrace tb (ReconcileDrain stableResolution) drainState).

Lemma applyDrainResults_pass_witness :
  let r := execResult emptyTables
             (applyDrainResults [MkDrainNodeResult "n1" (MkDrainOutcome 1 1 1 0 0 []) None]) drainState in
  r.2 = OK drainCheckInterval ∧ r.2 ≠ Panic.
Proof.
  cbn zeta. split; [vm_compute; reflexivity|].
  assert (is_Some (s_Drain (p_Spec (st_plan drainState)))) as Hd by (eexists; reflexivity).
  exact (proj1 (applyDrainResults_pass _ _ _ _ _ Hd (exec_run emptyTables
    (applyDrainResults [MkDrainNodeResult "n1" (MkDrainOutcome 1 1 1 0 0 []) None]) drainState))).
Defined.

(** The plan times out after 60 minutes; its drain started at 0. *)
Definition lateState : st :=
  MkSt (updStatus (set_ps_DrainStartedAt (Some 0)) drainingPlan) [cordonedNode "n1"].

Definition lateTables : tables := MkTables [] (λ _, []) [] [] (λ _, None) (61 * Minute).

Definition unfinishedResults : list drainNodeResult :=
  [MkDrainNodeResult "n1" (MkDrainOutcome 1 1 1 0 0 []) None].

Lemma applyDrainResults_deadline_witness :
  let t := execTrace lateTables (applyDrainResults unfinishedResults) lateState in
  ∃ now p', Ev (Res:=resp) CMetaNow now ∈ t ∧ CPatchPlanStatus (st_plan lateState) p' ∈ ev_act <$> t ∧
    (isConditionTrue p' ConditionDrainTimedOut = true ↔
     ∃ m, s_Drain (p_Spec (st_plan lateState)) ≫= d_TimeoutMinutes = Some m ∧ 0 + m * 60 * 1000000000 < now).
Proof.
  destruct (applyDrainResults_deadline unfinishedResults lateState _ _ _ ltac:(eexists; reflexivity)
    ltac:(intros m [= <-]; vm_compute; split; discriminate) eq_refl eq_refl
    (exec_run lateTables (applyDrainResults unfinishedResults) lateState))
    as (now & p' & Hn & Hp & _ & Hto).
  exists now, p'. split; [exact Hn|]. split; [exact Hp|exact Hto].
Defined.

Lemma ReconcileDrain_evictions_witness :
  let pod := examplePod "web" [exampleController] in
  let t := drainExec drainTables in
  Ev (CEvict pod None) None ∈ t ∧
  isConditionTrue drainingPlan ConditionDrainTimedOut = false ∧
  ∃ n, drainTarget drainState stableResolution n.
Proof.
  assert (Ev (Res:=resp) (CEvict (examplePod "web" [exampleController]) None) None
    ∈ drainExec drainTables) as He.
  { apply (list_elem_of_lookup_2 _ 2). vm_compute. reflexivity. }
  split; [exact He|].
  destruct (ReconcileDrain_evictions _ _ _ _ _
    (exec_run drainTables (ReconcileDrain stableResolution) drainState) _ He)
    as (Hto & cfg & n & pods & _ & Hn & _).
  split; [exact Hto|]. exists n. exact Hn.
Defined.

Lemma ReconcileDrain_ready_empty_witness :
  let t := drainExec emptyTables in
  ∃ p' ns', CPatchPlanStatus drainingPlan p' ∈ ev_act <$> t ∧
    findNodeStatus p' "n1" = Some ns' ∧ ns_ReadyForMaintenance ns' = true ∧
    ∃ ns, findNodeStatus drainingPlan "n1" = Some ns.
Proof.
  cbn zeta.
  set (p' := st_plan (execResult emptyTables (ReconcileDrain stableResolution) drainState).1).
  assert (CPatchPlanStatus drainingPlan p' ∈ ev_act <$> drainExec emptyTables) as Hp.
  { apply (list_elem_of_lookup_2 _ 5). vm_compute. reflexivity. }
  assert (podListsFit (drainExec emptyTables)) as Hfit
    by (apply podListsFit_check; vm_compute; reflexivity).
  eexists p', _. split; [exact Hp|]. split; [vm_compute; reflexivity|]. split; [reflexivity|].
  destruct (ReconcileDrain_ready_empty _ _ _ _ _
    (exec_run emptyTables (ReconcileDrain stableResolution) drainState) Hfit _ _ "n1" _ Hp
    ltac:(vm_compute; reflexivity) eq_refl) as (ns & Hns & _).
  exists ns. exact Hns.
Defined.

Lemma ReconcileDrain_terminal_witness :
  let s := MkSt (setCondition drainingPlan ConditionDrainTimedOut ConditionTrue "" "")
             [cordonedNode "n1"] in
  execTrace emptyTables (ReconcileDrain stableResolution) s = [].
Proof.
  cbn zeta. eapply ReconcileDrain_terminal; [left|apply exec_run]. reflexivity.
Defined.
