(* ===== verification/Status.v ===== *)
(** * Plan status (status.go)

    [UpdateStatus] rebuilds the per-node statuses from the nodes of the pass and
    sets the plan-level conditions; the counters of the drain phase survive. *)
From S2P Require Import Prelude GoTime Api Prog Kube Conditions Drift Ownership DrainNode.
From S2P Require Import DrainStatus.

(** [existing[ns.Name] = ns] for every previous status. *)
Definition indexStatuses (nodes : list NodeStatus) : gmap string NodeStatus :=
  foldl (λ m ns, <[ns_Name ns := ns]> m) ∅ nodes.

Definition loadAll (ls : list loc) : M (list Node) :=
  foldM (λ acc l, node ← load l; mret (acc ++ [node])) [] ls.

(** Body of the loop of [warnDisappearedNodes]. *)
Definition warnDisappearedNode (inAll inRelease : gset string) (ns : NodeStatus) : M unit :=
  if decide (ns_Name ns ∈ inAll) then mret tt
  else if decide (ns_Name ns ∈ inRelease) then mret tt
  else if (0 <? ns_InitialPodCount ns) && (ns_DrainProgress ns <? 100) then
    Eventf None EventTypeWarning "NodeDisappeared" "DrainNode"
      ("node " +:+ quote (ns_Name ns)
       +:+ " disappeared from the cluster while drain was in progress")
  else mret tt.

Definition warnDisappearedNodes (existing : gmap string NodeStatus) (res : OwnershipResolution)
    : M unit :=
  all ← loadAll (ow_All res);
  toRelease ← loadAll (ow_ToRelease res);
  let resAllNames : gset string := list_to_set (map n_Name all) in
  let resToReleaseNames : gset string := list_to_set (map n_Name toRelease) in
  entries ← rangeMap existing;
  rangeM entries (λ e, warnDisappearedNode resAllNames resToReleaseNames e.2).

(** Drift of a node as recorded in the new status. *)
Definition recordedDrift (plan : NodeMaintenancePlan) (node : Node) : bool * string :=
  let '(drifted, reason) :=
    let '(drifted, reason) := DetectNodeDrift (Some node) plan in
    if negb drifted then GetNodeDriftState plan (n_Name node) else (drifted, reason) in
  if decide (reason = DriftReasonMaintenanceComplete) then (false, "") else (drifted, reason).

(** One iteration of the loop of [buildNodeStatuses]. *)
Definition buildNodeStatus (existing : gmap string NodeStatus) (plan : NodeMaintenancePlan)
    (now : Time) (node : Node) : NodeStatus :=
  let '(drifted, reason) := recordedDrift plan node in
  let ns := default zeroNodeStatus (existing !! n_Name node) in
  let ns := ns
    |> set_ns_Name (n_Name node)
    |> set_ns_Cordoned (n_Unschedulable node)
    |> set_ns_Drifted drifted
    |> set_ns_DriftReason reason in
  if negb (isNodeReady node) then
    match ns_NotReadySince ns with
    | None => set_ns_NotReadySince (Some now) ns
    | Some _ => ns
    end
  else set_ns_NotReadySince None ns.

Definition buildNodeStatuses (existing : gmap string NodeStatus) (nodes : list Node)
    (plan : NodeMaintenancePlan) (now : Time) : list NodeStatus :=
  map (buildNodeStatus existing plan now) nodes.

(** The loop computing [allCordoned] and [nonDriftedCount] in [UpdateStatus]. *)
Definition allCordonedStep (acc : bool * nat) (ns : NodeStatus) : bool * nat :=
  if ns_Drifted ns then acc
  else (if negb (ns_Cordoned ns) then false else acc.1, S acc.2).

Definition allCordoned (enabled : bool) (statuses : list NodeStatus) : bool :=
  let '(all, nonDriftedCount) :=
    foldl allCordonedStep (enabled && negb (Nat.eqb (length statuses) 0), 0%nat) statuses in
  if Nat.eqb nonDriftedCount 0 then false else all.

(** Body of the loop of [setNodeNotReadyCondition]. *)
Definition notReadyStep (names : list string) (ns : NodeStatus) : M (list string) :=
  match ns_NotReadySince ns with
  | None => mret names
  | Some since =>
      now ← perform CNow;
      if notReadyBeyondThreshold (Some since) now then
        plan ← getPlan;
        (if negb (drainEnabled plan)
         then Eventf None EventTypeWarning "NodeNotReady" "ObserveNode"
                ("node " +:+ quote (ns_Name ns) +:+ " has been NotReady for >"
                 +:+ pretty (Z.quot nodeNotReadyThreshold Second)
                 +:+ "s; Kubernetes node lifecycle controller is managing pod eviction")
         else mret tt);;
        mret (names ++ [ns_Name ns])
      else mret names
  end.

Section Status.
Context `{CO : ConditionOps}.

Definition setNodeNotReadyCondition (statuses : list NodeStatus) : M unit :=
  names ← foldM notReadyStep [] statuses;
  modifyPlan (λ plan,
    match names with
    | _ :: _ => setCondition plan ConditionNodeNotReady ConditionTrue "NodeNotReady"
        (pretty (length names) +:+ " node(s) NotReady beyond threshold: " +:+ strJoin ", " names)
    | [] => setCondition plan ConditionNodeNotReady ConditionFalse "AllNodesReady"
        "All managed nodes are healthy"
    end).

(** The fields and conditions of [UpdateStatus] up to the Conflict condition. *)
Definition setNodesSelected (statuses : list NodeStatus) (plan : NodeMaintenancePlan)
    : NodeMaintenancePlan :=
  match statuses with
  | _ :: _ => setCondition plan ConditionNodesSelected ConditionTrue "NodesAdopted"
      (pretty (length statuses) +:+ " node(s) under management")
  | [] => setCondition plan ConditionNodesSelected ConditionFalse "NoNodes"
      "No nodes selected or all nodes released"
  end.

Definition setCordoned (cordoned : bool) (plan : NodeMaintenancePlan) : NodeMaintenancePlan :=
  if cordoned
  then setCondition plan ConditionCordoned ConditionTrue "AllNodesCordoned"
         "All managed nodes are unschedulable"
  else setCondition plan ConditionCordoned ConditionFalse "NotAllCordoned"
         "Not all managed nodes are unschedulable".

Definition setConflict (conflicting : list loc) (plan : NodeMaintenancePlan) : NodeMaintenancePlan :=
  match conflicting with
  | _ :: _ => setCondition plan ConditionConflict ConditionTrue "NodeConflict"
      (pretty (length conflicting) +:+ " node(s) already owned by another plan")
  | [] => setCondition plan ConditionConflict ConditionFalse "NoConflict"
      "No conflicting node ownership"
  end.

(** [cordon.startAt] when it is what makes the plan Scheduled. *)
Definition pendingCordonStart (cordoned : bool) (plan : NodeMaintenancePlan) : option Time :=
  if cordoned then None
  else match s_Cordon (p_Spec plan) with
       | Some c => if c_Enabled c then c_StartAt c else None
       | None => None
       end.

Definition setScheduled (cordoned : bool) : M unit :=
  plan ← getPlan;
  scheduled ← match pendingCordonStart cordoned plan with
    | None => mret None
    | Some start => now ← perform CNow; mret (if After start now then Some start else None)
    end;
  modifyPlan (λ plan,
    match scheduled : option Time with
    | Some start => setCondition plan ConditionScheduled ConditionTrue "ScheduledInFuture"
        ("cordon scheduled for " +:+ formatRFC3339 start)
    | None => setCondition plan ConditionScheduled ConditionFalse "NotScheduled"
        "No pending scheduled activation"
    end).

Definition setDriftDetected (statuses : list NodeStatus) (plan : NodeMaintenancePlan)
    : NodeMaintenancePlan :=
  let driftedNames := map ns_Name (filter (λ ns, ns_Drifted ns = true) statuses) in
  match driftedNames with
  | _ :: _ => setCondition plan ConditionDriftDetected ConditionTrue "NodeDrifted"
      (pretty (length driftedNames) +:+ " node(s) drifted: " +:+ strJoin ", " driftedNames)
  | [] => setCondition plan ConditionDriftDetected ConditionFalse "NoDrift"
      "No managed nodes have drifted"
  end.

(** [if res.SnapshotNodes != nil { ... }]. *)
Definition persistSnapshot (snapshot : option (list string)) (plan : NodeMaintenancePlan)
    : NodeMaintenancePlan :=
  match snapshot with
  | Some names => updStatus (λ s, s |> set_ps_ResolvedNodes names |> set_ps_NodeSnapshotTaken true)
                    plan
  | None => plan
  end.

Definition UpdateStatus (res : OwnershipResolution) : M unit :=
  plan ← getPlan;
  let existing := indexStatuses (ps_Nodes (p_Status plan)) in
  warnDisappearedNodes existing res;;
  now ← perform CNow;
  nodes ← loadAll (ow_All res);
  let statuses := buildNodeStatuses existing nodes plan now in
  let original := plan in
  modifyPlan (λ plan, updStatus (λ s, s
    |> set_ps_Nodes statuses
    |> set_ps_NodeCount (len32 statuses)
    |> set_ps_ObservedGeneration (p_Generation plan)) plan);;
  modifyPlan (setNodesSelected statuses);;
  let cordoned := allCordoned (cordonEnabled plan) statuses in
  modifyPlan (setCordoned cordoned);;
  modifyPlan (setConflict (ow_Conflicting res));;
  setScheduled cordoned;;
  modifyPlan (setDriftDetected statuses);;
  setNodeNotReadyCondition statuses;;
  modifyPlan recomputePlanSummaries;;
  modifyPlan (persistSnapshot (ow_SnapshotNodes res));;
  patchPlanStatus original.
End Status.

(** ** The status of one node *)

Lemma indexStatuses_acc (nodes : list NodeStatus) (m : gmap string NodeStatus) x :
  foldl (λ m ns, <[ns_Name ns := ns]> m) m nodes !! x =
  match findFirst (λ ns, bool_decide (ns_Name ns = x)) (rev nodes) with
  | Some ns => Some ns
  | None => m !! x
  end.
Proof.
  revert m. induction nodes as [|ns nodes IH] using rev_ind; intros m; [done|].
  rewrite foldl_snoc, rev_app_distr. cbn. rewrite lookup_insert. case_decide as Hx.
  - subst. by rewrite bool_decide_eq_true_2.
  - rewrite bool_decide_eq_false_2 by done. apply IH.
Qed.

(** Entries of distinct names are found again under their name. *)
Lemma indexStatuses_lookup nodes x :
  NoDup (map ns_Name nodes) →
  indexStatuses nodes !! x = findFirst (λ ns, bool_decide (ns_Name ns = x)) nodes.
Proof.
  intros Hnd. unfold indexStatuses. rewrite indexStatuses_acc, lookup_empty.
  destruct (findFirst _ (rev nodes)) as [ns|] eqn:E1,
    (findFirst _ nodes) as [ns'|] eqn:E2; [..|done].
  - f_equal. apply findFirst_Some in E1 as [H1 N1], E2 as [H2 N2].
    apply bool_decide_eq_true in N1, N2. apply list_elem_of_In, in_rev, list_elem_of_In in H1.
    apply list_elem_of_lookup in H1 as [i Hi], H2 as [j Hj].
    assert (i = j) as ->; [|congruence].
    apply (NoDup_lookup (ns_Name <$> nodes) _ _ x); [exact Hnd| |]; rewrite list_lookup_fmap;
      [rewrite Hi|rewrite Hj]; cbn; congruence.
  - apply findFirst_Some in E1 as [H1 N1]. apply list_elem_of_In, in_rev, list_elem_of_In in H1.
    rewrite findFirst_None in E2. specialize (E2 _ H1). cbv beta in *. congruence.
  - apply findFirst_Some in E2 as [H2 N2]. apply list_elem_of_In, in_rev, list_elem_of_In in H2.
    rewrite findFirst_None in E1. specialize (E1 _ H2). cbv beta in *. congruence.
Qed.

(** The new status of a node carries the old one on.  For a plan whose
    status names each node once, the entry of a node of the pass has the node's
    name and cordon state; every counter of the drain, its progress, readiness,
    issues and preview are those of the previous entry (or zero); the time since
    which it is not ready is kept while it stays not ready, set to now when it
    becomes so and cleared when it is Ready; it is drifted when drift is detected
    now or was recorded before, except that completed maintenance is not drift. *)
Theorem buildNodeStatus_carries plan now node :
  NoDup (map ns_Name (ps_Nodes (p_Status plan))) →
  let old := default zeroNodeStatus (findNodeStatus plan (n_Name node)) in
  let ns := buildNodeStatus (indexStatuses (ps_Nodes (p_Status plan))) plan now node in
  let drift := DetectNodeDrift (Some node) plan in
  let recorded := GetNodeDriftState plan (n_Name node) in
  ns_Name ns = n_Name node ∧ ns_Cordoned ns = n_Unschedulable node ∧
  ns_InitialPodCount ns = ns_InitialPodCount old ∧ ns_TotalPods ns = ns_TotalPods old ∧
  ns_EvictablePods ns = ns_EvictablePods old ∧ ns_BlockedPods ns = ns_BlockedPods old ∧
  ns_EvictedTotal ns = ns_EvictedTotal old ∧ ns_DrainProgress ns = ns_DrainProgress old ∧
  ns_ReadyForMaintenance ns = ns_ReadyForMaintenance old ∧ ns_Issues ns = ns_Issues old ∧
  ns_DrainPreview ns = ns_DrainPreview old ∧
  ns_NotReadySince ns =
    (if isNodeReady node then None else Some (default now (ns_NotReadySince old))) ∧
  (ns_Drifted ns = true ↔
     if drift.1 then drift.2 ≠ DriftReasonMaintenanceComplete
     else recorded.1 = true ∧ recorded.2 ≠ DriftReasonMaintenanceComplete).
Proof.
  intros Hnd old ns drift recorded. subst ns. unfold buildNodeStatus.
  rewrite indexStatuses_lookup by done. fold (findNodeStatus plan (n_Name node)). fold old.
  assert ((recordedDrift plan node).1 = true ↔
    if drift.1 then drift.2 ≠ DriftReasonMaintenanceComplete
    else recorded.1 = true ∧ recorded.2 ≠ DriftReasonMaintenanceComplete) as Hdr.
  { unfold recordedDrift. fold drift recorded. destruct drift as [[] r1], recorded as [d2 r2];
      cbn; case_decide as Hr; cbn; clear -Hr; intuition congruence. }
  destruct (recordedDrift plan node) as [drifted reason]. cbn in Hdr.
  destruct (isNodeReady node); cbn [negb]; [by split_and!|].
  change (ns_NotReadySince (_ |> _ |> _ |> _ |> _)) with (ns_NotReadySince old).
  destruct (ns_NotReadySince old) eqn:Hs; cbn; rewrite ?Hs; by split_and!.
Qed.

Lemma foldl_allCordoned all n statuses :
  foldl allCordonedStep (all, n) statuses =
  (all && forallb (λ ns, ns_Drifted ns || ns_Cordoned ns) statuses,
   (n + length (filter (λ ns, ns_Drifted ns = false) statuses))%nat).
Proof.
  revert all n. induction statuses as [|ns statuses IH]; intros all n; cbn [foldl forallb].
  { by rewrite andb_true_r, Nat.add_0_r. }
  unfold allCordonedStep at 2. rewrite filter_cons.
  destruct (ns_Drifted ns); cbn [orb andb fst snd]; rewrite IH; [done|].
  rewrite decide_True by done. cbn [length]. rewrite Nat.add_succ_r.
  by destruct (ns_Cordoned ns), all.
Qed.

(** The aggregate behind the Cordoned condition. *)
Lemma allCordoned_iff enabled statuses :
  allCordoned enabled statuses = true ↔
  enabled = true ∧ (∃ ns, ns ∈ statuses ∧ ns_Drifted ns = false) ∧
  ∀ ns, ns ∈ statuses → ns_Drifted ns = false → ns_Cordoned ns = true.
Proof.
  unfold allCordoned. rewrite foldl_allCordoned, Nat.add_0_l.
  destruct (filter (λ ns, ns_Drifted ns = false) statuses) as [|ns l] eqn:Hf; cbn.
  - split; [done|]. intros (_ & (ns & Hin & Hd) & _).
    assert (ns ∈ filter (λ ns, ns_Drifted ns = false) statuses) as H
      by (by apply list_elem_of_filter).
    rewrite Hf in H. by apply elem_of_nil in H.
  - assert (ns ∈ filter (λ ns, ns_Drifted ns = false) statuses) as [Hd Hin]%list_elem_of_filter
      by (rewrite Hf; apply list_elem_of_here).
    destruct statuses as [|ns0 statuses0]; [by apply elem_of_nil in Hin|].
    set (statuses := ns0 :: statuses0) in *. cbn [length Nat.eqb negb]. rewrite andb_true_r.
    rewrite andb_true_iff, forallb_forall. setoid_rewrite <-list_elem_of_In.
    split; [intros [-> Hall]|intros (-> & _ & Hall)]; (split; [done|]).
    + split; [by exists ns|]. intros ns' H1 H2. specialize (Hall ns' H1). by rewrite H2 in Hall.
    + intros ns' H1. destruct (ns_Drifted ns') eqn:E; [done|]. by apply Hall.
Qed.

Section StatusTheorem.
Context `{CL : ConditionLaws}.

(** Two plans agree on everything but the conditions of the listed types. *)
Definition agreesBut (ts : list string) (p q : NodeMaintenancePlan) : Prop :=
  updStatus (set_ps_Conditions []) p = updStatus (set_ps_Conditions []) q ∧
  ∀ t, t ∉ ts → isConditionTrue p t = isConditionTrue q t.

Lemma agreesBut_refl ts p : agreesBut ts p p.
Proof. done. Qed.

Lemma agreesBut_trans ts p q r : agreesBut ts p q → agreesBut ts q r → agreesBut ts p r.
Proof. intros [H1 H2] [H3 H4]. split; [congruence|]. intros t Ht. by rewrite H2, H4. Qed.

Lemma agreesBut_set ts p t status reason msg :
  t ∈ ts → agreesBut ts (setCondition p t status reason msg) p.
Proof.
  intros Ht. split; [by destruct p as [? ? ? ? ? ? []]|].
  intros t' Ht'. apply isConditionTrue_set_other. by intros ->.
Qed.

Lemma rgM_setScheduled R cordoned s :
  rgM R notifies (setScheduled cordoned) s (λ s' o, o = OK tt ∧
    agreesBut [ConditionScheduled] (st_plan s') (st_plan s)).
Proof.
  unfold setScheduled. rg_steps; try done; (split; [done|]); cbn [st_plan]; repeat case_match;
    apply agreesBut_set, list_elem_of_here.
Qed.

Lemma rgM_setNodeNotReadyCondition R statuses s :
  rgM R notifies (setNodeNotReadyCondition statuses) s (λ s' o, o = OK tt ∧
    agreesBut [ConditionNodeNotReady] (st_plan s') (st_plan s)).
Proof.
  unfold setNodeNotReadyCondition. rg_step.
  apply (rgM_foldM _ _ (λ _ _ s', st_plan s' = st_plan s)).
  - intros names ns l s1 Hs1. unfold notReadyStep. destruct (ns_NotReadySince ns); rg_steps; done.
  - intros names s1 Hs1. rg_step. split; [done|]. cbn [st_plan]. rewrite <-Hs1.
    destruct names; apply agreesBut_set, list_elem_of_here.
  - done.
Qed.

(** The status [UpdateStatus] sends for the node statuses [statuses]. *)
Definition updatedPlan (res : OwnershipResolution) (statuses : list NodeStatus)
    (p p' : NodeMaintenancePlan) : Prop :=
  ps_Nodes (p_Status p') = statuses ∧ ps_NodeCount (p_Status p') = len32 statuses ∧
  ps_ObservedGeneration (p_Status p') = p_Generation p ∧
  isConditionTrue p' ConditionNodesSelected = negb (bool_decide (statuses = [])) ∧
  (isConditionTrue p' ConditionCordoned = true ↔
     cordonEnabled p = true ∧ (∃ ns, ns ∈ statuses ∧ ns_Drifted ns = false) ∧
     ∀ ns, ns ∈ statuses → ns_Drifted ns = false → ns_Cordoned ns = true) ∧
  isConditionTrue p' ConditionConflict = negb (bool_decide (ow_Conflicting res = [])) ∧
  isConditionTrue p' ConditionDriftDetected = existsb ns_Drifted statuses ∧
  (∀ t, t ∈ [ConditionDrainTimedOut; ConditionDrainSucceeded; ConditionDrainBlocked;
              ConditionDrainInProgress] → isConditionTrue p' t = isConditionTrue p t) ∧
  ps_AllNodesReadyForMaintenance (p_Status p') = ps_AllNodesReadyForMaintenance (p_Status p) ∧
  ps_DrainStartedAt (p_Status p') = ps_DrainStartedAt (p_Status p) ∧
  ps_Phase (p_Status p') = computePhase p' ∧
  match ow_SnapshotNodes res with
  | Some names => ps_ResolvedNodes (p_Status p') = names ∧ ps_NodeSnapshotTaken (p_Status p') = true
  | None => ps_ResolvedNodes (p_Status p') = ps_ResolvedNodes (p_Status p) ∧
      ps_NodeSnapshotTaken (p_Status p') = ps_NodeSnapshotTaken (p_Status p)
  end.
(** The conditions [UpdateStatus] sets from the node statuses. *)
Lemma setNodesSelected_spec statuses p :
  agreesBut [ConditionNodesSelected] (setNodesSelected statuses p) p ∧
  isConditionTrue (setNodesSelected statuses p) ConditionNodesSelected
    = negb (bool_decide (statuses = [])).
Proof.
  destruct statuses; cbn [setNodesSelected];
    (split; [apply agreesBut_set, list_elem_of_here|by rewrite isConditionTrue_set_same]).
Qed.

Lemma setCordoned_spec c p :
  agreesBut [ConditionCordoned] (setCordoned c p) p ∧
  isConditionTrue (setCordoned c p) ConditionCordoned = c.
Proof.
  destruct c; cbn [setCordoned];
    (split; [apply agreesBut_set, list_elem_of_here|by rewrite isConditionTrue_set_same]).
Qed.

Lemma setConflict_spec ls p :
  agreesBut [ConditionConflict] (setConflict ls p) p ∧
  isConditionTrue (setConflict ls p) ConditionConflict = negb (bool_decide (ls = [])).
Proof.
  destruct ls; cbn [setConflict];
    (split; [apply agreesBut_set, list_elem_of_here|by rewrite isConditionTrue_set_same]).
Qed.

Lemma setDriftDetected_spec statuses p :
  agreesBut [ConditionDriftDetected] (setDriftDetected statuses p) p ∧
  isConditionTrue (setDriftDetected statuses p) ConditionDriftDetected = existsb ns_Drifted statuses.
Proof.
  unfold setDriftDetected.
  assert (existsb ns_Drifted statuses =
    match map ns_Name (filter (λ ns, ns_Drifted ns = true) statuses) with [] => false | _ => true end)
    as ->.
  { induction statuses as [|ns statuses IH]; [done|]. cbn [existsb]. rewrite filter_cons.
    destruct (ns_Drifted ns); [by rewrite decide_True|]. by rewrite IH. }
  destruct (map _ _);
    (split; [apply agreesBut_set, list_elem_of_here|by rewrite isConditionTrue_set_same]).
Qed.

Lemma agreesBut_field {A} (f : NodeMaintenancePlan → A) ts p q :
  (∀ p, f (updStatus (set_ps_Conditions []) p) = f p) → agreesBut ts p q → f p = f q.
Proof. intros Hf [Heq _]. by rewrite <-(Hf p), Heq, Hf. Qed.

Lemma agreesBut_cond ts p q t :
  agreesBut ts p q → t ∉ ts → isConditionTrue p t = isConditionTrue q t.
Proof. intros [_ Hc] Ht. by apply Hc. Qed.

(** The first assignments of [UpdateStatus]. *)
Definition withStatuses (statuses : list NodeStatus) (plan : NodeMaintenancePlan)
    : NodeMaintenancePlan :=
  updStatus (λ s, s
    |> set_ps_Nodes statuses
    |> set_ps_NodeCount (len32 statuses)
    |> set_ps_ObservedGeneration (p_Generation plan)) plan.

Lemma updatedPlan_chain res statuses p p5 p7 :
  let c := allCordoned (cordonEnabled p) statuses in
  agreesBut [ConditionScheduled] p5
    (setConflict (ow_Conflicting res) (setCordoned c (setNodesSelected statuses
       (withStatuses statuses p)))) →
  agreesBut [ConditionNodeNotReady] p7 (setDriftDetected statuses p5) →
  updatedPlan res statuses p
    (persistSnapshot (ow_SnapshotNodes res) (recomputePlanSummaries p7)).
Proof.
  intros c H5 H7.
  destruct (setNodesSelected_spec statuses (withStatuses statuses p)) as [A2 C2].
  set (p2 := setNodesSelected _ _) in *.
  destruct (setCordoned_spec c p2) as [A3 C3]. set (p3 := setCordoned _ _) in *.
  destruct (setConflict_spec (ow_Conflicting res) p3) as [A4 C4]. set (p4 := setConflict _ _) in *.
  destruct (setDriftDetected_spec statuses p5) as [A6 C6]. set (p6 := setDriftDetected _ _) in *.
  set (p' := persistSnapshot _ _).
  assert (∀ {A} (f : NodeMaintenancePlan → A), (∀ p, f (updStatus (set_ps_Conditions []) p) = f p) →
    (∀ p, f (recomputePlanSummaries p) = f p) → f (recomputePlanSummaries p7) = f (withStatuses statuses p))
    as Hf.
  { intros A f Hf Hr. rewrite Hr, (agreesBut_field f _ _ _ Hf H7), (agreesBut_field f _ _ _ Hf A6),
      (agreesBut_field f _ _ _ Hf H5), (agreesBut_field f _ _ _ Hf A4),
      (agreesBut_field f _ _ _ Hf A3), (agreesBut_field f _ _ _ Hf A2). done. }
  assert (∀ {A} (f : NodeMaintenancePlan → A), (∀ p, f (updStatus (set_ps_Conditions []) p) = f p) →
    (∀ p, f (recomputePlanSummaries p) = f p) → (∀ o p, f (persistSnapshot o p) = f p) →
    f p' = f (withStatuses statuses p)) as Hff.
  { intros A f H1 H2 H3. unfold p'. rewrite H3. by apply Hf. }
  assert (∀ t, t ∉ [ConditionNodeNotReady; ConditionDriftDetected; ConditionScheduled] →
    isConditionTrue p' t = isConditionTrue p4 t) as H74.
  { intros t Ht. transitivity (isConditionTrue p7 t); [subst p'; by destruct (ow_SnapshotNodes res)|].
    rewrite (agreesBut_cond _ _ _ t H7), (agreesBut_cond _ _ _ t A6),
      (agreesBut_cond _ _ _ t H5); [done|set_solver..]. }
  unfold updatedPlan.
  split; [by rewrite (Hff _ (λ p, ps_Nodes (p_Status p))) by (by intros [])|].
  split; [by rewrite (Hff _ (λ p, ps_NodeCount (p_Status p))) by (by intros [])|].
  split; [by rewrite (Hff _ (λ p, ps_ObservedGeneration (p_Status p))) by (by intros [])|].
  split; [by rewrite H74, (agreesBut_cond _ _ _ _ A4), (agreesBut_cond _ _ _ _ A3) by unlisted|].
  split; [rewrite H74, (agreesBut_cond _ _ _ _ A4), C3 by unlisted; apply allCordoned_iff|].
  split; [by rewrite H74 by unlisted|].
  split; [transitivity (isConditionTrue p7 ConditionDriftDetected);
    [subst p'; by destruct (ow_SnapshotNodes res)|by rewrite (agreesBut_cond _ _ _ _ H7) by unlisted]|].
  split.
  { intros t Ht. assert (t ∉ [ConditionNodeNotReady; ConditionDriftDetected; ConditionScheduled] ∧
      t ∉ [ConditionConflict] ∧ t ∉ [ConditionCordoned] ∧ t ∉ [ConditionNodesSelected]) as (?&?&?&?).
    { repeat (apply elem_of_cons in Ht as [->|Ht]; [split_and!; unlisted|]).
      by apply elem_of_nil in Ht. }
    by rewrite H74, (agreesBut_cond _ _ _ _ A4), (agreesBut_cond _ _ _ _ A3),
      (agreesBut_cond _ _ _ _ A2) by done. }
  split; [by rewrite (Hff _ (λ p, ps_AllNodesReadyForMaintenance (p_Status p))) by (by intros [])|].
  split; [by rewrite (Hff _ (λ p, ps_DrainStartedAt (p_Status p))) by (by intros [])|].
  split; [subst p'; by destruct (ow_SnapshotNodes res)|].
  subst p'. destruct (ow_SnapshotNodes res) as [names|]; [done|]. cbn [persistSnapshot].
  split; [by rewrite (Hf _ (λ p, ps_ResolvedNodes (p_Status p)))|
    by rewrite (Hf _ (λ p, ps_NodeSnapshotTaken (p_Status p)))].
Qed.

Lemma updatedPlan_meta {A} (f : NodeMaintenancePlan → A) res statuses p p5 p7 :
  (∀ p g, f (updStatus g p) = f p) →
  let c := allCordoned (cordonEnabled p) statuses in
  agreesBut [ConditionScheduled] p5
    (setConflict (ow_Conflicting res) (setCordoned c (setNodesSelected statuses
       (withStatuses statuses p)))) →
  agreesBut [ConditionNodeNotReady] p7 (setDriftDetected statuses p5) →
  f (persistSnapshot (ow_SnapshotNodes res) (recomputePlanSummaries p7)) = f p.
Proof.
  intros Hf c H5 H7. assert (∀ p q ts, agreesBut ts p q → f p = f q) as Hag.
  { intros p1 p2 ts. apply agreesBut_field. intros p0. apply Hf. }
  transitivity (f p7); [destruct (ow_SnapshotNodes res); cbn [persistSnapshot]; unfold recomputePlanSummaries; by rewrite ?Hf|].
  rewrite (Hag _ _ _ H7), (Hag _ _ _ (proj1 (setDriftDetected_spec _ _))), (Hag _ _ _ H5),
    (Hag _ _ _ (proj1 (setConflict_spec _ _))), (Hag _ _ _ (proj1 (setCordoned_spec _ _))),
    (Hag _ _ _ (proj1 (setNodesSelected_spec _ _))). apply Hf.
Qed.

Lemma loadAll_acc R ls s acc :
  rgM R silent (foldM (λ acc l, node ← load l; mret (acc ++ [node])) acc ls) s (λ s' o,
    s' = s ∧ ∀ nodes, o = OK nodes → ∃ ns, nodes = acc ++ ns ∧
      Forall2 (λ l n, st_heap s !! l = Some n) ls ns).
Proof.
  revert acc. induction ls as [|l ls IH]; intros acc; cbn [foldM].
  { rg_step. split; [done|]. intros nodes [= <-]. exists []. by rewrite app_nil_r. }
  do 2 rg_step. rg_step; [|done]. rg_step. eapply rgM_post; [apply IH|].
  intros s' o [-> Ho]. split; [done|]. intros nodes Hn. destruct (Ho nodes Hn) as (ns & -> & HF).
  exists (n :: ns). split; [by rewrite <-app_assoc|]. by constructor.
Qed.

Lemma rgM_loadAll R ls s :
  rgM R silent (loadAll ls) s (λ s' o, s' = s ∧
    ∀ nodes, o = OK nodes → Forall2 (λ l n, st_heap s !! l = Some n) ls nodes).
Proof.
  eapply rgM_post; [apply loadAll_acc|]. intros s' o [-> Ho]. split; [done|].
  intros nodes Hn. by destruct (Ho nodes Hn) as (ns & -> & HF).
Qed.

(** The calls of [UpdateStatus] from a state. *)
Definition statusCall (res : OwnershipResolution) (s : st) (c : call) : Prop :=
  match c with
  | CEvent _ | CNow | CMapOrder _ => True
  | CPatchPlanStatus original p' =>
      original = st_plan s ∧ ∃ nodes now, Forall2 (λ l n, st_heap s !! l = Some n) (ow_All res) nodes ∧
        updatedPlan res (buildNodeStatuses (indexStatuses (ps_Nodes (p_Status (st_plan s)))) nodes
          (st_plan s) now) (st_plan s) p'
  | _ => False
  end.

Lemma preserves_warnDisappearedNodes R (G : guar call) I existing res :
  (∀ e, G (CEvent e)) → (∀ ks, G (CMapOrder ks)) →
  preserves R G I (warnDisappearedNodes existing res).
Proof.
  intros HE HO. unfold warnDisappearedNodes, loadAll, warnDisappearedNode. keep_inv.
Qed.

Lemma rgM_UpdateStatus R res s :
  rgM R (statusCall res s) (UpdateStatus res) s (λ _ _, True).
Proof.
  unfold UpdateStatus. do 3 rg_step.
  eapply rgM_post; [by apply (preserves_warnDisappearedNodes R _ (eq s))|]. intros s1 o <-.
  destruct o as [[]|e|]; [|done..]. do 2 rg_step; [done|]. rg_step.
  eapply rgM_mono; [apply (rgM_loadAll R)|done|done|]. intros s1 o [-> Ho].
  destruct o as [nodes|e|]; [|done..]. specialize (Ho nodes eq_refl).
  do 9 rg_step. cbn [st_plan st_heap].
  eapply rgM_mono; [apply (rgM_setScheduled R)|done|by intros []|]. intros s5 o [-> H5].
  do 2 rg_step. rg_step.
  eapply rgM_mono; [apply (rgM_setNodeNotReadyCondition R)|done|by intros []|]. intros s7 o [-> H7].
  do 4 rg_step. apply rgM_patchPlanStatus; [|done..]. cbn [st_plan]. split; [done|].
  eexists nodes, _. split; [done|]. exact (updatedPlan_chain _ _ _ _ _ H5 H7).
Qed.

End StatusTheorem.

(** ** Node objects

    [UpdateStatus] writes no node and keeps the plan's name. *)
Section Quiet.
Context `{CO : ConditionOps}.

Lemma quiet_loadAll ls : quiet (loadAll ls).
Proof. unfold loadAll. quiet_tac. Qed.

#[local] Hint Resolve quiet_loadAll : quiet.

Lemma quiet_warnDisappearedNode a b ns : quiet (warnDisappearedNode a b ns).
Proof. unfold warnDisappearedNode. quiet_tac. Qed.

#[local] Hint Resolve quiet_warnDisappearedNode : quiet.

Lemma quiet_warnDisappearedNodes existing res : quiet (warnDisappearedNodes existing res).
Proof. unfold warnDisappearedNodes. quiet_tac. Qed.

Lemma quiet_notReadyStep names ns : quiet (notReadyStep names ns).
Proof. unfold notReadyStep. quiet_tac. Qed.

#[local] Hint Resolve quiet_warnDisappearedNodes quiet_notReadyStep : quiet.

Lemma quiet_setNodeNotReadyCondition statuses : quiet (setNodeNotReadyCondition statuses).
Proof. unfold setNodeNotReadyCondition. quiet_tac. by case_match. Qed.

Lemma quiet_setScheduled cordoned : quiet (setScheduled cordoned).
Proof. unfold setScheduled. quiet_tac; by case_match. Qed.

#[local] Hint Resolve quiet_setNodeNotReadyCondition quiet_setScheduled : quiet.

Lemma quiet_UpdateStatus res : quiet (UpdateStatus res).
Proof.
  unfold UpdateStatus. quiet_tac; unfold setNodesSelected, setCordoned, setConflict,
    setDriftDetected, persistSnapshot; by repeat case_match.
Qed.
End Quiet.

#[export] Hint Resolve quiet_UpdateStatus : quiet.

(** ** Witnesses *)

Lemma buildNodeStatus_carries_witness :
  let node := MkNode "n1" None None None true [] in
  let old := set_ns_EvictedTotal 3 (set_ns_Name "n1" (set_ns_Cordoned true zeroNodeStatus)) in
  let plan := updStatus (set_ps_Nodes [old]) (examplePlan ["n1"]) in
  let ns := buildNodeStatus (indexStatuses (ps_Nodes (p_Status plan))) plan 7 node in
  ns_EvictedTotal ns = 3 ∧ ns_NotReadySince ns = Some 7.
Proof.
  intros node old plan ns.
  assert (NoDup (map ns_Name (ps_Nodes (p_Status plan)))) as Hnd by (apply NoDup_singleton).
  destruct (buildNodeStatus_carries plan 7 node Hnd)
    as (_ & _ & _ & _ & _ & _ & He & _ & _ & _ & _ & Hs & _).
  split; [exact He|exact Hs].
Defined.

