(* ===== verification/Preview.v ===== *)
(** * Drain preview (reconcile_preview.go)

    The dry run computed on every pass until the drain is in progress. *)
From S2P Require Import Prelude GoTime Api Prog Kube Conditions Drift Filters Ownership.
From S2P Require Import DrainNode DrainStatus DrainReconcile.

Definition isDrainInProgress (plan : NodeMaintenancePlan) : bool :=
  match findFirst (λ c, bool_decide (cd_Type c = ConditionDrainInProgress))
          (ps_Conditions (p_Status plan)) with
  | Some c => bool_decide (cd_Status c = ConditionTrue)
  | None => false
  end.

Definition setNodePreview (nodeName : string) (preview : NodeDrainPreview)
    (plan : NodeMaintenancePlan) : NodeMaintenancePlan :=
  mapNodes (updateFirst (λ ns, bool_decide (ns_Name ns = nodeName))
    (set_ns_DrainPreview (Some preview))) plan.

(** The issue of one config-blocked pod. *)
Definition configIssue (pod : Pod) : NodeIssue :=
  if isDaemonSetPod pod then
    MkNodeIssue "DaemonSetPod" "DaemonSet pod cannot be evicted; set ignoreDaemonSets: true to skip"
      (Some (podRef pod))
  else if negb (hasController pod) then
    MkNodeIssue "UncontrolledPod"
      "pod has no owner and force is not enabled; set force: true to evict" (Some (podRef pod))
  else if hasEmptyDir pod then
    MkNodeIssue "EmptyDirVolume"
      "pod has an emptyDir volume and deleteEmptyDirData is not enabled; set deleteEmptyDirData: true to evict"
      (Some (podRef pod))
  else MkNodeIssue "BlockedPod" "pod cannot be evicted with current drain settings"
         (Some (podRef pod)).

Definition buildConfigIssues (blocked : list Pod) : list NodeIssue := map configIssue blocked.

(** [byNS[pod.Namespace] = append(byNS[pod.Namespace], pod)]. *)
Definition groupByNamespace (pods : list Pod) : gmap string (list Pod) :=
  foldl (λ m pod, <[pod_Namespace pod := default [] (m !! pod_Namespace pod) ++ [pod]]> m) ∅ pods.

Section Preview.
Context `{SO : SelectorOps}.

(** Whether the loop over the budgets stops at this one. *)
Definition pdbCovers (pod : Pod) (pdb : PodDisruptionBudget) : bool :=
  if 0 <? pdb_DisruptionsAllowed pdb then false
  else match pdb_Selector pdb with
  | None => false
  | Some selector =>
      match LabelSelectorAsSelector selector with
      | inl _ => false
      | inr sel => sel (pod_Labels pod)
      end
  end.

Definition pdbIssue (pdb : PodDisruptionBudget) (pod : Pod) : NodeIssue :=
  MkNodeIssue "PDBActive"
    ("covered by PDB " +:+ quote (pdb_Name pdb)
     +:+ " (0 disruptions available at preview time; may change before drain runs)")
    (Some (podRef pod)).

(** The issues of one namespace: at most one per pod. *)
Definition namespacePDBIssues (pdbs : list PodDisruptionBudget) (nsPods : list Pod)
    : list NodeIssue :=
  omap (λ pod, (λ pdb, pdbIssue pdb pod) <$> findFirst (pdbCovers pod) pdbs) nsPods.

Definition buildPDBIssuesStep (issues : list NodeIssue) (e : string * list Pod)
    : M (list NodeIssue) :=
  r ← perform (CListPDBs e.1);
  pdbs ← wrapErr ("listing PDBs in namespace " +:+ quote e.1) (orThrow r);
  mret (issues ++ namespacePDBIssues pdbs e.2).

Definition buildPDBIssues (pods : list Pod) : M (list NodeIssue) :=
  match pods with
  | [] => mret []
  | _ =>
      byNS ← rangeMap (groupByNamespace pods);
      foldM buildPDBIssuesStep [] byNS
  end.

(** Body of the loop over the target nodes; the accumulators are the totals. *)
Definition previewNode (cfg : drainConfig) (now : Time) (totals : Z * Z) (l : loc) : M (Z * Z) :=
  node ← load l;
  r ← liftProg (filterPodsForDrain node cfg);
  match r with
  | inl e => throw (ErrWrap ("preview: filtering pods on node " +:+ quote (n_Name node)) e)
  | inr filterResult =>
      let configIssues := buildConfigIssues (fr_Blocked filterResult) in
      pdbIssues ← wrapErr ("preview: checking PDBs for node " +:+ quote (n_Name node))
        (buildPDBIssues (fr_Evictable filterResult));
      let allIssues := configIssues ++ pdbIssues in
      modifyPlan (setNodePreview (n_Name node)
        (MkNodeDrainPreview (len32 (fr_Evictable filterResult)) (len32 (fr_Skipped filterResult))
           allIssues (Some now)));;
      mret (int32 (totals.1 + len32 (fr_Evictable filterResult)),
            int32 (totals.2 + len32 allIssues))
  end.

Definition previewConfig (plan : NodeMaintenancePlan) : drainConfig :=
  default (MkDrainConfig true false false None true) (getDrainConfig plan).

Definition ReconcilePreview (res : OwnershipResolution) : M unit :=
  plan ← getPlan;
  let cfg := previewConfig plan in
  if isDrainInProgress plan then mret tt
  else
    let targetNodes := ow_Stable res ++ ow_ToAdopt res in
    match targetNodes with
    | [] => mret tt
    | _ =>
        let original := plan in
        now ← perform CMetaNow;
        totals ← foldM (previewNode cfg now) (0, 0) targetNodes;
        modifyPlan (updStatus (λ s, s
          |> set_ps_TotalEvictablePods totals.1
          |> set_ps_TotalPreviewIssues totals.2
          |> set_ps_LastPreviewTime (Some now)));;
        patchPlanStatus original
    end.
End Preview.

(** ** Grouping by namespace *)

Definition inNamespace (ns : string) (pods : list Pod) : list Pod :=
  filter (λ p, pod_Namespace p = ns) pods.

Lemma groupByNamespace_snoc pods pod :
  groupByNamespace (pods ++ [pod]) =
  <[pod_Namespace pod := default [] (groupByNamespace pods !! pod_Namespace pod) ++ [pod]]>
    (groupByNamespace pods).
Proof. unfold groupByNamespace. by rewrite foldl_snoc. Qed.

Lemma groupByNamespace_lookup pods ns :
  default [] (groupByNamespace pods !! ns) = inNamespace ns pods.
Proof.
  induction pods as [|pod pods IH] using rev_ind; [done|].
  rewrite groupByNamespace_snoc, lookup_insert. unfold inNamespace in *. rewrite list.filter_app.
  rewrite filter_cons, filter_nil. case_decide as Hn.
  - subst. cbn. by rewrite IH.
  - by rewrite IH, app_nil_r.
Qed.

Lemma groups_insert (m : gmap string (list Pod)) k l :
  concat (map_to_list (<[k:=l]> m)).*2 ≡ₚ l ++ concat (map_to_list (delete k m)).*2.
Proof.
  rewrite <-insert_delete_eq, map_to_list_insert by (by rewrite lookup_delete_eq). done.
Qed.

(** Every pod is in one group. *)
Lemma groupByNamespace_perm pods : concat (map_to_list (groupByNamespace pods)).*2 ≡ₚ pods.
Proof.
  induction pods as [|pod pods IH] using rev_ind; [done|]. rewrite groupByNamespace_snoc.
  set (m := groupByNamespace pods) in *. set (k := pod_Namespace pod).
  rewrite groups_insert. rewrite <-IH. destruct (m !! k) as [l|] eqn:Hk; cbn [default].
  - rewrite <-(insert_id m k l Hk) at 2. rewrite groups_insert, <-!app_assoc.
    apply Permutation_app_head, Permutation_app_comm.
  - rewrite delete_id by done. cbn. apply Permutation_cons_append.
Qed.

(** ** Budgets *)
Section PreviewTheorems.
Context `{SO : SelectorOps}.

(** The issue of one pod, given the budgets of each namespace. *)
Definition podPDBIssue (pdbsOf : string → list PodDisruptionBudget) (pod : Pod) : option NodeIssue :=
  (λ pdb, pdbIssue pdb pod) <$> findFirst (pdbCovers pod) (pdbsOf (pod_Namespace pod)).

(** The budgets do not change while they are listed; a listing may fail. *)
Definition fixedBudgets (pdbsOf : string → list PodDisruptionBudget) : rely resp := λ c,
  match c return resp c → Prop with
  | CListPDBs ns => λ r, ∀ pdbs, r = inr pdbs → pdbs = pdbsOf ns
  | _ => λ _, True
  end.

Lemma namespacePDBIssues_group pdbsOf ns pods :
  (∀ pod, pod ∈ pods → pod_Namespace pod = ns) →
  namespacePDBIssues (pdbsOf ns) pods = omap (podPDBIssue pdbsOf) pods.
Proof.
  intros Hns. unfold namespacePDBIssues, podPDBIssue. apply list_omap_ext.
  apply Forall2_same_length_lookup_2; [done|]. intros i p q Hp Hq. simplify_eq.
  by rewrite (Hns p) by (by eapply list_elem_of_lookup_2).
Qed.

Lemma rgM_buildPDBIssues pdbsOf pods s :
  rgM (fixedBudgets pdbsOf) anyCall (buildPDBIssues pods) s (λ _ o, ∀ issues, o = OK issues →
    issues ≡ₚ omap (podPDBIssue pdbsOf) pods).
Proof.
  unfold buildPDBIssues.
  assert (rgM (fixedBudgets pdbsOf) anyCall
    (byNS ← rangeMap (groupByNamespace pods); foldM buildPDBIssuesStep [] byNS) s (λ _ o,
      ∀ issues, o = OK issues → issues ≡ₚ omap (podPDBIssue pdbsOf) pods)) as Hgen.
  { rg_step. apply rgM_rangeMap; [done|]. intros byNS Hby.
    assert (∀ e, e ∈ byNS → ∀ pod, pod ∈ e.2 → pod_Namespace pod = e.1) as Hns.
    { intros [ns l] He pod Hpod. rewrite Hby in He. apply elem_of_map_to_list in He.
      pose proof (groupByNamespace_lookup pods ns) as Hl. rewrite He in Hl. cbn in Hl, Hpod. subst l.
      by apply list_elem_of_filter in Hpod as [? _]. }
    apply (rgM_foldM _ _ (λ issues es _, (∀ e, e ∈ es → e ∈ byNS) ∧
      issues ++ omap (podPDBIssue pdbsOf) (concat es.*2) ≡ₚ omap (podPDBIssue pdbsOf) pods)).
    - intros issues e es s1 [Hes Hi]. unfold buildPDBIssuesStep. rg_step.
      apply rgM_perform; [done|]. intros r Hr. do 2 rg_step.
      apply rgM_orThrow; [done|]. intros pdbs ->. rg_step. rewrite (Hr pdbs eq_refl).
      split; [intros; apply Hes; by apply list_elem_of_further|].
      rewrite (namespacePDBIssues_group pdbsOf e.1 e.2) by (apply Hns, Hes, list_elem_of_here).
      rewrite <-Hi. change (concat (e :: es).*2) with (e.2 ++ concat es.*2).
      by rewrite omap_app, app_assoc.
    - intros issues s1 [_ Hi] issues' [= <-]. cbn in Hi. by rewrite app_nil_r in Hi.
    - split; [done|]. cbn [app]. by rewrite Hby, groupByNamespace_perm. }
  destruct pods; [|exact Hgen]. rg_step. by intros issues [= <-].
Qed.

Lemma length_omap_le {A B} (f : A → option B) l : (length (omap f l) ≤ length l)%nat.
Proof. induction l as [|x l IH]; cbn; [lia|]. destruct (f x); cbn; lia. Qed.

(** The budget part of the preview.  Against a fixed set of budgets, in
    whatever order the namespaces are visited, a successful [buildPDBIssues]
    reports exactly one issue for every evictable pod that a budget of its
    namespace with no disruption left covers, and none for the others. *)
Theorem buildPDBIssues_spec pdbsOf pods s t s' issues :
  runM (buildPDBIssues pods) s t s' (OK issues) → answered (fixedBudgets pdbsOf) t →
  issues ≡ₚ omap (podPDBIssue pdbsOf) pods ∧ (length issues ≤ length pods)%nat ∧
  ∀ i, i ∈ issues ↔ ∃ pod pdb, pod ∈ pods ∧
    findFirst (pdbCovers pod) (pdbsOf (pod_Namespace pod)) = Some pdb ∧ i = pdbIssue pdb pod.
Proof.
  intros Hrun Hans.
  pose proof (proj2 (rgM_sound (rgM_buildPDBIssues pdbsOf pods s) Hrun Hans) issues eq_refl) as Hp.
  split_and!; [done| |].
  - rewrite Hp. apply length_omap_le.
  - intros i. rewrite Hp, list_elem_of_omap. unfold podPDBIssue. split.
    + intros (pod & Hin & He). apply fmap_Some in He as (pdb & Hf & ->). by exists pod, pdb.
    + intros (pod & pdb & Hin & Hf & ->). exists pod. split; [done|]. by rewrite Hf.
Qed.

(** The plan without what the preview reports: the preview of each node, the two
    totals and the time. *)
Definition erasePreview (p : NodeMaintenancePlan) : NodeMaintenancePlan :=
  updStatus (λ s, s
    |> set_ps_Nodes (map (set_ns_DrainPreview None) (ps_Nodes s))
    |> set_ps_TotalEvictablePods 0
    |> set_ps_TotalPreviewIssues 0
    |> set_ps_LastPreviewTime None) p.

(** The plans differ in the preview alone. *)
Definition previewOf (p p' : NodeMaintenancePlan) : Prop := erasePreview p' = erasePreview p.

Lemma erase_updateFirst f preview l :
  map (set_ns_DrainPreview None) (updateFirst f (set_ns_DrainPreview preview) l) =
  map (set_ns_DrainPreview None) l.
Proof. induction l as [|ns l IH]; [done|]. cbn. case_match; cbn; [done|by rewrite IH]. Qed.

Lemma erase_setNodePreview name preview p :
  erasePreview (setNodePreview name preview p) = erasePreview p.
Proof.
  unfold erasePreview, setNodePreview, mapNodes, updStatus. cbn. by rewrite erase_updateFirst.
Qed.

Lemma erase_totals f g t p :
  erasePreview (updStatus (λ s, s
    |> set_ps_TotalEvictablePods f |> set_ps_TotalPreviewIssues g |> set_ps_LastPreviewTime t) p) =
  erasePreview p.
Proof. done. Qed.

(** Requests of the preview of the plan [p]: reads, and the status of [p]. *)
Definition previewCall (p : NodeMaintenancePlan) (c : call) : Prop :=
  match c with
  | CListPods _ | CListPDBs _ | CNow | CMetaNow | CMapOrder _ => True
  | CPatchPlanStatus original p' => original = p ∧ previewOf p p'
  | _ => False
  end.

Lemma preserves_previewNode R p cfg now totals l :
  preserves R (previewCall p) (λ s, previewOf p (st_plan s)) (previewNode cfg now totals l).
Proof.
  unfold previewNode, buildPDBIssues, buildPDBIssuesStep. keep_inv.
  - apply preserves_liftProg. unfold filterPodsForDrain.
    split; [done|]. intros [e|pods] _; [done|]. by split.
  - apply preserves_modifyPlan. intros s Hp. unfold previewOf. cbn. by rewrite erase_setNodePreview.
Qed.

Lemma rgM_ReconcilePreview R res s :
  rgM R (previewCall (st_plan s)) (ReconcilePreview res) s (λ _ _, True).
Proof.
  unfold ReconcilePreview. do 2 rg_step. rg_step; [by rg_step|].
  assert (rgM R (previewCall (st_plan s))
    (now ← perform CMetaNow;
     totals ← foldM (previewNode (previewConfig (st_plan s)) now) (0, 0)
                (ow_Stable res ++ ow_ToAdopt res);
     modifyPlan (updStatus (λ s, s
       |> set_ps_TotalEvictablePods totals.1
       |> set_ps_TotalPreviewIssues totals.2
       |> set_ps_LastPreviewTime (Some now)));;
     patchPlanStatus (st_plan s)) s (λ _ _, True)) as Hgen.
  { do 2 rg_step; [done|]. rg_step.
    eapply rgM_post; [by apply (preserves_foldM (R:=R) (G:=previewCall (st_plan s))
      (I:=λ s', previewOf (st_plan s) (st_plan s'))); [intros; apply preserves_previewNode|]|].
    intros s1 o Hp. destruct o as [totals|e|]; [|done..]. do 2 rg_step.
    by apply rgM_patchPlanStatus. }
  by destruct (ow_Stable res ++ ow_ToAdopt res).
Qed.

(** C39: the preview only looks, and it is frozen while the drain is in progress:
    as long as the condition DrainInProgress is true the pass makes no call and
    changes nothing.  Otherwise it lists pods
    and budgets and writes nothing but the plan's status, in which the preview of
    each node, the two totals and the time of the preview alone may change: with
    these erased, the plan that is sent is the plan before in every field of its
    metadata, its spec and its status. *)
Theorem ReconcilePreview_safe res s t s' o :
  runM (ReconcilePreview res) s t s' o →
  (isDrainInProgress (st_plan s) = true → t = [] ∧ s' = s ∧ o = OK tt) ∧
  (∀ e, e ∈ t → match ev_act e with
  | CListPods _ | CListPDBs _ | CNow | CMetaNow | CMapOrder _ => True
  | CPatchPlanStatus original p' =>
      original = st_plan s ∧ erasePreview p' = erasePreview (st_plan s)
  | _ => False
  end).
Proof.
  intros Hrun. split.
  { intros Hip. unfold ReconcilePreview in Hrun.
    apply runM_bind in Hrun as (t1 & s1 & o1 & t2 & -> & [-> [= -> ->]] & Hrun).
    rewrite Hip in Hrun. by destruct Hrun as [-> [= -> ->]]. }
  intros e He.
  destruct (rgM_sound (rgM_ReconcilePreview anyAnswer res s) Hrun (answered_any _)) as [Hi _].
  pose proof (issued_elem _ _ _ Hi He) as Hg. destruct (ev_act e); exact Hg.
Qed.
End PreviewTheorems.

(** ** Node objects

    The preview writes no node and keeps the plan's name. *)
Section Quiet.
Context `{SO : SelectorOps}.

Lemma quiet_buildPDBIssuesStep issues e : quiet (buildPDBIssuesStep issues e).
Proof. unfold buildPDBIssuesStep. quiet_tac. Qed.

#[local] Hint Resolve quiet_buildPDBIssuesStep : quiet.

Lemma quiet_buildPDBIssues pods : quiet (buildPDBIssues pods).
Proof. unfold buildPDBIssues. quiet_tac. Qed.

Lemma quiet_filterPodsForDrain node cfg : quiet (liftProg (filterPodsForDrain node cfg)).
Proof.
  intros h name. apply preserves_liftProg. unfold filterPodsForDrain.
  split; [done|]. intros [e|pods] _; [done|]. by split.
Qed.

#[local] Hint Resolve quiet_buildPDBIssues quiet_filterPodsForDrain : quiet.

Lemma quiet_previewNode cfg now totals l : quiet (previewNode cfg now totals l).
Proof. unfold previewNode. quiet_tac. Qed.

#[local] Hint Resolve quiet_previewNode : quiet.

Lemma quiet_ReconcilePreview res : quiet (ReconcilePreview res).
Proof. unfold ReconcilePreview. quiet_tac. Qed.
End Quiet.

#[export] Hint Resolve quiet_ReconcilePreview : quiet.

(** ** Witnesses *)

(** Selectors that match everything. *)
#[local] Instance allSelectors : SelectorOps := {| LabelSelectorAsSelector := λ _, inr (λ _, true) |}.

Definition exhaustedPDB : PodDisruptionBudget :=
  MkPodDisruptionBudget "pdb" (Some (MkLabelSelector [] [])) 0.

Definition pdbTables : tables := MkTables [] (λ _, []) [exhaustedPDB] [] (λ _, None) 0.

Lemma pdbTables_fixed c w : fixedBudgets (λ _, [exhaustedPDB]) c (tableEnv pdbTables c w).1.
Proof. destruct c; cbn; try exact I. by intros pdbs [= <-]. Qed.

Lemma buildPDBIssues_spec_witness :
  let pods := [examplePod "a" []; examplePod "b" []] in
  let s := MkSt (examplePlan ["n1"]) [] in
  let r := execResult pdbTables (buildPDBIssues pods) s in
  ∃ issues, r.2 = OK issues ∧ length issues = 2%nat ∧ (length issues ≤ length pods)%nat.
Proof.
  intros pods s r.
  set (issues := omap (podPDBIssue (λ _, [exhaustedPDB])) pods).
  assert (r.2 = OK issues) as Hok by (vm_compute; reflexivity).
  exists issues. split; [exact Hok|]. split; [reflexivity|].
  pose proof (exec_run pdbTables (buildPDBIssues pods) s) as Hrun. fold r in Hrun.
  rewrite Hok in Hrun.
  exact (proj1 (proj2 (buildPDBIssues_spec (λ _, [exhaustedPDB]) pods s _ _ issues Hrun
    (exec_answered _ _ _ _ pdbTables_fixed)))).
Defined.

Lemma ReconcilePreview_safe_witness :
  let s := MkSt (setCondition (examplePlan ["n1"]) ConditionDrainInProgress ConditionTrue "" "")
             [exampleNode "n1"] in
  let res := MkOwnershipResolution [] [] [0%nat] [] [0%nat] None in
  isDrainInProgress (st_plan s) = true ∧ execTrace emptyTables (ReconcilePreview res) s = [].
Proof.
  intros s res. split; [reflexivity|].
  exact (proj1 (proj1 (ReconcilePreview_safe res s _ _ _
    (exec_run emptyTables (ReconcilePreview res) s)) eq_refl)).
Defined.
