(* ===== verification/Reconcile.v ===== *)
(** * The steps of a pass on nodes (reconcile.go, reconcile_drift.go) *)
From S2P Require Import Prelude GoTime Api Prog Kube Drift Cordon Ownership.

(** ** ReconcileOwnership *)

Definition warnConflict (l : loc) : M unit :=
  node ← load l;
  Eventf (Some (n_Name node)) "Warning" "OwnershipConflict" "SkipNode"
    ("node " +:+ quote (n_Name node) +:+ " already managed by another plan").

Definition adoptStep (cordon : bool) (l : loc) : M unit :=
  plan ← getPlan;
  node ← load l;
  if (GetNodeDriftState plan (n_Name node)).1 then mret tt
  else if nodeCompletedMaintenance plan (n_Name node) then mret tt
  else wrapErr ("adopting node " +:+ quote (n_Name node)) (AdoptNode l cordon).

Definition ReconcileOwnership (res : OwnershipResolution) (cordonNow : bool) : M unit :=
  rangeM (ow_Conflicting res) warnConflict;;
  plan ← getPlan;
  rangeM (ow_ToAdopt res) (adoptStep (cordonEnabled plan && cordonNow)).

(** ** ReconcileDrift *)

Definition driftStep (l : loc) : M unit :=
  plan ← getPlan;
  node ← load l;
  let '(drifted, reason) := DetectNodeDrift (Some node) plan in
  if negb drifted then mret tt
  else if decide (reason = DriftReasonMaintenanceComplete) then
    Eventf (Some (n_Name node)) EventTypeNormal "MaintenanceComplete" "ReleaseNode"
      ("node " +:+ quote (n_Name node)
       +:+ " returned to service after maintenance: ownership released");;
    wrapErr ("releasing maintenance-complete node " +:+ quote (n_Name node)) (ReleaseNode l)
  else if decide (reason = DriftReasonManualUncordon) then
    Eventf (Some (n_Name node)) EventTypeWarning "DriftDetected" "ReleaseNode"
      ("node " +:+ quote (n_Name node) +:+ " drifted (" +:+ reason
       +:+ "): ownership released. Remove and re-add the node to the plan spec to resume management.");;
    wrapErr ("releasing drifted node " +:+ quote (n_Name node)) (ReleaseNode l)
  else if decide (reason = DriftReasonExternalCordon) then
    Eventf (Some (n_Name node)) EventTypeWarning "DriftDetected" "ObserveNode"
      ("node " +:+ quote (n_Name node) +:+ " drifted (" +:+ reason
       +:+ "): externally cordoned while cordon is disabled, operator will not interfere")
  else mret tt.

Definition ReconcileDrift (res : OwnershipResolution) : M unit :=
  rangeM (ow_Stable res) driftStep.

(** ** ReconcileCordon *)

Definition cordonStableStep (enabled : bool) (l : loc) : M unit :=
  plan ← getPlan;
  node ← load l;
  if decide (owner node ≠ p_Name plan) then mret tt
  else if enabled then
    changed ← wrapErr ("cordoning node " +:+ quote (n_Name node)) (CordonNode l);
    if changed : bool then
      node ← load l;
      Eventf (Some (n_Name node)) EventTypeNormal "NodeCordoned" "CordonNode"
        ("node " +:+ quote (n_Name node) +:+ " cordoned")
    else mret tt
  else if n_Unschedulable node && negb (operatorCordoned node) then mret tt
  else
    changed ← wrapErr ("uncordoning node " +:+ quote (n_Name node)) (UncordonNode l);
    if changed : bool then
      node ← load l;
      Eventf (Some (n_Name node)) EventTypeNormal "NodeUncordoned" "UncordonNode"
        ("node " +:+ quote (n_Name node) +:+ " uncordoned")
    else mret tt.

Definition releaseStep (l : loc) : M unit :=
  node ← load l;
  wrapErr ("uncordoning node " +:+ quote (n_Name node)) (UncordonNode l);;
  node ← load l;
  wrapErr ("releasing node " +:+ quote (n_Name node)) (ReleaseNode l);;
  node ← load l;
  Eventf (Some (n_Name node)) EventTypeNormal "NodeReleased" "ReleaseNode"
    ("node " +:+ quote (n_Name node) +:+ " removed from plan spec, uncordoned and released").

Definition ReconcileCordon (res : OwnershipResolution) : M unit :=
  plan ← getPlan;
  rangeM (ow_Stable res) (cordonStableStep (cordonEnabled plan));;
  rangeM (ow_ToRelease res) releaseStep.

(** ** Steps that touch one node *)

(** The plan and every node object but the one at [l] are as before. *)
Definition changesAt (l : loc) (s s' : st) : Prop :=
  st_plan s' = st_plan s ∧ ∀ l', l' ≠ l → st_heap s' !! l' = st_heap s !! l'.

Lemma changesAt_refl l s : changesAt l s s.
Proof. done. Qed.

Lemma changesAt_heapSet l s n : changesAt l s (heapSet s l n).
Proof. split; [done|]. intros l' Hl'. by apply heapSet_lookup_ne. Qed.

#[local] Hint Resolve changesAt_refl changesAt_heapSet : core.

(** A loop over distinct nodes: each body finds its node as it was before the
    loop, changes no other node, and what it achieves on its node stays. *)
Lemma rgM_rangeNodes_post R G (pre : option Node → Prop) (post : option Node → option Node → Prop)
    (f : loc → M unit) ls s0 :
  (∀ l s, l ∈ ls → st_plan s = st_plan s0 → st_heap s !! l = st_heap s0 !! l →
     pre (st_heap s !! l) →
     rgM R G (f l) s (λ s' o, changesAt l s s' ∧
       (o = OK tt → post (st_heap s !! l) (st_heap s' !! l)))) →
  NoDup ls → (∀ l, l ∈ ls → pre (st_heap s0 !! l)) →
  rgM R G (rangeM ls f) s0 (λ s' o, st_plan s' = st_plan s0 ∧
    (∀ l, l ∉ ls → st_heap s' !! l = st_heap s0 !! l) ∧
    (o = OK tt → ∀ l, l ∈ ls → post (st_heap s0 !! l) (st_heap s' !! l))).
Proof.
  revert s0. induction ls as [|l ls IH]; intros s0 Hf Hnd Hpre; cbn [rangeM].
  { rg_step. split_and!; [done|done|]. by intros _ l ?%elem_of_nil. }
  apply list.NoDup_cons in Hnd as [Hnin Hnd]. rg_step.
  eapply rgM_post; [apply (Hf l s0); [apply list_elem_of_here|done|done|]|].
  { apply Hpre, list_elem_of_here. }
  intros s1 o [[Hp1 Hh1] Hpost].
  destruct o as [[]|e|]; [|split_and!; [done| |done]; intros l' Hl'; apply Hh1; set_solver..].
  assert (∀ l', l' ∈ ls → st_heap s1 !! l' = st_heap s0 !! l') as Hrest.
  { intros l' Hl'. apply Hh1. intros ->. done. }
  eapply rgM_post; [apply IH; [|done|]|].
  - intros l' s Hl' Hp Hh Hpr. apply Hf; [by apply list_elem_of_further|congruence| |done].
    by rewrite Hh, Hrest.
  - intros l' Hl'. rewrite (Hrest l' Hl'). apply Hpre. by apply list_elem_of_further.
  - intros s2 o (Hp2 & Hh2 & Hpost2). split_and!; [congruence| |].
    + intros l' Hl'. rewrite Hh2 by set_solver. apply Hh1. set_solver.
    + intros -> l' [->|Hl']%elem_of_cons.
      * rewrite (Hh2 l Hnin). by apply Hpost.
      * rewrite <-(Hrest l' Hl'). by apply Hpost2.
Qed.

Lemma rgM_rangeNodes R G (pre : option Node → Prop) (f : loc → M unit) ls s0 :
  (∀ l s, l ∈ ls → st_plan s = st_plan s0 → st_heap s !! l = st_heap s0 !! l →
     pre (st_heap s !! l) → rgM R G (f l) s (λ s' _, changesAt l s s')) →
  NoDup ls → (∀ l, l ∈ ls → pre (st_heap s0 !! l)) →
  rgM R G (rangeM ls f) s0 (λ s' _, st_plan s' = st_plan s0 ∧
    ∀ l, l ∉ ls → st_heap s' !! l = st_heap s0 !! l).
Proof.
  intros Hf Hnd Hpre.
  eapply rgM_post; [apply (rgM_rangeNodes_post R G pre (λ _ _, True)); [|done|done]|].
  - intros l s H1 H2 H3 H4. eapply rgM_post; [by apply Hf|]. by intros s' o ?.
  - intros s' o (? & ? & _). by split.
Qed.

(** ** Ownership of the patched nodes *)

(** A patch that respects ownership: it adopts an unowned node, or it changes a
    node of the plan and leaves it the plan's or unowned. *)
Definition ownPatch (planName : string) (original m : Node) : Prop :=
  n_Name m = n_Name original ∧
  (owner original = "" ∧ owner m = planName ∨
   owner original = planName ∧ (owner m = planName ∨ owner m = "")).

Definition ownPatches (planName : string) : guar call := λ c,
  match c with CPatchNode original m => ownPatch planName original m | _ => True end.

Lemma adopt_ownPatch plan cordon n m :
  owner n = "" → adoptMutation plan cordon n = Some m → ownPatch (p_Name plan) n m.
Proof.
  intros Ho Hm. destruct (adoptMutation_spec _ _ _ _ Hm) as (Hom & _ & _ & _ & Hn & _).
  split; [done|]. by left.
Qed.

Lemma cordonMutation_owner n m : cordonMutation n = Some m → owner m = owner n.
Proof.
  intros Hm. destruct (cordonMutation_spec _ _ Hm) as (_ & _ & _ & _ & Hk). unfold owner.
  by apply Hk.
Qed.

Lemma cordon_ownPatch planName n m :
  owner n = planName → cordonMutation n = Some m → ownPatch planName n m.
Proof.
  intros Ho Hm. destruct (cordonMutation_spec _ _ Hm) as (_ & _ & Hn & _).
  split; [done|]. right. split; [done|]. left. by rewrite (cordonMutation_owner _ _ Hm).
Qed.

Lemma uncordon_ownPatch planName n : owner n = planName → ownPatch planName n (uncordonMutation n).
Proof. intros Ho. split; [done|]. right. split; [done|]. left. by rewrite uncordonMutation_owner. Qed.

Lemma releaseMutation_owner n : owner (releaseMutation n) = "".
Proof. unfold owner. cbn. rewrite !mapDelete_get. repeat case_decide; done. Qed.

Lemma release_ownPatch planName n : owner n = planName → ownPatch planName n (releaseMutation n).
Proof. intros Ho. split; [done|]. right. split; [done|]. right. apply releaseMutation_owner. Qed.

(** Calls that give a node of the plan back: uncordon it, release it, tell of it. *)
Definition handsBack (planName : string) : guar call := λ c,
  match c with
  | CPatchNode n m => owner n = planName ∧ (m = uncordonMutation n ∨ m = releaseMutation n)
  | CEvent _ => True
  | _ => False
  end.

Lemma handsBack_own planName c : handsBack planName c → ownPatches planName c.
Proof. destruct c; try done. intros [Ho [-> | ->]]; [by apply uncordon_ownPatch|by apply release_ownPatch]. Qed.

Section OwnRules.
Context (R : rely resp).

Lemma own_AdoptNode l cordon s n :
  st_heap s !! l = Some n → owner n = "" →
  rgM R (ownPatches (p_Name (st_plan s))) (AdoptNode l cordon) s (λ s' _, changesAt l s s').
Proof.
  intros Hl Ho. eapply rgM_AdoptNode; [done|done|]. intros m Hm.
  split_and!; [by eapply adopt_ownPatch|auto|auto].
Qed.

Lemma own_CordonNode l s n :
  st_heap s !! l = Some n → owner n = p_Name (st_plan s) →
  rgM R (ownPatches (p_Name (st_plan s))) (CordonNode l) s (λ s' _, changesAt l s s').
Proof.
  intros Hl Ho. eapply rgM_CordonNode; [done|auto|]. intros _ m Hm.
  split_and!; [by apply cordon_ownPatch|auto|auto].
Qed.

Lemma own_UncordonNode l s n :
  st_heap s !! l = Some n → owner n = p_Name (st_plan s) →
  rgM R (ownPatches (p_Name (st_plan s))) (UncordonNode l) s (λ s' _, changesAt l s s').
Proof.
  intros Hl Ho. eapply rgM_UncordonNode; [done|auto|]. intros _.
  split_and!; [by apply uncordon_ownPatch|auto|auto].
Qed.

Lemma own_ReleaseNode l s :
  rgM R (ownPatches (p_Name (st_plan s))) (ReleaseNode l) s (λ s' _, changesAt l s s').
Proof.
  destruct (st_heap s !! l) as [n|] eqn:Hl.
  - eapply rgM_ReleaseNode; [done|auto|]. intros Ho.
    split_and!; [by apply release_ownPatch|auto|auto].
  - unfold ReleaseNode. do 4 rg_step; [congruence|auto].
Qed.

(** Uncordon, release, notify: what [releaseStep] and [cleanUpNode] do. *)
Lemma gives_uncordonRelease l s n msg1 msg2 (ev : Node → M unit) :
  (∀ n' s' (Q : st → outcome unit → Prop), (∀ o, Q s' o) →
     rgM R (handsBack (p_Name (st_plan s))) (ev n') s' Q) →
  st_heap s !! l = Some n → owner n = p_Name (st_plan s) →
  rgM R (handsBack (p_Name (st_plan s)))
    (wrapErr (msg1 n) (UncordonNode l);;
     node ← load l; wrapErr (msg2 node) (ReleaseNode l);;
     node ← load l; ev node) s (λ s' _, changesAt l s s').
Proof.
  intros Hev Hl Ho. do 2 rg_step. eapply rgM_post.
  { apply (rgM_UncordonNode R _ l s n (λ s' _, changesAt l s s')); [done|auto|]. intros _.
    split_and!; [split; auto|auto|auto]. }
  intros s1 o [Hp1 Hh1]. destruct o as [b|e|]; [|by split..].
  do 2 rg_step; [|by split]. do 2 rg_step. rewrite <-Hp1 in *.
  eapply rgM_post.
  { eapply (rgM_ReleaseNode R _ l s1 _ (λ s' _, changesAt l s1 s')); [done|auto|]. intros Ho'.
    split_and!; [split; auto|auto|auto]. }
  intros s2 o [Hp2 Hh2].
  assert (changesAt l s s2) as Hc by (split; [congruence|intros; by rewrite Hh2, Hh1]).
  destruct o as [[]|e|]; [|done..]. rg_step. rg_step; [|done]. by apply Hev.
Qed.

Lemma gives_releaseStep l s n :
  st_heap s !! l = Some n → owner n = p_Name (st_plan s) →
  rgM R (handsBack (p_Name (st_plan s))) (releaseStep l) s (λ s' _, changesAt l s s').
Proof.
  intros Hl Ho. unfold releaseStep. rg_step. rg_step; [|congruence]. simplify_eq.
  apply (gives_uncordonRelease l s n (λ node, "uncordoning node " +:+ quote (n_Name node))
    (λ node, "releasing node " +:+ quote (n_Name node))); [|done|done].
  intros n' s' Q HQ. by apply rgM_Eventf.
Qed.

Lemma gives_cleanUpNode e s n :
  st_heap s !! e.2 = Some n → owner n = p_Name (st_plan s) →
  rgM R (handsBack (p_Name (st_plan s))) (cleanUpNode e) s (λ s' _, changesAt e.2 s s').
Proof.
  intros Hl Ho. unfold cleanUpNode. rg_step. rg_step; [|congruence]. simplify_eq.
  apply (gives_uncordonRelease e.2 s n
    (λ node, "uncordoning node " +:+ quote (n_Name node) +:+ " during cleanup")
    (λ node, "releasing node " +:+ quote (n_Name node) +:+ " during cleanup")); [|done|done].
  intros n' s' Q HQ. by apply rgM_Eventf.
Qed.

Lemma own_releaseStep l s n :
  st_heap s !! l = Some n → owner n = p_Name (st_plan s) →
  rgM R (ownPatches (p_Name (st_plan s))) (releaseStep l) s (λ s' _, changesAt l s s').
Proof.
  intros Hl Ho. eapply rgM_mono; [by eapply gives_releaseStep|done|apply handsBack_own|done].
Qed.

Lemma own_adoptStep cordon l s n :
  st_heap s !! l = Some n → owner n = "" →
  rgM R (ownPatches (p_Name (st_plan s))) (adoptStep cordon l) s (λ s' _, changesAt l s s').
Proof.
  intros Hl Ho. unfold adoptStep. do 2 rg_step. rg_step. rg_step; [|congruence]. simplify_eq.
  rg_step; [rg_step; auto|]. rg_step; [rg_step; auto|]. rg_step.
  eapply rgM_post; [by eapply own_AdoptNode|]. by intros s' [?|?|] ?.
Qed.

Lemma own_driftStep l s :
  rgM R (ownPatches (p_Name (st_plan s))) (driftStep l) s (λ s' _, changesAt l s s').
Proof.
  unfold driftStep. do 2 rg_step. rg_step. rg_step; [|auto].
  destruct (DetectNodeDrift (Some n) (st_plan s)) as [drifted reason].
  rg_step; [rg_step; auto|].
  assert (∀ msg related ty rs action note, rgM R (ownPatches (p_Name (st_plan s)))
    (Eventf related ty rs action note;; wrapErr msg (ReleaseNode l)) s
    (λ s' _, changesAt l s s')) as Hrel.
  { intros. rg_step. apply rgM_Eventf; [done|]. rg_step.
    eapply rgM_post; [apply own_ReleaseNode|]. by intros s' [?|?|] ?. }
  rg_step; [apply Hrel|]. rg_step; [apply Hrel|]. rg_step; [by apply rgM_Eventf|rg_step; auto].
Qed.

(** A change of one node and the event that announces it. *)
Lemma own_changeEvent l s msg (m : M bool) (ev : Node → M unit) :
  (∀ n' s' (Q : st → outcome unit → Prop), (∀ o, Q s' o) →
     rgM R (ownPatches (p_Name (st_plan s))) (ev n') s' Q) →
  rgM R (ownPatches (p_Name (st_plan s))) m s (λ s' _, changesAt l s s') →
  rgM R (ownPatches (p_Name (st_plan s)))
    (changed ← wrapErr msg m; if changed : bool then node ← load l; ev node else mret tt) s
    (λ s' _, changesAt l s s').
Proof.
  intros Hev Hm. do 2 rg_step. eapply rgM_post; [exact Hm|]. intros s1 [[]|e|] Hc; [|by rg_step|done..].
  rg_step. rg_step; [|done]. by apply Hev.
Qed.

Lemma own_cordonStableStep enabled l s :
  rgM R (ownPatches (p_Name (st_plan s))) (cordonStableStep enabled l) s (λ s' _, changesAt l s s').
Proof.
  unfold cordonStableStep. do 2 rg_step. rg_step. rg_step; [|auto].
  case_decide as Ho; [rg_step; auto|].
  assert (∀ ty rs action (note : Node → string) n' s' (Q : st → outcome unit → Prop), (∀ o, Q s' o) →
    rgM R (ownPatches (p_Name (st_plan s)))
      (Eventf (Some (n_Name n')) ty rs action (note n')) s' Q) as Hev
    by (intros; by apply rgM_Eventf).
  rg_step; [|rg_step; [rg_step; auto|]].
  - apply (own_changeEvent l s _ (CordonNode l) (λ node, Eventf (Some (n_Name node)) EventTypeNormal
      "NodeCordoned" "CordonNode" ("node " +:+ quote (n_Name node) +:+ " cordoned"))).
    + apply (Hev _ _ _ (λ node, "node " +:+ quote (n_Name node) +:+ " cordoned")).
    + by eapply own_CordonNode.
  - apply (own_changeEvent l s _ (UncordonNode l) (λ node, Eventf (Some (n_Name node)) EventTypeNormal
      "NodeUncordoned" "UncordonNode" ("node " +:+ quote (n_Name node) +:+ " uncordoned"))).
    + apply (Hev _ _ _ (λ node, "node " +:+ quote (n_Name node) +:+ " uncordoned")).
    + by eapply own_UncordonNode.
Qed.

Lemma own_warnConflict l s :
  rgM R (ownPatches (p_Name (st_plan s))) (warnConflict l) s (λ s' _, s' = s).
Proof. unfold warnConflict. rg_step. rg_step; [|done]. by apply rgM_Eventf. Qed.

Lemma own_warnConflicts ls s :
  rgM R (ownPatches (p_Name (st_plan s))) (rangeM ls warnConflict) s (λ s' _, s' = s).
Proof.
  revert s. induction ls as [|l ls IH]; intros s; cbn [rangeM]; [by rg_step|].
  rg_step. eapply rgM_post; [apply own_warnConflict|]. intros s1 [[]|e|] ->; [apply IH|done..].
Qed.

Lemma ownerAt_Some s l x : ownerAt s l = Some x → ∃ n, st_heap s !! l = Some n ∧ owner n = x.
Proof. unfold ownerAt. destruct (st_heap s !! l) as [n|]; [|done]. intros [= <-]. by exists n. Qed.

(** The three loops over the nodes of a resolution. *)
Lemma own_ReconcileOwnership res cordonNow s :
  resolutionWF (p_Name (st_plan s)) s res →
  rgM R (ownPatches (p_Name (st_plan s))) (ReconcileOwnership res cordonNow) s (λ s' _,
    st_plan s' = st_plan s ∧ ∀ l, l ∉ ow_ToAdopt res → st_heap s' !! l = st_heap s !! l).
Proof.
  intros (Hnd & Had & _ & _). unfold ReconcileOwnership. rg_step.
  eapply rgM_post; [apply own_warnConflicts|]. intros s1 [[]|e|] ->; [|done..].
  do 2 rg_step. apply (rgM_rangeNodes _ _ (λ o, owner <$> o = Some "")).
  - intros l s1 _ Hp _ Hl. rewrite <-Hp. destruct (st_heap s1 !! l) as [n|] eqn:E; [|done].
    eapply own_adoptStep; [done|]. by injection Hl.
  - by apply list.NoDup_app in Hnd as (? & _ & _).
  - exact Had.
Qed.

Lemma own_ReconcileDrift res s :
  NoDup (ow_Stable res) →
  rgM R (ownPatches (p_Name (st_plan s))) (ReconcileDrift res) s (λ s' _,
    st_plan s' = st_plan s ∧ ∀ l, l ∉ ow_Stable res → st_heap s' !! l = st_heap s !! l).
Proof.
  intros Hnd. apply (rgM_rangeNodes _ _ (λ _, True)); [|done|done].
  intros l s1 _ Hp _ _. rewrite <-Hp. apply own_driftStep.
Qed.

Lemma own_ReconcileCordon res s :
  NoDup (ow_Stable res ++ ow_ToRelease res) →
  (∀ l, l ∈ ow_ToRelease res → ownerAt s l = Some (p_Name (st_plan s))) →
  rgM R (ownPatches (p_Name (st_plan s))) (ReconcileCordon res) s
    (λ s' _, st_plan s' = st_plan s).
Proof.
  intros Hnd Hrel. apply list.NoDup_app in Hnd as (Hnd1 & Hdisj & Hnd2). unfold ReconcileCordon. do 3 rg_step.
  eapply rgM_post; [apply (rgM_rangeNodes _ _ (λ _, True)); [|done|done]|].
  { intros l s1 _ Hp _ _. rewrite <-Hp. apply own_cordonStableStep. }
  intros s1 o [Hp1 Hh1]. destruct o as [[]|e|]; [|done..].
  rewrite <-Hp1. eapply rgM_post;
    [apply (rgM_rangeNodes _ _ (λ o, owner <$> o = Some (p_Name (st_plan s1)))); [|done|]|].
  - intros l s2 _ Hp _ Hl. destruct (st_heap s2 !! l) as [n|] eqn:E; [|done].
    injection Hl as Hl. rewrite <-Hp in *. by eapply own_releaseStep.
  - intros l Hl. rewrite Hh1 by (intros Hs; by apply (Hdisj l)). rewrite Hp1. by apply Hrel.
  - by intros s2 o [Hp2 _].
Qed.
End OwnRules.

(** ** Drift *)

Lemma DetectNodeDrift_owned n plan r :
  DetectNodeDrift (Some n) plan = (true, r) →
  owner n = p_Name plan ∧
  (r = DriftReasonExternalCordon ∧ cordonEnabled plan = false ∧ operatorCordoned n = false ∧
     n_Unschedulable n = true ∨
   (r = DriftReasonMaintenanceComplete ∨ r = DriftReasonManualUncordon) ∧
     cordonEnabled plan = true ∧ operatorCordoned n = true ∧ n_Unschedulable n = false).
Proof.
  unfold DetectNodeDrift. destruct (n_Annotations n); [|done].
  case_decide as Ho; [done|].
  destruct (cordonEnabled plan), (operatorCordoned n), (n_Unschedulable n); cbn [negb andb];
    try done; repeat case_match; intros [= <-]; split; auto.
Qed.

(** Drift handling lets go and never pushes back.  Whatever the cluster
    does, the only node patches [ReconcileDrift] sends are releases of nodes of
    this plan that it had cordoned itself and that somebody made schedulable
    again while the plan still wants the cordon; the release drops the ownership
    and leaves the node schedulable.  Externally cordoned nodes are not touched,
    and the plan is not written. *)
Theorem ReconcileDrift_releases res s t s' o :
  runM (ReconcileDrift res) s t s' o →
  st_plan s' = st_plan s ∧
  ∀ e, e ∈ t → match ev_act e with
  | CPatchNode original m =>
      m = releaseMutation original ∧ owner original = p_Name (st_plan s) ∧
      cordonEnabled (st_plan s) = true ∧ operatorCordoned original = true ∧
      n_Unschedulable original = false ∧ owner m = "" ∧ n_Unschedulable m = false
  | CEvent _ => True
  | _ => False
  end.
Proof.
  intros Hrun.
  set (G := λ c, match c with
    | CPatchNode original m =>
        m = releaseMutation original ∧ owner original = p_Name (st_plan s) ∧
        cordonEnabled (st_plan s) = true ∧ operatorCordoned original = true ∧
        n_Unschedulable original = false ∧ owner m = "" ∧ n_Unschedulable m = false
    | CEvent _ => True | _ => False end).
  assert (preserves anyAnswer G (λ s', st_plan s' = st_plan s) (ReconcileDrift res)) as Hpres.
  { apply preserves_rangeM. intros l s1 Hs1. unfold driftStep. do 2 rg_step. rg_step.
    rg_step; [|done]. destruct (DetectNodeDrift (Some n) (st_plan s1)) as [[] r] eqn:Hd;
      cbn [negb]; [|by rg_step].
    apply DetectNodeDrift_owned in Hd as [Ho Hc]. rewrite Hs1 in *.
    assert (r ≠ DriftReasonExternalCordon → ∀ msg related ty rs action note,
      rgM anyAnswer G (Eventf related ty rs action note;; wrapErr msg (ReleaseNode l)) s1
        (λ s' _, st_plan s' = st_plan s)) as Hrel.
    { intros Hr msg related ty rs action note. rg_step. apply rgM_Eventf; [done|]. rg_step.
      destruct Hc as [[? _]|(_ & He & Hop & Hu)]; [done|].
      eapply rgM_ReleaseNode; [done|done|]. intros _.
      split_and!; [|done|done]. split_and!; try done. apply releaseMutation_owner. }
    rg_step; [apply Hrel; match goal with E : r = _ |- _ => rewrite E; discriminate end|].
    rg_step; [apply Hrel; match goal with E : r = _ |- _ => rewrite E; discriminate end|].
    rg_step; [by apply rgM_Eventf|by rg_step]. }
  destruct (rgM_sound (Hpres s eq_refl) Hrun (answered_any _)) as [Hi Hp].
  split; [done|]. intros e He. pose proof (issued_elem _ _ _ Hi He) as Hg.
  destruct (ev_act e); exact Hg.
Qed.

(** ** Adoption *)

(** C26: adoption.  [ReconcileOwnership] patches only the unowned nodes of the
    resolution, each from the object the resolution was computed on, with the
    ownership of this plan and the cordon exactly when the plan enables it and
    the window is open; a node recorded as drifted or as having completed its
    maintenance is left alone, so a released node is not taken back.
    Conflicting nodes only produce an event.  It releases nothing: a node that
    was removed from the spec is not patched here (that is left to
    [ReconcileCordon], although its comment and the architecture document place it
    here). *)
Theorem ReconcileOwnership_adopts res cordonNow s t s' o :
  resolutionWF (p_Name (st_plan s)) s res →
  runM (ReconcileOwnership res cordonNow) s t s' o →
  ∀ e, e ∈ t → match ev_act e with
  | CPatchNode original m =>
      (∃ l, l ∈ ow_ToAdopt res ∧ st_heap s !! l = Some original) ∧ owner original = "" ∧
      adoptMutation (st_plan s) (cordonEnabled (st_plan s) && cordonNow) original = Some m ∧
      (GetNodeDriftState (st_plan s) (n_Name original)).1 = false ∧
      nodeCompletedMaintenance (st_plan s) (n_Name original) = false
  | CEvent _ => True
  | _ => False
  end.
Proof.
  intros (Hnd & Had & _ & _) Hrun.
  set (cordon := cordonEnabled (st_plan s) && cordonNow).
  set (G := λ c, match c with
    | CPatchNode original m =>
        (∃ l, l ∈ ow_ToAdopt res ∧ st_heap s !! l = Some original) ∧ owner original = "" ∧
        adoptMutation (st_plan s) cordon original = Some m ∧
        (GetNodeDriftState (st_plan s) (n_Name original)).1 = false ∧
        nodeCompletedMaintenance (st_plan s) (n_Name original) = false
    | CEvent _ => True | _ => False end).
  assert (rgM anyAnswer G (ReconcileOwnership res cordonNow) s (λ _ _, True)) as Hrg.
  { unfold ReconcileOwnership. rg_step.
    eapply rgM_post; [apply (rgM_rangeM _ _ (λ _ s', s' = s) warnConflict _ _
      (λ s' o, o = OK tt → s' = s))|].
    - intros l ls s1 ->. unfold warnConflict. rg_step. rg_step; [by apply rgM_Eventf|done].
    - by intros s1 ->.
    - done.
    - intros s1 [[]|e|] Hs1; [rewrite (Hs1 eq_refl)|done..]. do 2 rg_step.
      eapply rgM_post; [apply (rgM_rangeNodes _ _ (λ o, owner <$> o = Some ""))|done].
      + intros l s2 Hl Hp Hh Ho. destruct (st_heap s2 !! l) as [n|] eqn:E; [|done].
        injection Ho as Ho. unfold adoptStep. do 2 rg_step. rg_step. rg_step; [|congruence].
        simplify_eq. rewrite Hp in *.
        destruct (GetNodeDriftState (st_plan s) (n_Name n)).1 eqn:Hdr; [by rg_step|].
        destruct (nodeCompletedMaintenance (st_plan s) (n_Name n)) eqn:Hcm; [by rg_step|].
        rg_step. eapply rgM_post; [eapply (rgM_AdoptNode _ _ _ _ _ _
          (λ s' _, changesAt l s2 s')); [done|done|]|by intros s3 [?|?|] ?].
        intros m Hm. rewrite Hp in Hm.
        split_and!; [split_and!; [by exists l|done..]|auto|auto].
      + by apply list.NoDup_app in Hnd as (? & _ & _).
      + exact Had. }
  destruct (rgM_sound Hrg Hrun (answered_any _)) as [Hi _].
  intros e He. pose proof (issued_elem _ _ _ Hi He) as Hg. destruct (ev_act e); exact Hg.
Qed.

(** ** Cordon *)

(** What [ReconcileCordon] makes of a stable node. *)
Definition cordonResult (plan : NodeMaintenancePlan) (n : Node) : Node :=
  if decide (owner n ≠ p_Name plan) then n
  else if cordonEnabled plan
  then if alreadyCordoned n then n else default n (cordonMutation n)
  else if n_Unschedulable n && negb (operatorCordoned n) then n
  else if negb (n_Unschedulable n) && negb (annotationPresent n) then n
  else uncordonMutation n.

Lemma annotationPresent_operator n : annotationPresent n = false → operatorCordoned n = false.
Proof.
  unfold annotationPresent, operatorCordoned. intros Ha%bool_decide_eq_false.
  apply bool_decide_eq_false. intros He. apply Ha. by rewrite He.
Qed.

Lemma uncordonMutation_operator n : operatorCordoned (uncordonMutation n) = false.
Proof.
  unfold operatorCordoned. cbn. rewrite mapDelete_get. by case_decide.
Qed.

Lemma cordonResult_spec plan n :
  let n' := cordonResult plan n in
  owner n' = owner n ∧ n_Name n' = n_Name n ∧ (owner n ≠ p_Name plan → n' = n) ∧
  (owner n = p_Name plan →
     if cordonEnabled plan
     then n_Unschedulable n' = true ∧ operatorCordoned n' = true
     else operatorCordoned n' = false ∧
       n_Unschedulable n' = n_Unschedulable n && negb (operatorCordoned n)).
Proof.
  cbn zeta. unfold cordonResult. case_decide as Ho; [by split_and!|].
  destruct (cordonEnabled plan).
  - destruct (alreadyCordoned n) eqn:Ha.
    + apply andb_true_iff in Ha as [? ?]. split_and!; try done; intros; by split.
    + destruct (cordonMutation_Some n) as [m Hm]. rewrite Hm. cbn.
      destruct (cordonMutation_spec _ _ Hm) as (? & ? & ? & _).
      split_and!; [by apply cordonMutation_owner|done|done|by split].
  - destruct (n_Unschedulable n) eqn:Hu, (operatorCordoned n) eqn:Hop; cbn [negb andb].
    + split_and!; [apply uncordonMutation_owner|done|done|]. split; [|done].
      apply uncordonMutation_operator.
    + by split_and!.
    + destruct (annotationPresent n) eqn:Hap; cbn; [|by apply annotationPresent_operator in Hap; congruence].
      split_and!; [apply uncordonMutation_owner|done|done|]. split; [|done].
      apply uncordonMutation_operator.
    + destruct (annotationPresent n); cbn; [|by split_and!].
      split_and!; [apply uncordonMutation_owner|done|done|]. split; [|done].
      apply uncordonMutation_operator.
Qed.

Lemma rgM_cordonStableStep l s n :
  st_heap s !! l = Some n →
  rgM echoes anyCall (cordonStableStep (cordonEnabled (st_plan s)) l) s (λ s' o,
    changesAt l s s' ∧ (o = OK tt → st_heap s' !! l = Some (cordonResult (st_plan s) n))).
Proof.
  intros Hl. unfold cordonStableStep. do 2 rg_step. rg_step. rg_step; [|congruence]. simplify_eq.
  unfold cordonResult. case_decide as Ho; [by rg_step|].
  assert (∀ msg (m : M bool) n' (ev : Node → M unit),
    (∀ n s' (Q : st → outcome unit → Prop), (∀ o, Q s' o) → rgM echoes anyCall (ev n) s' Q) →
    rgM echoes anyCall m s (λ s' o, changesAt l s s' ∧ (∀ b, o = OK b → st_heap s' !! l = Some n')) →
    rgM echoes anyCall
      (changed ← wrapErr msg m; if changed : bool then node ← load l; ev node else mret tt) s
      (λ s' o, changesAt l s s' ∧ (o = OK tt → st_heap s' !! l = Some n'))) as Hchange.
  { intros msg m n' ev Hev Hm. do 2 rg_step. eapply rgM_post; [exact Hm|].
    intros s1 [b|e|] [Hc Hh]; [|by split..]. specialize (Hh b eq_refl).
    destruct b; [|by rg_step]. rg_step. rg_step; [|by split]. by apply Hev. }
  destruct (cordonEnabled (st_plan s)).
  - apply (Hchange _ _ _ (λ node, Eventf (Some (n_Name node)) EventTypeNormal
      "NodeCordoned" "CordonNode" ("node " +:+ quote (n_Name node) +:+ " cordoned")));
      [intros; by apply rgM_Eventf|].
    eapply rgM_CordonNode; [done| |].
    + intros ->. split; [done|]. by intros b _.
    + intros -> m ->. split_and!; [done|by intros; split|]. intros n' Hr. cbn in Hr.
      rewrite (Hr n' eq_refl). split; [auto|]. intros b _. by eapply heapSet_lookup.
  - destruct (n_Unschedulable n && negb (operatorCordoned n)); [by rg_step|].
    apply (Hchange _ _ _ (λ node, Eventf (Some (n_Name node)) EventTypeNormal
      "NodeUncordoned" "UncordonNode" ("node " +:+ quote (n_Name node) +:+ " uncordoned")));
      [intros; by apply rgM_Eventf|].
    eapply rgM_UncordonNode; [done| |].
    + intros -> ->. split; [done|]. by intros b _.
    + intros Hor. split_and!; [done|by intros; split|]. intros n' Hr. cbn in Hr.
      rewrite (Hr n' eq_refl). split; [auto|]. intros b _.
      destruct (n_Unschedulable n), (annotationPresent n); cbn; try (by eapply heapSet_lookup).
      by destruct Hor.
Qed.

Lemma rgM_releaseStep l s n :
  st_heap s !! l = Some n → owner n = p_Name (st_plan s) → p_Name (st_plan s) ≠ "" →
  rgM echoes anyCall (releaseStep l) s (λ s' o,
    changesAt l s s' ∧ (o = OK tt → st_heap s' !! l = Some (cleaned (p_Name (st_plan s)) n))).
Proof.
  intros Hl Ho Hne.
  assert (rgM echoes anyCall (releaseStep l) s (λ s' o, o = OK tt →
    st_heap s' !! l = Some (cleaned (p_Name (st_plan s)) n))) as Hpost.
  { unfold releaseStep. rg_step. rg_step; [|congruence]. simplify_eq.
    apply (rgM_uncordonRelease l s n _ (λ node, "releasing node " +:+ quote (n_Name node))
      (λ node, Eventf (Some (n_Name node)) EventTypeNormal "NodeReleased" "ReleaseNode"
        ("node " +:+ quote (n_Name node) +:+ " removed from plan spec, uncordoned and released")));
      [|done|done|done| |done].
    - intros n' s' Q HQ. by apply rgM_Eventf.
    - intros _. by eapply heapSet_lookup. }
  eapply rg_mono; [apply (rg_and _ _ _ _ _ _ (own_releaseStep echoes l s n Hl Ho) Hpost)|done|done|].
  by intros [s' o] [? ?].
Qed.

(** C24: the cordon phase.  When it succeeds and nobody else writes the nodes
    meanwhile, every stable node the plan owns ends up unschedulable with the
    operator's annotation if the plan enables cordon; if not, a node the operator
    had cordoned is schedulable again while an externally cordoned one stays as
    it was.  Nodes to release are uncordoned and unowned, all others untouched. *)
Theorem ReconcileCordon_effect res s t s' :
  NoDup (ow_Stable res ++ ow_ToRelease res) →
  (∀ l, l ∈ ow_Stable res → is_Some (st_heap s !! l)) →
  (∀ l, l ∈ ow_ToRelease res → ownerAt s l = Some (p_Name (st_plan s))) →
  p_Name (st_plan s) ≠ "" →
  runM (ReconcileCordon res) s t s' (OK tt) → answered echoes t →
  ∀ l n, st_heap s !! l = Some n → ∃ n', st_heap s' !! l = Some n' ∧
    (l ∈ ow_Stable res → owner n' = owner n ∧
       if decide (owner n ≠ p_Name (st_plan s)) then n' = n
       else if cordonEnabled (st_plan s)
       then n_Unschedulable n' = true ∧ operatorCordoned n' = true
       else operatorCordoned n' = false ∧
         n_Unschedulable n' = n_Unschedulable n && negb (operatorCordoned n)) ∧
    (l ∈ ow_ToRelease res → owner n' = "" ∧ n_Unschedulable n' = false) ∧
    (l ∉ ow_Stable res ++ ow_ToRelease res → n' = n).
Proof.
  intros Hnd Hst Hrel Hne Hrun Hans. apply list.NoDup_app in Hnd as (Hnd1 & Hdisj & Hnd2).
  assert (rgM echoes anyCall (ReconcileCordon res) s (λ s' o, o = OK tt →
    (∀ l, l ∈ ow_Stable res → st_heap s' !! l = cordonResult (st_plan s) <$> st_heap s !! l) ∧
    (∀ l, l ∈ ow_ToRelease res → st_heap s' !! l = cleaned (p_Name (st_plan s)) <$> st_heap s !! l) ∧
    (∀ l, l ∉ ow_Stable res ++ ow_ToRelease res → st_heap s' !! l = st_heap s !! l))) as Hrg.
  { unfold ReconcileCordon. do 3 rg_step. eapply rgM_post;
      [apply (rgM_rangeNodes_post _ _ is_Some
        (λ o o', o' = cordonResult (st_plan s) <$> o)); [|done|done]|].
    { intros l s1 _ Hp _ [n Hn]. rewrite <-Hp, Hn. by apply rgM_cordonStableStep. }
    intros s1 o (Hp1 & Hh1 & Hpost1). destruct o as [[]|e|]; [|done..].
    eapply rgM_post; [apply (rgM_rangeNodes_post _ _ (λ o, owner <$> o = Some (p_Name (st_plan s)))
      (λ o o', o' = cleaned (p_Name (st_plan s)) <$> o)); [|done|]|].
    - intros l s2 _ Hp _ Ho. destruct (st_heap s2 !! l) as [n|] eqn:Hn; [|done].
      injection Ho as Ho. rewrite <-Hp1, <-Hp in *. by apply rgM_releaseStep.
    - intros l Hl. rewrite Hh1 by (intros Hs; by apply (Hdisj l)). by apply Hrel.
    - intros s2 o (_ & Hh2 & Hpost2) ->. split_and!.
      + intros l Hl. rewrite Hh2 by (intros Hr; by apply (Hdisj l)). by apply Hpost1.
      + intros l Hl. rewrite (Hpost2 eq_refl l Hl).
        by rewrite Hh1 by (intros Hs; by apply (Hdisj l)).
      + intros l Hl. rewrite Hh2 by set_solver. apply Hh1. set_solver. }
  destruct (proj2 (rgM_sound Hrg Hrun Hans) eq_refl) as (H1 & H2 & H3).
  intros l n Hl.
  destruct (decide (l ∈ ow_Stable res)) as [Hs|Hs];
    [|destruct (decide (l ∈ ow_ToRelease res)) as [Hr|Hr]].
  - exists (cordonResult (st_plan s) n). rewrite (H1 l Hs), Hl. split; [done|].
    destruct (cordonResult_spec (st_plan s) n) as (Ho & _ & Hf & Hm).
    split_and!; [intros _|intros Hr; by destruct (Hdisj l Hs)|intros Hn; set_solver].
    split; [done|]. case_decide as Hd; [by apply Hf|apply Hm].
    destruct (decide (owner n = p_Name (st_plan s))); [done|]. by destruct Hd.
  - exists (cleaned (p_Name (st_plan s)) n). rewrite (H2 l Hr), Hl. split; [done|].
    destruct (cleaned_spec (p_Name (st_plan s)) n Hne) as (_ & _ & Hm & _).
    specialize (Hrel l Hr). unfold ownerAt in Hrel. rewrite Hl in Hrel. injection Hrel as Hrel.
    destruct (Hm Hrel) as (? & _ & ?). split_and!; [done|by intros _|intros Hn; set_solver].
  - exists n. rewrite (H3 l) by set_solver. by split_and!.
Qed.

(** ** Witnesses

    A free node, a node of plan-a somebody uncordoned, and one to release. *)
Definition uncordonedByHand : Node := set_n_Unschedulable false (ownedNode "plan-a" "n2").

Definition passState : st :=
  MkSt (examplePlan ["n1"; "n2"]) [exampleNode "n1"; uncordonedByHand; ownedNode "plan-a" "n3"].

Definition passResolution : OwnershipResolution :=
  MkOwnershipResolution [0%nat] [2%nat] [1%nat] [] [0%nat; 1%nat] None.

Lemma passResolution_WF : resolutionWF (p_Name (st_plan passState)) passState passResolution.
Proof.
  split_and!.
  - apply (bool_decide_unpack (NoDup [0; 1; 2]%nat)). vm_compute. exact I.
  - intros l ->%list_elem_of_singleton. reflexivity.
  - intros l ->%list_elem_of_singleton. reflexivity.
  - intros l ->%list_elem_of_singleton. reflexivity.
Qed.

Lemma ReconcileDrift_releases_witness :
  let t := execTrace emptyTables (ReconcileDrift passResolution) passState in
  CPatchNode uncordonedByHand (releaseMutation uncordonedByHand) ∈ ev_act <$> t ∧
  st_plan (execResult emptyTables (ReconcileDrift passResolution) passState).1 = st_plan passState.
Proof.
  split; [apply (list_elem_of_lookup_2 _ 1); vm_compute; reflexivity|].
  exact (proj1 (ReconcileDrift_releases _ _ _ _ _
    (exec_run emptyTables (ReconcileDrift passResolution) passState))).
Defined.

Lemma ReconcileOwnership_adopts_witness :
  let t := execTrace emptyTables (ReconcileOwnership passResolution true) passState in
  length t = 2%nat ∧
  ∀ e, e ∈ t → match ev_act e with CPatchNode original _ => owner original = "" | _ => True end.
Proof.
  split; [vm_compute; reflexivity|]. intros e He.
  pose proof (ReconcileOwnership_adopts _ _ _ _ _ _ passResolution_WF
    (exec_run emptyTables (ReconcileOwnership passResolution true) passState) e He) as H.
  destruct (ev_act e); try exact I. exact (proj1 (proj2 H)).
Defined.

Lemma ReconcileCordon_effect_witness :
  let r := execResult emptyTables (ReconcileCordon passResolution) passState in
  r.2 = OK tt ∧ ∃ n', st_heap r.1 !! 1%nat = Some n' ∧ owner n' = "plan-a".
Proof.
  intros r. assert (r.2 = OK tt) as Hok by (vm_compute; reflexivity). split; [exact Hok|].
  pose proof (exec_run emptyTables (ReconcileCordon passResolution) passState) as Hrun.
  fold r in Hrun. rewrite Hok in Hrun.
  destruct passResolution_WF as (Hnd & _ & _ & Hrel).
  apply list.NoDup_app in Hnd as (_ & _ & Hnd).
  destruct (ReconcileCordon_effect passResolution passState _ r.1 Hnd
    ltac:(intros l ->%list_elem_of_singleton; eexists; reflexivity) Hrel ltac:(discriminate)
    Hrun (exec_echoes _ _ _) 1%nat uncordonedByHand eq_refl) as (n' & Hn' & Hs & _).
  exists n'. split; [exact Hn'|].
  exact (proj1 (Hs ltac:(apply list_elem_of_here))).
Defined.
