(* ===== verification/Metrics.v ===== *)
(** * Prometheus metrics (internal/metrics/metrics.go)

    The vectors of gauges with their names and labels, their registration in
    [init], what [RecordPlan] sets and what [DeletePlan] removes.  Prometheus'
    own code is a class, [GaugeOps], with its documented behaviour as laws:
    [WithLabelValues] panics unless it is given one value per label, and
    [MustRegister] unless the names are new and distinct.  A [float64] gauge is a
    rational: the integers the program sets are exact in a [float64], the progress
    ratios are the exact quotients the floating-point division rounds. *)
From Stdlib Require Import QArith.
From S2P Require Import Prelude GoTime Api Prog Kube.
#[local] Open Scope string_scope.
#[local] Open Scope list_scope.
#[local] Open Scope Z_scope.

(** ** The vectors *)

Record GaugeVec : Type := MkGaugeVec {
  gv_Name : string;
  gv_Help : string;
  gv_Labels : list string
}.

Definition labelPlan : string := "plan".
Definition labelNode : string := "node".

Definition allPhases : list string :=
  [PhasePending; PhaseAdopted; PhaseScheduled; PhaseCordoned; PhaseDraining; PhaseBlocked;
   PhaseReady; PhaseTimedOut; PhaseConflict].

Definition planManagedNodes : GaugeVec := MkGaugeVec "nmo_plan_managed_nodes_total"
  "Total number of nodes currently under management by the plan." [labelPlan].
Definition planReadyNodes : GaugeVec := MkGaugeVec "nmo_plan_ready_nodes_total"
  "Number of nodes that have reached ReadyForMaintenance." [labelPlan].
Definition planDrainingNodes : GaugeVec := MkGaugeVec "nmo_plan_draining_nodes_total"
  "Number of nodes currently being drained." [labelPlan].
Definition planBlockedNodes : GaugeVec := MkGaugeVec "nmo_plan_blocked_nodes_total"
  "Number of nodes with at least one pod blocking drain." [labelPlan].
Definition planDriftedNodes : GaugeVec := MkGaugeVec "nmo_plan_drifted_nodes_total"
  "Number of nodes that have drifted from the desired cordon state." [labelPlan].
Definition planDrainProgress : GaugeVec := MkGaugeVec "nmo_plan_drain_progress"
  "Average drain completion ratio across all managed nodes (0–1)." [labelPlan].
Definition planPhase : GaugeVec := MkGaugeVec "nmo_plan_phase"
  "Current lifecycle phase of the plan. 1 for the active phase, 0 for all others." [labelPlan; "phase"].
Definition nodeDrainProgress : GaugeVec := MkGaugeVec "nmo_node_drain_progress"
  "Per-node drain completion ratio (0–1)." [labelPlan; labelNode].
Definition nodeEvictedTotal : GaugeVec := MkGaugeVec "nmo_node_evicted_pods_total"
  "Cumulative number of pods evicted from the node by this plan." [labelPlan; labelNode].
Definition nodeBlockedPods : GaugeVec := MkGaugeVec "nmo_node_blocked_pods"
  "Number of pods currently blocking drain on this node." [labelPlan; labelNode].

(** ** Prometheus *)

(** A series: the name of its vector and its label values. *)
Definition seriesId : Type := string * list string.

Definition seriesAt (vec : GaugeVec) (labels : list string) : seriesId := (gv_Name vec, labels).

(** [None] is a panic. *)
Class GaugeOps : Type := {
  registry : Type;
  registered : registry → list string;
  gaugeGet : registry → seriesId → option Q;
  (* Registry.MustRegister(vecs...) *)
  MustRegister : list GaugeVec → registry → option registry;
  (* vec.WithLabelValues(labels...).Set(v) *)
  gaugeSet : GaugeVec → list string → Q → registry → option registry;
  (* vec.DeleteLabelValues(labels...) *)
  gaugeDelete : GaugeVec → list string → registry → registry
}.

Class GaugeLaws `{GaugeOps} : Prop := {
  MustRegister_ok vecs r :
    NoDup (map gv_Name vecs) → (∀ vec, vec ∈ vecs → gv_Name vec ∉ registered r) →
    ∃ r', MustRegister vecs r = Some r' ∧ registered r' ≡ₚ registered r ++ map gv_Name vecs ∧
      ∀ k, gaugeGet r' k = gaugeGet r k;
  gaugeSet_ok vec labels v r :
    length labels = length (gv_Labels vec) →
    ∃ r', gaugeSet vec labels v r = Some r' ∧
      ∀ k, gaugeGet r' k = if decide (k = seriesAt vec labels) then Some v else gaugeGet r k;
  gaugeDelete_get vec labels r k :
    length labels = length (gv_Labels vec) →
    gaugeGet (gaugeDelete vec labels r) k =
      if decide (k = seriesAt vec labels) then None else gaugeGet r k
}.

(** ** The program *)

(** A [for _, x := range xs] whose body may panic. *)
Fixpoint rangeO {A R} (f : R → A → option R) (r : R) (xs : list A) : option R :=
  match xs with
  | [] => Some r
  | x :: xs => r' ← f r x; rangeO f r' xs
  end.

(** The counters of the first loop of [RecordPlan]. *)
Record planCounts : Type := MkPlanCounts {
  pc_ready : Z;
  pc_draining : Z;
  pc_blocked : Z;
  pc_drifted : Z;
  pc_totalProgress : Z
}.

Definition countStep (c : planCounts) (ns : NodeStatus) : planCounts :=
  MkPlanCounts
    (if ns_ReadyForMaintenance ns then int32 (pc_ready c + 1) else pc_ready c)
    (if ns_ReadyForMaintenance ns then pc_draining c
     else if 0 <? ns_TotalPods ns then int32 (pc_draining c + 1) else pc_draining c)
    (if 0 <? ns_BlockedPods ns then int32 (pc_blocked c + 1) else pc_blocked c)
    (if ns_Drifted ns then int32 (pc_drifted c + 1) else pc_drifted c)
    (int32 (pc_totalProgress c + ns_DrainProgress ns)).

Definition countNodes (nodes : list NodeStatus) : planCounts :=
  foldl countStep (MkPlanCounts 0 0 0 0 0) nodes.

Definition progressRatio (totalProgress nodeCount : Z) : Q :=
  if 0 <? nodeCount then (inject_Z totalProgress / inject_Z nodeCount / inject_Z 100)%Q
  else inject_Z 0.

Section Metrics.
Context `{GO : GaugeOps}.

Definition metricsVecs : list GaugeVec :=
  [planManagedNodes; planReadyNodes; planDrainingNodes; planBlockedNodes; planDriftedNodes;
   planDrainProgress; planPhase; nodeDrainProgress; nodeEvictedTotal; nodeBlockedPods].

(** [init]. *)
Definition registerMetrics (r : registry) : option registry := MustRegister metricsVecs r.

Definition recordPhase (name phase : string) (r : registry) (p : string) : option registry :=
  gaugeSet planPhase [name; p] (if decide (p = phase) then inject_Z 1 else inject_Z 0) r.

Definition recordNode (name : string) (r : registry) (ns : NodeStatus) : option registry :=
  r ← gaugeSet nodeDrainProgress [name; ns_Name ns] (inject_Z (ns_DrainProgress ns) / inject_Z 100)%Q r;
  r ← gaugeSet nodeEvictedTotal [name; ns_Name ns] (inject_Z (ns_EvictedTotal ns)) r;
  gaugeSet nodeBlockedPods [name; ns_Name ns] (inject_Z (ns_BlockedPods ns)) r.

Definition RecordPlan (plan : NodeMaintenancePlan) (r : registry) : option registry :=
  let name := p_Name plan in
  let s := p_Status plan in
  let c := countNodes (ps_Nodes s) in
  r ← gaugeSet planManagedNodes [name] (inject_Z (ps_NodeCount s)) r;
  r ← gaugeSet planReadyNodes [name] (inject_Z (pc_ready c)) r;
  r ← gaugeSet planDrainingNodes [name] (inject_Z (pc_draining c)) r;
  r ← gaugeSet planBlockedNodes [name] (inject_Z (pc_blocked c)) r;
  r ← gaugeSet planDriftedNodes [name] (inject_Z (pc_drifted c)) r;
  r ← gaugeSet planDrainProgress [name] (progressRatio (pc_totalProgress c) (ps_NodeCount s)) r;
  r ← rangeO (recordPhase name (ps_Phase s)) r allPhases;
  rangeO (recordNode name) r (ps_Nodes s).

Definition deleteNode (name : string) (r : registry) (ns : NodeStatus) : registry :=
  let r := gaugeDelete nodeDrainProgress [name; ns_Name ns] r in
  let r := gaugeDelete nodeEvictedTotal [name; ns_Name ns] r in
  gaugeDelete nodeBlockedPods [name; ns_Name ns] r.

Definition DeletePlan (plan : NodeMaintenancePlan) (r : registry) : registry :=
  let name := p_Name plan in
  let r := gaugeDelete planManagedNodes [name] r in
  let r := gaugeDelete planReadyNodes [name] r in
  let r := gaugeDelete planDrainingNodes [name] r in
  let r := gaugeDelete planBlockedNodes [name] r in
  let r := gaugeDelete planDriftedNodes [name] r in
  let r := gaugeDelete planDrainProgress [name] r in
  let r := foldl (λ r p, gaugeDelete planPhase [name; p] r) r allPhases in
  foldl (deleteNode name) r (ps_Nodes (p_Status plan)).

(** The registry after an execution: the calls of the trace in their order. *)
Definition registryStep (r : registry) (e : event resp) : option registry :=
  match ev_act e with
  | CRecordPlan plan => RecordPlan plan r
  | CDeletePlan plan => Some (DeletePlan plan r)
  | _ => Some r
  end.

Definition registryAfter (t : ktrace) (r : registry) : option registry := rangeO registryStep r t.
End Metrics.

(** ** What a recording sets *)
Section Theorems.
Context `{GL : GaugeLaws}.

(** One [WithLabelValues(...).Set(...)]. *)
Record setting : Type := MkSetting { se_vec : GaugeVec; se_labels : list string; se_value : Q }.

Definition keyOf (e : setting) : seriesId := seriesAt (se_vec e) (se_labels e).
Definition fits (e : setting) : Prop := length (se_labels e) = length (gv_Labels (se_vec e)).
Definition setOne (r : registry) (e : setting) : option registry :=
  gaugeSet (se_vec e) (se_labels e) (se_value e) r.
Definition deleteOne (r : registry) (e : setting) : registry := gaugeDelete (se_vec e) (se_labels e) r.

(** The value the settings leave in a series: the last one. *)
Fixpoint valueIn (es : list setting) (k : seriesId) : option Q :=
  match es with
  | [] => None
  | e :: es => match valueIn es k with
               | Some v => Some v
               | None => if decide (k = keyOf e) then Some (se_value e) else None
               end
  end.

Lemma rangeO_app {A R} (f : R → A → option R) r xs ys :
  rangeO f r (xs ++ ys) = rangeO f r xs ≫= λ r', rangeO f r' ys.
Proof. revert r. induction xs as [|x xs IH]; intros r; [done|]. cbn. destruct (f r x); cbn; auto. Qed.

Lemma rangeO_map {A B R} (f : R → B → option R) (g : A → B) r xs :
  rangeO f r (map g xs) = rangeO (λ r x, f r (g x)) r xs.
Proof. revert r. induction xs as [|x xs IH]; intros r; [done|]. cbn. destruct (f r (g x)); cbn; auto. Qed.

Lemma rangeO_ext {A R} (f g : R → A → option R) r xs :
  (∀ r x, f r x = g r x) → rangeO f r xs = rangeO g r xs.
Proof. intros Hfg. revert r. induction xs as [|x xs IH]; intros r; [done|]. cbn. rewrite Hfg. destruct (g r x); cbn; auto. Qed.

Lemma rangeO_concat {A B R} (f : R → B → option R) (g : A → list B) r xs :
  rangeO f r (concat (map g xs)) = rangeO (λ r x, rangeO f r (g x)) r xs.
Proof.
  revert r. induction xs as [|x xs IH]; intros r; [done|]. cbn. rewrite rangeO_app.
  destruct (rangeO f r (g x)); cbn; auto.
Qed.

(** Settings with a value per label do not panic. *)
Lemma settings_spec es r :
  Forall fits es → ∃ r', rangeO setOne r es = Some r' ∧
    ∀ k, gaugeGet r' k = match valueIn es k with Some v => Some v | None => gaugeGet r k end.
Proof.
  intros Hes. revert r. induction Hes as [|e es He _ IH]; intros r; [by exists r|].
  destruct (gaugeSet_ok _ _ (se_value e) r He) as (r1 & Hr1 & Hg1). destruct (IH r1) as (r' & Hr' & Hg').
  exists r'. cbn. rewrite (Hr1 : setOne r e = Some r1). split; [done|]. intros k. rewrite Hg', Hg1.
  fold (keyOf e). destruct (valueIn es k); [done|]. by case_decide.
Qed.

Lemma deletions_spec es r k :
  Forall fits es →
  gaugeGet (foldl deleteOne r es) k = match valueIn es k with Some _ => None | None => gaugeGet r k end.
Proof.
  intros Hes. revert r. induction Hes as [|e es He _ IH]; intros r; [done|]. cbn. rewrite IH.
  unfold deleteOne. rewrite gaugeDelete_get by done. fold (keyOf e). destruct (valueIn es k); [done|]. by case_decide.
Qed.

Lemma valueIn_app es1 es2 k :
  valueIn (es1 ++ es2) k = match valueIn es2 k with Some v => Some v | None => valueIn es1 k end.
Proof.
  induction es1 as [|e es1 IH]; cbn; [by destruct (valueIn es2 k)|]. rewrite IH. by destruct (valueIn es2 k).
Qed.

Lemma valueIn_None es k : (∀ e, e ∈ es → keyOf e ≠ k) → valueIn es k = None.
Proof.
  induction es as [|e es IH]; intros Hes; [done|]. cbn. rewrite IH by (intros; apply Hes; by constructor).
  rewrite decide_False; [done|]. intros ->. by apply (Hes e (list_elem_of_here _ _)).
Qed.

(** The settings of [RecordPlan], in its order. *)
Definition nodeSettings (name : string) (ns : NodeStatus) : list setting :=
  [MkSetting nodeDrainProgress [name; ns_Name ns] (inject_Z (ns_DrainProgress ns) / inject_Z 100)%Q;
   MkSetting nodeEvictedTotal [name; ns_Name ns] (inject_Z (ns_EvictedTotal ns));
   MkSetting nodeBlockedPods [name; ns_Name ns] (inject_Z (ns_BlockedPods ns))].

Definition phaseSetting (name phase p : string) : setting :=
  MkSetting planPhase [name; p] (if decide (p = phase) then inject_Z 1 else inject_Z 0).

Definition countSettings (plan : NodeMaintenancePlan) : list setting :=
  let name := p_Name plan in
  let s := p_Status plan in
  let c := countNodes (ps_Nodes s) in
  [MkSetting planManagedNodes [name] (inject_Z (ps_NodeCount s));
   MkSetting planReadyNodes [name] (inject_Z (pc_ready c));
   MkSetting planDrainingNodes [name] (inject_Z (pc_draining c));
   MkSetting planBlockedNodes [name] (inject_Z (pc_blocked c));
   MkSetting planDriftedNodes [name] (inject_Z (pc_drifted c));
   MkSetting planDrainProgress [name] (progressRatio (pc_totalProgress c) (ps_NodeCount s))].

Definition planSettings (plan : NodeMaintenancePlan) : list setting :=
  countSettings plan ++ map (phaseSetting (p_Name plan) (ps_Phase (p_Status plan))) allPhases ++
  concat (map (nodeSettings (p_Name plan)) (ps_Nodes (p_Status plan))).

Lemma elem_of_planSettings plan e :
  e ∈ planSettings plan ↔ e ∈ countSettings plan ∨
    (∃ p, e = phaseSetting (p_Name plan) (ps_Phase (p_Status plan)) p ∧ p ∈ allPhases) ∨
    (∃ ns, e ∈ nodeSettings (p_Name plan) ns ∧ ns ∈ ps_Nodes (p_Status plan)).
Proof.
  unfold planSettings. rewrite !elem_of_app, list_elem_of_fmap, elem_of_concat.
  setoid_rewrite list_elem_of_fmap. naive_solver.
Qed.

(** The small lists one by one. *)
Ltac each_setting :=
  repeat match goal with
  | H : _ ∈ _ :: _ |- _ => apply elem_of_cons in H as [->|H]
  | H : _ ∈ [] |- _ => by apply elem_of_nil in H
  end.

(** Which of the keys it is. *)
Ltac this_key := repeat first [rewrite decide_True by done | rewrite decide_False by (intros [=])].

Lemma planSettings_fits plan : Forall fits (planSettings plan).
Proof.
  apply list.Forall_forall. intros e [He|[(p & -> & _)|(ns & He & _)]]%elem_of_planSettings; [|done|];
    unfold countSettings, nodeSettings in He; each_setting; done.
Qed.

Lemma planSettings_name plan e : e ∈ planSettings plan → head (keyOf e).2 = Some (p_Name plan).
Proof.
  intros [He|[(p & -> & _)|(ns & He & _)]]%elem_of_planSettings; [|done|];
    unfold countSettings, nodeSettings in He; each_setting; done.
Qed.

Lemma planSettings_other plan k : head k.2 ≠ Some (p_Name plan) → valueIn (planSettings plan) k = None.
Proof. intros Hk. apply valueIn_None. intros e He <-. by apply Hk, planSettings_name. Qed.

Lemma setOne_eq vec labels v r : setOne r (MkSetting vec labels v) = gaugeSet vec labels v r.
Proof. done. Qed.

Lemma RecordPlan_settings plan r : RecordPlan plan r = rangeO setOne r (planSettings plan).
Proof.
  unfold RecordPlan, planSettings. rewrite rangeO_app. unfold countSettings. cbn [rangeO].
  do 6 (rewrite setOne_eq;
        match goal with |- gaugeSet ?v ?l ?x ?r ≫= _ = _ => destruct (gaugeSet v l x r); [cbn [mbind option_bind]|done] end).
  rewrite rangeO_app, rangeO_map.
  change (λ r x, setOne r (phaseSetting (p_Name plan) (ps_Phase (p_Status plan)) x))
    with (recordPhase (p_Name plan) (ps_Phase (p_Status plan))).
  destruct (rangeO _ _ allPhases); [cbn [mbind option_bind]|done]. rewrite rangeO_concat. apply rangeO_ext.
  intros r' ns. unfold recordNode, nodeSettings. cbn. unfold setOne. cbn.
  destruct (gaugeSet nodeDrainProgress _ _ _); [cbn|done].
  destruct (gaugeSet nodeEvictedTotal _ _ _); [cbn|done].
  by destruct (gaugeSet nodeBlockedPods _ _ _).
Qed.

Lemma DeletePlan_settings plan r : DeletePlan plan r = foldl deleteOne r (planSettings plan).
Proof.
  unfold planSettings. rewrite !foldl_app. unfold DeletePlan.
  assert (∀ nodes r, foldl (deleteNode (p_Name plan)) r nodes =
    foldl deleteOne r (concat (map (nodeSettings (p_Name plan)) nodes))) as ->; [|done].
  clear. intros nodes. induction nodes as [|ns nodes IH]; intros r; [done|].
  cbn [foldl map concat]. rewrite IH. by rewrite foldl_app.
Qed.

Lemma RecordPlan_spec plan r :
  ∃ r', RecordPlan plan r = Some r' ∧ ∀ k, gaugeGet r' k =
    match valueIn (planSettings plan) k with Some v => Some v | None => gaugeGet r k end.
Proof. rewrite RecordPlan_settings. apply settings_spec, planSettings_fits. Qed.
(** ** Counting *)

Definition howMany (f : NodeStatus → bool) (nodes : list NodeStatus) : Z :=
  int32 (length (filter (λ ns, f ns = true) nodes)).

Definition isDraining (ns : NodeStatus) : bool := negb (ns_ReadyForMaintenance ns) && (0 <? ns_TotalPods ns).
Definition isBlocked (ns : NodeStatus) : bool := 0 <? ns_BlockedPods ns.

Lemma howMany_snoc f nodes ns :
  howMany f (nodes ++ [ns]) = if f ns then int32 (howMany f nodes + 1) else howMany f nodes.
Proof.
  unfold howMany. rewrite list.filter_app, length_app, filter_cons, filter_nil.
  case_decide as Hf; [rewrite Hf|destruct (f ns); [done|by cbn; rewrite Nat.add_0_r]].
  rewrite int32_add_l. f_equal. cbn. lia.
Qed.

(** The counters count. *)
Lemma countNodes_spec nodes :
  let c := countNodes nodes in
  pc_ready c = howMany ns_ReadyForMaintenance nodes ∧ pc_draining c = howMany isDraining nodes ∧
  pc_blocked c = howMany isBlocked nodes ∧ pc_drifted c = howMany ns_Drifted nodes ∧
  pc_totalProgress c = int32 (foldr Z.add 0 (map ns_DrainProgress nodes)).
Proof.
  cbn zeta. unfold countNodes. induction nodes as [|ns nodes IH] using rev_ind; [done|].
  rewrite foldl_app. cbn [foldl]. revert IH.
  generalize (foldl countStep (MkPlanCounts 0 0 0 0 0) nodes) as c. intros c (H1 & H2 & H3 & H4 & H5).
  rewrite !howMany_snoc, map_app, foldr_app. cbn. rewrite H1, H2, H3, H4, H5. unfold isDraining.
  split_and!; [done|by destruct (ns_ReadyForMaintenance ns)|done|done|].
  rewrite int32_add_l. f_equal. clear. induction nodes as [|n nodes IH]; cbn; lia.
Qed.

(** ** What the series hold *)

Lemma valueIn_phase name phase phases p :
  p ∈ phases → valueIn (map (phaseSetting name phase) phases) (seriesAt planPhase [name; p]) =
  Some (if decide (p = phase) then inject_Z 1 else inject_Z 0).
Proof.
  induction phases as [|q phases IH]; intros Hp; [by apply elem_of_nil in Hp|]. cbn.
  destruct (decide (p ∈ phases)) as [Hin|Hin]; [by rewrite IH|].
  rewrite valueIn_None.
  - apply elem_of_cons in Hp as [->|?]; [|done]. by rewrite decide_True.
  - intros e (p' & -> & Hp')%list_elem_of_fmap [= ->]. done.
Qed.

(** A key of another vector. *)
Lemma nodeSettings_other name nodes vec labels :
  gv_Name vec ∉ map gv_Name [nodeDrainProgress; nodeEvictedTotal; nodeBlockedPods] →
  valueIn (concat (map (nodeSettings name) nodes)) (seriesAt vec labels) = None.
Proof.
  intros Hvec. apply valueIn_None. intros e (l & He & Hl)%elem_of_concat.
  apply list_elem_of_fmap in Hl as (ns & -> & _). unfold nodeSettings in He.
  each_setting; intros [= Heq _]; apply Hvec; rewrite <-Heq; cbn; set_solver.
Qed.

Lemma phaseSettings_other name phase phases vec labels :
  gv_Name vec ≠ gv_Name planPhase →
  valueIn (map (phaseSetting name phase) phases) (seriesAt vec labels) = None.
Proof.
  intros Hvec. apply valueIn_None. intros e (p & -> & _)%list_elem_of_fmap [= Heq _]. by apply Hvec.
Qed.

Lemma valueIn_node name ns nodes :
  NoDup (map ns_Name nodes) → ns ∈ nodes →
  ∀ e, e ∈ nodeSettings name ns →
  valueIn (concat (map (nodeSettings name) nodes)) (keyOf e) = Some (se_value e).
Proof.
  intros Hnd Hns e He. induction nodes as [|n nodes IH]; [by apply elem_of_nil in Hns|].
  cbn [map] in *. apply list.NoDup_cons in Hnd as [Hn Hnd]. cbn [concat]. rewrite valueIn_app.
  apply elem_of_cons in Hns as [->|Hns]; [|by rewrite IH]. rewrite valueIn_None.
  - unfold nodeSettings in He |- *. each_setting; cbn; this_key; done.
  - intros e' (l & He' & Hl)%elem_of_concat. apply list_elem_of_fmap in Hl as (m & -> & Hm).
    intros Heq. apply Hn. apply list_elem_of_fmap. exists m. split; [|done].
    unfold nodeSettings in He, He'. each_setting; by injection Heq.
Qed.

Lemma valueIn_count plan vec labels :
  gv_Name vec ∈ map gv_Name [planManagedNodes; planReadyNodes; planDrainingNodes; planBlockedNodes;
    planDriftedNodes; planDrainProgress] →
  valueIn (planSettings plan) (seriesAt vec labels) = valueIn (countSettings plan) (seriesAt vec labels).
Proof.
  intros Hvec.
  assert (gv_Name vec ≠ gv_Name planPhase ∧
    gv_Name vec ∉ map gv_Name [nodeDrainProgress; nodeEvictedTotal; nodeBlockedPods]) as [Hp Hn].
  { revert Hvec. generalize (gv_Name vec). intros x Hx. cbn [map] in Hx.
    each_setting; (split; [done|by apply (bool_decide_unpack _)]). }
  unfold planSettings. by rewrite !valueIn_app, nodeSettings_other, phaseSettings_other.
Qed.

(** What [RecordPlan] exports.  It does not panic, and afterwards the plan's
    gauges hold the numbers of its managed, ready, draining, blocked and drifted
    nodes, the phase gauge is 1 for its phase and 0 for the eight others, every
    node of its status has its progress, evictions and blocked pods, and the
    series of every other plan are as they were. *)
Theorem RecordPlan_gauges plan r :
  let name := p_Name plan in
  let s := p_Status plan in
  let count f := inject_Z (howMany f (ps_Nodes s)) in
  NoDup (map ns_Name (ps_Nodes s)) →
  ∃ r', RecordPlan plan r = Some r' ∧
  gaugeGet r' (seriesAt planManagedNodes [name]) = Some (inject_Z (ps_NodeCount s)) ∧
  gaugeGet r' (seriesAt planReadyNodes [name]) = Some (count ns_ReadyForMaintenance) ∧
  gaugeGet r' (seriesAt planDrainingNodes [name]) = Some (count isDraining) ∧
  gaugeGet r' (seriesAt planBlockedNodes [name]) = Some (count isBlocked) ∧
  gaugeGet r' (seriesAt planDriftedNodes [name]) = Some (count ns_Drifted) ∧
  (∀ p, p ∈ allPhases → gaugeGet r' (seriesAt planPhase [name; p]) =
     Some (if decide (p = ps_Phase s) then inject_Z 1 else inject_Z 0)) ∧
  (∀ ns, ns ∈ ps_Nodes s →
     gaugeGet r' (seriesAt nodeDrainProgress [name; ns_Name ns]) =
       Some (inject_Z (ns_DrainProgress ns) / inject_Z 100)%Q ∧
     gaugeGet r' (seriesAt nodeEvictedTotal [name; ns_Name ns]) = Some (inject_Z (ns_EvictedTotal ns)) ∧
     gaugeGet r' (seriesAt nodeBlockedPods [name; ns_Name ns]) = Some (inject_Z (ns_BlockedPods ns))) ∧
  ∀ k, head k.2 ≠ Some name → gaugeGet r' k = gaugeGet r k.
Proof.
  cbn zeta. intros Hnd. destruct (RecordPlan_spec plan r) as (r' & Hr' & Hg). exists r'. split; [done|].
  destruct (countNodes_spec (ps_Nodes (p_Status plan))) as (H1 & H2 & H3 & H4 & _).
  assert (∀ e ns, ns ∈ ps_Nodes (p_Status plan) → e ∈ nodeSettings (p_Name plan) ns →
    gaugeGet r' (keyOf e) = Some (se_value e)) as Hnode.
  { intros e ns Hns He. rewrite Hg. unfold planSettings. by rewrite !valueIn_app, (valueIn_node _ ns). }
  split_and!.
  1-5: rewrite Hg, valueIn_count by (cbn; set_solver); unfold countSettings; cbn;
    rewrite <-?H1, <-?H2, <-?H3, <-?H4; this_key; done.
  - intros p Hp. rewrite Hg. unfold planSettings.
    rewrite !valueIn_app, nodeSettings_other, valueIn_phase; [done|done|by apply (bool_decide_unpack _)].
  - intros ns Hns. unfold nodeSettings in Hnode. split_and!.
    + apply (Hnode (MkSetting nodeDrainProgress _ _) ns Hns). set_solver.
    + apply (Hnode (MkSetting nodeEvictedTotal _ _) ns Hns). set_solver.
    + apply (Hnode (MkSetting nodeBlockedPods _ _) ns Hns). set_solver.
  - intros k Hk. by rewrite Hg, planSettings_other.
Qed.

(** The ten names are distinct. *)
Lemma registerMetrics_ok r :
  (∀ vec, vec ∈ metricsVecs → gv_Name vec ∉ registered r) →
  ∃ r', registerMetrics r = Some r' ∧ registered r' ≡ₚ registered r ++ map gv_Name metricsVecs ∧
    ∀ k, gaugeGet r' k = gaugeGet r k.
Proof.
  intros Hr. apply MustRegister_ok; [|done]. apply (bool_decide_unpack _). vm_compute. exact I.
Qed.

(** C40: the metrics of a plan go with it, and no metrics call ever panics.  When
    the program starts with none of its ten vectors registered, [init] registers
    them; whatever plans are recorded and deleted after that, in whatever order,
    no call panics.  For a plan without any series yet, [DeletePlan] after
    [RecordPlan] of the same status leaves every series as it was before, so
    nothing of the plan keeps being exported. *)
Theorem RecordPlan_DeletePlan r :
  (∀ vec, vec ∈ metricsVecs → gv_Name vec ∉ registered r) →
  ∃ r0, registerMetrics r = Some r0 ∧
  ∀ t, ∃ r1, registryAfter t r0 = Some r1 ∧
  ∀ plan, (∀ k, head k.2 = Some (p_Name plan) → gaugeGet r1 k = None) →
  ∃ r2, RecordPlan plan r1 = Some r2 ∧ ∀ k, gaugeGet (DeletePlan plan r2) k = gaugeGet r1 k.
Proof.
  intros Hr. destruct (registerMetrics_ok r Hr) as (r0 & Hr0 & _).
  exists r0. split; [done|]. intros t.
  assert (∀ r0, ∃ r1, registryAfter t r0 = Some r1) as Hafter.
  { unfold registryAfter. clear Hr0 r0. induction t as [|e t IH]; intros r0; [by exists r0|]. cbn.
    assert (∃ r1, registryStep r0 e = Some r1) as [r1 ->]; [|apply IH].
    unfold registryStep. destruct (ev_act e); try by eexists.
    destruct (RecordPlan_spec plan r0) as (r1 & Hr1 & _). by exists r1. }
  destruct (Hafter r0) as [r1 Hr1]. exists r1. split; [done|]. intros plan Hnone.
  destruct (RecordPlan_spec plan r1) as (r2 & Hr2 & Hg). exists r2. split; [done|]. intros k.
  rewrite DeletePlan_settings, deletions_spec, Hg by apply planSettings_fits.
  destruct (valueIn (planSettings plan) k) eqn:Hk; [|done]. symmetry. apply Hnone.
  destruct (decide (head k.2 = Some (p_Name plan))) as [?|Hne]; [done|].
  by rewrite planSettings_other in Hk.
Qed.
End Theorems.

(** ** A registry *)

Record gauges : Type := MkGauges { g_names : list string; g_values : gmap seriesId Q }.

Definition arity (vec : GaugeVec) (labels : list string) : bool :=
  (length labels =? length (gv_Labels vec))%nat.

#[export] Instance mapGauges : GaugeOps := {|
  registry := gauges;
  registered := g_names;
  gaugeGet := λ r k, g_values r !! k;
  MustRegister := λ vecs r,
    if bool_decide (NoDup (map gv_Name vecs)) && forallb (λ vec, bool_decide (gv_Name vec ∉ g_names r)) vecs
    then Some (MkGauges (g_names r ++ map gv_Name vecs) (g_values r)) else None;
  gaugeSet := λ vec labels v r,
    if arity vec labels then Some (MkGauges (g_names r) (<[seriesAt vec labels := v]> (g_values r))) else None;
  gaugeDelete := λ vec labels r,
    if arity vec labels then MkGauges (g_names r) (delete (seriesAt vec labels) (g_values r)) else r
|}.

#[export] Instance mapGauges_laws : GaugeLaws.
Proof.
  split; cbn.
  - intros vecs r Hnd Hnew. rewrite bool_decide_eq_true_2 by done.
    assert (forallb (λ vec, bool_decide (gv_Name vec ∉ g_names r)) vecs = true) as ->.
    { apply forallb_forall. intros vec Hvec. apply bool_decide_eq_true_2, Hnew. by apply list_elem_of_In. }
    by eexists.
  - intros vec labels v r Hlen. unfold arity. rewrite Hlen, Nat.eqb_refl. eexists. split; [done|].
    intros k. cbn. rewrite lookup_insert. repeat case_decide; congruence.
  - intros vec labels r k Hlen. unfold arity. rewrite Hlen, Nat.eqb_refl. cbn. rewrite lookup_delete.
    repeat case_decide; congruence.
Qed.

Definition metricsPlan : NodeMaintenancePlan :=
  updStatus (set_ps_Nodes [set_ns_Name "n1" zeroNodeStatus]) (examplePlan ["n1"]).

Definition freshRegistry : @registry mapGauges := MkGauges ["workqueue_depth"] ∅.

Lemma freshRegistry_fresh vec : vec ∈ metricsVecs → gv_Name vec ∉ registered freshRegistry.
Proof.
  apply (list.Forall_forall (λ vec, gv_Name vec ∉ ["workqueue_depth"]) metricsVecs).
  apply (bool_decide_unpack _). vm_compute. exact I.
Qed.

Lemma RecordPlan_gauges_witness :
  ∃ r', RecordPlan metricsPlan freshRegistry = Some r' ∧
    gaugeGet r' (seriesAt planReadyNodes ["plan-a"]) = Some (inject_Z 0).
Proof.
  destruct (RecordPlan_gauges metricsPlan freshRegistry) as (r' & Hr' & _ & Hready & _).
  { apply (bool_decide_unpack _). vm_compute. exact I. }
  exists r'. split; [exact Hr'|exact Hready].
Defined.

Lemma RecordPlan_DeletePlan_witness :
  ∃ r0 r2, registerMetrics freshRegistry = Some r0 ∧ RecordPlan metricsPlan r0 = Some r2 ∧
    ∀ k, gaugeGet (DeletePlan metricsPlan r2) k = None.
Proof.
  destruct (RecordPlan_DeletePlan freshRegistry freshRegistry_fresh) as (r0 & Hr0 & Hafter).
  destruct (Hafter []) as (r1 & Hr1 & Hplan). injection Hr1 as <-.
  assert (r0 = MkGauges (["workqueue_depth"] ++ map gv_Name metricsVecs) ∅) as Heq
    by (revert Hr0; vm_compute; congruence).
  destruct (Hplan metricsPlan) as (r2 & Hr2 & Hsame); [intros k _; rewrite Heq; apply lookup_empty|].
  exists r0, r2. split; [exact Hr0|]. split; [exact Hr2|]. intros k. rewrite Hsame, Heq. apply lookup_empty.
Defined.

(** A node that left the status between the last [RecordPlan] and [DeletePlan]
    keeps its series. *)
Example DeletePlan_leaves_removed_node :
  (r ← RecordPlan metricsPlan freshRegistry;
   gaugeGet (DeletePlan (examplePlan []) r) (seriesAt nodeDrainProgress ["plan-a"; "n1"])) = Some (0 # 100)%Q.
Proof. vm_compute. reflexivity. Qed.
