(* ===== verification/Controller.v ===== *)
(** * The reconciler (nodemaintenanceplan_controller.go)

    One reconcile of a plan: read it, run the finalizer if it is being deleted,
    otherwise run the steps of the pass in their order. *)
From S2P Require Import Prelude GoTime Api Prog Kube Conditions Schedule Drift Filters.
From S2P Require Import Cordon Ownership DrainNode DrainStatus DrainPool DrainReconcile.
From S2P Require Import Status Preview Reconcile.

(** controllerutil's finalizer helpers belong to controller-runtime; they act on
    [metadata.finalizers]. *)
Class FinalizerOps : Type := {
  ContainsFinalizer : list string → string → bool;
  AddFinalizer : list string → string → list string;
  RemoveFinalizer : list string → string → list string
}.

Class FinalizerLaws `{FinalizerOps} : Prop := {
  contains_add fs f : ContainsFinalizer (AddFinalizer fs f) f = true;
  contains_remove fs f : ContainsFinalizer (RemoveFinalizer fs f) f = false;
  contains_nil f : ContainsFinalizer [] f = false
}.

(** Finalizers as a plain list. *)
#[export] Instance listFinalizers : FinalizerOps := {|
  ContainsFinalizer := λ fs f, bool_decide (f ∈ fs);
  AddFinalizer := λ fs f, if decide (f ∈ fs) then fs else fs ++ [f];
  RemoveFinalizer := λ fs f, filter (λ x, x ≠ f) fs
|}.

#[export] Instance listFinalizers_laws : FinalizerLaws.
Proof.
  split; [intros fs f; cbn..|done].
  - apply bool_decide_eq_true_2. case_decide; set_solver.
  - apply bool_decide_eq_false_2. rewrite list_elem_of_filter. tauto.
Qed.

Definition finalizerName : string := NodeMaintenancePlanFinalizer.

Section Controller.
Context `{SO : SelectorOps} `{CO : ConditionOps} `{FO : FinalizerOps}.

Definition ensureFinalizer : M unit :=
  plan ← getPlan;
  if ContainsFinalizer (p_Finalizers plan) finalizerName then mret tt
  else
    let original := plan in
    modifyPlan (λ p, set_p_Finalizers (AddFinalizer (p_Finalizers p) finalizerName) p);;
    patchPlan original.

(** [err != nil && !apierrors.IsNotFound(err)] of the finalizer's patch. *)
Definition ignoreNotFound (m : M unit) : M unit := λ s,
  pbind (m s) (λ r, Ret (r.1, match r.2 with
    | Fail (ErrApi e) => if IsNotFound e then OK tt else Fail (ErrApi e)
    | o => o
    end)).

Definition handleDeletion : M unit :=
  plan ← getPlan;
  if negb (ContainsFinalizer (p_Finalizers plan) finalizerName) then mret tt
  else
    CleanUp;;
    plan ← getPlan;
    perform (CDeletePlan plan);;
    let original := plan in
    modifyPlan (λ p, set_p_Finalizers (RemoveFinalizer (p_Finalizers p) finalizerName) p);;
    ignoreNotFound (patchPlan original).

(** The body of [Reconcile] once the plan has been read. *)
Definition reconcilePass : M Duration :=
  plan ← getPlan;
  if negb (IsZero (p_DeletionTimestamp plan)) then
    handleDeletion;;
    mret 0
  else
    ensureFinalizer;;
    res ← ComputeOwnershipResolution;
    schedule ← ComputeSchedule;
    ReconcileOwnership res (sr_ShouldAct (sch_Cordon schedule));;
    UpdateStatus res;;
    ReconcilePreview res;;
    ReconcileDrift res;;
    (if sr_ShouldAct (sch_Cordon schedule) then ReconcileCordon res else mret tt);;
    drainRequeue ← (if sr_ShouldAct (sch_Drain schedule) then ReconcileDrain res else mret 0);
    plan ← getPlan;
    perform (CRecordPlan plan);;
    mret (if negb (drainRequeue =? 0) then drainRequeue else sch_RequeueAfter schedule).

(** [Reconcile]: the requeue interval, an error, or a panic. *)
Definition Reconcile (name : string) : kprog (outcome Duration) :=
  pbind (trigger (CGetPlan name)) (λ r : resp (CGetPlan name),
  match r with
  | inl e => if IsNotFound e then Ret (OK 0) else Ret (Fail (ErrApi e))
  | inr plan => pbind (reconcilePass (MkSt plan [])) (λ r, Ret r.2)
  end).
End Controller.

(** ** The pass respects ownership *)
Section Safety.
Context `{SO : SelectorOps} `{CO : ConditionOps} `{FO : FinalizerOps}.

(** A quiet step inside a pass: every patch guarantee holds vacuously. *)
Lemma rgM_quiet {A} name (m : M A) s :
  quiet m → rgM keepsNames (ownPatches name) m s (λ s' _,
    st_heap s' = st_heap s ∧ p_Name (st_plan s') = p_Name (st_plan s)).
Proof.
  intros Hm. eapply rgM_mono; [by apply (Hm (st_heap s) (p_Name (st_plan s)))|done| |done].
  by intros [].
Qed.

Lemma quiet_ensureFinalizer : quiet ensureFinalizer.
Proof. unfold ensureFinalizer. quiet_tac. Qed.

Lemma quiet_ComputeSchedule : quiet ComputeSchedule.
Proof. unfold ComputeSchedule. quiet_tac. Qed.

#[local] Hint Resolve quiet_ensureFinalizer quiet_ComputeSchedule : quiet.

Lemma own_ComputeOwnershipResolution s :
  rgM keepsNames (ownPatches (p_Name (st_plan s))) ComputeOwnershipResolution s (λ s' o,
    st_plan s' = st_plan s ∧ ∀ res, o = OK res → resolutionWF (p_Name (st_plan s)) s' res).
Proof.
  eapply rgM_mono; [apply rgM_ComputeOwnershipResolution|done|by intros []|].
  by intros s' o [[Hp _] Ho].
Qed.

(** The requests of the cleanup: the nodes are listed, and those of the plan given
    back. *)
Definition cleanupCall (planName : string) : guar call := λ c,
  match c with
  | CListNodes None None | CMapOrder _ => True
  | _ => handsBack planName c
  end.

(** The loop of [CleanUp] over distinct owned nodes. *)
Lemma gives_cleanUpLoop R es s :
  NoDup es.*2 → (∀ l, l ∈ es.*2 → ownerAt s l = Some (p_Name (st_plan s))) →
  rgM R (cleanupCall (p_Name (st_plan s))) (rangeM es cleanUpNode) s (λ s' _,
    st_plan s' = st_plan s).
Proof.
  revert s. induction es as [|e es IH]; intros s Hnd Ho; cbn [rangeM]; [by rg_step|].
  apply list.NoDup_cons in Hnd as [Hnin Hnd]. rg_step.
  destruct (ownerAt_Some s e.2 _ (Ho e.2 (list_elem_of_here _ _))) as (n & Hn & Hno).
  eapply rgM_mono; [by apply (gives_cleanUpNode R e s n)|done|by intros []|].
  intros s1 o [Hp Hh]. destruct o as [[]|?|]; [|done..]. rewrite <-Hp.
  apply IH; [done|]. intros l Hl. rewrite Hp. unfold ownerAt. rewrite Hh by (by intros ->).
  apply Ho. by apply list_elem_of_further.
Qed.

Lemma gives_CleanUp R s :
  rgM R (cleanupCall (p_Name (st_plan s))) CleanUp s (λ s' _, st_plan s' = st_plan s).
Proof.
  unfold CleanUp. do 4 rg_step.
  eapply rgM_post; [by apply (rgM_listOwned R)|].
  intros s1 o ([Hp _] & _ & Ho). destruct o as [owned|?|]; [|done..]. rg_step.
  apply rgM_rangeMap; [done|]. intros es Hes. specialize (Ho owned eq_refl). rewrite <-Hp in *.
  apply gives_cleanUpLoop.
  - rewrite Hes. by eapply indexed_NoDup.
  - intros l Hl. rewrite Hes in Hl. apply list_elem_of_fmap in Hl as ([k l'] & -> & Hk).
    apply elem_of_map_to_list in Hk. destruct (Ho k l' Hk) as (_ & n & Hn & _ & Hno).
    unfold ownerAt. cbn. by rewrite Hn, <-Hno.
Qed.

Lemma own_CleanUp s :
  rgM keepsNames (ownPatches (p_Name (st_plan s))) CleanUp s (λ s' _, st_plan s' = st_plan s).
Proof.
  eapply rgM_mono; [apply (gives_CleanUp keepsNames)|done| |done].
  intros [] Hc; try done. by apply (handsBack_own _ _ Hc).
Qed.

Lemma own_handleDeletion s :
  rgM keepsNames (ownPatches (p_Name (st_plan s))) handleDeletion s (λ _ _, True).
Proof.
  unfold handleDeletion. do 2 rg_step. rg_step; [by rg_step|]. rg_step.
  eapply rgM_post; [apply own_CleanUp|]. intros s1 o _. destruct o as [[]|?|]; [|done..].
  rg_steps; [done|]. unfold ignoreNotFound. apply rg_bind.
  eapply rg_post; [by apply (rgM_patchPlan keepsNames _ _ _ (λ _ _, True))|].
  intros [s2 o2] _. done.
Qed.

(** The steps after the resolution, and what follows them. *)
Lemma own_steps res (cordonNow drainNow : bool) (k : Duration → M Duration) s :
  (∀ d s', rgM keepsNames (ownPatches (p_Name (st_plan s))) (k d) s' (λ _ _, True)) →
  resolutionWF (p_Name (st_plan s)) s res →
  rgM keepsNames (ownPatches (p_Name (st_plan s)))
    (ReconcileOwnership res cordonNow;;
     UpdateStatus res;;
     ReconcilePreview res;;
     ReconcileDrift res;;
     (if cordonNow then ReconcileCordon res else mret tt);;
     d ← (if drainNow then ReconcileDrain res else mret 0);
     k d) s (λ _ _, True).
Proof.
  intros Hk Hwf. set (name := p_Name (st_plan s)) in *. rg_step.
  eapply rgM_post; [by apply own_ReconcileOwnership|]. intros s1 o [Hp1 Hh1].
  destruct Hwf as (Hnd & _ & _ & Hrel). apply list.NoDup_app in Hnd as (_ & Hd1 & Hnd).
  destruct o as [[]|?|]; [|done..]. rg_step.
  eapply rgM_post; [apply rgM_quiet, quiet_UpdateStatus|]. intros s2 o [Hh2 Hn2].
  destruct o as [[]|?|]; [|done..]. rg_step.
  eapply rgM_post; [apply rgM_quiet, quiet_ReconcilePreview|]. intros s3 o [Hh3 Hn3].
  destruct o as [[]|?|]; [|done..]. rg_step.
  assert (p_Name (st_plan s3) = name) as Hn by (unfold name; congruence). rewrite <-Hn in Hk |- *.
  pose proof Hnd as Hnd'. apply list.NoDup_app in Hnd' as (Hst & Hd2 & _).
  eapply rgM_post; [by apply own_ReconcileDrift|]. intros s4 o [Hp4 Hh4].
  destruct o as [[]|?|]; [|done..]. rg_step.
  assert (rgM keepsNames (ownPatches (p_Name (st_plan s3)))
    (if cordonNow then ReconcileCordon res else mret tt) s4 (λ s' _, st_plan s' = st_plan s4)) as Hc.
  { rewrite <-Hp4. destruct cordonNow; [|by rg_step]. apply own_ReconcileCordon; [done|].
    intros l Hl. rewrite Hp4, Hn. unfold ownerAt.
    rewrite Hh4, Hh3, Hh2, Hh1; [by apply Hrel| |].
    - intros Had. apply (Hd1 l Had). set_solver.
    - intros Hs. by apply (Hd2 l). }
  eapply rgM_post; [exact Hc|]. intros s5 o _. destruct o as [[]|?|]; [|done..].
  rg_step. eapply (rgM_post (Q1 := λ _ _, True)).
  - destruct drainNow; [|by rg_step].
    eapply rgM_post; [apply rgM_quiet, quiet_ReconcileDrain|done].
  - intros s6 o _. destruct o; [apply Hk|done..].
Qed.

Lemma own_reconcilePass s :
  rgM keepsNames (ownPatches (p_Name (st_plan s))) reconcilePass s (λ _ _, True).
Proof.
  unfold reconcilePass. do 2 rg_step. rg_step.
  { rg_step. eapply rgM_post; [apply own_handleDeletion|]. intros s1 o _.
    destruct o; [by rg_step|done..]. }
  rg_step. eapply rgM_post; [apply rgM_quiet, quiet_ensureFinalizer|]. intros s1 o [_ Hn1].
  destruct o as [[]|?|]; [|done..]. rewrite <-Hn1. rg_step.
  eapply rgM_post; [apply own_ComputeOwnershipResolution|]. intros s2 o [Hp2 Hwf].
  destruct o as [res|?|]; [|done..]. specialize (Hwf res eq_refl). rewrite <-Hp2 in *.
  unfold ComputeSchedule. do 3 rg_step; [done|]. do 3 rg_step.
  apply own_steps; [|done]. intros d s'. rg_steps; done.
Qed.

(** C1: the operator never touches somebody else's node.  In every reconcile of
    a plan, deletion included, against any cluster in which the API server
    renames nothing, and with other writers changing nodes, plans and even
    ownership between any two calls, each node patch starts from an object that
    is unowned, and then makes it the plan's, or that is the plan's own, and
    then leaves it the plan's or unowned; it never renames a node. *)
Theorem reconcilePass_ownership plan t s' o :
  runM reconcilePass (MkSt plan []) t s' o → answered keepsNames t →
  ∀ original m, CPatchNode original m ∈ ev_act <$> t →
  n_Name m = n_Name original ∧
  (owner original = "" ∧ owner m = p_Name plan ∨
   owner original = p_Name plan ∧ (owner m = p_Name plan ∨ owner m = "")).
Proof.
  intros Hrun Hans original m Hin. apply list_elem_of_fmap in Hin as (e & Heq & He).
  destruct (rgM_sound (own_reconcilePass (MkSt plan [])) Hrun Hans) as [Hi _].
  pose proof (issued_elem _ _ _ Hi He) as Hg. by rewrite <-Heq in Hg.
Qed.
End Safety.

(** ** Deletion *)

Section Deletion.
Context `{SO : SelectorOps} `{CO : ConditionOps} `{FL : FinalizerLaws}.

Lemma handleDeletion_run s t s' o :
  runM handleDeletion s t s' o →
  let plan := st_plan s in
  (ContainsFinalizer (p_Finalizers plan) finalizerName = false ∧ t = [] ∧ s' = s ∧ o = OK tt) ∨
  ∃ t1 t2 s1 o1, t = t1 ++ t2 ∧ runM CleanUp s t1 s1 o1 ∧ issued (cleanupCall (p_Name plan)) t1 ∧
    ((o1 ≠ OK tt ∧ t2 = [] ∧ o = o1) ∨
     o1 = OK tt ∧ ∃ r, t2 = [Ev (CDeletePlan plan) tt; Ev (CPatchPlan plan (set_p_Finalizers (RemoveFinalizer (p_Finalizers plan) finalizerName) plan)) r] ∧
       o = match r with inl e => if IsNotFound e then OK tt else Fail (ErrApi e) | inr _ => OK tt end).
Proof.
  unfold handleDeletion. intros Hrun. cbn zeta.
  apply runM_bind in Hrun as (t1 & s1 & o1 & t2 & -> & [-> [= -> ->]] & Hrun).
  destruct (ContainsFinalizer _ _) eqn:Hc; cbn [negb] in Hrun.
  2: { left. by destruct Hrun as [-> [= -> ->]]. }
  right. apply runM_bind in Hrun as (t3 & s3 & o3 & t4 & -> & Hclean & Hrun).
  destruct (rgM_sound (gives_CleanUp anyAnswer s) Hclean (answered_any _)) as [Hi Hp].
  exists t3, t4, s3, o3. split_and!; [done..|].
  destruct o3 as [[]|e|]; [|left; by destruct Hrun as (-> & -> & ->)..].
  right. split; [done|].
  apply runM_bind in Hrun as (t5 & s5 & o5 & t6 & -> & [-> [= -> ->]] & Hrun).
  apply runM_bind in Hrun as (t7 & s7 & o7 & t8 & -> & ([] & t9 & -> & -> & [= -> ->]) & Hrun).
  apply runM_bind in Hrun as (t10 & s10 & o10 & t11 & -> & [-> [= -> ->]] & Hrun).
  unfold runM, ignoreNotFound in Hrun.
  apply run_bind in Hrun as (t12 & [s12 o12] & t13 & -> & Hpa & [-> Ho]). injection Ho as -> ->.
  apply (runM_bind getPlan) in Hpa as (t14 & s14 & o14 & t15 & -> & [-> [= -> ->]] & Hpa).
  apply runM_bind in Hpa as (t16 & s16 & o16 & t17 & -> & (r & t18 & -> & -> & [= -> ->]) & Hpa).
  exists r. rewrite Hp in *. cbn [st_plan] in Hpa.
  destruct r as [e|p]; apply runM_bind in Hpa as (u1 & u2 & u3 & u4 & -> & [-> [= -> ->]] & Hpa);
    [destruct Hpa as (-> & _ & ->)|destruct Hpa as [-> [= _ ->]]]; by split.
Qed.

(** C12: reconciling a plan that is gone or going.  A plan that is not found ends
    the reconcile with success and no other call.  A plan with a deletion
    timestamp is only ever cleaned up: without the finalizer nothing is called;
    with it, nodes are listed and patched by [CleanUp], every patch uncordoning or
    releasing a node the plan owns (nothing is evicted, cordoned or adopted); then,
    only if [CleanUp] has succeeded, the metrics of the plan are deleted and the
    finalizer, and nothing else, is taken off it in one patch, whose "not found"
    counts as success; if [CleanUp] fails its error is returned and the finalizer
    stays. *)
Theorem Reconcile_deletion name t o :
  run (Reconcile name) t o →
  ∃ r t', t = Ev (CGetPlan name) r :: t' ∧
  match r with
  | inl e => t' = [] ∧ o = (if IsNotFound e then OK 0 else Fail (ErrApi e))
  | inr plan =>
      IsZero (p_DeletionTimestamp plan) = false →
      (ContainsFinalizer (p_Finalizers plan) finalizerName = false ∧ t' = [] ∧ o = OK 0) ∨
      ∃ t1 t2 s1 o1, t' = t1 ++ t2 ∧ runM CleanUp (MkSt plan []) t1 s1 o1 ∧
        (∀ e, e ∈ t1 → match ev_act e with
           | CListNodes None None | CMapOrder _ | CEvent _ => True
           | CPatchNode n m => owner n = p_Name plan ∧ (m = uncordonMutation n ∨ m = releaseMutation n)
           | _ => False
           end) ∧
        ((∃ e, o1 = Fail e ∧ t2 = [] ∧ o = Fail e) ∨ (o1 = Panic ∧ t2 = [] ∧ o = Panic) ∨
         o1 = OK tt ∧ ∃ r,
           t2 = [Ev (CDeletePlan plan) tt;
                 Ev (CPatchPlan plan (set_p_Finalizers
                       (RemoveFinalizer (p_Finalizers plan) finalizerName) plan)) r] ∧
           o = match r with inl e => if IsNotFound e then OK 0 else Fail (ErrApi e) | inr _ => OK 0 end)
  end.
Proof.
  unfold Reconcile. intros Hrun. cbn in Hrun. destruct Hrun as (r & t' & -> & Hrun).
  exists r, t'. split; [done|]. destruct r as [e|plan].
  { destruct (IsNotFound e); by destruct Hrun as [-> ->]. }
  intros Hdel. apply run_bind in Hrun as (t1 & [s1 o1] & t2 & -> & Hrun & [-> ->]).
  rewrite app_nil_r. unfold reconcilePass in Hrun.
  apply (runM_bind getPlan) in Hrun as (u1 & u2 & u3 & u4 & -> & [-> [= -> ->]] & Hrun).
  cbn [st_plan] in Hrun. rewrite Hdel in Hrun. cbn [negb app] in *.
  apply runM_bind in Hrun as (t3 & s3 & o3 & t4 & -> & Hd & Hrun).
  assert (t4 = [] ∧ o1 = match o3 with OK _ => OK 0 | Fail e => Fail e | Panic => Panic end) as [-> ->].
  { destruct o3 as [[]|e|]; [by destruct Hrun as [-> [= -> ->]]|by destruct Hrun as (-> & -> & ->)..]. }
  rewrite app_nil_r.
  apply handleDeletion_run in Hd as [(Hf & -> & -> & ->)|(t5 & t6 & s5 & o5 & -> & Hc & Hi & Hcase)];
    [left; by split_and!|right].
  exists t5, t6, s5, o5. split_and!; [done..| |].
  { intros e He. pose proof (issued_elem _ _ _ Hi He) as Hce. by destruct (ev_act e). }
  destruct Hcase as [(Hne & -> & ->)|(-> & r & -> & ->)].
  - destruct o5 as [[]|e|]; [done|left; by exists e|right; by left].
  - right; right. split; [done|]. exists r. split; [done|]. destruct r as [e|]; [by destruct (IsNotFound e)|done].
Qed.
End Deletion.

(** ** nodemaintenanceplan_predicates.go *)

Definition getNodeReadyStatus (node : Node) : string :=
  match findFirst (λ c, bool_decide (nc_Type c = NodeReady)) (n_Conditions node) with
  | Some c => nc_Status c
  | None => ConditionUnknown
  end.

Definition nodeReadyConditionChanged (old new : Node) : bool :=
  bool_decide (getNodeReadyStatus old ≠ getNodeReadyStatus new).

Definition isManagedByOperator (node : Node) : bool :=
  mapHas (n_Annotations node) ManagedByAnnotation.

(** [reflect.DeepEqual] on maps distinguishes the nil map from an empty one. *)
Definition nodeRelevantChange (old new : Node) : bool :=
  if negb (Bool.eqb (n_Unschedulable old) (n_Unschedulable new)) then true
  else if negb (bool_decide (n_Labels old = n_Labels new)) then true
  else if (isManagedByOperator old || isManagedByOperator new)
          && negb (bool_decide (n_Annotations old = n_Annotations new)) then true
  else if bool_decide (n_DeletionTimestamp old = None)
          && negb (bool_decide (n_DeletionTimestamp new = None)) then true
  else if (isManagedByOperator old || isManagedByOperator new)
          && nodeReadyConditionChanged old new then true
  else false.

Section Predicates.
Context `{SO : SelectorOps}.

Definition nodeRelevantToPlan (node : Node) (plan : NodeMaintenancePlan) : bool :=
  if decide (owner node = p_Name plan) then true
  else if existsb (λ name, bool_decide (name = n_Name node)) (s_Nodes (p_Spec plan)) then true
  else match s_NodeSelector (p_Spec plan) with
  | None => false
  | Some selector =>
      match LabelSelectorAsSelector selector with
      | inl _ => false
      | inr matches => matches (n_Labels node)
      end
  end.

Definition nodeToPlans (node : Node) : kprog (list string) :=
  pbind (trigger CListPlans) (λ r : resp CListPlans,
  match r with
  | inl _ => Ret []
  | inr plans => Ret (map p_Name (filter (λ plan, nodeRelevantToPlan node plan = true) plans))
  end).
End Predicates.

(** ** Ignored node updates *)

Lemma isNodeReady_status node : isNodeReady node = bool_decide (getNodeReadyStatus node = ConditionTrue).
Proof. unfold isNodeReady, getNodeReadyStatus. by destruct (findFirst _ _). Qed.

Lemma isManaged_owner node : isManagedByOperator node = false → owner node = "".
Proof.
  unfold isManagedByOperator, mapHas, owner, mapGet. intros H%bool_decide_eq_false.
  by destruct (n_Annotations node ≫= lookup ManagedByAnnotation); [destruct H|].
Qed.

(** No relevant node update is dropped: if the update predicate filters out the
    step from [old] to [new], then for every plan the two are the same to the
    reconciler: same owner, same cordon state and labels, same match by plans,
    same drift verdict, and for a managed node the same readiness. *)
Lemma nodeRelevantChange_same `{SO : SelectorOps} old new plan :
  n_Name new = n_Name old → p_Name plan ≠ "" → nodeRelevantChange old new = false →
  owner new = owner old ∧ n_Unschedulable new = n_Unschedulable old ∧ n_Labels new = n_Labels old ∧
  nodeRelevantToPlan new plan = nodeRelevantToPlan old plan ∧
  DetectNodeDrift (Some new) plan = DetectNodeDrift (Some old) plan ∧
  (owner old ≠ "" → isNodeReady new = isNodeReady old).
Proof.
  intros Hname Hne. unfold nodeRelevantChange.
  destruct (Bool.eqb (n_Unschedulable old) (n_Unschedulable new)) eqn:Hu; cbn [negb]; [|done].
  apply eqb_prop in Hu.
  destruct (bool_decide (n_Labels old = n_Labels new)) eqn:Hl; cbn [negb]; [|done].
  apply bool_decide_eq_true in Hl.
  destruct (isManagedByOperator old || isManagedByOperator new) eqn:Hm; cbn [andb].
  - destruct (bool_decide (n_Annotations old = n_Annotations new)) eqn:Ha; cbn [negb]; [|done].
    apply bool_decide_eq_true in Ha. case_match; [done|].
    destruct (nodeReadyConditionChanged old new) eqn:Hr; [done|]. intros _.
    unfold nodeReadyConditionChanged in Hr. apply bool_decide_eq_false in Hr. apply dec_stable in Hr.
    assert (owner new = owner old) as Ho by (unfold owner; by rewrite Ha).
    split_and!; [done|done|done| | |].
    + unfold nodeRelevantToPlan. by rewrite Ho, Hname, <-Hl.
    + unfold DetectNodeDrift, operatorCordoned. by rewrite Ho, Hname, Ha, Hu.
    + intros _. by rewrite !isNodeReady_status, Hr.
  - apply orb_false_iff in Hm as [Hm1 Hm2]. apply isManaged_owner in Hm1, Hm2. intros _.
    split_and!; [congruence|done|done| | |done].
    + unfold nodeRelevantToPlan. by rewrite Hm1, Hm2, Hname, Hl.
    + unfold DetectNodeDrift. rewrite Hm1, Hm2.
      destruct (n_Annotations new), (n_Annotations old); by rewrite ?decide_True by congruence.
Qed.

(** ** Witnesses *)

#[local] Instance noSelectors : SelectorOps := {| LabelSelectorAsSelector := λ _, inr (λ _, false) |}.

Definition deletedPlan : NodeMaintenancePlan :=
  MkNodeMaintenancePlan "plan-a" "" 1 (Some 5) [finalizerName] (exampleSpec ["n2"]) zeroPlanStatus.

(** The cluster of Ownership.v with the plan in deletion. *)
Definition deletionTables : tables :=
  MkTables exampleCluster (λ _, []) [] [deletedPlan] (λ _, None) 0.

Definition runReconcile (tb : tables) (name : string) : ktrace * outcome Duration :=
  (interp (tableEnv tb) (Reconcile name) tt).1.

Lemma runReconcile_run tb name : run (Reconcile name) (runReconcile tb name).1 (runReconcile tb name).2.
Proof. unfold runReconcile. destruct (interp _ _ _) as [[t o] []] eqn:E. by eapply interp_run. Qed.

Lemma Reconcile_deletion_witness :
  let r := runReconcile deletionTables "plan-a" in
  r.2 = OK 0 ∧ ∃ a t', r.1 = Ev (CGetPlan "plan-a") a :: t'.
Proof.
  intros r. split; [vm_compute; reflexivity|].
  destruct (Reconcile_deletion "plan-a" r.1 r.2 (runReconcile_run deletionTables "plan-a"))
    as (a & t' & Ht & _).
  exists a, t'. exact Ht.
Defined.

(** A pass over the same cluster: it adopts n1, keeps n2 and skips n3. *)
Definition clusterPlan : NodeMaintenancePlan := examplePlan ["n1"; "n2"; "n3"].

Lemma reconcilePass_ownership_witness :
  let s := MkSt clusterPlan [] in
  let t := execTrace clusterTables reconcilePass s in
  (∃ m, CPatchNode (exampleNode "n1") m ∈ ev_act <$> t ∧ n_Name m = "n1") ∧
  ∀ original m, CPatchNode original m ∈ ev_act <$> t → n_Name m = n_Name original.
Proof.
  intros s t.
  assert (∀ original m, CPatchNode original m ∈ ev_act <$> t → n_Name m = n_Name original) as Hall.
  { intros original m Hin. exact (proj1 (reconcilePass_ownership clusterPlan t _ _
      (exec_run clusterTables reconcilePass s) (exec_keepsNames _ _ _) original m Hin)). }
  split; [|exact Hall].
  eexists. split; [apply (list_elem_of_lookup_2 _ 9); vm_compute; reflexivity|]. reflexivity.
Defined.

