(* ===== verification/Pass.v ===== *)
(** * Properties of a whole reconcile

    Theorems about [Reconcile] and [reconcilePass] composed from the lemmas of
    their steps: no reconcile panics ([safe]), pods are removed only by the drain
    phase inside its window ([steady] says the other steps remove none), and the
    finalizer is stored before anything else happens. *)
From S2P Require Import Prelude GoTime Api Prog Kube Conditions Schedule Drift Filters.
From S2P Require Import Cordon Ownership DrainNode DrainStatus DrainPool DrainReconcile.
From S2P Require Import Status Preview Reconcile Controller.

(** ** Panic freedom

    [safe n m]: from a heap of at least [n] objects, [m] never panics, whatever
    is answered, and the heap does not shrink. *)
Definition safe (n : nat) {A} (m : M A) : Prop :=
  ∀ s, (n ≤ length (st_heap s))%nat →
  rgM anyAnswer anyCall m s (λ s' o, (n ≤ length (st_heap s'))%nat ∧ o ≠ Panic).

Section SafeRules.
Context {n : nat}.

Lemma safe_ret {A} (a : A) : safe n (mret a).
Proof. by intros s Hs. Qed.

Lemma safe_throw {A} e : safe n (throw (A:=A) e).
Proof. by intros s Hs. Qed.

Lemma safe_bind {A B} (m : M A) (f : A → M B) : safe n m → (∀ a, safe n (f a)) → safe n (m ≫= f).
Proof.
  intros Hm Hf s Hs. apply rgM_bind. eapply rgM_post; [by apply Hm|].
  intros s' [a|e|] [Hs' Ho]; [by apply Hf|by split|done].
Qed.

Lemma safe_wrapErr {A} msg (m : M A) : safe n m → safe n (wrapErr msg m).
Proof.
  intros Hm s Hs. apply rgM_wrapErr. eapply rgM_post; [by apply Hm|]. by intros s' [a|e|] [Hs' Ho].
Qed.

Lemma safe_perform c : safe n (perform c).
Proof. intros s Hs. by apply rgM_perform. Qed.

Lemma safe_getPlan : safe n getPlan.
Proof. by intros s Hs. Qed.

Lemma safe_setPlan p : safe n (setPlan p).
Proof. by intros s Hs. Qed.

Lemma safe_modifyPlan f : safe n (modifyPlan f).
Proof. by intros s Hs. Qed.

Lemma safe_orThrow {A} (r : ApiError + A) : safe n (orThrow r).
Proof. intros s Hs. by apply rgM_orThrow. Qed.

Lemma safe_storeOr {A} (o : option A) : (∃ a, o = Some a) → safe n (storeOr o).
Proof. by intros [a ->] s Hs. Qed.

Lemma safe_load l : (l < n)%nat → safe n (load l).
Proof.
  intros Hl s Hs. apply rgM_load; [done|]. intros Hn. apply lookup_ge_None in Hn. lia.
Qed.

Lemma safe_store l x : safe n (store l x).
Proof. intros s Hs. apply rgM_store. cbn. by rewrite length_insert. Qed.

Lemma safe_alloc x : safe n (alloc x).
Proof. intros s Hs. apply rgM_alloc. cbn. rewrite length_app. split; [lia|done]. Qed.

Lemma safe_Eventf related ty reason action note : safe n (Eventf related ty reason action note).
Proof. intros s Hs. by apply rgM_Eventf. Qed.

Lemma safe_rangeMap {A} (m : gmap string A) : safe n (rangeMap m).
Proof. intros s Hs. by apply rgM_rangeMap. Qed.

Lemma safe_rangeM {A} (xs : list A) (f : A → M unit) :
  (∀ x, x ∈ xs → safe n (f x)) → safe n (rangeM xs f).
Proof.
  induction xs as [|x xs IH]; intros Hf; cbn [rangeM]; [apply safe_ret|].
  apply safe_bind; [apply Hf; set_solver|]. intros _. apply IH. set_solver.
Qed.

Lemma safe_foldM {A B} (f : B → A → M B) b xs :
  (∀ b x, x ∈ xs → safe n (f b x)) → safe n (foldM f b xs).
Proof.
  revert b. induction xs as [|x xs IH]; intros b Hf; cbn [foldM]; [apply safe_ret|].
  apply safe_bind; [apply Hf; set_solver|]. intros b'. apply IH. set_solver.
Qed.

Lemma safe_liftProg {A} (p : kprog A) : safe n (liftProg p).
Proof. intros s Hs. apply rg_bind. induction p as [a|c k IH]; [done|]. by split; [|intros r _]. Qed.

End SafeRules.

Create HintDb safe.
#[export] Hint Resolve safe_ret safe_throw safe_getPlan safe_setPlan safe_modifyPlan safe_load safe_store safe_alloc safe_Eventf safe_rangeMap safe_liftProg : safe.
#[export] Hint Constants Opaque : safe.

(** Panic freedom of an operation from that of its parts. *)
Ltac safe_step :=
  lazymatch goal with
  | |- safe _ (mbind _ _) => apply safe_bind; [|intros ?]
  | |- safe _ (perform _) => apply safe_perform
  | |- safe _ (orThrow _) => apply safe_orThrow
  | |- safe _ (wrapErr _ _) => apply safe_wrapErr
  | |- safe _ (storeOr _) => apply safe_storeOr
  | |- safe _ (rangeM _ _) => apply safe_rangeM; intros ? ?
  | |- safe _ (foldM _ _ _) => apply safe_foldM; intros ? ? ?
  | |- safe _ (if ?b then _ else _) => destruct b
  | |- safe _ (match ?x with _ => _ end) => destruct x
  | |- safe _ _ => solve [auto with safe nocore]
  end.
Ltac safe_tac := repeat safe_step.

(** ** The steps *)

Lemma safe_patchNode n l original : (l < n)%nat → safe n (patchNode l original).
Proof. intros Hl. unfold patchNode. safe_tac. Qed.

Lemma safe_patchPlan n original : safe n (patchPlan original).
Proof. unfold patchPlan. safe_tac. Qed.

Lemma safe_patchPlanStatus n original : safe n (patchPlanStatus original).
Proof. unfold patchPlanStatus. safe_tac. Qed.

#[local] Hint Resolve safe_patchNode safe_patchPlan safe_patchPlanStatus : safe.

Lemma safe_AdoptNode n l cordon : (l < n)%nat → safe n (AdoptNode l cordon).
Proof. intros Hl. unfold AdoptNode. safe_tac. apply adoptMutation_Some. Qed.

Lemma safe_CordonNode n l : (l < n)%nat → safe n (CordonNode l).
Proof. intros Hl. unfold CordonNode. safe_tac. apply cordonMutation_Some. Qed.

Lemma safe_UncordonNode n l : (l < n)%nat → safe n (UncordonNode l).
Proof. intros Hl. unfold UncordonNode. safe_tac. Qed.

Lemma safe_ReleaseNode n l : (l < n)%nat → safe n (ReleaseNode l).
Proof. intros Hl. unfold ReleaseNode. safe_tac. Qed.

#[local] Hint Resolve safe_AdoptNode safe_CordonNode safe_UncordonNode safe_ReleaseNode : safe.

Lemma rgM_and R G1 G2 {A} (m : M A) s (Q1 Q2 : st → outcome A → Prop) :
  rgM R G1 m s Q1 → rgM R G2 m s Q2 → rgM R G1 m s (λ s' o, Q1 s' o ∧ Q2 s' o).
Proof.
  intros H1 H2. eapply rg_mono; [exact (rg_and R G1 G2 _ _ _ H1 H2)|done|by intros c []|done].
Qed.

(** The lists of the resolution point to objects of the heap. *)
Definition located (n : nat) (res : OwnershipResolution) : Prop :=
  ∀ l, l ∈ ow_All res ++ ow_ToAdopt res ++ ow_Stable res ++ ow_Conflicting res ++ ow_ToRelease res →
  (l < n)%nat.

#[local] Hint Extern 1 (_ < _)%nat =>
  match goal with H : located _ ?res |- _ => apply H; set_solver end : safe.

Section Steps.
Context (n : nat) (res : OwnershipResolution) (Hres : located n res).

Lemma safe_ReconcileOwnership cordonNow : safe n (ReconcileOwnership res cordonNow).
Proof. unfold ReconcileOwnership, warnConflict, adoptStep. safe_tac. Qed.

Lemma safe_ReconcileDrift : safe n (ReconcileDrift res).
Proof. unfold ReconcileDrift, driftStep. safe_tac. Qed.

Lemma safe_ReconcileCordon : safe n (ReconcileCordon res).
Proof. unfold ReconcileCordon, cordonStableStep, releaseStep. safe_tac. Qed.

Lemma safe_loadAll ls : (∀ l, l ∈ ls → l < n)%nat → safe n (loadAll ls).
Proof. intros Hls. unfold loadAll. safe_tac. Qed.

Lemma safe_UpdateStatus `{CO : ConditionOps} : safe n (UpdateStatus res).
Proof.
  unfold UpdateStatus, warnDisappearedNodes, warnDisappearedNode, setScheduled,
    setNodeNotReadyCondition.
  safe_tac; try (apply safe_loadAll; intros; apply Hres; set_solver).
  unfold notReadyStep. safe_tac.
Qed.

Lemma safe_ReconcilePreview `{SO : SelectorOps} : safe n (ReconcilePreview res).
Proof.
  assert (∀ l, l ∈ ow_Stable res ++ ow_ToAdopt res → l < n)%nat as Hls
    by (intros; apply Hres; set_solver).
  unfold ReconcilePreview. revert Hls. generalize (ow_Stable res ++ ow_ToAdopt res) as ls.
  intros ls Hls. safe_tac. unfold previewNode, buildPDBIssues, buildPDBIssuesStep. safe_tac.
Qed.

(** The one dereference of the drain phase, [plan.Spec.Drain.TimeoutMinutes], is
    of a plan whose drain is configured. *)
Lemma safe_ReconcileDrain `{CL : ConditionLaws} : safe n (ReconcileDrain res).
Proof.
  intros s Hs. unfold ReconcileDrain. do 2 rg_step.
  destruct (getDrainConfig (st_plan s)) as [cfg|] eqn:Hcfg; [|by rg_step].
  do 2 rg_step; [done|].
  assert (rgM anyAnswer anyCall (foldM (selectDrainTarget (notReadyIndex (ps_Nodes (p_Status
    (st_plan s))))) ([], []) (ow_Stable res)) s (λ s' o, s' = s ∧ o ≠ Panic)) as Hsel.
  { eapply rgM_mono; [apply (rgM_and anyAnswer silent anyCall)|done|done|].
    - apply (rgM_selectDrainTargets anyAnswer _ _ _ _ (λ _, True)); set_solver.
    - apply (safe_foldM (n := n)); [|done]. intros. unfold selectDrainTarget. safe_tac.
    - by intros s' o [[-> _] [_ Ho]]. }
  eapply rgM_post; [exact Hsel|]. intros s' o [-> Ho].
  destruct o as [[results nodes]|e|]; [|by split|done].
  assert (rgM anyAnswer anyCall (drained ← liftProg (drainNodes (st_plan s) nodes);
    applyDrainResults (results ++ drained)) s (λ s' o, (n ≤ length (st_heap s'))%nat ∧ o ≠ Panic))
    as Hdrain.
  { rg_step. unfold liftProg. apply rg_bind.
    apply (rg_mono anyAnswer anyAnswer podCalls _ _ (λ _, True)); [apply rg_drainNodes|done|done|].
    intros drained _. cbn. eapply rgM_mono; [apply rgM_applyDrainResults, (getDrainConfig_drain _ _ Hcfg)|done|done|].
    intros s2 o2 [Hp Hh]. by rewrite Hh. }
  destruct results, nodes; [by rg_step|exact Hdrain..].
Qed.
End Steps.

(** ** The pass *)
Section NoPanic.
Context `{SO : SelectorOps} `{CL : ConditionLaws} `{FO : FinalizerOps}.

Lemma safe_resolveDesired n : safe n resolveDesired.
Proof.
  unfold resolveDesired, resolveSnapshotNodes, resolveSelectorNodes, ResolveNodes,
    resolveExplicitNodes, resolveSelectorNodes.
  safe_tac; unfold resolveSnapshotStep, resolveExplicitStep; safe_tac.
Qed.

Lemma indexed_located P base s m k l :
  indexed P base s m → m !! k = Some l → (l < length (st_heap s))%nat.
Proof. intros Hm Hk. destruct (Hm k l Hk) as (_ & n & Hn & _). by eapply lookup_lt_Some. Qed.

Lemma ownershipSpec_located s desired managed planName res P base P' base' :
  indexed P base s desired → indexed P' base' s managed →
  ownershipSpec s desired managed planName res → located (length (st_heap s)) res.
Proof.
  intros Hd Hm (H1 & H2 & H3 & H4 & H5).
  assert (∀ l, l ∈ ow_All res → l < length (st_heap s))%nat as Hall.
  { intros l Hl. rewrite H1 in Hl. apply list_elem_of_fmap in Hl as ([k l'] & -> & Hk).
    apply elem_of_map_to_list in Hk. by eapply (indexed_located P base). }
  intros l. rewrite !elem_of_app, H2, H3, H4, H5, !elem_of_withClaim, elem_of_undesired.
  intros [?|[[_ ?]|[[_ ?]|[[_ ?]|(k & Hk & _)]]]]; [by apply Hall..|].
  by eapply (indexed_located P' base').
Qed.

Lemma located_ComputeOwnershipResolution s :
  rgM anyAnswer anyCall ComputeOwnershipResolution s (λ s' o,
    o ≠ Panic ∧ ∀ res, o = OK res → located (length (st_heap s')) res).
Proof.
  unfold ComputeOwnershipResolution. rg_step.
  eapply rgM_post; [apply (safe_resolveDesired 0); lia|]. intros s1 o [_ Ho].
  destruct o as [[result snap]|e|]; [|by split|done]. rg_step.
  eapply rgM_mono; [apply (rgM_indexNodes _ 0); [lia|apply indexed_empty]|done|done|].
  intros s2 o (_ & desired & -> & Hd). do 4 rg_step.
  eapply rgM_mono; [apply rgM_ResolveOwnedNodes|done|done|]. intros s3 o (He & Ho' & Hm).
  destruct o as [managed|e|]; [|by split|done]. rg_step.
  eapply rgM_mono; [apply rgM_ComputeOwnership|done|done|]. intros s4 o (-> & Hv & Hspec).
  pose proof (indexed_extends _ _ _ _ _ He Hd) as Hd'.
  destruct Hv as [res ->].
  { intros k l Hk. destruct (Hd' k l Hk) as (_ & n & Hn & _). by exists n. }
  rg_step. split; [done|]. intros res' [= <-].
  destruct (Hspec res eq_refl) as [Hs _].
  pose proof (ownershipSpec_located _ _ _ _ _ _ _ _ _ Hd' (Hm managed eq_refl) Hs) as Hl.
  exact Hl.
Qed.

Lemma safe_cleanUpNode n e : (e.2 < n)%nat → safe n (cleanUpNode e).
Proof. intros He. unfold cleanUpNode. safe_tac. Qed.

Lemma safe_CleanUp : safe 0 CleanUp.
Proof.
  intros s _. unfold CleanUp. do 4 rg_step.
  eapply rgM_mono; [apply rgM_ResolveOwnedNodes|done|done|]. intros s1 o (_ & Ho & Hm).
  destruct o as [owned|e|]; [|by split; [lia|]|done]. rg_step.
  apply rgM_rangeMap; [done|]. intros es Hes.
  eapply rgM_post.
  { apply (safe_rangeM (n := length (st_heap s1))); [|done]. intros [k l] He.
    apply safe_cleanUpNode. rewrite Hes in He. apply elem_of_map_to_list in He.
    by eapply (indexed_located _ _ _ _ k), He; apply Hm. }
  intros s2 o [_ Ho2]. split; [lia|done].
Qed.

Lemma safe_ignoreNotFound n m : safe n m → safe n (ignoreNotFound m).
Proof.
  intros Hm s Hs. apply rg_bind. eapply rg_post; [by apply Hm|].
  intros [s' [a|[e| | | |]|]] [Hs' Ho]; try done. cbn. by destruct (IsNotFound e).
Qed.

#[local] Hint Resolve safe_CleanUp safe_patchPlan safe_ignoreNotFound : safe.

Lemma safe_handleDeletion : safe 0 handleDeletion.
Proof. unfold handleDeletion. safe_tac. Qed.

Lemma safe_ensureFinalizer n : safe n ensureFinalizer.
Proof. unfold ensureFinalizer. safe_tac. Qed.

Lemma safe_ComputeSchedule n : safe n ComputeSchedule.
Proof. unfold ComputeSchedule. safe_tac. Qed.

#[local] Hint Resolve safe_handleDeletion safe_ensureFinalizer safe_ComputeSchedule
  safe_ReconcileOwnership safe_UpdateStatus safe_ReconcilePreview safe_ReconcileDrift
  safe_ReconcileCordon safe_ReconcileDrain : safe.

Lemma safe_reconcilePass : safe 0 reconcilePass.
Proof.
  intros s _. unfold reconcilePass. do 3 rg_step.
  { apply (safe_bind (n := 0)); [apply safe_handleDeletion|intros _; apply safe_ret|lia]. }
  rg_step. eapply rgM_post; [by apply (safe_ensureFinalizer 0); lia|]. intros s1 o [_ Ho].
  destruct o as [[]|e|]; [|by split; [lia|]|done]. rg_step.
  eapply rgM_post; [apply located_ComputeOwnershipResolution|]. intros s2 o [Ho2 Hl].
  destruct o as [res|e|]; [|by split; [lia|]|done]. specialize (Hl res eq_refl).
  set (n := length (st_heap s2)) in *.
  apply (rgM_post (Q1 := λ s' o, (n ≤ length (st_heap s'))%nat ∧ o ≠ Panic));
    [|intros s3 o [_ Ho3]; split; [lia|exact Ho3]].
  match goal with |- rgM _ _ ?m _ _ => assert (safe n m) as Hm by safe_tac end.
  by apply Hm.
Qed.

(** C10: the reconciler never crashes.  Whatever the API server answers to any
    request, in any state of the cluster, with other writers changing nodes and
    the plan between calls, and in any order of map iteration, a reconcile ends
    in a result or an error and never in a run-time panic: no write to a nil
    map, no nil dereference, no stale node pointer. *)
Theorem Reconcile_no_panic name t o : run (Reconcile name) t o → o ≠ Panic.
Proof.
  unfold Reconcile. intros Hrun. cbn in Hrun. destruct Hrun as (r & t' & -> & Hrun).
  destruct r as [e|plan].
  { destruct (IsNotFound e); by destruct Hrun as [_ ->]. }
  apply run_bind in Hrun as (t1 & [s1 o1] & t2 & -> & Hrun & [_ ->]).
  destruct (rgM_sound (safe_reconcilePass (MkSt plan []) (Nat.le_0_l _)) Hrun (answered_any _))
    as [_ [_ Ho]]. exact Ho.
Qed.
End NoPanic.

(** ** Removing pods

    [steady spec m]: [m] removes no pod, and leaves the plan's spec alone as long
    as the server answers the patches of the plan with the spec it was sent. *)
Definition keepsSpec : rely resp := λ c,
  match c return resp c → Prop with
  | CPatchPlan _ m | CPatchPlanStatus _ m => λ r, ∀ p, r = inr p → p_Spec p = p_Spec m
  | _ => λ _, True
  end.

Definition removes (pod : Pod) (c : call) : Prop :=
  match c with CEvict p _ | CDeletePod p => p = pod | _ => False end.

Definition noRemoval : guar call := λ c, ∀ pod, ¬ removes pod c.

Abbreviation steady m :=
  (∀ spec, preserves keepsSpec noRemoval (λ s, p_Spec (st_plan s) = spec) m).

Lemma steady_modifyPlan f : (∀ p, p_Spec (f p) = p_Spec p) → steady (modifyPlan f).
Proof. intros Hf spec. apply preserves_modifyPlan. intros s <-. apply Hf. Qed.

Lemma steady_patchPlan original : steady (patchPlan original).
Proof. intros spec. apply preserves_patchPlan; [by intros ? ? ? []|]. intros s p <- Hr. by apply Hr. Qed.

Lemma steady_patchPlanStatus original : steady (patchPlanStatus original).
Proof.
  intros spec. apply preserves_patchPlanStatus; [by intros ? ? ? []|]. intros s p <- Hr. by apply Hr.
Qed.

Create HintDb steady.
#[export] Hint Resolve steady_patchPlan steady_patchPlanStatus : steady.
#[export] Hint Constants Opaque : steady.

Ltac steady_tac :=
  intros ?; keep_inv;
  lazymatch goal with
  | |- preserves _ _ _ (modifyPlan _) => apply steady_modifyPlan; intros ?; try reflexivity
  | |- preserves _ _ _ _ => auto with steady nocore
  | |- noRemoval _ => by intros ? []
  | |- _ => try done; try (by intros ? ? [])
  end.

Section SteadySteps.
Context `{SO : SelectorOps} `{CO : ConditionOps} `{FO : FinalizerOps}.

Lemma steady_ensureFinalizer : steady ensureFinalizer.
Proof. unfold ensureFinalizer. steady_tac. Qed.

Lemma steady_ignoreNotFound m : steady m → steady (ignoreNotFound m).
Proof.
  intros Hm spec s Hs. apply rg_bind. eapply rg_post; [by apply (Hm spec)|]. by intros [s' o] Hs'.
Qed.

Lemma steady_CleanUp : steady CleanUp.
Proof.
  unfold CleanUp, ResolveOwnedNodes, indexOwnedNode, cleanUpNode, UncordonNode, ReleaseNode, patchNode.
  steady_tac.
Qed.

#[local] Hint Resolve steady_CleanUp steady_ignoreNotFound : steady.

Lemma steady_handleDeletion : steady handleDeletion.
Proof. unfold handleDeletion. steady_tac. Qed.

Lemma steady_ComputeOwnershipResolution : steady ComputeOwnershipResolution.
Proof.
  intros spec s <-. eapply rgM_mono; [apply rgM_ComputeOwnershipResolution|done| |].
  - by intros [] ? ? ?.
  - by intros s' o [[-> _] _].
Qed.

Lemma steady_ReconcileOwnership res cordonNow : steady (ReconcileOwnership res cordonNow).
Proof. unfold ReconcileOwnership, warnConflict, adoptStep, AdoptNode, patchNode. steady_tac. Qed.

Lemma steady_ReconcileDrift res : steady (ReconcileDrift res).
Proof. unfold ReconcileDrift, driftStep, ReleaseNode, patchNode. steady_tac. Qed.

Lemma steady_ReconcileCordon res : steady (ReconcileCordon res).
Proof.
  unfold ReconcileCordon, cordonStableStep, releaseStep, CordonNode, UncordonNode, ReleaseNode, patchNode.
  steady_tac.
Qed.

Lemma steady_cordonStep (cordonNow : bool) res :
  steady (if cordonNow then ReconcileCordon res else mret tt).
Proof. intros spec. destruct cordonNow; [apply steady_ReconcileCordon|apply preserves_ret]. Qed.

Lemma steady_UpdateStatus res : steady (UpdateStatus res).
Proof.
  unfold UpdateStatus, warnDisappearedNodes, loadAll, warnDisappearedNode, setScheduled,
    setNodeNotReadyCondition, notReadyStep.
  steady_tac; unfold setNodesSelected, setCordoned, setConflict, setDriftDetected, persistSnapshot;
    by repeat case_match.
Qed.

Lemma steady_filterPodsForDrain node cfg : steady (liftProg (filterPodsForDrain node cfg)).
Proof.
  intros spec. apply preserves_liftProg. unfold filterPodsForDrain.
  split; [by intros ? []|]. intros [e|pods] _; [done|]. split; [by intros ? []|done].
Qed.

#[local] Hint Resolve steady_filterPodsForDrain : steady.

Lemma steady_ReconcilePreview res : steady (ReconcilePreview res).
Proof. unfold ReconcilePreview, previewNode, buildPDBIssues, buildPDBIssuesStep. steady_tac. Qed.
End SteadySteps.

(** ** When pods are removed *)

(** A removal in a sequence whose first part is steady happens in the rest. *)
Lemma steady_bind {A B} (m : M A) (f : A → M B) s t s' o e pod :
  steady m → runM (m ≫= f) s t s' o → answered keepsSpec t → e ∈ t → removes pod (ev_act e) →
  ∃ a s1 t1 t2, t = t1 ++ t2 ∧ runM m s t1 s1 (OK a) ∧ runM (f a) s1 t2 s' o ∧
    p_Spec (st_plan s1) = p_Spec (st_plan s) ∧ answered keepsSpec t2 ∧ e ∈ t2.
Proof.
  intros Hm Hrun Hans He Hrm. apply runM_bind in Hrun as (t1 & s1 & o1 & t2 & -> & H1 & H2).
  apply Forall_app in Hans as [Ha1 Ha2].
  destruct (rgM_sound (Hm _ s eq_refl) H1 Ha1) as [Hi Hs].
  apply elem_of_app in He as [He|He]; [by destruct (issued_elem _ _ _ Hi He pod)|].
  destruct o1 as [a|err|]; [by exists a, s1, t1, t2|..];
    destruct H2 as (-> & _); by apply elem_of_nil in He.
Qed.

Lemma drainSchedule_open plan now :
  sr_ShouldAct (drainSchedule plan now) = true →
  ∀ start, drainStart plan = Some start → start ≤ now.
Proof.
  unfold drainSchedule, drainStart, drainEnabled. destruct (s_Drain (p_Spec plan)) as [d|]; [|done].
  destruct (d_Enabled d); [|done]. cbn. intros Hact start Hst. rewrite Hst in Hact.
  unfold CheckSchedule in Hact. revert Hact. time_cases; [done|lia].
Qed.

Lemma getDrainConfig_spec p q : p_Spec p = p_Spec q → getDrainConfig p = getDrainConfig q.
Proof. unfold getDrainConfig. by intros ->. Qed.

Lemma ComputeSchedule_run s t s' o :
  runM ComputeSchedule s t s' o →
  ∃ now, t = [Ev CNow now] ∧ s' = s ∧ o = OK (scheduleAt (st_plan s) now).
Proof.
  unfold ComputeSchedule. intros Hrun. cbn in Hrun. destruct Hrun as (now & t' & -> & -> & [= -> ->]).
  by exists now.
Qed.

(** What follows the drain phase removes nothing. *)
Lemma drainStep_run (m : M Duration) (k : Duration → Duration) s t s' o :
  runM (d ← m; plan ← getPlan; perform (CRecordPlan plan);; mret (k d)) s t s' o →
  ∃ t1 t2 s1 o1, t = t1 ++ t2 ∧ runM m s t1 s1 o1 ∧
    ∀ e pod, e ∈ t2 → ¬ removes pod (ev_act e).
Proof.
  intros Hrun. apply runM_bind in Hrun as (t1 & s1 & o1 & t2 & -> & Hm & Hrun).
  exists t1, t2, s1, o1. split_and!; [done|done|]. intros e pod He.
  destruct o1 as [d|err|]; [|by destruct Hrun as (-> & _); apply elem_of_nil in He..].
  cbn in Hrun. destruct Hrun as (r & t3 & -> & -> & _).
  apply list_elem_of_singleton in He as ->. by intros [].
Qed.

(** What [drainEvent] says of a removal. *)
Lemma ReconcileDrain_removal `{CL : ConditionLaws} res s t s' o e pod :
  runM (ReconcileDrain res) s t s' o → e ∈ t → removes pod (ev_act e) →
  ∃ cfg n pods, getDrainConfig (st_plan s) = Some cfg ∧
    n_Unschedulable n = true ∧ isNodeReady n = true ∧
    Ev (CListPods (n_Name n)) (inr pods) ∈ t ∧ pod ∈ pods ∧ evictable cfg pod = true ∧
    match ev_act e with
    | CDeletePod _ => dc_RespectPodDisruptionBudgets cfg = false
    | _ => True
    end.
Proof.
  intros Hrun He Hrm. pose proof (ReconcileDrain_event _ _ _ _ _ _ Hrun He) as Hev.
  unfold drainEvent in Hev.
  destruct (ev_act e); try done; cbn in Hrm; subst;
    destruct Hev as (_ & cfg & n & pods & ? & (_ & ? & ?) & ? & ? & ? & ?);
    by exists cfg, n, pods.
Qed.

Section Removals.
Context `{SO : SelectorOps} `{CL : ConditionLaws} `{FO : FinalizerOps}.

(** C6: when a reconcile takes pods away.  In a pass whose plan patches the
    server answers with the spec it was sent, every pod that is evicted or
    deleted is removed by a plan that is not being deleted and enables drain,
    after a reading of the clock at which the drain window was open; the pod was
    listed, in this pass, on a node held to be unschedulable and Ready, is
    evictable under the plan's options, and is deleted outright only where the
    plan waives disruption budgets. *)
Theorem reconcilePass_evictions plan t s' o :
  runM reconcilePass (MkSt plan []) t s' o → answered keepsSpec t →
  ∀ e pod, e ∈ t → removes pod (ev_act e) →
  IsZero (p_DeletionTimestamp plan) = true ∧
  ∃ t1 now t2 cfg n pods, t = t1 ++ Ev CNow now :: t2 ∧ e ∈ t2 ∧
    (∀ start, drainStart plan = Some start → start ≤ now) ∧
    getDrainConfig plan = Some cfg ∧ n_Unschedulable n = true ∧ isNodeReady n = true ∧
    Ev (CListPods (n_Name n)) (inr pods) ∈ t2 ∧ pod ∈ pods ∧ evictable cfg pod = true ∧
    match ev_act e with
    | CDeletePod _ => dc_RespectPodDisruptionBudgets cfg = false
    | _ => True
    end.
Proof.
  unfold reconcilePass. intros Hrun Hans e pod He Hrm.
  apply (runM_bind getPlan) in Hrun as (t0 & s0 & o0 & t1 & -> & [-> [= -> ->]] & Hrun).
  cbn [app st_plan] in *. destruct (IsZero (p_DeletionTimestamp plan)) eqn:Hdel; cbn [negb] in Hrun.
  2: { eapply steady_bind in Hrun as (? & ? & ? & ? & -> & _ & Hret & _ & _ & Hin);
         [|apply steady_handleDeletion|done..].
       destruct Hret as [-> _]. by apply elem_of_nil in Hin. }
  split; [done|].
  eapply steady_bind in Hrun as ([] & s1 & u1 & t2 & -> & _ & Hrun & Hsp1 & Ha1 & He1);
    [|apply steady_ensureFinalizer|done..].
  eapply steady_bind in Hrun as (res & s2 & u2 & t3 & -> & _ & Hrun & Hsp2 & Ha2 & He2);
    [|apply steady_ComputeOwnershipResolution|done..].
  apply runM_bind in Hrun as (t4 & s3 & o3 & t5 & -> & Hsch & Hrun).
  apply ComputeSchedule_run in Hsch as (now & -> & -> & ->).
  cbn [app] in *. apply elem_of_cons in He2 as [->|He3]; [done|]. inversion_clear Ha2 as [|?? _ Ha3].
  eapply steady_bind in Hrun as ([] & s4 & u4 & t6 & -> & _ & Hrun & Hsp4 & Ha4 & He4);
    [|apply steady_ReconcileOwnership|done..].
  eapply steady_bind in Hrun as ([] & s5 & u5 & t7 & -> & _ & Hrun & Hsp5 & Ha5 & He5);
    [|apply steady_UpdateStatus|done..].
  eapply steady_bind in Hrun as ([] & s6 & u6 & t8 & -> & _ & Hrun & Hsp6 & Ha6 & He6);
    [|apply steady_ReconcilePreview|done..].
  eapply steady_bind in Hrun as ([] & s7 & u7 & t9 & -> & _ & Hrun & Hsp7 & Ha7 & He7);
    [|apply steady_ReconcileDrift|done..].
  eapply steady_bind in Hrun as ([] & s8 & u8 & t10 & -> & _ & Hrun & Hsp8 & Ha8 & He8);
    [|apply steady_cordonStep|done..].
  assert (p_Spec (st_plan s2) = p_Spec plan) as HS2 by (by rewrite Hsp2, Hsp1).
  assert (p_Spec (st_plan s8) = p_Spec plan) as HS8 by congruence.
  apply drainStep_run in Hrun as (t11 & t12 & s9 & o9 & -> & Hdrain & Hrest).
  apply elem_of_app in He8 as [He8|He8]; [|by destruct (Hrest e pod He8)].
  destruct (sr_ShouldAct (sch_Drain _)) eqn:Hact.
  2: { destruct Hdrain as [-> _]. by apply elem_of_nil in He8. }
  destruct (ReconcileDrain_removal _ _ _ _ _ _ _ Hdrain He8 Hrm)
    as (cfg & n & pods & Hcfg & Hu & Hr & Hl & Hp & Hev & Hpdb).
  exists (u1 ++ u2), now, (u4 ++ u5 ++ u6 ++ u7 ++ u8 ++ t11 ++ t12), cfg, n, pods.
  rewrite <-(getDrainConfig_spec _ _ HS8). split_and!; try done.
  - by rewrite <-app_assoc.
  - unfold drainStart, drainEnabled. rewrite <-HS2. by apply drainSchedule_open.
  - rewrite !elem_of_app. tauto.
Qed.
End Removals.

(** ** The finalizer comes first *)
Section FinalizerFirst.
Context `{SO : SelectorOps} `{CO : ConditionOps} `{FL : FinalizerLaws}.

Lemma ensureFinalizer_run plan heap t s' o :
  runM ensureFinalizer (MkSt plan heap) t s' o →
  (ContainsFinalizer (p_Finalizers plan) finalizerName = true ∧ t = [] ∧ o = OK tt) ∨
  ∃ m r, t = [Ev (CPatchPlan plan m) r] ∧
    m = set_p_Finalizers (AddFinalizer (p_Finalizers plan) finalizerName) plan ∧
    o = match r with inl e => Fail (ErrApi e) | inr _ => OK tt end.
Proof.
  unfold ensureFinalizer. intros Hrun.
  apply (runM_bind getPlan) in Hrun as (t0 & s0 & o0 & t1 & -> & [-> [= -> ->]] & Hrun).
  cbn [st_plan app] in *. destruct (ContainsFinalizer _ _); [left; by destruct Hrun as [-> [= _ ->]]|].
  right. cbn in Hrun. destruct Hrun as (r & t' & -> & Hrun). exists (set_p_Finalizers
    (AddFinalizer (p_Finalizers plan) finalizerName) plan), r.
  destruct r as [e|p]; cbn in Hrun; destruct Hrun as [-> [= _ ->]]; by split_and!.
Qed.

(** C13: nothing happens before the finalizer is stored.  A pass over a plan that
    is not being deleted and lacks the finalizer begins with the patch that adds
    it and changes nothing else of the plan; if that patch fails, its error ends
    the pass before any other call.  Hence no node is adopted or cordoned, and no
    pod evicted, for a plan whose deletion would not clean up after it. *)
Theorem reconcilePass_finalizer_first plan t s' o :
  runM reconcilePass (MkSt plan []) t s' o → IsZero (p_DeletionTimestamp plan) = true →
  ContainsFinalizer (p_Finalizers plan) finalizerName = true ∨
  ∃ m r t', t = Ev (CPatchPlan plan m) r :: t' ∧
    ContainsFinalizer (p_Finalizers m) finalizerName = true ∧
    m = set_p_Finalizers (p_Finalizers m) plan ∧
    ∀ e, r = inl e → t' = [] ∧ o = Fail (ErrApi e).
Proof.
  unfold reconcilePass. intros Hrun Hdel.
  apply (runM_bind getPlan) in Hrun as (t0 & s0 & o0 & t1 & -> & [-> [= -> ->]] & Hrun).
  cbn [st_plan app] in *. rewrite Hdel in Hrun. cbn [negb] in Hrun.
  apply runM_bind in Hrun as (t2 & s2 & o2 & t3 & -> & Hf & Hrun).
  apply ensureFinalizer_run in Hf as [(Hc & _)|(m & r & -> & -> & ->)]; [by left|]. right.
  eexists _, r, t3. split; [done|]. split; [apply contains_add|]. split; [by destruct plan|].
  intros e ->. by destruct Hrun as (-> & _ & ->).
Qed.
End FinalizerFirst.

(** ** Witnesses *)

#[local] Instance noSelectors : SelectorOps := {| LabelSelectorAsSelector := λ _, inr (λ _, false) |}.

(** One node of the plan, cordoned, with a pod on it. *)
Definition passNode : Node := set_n_Unschedulable true (ownedNode "plan-a" "n1").

Definition passTables : tables :=
  MkTables [passNode] (λ _, [examplePod "web" [exampleController]]) [] [examplePlan ["n1"]]
    (λ _, None) 0.

Lemma Reconcile_no_panic_witness :
  let r := runReconcile passTables "plan-a" in r.2 = OK drainCheckInterval ∧ r.2 ≠ Panic.
Proof.
  intros r. split; [vm_compute; reflexivity|].
  exact (Reconcile_no_panic "plan-a" r.1 r.2 (runReconcile_run passTables "plan-a")).
Defined.

Lemma exec_keepsSpec tb {A} (m : M A) s : answered keepsSpec (execTrace tb m s).
Proof. apply interp_answered. intros [] []; cbn; try done; congruence. Qed.

Abbreviation passExec := (execTrace passTables reconcilePass (MkSt (examplePlan ["n1"]) [])).

Lemma reconcilePass_evictions_witness :
  let pod := examplePod "web" [exampleController] in
  Ev (CEvict pod None) None ∈ passExec ∧
  ∃ t1 now t2, passExec = t1 ++ Ev CNow now :: t2 ∧ Ev (Res:=resp) (CEvict pod None) None ∈ t2.
Proof.
  intros pod.
  assert (Ev (Res:=resp) (CEvict pod None) None ∈ passExec) as He.
  { apply (list_elem_of_lookup_2 _ 17). vm_compute. reflexivity. }
  split; [exact He|].
  destruct (reconcilePass_evictions _ _ _ _
    (exec_run passTables reconcilePass (MkSt (examplePlan ["n1"]) [])) (exec_keepsSpec _ _ _) _ pod He
    eq_refl) as (_ & t1 & now & t2 & cfg & n & pods & Ht & He2 & _).
  exists t1, now, t2. split; [exact Ht|exact He2].
Defined.

Lemma reconcilePass_finalizer_first_witness :
  ContainsFinalizer (p_Finalizers (examplePlan ["n1"])) finalizerName = false ∧
  ∃ m r t', passExec = Ev (CPatchPlan (examplePlan ["n1"]) m) r :: t'.
Proof.
  assert (ContainsFinalizer (p_Finalizers (examplePlan ["n1"])) finalizerName = false) as Hf
    by (vm_compute; reflexivity).
  split; [exact Hf|].
  destruct (reconcilePass_finalizer_first _ _ _ _
    (exec_run passTables reconcilePass (MkSt (examplePlan ["n1"]) [])) eq_refl)
    as [Hc|(m & r & t' & Ht & _)]; [rewrite Hf in Hc; discriminate Hc|].
  exists m, r, t'. exact Ht.
Defined.
