(* ===== verification/Watch.v ===== *)
(** * Watches (SetupWithManager and the predicates)

    Which events reach the reconciler: the predicate and the handler of the node
    watch, the predicate of the plan watch, and the start-up step that hands
    them to the manager.  [SetupWithManager_wakes] says that no event a plan's
    reconcile depends on is lost between the watch and the request queue. *)
From S2P Require Import Prelude GoTime Api Prog Kube Drift Ownership Controller.

(** ** Events

    controller-runtime's [client.Object] and event types, with the objects this
    program meets. *)
Inductive Object : Type :=
| ONode (node : Node)
| OPlan (plan : NodeMaintenancePlan)
| OPod (pod : Pod) (nodeName : string)       (* [nodeName] is Spec.NodeName *)
| OOther.

Inductive watchEvent : Type :=
| CreateEvent (o : Object)
| UpdateEvent (old new : Object)
| DeleteEvent (o : Object)
| GenericEvent (o : Object).

Definition GetDeletionTimestamp (o : Object) : option Time :=
  match o with
  | ONode n => n_DeletionTimestamp n
  | OPlan p => p_DeletionTimestamp p
  | OPod p _ => pod_DeletionTimestamp p
  | OOther => None
  end.

(** The object of an event a predicate function sees: the new one of an update. *)
Definition eventObject (e : watchEvent) : Object :=
  match e with CreateEvent o | UpdateEvent _ o | DeleteEvent o | GenericEvent o => o end.

(** The objects a map function is run on. *)
Definition eventObjects (e : watchEvent) : list Object :=
  match e with CreateEvent o | DeleteEvent o | GenericEvent o => [o] | UpdateEvent old new => [old; new] end.

(** controller-runtime's predicates and handlers, and what it documents of them:
    [GenerationChangedPredicate] skips updates without a change of
    metadata.generation, [NewPredicateFuncs] applies a filter to the object of
    every event, [Or] is the disjunction, and [EnqueueRequestsFromMapFunc] runs
    the map function on the objects of the event (both of an update) and
    enqueues what it returns. *)
Class WatchOps : Type := {
  GenerationChangedPredicate : watchEvent → bool;
  NewPredicateFuncs : (Object → bool) → watchEvent → bool;
  predicateOr : (watchEvent → bool) → (watchEvent → bool) → watchEvent → bool;
  EnqueueRequestsFromMapFunc : (Object → kprog (list string)) → watchEvent → kprog (list string)
}.

Class WatchLaws `{WatchOps} : Prop := {
  GenerationChanged_update old new :
    GenerationChangedPredicate (UpdateEvent (OPlan old) (OPlan new)) =
    negb (bool_decide (p_Generation old = p_Generation new));
  GenerationChanged_create o : GenerationChangedPredicate (CreateEvent o) = true;
  GenerationChanged_delete o : GenerationChangedPredicate (DeleteEvent o) = true;
  NewPredicateFuncs_object f e : NewPredicateFuncs f e = f (eventObject e);
  predicateOr_orb p q e : predicateOr p q e = p e || q e;
  EnqueueRequests_maps f e t rs : run (EnqueueRequestsFromMapFunc f e) t rs →
    ∀ o, o ∈ eventObjects e → ∃ t' rs', run (f o) t' rs' ∧ t' ⊆ t ∧ rs' ⊆ rs
}.

Section Watch.
Context `{SO : SelectorOps} {WO : WatchOps}.

(** [nodeMaintenancePredicates]; its casts to [*corev1.Node] are the patterns. *)
Definition nodeMaintenancePredicates (e : watchEvent) : bool :=
  match e with
  | CreateEvent _ => true
  | DeleteEvent _ => true
  | UpdateEvent (ONode oldNode) (ONode newNode) => nodeRelevantChange oldNode newNode
  | UpdateEvent _ _ => false
  | GenericEvent _ => false
  end.

(** [nodeToPlans] on any object. *)
Definition nodeToPlansObject (o : Object) : kprog (list string) :=
  match o with ONode node => nodeToPlans node | _ => Ret [] end.

(** ** SetupWithManager *)

(** The predicate of the plan watch: the generation changed, or it is going. *)
Definition planPredicate : watchEvent → bool :=
  predicateOr GenerationChangedPredicate
    (NewPredicateFuncs (λ obj, negb (IsZero (GetDeletionTimestamp obj)))).

(** The index function of pods, whose cast panics on anything else. *)
Definition podNodeName (obj : Object) : outcome (list string) :=
  match obj with OPod _ nodeName => OK [nodeName] | _ => Panic end.

(** What the builder is given. *)
Record controllerConfig : Type := MkControllerConfig {
  cc_Name : string;
  cc_MaxConcurrentReconciles : Z;
  cc_PlanPredicate : watchEvent → bool;
  cc_NodePredicate : watchEvent → bool;
  cc_NodeHandler : watchEvent → kprog (list string)
}.

(** The calls on the manager. *)
Inductive setupCall : Type :=
| SIndexField (field : string) (extract : Object → outcome (list string))
| SComplete (c : controllerConfig).

Definition setupResp (c : setupCall) : Type := option string.

Definition SetupWithManager : prog setupResp (outcome unit) :=
  Vis (SIndexField "spec.nodeName" podNodeName) (λ r : option string,
  match r with
  | Some err => Ret (Fail (ErrWrap "indexing pods by node name" (ErrNew err)))
  | None =>
      Vis (SComplete (MkControllerConfig "nodemaintenanceplan" 10 planPredicate
             nodeMaintenancePredicates (EnqueueRequestsFromMapFunc nodeToPlansObject)))
        (λ r : option string,
      match r with
      | Some err => Ret (Fail (ErrNew err))
      | None => Ret (OK tt)
      end)
  end).
End Watch.

Arguments setupCall : clear implicits.

(** ** Wake-ups *)

Section Wake.
Context `{SO : SelectorOps} {WO : WatchOps} {WL : WatchLaws}.

(** An update that leaves what the reconcile of [plan] goes by: ownership, cordon,
    labels, drift and, under an owner, readiness. *)
Definition sameToPlan (plan : NodeMaintenancePlan) (old new : Node) : Prop :=
  owner new = owner old ∧ n_Unschedulable new = n_Unschedulable old ∧ n_Labels new = n_Labels old ∧
  DetectNodeDrift (Some new) plan = DetectNodeDrift (Some old) plan ∧
  (owner old ≠ "" → isNodeReady new = isNodeReady old).

(** A node the plan manages, names, or selects by the labels it has. *)
Definition nodeOfPlan (plan : NodeMaintenancePlan) (n : Node) : Prop :=
  owner n = p_Name plan ∨ n_Name n ∈ s_Nodes (p_Spec plan) ∨
  ∃ selector matches, s_NodeSelector (p_Spec plan) = Some selector ∧
    LabelSelectorAsSelector selector = inr matches ∧ matches (n_Labels n) = true.

Lemma nodeRelevantToPlan_iff plan n : nodeRelevantToPlan n plan = true ↔ nodeOfPlan plan n.
Proof.
  unfold nodeRelevantToPlan, nodeOfPlan. destruct (decide (owner n = p_Name plan)) as [Ho|Ho]; [by split; [left|]|].
  destruct (existsb _ _) eqn:Hex.
  { split; [|done]. intros _. right; left. apply existsb_exists in Hex as (name & Hin & Hn).
    apply bool_decide_eq_true in Hn. subst name. by apply list_elem_of_In. }
  assert (n_Name n ∉ s_Nodes (p_Spec plan)) as Hnin.
  { intros Hin. apply not_true_iff_false in Hex. apply Hex, existsb_exists. exists (n_Name n).
    split; [by apply list_elem_of_In|by apply bool_decide_eq_true_2]. }
  destruct (s_NodeSelector (p_Spec plan)) as [sel|] eqn:Hsel.
  2: { split; [done|]. by intros [?|[?|(? & ? & ? & _)]]. }
  split.
  - destruct (LabelSelectorAsSelector sel) as [e|f] eqn:Hs; [done|]. intros Hf. right; right. by exists sel, f.
  - intros [?|[?|(sel' & f & [= <-] & -> & Hf)]]; done.
Qed.

(** The node events a plan has to be reconciled for: a node of the plan comes or
    goes, or an update changes something the reconcile goes by. *)
Definition concerns (plan : NodeMaintenancePlan) (e : watchEvent) : Prop :=
  match e with
  | CreateEvent (ONode n) | DeleteEvent (ONode n) => nodeOfPlan plan n
  | UpdateEvent (ONode old) (ONode new) =>
      n_Name new = n_Name old ∧ ¬ sameToPlan plan old new ∧
      (nodeOfPlan plan old ∨ nodeOfPlan plan new)
  | _ => False
  end.

Lemma concerns_passes plan e :
  p_Name plan ≠ "" → concerns plan e → nodeMaintenancePredicates e = true.
Proof.
  intros Hne. destruct e as [o|[old| | |] [new| | |]|o|o]; cbn; try done.
  intros (Hname & Hdiff & _). destruct (nodeRelevantChange old new) eqn:Hc; [done|].
  destruct Hdiff. by apply (nodeRelevantChange_same old new plan) in Hc as (?&?&?&?&?&?).
Qed.

(** The plans of the list that a node is relevant to are requested. *)
Lemma nodeToPlans_requests plan node t rs :
  run (nodeToPlans node) t rs → nodeRelevantToPlan node plan = true →
  (∀ r, Ev CListPlans r ∈ t → ∃ plans, r = inr plans ∧ plan ∈ plans) → p_Name plan ∈ rs.
Proof.
  intros (r & t' & -> & Hrun) Hrel Hlist.
  destruct (Hlist r (list_elem_of_here _ _)) as (plans & -> & Hin). destruct Hrun as [-> ->].
  apply list_elem_of_fmap. exists plan. split; [done|]. by apply list_elem_of_filter.
Qed.

(** The relevant node of an event that concerns a plan is one of its objects. *)
Lemma concerns_object plan e :
  concerns plan e → ∃ node, ONode node ∈ eventObjects e ∧ nodeOfPlan plan node.
Proof.
  destruct e as [[]|[old| | |] [new| | |]|[]|]; cbn; try done.
  - intros H. exists node. split; [set_solver|done].
  - intros (_ & _ & [H|H]); [exists old|exists new]; (split; [set_solver|done]).
  - intros H. exists node. split; [set_solver|done].
Qed.

(** C17: no event of a node that is the plan's own, listed or selected is lost.  A set-up that succeeds has handed
    the manager one controller.  A node is the plan's here if it carries the plan's
    ownership annotation, is listed by name in its spec, or has labels that its
    selector matches.  Whenever such a node is created or deleted, or an update
    changes something the plan's reconcile goes by (its owner, cordon, labels, the
    drift verdict, the readiness of a managed node) and the node is the plan's
    before or after it, that controller's node predicate lets the event through and
    its handler asks for a reconcile of the plan, provided the list of plans could
    be read.  (A node that is only in the plan's selector snapshot, unowned and with
    labels that no longer match, is not the plan's in this sense: its events wake
    nobody, lemma snapshot_node_missed.) *)
Theorem SetupWithManager_wakes t :
  run SetupWithManager t (OK tt) →
  ∃ cfg, SComplete cfg ∈ ev_act <$> t ∧
    ∀ plan e t' rs, p_Name plan ≠ "" → concerns plan e →
      cc_NodePredicate cfg e = true ∧
      (run (cc_NodeHandler cfg e) t' rs →
       (∀ r, Ev CListPlans r ∈ t' → ∃ plans, r = inr plans ∧ plan ∈ plans) →
       p_Name plan ∈ rs).
Proof.
  intros (r & t1 & -> & Hrun). destruct r as [err|]; [by destruct Hrun|].
  destruct Hrun as (r & t2 & -> & Hrun). eexists. split; [apply list_elem_of_further, list_elem_of_here|].
  intros plan e t' rs Hne Hc. cbn [cc_NodePredicate cc_NodeHandler].
  split; [by eapply concerns_passes|]. intros Henq Hlist.
  destruct (concerns_object _ _ Hc) as (node & Hin & Hrel).
  destruct (EnqueueRequests_maps _ _ _ _ Henq _ Hin) as (t3 & rs' & Hmap & Ht & Hrs).
  apply Hrs. eapply nodeToPlans_requests; [exact Hmap|by apply nodeRelevantToPlan_iff|]. intros r' Hr'. by apply Hlist, Ht.
Qed.

(** Which plan events start a reconcile.  Plans that appear or go always do;
    an update does exactly when the generation (the spec) changed or the plan is
    being deleted.  So a deletion held by the finalizer is always seen, and the
    controller's own patches of status and finalizers never wake it up again. *)
Theorem SetupWithManager_plan_events t :
  run SetupWithManager t (OK tt) →
  ∃ cfg, SComplete cfg ∈ ev_act <$> t ∧
    (∀ o, cc_PlanPredicate cfg (CreateEvent o) = true) ∧
    (∀ o, cc_PlanPredicate cfg (DeleteEvent o) = true) ∧
    (∀ old new, cc_PlanPredicate cfg (UpdateEvent (OPlan old) (OPlan new)) = true ↔
       p_Generation old ≠ p_Generation new ∨ IsZero (p_DeletionTimestamp new) = false).
Proof.
  intros (r & t1 & -> & Hrun). destruct r as [err|]; [by destruct Hrun|].
  destruct Hrun as (r & t2 & -> & Hrun). eexists. split; [apply list_elem_of_further, list_elem_of_here|].
  cbn [cc_PlanPredicate]. unfold planPredicate. split_and!; intros *.
  - by rewrite predicateOr_orb, GenerationChanged_create.
  - by rewrite predicateOr_orb, GenerationChanged_delete.
  - rewrite predicateOr_orb, GenerationChanged_update, NewPredicateFuncs_object, orb_true_iff,
      !negb_true_iff, bool_decide_eq_false. done.
Qed.
End Wake.

(** ** Witnesses *)

(** controller-runtime's behaviour, without the removal of duplicate requests. *)
Fixpoint mapObjects (f : Object → kprog (list string)) (os : list Object) : kprog (list string) :=
  match os with
  | [] => Ret []
  | o :: os => pbind (f o) (λ rs, pbind (mapObjects f os) (λ rs', Ret (rs ++ rs')))
  end.

Definition generationChanged (e : watchEvent) : bool :=
  match e with
  | UpdateEvent (OPlan old) (OPlan new) => negb (bool_decide (p_Generation old = p_Generation new))
  | _ => true
  end.

#[local] Instance exampleWatch : WatchOps := {|
  GenerationChangedPredicate := generationChanged;
  NewPredicateFuncs f e := f (eventObject e);
  predicateOr p q e := p e || q e;
  EnqueueRequestsFromMapFunc f e := mapObjects f (eventObjects e)
|}.

Lemma mapObjects_run f os t rs :
  run (mapObjects f os) t rs →
  ∀ o, o ∈ os → ∃ t' rs', run (f o) t' rs' ∧ t' ⊆ t ∧ rs' ⊆ rs.
Proof.
  revert t rs. induction os as [|o' os IH]; intros t rs Hrun o Hin; [by apply elem_of_nil in Hin|].
  apply run_bind in Hrun as (t1 & rs1 & t2 & -> & H1 & Hrun).
  apply run_bind in Hrun as (t3 & rs3 & t4 & -> & H3 & [-> ->]). rewrite app_nil_r.
  apply elem_of_cons in Hin as [->|Hin].
  - exists t1, rs1. split_and!; [done|set_solver|set_solver].
  - destruct (IH _ _ H3 o Hin) as (t' & rs' & ? & ? & ?). exists t', rs'.
    split_and!; [done|set_solver|set_solver].
Qed.

#[local] Instance exampleWatch_laws : WatchLaws.
Proof. split; try done. intros f e t rs Hrun. by apply mapObjects_run. Qed.

#[local] Instance noSelectors : SelectorOps := {| LabelSelectorAsSelector := λ _, inr (λ _, false) |}.

Definition setupTrace : list (event setupResp) :=
  (interp (λ c (w : unit), (None : setupResp c, w)) SetupWithManager tt).1.1.

Lemma setupTrace_run : run SetupWithManager setupTrace (OK tt).
Proof.
  by eapply (interp_run (λ c (w : unit), (None : setupResp c, w)) SetupWithManager tt _ _ tt).
Qed.

(** Somebody uncordons a node of the plan: the plan is requested. *)
Lemma SetupWithManager_wakes_witness :
  let plan := examplePlan [] in
  let old := ownedNode "plan-a" "n1" in
  let new := MkNode "n1" (n_Labels old) (n_Annotations old) None (negb (n_Unschedulable old)) (n_Conditions old) in
  let e := UpdateEvent (ONode old) (ONode new) in
  concerns plan e ∧
  ∃ cfg, SComplete cfg ∈ ev_act <$> setupTrace ∧ cc_NodePredicate cfg e = true.
Proof.
  intros plan old new e.
  assert (concerns plan e) as Hc.
  { split; [done|]. split; [by intros (_ & [=] & _)|left; left; by vm_compute]. }
  split; [exact Hc|].
  destruct (SetupWithManager_wakes setupTrace setupTrace_run) as (cfg & Hin & Hwake).
  exists cfg. split; [exact Hin|].
  exact (proj1 (Hwake plan e [] [] ltac:(discriminate) Hc)).
Defined.

(** A node of the selector's snapshot whose labels have changed since: when another
    plan lets go of it, the predicate passes the event on but no plan is asked for. *)
Lemma snapshot_node_missed :
  let plan := updStatus (λ s, set_ps_NodeSnapshotTaken true (set_ps_ResolvedNodes ["n1"] s))
    (MkNodeMaintenancePlan "plan-a" "" 1 None []
       (MkNodeMaintenancePlanSpec [] (Some (MkLabelSelector [] [])) "" None None) zeroPlanStatus) in
  let old := ownedNode "plan-b" "n1" in
  let new := MkNode "n1" None None None false (n_Conditions old) in
  n_Name new ∈ ps_ResolvedNodes (p_Status plan) ∧ nodeMaintenancePredicates (UpdateEvent (ONode old) (ONode new)) = true ∧
  ∀ node, node ∈ [old; new] →
    (interp (tableEnv (MkTables [] (λ _, []) [] [plan] (λ _, None) 0)) (nodeToPlans node) tt).1 =
    ([Ev (Res:=resp) CListPlans (inr [plan])], []).
Proof.
  cbn zeta. split; [apply list_elem_of_here|]. split; [by vm_compute|].
  intros node Hin. apply elem_of_cons in Hin as [->| ->%list_elem_of_singleton]; by vm_compute.
Qed.

Lemma SetupWithManager_plan_events_witness :
  ∃ cfg, SComplete cfg ∈ ev_act <$> setupTrace ∧
    cc_PlanPredicate cfg (UpdateEvent (OPlan (examplePlan [])) (OPlan deletedPlan)) = true.
Proof.
  destruct (SetupWithManager_plan_events setupTrace setupTrace_run) as (cfg & Hin & _ & _ & Hupd).
  exists cfg. split; [exact Hin|]. apply Hupd. right. reflexivity.
Defined.
