(* ===== verification/Cluster.v ===== *)
(** * Many plans on one cluster

    The other files reason about one pass against an environment that answers
    anything.  Here the passes of all plans run at once, call by call, against
    one API server that keeps the plans and the nodes and caches of both that may
    be out of date ([serveFrom]), with users and other controllers changing plans
    and nodes in between ([others]), passes starting, ending and crashing and the
    caches changing at any point ([cstep]).  The theorem is about every reachable
    state: no node is left in the name of a plan that is gone, as long as the
    caches show a pass what it takes for granted ([caughtUp]).  The theorem about
    one deletion reads from caches that are up to date ([serve]). *)
From S2P Require Import Prelude GoTime Api Prog Threads Kube Drift Conditions.
From S2P Require Import Schedule Filters Cordon Ownership DrainNode DrainStatus DrainPool DrainReconcile.
From S2P Require Import Status Preview Reconcile Controller Pass.

(** ** The API server *)

Record cluster : Type := MkCluster {
  cl_plans : gmap string NodeMaintenancePlan;
  cl_nodes : gmap string Node
}.

(** A merge patch of a string map, by key: [Some v] sets, [None] deletes. *)
Definition mapDiff (original modified : gmap string string) : gmap string (option string) :=
  merge (λ o m, if decide (o = m) then None else Some m) original modified.

(** [client.MergeFrom(original)] applied by the server to its own copy.  A map
    that has become empty is absent from the modified JSON, so the patch deletes
    the whole map, what others have added since included. *)
Definition mergeStrmap (original modified current : strmap) : strmap :=
  let o := default ∅ original in
  let m := default ∅ modified in
  if decide (m = ∅) then (if decide (o = ∅) then current else None)
  else Some (merge (λ d c, match d with Some v => v | None => c end) (mapDiff o m) (default ∅ current)).

(** The fields the operator writes, merged; the others stay the server's. *)
Definition mergeNode (original modified current : Node) : Node :=
  MkNode (n_Name current)
    (mergeStrmap (n_Labels original) (n_Labels modified) (n_Labels current))
    (mergeStrmap (n_Annotations original) (n_Annotations modified) (n_Annotations current))
    (n_DeletionTimestamp current)
    (if Bool.eqb (n_Unschedulable original) (n_Unschedulable modified)
     then n_Unschedulable current else n_Unschedulable modified)
    (n_Conditions current).

(** The patches of a plan outside its status change only the finalizers, which
    a merge patch replaces as a whole. *)
Definition mergePlan (original modified current : NodeMaintenancePlan) : NodeMaintenancePlan :=
  set_p_Finalizers (if decide (p_Finalizers original = p_Finalizers modified)
                    then p_Finalizers current else p_Finalizers modified) current.

Definition setNode (k : string) (n : Node) (σ : cluster) : cluster :=
  MkCluster (cl_plans σ) (<[k:=n]> (cl_nodes σ)).

(** An object in deletion goes with its last finalizer. *)
Definition storePlan (p : NodeMaintenancePlan) (σ : cluster) : cluster :=
  MkCluster
    (if negb (IsZero (p_DeletionTimestamp p)) && bool_decide (p_Finalizers p = [])
     then delete (p_Name p) (cl_plans σ) else <[p_Name p := p]> (cl_plans σ))
    (cl_nodes σ).

(** A write that is carried out. *)
Definition commits (σ : cluster) (e : event resp) (σ' : cluster) : Prop :=
  match e with
  | Ev (CPatchNode original m) (inr n') =>
      ∃ c, cl_nodes σ !! n_Name m = Some c ∧ n' = mergeNode original m c ∧ σ' = setNode (n_Name m) n' σ
  | Ev (CPatchPlan original m) (inr p') =>
      ∃ c, cl_plans σ !! p_Name m = Some c ∧ p' = mergePlan original m c ∧ σ' = storePlan p' σ
  | Ev (CPatchPlanStatus original m) (inr p') =>
      ∃ c status, cl_plans σ !! p_Name m = Some c ∧ p' = set_p_Status status c ∧ σ' = storePlan p' σ
  | _ => False
  end.

(** One request.  The manager's client writes to the server [σ] and reads from
    its caches [κ] (main.go, [mgr.GetClient()]), which may be behind: the plan and
    the list of all nodes are those of [κ].  A write that is answered with an
    error may have been carried out all the same; pods, selector lists, single
    nodes, clocks and the rest answer anything. *)
Definition serveFrom (κ σ : cluster) (e : event resp) (σ' : cluster) : Prop :=
  match e with
  | Ev (CGetPlan name) (inr p) => σ' = σ ∧ cl_plans κ !! name = Some p
  | Ev (CListNodes None None) (inr nodes) => σ' = σ ∧ nodes ≡ₚ (map_to_list (cl_nodes κ)).*2
  | Ev (CPatchNode original m) (inl _) =>
      σ' = σ ∨ ∃ n', commits σ (Ev (CPatchNode original m) (inr n')) σ'
  | Ev (CPatchPlan original m) (inl _) =>
      σ' = σ ∨ ∃ p', commits σ (Ev (CPatchPlan original m) (inr p')) σ'
  | Ev (CPatchPlanStatus original m) (inl _) =>
      σ' = σ ∨ ∃ p', commits σ (Ev (CPatchPlanStatus original m) (inr p')) σ'
  | Ev (CPatchNode _ _) _ | Ev (CPatchPlan _ _) _ | Ev (CPatchPlanStatus _ _) _ => commits σ e σ'
  | _ => σ' = σ
  end.

(** A request while the caches are up to date. *)
Definition serve (σ : cluster) : event resp → cluster → Prop := serveFrom σ σ.

(** Objects are stored under their names. *)
Definition keyed (σ : cluster) : Prop :=
  (∀ k n, cl_nodes σ !! k = Some n → n_Name n = k) ∧
  (∀ k p, cl_plans σ !! k = Some p → p_Name p = k).

(** ** The system *)
Section Cluster.
Context `{SO : SelectorOps} `{CO : ConditionOps} `{FL : FinalizerLaws}.

(** The plan exists and has the operator's finalizer. *)
Definition guarded (P : string) (σ : cluster) : Prop :=
  ∃ p, cl_plans σ !! P = Some p ∧ ContainsFinalizer (p_Finalizers p) finalizerName = true.

(** Everybody else: nodes and plans come, change and go, but nobody makes a node
    a plan's, and nobody takes the operator's finalizer off. *)
Definition others (σ σ' : cluster) : Prop :=
  keyed σ' ∧ (∀ P, guarded P σ → guarded P σ') ∧
  ∀ k n', cl_nodes σ' !! k = Some n' → owner n' ≠ "" →
    ∃ n, cl_nodes σ !! k = Some n ∧ owner n = owner n'.

(** What a pass of [P] takes for granted about the caches it reads from.  At its
    start: a plan that has the finalizer in the cache has it on the server.  When
    it lists all nodes: the nodes that are the plan's on the server are the
    plan's in the cache.  Anything else may be out of date. *)
Definition caughtUp (P : string) (κ σ : cluster) (c : call) : Prop :=
  match c with
  | CGetPlan _ => guarded P κ → guarded P σ
  | CListNodes None None => ∀ k n, cl_nodes σ !! k = Some n → owner n = P →
      ∃ n', cl_nodes κ !! k = Some n' ∧ owner n' = P
  | _ => True
  end.

Record system : Type := MkSystem {
  sy_cache : cluster;
  sy_server : cluster;
  sy_passes : gmap string (kprog (outcome Duration))
}.

(** At most one pass per plan, as the work queue and the leader election see to.
    [cs_end] is a return as well as a crash; [cs_cache] replaces the caches by any
    others, older or newer; [fresh] restricts the caches a request may be
    answered from. *)
Inductive cstep (fresh : string → cluster → cluster → call → Prop) : system → system → Prop :=
| cs_start κ σ ps P :
    P ≠ "" → ps !! P = None → cstep fresh (MkSystem κ σ ps) (MkSystem κ σ (<[P := Reconcile P]> ps))
| cs_call κ σ ps P c k (r : resp c) σ' :
    ps !! P = Some (Vis c k) → fresh P κ σ c → serveFrom κ σ (Ev c r) σ' →
    cstep fresh (MkSystem κ σ ps) (MkSystem κ σ' (<[P := k r]> ps))
| cs_end κ σ ps P : cstep fresh (MkSystem κ σ ps) (MkSystem κ σ (delete P ps))
| cs_cache κ σ ps κ' : keyed κ' → cstep fresh (MkSystem κ σ ps) (MkSystem κ' σ ps)
| cs_others κ σ ps σ' : others σ σ' → cstep fresh (MkSystem κ σ ps) (MkSystem κ σ' ps).

(** Every owned node has a plan that will clean up after it. *)
Definition noOrphans (σ : cluster) : Prop :=
  ∀ k n, cl_nodes σ !! k = Some n → owner n ≠ "" → guarded (owner n) σ.

(** ** Facts about the server *)

Lemma mapDiff_lookup o m k :
  mapDiff o m !! k = if decide (o !! k = m !! k) then None else Some (m !! k).
Proof.
  unfold mapDiff. rewrite lookup_merge. destruct (o !! k), (m !! k); cbn; try done; by repeat case_decide.
Qed.

Lemma default_lookup (m : strmap) k : default ∅ m !! k = m ≫= lookup k.
Proof. by destruct m; [|apply lookup_empty]. Qed.

(** Each key is the server's or the patch's, or the whole map is gone. *)
Lemma mergeStrmap_lookup o m c k :
  mergeStrmap o m c ≫= lookup k = (if decide (o ≫= lookup k = m ≫= lookup k) then c ≫= lookup k
                                   else m ≫= lookup k) ∨
  mergeStrmap o m c = None.
Proof.
  unfold mergeStrmap. rewrite <-!default_lookup.
  destruct (decide (default ∅ m = ∅)) as [Em|Em]; [destruct (decide (default ∅ o = ∅)) as [Eo|Eo]|].
  - left. rewrite Em, Eo. by rewrite decide_True.
  - by right.
  - left. cbn. rewrite lookup_merge, mapDiff_lookup.
    destruct (decide (default ∅ o !! k = default ∅ m !! k)); cbn; by destruct (default ∅ c !! k).
Qed.

(** Whose the node is after a patch. *)
Lemma mergeNode_owner o m c :
  let managedBy n := n_Annotations n ≫= lookup ManagedByAnnotation in
  owner (mergeNode o m c) = "" ∨
  owner (mergeNode o m c) = if decide (managedBy o = managedBy m) then owner c else owner m.
Proof.
  cbn zeta. unfold owner at 1 2, mapGet. cbn [mergeNode n_Annotations].
  destruct (mergeStrmap_lookup (n_Annotations o) (n_Annotations m) (n_Annotations c)
    ManagedByAnnotation) as [->| ->]; [right|by left].
  by case_decide.
Qed.

Lemma managedBy_owner n P :
  P ≠ "" → owner n = P ↔ n_Annotations n ≫= lookup ManagedByAnnotation = Some P.
Proof.
  intros HP. unfold owner, mapGet. destruct (n_Annotations n ≫= lookup ManagedByAnnotation); cbn;
    split; congruence.
Qed.

Lemma mergeNode_own P o m c :
  ownPatch P o m → let n := mergeNode o m c in owner n = "" ∨ owner n = owner c ∨ owner n = P.
Proof.
  intros [_ Hown]. cbn zeta. destruct (mergeNode_owner o m c) as [?| ->]; [by left|].
  case_decide; [by right; left|]. destruct Hown as [[_ ->]|[_ [-> | ->]]]; auto.
Qed.

Lemma mergeNode_uncordon n c :
  let n' := mergeNode n (uncordonMutation n) c in owner n' = "" ∨ owner n' = owner c.
Proof.
  cbn zeta. destruct (mergeNode_owner n (uncordonMutation n) c) as [?|Heq]; [by left|right].
  rewrite decide_True in Heq; [done|]. cbn. destruct (n_Annotations n) as [a|]; [|done]. cbn.
  by rewrite lookup_delete_ne.
Qed.

Lemma mergeNode_release n c :
  owner n ≠ "" → owner (mergeNode n (releaseMutation n) c) = "".
Proof.
  intros Hn. destruct (mergeNode_owner n (releaseMutation n) c) as [?|Heq]; [done|].
  assert (n_Annotations (releaseMutation n) ≫= lookup ManagedByAnnotation = None) as Hm.
  { cbn. destruct (n_Annotations n) as [a|]; [|done]. cbn.
    rewrite !lookup_delete_ne by done. by rewrite lookup_delete_eq. }
  rewrite Hm, decide_False in Heq.
  - rewrite Heq. unfold owner, mapGet. by rewrite Hm.
  - intros Hnone. apply Hn. unfold owner, mapGet. by rewrite Hnone.
Qed.

(** Requests that leave plans and nodes alone. *)
Definition reading (c : call) : Prop :=
  match c with CPatchNode _ _ | CPatchPlan _ _ | CPatchPlanStatus _ _ => False | _ => True end.

#[local] Instance reading_dec c : Decision (reading c).
Proof. destruct c; apply _. Defined.

Lemma serveFrom_reading κ σ c (r : resp c) σ' : reading c → serveFrom κ σ (Ev c r) σ' → σ' = σ.
Proof.
  destruct c as [| sel lim | | | | | | | | | | | | | | |]; try done.
  - destruct sel, lim, r; cbn; tauto.
  - destruct r; cbn; tauto.
Qed.

Lemma setNode_lookup k n σ k' n' :
  cl_nodes (setNode k n σ) !! k' = Some n' →
  (k' = k ∧ n' = n) ∨ (k' ≠ k ∧ cl_nodes σ !! k' = Some n').
Proof. cbn. rewrite lookup_insert_Some. naive_solver. Qed.

Lemma serve_reading σ c (r : resp c) σ' : reading c → serve σ (Ev c r) σ' → σ' = σ.
Proof. apply serveFrom_reading. Qed.

(** Writes go to the server, whatever the caches hold. *)
Lemma serveFrom_writing κ σ c (r : resp c) σ' :
  ¬ reading c → serveFrom κ σ (Ev c r) σ' → serve σ (Ev c r) σ'.
Proof. destruct c; intros Hr; try (by destruct Hr); done. Qed.

(** What a write does, answered or not. *)
Lemma serve_patchNode σ o m r σ' :
  serve σ (Ev (CPatchNode o m) r) σ' →
  (σ' = σ ∧ ∃ e, r = inl e) ∨ ∃ c, cl_nodes σ !! n_Name m = Some c ∧
    σ' = setNode (n_Name m) (mergeNode o m c) σ ∧ ∀ n', r = inr n' → n' = mergeNode o m c.
Proof.
  destruct r as [e|n']; cbn.
  - intros [->|(n' & c & Hc & -> & ->)]; [left; eauto|right]. exists c. by split_and!.
  - intros (c & Hc & -> & ->). right. exists c. split_and!; [done..|]. by intros n' [= <-].
Qed.

Lemma serve_patchPlan σ o m r σ' :
  serve σ (Ev (CPatchPlan o m) r) σ' →
  (σ' = σ ∧ ∃ e, r = inl e) ∨ ∃ c, cl_plans σ !! p_Name m = Some c ∧
    σ' = storePlan (mergePlan o m c) σ ∧ ∀ p', r = inr p' → p' = mergePlan o m c.
Proof.
  destruct r as [e|n']; cbn.
  - intros [->|(n' & c & Hc & -> & ->)]; [left; eauto|right]. exists c. by split_and!.
  - intros (c & Hc & -> & ->). right. exists c. split_and!; [done..|]. by intros n' [= <-].
Qed.

Lemma serve_patchPlanStatus σ o m r σ' :
  serve σ (Ev (CPatchPlanStatus o m) r) σ' →
  (σ' = σ ∧ ∃ e, r = inl e) ∨ ∃ c status, cl_plans σ !! p_Name m = Some c ∧
    σ' = storePlan (set_p_Status status c) σ ∧ ∀ p', r = inr p' → p' = set_p_Status status c.
Proof.
  destruct r as [e|n']; cbn.
  - intros [->|(n' & c & s & Hc & -> & ->)]; [left; eauto|right]. exists c, s. by split_and!.
  - intros (c & s & Hc & -> & ->). right. exists c, s. split_and!; [done..|]. by intros n' [= <-].
Qed.

Lemma storePlan_other p σ Q : Q ≠ p_Name p → guarded Q σ → guarded Q (storePlan p σ).
Proof.
  intros HQ (q & Hq & Hf). exists q. split; [|done]. cbn.
  case_match; [by rewrite lookup_delete_ne|by rewrite lookup_insert_ne].
Qed.

Lemma storePlan_guarded p σ :
  ContainsFinalizer (p_Finalizers p) finalizerName = true → guarded (p_Name p) (storePlan p σ).
Proof.
  intros Hf. exists p. split; [|done]. cbn. rewrite (bool_decide_eq_false_2 (p_Finalizers p = [])).
  - by rewrite andb_false_r, lookup_insert_eq.
  - intros He. rewrite He in Hf. by rewrite contains_nil in Hf.
Qed.

Lemma keyed_storePlan p σ : keyed σ → keyed (storePlan p σ).
Proof.
  intros [Hn Hp]. split; [done|]. cbn. intros k q. case_match.
  - rewrite lookup_delete_Some. intros [_ Hq]. by apply Hp.
  - rewrite lookup_insert_Some. intros [[<- <-]|[_ Hq]]; [done|by apply Hp].
Qed.

Lemma keyed_setNode k n σ : n_Name n = k → keyed σ → keyed (setNode k n σ).
Proof.
  intros Hk [Hn Hp]. split; [|done]. intros k' n' Hl.
  apply setNode_lookup in Hl as [[-> ->]|[_ Hl]]; [done|by apply Hn].
Qed.

Lemma serveFrom_keyed κ σ e σ' : keyed σ → serveFrom κ σ e σ' → keyed σ'.
Proof.
  intros Hk. destruct e as [c r]. intros Hsv.
  destruct (decide (reading c)) as [Hr|Hr]; [by rewrite (serveFrom_reading _ _ _ _ _ Hr Hsv)|].
  apply serveFrom_writing in Hsv; [|done].
  destruct c; try (by destruct Hr; exact I).
  - apply serve_patchNode in Hsv as [[-> _]|(c & Hc & -> & _)]; [done|].
    apply keyed_setNode; [exact (proj1 Hk _ _ Hc)|done].
  - apply serve_patchPlan in Hsv as [[-> _]|(c & Hc & -> & _)]; [done|by apply keyed_storePlan].
  - apply serve_patchPlanStatus in Hsv as [[-> _]|(c & s & Hc & -> & _)]; [done|by apply keyed_storePlan].
Qed.

Lemma serve_keyed σ e σ' : keyed σ → serve σ e σ' → keyed σ'.
Proof. apply serveFrom_keyed. Qed.

(** ** What a pass may do, and what it may count on *)

Definition unownedBy (P k : string) (σ : cluster) : Prop :=
  ∀ n, cl_nodes σ !! k = Some n → owner n ≠ P.

(** Seen from the pass of [P], whoever else moves: its finalizer stays, and no
    node becomes [P]'s. *)
Definition evolves (P : string) (σ σ' : cluster) : Prop :=
  (guarded P σ → guarded P σ') ∧ ∀ k, unownedBy P k σ → unownedBy P k σ'.

(** What the pass of [P] owes to the others: it makes nodes its own only while
    its plan is guarded, leaves the other plans' finalizers alone, and takes its
    own off only when no node is its any more. *)
Definition careful (P : string) (σ σ' : cluster) : Prop :=
  (∀ k n', cl_nodes σ' !! k = Some n' →
     owner n' = "" ∨ (∃ n, cl_nodes σ !! k = Some n ∧ owner n' = owner n) ∨
     (owner n' = P ∧ guarded P σ')) ∧
  (∀ Q, Q ≠ P → guarded Q σ → guarded Q σ') ∧
  (guarded P σ → guarded P σ' ∨ ∀ k, unownedBy P k σ').

#[local] Instance evolves_preorder P : PreOrder (evolves P).
Proof.
  split; [by intros σ|]. intros σ1 σ2 σ3 [H1 H2] [H3 H4]. split; auto.
Qed.

Lemma others_evolves P σ σ' : P ≠ "" → others σ σ' → evolves P σ σ'.
Proof.
  intros HP (_ & Hg & Hn). split; [apply Hg|]. intros k Hu n' Hk Ho.
  destruct (Hn k n' Hk) as (n & Hk' & Ho'); [congruence|]. apply (Hu n Hk'). congruence.
Qed.

Lemma careful_evolves P Q σ σ' : Q ≠ "" → Q ≠ P → careful P σ σ' → evolves Q σ σ'.
Proof.
  intros HQ HPQ (Hn & Hg & _). split; [by apply Hg|]. intros k Hu n' Hk Ho.
  destruct (Hn k n' Hk) as [?|[(n & Hk' & Ho')|[? _]]]; [congruence| |congruence].
  apply (Hu n Hk'). congruence.
Qed.

Lemma careful_refl P σ : careful P σ σ.
Proof. split_and!; [|done|by left]. intros k n Hk. right. left. by exists n. Qed.

Lemma careful_noOrphans P σ σ' : noOrphans σ → careful P σ σ' → noOrphans σ'.
Proof.
  intros Ho (Hn & Hg & HgP) k n' Hk Hne.
  destruct (Hn k n' Hk) as [?|[(n & Hk' & Heq)|[-> ?]]]; [congruence| |done].
  rewrite Heq in *. specialize (Ho k n Hk' Hne).
  destruct (decide (owner n = P)) as [HP|HP]; [|by apply Hg]. rewrite HP in *.
  destruct (HgP Ho) as [?|Hu]; [done|]. by destruct (Hu k n' Hk).
Qed.

Lemma others_noOrphans σ σ' : noOrphans σ → others σ σ' → noOrphans σ'.
Proof.
  intros Ho (_ & Hg & Hn) k n' Hk Hne. destruct (Hn k n' Hk Hne) as (n & Hk' & Heq).
  rewrite <-Heq in *. by apply Hg, (Ho k).
Qed.

(** ** After the finalizer

    From the moment the plan is guarded, a pass that respects ownership and
    leaves the plan's metadata alone is careful whatever else it does. *)
Lemma serveFrom_keepsNames κ σ c (r : resp c) σ' :
  keyed σ → serveFrom κ σ (Ev c r) σ' → keepsNames c r.
Proof.
  intros [Hn Hp] Hsv. destruct c; try done; cbn [keepsNames]; intros x ->.
  - destruct Hsv as (c & Hc & -> & _). by apply Hn in Hc.
  - destruct Hsv as (c & Hc & -> & _). by apply Hp in Hc.
  - destruct Hsv as (c & s & Hc & -> & _). by apply Hp in Hc.
Qed.

Lemma serve_keepsNames σ c (r : resp c) σ' : keyed σ → serve σ (Ev c r) σ' → keepsNames c r.
Proof. apply serveFrom_keepsNames. Qed.

Definition noPlanPatch : guar call := λ c, match c with CPatchPlan _ _ => False | _ => True end.

Lemma careful_setNode P o m c σ :
  cl_nodes σ !! n_Name m = Some c → ownPatch P o m → guarded P σ →
  careful P σ (setNode (n_Name m) (mergeNode o m c) σ).
Proof.
  intros Hc Hown Hg. split_and!; [|done|by left]. intros k n' Hk.
  apply setNode_lookup in Hk as [[-> ->]|[_ Hk]]; [|right; left; by exists n'].
  destruct (mergeNode_own P o m c Hown) as [?|[?|?]]; [by left|right; left; by exists c|by right; right].
Qed.

Lemma guarded_storeStatus m c s Q σ :
  keyed σ → cl_plans σ !! p_Name m = Some c → guarded Q σ → guarded Q (storePlan (set_p_Status s c) σ).
Proof.
  intros [_ Hp] Hc Hg. pose proof (Hp _ _ Hc) as Hname.
  destruct (decide (Q = p_Name (set_p_Status s c))) as [->|Hne]; [|by apply storePlan_other].
  apply storePlan_guarded. destruct Hg as (q & Hq & Hf). cbn in Hq |- *. congruence.
Qed.

Section OnePass.
Context (P : string) (HP : P ≠ "").

(** A call of the pass is careful, given that its node patches respect ownership. *)
Definition dutiful (σ : cluster) (e : event resp) (σ' : cluster) : Prop :=
  ownPatches P (ev_act e) → careful P σ σ'.

(** A request of the pass, answered from caches that have caught up. *)
Definition seen (σ : cluster) (e : event resp) (σ' : cluster) : Prop :=
  ∃ κ, keyed κ ∧ caughtUp P κ σ (ev_act e) ∧ serveFrom κ σ e σ'.

Abbreviation inPass := (tpM (evolves P) keyed seen dutiful).

Lemma seen_reading σ c (r : resp c) σ' : reading c → seen σ (Ev c r) σ' → σ' = σ.
Proof. intros Hc (κ & _ & _ & Hsv). by eapply serveFrom_reading. Qed.

Lemma seen_writing σ c (r : resp c) σ' : ¬ reading c → seen σ (Ev c r) σ' → serve σ (Ev c r) σ'.
Proof. intros Hc (κ & _ & _ & Hsv). by eapply serveFrom_writing. Qed.

Lemma seen_guarded σ c (r : resp c) σ' :
  guarded P σ → keyed σ → noPlanPatch c → seen σ (Ev c r) σ' →
  dutiful σ (Ev c r) σ' ∧ guarded P σ'.
Proof.
  intros Hg Hk Hc Hsv.
  destruct (decide (reading c)) as [Hr|Hr].
  { rewrite (seen_reading _ _ _ _ Hr Hsv). split; [intros _; apply careful_refl|done]. }
  apply seen_writing in Hsv; [|done].
  destruct c; try (by destruct Hr; exact I); [|done|].
  - apply serve_patchNode in Hsv as [[-> _]|(c & Hc' & -> & _)];
      [split; [intros _; apply careful_refl|done]|].
    split; [|done]. intros Hown. by apply careful_setNode.
  - apply serve_patchPlanStatus in Hsv as [[-> _]|(c & s & Hc' & -> & _)];
      [split; [intros _; apply careful_refl|done]|].
    assert (∀ Q, guarded Q σ → guarded Q (storePlan (set_p_Status s c) σ)) as Hst
      by (intros Q; by eapply guarded_storeStatus).
    split; [|by apply Hst]. intros _. split_and!; [|auto|auto].
    intros k n Hkn. right. left. by exists n.
Qed.

Lemma tpM_guarded {A} (m : M A) s σ :
  rgM anyAnswer noPlanPatch m s (λ _ _, True) → guarded P σ → inPass m s σ (λ _ _ _, True).
Proof.
  intros Hm Hg. eapply tp_mono; [eapply (tp_rg _ _ _ _ anyAnswer noPlanPatch (guarded P))|done];
    [by intros σ1 σ2 H1 [H2 _]; apply H2| |exact Hm|exact Hg].
  intros c r σ1 σ2 Hg1 Hk Hc Hsv. split; [done|]. by eapply seen_guarded.
Qed.

(** A read: the state may have moved before it, not under it. *)
Lemma tpM_read c s σ (Q : st → outcome (resp c) → cluster → Prop) :
  reading c →
  (∀ σ1 r, evolves P σ σ1 → keyed σ1 → seen σ1 (Ev c r) σ1 → Q s (OK r) σ1) →
  inPass (perform c) s σ Q.
Proof.
  intros Hc HQ σ1 He Hk r σ2 Hsv. pose proof (seen_reading _ _ _ _ Hc Hsv) as ->.
  split; [intros _; apply careful_refl|]. by apply HQ.
Qed.

(** A patch of a node while the plan is guarded. *)
Lemma tpM_patchNode l orig n s σ (Q : st → outcome unit → cluster → Prop) :
  st_heap s !! l = Some n → guarded P σ →
  (∀ s' e σ', Q s' (Fail e) σ') →
  (∀ σ1 c, evolves P σ σ1 → cl_nodes σ1 !! n_Name n = Some c →
     let n' := mergeNode orig n c in
     n_Name n' = n_Name n → Q (heapSet s l n') (OK tt) (setNode (n_Name n) n' σ1)) →
  inPass (patchNode l orig) s σ Q.
Proof.
  intros Hl Hg Hfail HQ. apply tpM_bind, tpM_silent, rgM_load; [|congruence].
  intros n0 Hn0. simplify_eq. apply tpM_bind. intros σ1 He Hk r σ2 Hsv.
  destruct (seen_guarded σ1 _ r σ2 ltac:(by apply He) Hk I Hsv) as [Hd _]. split; [exact Hd|].
  apply seen_writing in Hsv; [|by intros []].
  apply serve_patchNode in Hsv as [[-> [e ->]]|(c & Hc & -> & Hr)].
  { apply tpM_bind, tpM_silent. by apply rgM_throw. }
  destruct r as [e|n']; cbn [orThrow].
  { apply tpM_bind, tpM_silent. by apply rgM_throw. }
  rewrite (Hr n' eq_refl). apply tpM_bind, tpM_ret, tpM_silent, rgM_store.
  apply HQ; [done|done|]. exact (proj1 Hk _ _ Hc).
Qed.

(** ** Deletion *)

Lemma evolves_setNode k n c σ :
  cl_nodes σ !! k = Some c → owner n = "" ∨ owner n = owner c → evolves P σ (setNode k n σ).
Proof.
  intros Hc Ho. split; [done|]. intros k' Hu n' Hk.
  apply setNode_lookup in Hk as [[-> ->]|[_ Hk]]; [|by apply Hu].
  destruct Ho as [-> | ->]; [congruence|]. by apply Hu.
Qed.

Lemma unownedBy_setNode k n σ : owner n ≠ P → unownedBy P k (setNode k n σ).
Proof. intros Ho n' Hk. by apply setNode_lookup in Hk as [[_ ->]|[? _]]. Qed.

(** Uncordoning, and what the operator knows of the node afterwards. *)
Lemma tpM_UncordonNode l n s σ (Q : st → outcome bool → cluster → Prop) :
  st_heap s !! l = Some n → owner n = P → guarded P σ →
  (∀ s' e σ', Q s' (Fail e) σ') →
  (∀ b n' σ', evolves P σ σ' → n_Name n' = n_Name n →
     owner n' = P ∨ unownedBy P (n_Name n) σ' → Q (heapSet s l n') (OK b) σ') →
  inPass (UncordonNode l) s σ Q.
Proof.
  intros Hl Ho Hg Hfail HQ. unfold UncordonNode.
  eapply tpM_load_bind; [done|].
  destruct (negb (n_Unschedulable n) && negb (annotationPresent n)).
  { apply tpM_ret. rewrite <-(heapSet_id s l n Hl). by apply HQ; [|done|left]. }
  apply tpM_store_bind, tpM_bind.
  eapply tpM_patchNode; [by eapply heapSet_lookup|done|done|]. intros σ1 c He Hc n' Hn'.
  apply tpM_ret. rewrite heapSet_heapSet. change (n_Name (uncordonMutation n)) with (n_Name n) in *.
  pose proof (mergeNode_uncordon n c) as Hown. apply HQ; [|done|].
  - etrans; [exact He|]. by eapply evolves_setNode.
  - destruct (decide (owner n' = P)) as [?|Hne]; [by left|right]. by apply unownedBy_setNode.
Qed.

(** Releasing: whether or not the node is still the plan's, afterwards it is not. *)
Lemma tpM_ReleaseNode l n s σ (Q : st → outcome unit → cluster → Prop) :
  st_heap s !! l = Some n → p_Name (st_plan s) = P → guarded P σ →
  owner n = P ∨ unownedBy P (n_Name n) σ →
  (∀ s' e σ', Q s' (Fail e) σ') →
  (∀ n' σ', evolves P σ σ' → unownedBy P (n_Name n) σ' → Q (heapSet s l n') (OK tt) σ') →
  inPass (ReleaseNode l) s σ Q.
Proof.
  intros Hl Hp Hg Hor Hfail HQ. unfold ReleaseNode.
  apply tpM_getPlan_bind. eapply tpM_load_bind; [done|].
  assert (owner n ≠ P → inPass (mret tt) s σ Q) as Hskip.
  { intros Hne. apply tpM_ret. rewrite <-(heapSet_id s l n Hl).
    apply HQ; [done|]. by destruct Hor. }
  destruct (n_Annotations n) eqn:Ha; [|apply Hskip; by intros ?; apply (owner_annotated n); congruence].
  rewrite Hp. case_decide as Ho; [by apply Hskip|].
  apply tpM_store_bind.
  eapply tpM_patchNode; [by eapply heapSet_lookup|done|done|]. intros σ1 c He Hc n' Hn'.
  rewrite heapSet_heapSet. change (n_Name (releaseMutation n)) with (n_Name n) in *.
  assert (owner n' = "") as Hn'' by (apply mergeNode_release; congruence). apply HQ.
  - etrans; [exact He|]. eapply evolves_setNode; [exact Hc|by left].
  - apply unownedBy_setNode. congruence.
Qed.

Lemma tpM_Eventf related ty reason action note s σ (Q : st → outcome unit → cluster → Prop) :
  (∀ σ1, evolves P σ σ1 → Q s (OK tt) σ1) → inPass (Eventf related ty reason action note) s σ Q.
Proof.
  intros HQ. apply tpM_getPlan_bind, tpM_read; [done|].
  intros σ1 [] He _ _. by apply HQ.
Qed.

(** One round of the cleanup: the entry's node is not the plan's afterwards. *)
Lemma tpM_cleanUpNode e n s σ (Q : st → outcome unit → cluster → Prop) :
  st_heap s !! e.2 = Some n → owner n = P → p_Name (st_plan s) = P → guarded P σ →
  (∀ s' e σ', Q s' (Fail e) σ') →
  (∀ n' σ', evolves P σ σ' → unownedBy P (n_Name n) σ' → Q (heapSet s e.2 n') (OK tt) σ') →
  inPass (cleanUpNode e) s σ Q.
Proof.
  intros Hl Ho Hp Hg Hfail HQ. unfold cleanUpNode.
  eapply tpM_load_bind; [done|].
  apply tpM_bind, tpM_wrapErr. eapply tpM_UncordonNode; [done..|].
  intros b n1 σ1 He1 Hn1 Ho1. pose proof (heapSet_lookup s e.2 n1 n Hl) as Hl1.
  eapply tpM_load_bind; [done|].
  apply tpM_bind, tpM_wrapErr. eapply tpM_ReleaseNode; [done|done|by apply He1| |done|].
  { by rewrite Hn1. }
  intros n2 σ2 He2 Hu2. rewrite heapSet_heapSet.
  eapply tpM_load_bind; [by eapply heapSet_lookup|]. apply tpM_Eventf. intros σ3 He3. apply HQ.
  - etrans; [exact He1|]. by etrans.
  - rewrite <-Hn1. by apply He3.
Qed.

Lemma caughtUp_refl σ c : caughtUp P σ σ c.
Proof. destruct c as [|[] []| | | | | | | | | | | | | | | ]; cbn; eauto. Qed.

(** The loop: the nodes that are still the plan's are among the entries to come. *)
Definition cleaning (es : list (string * loc)) (s : st) (σ : cluster) : Prop :=
  guarded P σ ∧ p_Name (st_plan s) = P ∧ NoDup es.*2 ∧
  (∀ e, e ∈ es → ∃ n, st_heap s !! e.2 = Some n ∧ n_Name n = e.1 ∧ owner n = P) ∧
  (∀ k, k ∉ es.*1 → unownedBy P k σ).

Lemma tpM_cleanUpLoop es s σ :
  cleaning es s σ →
  inPass (rangeM es cleanUpNode) s σ (λ s' o σ', o = OK tt → cleaning [] s' σ').
Proof.
  revert s σ. induction es as [|e es IH]; intros s σ Hc; cbn [rangeM].
  { by apply tpM_ret. }
  destruct Hc as (Hg & Hp & Hnd & Hes & Hun). rewrite fmap_cons in Hnd.
  apply list.NoDup_cons in Hnd as [Hnin Hnd].
  destruct (Hes e (list_elem_of_here _ _)) as (n & Hn & Hname & Ho).
  apply tpM_bind. eapply tpM_cleanUpNode; [done..|]. intros n' σ' He Hu. apply IH.
  split_and!; [by apply He|done|done| |].
  - intros e' He'. destruct (Hes e' (list_elem_of_further _ _ _ He')) as (m & Hm & ?).
    exists m. split; [|done]. rewrite heapSet_lookup_ne; [done|].
    intros Heq. apply Hnin. rewrite Heq. by apply list_elem_of_fmap_2.
  - intros k Hk. destruct (decide (k = e.1)) as [->|Hne]; [by rewrite <-Hname|].
    apply He, Hun. rewrite fmap_cons. intros [?|?]%elem_of_cons; done.
Qed.

Lemma listed_names σ nodes :
  keyed σ → nodes ≡ₚ (map_to_list (cl_nodes σ)).*2 → NoDup (map n_Name nodes).
Proof.
  intros [Hk _] ->. rewrite <-list_fmap_compose.
  rewrite (list_fmap_ext _ fst); [apply NoDup_fst_map_to_list|].
  intros i [k n] Hi. apply list_elem_of_lookup_2, elem_of_map_to_list in Hi. by apply Hk.
Qed.

(** The entries made from a listing that misses none of the plan's nodes start
    the loop. *)
Lemma cleaning_init plan nodes es κ σ :
  p_Name plan = P → guarded P σ → keyed κ → caughtUp P κ σ (CListNodes None None) →
  nodes ≡ₚ (map_to_list (cl_nodes κ)).*2 →
  es ≡ₚ map_to_list (ownedMap P 0 nodes ∅) → cleaning es (MkSt plan nodes) σ.
Proof.
  intros Hp Hg Hk Hup Hnodes Hes. pose proof (listed_names _ _ Hk Hnodes) as Hnd.
  assert (NoDup es.*2) as Hnd2.
  { rewrite <-Hp in Hes. by destruct (halfCleaned_init plan nodes es Hnd Hes) as (_ & ? & _). }
  split_and!; [done|done|exact Hnd2| |].
  - intros [k l] He. rewrite Hes in He. apply elem_of_map_to_list in He.
    apply ownedMap_elem in He as [He|(i & n & Hi & Ho & Hn & ->)]; [by rewrite lookup_empty in He|].
    by exists n.
  - intros k Hkn n0 Hn0 Ho0. apply Hkn. destruct (Hup k n0 Hn0 Ho0) as (n & Hn & Ho).
    assert (n ∈ nodes) as Hin.
    { rewrite Hnodes. apply list_elem_of_fmap. exists (k, n). split; [done|].
      by apply elem_of_map_to_list. }
    apply list_elem_of_lookup in Hin as [l Hl]. apply list_elem_of_fmap. exists (k, l). split; [done|].
    rewrite Hes. apply elem_of_map_to_list. rewrite <-(proj1 Hk k n Hn). by apply (ownedMap_lookup _ 0).
Qed.

Lemma cleaning_evolves es s σ σ' : evolves P σ σ' → cleaning es s σ → cleaning es s σ'.
Proof.
  intros He (Hg & Hp & Hnd & Hes & Hun). split_and!; [by apply He|done..|].
  intros k Hk. by apply He, Hun.
Qed.

Lemma tpM_ResolveOwnedNodes plan σ (Q : st → outcome (gmap string loc) → cluster → Prop) :
  (∀ s' e σ', Q s' (Fail e) σ') →
  (∀ κ nodes σ1, evolves P σ σ1 → keyed κ → caughtUp P κ σ1 (CListNodes None None) →
     nodes ≡ₚ (map_to_list (cl_nodes κ)).*2 → Q (MkSt plan nodes) (OK (ownedMap P 0 nodes ∅)) σ1) →
  inPass (ResolveOwnedNodes P) (MkSt plan []) σ Q.
Proof.
  intros Hfail HQ. unfold ResolveOwnedNodes. apply tpM_bind, tpM_read; [done|].
  intros σ1 [e|nodes] He Hk Hsv; cbn [orThrow].
  { by apply tpM_bind, tpM_silent, rgM_wrapErr, rgM_throw. }
  destruct Hsv as (κ & Hκ & Hup & _ & Hnodes).
  apply tpM_bind, tpM_silent, rgM_wrapErr, rgM_ret, tpM_silent, rgM_indexOwned_exact. by apply (HQ κ).
Qed.

Lemma tpM_CleanUp plan σ :
  p_Name plan = P → guarded P σ →
  inPass CleanUp (MkSt plan []) σ (λ s' o σ', o = OK tt → cleaning [] s' σ').
Proof.
  intros Hp Hg. unfold CleanUp. apply tpM_getPlan_bind. cbn [st_plan]. rewrite Hp.
  apply tpM_bind, tpM_wrapErr, tpM_ResolveOwnedNodes; [done|]. intros κ nodes σ1 He1 Hκ Hup Hnodes.
  apply tpM_bind, tpM_bind, tpM_read; [done|]. intros σ2 i He2 _ _. apply tpM_ret.
  apply tpM_cleanUpLoop, (cleaning_evolves _ _ _ _ He2), (cleaning_init _ nodes _ κ);
    [done|by apply He1|done..|].
  destruct (permutations _ !! i) as [es|] eqn:Hes; [|done].
  by apply list_elem_of_lookup_2, permutations_Permutation in Hes.
Qed.

(** The patch of the plan's metadata, as the last thing of a pass. *)
Lemma tpM_patchPlan orig s σ (Q : st → outcome unit → cluster → Prop) :
  p_Name (st_plan s) = P →
  (∀ σ1 c, evolves P σ σ1 → keyed σ1 → cl_plans σ1 !! P = Some c →
     careful P σ1 (storePlan (mergePlan orig (st_plan s) c) σ1)) →
  (∀ s' e σ', Q s' (Fail e) σ') →
  (∀ σ1 c, evolves P σ σ1 → keyed σ1 → cl_plans σ1 !! P = Some c →
     Q (MkSt (mergePlan orig (st_plan s) c) (st_heap s)) (OK tt)
       (storePlan (mergePlan orig (st_plan s) c) σ1)) →
  inPass (patchPlan orig) s σ Q.
Proof.
  intros Hp Hcare Hfail HQ. apply tpM_getPlan_bind, tpM_bind.
  intros σ1 He Hk r σ2 Hsv. apply seen_writing in Hsv; [|by intros []].
  apply serve_patchPlan in Hsv as [[-> [e ->]]|(c & Hc & -> & Hr)].
  { split; [intros _; apply careful_refl|]. by apply tpM_bind, tpM_silent, rgM_throw. }
  rewrite Hp in Hc. split; [intros _; by apply Hcare|].
  destruct r as [e|p']; [by apply tpM_bind, tpM_silent, rgM_throw|].
  rewrite (Hr p' eq_refl). apply tpM_bind, tpM_ret, tpM_silent, rgM_setPlan.
  by apply HQ.
Qed.

Lemma careful_release p σ :
  p_Name p = P → (∀ k, unownedBy P k σ) → careful P σ (storePlan p σ).
Proof.
  intros <- Hu. split_and!.
  - intros k n Hk. right. left. by exists n.
  - intros Q HQ. by apply storePlan_other.
  - right. exact Hu.
Qed.

(** What the copy of the plan says about the server. *)
Abbreviation copyOf plan σ :=
  (ContainsFinalizer (p_Finalizers plan) finalizerName = true → guarded P σ).

Lemma tpM_handleDeletion plan σ :
  p_Name plan = P → copyOf plan σ →
  inPass handleDeletion (MkSt plan []) σ (λ _ _ _, True).
Proof.
  intros Hp Hplan. unfold handleDeletion. apply tpM_getPlan_bind. cbn [st_plan].
  destruct (ContainsFinalizer _ _) eqn:Hf; cbn [negb]; [|by apply tpM_ret].
  apply tpM_bind. eapply tpM_post; [apply tpM_CleanUp; [done|by apply Hplan]|].
  intros s1 o σ1 Hclean. destruct o as [[]|e|]; [|done..]. specialize (Hclean eq_refl).
  apply tpM_getPlan_bind, tpM_bind, tpM_read; [done|]. intros σ2 r He2 _ _.
  destruct (cleaning_evolves _ _ _ _ He2 Hclean) as (_ & Hp1 & _ & _ & Hu).
  apply tpM_modifyPlan_bind, tp_pbind.
  assert (∀ k, unownedBy P k σ2) as Hun by (intros k; apply Hu, not_elem_of_nil).
  eapply tp_mono; [eapply (tpM_patchPlan _ _ _ (λ _ _ _, True)); [done| |done|done]|done].
  intros σ3 c He3 Hk3 Hc. apply careful_release; [exact (proj2 Hk3 _ _ Hc)|].
  intros k. apply He3, Hun.
Qed.

Lemma tpM_ensureFinalizer plan σ :
  p_Name plan = P → copyOf plan σ →
  inPass ensureFinalizer (MkSt plan []) σ (λ _ o σ', o = OK tt → guarded P σ').
Proof.
  intros Hp Hplan. unfold ensureFinalizer. apply tpM_getPlan_bind. cbn [st_plan].
  destruct (ContainsFinalizer _ _) eqn:Hf.
  { apply tpM_ret. intros _. by apply Hplan. }
  apply tpM_modifyPlan_bind. cbn [st_plan st_heap].
  assert (∀ σ1 c, keyed σ1 → cl_plans σ1 !! P = Some c → guarded P (storePlan (mergePlan plan
    (set_p_Finalizers (AddFinalizer (p_Finalizers plan) finalizerName) plan) c) σ1)) as Hg.
  { intros σ1 c Hk Hc. rewrite <-(proj2 Hk _ _ Hc) at 1. apply (storePlan_guarded (mergePlan _ _ _)).
    cbn. rewrite decide_False; [apply contains_add|]. intros Heq. rewrite Heq in Hf.
    by rewrite contains_add in Hf. }
  apply tpM_patchPlan; [done| |done|].
  - intros σ1 c _ Hk Hc. split_and!; [| |left; by apply Hg].
    + intros k n Hn. right. left. by exists n.
    + intros Q HQ. apply storePlan_other. cbn. by rewrite (proj2 Hk _ _ Hc).
  - intros σ1 c _ Hk Hc _. by apply Hg.
Qed.
End OnePass.

(** ** The steps that leave the plan's metadata alone *)
Abbreviation planKept m := (preserves anyAnswer noPlanPatch (λ _, True) m).

Lemma planKept_rg {A} R G (m : M A) :
  (∀ s, rgM R G m s (λ _ _, True)) → (∀ c r, anyAnswer c r → R c r) → (∀ c, G c → noPlanPatch c) →
  planKept m.
Proof. intros Hm HR HG s _. by eapply rgM_mono. Qed.

Ltac planKept_tac :=
  keep_inv;
  lazymatch goal with
  | |- preserves _ _ _ (modifyPlan _) => by apply preserves_modifyPlan
  | |- preserves _ _ _ (setPlan _) => done
  | |- preserves _ _ _ (patchPlanStatus _) => by apply preserves_patchPlanStatus
  | |- preserves _ _ _ (liftProg _) => apply preserves_liftProg; auto
  | |- _ => auto
  end.

Lemma planKept_ComputeOwnershipResolution : planKept ComputeOwnershipResolution.
Proof.
  unfold ComputeOwnershipResolution, resolveDesired, resolveSnapshotNodes, resolveSelectorNodes,
    ResolveNodes, resolveExplicitNodes, resolveSelectorNodes, indexNode, ResolveOwnedNodes,
    indexOwnedNode, ComputeOwnership, classifyDesired, resolveSnapshotStep, resolveExplicitStep.
  planKept_tac.
Qed.

Lemma planKept_ReconcileOwnership res cordonNow : planKept (ReconcileOwnership res cordonNow).
Proof. unfold ReconcileOwnership, warnConflict, adoptStep, AdoptNode, patchNode. planKept_tac. Qed.

Lemma planKept_ReconcileDrift res : planKept (ReconcileDrift res).
Proof. unfold ReconcileDrift, driftStep, ReleaseNode, patchNode. planKept_tac. Qed.

Lemma planKept_ReconcileCordon res : planKept (ReconcileCordon res).
Proof.
  unfold ReconcileCordon, cordonStableStep, releaseStep, CordonNode, UncordonNode, ReleaseNode, patchNode.
  planKept_tac.
Qed.

Lemma planKept_UpdateStatus res : planKept (UpdateStatus res).
Proof.
  unfold UpdateStatus, warnDisappearedNodes, loadAll, warnDisappearedNode, setScheduled,
    setNodeNotReadyCondition, notReadyStep.
  planKept_tac.
Qed.

Lemma planKept_ReconcilePreview res : planKept (ReconcilePreview res).
Proof.
  unfold ReconcilePreview, previewNode, buildPDBIssues, buildPDBIssuesStep, filterPodsForDrain.
  planKept_tac. split; [done|]. by intros [e|pods] _.
Qed.

Lemma planKept_applyDrainResult original r : planKept (applyDrainResult original r).
Proof.
  intros s _. eapply rgM_mono; [apply (rgM_applyDrainResult anyAnswer)|done|by intros []|done].
Qed.

Lemma rg_drainNodes_planKept plan nodes : rg anyAnswer noPlanPatch (drainNodes plan nodes) (λ _, True).
Proof. eapply rg_mono; [apply rg_drainNodes|done|by intros []|done]. Qed.

#[local] Hint Resolve planKept_applyDrainResult rg_drainNodes_planKept : core.

Lemma planKept_ReconcileDrain res : planKept (ReconcileDrain res).
Proof.
  unfold ReconcileDrain, selectDrainTarget, applyDrainResults, endDrainPass, finishDrainPass, abortDrain.
  planKept_tac.
Qed.

#[local] Hint Resolve planKept_ComputeOwnershipResolution planKept_ReconcileOwnership
  planKept_ReconcileDrift planKept_ReconcileCordon planKept_UpdateStatus planKept_ReconcilePreview
  planKept_ReconcileDrain : core.

(** ** A whole reconcile *)
Abbreviation inPass P := (tpM (evolves P) keyed (seen P) (dutiful P)).

Lemma tpM_reconcilePass P plan σ :
  P ≠ "" → p_Name plan = P →
  (ContainsFinalizer (p_Finalizers plan) finalizerName = true → guarded P σ) →
  inPass P reconcilePass (MkSt plan []) σ (λ _ _ _, True).
Proof.
  intros HP Hp Hplan. unfold reconcilePass. apply tpM_getPlan_bind. cbn [st_plan].
  destruct (negb (IsZero (p_DeletionTimestamp plan))).
  { apply tpM_bind. eapply tpM_post; [by apply tpM_handleDeletion|].
    intros s1 [[]|e|] σ1 _; [by apply tpM_ret|done..]. }
  apply tpM_bind. eapply tpM_post; [by apply tpM_ensureFinalizer|].
  intros s1 [[]|e|] σ1 Hg; [|done..]. apply tpM_guarded; [|by apply Hg].
  match goal with |- rgM _ _ ?m _ _ => cut (planKept m); [by intros Hm; apply Hm|] end.
  unfold ComputeSchedule. planKept_tac.
Qed.

(** The pass of [P] in the system. *)
Definition carefully (P : string) (p : kprog (outcome Duration)) (σ : cluster) : Prop :=
  tp (evolves P) keyed (seen P) (λ σ1 _ σ2, careful P σ1 σ2) p σ (λ _ _, True).

Lemma carefully_Reconcile P σ : P ≠ "" → carefully P (Reconcile P) σ.
Proof.
  intros HP. unfold carefully, Reconcile. apply tp_pbind. intros σ1 He Hk r σ2 Hsv.
  pose proof (seen_reading P _ (CGetPlan P) _ _ I Hsv) as ->. split; [apply careful_refl|]. cbn.
  destruct r as [e|plan]; [by destruct (IsNotFound e)|]. destruct Hsv as (κ & Hκ & Hup & _ & Hplan).
  pose proof (proj2 Hκ _ _ Hplan) as Hp. apply tp_pbind.
  eapply tp_mono; [eapply (tp_under _ _ _ (dutiful P) _ keepsNames (ownPatches P) _ _ (λ _ _, True)
    (λ _, True))|done].
  - intros c r σ3 σ4 Hk3 Hc (κ' & _ & _ & Hsv). split; [by eapply serveFrom_keepsNames|]. intros Hd. by apply Hd.
  - eapply tp_mono; [apply tpM_reconcilePass; [done..|]|done].
    intros Hf. apply Hup. by exists plan.
  - rewrite <-Hp. exact (own_reconcilePass (MkSt plan [])).
Qed.

(** ** Every reachable state *)

Definition inv (w : system) : Prop :=
  keyed (sy_cache w) ∧ keyed (sy_server w) ∧ noOrphans (sy_server w) ∧
  ∀ P p, sy_passes w !! P = Some p → P ≠ "" ∧ carefully P p (sy_server w).

Lemma carefully_evolves P p σ σ' : evolves P σ σ' → carefully P p σ → carefully P p σ'.
Proof. apply (tp_evolves (evolves P)); [exact _|done]. Qed.

Lemma carefully_call P c k σ (r : resp c) σ' :
  carefully P (Vis c k) σ → keyed σ → seen P σ (Ev c r) σ' →
  careful P σ σ' ∧ carefully P (k r) σ'.
Proof. apply (tp_call (evolves P)), _. Qed.

Lemma inv_call κ σ ps P c k (r : resp c) σ' :
  inv (MkSystem κ σ ps) → ps !! P = Some (Vis c k) → caughtUp P κ σ c →
  serveFrom κ σ (Ev c r) σ' → inv (MkSystem κ σ' (<[P := k r]> ps)).
Proof.
  intros (Hκ & Hk & Ho & Hps) Hp Hup Hsv. cbn in Hκ, Hk, Ho, Hps. destruct (Hps _ _ Hp) as [HP Hc].
  destruct (carefully_call P c k σ r σ' Hc Hk) as [Hcare Hk']; [by exists κ|].
  split_and!; cbn; [done|by eapply (serveFrom_keyed κ)|by eapply careful_noOrphans|].
  intros Q q [[<- <-]|[Hne Hq]]%lookup_insert_Some; [done|].
  destruct (Hps _ _ Hq) as [HQ Hcq]. split; [done|].
  eapply carefully_evolves; [exact (careful_evolves P Q _ _ HQ (not_eq_sym Hne) Hcare)|done].
Qed.

Lemma cstep_inv w w' : inv w → cstep caughtUp w w' → inv w'.
Proof.
  intros Hinv Hstep. destruct Hstep as [κ σ ps P HP _|κ σ ps P c k r σ' Hp Hup Hsv|κ σ ps P|
    κ σ ps κ' Hκ'|κ σ ps σ' Hoth]; [|by eapply inv_call| | |];
    destruct Hinv as (Hκ & Hk & Ho & Hps); split_and!; cbn in *; try done.
  - intros Q q [[<- <-]|[_ Hq]]%lookup_insert_Some; [|by apply Hps].
    split; [done|by apply carefully_Reconcile].
  - intros Q q [_ Hq]%lookup_delete_Some. by apply Hps.
  - apply Hoth.
  - by eapply others_noOrphans.
  - intros Q q Hq. destruct (Hps _ _ Hq) as [HQ Hcq]. split; [done|].
    eapply carefully_evolves; [|done]. by apply others_evolves.
Qed.

(** C2: no node is ever left behind, provided the caches have caught up.  Take
    any number of plans reconciled concurrently, at most one pass per plan at a
    time, call by call in any order, on a cluster where users and other controllers create, change and delete nodes and
    plans at any moment (but do not write the operator's ownership annotation or
    take off its finalizer), where requests fail (a write may have been carried
    out all the same, but not after its answer), and where passes crash between
    any two calls.  The code reads plans and nodes through the manager's cached
    client, so reads are answered from caches that may hold anything, older states
    included, under two hypotheses on a pass ([caughtUp]): a plan that it reads
    with the finalizer still has the finalizer on the server, and when it lists
    all nodes, the nodes that are the plan's own on the server appear as the
    plan's own.  Then in every state that can be reached, each node that is marked
    as managed by a plan belongs to a plan that exists and carries the operator's
    finalizer; so the deletion of a plan cannot complete while a node is still
    held in its name.  Without the hypotheses this fails: a cleanup that lists
    nodes from a cache that lags behind an adoption leaves the node behind
    (stale_cache_orphans). *)
Theorem cluster_no_orphans κ0 σ0 w :
  keyed κ0 → keyed σ0 → noOrphans σ0 → rtc (cstep caughtUp) (MkSystem κ0 σ0 ∅) w →
  ∀ k n, cl_nodes (sy_server w) !! k = Some n → owner n ≠ "" →
  ∃ plan, cl_plans (sy_server w) !! owner n = Some plan ∧
    ContainsFinalizer (p_Finalizers plan) finalizerName = true.
Proof.
  intros Hκ Hk Ho Hsteps.
  assert (inv (MkSystem κ0 σ0 ∅)) as Hinv by (split_and!; [done..|by intros P p; cbn; rewrite lookup_empty]).
  assert (inv w) as (_ & _ & Ho' & _).
  { clear Hκ Hk Ho. induction Hsteps as [|w1 w2 w3 Hstep _ IH]; [done|]. by apply IH, (cstep_inv w1). }
  exact Ho'.
Qed.

(** ** A deletion left to itself *)

(** A server that refuses nothing it could do. *)
Definition prompt (σ : cluster) (e : event resp) : Prop :=
  match e with
  | Ev (CGetPlan name) (inl _) => cl_plans σ !! name = None
  | Ev (CListNodes _ _) (inl _) => False
  | Ev (CPatchNode _ m) (inl _) => cl_nodes σ !! n_Name m = None
  | Ev (CPatchPlan _ m) (inl _) => cl_plans σ !! p_Name m = None
  | _ => True
  end.

Record responsive (h : ∀ c, cluster → resp c * cluster) : Prop := {
  responsive_serve c σ : serve σ (Ev c (h c σ).1) (h c σ).2;
  responsive_prompt c σ : prompt σ (Ev c (h c σ).1)
}.

(** What the server's copy of a node becomes. *)
Definition freed (P : string) (n : Node) : Node :=
  if decide (owner n = P) then
    let n1 := if n_Unschedulable n || annotationPresent n then mergeNode n (uncordonMutation n) n else n in
    mergeNode n1 (releaseMutation n1) n1
  else n.

Lemma mergeStrmap_self o m k : mergeStrmap o m o ≫= lookup k = m ≫= lookup k.
Proof.
  destruct (mergeStrmap_lookup o m o k) as [->|Hnone]; [by case_decide|].
  rewrite Hnone, <-(default_lookup m). unfold mergeStrmap in Hnone.
  destruct (decide (default ∅ m = ∅)) as [->|]; [by rewrite lookup_empty|done].
Qed.

Lemma mergeNode_self o m k :
  let n := mergeNode o m o in
  n_Annotations n ≫= lookup k = n_Annotations m ≫= lookup k ∧
  n_Labels n ≫= lookup k = n_Labels m ≫= lookup k ∧
  n_Unschedulable n = n_Unschedulable m ∧ owner n = owner m.
Proof.
  cbn -[owner]. rewrite !mergeStrmap_self. split_and!; [done|done| |].
  - by destruct (n_Unschedulable o), (n_Unschedulable m).
  - unfold owner, mapGet. cbn. by rewrite mergeStrmap_self.
Qed.

Lemma mapDelete_lookup (m : strmap) k k' :
  mapDelete m k ≫= lookup k' = if decide (k = k') then None else m ≫= lookup k'.
Proof. destruct m as [m|]; cbn; [apply lookup_delete|by case_decide]. Qed.

(** A freed node is what it was without the operator's marks. *)
Lemma freed_spec P n :
  P ≠ "" → owner n = P →
  let n' := freed P n in
  owner n' = "" ∧ n_Unschedulable n' = false ∧ n_Name n' = n_Name n ∧ n_Conditions n' = n_Conditions n ∧
  (∀ k, n_Annotations n' ≫= lookup k =
     if decide (k ∈ operatorKeys) then None else n_Annotations n ≫= lookup k) ∧
  (∀ k, n_Labels n' ≫= lookup k =
     if decide (k = InMaintenanceLabel) then None else n_Labels n ≫= lookup k).
Proof.
  intros HP Ho. cbn zeta. unfold freed. rewrite decide_True by done.
  set (n1 := if _ || _ then _ else n).
  assert (n_Name n1 = n_Name n ∧ n_Conditions n1 = n_Conditions n ∧ n_Unschedulable n1 = false ∧
    (∀ k, n_Annotations n1 ≫= lookup k = if decide (k = CordonedAnnotation)
       then n_Annotations n1 ≫= lookup k else n_Annotations n ≫= lookup k) ∧
    (∀ k, n_Labels n1 ≫= lookup k = n_Labels n ≫= lookup k)) as (Hn & Hc & Hu & Ha & Hl).
  { subst n1. destruct (n_Unschedulable n || annotationPresent n) eqn:E.
    - split_and!; [done|done|by apply (mergeNode_self n (uncordonMutation n) "")| |]; intros k;
        destruct (mergeNode_self n (uncordonMutation n) k) as (Hk & Hk' & _); [|exact Hk'].
      case_decide as Hd; [done|]. rewrite Hk. cbn. rewrite mapDelete_lookup. by rewrite decide_False by done.
    - apply orb_false_iff in E as [E _]. split_and!; try done. intros k. by case_decide. }
  clearbody n1.
  assert (∀ k, n_Annotations (mergeNode n1 (releaseMutation n1) n1) ≫= lookup k =
    if decide (k ∈ operatorKeys) then None else n_Annotations n ≫= lookup k) as Hann.
  { intros k. destruct (mergeNode_self n1 (releaseMutation n1) k) as (-> & _). cbn.
    rewrite !mapDelete_lookup, Ha. unfold operatorKeys.
    repeat case_decide; subst; try done; set_solver. }
  split_and!; [|by destruct (mergeNode_self n1 (releaseMutation n1) "") as (_ & _ & -> & _)|done|done|done|].
  - unfold owner, mapGet. by rewrite Hann.
  - intros k. destruct (mergeNode_self n1 (releaseMutation n1) k) as (_ & -> & _). cbn.
    rewrite mapDelete_lookup, Hl. repeat case_decide; congruence.
Qed.

Section Alone.
Context (h : ∀ c, cluster → resp c * cluster) (Hh : responsive h).

Abbreviation alone := (tpM eq keyed (servedBy h) (λ _ _ _, True)).

Lemma alone_read c s σ (Q : st → outcome (resp c) → cluster → Prop) :
  reading c →
  (∀ r, serve σ (Ev c r) σ → prompt σ (Ev c r) → Q s (OK r) σ) → alone (perform c) s σ Q.
Proof.
  intros Hc HQ σ1 <- _ r σ2 Hr. split; [done|].
  pose proof (responsive_serve h Hh c σ) as Hsv. pose proof (responsive_prompt h Hh c σ) as Hpr.
  unfold servedBy in Hr. cbn in Hr. rewrite Hr in Hsv, Hpr. cbn in Hsv, Hpr.
  pose proof (serve_reading _ _ _ _ Hc Hsv) as ->. by apply HQ.
Qed.

Lemma alone_patchNode l orig n c s σ (Q : st → outcome unit → cluster → Prop) :
  st_heap s !! l = Some n → cl_nodes σ !! n_Name n = Some c →
  (let n' := mergeNode orig n c in Q (heapSet s l n') (OK tt) (setNode (n_Name n) n' σ)) →
  alone (patchNode l orig) s σ Q.
Proof.
  intros Hl Hc HQ. eapply tpM_load_bind; [done|]. apply tpM_bind. intros σ1 <- _ r σ2 Hr.
  split; [done|]. pose proof (responsive_serve h Hh (CPatchNode orig n) σ) as Hsv.
  pose proof (responsive_prompt h Hh (CPatchNode orig n) σ) as Hpr.
  unfold servedBy in Hr. cbn in Hr. rewrite Hr in Hsv, Hpr. cbn [fst snd] in Hsv, Hpr.
  destruct r as [e|n']; [cbn in Hpr; congruence|]. destruct Hsv as (c' & Hc' & -> & ->).
  rewrite Hc in Hc'. injection Hc' as <-. exact HQ.
Qed.

Lemma alone_Eventf related ty reason action note s σ (Q : st → outcome unit → cluster → Prop) :
  Q s (OK tt) σ → alone (Eventf related ty reason action note) s σ Q.
Proof. intros HQ. apply tpM_getPlan_bind, alone_read; [done|]. by intros [] _ _. Qed.

Lemma alone_ReleaseNode P l n s σ (Q : st → outcome unit → cluster → Prop) :
  P ≠ "" → st_heap s !! l = Some n → owner n = P → p_Name (st_plan s) = P →
  cl_nodes σ !! n_Name n = Some n →
  (let n' := mergeNode n (releaseMutation n) n in
   Q (heapSet s l n') (OK tt) (setNode (n_Name n) n' σ)) →
  alone (ReleaseNode l) s σ Q.
Proof.
  intros HP Hl Ho Hp Hc HQ. unfold ReleaseNode. apply tpM_getPlan_bind. eapply tpM_load_bind; [done|].
  destruct (n_Annotations n) eqn:Ha; [|exfalso; apply (owner_annotated n); congruence].
  rewrite decide_False by (intros Hne; congruence). apply tpM_store_bind.
  eapply alone_patchNode; [by eapply heapSet_lookup|exact Hc|]. cbv beta iota zeta.
  rewrite heapSet_heapSet. exact HQ.
Qed.

Lemma setNode_setNode k n n' σ : setNode k n' (setNode k n σ) = setNode k n' σ.
Proof. unfold setNode. cbn. by rewrite insert_insert_eq. Qed.

Lemma setNode_id k n σ : cl_nodes σ !! k = Some n → setNode k n σ = σ.
Proof. intros Hk. unfold setNode. rewrite insert_id by done. by destruct σ. Qed.

(** Uncordon, release, notify: the node is freed, on the server as in memory. *)
Lemma alone_uncordonRelease P l n msg1 (msg2 : Node → string) (ev : Node → M unit) s σ
    (Q : st → outcome unit → cluster → Prop) :
  (∀ n s σ (Q : st → outcome unit → cluster → Prop), Q s (OK tt) σ → alone (ev n) s σ Q) →
  P ≠ "" → st_heap s !! l = Some n → owner n = P → p_Name (st_plan s) = P →
  cl_nodes σ !! n_Name n = Some n →
  Q (heapSet s l (freed P n)) (OK tt) (setNode (n_Name n) (freed P n) σ) →
  alone (wrapErr msg1 (UncordonNode l);;
         node ← load l; wrapErr (msg2 node) (ReleaseNode l);;
         node ← load l; ev node) s σ Q.
Proof.
  intros Hev HP Hl Ho Hp Hc HQ. unfold freed in HQ. rewrite decide_True in HQ by done.
  apply tpM_bind, tpM_wrapErr.
  assert (∀ n1 σ1, n_Name n1 = n_Name n → owner n1 = P → cl_nodes σ1 !! n_Name n = Some n1 →
    (let n2 := mergeNode n1 (releaseMutation n1) n1 in
     Q (heapSet s l n2) (OK tt) (setNode (n_Name n) n2 σ1)) →
    alone (node ← load l; wrapErr (msg2 node) (ReleaseNode l);; node ← load l; ev node)
      (heapSet s l n1) σ1 Q) as Hrel.
  { intros n1 σ1 Hn1 Ho1 Hc1 HQ1. pose proof (heapSet_lookup s l n1 n Hl) as Hl1.
    eapply tpM_load_bind; [done|]. apply tpM_bind, tpM_wrapErr.
    eapply alone_ReleaseNode; [done..|by rewrite Hn1|]. cbv beta iota zeta.
    rewrite heapSet_heapSet. eapply tpM_load_bind; [by eapply heapSet_lookup|]. apply Hev.
    rewrite Hn1. exact HQ1. }
  unfold UncordonNode. eapply tpM_load_bind; [done|].
  rewrite <-negb_orb. destruct (n_Unschedulable n || annotationPresent n) eqn:E; cbn [negb].
  - apply tpM_store_bind, tpM_bind.
    eapply alone_patchNode; [by eapply heapSet_lookup|exact Hc|]. cbv beta iota zeta.
    rewrite heapSet_heapSet. apply tpM_ret.
    change (n_Name (uncordonMutation n)) with (n_Name n).
    destruct (mergeNode_self n (uncordonMutation n) "") as (_ & _ & _ & Hown).
    rewrite uncordonMutation_owner in Hown. apply Hrel; [done|congruence|by cbn; rewrite lookup_insert_eq|].
    cbn zeta. by rewrite setNode_setNode.
  - apply tpM_ret. rewrite <-(heapSet_id s l n Hl). by apply Hrel.
Qed.

Lemma alone_cleanUpNode P e n s σ (Q : st → outcome unit → cluster → Prop) :
  P ≠ "" → st_heap s !! e.2 = Some n → owner n = P → p_Name (st_plan s) = P →
  cl_nodes σ !! n_Name n = Some n →
  Q (heapSet s e.2 (freed P n)) (OK tt) (setNode (n_Name n) (freed P n) σ) →
  alone (cleanUpNode e) s σ Q.
Proof.
  intros HP Hl Ho Hp Hc HQ. unfold cleanUpNode. eapply tpM_load_bind; [done|].
  eapply (alone_uncordonRelease P e.2 n _ (λ node, "releasing node " +:+ quote (n_Name node)
    +:+ " during cleanup")); [|done..].
  intros n' s' σ' Q' HQ'. by apply alone_Eventf.
Qed.

(** The loop: the entries to come are as at the start, the others are freed. *)
Definition freeing (P : string) (plan : NodeMaintenancePlan) (σ0 : cluster) (es : list (string * loc))
    (s : st) (σ : cluster) : Prop :=
  st_plan s = plan ∧ cl_plans σ = cl_plans σ0 ∧ NoDup es.*1 ∧ NoDup es.*2 ∧
  (∀ e, e ∈ es → ∃ n, st_heap s !! e.2 = Some n ∧ cl_nodes σ0 !! e.1 = Some n ∧ n_Name n = e.1 ∧
     owner n = P) ∧
  (∀ k, cl_nodes σ !! k = if decide (k ∈ es.*1) then cl_nodes σ0 !! k
                          else freed P <$> cl_nodes σ0 !! k).

Lemma alone_cleanUpLoop P plan σ0 es s σ :
  P ≠ "" → p_Name plan = P → freeing P plan σ0 es s σ →
  alone (rangeM es cleanUpNode) s σ (λ s' o σ', o = OK tt ∧ freeing P plan σ0 [] s' σ').
Proof.
  intros HP Hp. revert s σ. induction es as [|e es IH]; intros s σ Hf; cbn [rangeM]; [by apply tpM_ret|].
  destruct Hf as (Hpl & Hplans & Hnd1 & Hnd2 & Hes & Hk). rewrite !fmap_cons in *.
  apply list.NoDup_cons in Hnd1 as [Hn1 Hnd1]. apply list.NoDup_cons in Hnd2 as [Hn2 Hnd2].
  destruct (Hes e (list_elem_of_here _ _)) as (n & Hn & Hk0 & Hname & Ho).
  apply tpM_bind. eapply alone_cleanUpNode; [done|done|done|congruence| |].
  { rewrite Hk, Hname, decide_True; [done|apply list_elem_of_here]. }
  apply IH. split_and!; [done..| |].
  - intros e' He'. destruct (Hes e' (list_elem_of_further _ _ _ He')) as (m & Hm & ?).
    exists m. split; [|done]. rewrite heapSet_lookup_ne; [done|].
    intros Heq. apply Hn2. rewrite Heq. by apply list_elem_of_fmap_2.
  - intros k. cbn. rewrite Hname. destruct (decide (k = e.1)) as [->|Hne].
    + by rewrite lookup_insert_eq, decide_False, Hk0 by done.
    + rewrite lookup_insert_ne, Hk by done. do 2 case_decide; try done; set_solver.
Qed.

Lemma freeing_init P plan nodes es σ :
  p_Name plan = P → guarded P σ → keyed σ → nodes ≡ₚ (map_to_list (cl_nodes σ)).*2 →
  es ≡ₚ map_to_list (ownedMap P 0 nodes ∅) → freeing P plan σ es (MkSt plan nodes) σ.
Proof.
  intros Hp Hg Hk Hnodes Hes.
  destruct (cleaning_init P plan nodes es σ σ Hp Hg Hk (caughtUp_refl P σ (CListNodes None None)) Hnodes Hes) as (_ & _ & Hnd2 & Hent & Hun).
  split_and!; [done|done| |exact Hnd2| |].
  - rewrite Hes. apply NoDup_fst_map_to_list.
  - intros e He. destruct (Hent e He) as (n & Hn & Hname & Ho). exists n. split_and!; [done| |done..].
    apply list_elem_of_lookup_2 in Hn as Hin. cbn [st_heap] in Hin. rewrite Hnodes in Hin.
    apply list_elem_of_fmap in Hin as ([k n'] & -> & Hkn). apply elem_of_map_to_list in Hkn.
    cbn in Hname. rewrite <-Hname. by rewrite (proj1 Hk _ _ Hkn).
  - intros k. case_decide as Hin; [done|]. destruct (cl_nodes σ !! k) as [n|] eqn:Hn; [|done]. cbn.
    f_equal. unfold freed. by rewrite decide_False by (by apply (Hun k)).
Qed.

Lemma alone_CleanUp P plan σ :
  P ≠ "" → p_Name plan = P → guarded P σ → keyed σ →
  alone CleanUp (MkSt plan []) σ (λ s' o σ', o = OK tt ∧ freeing P plan σ [] s' σ').
Proof.
  intros HP Hp Hg Hk. unfold CleanUp. apply tpM_getPlan_bind. cbn [st_plan]. rewrite Hp.
  apply tpM_bind, tpM_wrapErr. unfold ResolveOwnedNodes. apply tpM_bind, alone_read; [done|].
  intros [e|nodes] Hsv Hpr; [by destruct Hpr|]. destruct Hsv as [_ Hnodes]. cbn [orThrow].
  apply tpM_bind, tpM_silent, rgM_wrapErr, rgM_ret, tpM_silent, rgM_indexOwned_exact. cbn [st_plan st_heap app].
  apply tpM_bind, tpM_bind, alone_read; [done|]. intros i _ _. apply tpM_ret.
  apply alone_cleanUpLoop; [done..|]. apply freeing_init; [done..|].
  destruct (permutations _ !! i) as [es|] eqn:Hes; [|done].
  by apply list_elem_of_lookup_2, permutations_Permutation in Hes.
Qed.

Lemma alone_patchPlan orig c s σ (Q : st → outcome unit → cluster → Prop) :
  cl_plans σ !! p_Name (st_plan s) = Some c →
  (let p' := mergePlan orig (st_plan s) c in Q (MkSt p' (st_heap s)) (OK tt) (storePlan p' σ)) →
  alone (patchPlan orig) s σ Q.
Proof.
  intros Hc HQ. apply tpM_getPlan_bind, tpM_bind. intros σ1 <- _ r σ2 Hr.
  split; [done|]. pose proof (responsive_serve h Hh (CPatchPlan orig (st_plan s)) σ) as Hsv.
  pose proof (responsive_prompt h Hh (CPatchPlan orig (st_plan s)) σ) as Hpr.
  unfold servedBy in Hr. cbn in Hr. rewrite Hr in Hsv, Hpr. cbn [fst snd] in Hsv, Hpr.
  destruct r as [e|p']; [cbn in Hpr; congruence|]. destruct Hsv as (c' & Hc' & -> & ->).
  rewrite Hc in Hc'. injection Hc' as <-. exact HQ.
Qed.

Lemma alone_handleDeletion P plan σ :
  P ≠ "" → p_Name plan = P → cl_plans σ !! P = Some plan → keyed σ →
  ContainsFinalizer (p_Finalizers plan) finalizerName = true →
  alone handleDeletion (MkSt plan []) σ (λ _ o σ', o = OK tt ∧
    (∀ k, cl_nodes σ' !! k = freed P <$> cl_nodes σ !! k) ∧
    cl_plans σ' = cl_plans (storePlan
      (set_p_Finalizers (RemoveFinalizer (p_Finalizers plan) finalizerName) plan) σ)).
Proof.
  intros HP Hp Hplan Hk Hf. unfold handleDeletion. apply tpM_getPlan_bind. cbn [st_plan].
  rewrite Hf. cbn [negb]. apply tpM_bind. eapply tpM_post; [apply (alone_CleanUp P); try done; by exists plan|].
  intros s1 o σ1 (-> & Hpl & Hplans & _ & _ & _ & Hnodes).
  apply tpM_getPlan_bind. rewrite Hpl. apply tpM_bind, alone_read; [done|]. intros r _ _.
  apply tpM_modifyPlan_bind, tp_pbind. rewrite Hpl. eapply tp_mono; [eapply (alone_patchPlan _ plan)|].
  - cbn. by rewrite Hplans, Hp.
  - instantiate (1 := λ _ o σ', o = OK tt ∧ σ' = storePlan (set_p_Finalizers
      (RemoveFinalizer (p_Finalizers plan) finalizerName) plan) σ1).
    cbv zeta. unfold mergePlan. cbn [st_plan p_Finalizers set_p_Finalizers]. rewrite decide_False; [done|].
    intros Heq. pose proof (contains_remove (p_Finalizers plan) finalizerName) as Hr. congruence.
  - intros [s2 o2] σ2 [Ho ->]. cbn in Ho. subst o2. cbn. split_and!; [done| |by rewrite Hplans].
    intros k. by rewrite Hnodes, decide_False by apply not_elem_of_nil.
Qed.
(** A whole reconcile, from what its pass does. *)
Lemma interp_Reconcile P plan σ (Q : outcome Duration → cluster → Prop) :
  keyed σ → cl_plans σ !! P = Some plan →
  alone reconcilePass (MkSt plan []) σ (λ _, Q) →
  Q (interp h (Reconcile P) σ).1.2 (interp h (Reconcile P) σ).2.
Proof.
  intros Hk Hplan Hpass. eapply (tp_interp h keyed (λ _ _ _, True)); [|exact Hk|].
  { intros c σ1 Hk1. eapply serve_keyed; [done|]. apply (responsive_serve h Hh). }
  unfold Reconcile. apply tp_pbind. intros σ1 <- _ r σ2 Hr. split; [done|].
  pose proof (responsive_serve h Hh (CGetPlan P) σ) as Hsv.
  pose proof (responsive_prompt h Hh (CGetPlan P) σ) as Hpr.
  unfold servedBy in Hr. cbn in Hr. rewrite Hr in Hsv, Hpr. cbn in Hsv, Hpr.
  destruct r as [e|p]; [congruence|]. destruct Hsv as [-> Hp']. rewrite Hplan in Hp'. injection Hp' as <-.
  cbn. apply tp_pbind. eapply tp_mono; [exact Hpass|]. by intros [s' o] σ'.
Qed.
End Alone.

(** C11: deletion completes.  Left to itself with an API server that refuses
    nothing it could do and caches that are up to date (whatever it answers where the model leaves it a choice,
    the order in which the nodes are visited included), one reconcile of a plan
    in deletion ends with success; the operator's finalizer is gone from the
    server, and the plan with it when it was the last one; every node of the
    plan is unowned, schedulable and, but for the operator's annotations and
    label, as it was; every other node and every other plan is untouched. *)
Theorem deletion_completes h P plan σ :
  responsive h → keyed σ → P ≠ "" → cl_plans σ !! P = Some plan →
  IsZero (p_DeletionTimestamp plan) = false →
  ContainsFinalizer (p_Finalizers plan) finalizerName = true →
  let '(_, o, σ') := interp h (Reconcile P) σ in
  o = OK 0 ∧
  (∀ Q, Q ≠ P → cl_plans σ' !! Q = cl_plans σ !! Q) ∧
  (let fs := RemoveFinalizer (p_Finalizers plan) finalizerName in
   cl_plans σ' !! P = if decide (fs = []) then None else Some (set_p_Finalizers fs plan)) ∧
  (∀ k, cl_nodes σ !! k = None → cl_nodes σ' !! k = None) ∧
  (∀ k n, cl_nodes σ !! k = Some n → ∃ n', cl_nodes σ' !! k = Some n' ∧
     (owner n ≠ P → n' = n) ∧
     (owner n = P → owner n' = "" ∧ n_Unschedulable n' = false ∧ n_Name n' = n_Name n ∧
        n_Conditions n' = n_Conditions n ∧
        (∀ a, n_Annotations n' ≫= lookup a =
           if decide (a ∈ operatorKeys) then None else n_Annotations n ≫= lookup a) ∧
        (∀ l, n_Labels n' ≫= lookup l =
           if decide (l = InMaintenanceLabel) then None else n_Labels n ≫= lookup l))).
Proof.
  intros Hh Hk HP Hplan Hdel Hf. pose proof (proj2 Hk _ _ Hplan) as Hp.
  destruct (interp_Reconcile h Hh P plan σ (λ o σ', o = OK 0 ∧
    (∀ k, cl_nodes σ' !! k = freed P <$> cl_nodes σ !! k) ∧
    cl_plans σ' = cl_plans (storePlan
      (set_p_Finalizers (RemoveFinalizer (p_Finalizers plan) finalizerName) plan) σ)) Hk Hplan)
    as (Ho & Hn & Hpl).
  { unfold reconcilePass. apply tpM_getPlan_bind. cbn [st_plan]. rewrite Hdel. cbn [negb].
    apply tpM_bind. eapply tpM_post; [by apply (alone_handleDeletion h Hh P)|].
    intros s1 o σ1 (-> & Hn & Hpl). by apply tpM_ret. }
  destruct (interp h (Reconcile P) σ) as [[t o] σ']. cbn in Ho, Hn, Hpl.
  rewrite Hp, Hdel in Hpl. cbn in Hpl. split_and!; [done| | | |].
  - intros Q HQ. rewrite Hpl. case_match; [by rewrite lookup_delete_ne|by rewrite lookup_insert_ne].
  - cbn zeta. rewrite Hpl. case_bool_decide; case_decide; try done;
      [by rewrite lookup_delete_eq|by rewrite lookup_insert_eq].
  - intros k Hnone. by rewrite Hn, Hnone.
  - intros k n Hkn. exists (freed P n). split_and!; [by rewrite Hn, Hkn| |].
    + intros Ho'. unfold freed. by rewrite decide_False.
    + intros Ho'. by apply freed_spec.
Qed.
End Cluster.

(** ** An executable server

    Every request is carried out at once; no pods; maps are visited in their
    stored order. *)
Definition found {A} (o : option A) : ApiError + A :=
  match o with Some a => inr a | None => inl notFound end.

Definition answer (c : call) (σ : cluster) : resp c * cluster :=
  match c return resp c * cluster with
  | CGetNode name => (found (cl_nodes σ !! name), σ)
  | CListNodes _ _ => (inr (map_to_list (cl_nodes σ)).*2, σ)
  | CListPods _ => (inr [], σ)
  | CListPDBs _ => (inr [], σ)
  | CGetPlan name => (found (cl_plans σ !! name), σ)
  | CListPlans => (inr (map_to_list (cl_plans σ)).*2, σ)
  | CEvict _ _ => (None, σ)
  | CDeletePod _ => (None, σ)
  | CPatchNode o m =>
      match cl_nodes σ !! n_Name m with
      | Some c => let n' := mergeNode o m c in (inr n', setNode (n_Name m) n' σ)
      | None => (inl notFound, σ)
      end
  | CPatchPlan o m =>
      match cl_plans σ !! p_Name m with
      | Some c => let p' := mergePlan o m c in (inr p', storePlan p' σ)
      | None => (inl notFound, σ)
      end
  | CPatchPlanStatus o m =>
      match cl_plans σ !! p_Name m with
      | Some c => let p' := set_p_Status (p_Status m) c in (inr p', storePlan p' σ)
      | None => (inl notFound, σ)
      end
  | CEvent _ => (tt, σ)
  | CNow => (0, σ)
  | CMetaNow => (0, σ)
  | CMapOrder _ => (0%nat, σ)
  | CRecordPlan _ => (tt, σ)
  | CDeletePlan _ => (tt, σ)
  end.

Lemma answer_responsive : responsive answer.
Proof.
  split; intros c σ; destruct c as [|sel lim| | | | | | | | | | | | | | |]; cbn; try done.
  - by destruct sel, lim.
  - by destruct (cl_plans σ !! name) eqn:E; cbn.
  - destruct (cl_nodes σ !! n_Name modified) eqn:E; cbn; [by eexists|by left].
  - destruct (cl_plans σ !! p_Name modified) eqn:E; cbn; [by eexists|by left].
  - destruct (cl_plans σ !! p_Name modified) eqn:E; cbn; [by eexists _, _|by left].
  - by destruct (cl_plans σ !! name) eqn:E; cbn.
  - by destruct (cl_nodes σ !! n_Name modified) eqn:E; cbn.
  - by destruct (cl_plans σ !! p_Name modified) eqn:E; cbn.
Qed.

#[local] Instance noSelectors : SelectorOps := {| LabelSelectorAsSelector := λ _, inr (λ _, false) |}.

(** A pass that runs to its end with nobody in between, each call from caches
    that suit it. *)
Lemma handler_steps h fresh P κ σ ps (p : kprog (outcome Duration)) :
  (∀ c σ, keyed σ → ∃ κ, keyed κ ∧ fresh P κ σ c ∧ serveFrom κ σ (Ev c (h c σ).1) (h c σ).2) →
  keyed σ → ps !! P = Some p →
  ∃ κ', rtc (cstep fresh) (MkSystem κ σ ps)
    (MkSystem κ' (interp h p σ).2 (<[P := Ret (interp h p σ).1.2]> ps)).
Proof.
  intros Hh. revert κ σ ps. induction p as [o|c k IH]; intros κ σ ps Hk Hp; cbn.
  { exists κ. rewrite insert_id by done. apply rtc_refl. }
  destruct (Hh c σ Hk) as (κ1 & Hκ1 & Hup & Hsv). pose proof (serveFrom_keyed _ _ _ _ Hk Hsv) as Hk1.
  destruct (h c σ) as [r σ1] eqn:Ha. cbn in Hsv, Hk1.
  destruct (IH r κ1 σ1 (<[P:=k r]> ps) Hk1 ltac:(apply lookup_insert_eq)) as [κ2 Hrest].
  destruct (interp h (k r) σ1) as [[t o] σ2]. cbn in *. rewrite insert_insert_eq in Hrest.
  exists κ2. eapply rtc_l; [by apply (cs_cache _ _ _ _ κ1)|].
  eapply rtc_l; [by eapply cs_call|]. exact Hrest.
Qed.

(** A whole reconcile of a plan without a pass. *)
Lemma reconcile_steps h fresh P κ σ :
  (∀ c σ, keyed σ → ∃ κ, keyed κ ∧ fresh P κ σ c ∧ serveFrom κ σ (Ev c (h c σ).1) (h c σ).2) →
  P ≠ "" → keyed σ →
  ∃ κ' ps, rtc (cstep fresh) (MkSystem κ σ ∅) (MkSystem κ' (interp h (Reconcile P) σ).2 ps).
Proof.
  intros Hh HP Hk.
  destruct (handler_steps h fresh P κ σ (<[P := Reconcile P]> ∅) _ Hh Hk (lookup_insert_eq _ _ _))
    as [κ' Hsteps].
  eexists κ', _. eapply rtc_l; [by apply cs_start|exact Hsteps].
Qed.

(** A plan that wants n1; n1 free, n2 in the hands of nobody. *)
Definition freshCluster : cluster :=
  MkCluster {[ "plan-a" := examplePlan ["n1"] ]}
    (<["n1" := exampleNode "n1"]> {[ "n2" := exampleNode "n2" ]}).

(** After the first reconcile. *)
Definition adoptedCluster : cluster := (interp answer (Reconcile "plan-a") freshCluster).2.

Lemma freshCluster_keyed : keyed freshCluster.
Proof.
  split; intros k x; unfold freshCluster; cbn.
  - intros [[<- <-]|[_ [<- <-]%lookup_singleton_Some]]%lookup_insert_Some; done.
  - by intros [<- <-]%lookup_singleton_Some.
Qed.

Lemma freshCluster_noOrphans : noOrphans freshCluster.
Proof.
  intros k n Hk Ho. exfalso. apply Ho. revert Hk. unfold freshCluster. cbn.
  intros [[<- <-]|[_ [<- <-]%lookup_singleton_Some]]%lookup_insert_Some; reflexivity.
Qed.

(** The state of the system then. *)
Lemma adoptedCluster_reachable :
  ∃ κ ps, rtc (cstep caughtUp) (MkSystem freshCluster freshCluster ∅) (MkSystem κ adoptedCluster ps).
Proof.
  apply reconcile_steps; [|done|apply freshCluster_keyed].
  intros c σ Hk. exists σ. split_and!; [done|apply caughtUp_refl|].
  apply (responsive_serve _ answer_responsive).
Qed.

Lemma cluster_no_orphans_witness :
  ∃ n, cl_nodes adoptedCluster !! "n1" = Some n ∧ owner n = "plan-a" ∧
  ∃ plan, cl_plans adoptedCluster !! owner n = Some plan ∧
    ContainsFinalizer (p_Finalizers plan) finalizerName = true.
Proof.
  assert (∃ n, cl_nodes adoptedCluster !! "n1" = Some n ∧ owner n = "plan-a") as (n & Hn & Ho).
  { eexists. split; [vm_compute; reflexivity|vm_compute; reflexivity]. }
  exists n. split; [exact Hn|]. split; [exact Ho|].
  assert (owner n ≠ "") as Hne by (rewrite Ho; discriminate).
  destruct adoptedCluster_reachable as (κ & ps & Hsteps).
  exact (cluster_no_orphans freshCluster freshCluster (MkSystem κ adoptedCluster ps)
    freshCluster_keyed freshCluster_keyed freshCluster_noOrphans Hsteps "n1" n Hn Hne).
Defined.

(** The plan is then deleted: its object gets a deletion timestamp. *)
Definition deletingCluster : cluster :=
  MkCluster {[ "plan-a" := deletedPlan ]} (<["n1" := ownedNode "plan-a" "n1"]> {[ "n2" := exampleNode "n2" ]}).

Lemma deletingCluster_keyed : keyed deletingCluster.
Proof.
  split; intros k x; unfold deletingCluster; cbn.
  - intros [[<- <-]|[_ [<- <-]%lookup_singleton_Some]]%lookup_insert_Some; done.
  - by intros [<- <-]%lookup_singleton_Some.
Qed.

Lemma deletion_completes_witness :
  let '(_, o, σ') := interp answer (Reconcile "plan-a") deletingCluster in
  o = OK 0 ∧ cl_plans σ' = ∅ ∧ ∃ n', cl_nodes σ' !! "n1" = Some n' ∧ owner n' = "".
Proof.
  pose proof (deletion_completes answer "plan-a" deletedPlan deletingCluster answer_responsive
    deletingCluster_keyed ltac:(discriminate) eq_refl eq_refl eq_refl) as Hdel.
  assert (cl_plans (interp answer (Reconcile "plan-a") deletingCluster).2 = ∅) as Hp
    by (vm_compute; reflexivity).
  destruct (interp answer (Reconcile "plan-a") deletingCluster) as [[t o] σ'].
  destruct Hdel as (Ho & _ & _ & _ & Hn). split; [exact Ho|]. split; [exact Hp|].
  destruct (Hn "n1" (ownedNode "plan-a" "n1") eq_refl) as (n' & Hk & _ & Hown).
  exists n'. split; [exact Hk|]. exact (proj1 (Hown eq_refl)).
Defined.

(** ** Why the listing has to be fresh

    If the cached list of nodes is older than the adoption of one of them, the
    cleanup misses that node: the plan goes, the node stays cordoned in its
    name. *)
Definition staleCache : cluster :=
  MkCluster ∅ (<["n1" := exampleNode "n1"]> {[ "n2" := exampleNode "n2" ]}).

Definition staleAnswer (c : call) (σ : cluster) : resp c * cluster :=
  match c return resp c * cluster with
  | CListNodes _ _ => (inr (map_to_list (cl_nodes staleCache)).*2, σ)
  | c => answer c σ
  end.

Lemma staleCache_keyed : keyed staleCache.
Proof.
  split; intros k x; unfold staleCache; cbn; [|by rewrite lookup_empty].
  intros [[<- <-]|[_ [<- <-]%lookup_singleton_Some]]%lookup_insert_Some; done.
Qed.

Lemma stale_listing_orphans :
  let '(_, o, σ') := interp staleAnswer (Reconcile "plan-a") deletingCluster in
  o = OK 0 ∧ cl_plans σ' = ∅ ∧
  ∃ n, cl_nodes σ' !! "n1" = Some n ∧ owner n = "plan-a" ∧ n_Unschedulable n = true.
Proof. vm_compute. split; [reflexivity|]. split; [reflexivity|]. by eexists. Qed.

(** The same as a run of the system: with no condition on the caches, a state with
    a node left behind can be reached from one without. *)
Lemma stale_cache_orphans :
  noOrphans deletingCluster ∧
  ∃ w, rtc (cstep (λ _ _ _ _, True)) (MkSystem deletingCluster deletingCluster ∅) w ∧
    ¬ noOrphans (sy_server w).
Proof.
  split.
  { intros k n. unfold deletingCluster. cbn.
    intros [[<- <-]|[_ [<- <-]%lookup_singleton_Some]]%lookup_insert_Some Ho; [|by destruct Ho].
    exists deletedPlan. by split; vm_compute. }
  destruct (reconcile_steps staleAnswer (λ _ _ _ _, True) "plan-a" deletingCluster deletingCluster)
    as (κ & ps & Hsteps); [|done|apply deletingCluster_keyed|].
  { intros c σ Hk. exists (match c with CListNodes _ _ => staleCache | _ => σ end). split_and!; [|done|].
    - destruct c; try done. apply staleCache_keyed.
    - destruct c as [|sel lim| | | | | | | | | | | | | | |];
        try apply (responsive_serve _ answer_responsive). by destruct sel, lim. }
  eexists. split; [exact Hsteps|]. cbn [sy_server]. intros Hno.
  pose proof stale_listing_orphans as Hst.
  destruct (interp staleAnswer (Reconcile "plan-a") deletingCluster) as [[t o] σ'].
  destruct Hst as (_ & Hplans & n & Hn & Ho & _). cbn in Hno.
  destruct (Hno "n1" n Hn) as (p & Hp & _); [by rewrite Ho|].
  rewrite Hplans, lookup_empty in Hp. done.
Qed.
