(* ===== verification/Refine.v ===== *)
(** * A pass against its specification

    What one reconcile makes of the nodes of the cluster, stated without the
    passes' machinery: [nodeSpec] gives the owner, the schedulability and the
    operator's cordon mark a node ends with from those it starts with.  The
    theorem is a refinement: against a faithful API server with nobody else
    writing, the whole reconcile (finalizer, resolution, adoption, status,
    preview, drift, cordon, drain) leaves every node exactly as [nodeSpec] says. *)
From S2P Require Import Prelude GoTime Api Prog Threads Kube Drift Conditions Schedule Filters.
From S2P Require Import Cordon Ownership DrainNode DrainStatus DrainPool DrainReconcile.
From S2P Require Import Status Preview Reconcile Controller Pass Cluster.

(** ** The specification *)

(** What a node's maintenance state comes down to. *)
Record nodeView : Type := MkNodeView {
  v_Owner : string;
  v_Unschedulable : bool;
  v_Cordoned : bool        (* the operator's cordon annotation *)
}.

Definition viewOf (n : Node) : nodeView :=
  MkNodeView (owner n) (n_Unschedulable n) (operatorCordoned n).

(** [wanted]: the plan names or selects the node.  [settled]: the plan's status
    records that the node drifted away from it or has completed its maintenance.
    [open]: the cordon window is open. *)
Definition nodeSpec (P : string) (enabled open wanted settled : bool) (v : nodeView) : nodeView :=
  if decide (v_Owner v = "") then
    (* free: taken, unless it has been let go before *)
    if wanted && negb settled
    then MkNodeView P (enabled && open || v_Unschedulable v) (enabled && open || v_Cordoned v)
    else v
  else if decide (v_Owner v = P) then
    if wanted then
      (* somebody uncordoned it: let go *)
      if enabled && v_Cordoned v && negb (v_Unschedulable v) then MkNodeView "" false false
      else if negb open then v
      else if enabled then MkNodeView P true true
      (* the operator takes back its own cordon only *)
      else MkNodeView P (v_Unschedulable v && negb (v_Cordoned v)) false
    else if open then MkNodeView "" false false else v
  else v.

Section Refine.
Context `{SO : SelectorOps}.

(** ** A faithful server *)

Definition selects (sel : LabelSelector) (n : Node) : bool :=
  match LabelSelectorAsSelector sel with inl _ => false | inr f => f (n_Labels n) end.

(** Reads are answered from the state, and the clock stands still. *)
Definition faithfulAnswer (now : Time) (σ : cluster) (e : event resp) : Prop :=
  match e with
  | Ev (CGetNode name) (inr n) => cl_nodes σ !! name = Some n
  | Ev (CGetNode name) (inl e) => IsNotFound e = true ∧ cl_nodes σ !! name = None
  | Ev (CListNodes (Some sel) _) (inr nodes) =>
      ∀ n, n ∈ nodes ↔ (cl_nodes σ !! n_Name n = Some n ∧ selects sel n = true)
  | Ev (CListPods _) (inl _) | Ev (CListPDBs _) (inl _) => False
  | Ev (CPatchPlanStatus _ m) (inl _) => cl_plans σ !! p_Name m = None
  | Ev CNow t => t = now
  | _ => True
  end.

Record faithful (now : Time) (h : ∀ c, cluster → resp c * cluster) : Prop := {
  faithful_responsive : responsive h;
  faithful_answer c σ : keyed σ → faithfulAnswer now σ (Ev c (h c σ).1)
}.

(** What is known of the answer to a read at [σ]. *)
Definition readAt (now : Time) (σ : cluster) : rely resp := λ c r,
  serve σ (Ev c r) σ ∧ prompt σ (Ev c r) ∧ faithfulAnswer now σ (Ev c r).

(** ** Resolution *)

(** The plan wants the node of that name. *)
Definition wants (plan : NodeMaintenancePlan) (n : Node) : bool :=
  match s_NodeSelector (p_Spec plan) with
  | Some sel =>
      if ps_NodeSnapshotTaken (p_Status plan)
      then bool_decide (n_Name n ∈ ps_ResolvedNodes (p_Status plan)) else selects sel n
  | None => bool_decide (n_Name n ∈ s_Nodes (p_Spec plan))
  end.

(** The selector, if there is one, is well formed. *)
Definition selectorOK (plan : NodeMaintenancePlan) : Prop :=
  ∀ sel, s_NodeSelector (p_Spec plan) = Some sel → ∃ f, LabelSelectorAsSelector sel = inr f.

(** No selector to resolve, or one that has been. *)
Definition resolved (plan : NodeMaintenancePlan) : bool :=
  match s_NodeSelector (p_Spec plan) with
  | Some _ => ps_NodeSnapshotTaken (p_Status plan)
  | None => true
  end.

(** A list of the nodes the plan wants, as they are. *)
Definition desiredNodes (plan : NodeMaintenancePlan) (σ : cluster) (nodes : list Node) : Prop :=
  ∀ n, n ∈ nodes ↔ (cl_nodes σ !! n_Name n = Some n ∧ wants plan n = true).

Section Server.
Context (now : Time) (σ : cluster) (Hk : keyed σ).
Abbreviation R := (readAt now σ).

(** The two loops that read the nodes by name. *)
Lemma rgM_readNames (f : NodeResolutionResult → string → M NodeResolutionResult) names result s :
  (∀ result name, rgM R reading (f result name) s (λ s' o, s' = s ∧ ∃ issues,
     o = OK (MkNodeResolutionResult
       (rr_Nodes result ++ match cl_nodes σ !! name with Some n => [n] | None => [] end) issues))) →
  rgM R reading (foldM f result names) s (λ s' o, s' = s ∧ ∃ issues,
    o = OK (MkNodeResolutionResult (rr_Nodes result ++ omap (λ k, cl_nodes σ !! k) names) issues)).
Proof.
  intros Hf. revert result. induction names as [|name names IH]; intros result; cbn [foldM].
  { rg_step. split; [done|]. exists (rr_Issues result). cbn. rewrite app_nil_r. by destruct result. }
  rg_step. eapply rgM_post; [apply Hf|]. intros s1 o (-> & issues & ->).
  eapply rgM_post; [apply IH|]. intros s2 o (-> & issues' & ->). split; [done|]. exists issues'.
  cbn. destruct (cl_nodes σ !! name); by rewrite <-app_assoc.
Qed.

Lemma rgM_resolveExplicitStep result name s :
  rgM R reading (resolveExplicitStep result name) s (λ s' o, s' = s ∧ ∃ issues,
    o = OK (MkNodeResolutionResult
      (rr_Nodes result ++ match cl_nodes σ !! name with Some n => [n] | None => [] end) issues)).
Proof.
  unfold resolveExplicitStep. do 2 rg_step; [done|]. destruct r as [e|n]; destruct H as (_ & _ & Hf); cbn in Hf.
  - destruct Hf as [-> ->]. rg_step. split; [done|]. eexists. by rewrite app_nil_r.
  - rewrite Hf. rg_step. split; [done|]. by eexists.
Qed.

Lemma rgM_resolveSnapshotStep result name s :
  rgM R reading (resolveSnapshotStep result name) s (λ s' o, s' = s ∧ ∃ issues,
    o = OK (MkNodeResolutionResult
      (rr_Nodes result ++ match cl_nodes σ !! name with Some n => [n] | None => [] end) issues)).
Proof.
  unfold resolveSnapshotStep. do 2 rg_step; [done|]. destruct r as [e|n]; destruct H as (_ & _ & Hf); cbn in Hf.
  - destruct Hf as [-> ->]. rg_step. split; [done|]. exists (rr_Issues result). rewrite app_nil_r.
    by destruct result.
  - rewrite Hf. rg_step. split; [done|]. by eexists.
Qed.

Lemma elem_of_readNames (names : list string) n :
  n ∈ omap (λ k, cl_nodes σ !! k) names ↔ cl_nodes σ !! n_Name n = Some n ∧ n_Name n ∈ names.
Proof.
  rewrite list_elem_of_omap. split.
  - intros (k & Hkn & Hn). by rewrite (proj1 Hk _ _ Hn).
  - intros [Hn Hin]. by exists (n_Name n).
Qed.

Lemma rgM_resolveSelectorNodes sel f s :
  LabelSelectorAsSelector sel = inr f →
  rgM R reading (resolveSelectorNodes sel) s (λ s' o, s' = s ∧ ∃ nodes issues,
    o = OK (MkNodeResolutionResult nodes issues) ∧
    ∀ n, n ∈ nodes ↔ (cl_nodes σ !! n_Name n = Some n ∧ selects sel n = true)).
Proof.
  intros Hsel. unfold resolveSelectorNodes. rewrite Hsel. do 2 rg_step; [done|].
  destruct r as [e|nodes]; destruct H as (_ & Hp & Hf); [by destruct Hp|]. cbn in Hf.
  do 2 rg_step. cbn [orThrow]. do 2 rg_step. split; [done|]. by eexists _, _.
Qed.

Definition resultNodes (r : option NodeResolutionResult) : list Node :=
  match r with Some r => rr_Nodes r | None => [] end.

Lemma rgM_resolveDesired s :
  selectorOK (st_plan s) →
  rgM R reading resolveDesired s (λ s' o, s' = s ∧ ∃ result snap,
    o = OK (result, snap) ∧ desiredNodes (st_plan s) σ (resultNodes result) ∧
    snap = if resolved (st_plan s) then None else Some (map n_Name (resultNodes result))).
Proof.
  intros Hsel. unfold resolveDesired, desiredNodes, wants, resolved. do 2 rg_step.
  destruct (s_NodeSelector (p_Spec (st_plan s))) as [sel|] eqn:Hs.
  - destruct (Hsel sel Hs) as [f Hf]. destruct (ps_NodeSnapshotTaken (p_Status (st_plan s))); do 2 rg_step.
    + eapply rgM_post; [apply rgM_readNames; intros; apply rgM_resolveSnapshotStep|].
      intros s1 o (-> & issues & ->). rg_step. split; [done|]. eexists _, _. split; [done|].
      split; [|done]. intros n. cbn. by rewrite elem_of_readNames, bool_decide_eq_true.
    + eapply rgM_post; [by eapply rgM_resolveSelectorNodes|]. intros s1 o (-> & nodes & issues & -> & Hn).
      rg_step. split; [done|]. by eexists _, _.
  - do 2 rg_step. unfold ResolveNodes. do 2 rg_step. rewrite Hs.
    destruct (s_Nodes (p_Spec (st_plan s))) as [|k names] eqn:Hnames.
    + do 2 rg_step. split; [done|]. eexists _, _. split; [done|]. split; [|done]. intros n. cbn.
      rewrite bool_decide_eq_true. set_solver.
    + unfold resolveExplicitNodes. do 3 rg_step. rewrite Hnames.
      eapply rgM_post; [apply rgM_readNames; intros; apply rgM_resolveExplicitStep|].
      intros s1 o (-> & issues & ->). do 2 rg_step. split; [done|]. eexists _, _. split; [done|]. split; [|done].
      intros n. rewrite bool_decide_eq_true. apply elem_of_readNames.
Qed.

(** The map the indexing of the desired nodes builds. *)
Fixpoint indexMap (base : nat) (nodes : list Node) (m : gmap string loc) : gmap string loc :=
  match nodes with
  | [] => m
  | n :: nodes => indexMap (S base) nodes (<[n_Name n := base]> m)
  end.

Lemma rgM_indexNodes_exact R' nodes m s (Q : st → outcome (gmap string loc) → Prop) :
  Q (MkSt (st_plan s) (st_heap s ++ nodes)) (OK (indexMap (length (st_heap s)) nodes m)) →
  rgM R' silent (foldM indexNode m nodes) s Q.
Proof.
  revert m s. induction nodes as [|n nodes IH]; intros m s HQ; cbn [foldM].
  { rg_step. rewrite app_nil_r in HQ. by destruct s. }
  rg_step. unfold indexNode at 1. rg_steps. apply IH. cbn [st_heap st_plan].
  rewrite length_app, Nat.add_1_r, <-app_assoc. exact HQ.
Qed.

Lemma indexMap_elem base nodes m k l :
  indexMap base nodes m !! k = Some l →
  m !! k = Some l ∨ ∃ i n, nodes !! i = Some n ∧ n_Name n = k ∧ l = (base + i)%nat.
Proof.
  revert base m. induction nodes as [|n0 nodes IH]; intros base m Hkl; [by left|].
  cbn [indexMap] in Hkl. destruct (IH _ _ Hkl) as [Hm|(i & n & Hi & Hn & ->)].
  - apply lookup_insert_Some in Hm as [[<- <-]|[_ Hm]]; [|by left].
    right. exists 0%nat, n0. split_and!; [done..|lia].
  - right. exists (S i), n. split_and!; [done..|lia].
Qed.

Lemma indexMap_dom base nodes m k :
  is_Some (m !! k) ∨ k ∈ map n_Name nodes → is_Some (indexMap base nodes m !! k).
Proof.
  revert base m. induction nodes as [|n0 nodes IH]; intros base m Hin.
  { destruct Hin as [?|Hin]; [done|by apply elem_of_nil in Hin]. }
  cbn [indexMap]. apply IH. destruct (decide (k = n_Name n0)) as [->|Hne].
  - left. by rewrite lookup_insert_eq.
  - rewrite lookup_insert_ne by done. destruct Hin as [?|[?|?]%elem_of_cons]; [by left|done|by right].
Qed.

(** ** The three lists of the resolution *)

(** The names of the objects a list points to. *)
Definition namesAt (s : st) (ls : list loc) : list string := omap (λ l, n_Name <$> st_heap s !! l) ls.

Lemma elem_of_namesAt s ls k :
  k ∈ namesAt s ls ↔ ∃ l n, l ∈ ls ∧ st_heap s !! l = Some n ∧ n_Name n = k.
Proof.
  unfold namesAt. rewrite list_elem_of_omap. split.
  - intros (l & Hl & Hn). apply fmap_Some in Hn as (n & ? & ->). by exists l, n.
  - intros (l & n & Hl & Hn & <-). exists l. by rewrite Hn.
Qed.

(** [ls] points to one current object for each node of the cluster with [sel]. *)
Definition roster (s : st) (ls : list loc) (sel : Node → Prop) : Prop :=
  NoDup ls ∧ NoDup (namesAt s ls) ∧
  (∀ l, l ∈ ls → ∃ n, st_heap s !! l = Some n ∧ cl_nodes σ !! n_Name n = Some n ∧ sel n) ∧
  (∀ n, cl_nodes σ !! n_Name n = Some n → sel n → n_Name n ∈ namesAt s ls).

Lemma roster_of s (m : gmap string loc) ls (sel : Node → Prop) :
  NoDup ls →
  (∀ l, l ∈ ls → ∃ n, m !! n_Name n = Some l ∧ st_heap s !! l = Some n ∧
     cl_nodes σ !! n_Name n = Some n ∧ sel n) →
  (∀ n, cl_nodes σ !! n_Name n = Some n → sel n → ∃ l, l ∈ ls ∧ st_heap s !! l = Some n) →
  roster s ls sel.
Proof.
  intros Hnd Hin Hall. split_and!; [done| | |].
  - clear Hall. induction ls as [|l ls IH]; [constructor|].
    apply list.NoDup_cons in Hnd as [Hnin Hnd]. unfold namesAt. cbn.
    destruct (Hin l (list_elem_of_here _ _)) as (n & Hm & Hl & _). rewrite Hl. cbn.
    constructor; [|apply IH; [done|intros; apply Hin; by apply list_elem_of_further]].
    intros Hn. apply elem_of_namesAt in Hn as (l' & n' & Hl' & Hh & Hname).
    destruct (Hin l' (list_elem_of_further _ _ _ Hl')) as (n'' & Hm' & Hh' & _).
    simplify_eq. congruence.
  - intros l Hl. destruct (Hin l Hl) as (n & _ & ?). by exists n.
  - intros n Hn Hsel. apply elem_of_namesAt. destruct (Hall n Hn Hsel) as (l & Hl & Hh). by exists l, n.
Qed.

Definition rosters (plan : NodeMaintenancePlan) (res : OwnershipResolution) (s : st) : Prop :=
  NoDup (ow_ToAdopt res ++ ow_Stable res ++ ow_ToRelease res) ∧
  roster s (ow_ToAdopt res) (λ n, wants plan n = true ∧ owner n = "") ∧
  roster s (ow_Stable res) (λ n, wants plan n = true ∧ owner n = p_Name plan) ∧
  roster s (ow_ToRelease res) (λ n, wants plan n = false ∧ owner n = p_Name plan) ∧
  (∀ l, l ∈ ow_All res ++ ow_ToAdopt res ++ ow_Stable res ++ ow_Conflicting res ++ ow_ToRelease res →
     is_Some (st_heap s !! l)).

(** What the two indexes of the resolution hold. *)
Lemma indexed_desired plan D :
  desiredNodes plan σ D →
  (∀ k l, indexMap 0 D ∅ !! k = Some l → ∃ n, D !! l = Some n ∧ n_Name n = k ∧
     cl_nodes σ !! k = Some n ∧ wants plan n = true) ∧
  (∀ n, cl_nodes σ !! n_Name n = Some n → wants plan n = true →
     ∃ l, indexMap 0 D ∅ !! n_Name n = Some l ∧ D !! l = Some n).
Proof.
  intros HD.
  assert (∀ k l, indexMap 0 D ∅ !! k = Some l → ∃ n, D !! l = Some n ∧ n_Name n = k ∧
    cl_nodes σ !! k = Some n ∧ wants plan n = true) as Hdes.
  { intros k l Hkl. apply indexMap_elem in Hkl as [Hkl|(i & n & Hi & <- & ->)];
      [by rewrite lookup_empty in Hkl|].
    exists n. cbn. destruct (proj1 (HD n)) as [Hc Hw]; [by eapply list_elem_of_lookup_2|done]. }
  split; [exact Hdes|]. intros n Hn Hw.
  destruct (indexMap_dom 0 D ∅ (n_Name n)) as [l Hl]; [right; by apply list_elem_of_fmap_2, HD|].
  exists l. split; [done|]. destruct (Hdes _ _ Hl) as (n' & Hn' & _ & Hc & _). congruence.
Qed.

Lemma indexed_owned P base L :
  L ≡ₚ (map_to_list (cl_nodes σ)).*2 →
  (∀ k l, ownedMap P base L ∅ !! k = Some l → ∃ i n, l = (base + i)%nat ∧ L !! i = Some n ∧ n_Name n = k ∧
     cl_nodes σ !! k = Some n ∧ owner n = P) ∧
  (∀ n, cl_nodes σ !! n_Name n = Some n → owner n = P → is_Some (ownedMap P base L ∅ !! n_Name n)).
Proof.
  intros HL. assert (∀ n, n ∈ L ↔ cl_nodes σ !! n_Name n = Some n) as HL'.
  { intros n. rewrite HL, list_elem_of_fmap. split.
    - intros ([k n'] & -> & Hkn%elem_of_map_to_list). cbn. by rewrite (proj1 Hk _ _ Hkn).
    - intros Hn. exists (n_Name n, n). split; [done|]. by apply elem_of_map_to_list. }
  split.
  - intros k l Hkl. apply ownedMap_elem in Hkl as [Hkl|(i & n & Hi & Ho & <- & ->)];
      [by rewrite lookup_empty in Hkl|].
    exists i, n. split_and!; try done. apply HL'. by eapply list_elem_of_lookup_2.
  - intros n Hn%HL' Ho. apply list_elem_of_lookup in Hn as [i Hi].
    eexists. apply (ownedMap_lookup _ _ _ _ i); [by eapply listed_names|done..].
Qed.

Lemma roster_desired plan D L res ls x :
  desiredNodes plan σ D → (∀ l, l ∈ ow_All res ↔ ∃ k, indexMap 0 D ∅ !! k = Some l) → NoDup ls →
  ls = filter (λ l, ownerAt (MkSt plan (D ++ L)) l = Some x) (ow_All res) →
  roster (MkSt plan (D ++ L)) ls (λ n, wants plan n = true ∧ owner n = x).
Proof.
  intros HD Hall Hnd ->. destruct (indexed_desired plan D HD) as [Hdes Hdom].
  apply (roster_of _ (indexMap 0 D ∅)); [done| |].
  - intros l [Hx Hl]%list_elem_of_filter. apply Hall in Hl as [k Hkl].
    destruct (Hdes _ _ Hkl) as (n & Hn & <- & Hc & Hw). exists n. unfold ownerAt in Hx. cbn [st_heap] in *.
    pose proof (lookup_app_l_Some D L l n Hn) as Hn'. rewrite Hn' in Hx. injection Hx as Hx. by split_and!.
  - intros n Hn [Hw Ho]. destruct (Hdom n Hn Hw) as (l & Hl & Hh).
    assert ((D ++ L) !! l = Some n) as Hh' by by apply lookup_app_l_Some.
    exists l. split; [|exact Hh']. apply list_elem_of_filter. unfold ownerAt. cbn [st_heap]. rewrite Hh'.
    split; [cbn; congruence|]. apply Hall. by exists (n_Name n).
Qed.

(** The whole list of the desired nodes, and the snapshot to take of it. *)
Definition desiredRoster (plan : NodeMaintenancePlan) (res : OwnershipResolution) (s : st) : Prop :=
  roster s (ow_All res) (λ n, wants plan n = true) ∧
  (∀ l, l ∈ ow_ToAdopt res ++ ow_Stable res → l ∈ ow_All res) ∧
  if resolved plan then ow_SnapshotNodes res = None
  else ∃ names, ow_SnapshotNodes res = Some names ∧
    ∀ n, cl_nodes σ !! n_Name n = Some n → n_Name n ∈ names ↔ wants plan n = true.

Lemma desiredRoster_spec plan D L res snap :
  desiredNodes plan σ D → ow_All res ≡ₚ (map_to_list (indexMap 0 D ∅)).*2 →
  (∀ l, l ∈ ow_ToAdopt res ++ ow_Stable res → l ∈ ow_All res) → ow_SnapshotNodes res = snap →
  snap = (if resolved plan then None else Some (map n_Name D)) →
  desiredRoster plan res (MkSt plan (D ++ L)).
Proof.
  intros HD Hall Hsub Hsnap ->. destruct (indexed_desired plan D HD) as [Hdes Hdom].
  assert (∀ k l, indexMap 0 D ∅ !! k = Some l → l ∈ ow_All res) as Hin.
  { intros k l Hkl. rewrite Hall. apply list_elem_of_fmap. exists (k, l). split; [done|].
    by apply elem_of_map_to_list. }
  split_and!; [|exact Hsub|].
  - apply (roster_of _ (indexMap 0 D ∅)).
    + rewrite Hall. apply NoDup_fmap_2_strong; [|apply NoDup_map_to_list].
      intros [k l] [k' l'] H1%elem_of_map_to_list H2%elem_of_map_to_list Heq. cbn in Heq. subst l'.
      destruct (Hdes _ _ H1) as (n & Hn & <- & _). destruct (Hdes _ _ H2) as (n' & Hn' & <- & _). congruence.
    + intros l Hl. rewrite Hall in Hl. apply list_elem_of_fmap in Hl as ([k l'] & -> & Hkl).
      apply elem_of_map_to_list in Hkl. destruct (Hdes _ _ Hkl) as (n & Hn & <- & Hc & Hw).
      exists n. cbn. split_and!; [done|by apply lookup_app_l_Some|done|done].
    + intros n Hn Hw. destruct (Hdom n Hn Hw) as (l & Hl & Hh). exists l. split; [by eapply Hin|].
      cbn. by apply lookup_app_l_Some.
  - destruct (resolved plan); [done|]. exists (map n_Name D). split; [done|]. intros n Hn.
    rewrite list_elem_of_fmap. split.
    + intros (n' & Hname & Hin'). apply HD in Hin' as [Hc Hw]. rewrite <-Hname in Hc. congruence.
    + intros Hw. exists n. split; [done|]. by apply HD.
Qed.

Lemma rosters_spec plan D L res :
  p_Name plan ≠ "" → desiredNodes plan σ D → L ≡ₚ (map_to_list (cl_nodes σ)).*2 →
  ownershipSpec (MkSt plan (D ++ L)) (indexMap 0 D ∅) (ownedMap (p_Name plan) (length D) L ∅)
    (p_Name plan) res →
  resolutionWF (p_Name plan) (MkSt plan (D ++ L)) res →
  rosters plan res (MkSt plan (D ++ L)).
Proof.
  intros HP HD HL (H1 & H2 & H3 & H4 & H5) (Hnd & _).
  destruct (indexed_desired plan D HD) as [Hdes Hdom].
  destruct (indexed_owned (p_Name plan) (length D) L HL) as [Hman Hmdom].
  assert (∀ l, l ∈ ow_All res ↔ ∃ k, indexMap 0 D ∅ !! k = Some l) as Hall.
  { intros l. rewrite H1, list_elem_of_fmap. split.
    - intros ([k l'] & -> & Hkl%elem_of_map_to_list). by exists k.
    - intros [k Hkl]. exists (k, l). split; [done|]. by apply elem_of_map_to_list. }
  assert (∀ i n, L !! i = Some n → (D ++ L) !! (length D + i)%nat = Some n) as HLi.
  { intros i n Hi. rewrite lookup_app_r by lia. by rewrite Nat.add_comm, Nat.add_sub. }
  apply list.NoDup_app in Hnd as Hnd'. destruct Hnd' as (Hnd1 & _ & Hnd2).
  apply list.NoDup_app in Hnd2 as (Hnd2 & _ & Hnd3).
  split_and!; [done| | | |].
  - apply (roster_desired plan D L res); [done..|]. rewrite H2. apply list_filter_iff. intros l. apply claim_spec.
  - apply (roster_desired plan D L res); [done..|]. rewrite H3. apply list_filter_iff. intros l.
    destruct (claim_spec (p_Name plan) (MkSt plan (D ++ L)) l) as (_ & Hc & _). rewrite Hc. naive_solver.
  - apply (roster_of _ (ownedMap (p_Name plan) (length D) L ∅)); [done| |].
    + intros l Hl. rewrite H5 in Hl. apply elem_of_undesired in Hl as (k & Hm & Hd).
      destruct (Hman _ _ Hm) as (i & n & -> & Hi & <- & Hc & Ho). exists n.
      split_and!; [done|by apply HLi|done| |done].
      destruct (wants plan n) eqn:Hw; [|done]. destruct (Hdom n Hc Hw) as (l' & Hl' & _). congruence.
    + intros n Hn [Hw Ho]. destruct (Hmdom n Hn Ho) as [l Hl].
      exists l. destruct (Hman _ _ Hl) as (i & n' & -> & Hi & Hname & Hc & _).
      split; [|assert (n' = n) as -> by congruence; by apply HLi]. rewrite H5. apply elem_of_undesired.
      exists (n_Name n). split; [done|]. destruct (indexMap 0 D ∅ !! n_Name n) as [l'|] eqn:Hd; [|done].
      destruct (Hdes _ _ Hd) as (n2 & _ & _ & Hc2 & Hw2). congruence.
  - intros l. rewrite !elem_of_app, H2, H3, H4, !elem_of_withClaim.
    assert (l ∈ ow_All res → is_Some ((D ++ L) !! l)) as Hloc.
    { intros [k Hkl]%Hall. destruct (Hdes _ _ Hkl) as (n & Hn & _). exists n. by apply lookup_app_l_Some. }
    intros [?|[[_ ?]|[[_ ?]|[[_ ?]|Hr]]]]; [by apply Hloc..|].
    rewrite H5 in Hr. apply elem_of_undesired in Hr as (k & Hm & _).
    destruct (Hman _ _ Hm) as (i & n & -> & Hi & _). exists n. by apply HLi.
Qed.

Lemma rgM_resolution plan :
  p_Name plan ≠ "" → selectorOK plan →
  rgM R reading ComputeOwnershipResolution (MkSt plan []) (λ s' o,
    st_plan s' = plan ∧ ∃ res, o = OK res ∧ rosters plan res s' ∧ desiredRoster plan res s').
Proof.
  intros HP Hsel. eapply (rgM_post (Q1 := λ s' o,
    (extends (MkSt plan []) s' ∧ ∀ res, o = OK res → resolutionWF (p_Name plan) s' res) ∧
    (∃ res, o = OK res ∧ desiredRoster plan res s' ∧
       (resolutionWF (p_Name plan) s' res → rosters plan res s')))).
  { eapply (rgM_mono (R1 := R) (G1 := readsOnly)); [|done|by intros []|intros s' o Hq; exact Hq].
    apply (rgM_and R readsOnly reading); [apply rgM_ComputeOwnershipResolution|].
    unfold ComputeOwnershipResolution. rg_step.
    eapply rgM_post; [by apply rgM_resolveDesired|]. intros s1 o (-> & result & snap & -> & HD & Hsnap).
    change (match result with Some r => rr_Nodes r | None => [] end) with (resultNodes result).
    rg_step. eapply rgM_mono; [apply rgM_indexNodes_exact|done|by intros []|]; [|by intros s' o Hq; exact Hq].
    cbv beta iota. do 4 rg_step. unfold ResolveOwnedNodes. do 2 rg_step; [done|].
    destruct r as [e|L]; destruct H as (Hsv & Hp & _); [by destruct Hp|]. destruct Hsv as [_ HL].
    do 2 rg_step. cbn [orThrow]. rg_step.
    eapply rgM_mono; [apply rgM_indexOwned_exact|done|by intros []|]; [|by intros s' o Hq; exact Hq].
    cbv beta iota. cbn [st_plan st_heap app length]. rg_step.
    eapply rgM_mono; [apply (rgM_ComputeOwnership R)|done|by intros []|].
    intros s3 o (-> & Hv & Ho). destruct Hv as [res ->].
    { intros k l Hkl. apply indexMap_elem in Hkl as [Hkl|(i & n & Hi & Hn & ->)];
        [by rewrite lookup_empty in Hkl|]. exists n. cbn. by apply lookup_app_l_Some. }
    rg_step. eexists. split; [done|]. destruct (Ho res eq_refl) as [Hspec _].
    split; [apply (desiredRoster_spec plan (resultNodes result) L _ snap);
      [done|apply Hspec| |done|exact Hsnap]|].
    { destruct Hspec as (_ & H2 & H3 & _). intros l. cbn. rewrite elem_of_app, H2, H3, !elem_of_withClaim. tauto. }
    intros Hwf. by apply (rosters_spec plan (resultNodes result) L res). }
  intros s' o [[He Hwf] (res & -> & Hd & Hr)]. split; [by apply He|]. exists res. split; [done|].
  split; [|exact Hd]. apply Hr, Hwf. done.
Qed.
End Server.

(** ** Node by node *)
Section Alone.
Context (now : Time) (h : ∀ c, cluster → resp c * cluster) (Hf : faithful now h).

Abbreviation alone := (tpM eq keyed (servedBy h) (λ _ _ _, True)).

Let Hh : responsive h := faithful_responsive now h Hf.

(** A part that only reads. *)
Lemma alone_reads {A} (m : M A) s σ (Q : st → outcome A → cluster → Prop) :
  rgM (readAt now σ) reading m s (λ s' o, Q s' o σ) → alone m s σ Q.
Proof.
  intros Hm. eapply tp_mono; [eapply (tp_rg _ _ _ _ (readAt now σ) reading (eq σ))|].
  - by intros σ1 σ2 -> <-.
  - intros c r σ1 σ2 <- Hk Hc Hr. unfold servedBy in Hr. cbn in Hr.
    pose proof (responsive_serve h Hh c σ) as Hsv. pose proof (responsive_prompt h Hh c σ) as Hpr.
    pose proof (faithful_answer now h Hf c σ Hk) as Ha. rewrite Hr in *. cbn [fst snd] in *.
    pose proof (serve_reading _ _ _ _ Hc Hsv) as ->. by split_and!.
  - exact Hm.
  - done.
  - by intros [s' o] σ' [<- HQ].
Qed.

(** What a loop over the objects [ls] does, if each round applies [F] to its
    node, in memory and on the server. *)
Definition mapped (F : Node → Node) (s : st) (σ : cluster) (ls : list loc) (s' : st) (σ' : cluster) : Prop :=
  st_plan s' = st_plan s ∧ cl_plans σ' = cl_plans σ ∧
  (∀ l, st_heap s' !! l = if decide (l ∈ ls) then F <$> st_heap s !! l else st_heap s !! l) ∧
  (∀ k, cl_nodes σ' !! k = if decide (k ∈ namesAt s ls) then F <$> cl_nodes σ !! k else cl_nodes σ !! k).

Definition current (s : st) (σ : cluster) (pre : Node → Prop) (l : loc) : Prop :=
  ∃ n, st_heap s !! l = Some n ∧ cl_nodes σ !! n_Name n = Some n ∧ pre n.

Lemma namesAt_ext s s' ls :
  (∀ l, l ∈ ls → st_heap s' !! l = st_heap s !! l) → namesAt s' ls = namesAt s ls.
Proof.
  intros Hext. unfold namesAt. induction ls as [|l ls IH]; [done|]. cbn.
  rewrite (Hext l (list_elem_of_here _ _)), IH; [done|].
  intros l' Hl'. apply Hext. by apply list_elem_of_further.
Qed.

Lemma alone_loop (f : loc → M unit) F (pre : Node → Prop) ls s σ :
  (∀ l n s1 σ1 (Q : st → outcome unit → cluster → Prop), st_plan s1 = st_plan s →
     st_heap s1 !! l = Some n → cl_nodes σ1 !! n_Name n = Some n → pre n →
     Q (heapSet s1 l (F n)) (OK tt) (setNode (n_Name n) (F n) σ1) → alone (f l) s1 σ1 Q) →
  NoDup ls → NoDup (namesAt s ls) → (∀ l, l ∈ ls → current s σ pre l) →
  alone (rangeM ls f) s σ (λ s' o σ', o = OK tt ∧ mapped F s σ ls s' σ').
Proof.
  revert s σ. induction ls as [|l ls IH]; intros s σ Hstep Hnd Hnames Hcur; cbn [rangeM].
  { apply tpM_ret. split; [done|]. split_and!; done. }
  apply list.NoDup_cons in Hnd as [Hnin Hnd].
  destruct (Hcur l (list_elem_of_here _ _)) as (n & Hl & Hk & Hpre).
  assert (namesAt s (l :: ls) = n_Name n :: namesAt s ls) as Hcons by (unfold namesAt; cbn; by rewrite Hl).
  rewrite Hcons in Hnames. apply list.NoDup_cons in Hnames as [Hnn Hnames].
  apply tpM_bind. eapply Hstep; [done..|].
  assert (∀ l', l' ∈ ls → st_heap (heapSet s l (F n)) !! l' = st_heap s !! l') as Hrest.
  { intros l' Hl'. apply heapSet_lookup_ne. by intros ->. }
  eapply tpM_post; [apply IH; [|done| |]|].
  - intros l' n' s1 σ1 Q Hp. by apply Hstep.
  - by rewrite (namesAt_ext s).
  - intros l' Hl'. destruct (Hcur l' (list_elem_of_further _ _ _ Hl')) as (n' & Hn' & Hk' & Hpre').
    exists n'. rewrite Hrest by done. split_and!; [done| |done]. cbn.
    rewrite lookup_insert_ne; [done|]. intros Heq. apply Hnn. rewrite Heq.
    apply elem_of_namesAt. by exists l', n'.
  - intros s' o σ' (-> & Hp & Hps & Hheap & Hnodes). split; [done|]. split_and!; [done|done| |].
    + intros l'. rewrite Hheap. destruct (decide (l' = l)) as [->|Hne].
      * rewrite decide_False, decide_True by (done || apply list_elem_of_here).
        rewrite Hl. by apply (heapSet_lookup s l (F n) n).
      * rewrite heapSet_lookup_ne by done.
        destruct (decide (l' ∈ ls)), (decide (l' ∈ l :: ls)); try done; set_solver.
    + intros k. rewrite Hnodes, (namesAt_ext s), Hcons by done. cbn [cl_nodes setNode].
      destruct (decide (k = n_Name n)) as [->|Hne].
      * rewrite decide_False, decide_True by (done || apply list_elem_of_here).
        by rewrite lookup_insert_eq, Hk.
      * rewrite lookup_insert_ne by done.
        destruct (decide (k ∈ namesAt s ls)), (decide (k ∈ n_Name n :: namesAt s ls)); try done; set_solver.
Qed.

(** *** Adoption *)

Definition settledAs (plan : NodeMaintenancePlan) (n : Node) : bool :=
  (GetNodeDriftState plan (n_Name n)).1 || nodeCompletedMaintenance plan (n_Name n).

Definition adopted (plan : NodeMaintenancePlan) (cordon : bool) (n : Node) : Node :=
  if settledAs plan n then n else mergeNode n (default n (adoptMutation plan cordon n)) n.

Lemma setNode_current n σ : cl_nodes σ !! n_Name n = Some n → setNode (n_Name n) n σ = σ.
Proof. apply setNode_id. Qed.

Lemma alone_adoptStep cordon l n s σ (Q : st → outcome unit → cluster → Prop) :
  st_heap s !! l = Some n → cl_nodes σ !! n_Name n = Some n →
  Q (heapSet s l (adopted (st_plan s) cordon n)) (OK tt)
    (setNode (n_Name n) (adopted (st_plan s) cordon n) σ) →
  alone (adoptStep cordon l) s σ Q.
Proof.
  intros Hl Hk HQ. unfold adoptStep, adopted, settledAs in *. apply tpM_getPlan_bind.
  eapply tpM_load_bind; [done|].
  destruct (GetNodeDriftState _ _).1; cbn [orb] in HQ;
    [apply tpM_ret; by rewrite heapSet_id, setNode_current in HQ|].
  destruct (nodeCompletedMaintenance _ _); [apply tpM_ret; by rewrite heapSet_id, setNode_current in HQ|].
  apply tpM_wrapErr. unfold AdoptNode. apply tpM_getPlan_bind. eapply tpM_load_bind; [done|].
  destruct (adoptMutation_Some (st_plan s) cordon n) as [m Hm]. rewrite Hm in *. cbn [default] in HQ.
  destruct (adoptMutation_spec _ _ _ _ Hm) as (_ & _ & _ & _ & Hname & _).
  cbn [storeOr]. apply tpM_bind, tpM_ret, tpM_store_bind, tpM_bind.
  eapply (alone_patchNode h Hh); [by eapply heapSet_lookup|by rewrite Hname|]. cbv beta iota zeta.
  rewrite heapSet_heapSet, Hname. eapply tpM_load_bind; [by eapply heapSet_lookup|].
  destruct cordon; by apply (alone_Eventf h Hh).
Qed.

(** *** Drift *)

Definition letGo (plan : NodeMaintenancePlan) (n : Node) : Node :=
  if bool_decide (owner n = p_Name plan) && cordonEnabled plan && operatorCordoned n
     && negb (n_Unschedulable n)
  then mergeNode n (releaseMutation n) n else n.

Lemma alone_driftStep l n s σ (Q : st → outcome unit → cluster → Prop) :
  p_Name (st_plan s) ≠ "" → st_heap s !! l = Some n → cl_nodes σ !! n_Name n = Some n →
  Q (heapSet s l (letGo (st_plan s) n)) (OK tt) (setNode (n_Name n) (letGo (st_plan s) n) σ) →
  alone (driftStep l) s σ Q.
Proof.
  intros HP Hl Hk HQ. unfold driftStep, letGo in *. apply tpM_getPlan_bind. eapply tpM_load_bind; [done|].
  assert (∀ related ty rs ac note msg, owner n = p_Name (st_plan s) →
    Q (heapSet s l (mergeNode n (releaseMutation n) n)) (OK tt)
      (setNode (n_Name n) (mergeNode n (releaseMutation n) n) σ) →
    alone (Eventf related ty rs ac note;; wrapErr msg (ReleaseNode l)) s σ Q) as Hrel.
  { intros related ty rs ac note msg Ho HQ'. apply tpM_bind, (alone_Eventf h Hh), tpM_wrapErr.
    by eapply (alone_ReleaseNode h Hh (p_Name (st_plan s))). }
  assert (Q s (OK tt) σ ∨ owner n = p_Name (st_plan s) ∧
    cordonEnabled (st_plan s) && operatorCordoned n && negb (n_Unschedulable n) = true) as Hcases.
  { case_bool_decide; cbn [andb] in HQ; [|by rewrite heapSet_id, setNode_current in HQ; auto].
    destruct (_ && _ && _) eqn:E; [by right|by rewrite heapSet_id, setNode_current in HQ; auto]. }
  unfold DetectNodeDrift. destruct (n_Annotations n) eqn:Ha.
  2: { destruct Hcases as [?|[Ho _]]; [by apply tpM_ret|].
       exfalso. apply (owner_annotated n); congruence. }
  destruct (decide (owner n ≠ p_Name (st_plan s))) as [Ho|Ho%dec_stable]; cbn [negb].
  { destruct Hcases as [?|[? _]]; [by apply tpM_ret|congruence]. }
  rewrite bool_decide_eq_true_2 in HQ by congruence. cbn [andb] in HQ.
  destruct (cordonEnabled (st_plan s) && operatorCordoned n && negb (n_Unschedulable n)) eqn:E.
  { destruct (existsb _ _); cbn [negb];
      [rewrite decide_True by done|rewrite decide_False by done; rewrite decide_True by done];
      by apply Hrel. }
  rewrite heapSet_id, setNode_current in HQ by done.
  destruct (negb (cordonEnabled _) && _ && _); cbn [negb]; [|by apply tpM_ret].
  do 2 (rewrite decide_False by done). rewrite decide_True by done. by apply (alone_Eventf h Hh).
Qed.

(** *** Cordon and release *)

Definition recordoned (plan : NodeMaintenancePlan) (n : Node) : Node := mergeNode n (cordonResult plan n) n.

Lemma mergeStrmap_id m : mergeStrmap m m m = m.
Proof.
  unfold mergeStrmap. destruct (decide (default ∅ m = ∅)) as [E|E]; [done|].
  destruct m as [m|]; [|done]. cbn. f_equal. apply map_eq. intros k.
  rewrite lookup_merge, mapDiff_lookup, decide_True by done. by destruct (m !! k).
Qed.

Lemma mergeNode_id n : mergeNode n n n = n.
Proof.
  unfold mergeNode. rewrite !mergeStrmap_id, eqb_reflx. by destruct n.
Qed.

Lemma alone_cordonStableStep l n s σ (Q : st → outcome unit → cluster → Prop) :
  st_heap s !! l = Some n → cl_nodes σ !! n_Name n = Some n →
  Q (heapSet s l (recordoned (st_plan s) n)) (OK tt) (setNode (n_Name n) (recordoned (st_plan s) n) σ) →
  alone (cordonStableStep (cordonEnabled (st_plan s)) l) s σ Q.
Proof.
  intros Hl Hk HQ. unfold cordonStableStep, recordoned, cordonResult in *.
  apply tpM_getPlan_bind. eapply tpM_load_bind; [done|].
  assert (∀ n', n' = n → Q (heapSet s l (mergeNode n n' n)) (OK tt)
    (setNode (n_Name n) (mergeNode n n' n) σ) → Q s (OK tt) σ) as Hid.
  { intros n' -> Hq. by rewrite mergeNode_id, heapSet_id, setNode_current in Hq. }
  case_decide as Ho; [by apply tpM_ret, (Hid n)|].
  assert (∀ msg c m (ev : Node → M unit),
    (∀ n s σ (Q : st → outcome unit → cluster → Prop), Q s (OK tt) σ → alone (ev n) s σ Q) →
    (∀ Q' : st → outcome bool → cluster → Prop, Q' (heapSet s l (mergeNode n m n)) (OK true)
       (setNode (n_Name n) (mergeNode n m n) σ) → alone c s σ Q') →
    Q (heapSet s l (mergeNode n m n)) (OK tt) (setNode (n_Name n) (mergeNode n m n) σ) →
    alone (changed ← wrapErr msg c; if changed : bool then node ← load l; ev node else mret tt) s σ Q)
    as Hchange.
  { intros msg c m ev Hev Hc Hq. apply tpM_bind, tpM_wrapErr, Hc.
    eapply tpM_load_bind; [by eapply heapSet_lookup|]. by apply Hev. }
  assert (∀ m (Q' : st → outcome bool → cluster → Prop), n_Name m = n_Name n →
    Q' (heapSet s l (mergeNode n m n)) (OK true) (setNode (n_Name n) (mergeNode n m n) σ) →
    alone (store l m;; patchNode l n;; mret true) s σ Q') as Hpatch.
  { intros m Q' Hm Hq. apply tpM_store_bind, tpM_bind.
    eapply (alone_patchNode h Hh); [by eapply heapSet_lookup|by rewrite Hm|]. cbv beta iota zeta.
    rewrite heapSet_heapSet, Hm. by apply tpM_ret. }
  destruct (cordonEnabled (st_plan s)).
  - destruct (alreadyCordoned n) eqn:E.
    + apply tpM_bind, tpM_wrapErr. eapply tpM_load_bind; [done|]. rewrite E. by apply tpM_ret, tpM_ret, (Hid n).
    + destruct (cordonMutation_Some n) as [m Hm]. rewrite Hm in HQ. cbn [default] in HQ.
      destruct (cordonMutation_spec _ _ Hm) as (_ & _ & Hname & _).
      apply (Hchange _ _ m (λ node, Eventf (Some (n_Name node)) EventTypeNormal
        "NodeCordoned" "CordonNode" ("node " +:+ quote (n_Name node) +:+ " cordoned")));
        [intros; by apply (alone_Eventf h Hh)| |exact HQ].
      intros Q' Hq. unfold CordonNode. eapply tpM_load_bind; [done|]. rewrite E, Hm.
      cbn [storeOr]. apply tpM_bind, tpM_ret. by apply Hpatch.
  - destruct (n_Unschedulable n && negb (operatorCordoned n)); [by apply tpM_ret, (Hid n)|].
    destruct (negb (n_Unschedulable n) && negb (annotationPresent n)) eqn:E.
    + apply tpM_bind, tpM_wrapErr. eapply tpM_load_bind; [done|]. rewrite E. by apply tpM_ret, tpM_ret, (Hid n).
    + apply (Hchange _ _ (uncordonMutation n) (λ node, Eventf (Some (n_Name node)) EventTypeNormal
        "NodeUncordoned" "UncordonNode" ("node " +:+ quote (n_Name node) +:+ " uncordoned")));
        [intros; by apply (alone_Eventf h Hh)| |exact HQ].
      intros Q' Hq. unfold UncordonNode. eapply tpM_load_bind; [done|]. rewrite E. by apply Hpatch.
Qed.

Lemma alone_releaseStep P l n s σ (Q : st → outcome unit → cluster → Prop) :
  P ≠ "" → p_Name (st_plan s) = P → owner n = P →
  st_heap s !! l = Some n → cl_nodes σ !! n_Name n = Some n →
  Q (heapSet s l (freed P n)) (OK tt) (setNode (n_Name n) (freed P n) σ) →
  alone (releaseStep l) s σ Q.
Proof.
  intros HP Hp Ho Hl Hk HQ. unfold releaseStep. eapply tpM_load_bind; [done|].
  eapply (alone_uncordonRelease h Hh P l n _ (λ node, "releasing node " +:+ quote (n_Name node)));
    [|done..].
  intros; by apply (alone_Eventf h Hh).
Qed.

Lemma alone_warnConflict l n s σ (Q : st → outcome unit → cluster → Prop) :
  st_heap s !! l = Some n → Q s (OK tt) σ → alone (warnConflict l) s σ Q.
Proof. intros Hl HQ. unfold warnConflict. eapply tpM_load_bind; [done|]. by apply (alone_Eventf h Hh). Qed.

(** ** The steps that leave the nodes alone *)
Section Calm.
Context `{CO : ConditionOps} {P : string} {spec : NodeMaintenancePlanSpec}.
Context {hp : list Node} {nodes : gmap string Node}.

(** The node objects are [hp], the server's nodes [nodes], and the plan, here
    and there, is the live plan [P] with its spec. *)
Definition kept (s : st) (σ : cluster) : Prop :=
  st_heap s = hp ∧ cl_nodes σ = nodes ∧ p_Name (st_plan s) = P ∧ p_Spec (st_plan s) = spec ∧
  ∃ c, cl_plans σ !! P = Some c ∧ p_Name c = P ∧ p_Spec c = spec ∧ IsZero (p_DeletionTimestamp c) = true.

(** [m] succeeds and keeps all that. *)
Definition calm {A} (m : M A) : Prop :=
  ∀ s σ, kept s σ → alone m s σ (λ s' o σ', (∃ a, o = OK a) ∧ kept s' σ').

Lemma calm_ret {A} (a : A) : calm (mret a).
Proof. intros s σ Hkept. apply tpM_ret. split; [by eexists|done]. Qed.

Lemma calm_bind {A B} (m : M A) (f : A → M B) : calm m → (∀ a, calm (f a)) → calm (m ≫= f).
Proof.
  intros Hm Hfs s σ Hkept. apply tpM_bind. eapply tpM_post; [by apply Hm|].
  intros s' o σ' [[a ->] Hkept']. by apply Hfs.
Qed.

Lemma calm_wrapErr {A} msg (m : M A) : calm m → calm (wrapErr msg m).
Proof.
  intros Hm s σ Hkept. apply tpM_wrapErr. eapply tpM_post; [by apply Hm|].
  intros s' o σ' [[a ->] Hkept']. split; [by eexists|done].
Qed.

Lemma calm_getPlan : calm getPlan.
Proof. intros s σ Hkept. split; [by eexists|done]. Qed.

Lemma calm_load l : is_Some (hp !! l) → calm (load l).
Proof.
  intros [n Hn] s σ Hkept. apply tpM_silent, rgM_load.
  - intros n' _. split; [by eexists|done].
  - destruct Hkept as [-> _]. congruence.
Qed.

Lemma calm_modifyPlan f : (∀ p, p_Name (f p) = p_Name p ∧ p_Spec (f p) = p_Spec p) → calm (modifyPlan f).
Proof.
  intros Hfp s σ (H1 & H2 & H3 & H4 & H5). split; [by eexists|].
  destruct (Hfp (st_plan s)) as [Hn Hs]. split_and!; [done|done|cbn; congruence|cbn; congruence|done].
Qed.

Lemma calm_read c : reading c → calm (perform c).
Proof.
  intros Hc s σ Hkept. apply (alone_read h Hh); [done|]. intros r _ _. split; [by eexists|done].
Qed.

(** A request for a list, which is not refused. *)
Lemma calm_request {A B} c msg (g : resp c → ApiError + A) (f : A → M B) :
  reading c → (∀ σ r e, faithfulAnswer now σ (Ev c r) → g r ≠ inl e) → (∀ a, calm (f a)) →
  calm (r ← perform c; a ← wrapErr msg (orThrow (g r)); f a).
Proof.
  intros Hc Hne Hfs s σ Hkept. apply tpM_bind, alone_reads, rgM_perform; [done|].
  intros r (_ & _ & Hr). destruct (g r) as [e|a] eqn:Hg; [by destruct (Hne _ _ e Hr)|].
  cbn [orThrow]. apply tpM_bind, tpM_wrapErr, tpM_ret. by apply Hfs.
Qed.

Lemma calm_Eventf related ty rs ac note : calm (Eventf related ty rs ac note).
Proof. intros s σ Hkept. apply (alone_Eventf h Hh). split; [by eexists|done]. Qed.

Lemma calm_rangeM {A} (xs : list A) (f : A → M unit) : (∀ x, x ∈ xs → calm (f x)) → calm (rangeM xs f).
Proof.
  induction xs as [|x xs IH]; intros Hfs; cbn [rangeM]; [apply calm_ret|].
  apply calm_bind; [apply Hfs, list_elem_of_here|]. intros _. apply IH.
  intros y Hy. apply Hfs. by apply list_elem_of_further.
Qed.

Lemma calm_foldM {A B} (f : B → A → M B) b xs : (∀ b x, x ∈ xs → calm (f b x)) → calm (foldM f b xs).
Proof.
  revert b. induction xs as [|x xs IH]; intros b Hfs; cbn [foldM]; [apply calm_ret|].
  apply calm_bind; [apply Hfs, list_elem_of_here|]. intros b'. apply IH.
  intros b'' y Hy. apply Hfs. by apply list_elem_of_further.
Qed.

Lemma calm_rangeMap {A} (m : gmap string A) : calm (rangeMap m).
Proof. unfold rangeMap. apply calm_bind; [by apply calm_read|]. intros i. apply calm_ret. Qed.

(** Of the plan, a merge into the server's status only. *)
Lemma calm_patchPlanStatus original : calm (patchPlanStatus original).
Proof.
  intros s σ (H1 & H2 & H3 & H4 & c & Hc & Hcn & Hcs & Hcd). apply tpM_getPlan_bind, tpM_bind.
  intros σ1 <- Hk r σ2 Hr. split; [done|]. unfold servedBy in Hr. cbn in Hr.
  pose proof (responsive_serve h Hh (CPatchPlanStatus original (st_plan s)) σ) as Hsv.
  pose proof (faithful_answer now h Hf (CPatchPlanStatus original (st_plan s)) σ Hk) as Ha.
  rewrite Hr in Hsv, Ha. cbn [fst snd] in Hsv, Ha.
  destruct r as [e|p']; [cbn in Ha; congruence|]. destruct Hsv as (c' & status & Hc' & -> & ->).
  rewrite H3, Hc in Hc'. injection Hc' as <-. cbn [orThrow]. apply tpM_bind, tpM_ret, tpM_silent, rgM_setPlan.
  split; [by eexists|]. split_and!; [done|done|done|done|]. exists (set_p_Status status c).
  cbn. rewrite Hcd, Hcn. cbn. by rewrite lookup_insert_eq.
Qed.

Lemma calm_filterPods {B} node cfg (f : error + drainFilterResult → M B) :
  (∀ r, calm (f (inr r))) → calm (liftProg (filterPodsForDrain node cfg) ≫= f).
Proof.
  intros Hfs s σ Hkept. apply tpM_bind, alone_reads. unfold liftProg, filterPodsForDrain. cbn.
  split; [done|]. intros [e|pods] (_ & _ & Hr); [by destruct Hr|]. cbn. split; [done|].
  intros t _. by apply Hfs.
Qed.
End Calm.

Ltac calm_step :=
  lazymatch goal with
  | |- calm (liftProg (filterPodsForDrain _ _) ≫= _) => apply calm_filterPods; intros ?; cbn beta iota
  | |- calm (perform (CListPDBs _) ≫= _) => apply calm_request; [done|by intros ? [] ? ?|intros ?]
  | |- calm (mbind _ _) => apply calm_bind; [|intros ?]
  | |- calm (mret _) => apply calm_ret
  | |- calm (wrapErr _ _) => apply calm_wrapErr
  | |- calm (perform _) => by apply calm_read
  | |- calm getPlan => apply calm_getPlan
  | |- calm (Eventf _ _ _ _ _) => apply calm_Eventf
  | |- calm (rangeM _ _) => apply calm_rangeM; intros ? ?
  | |- calm (foldM _ _ _) => apply calm_foldM; intros ? ? ?
  | |- calm (rangeMap _) => apply calm_rangeMap
  | |- calm (patchPlanStatus _) => apply calm_patchPlanStatus
  | |- calm (modifyPlan _) => apply calm_modifyPlan; intros ?; try done
  | |- calm (load _) => apply calm_load
  | |- calm (if ?b then _ else _) => destruct b
  | |- calm (match ?x with _ => _ end) => destruct x
  end.
Ltac calm_tac := repeat calm_step.

Section CalmSteps.
Context `{CO : ConditionOps} {P : string} {spec : NodeMaintenancePlanSpec}.
Context {hp : list Node} {nodes : gmap string Node}.
Abbreviation calm := (calm (P := P) (spec := spec) (hp := hp) (nodes := nodes)).

Context (res : OwnershipResolution).
Context (Hlocs : ∀ l, l ∈ ow_All res ++ ow_ToAdopt res ++ ow_Stable res ++ ow_Conflicting res ++ ow_ToRelease res →
  is_Some (hp !! l)).

Lemma calm_warnConflicts : calm (rangeM (ow_Conflicting res) warnConflict).
Proof. unfold warnConflict. calm_tac. apply Hlocs. set_solver. Qed.

Lemma calm_UpdateStatus : calm (UpdateStatus res).
Proof.
  unfold UpdateStatus, warnDisappearedNodes, loadAll, warnDisappearedNode, setScheduled,
    setNodeNotReadyCondition.
  calm_tac; try (apply Hlocs; set_solver);
    try (unfold notReadyStep; calm_tac);
    unfold setNodesSelected, setCordoned, setConflict, setDriftDetected, persistSnapshot;
    by repeat case_match.
Qed.

Lemma calm_ReconcilePreview : calm (ReconcilePreview res).
Proof.
  assert (∀ l, l ∈ ow_Stable res ++ ow_ToAdopt res → is_Some (hp !! l)) as Hls
    by (intros; apply Hlocs; set_solver).
  unfold ReconcilePreview. revert Hls. generalize (ow_Stable res ++ ow_ToAdopt res) as ls.
  intros ls Hls. calm_tac. unfold previewNode, buildPDBIssues, buildPDBIssuesStep. calm_tac. by apply Hls.
Qed.
End CalmSteps.

(** ** The nodes between two steps *)

(** The part a node plays in a pass. *)
Inductive role : Type := ToTake | ToKeep | ToLeave | Aside.

#[local] Instance role_eq_dec : EqDecision role.
Proof. solve_decision. Defined.

Definition roleOf (plan : NodeMaintenancePlan) (n : Node) : role :=
  if decide (owner n = "") then (if wants plan n then ToTake else Aside)
  else if decide (owner n = p_Name plan) then (if wants plan n then ToKeep else ToLeave)
  else Aside.

Definition listOf (res : OwnershipResolution) (r : role) : list loc :=
  match r with
  | ToTake => ow_ToAdopt res | ToKeep => ow_Stable res | ToLeave => ow_ToRelease res | Aside => []
  end.

Section Stages.
Context (plan : NodeMaintenancePlan) (res : OwnershipResolution) (σ0 : cluster) (s0 : st).
Context (HP : p_Name plan ≠ "") (Hk : keyed σ0) (Hros : rosters σ0 plan res s0).

Lemma roster_role r : r ≠ Aside → roster σ0 s0 (listOf res r) (λ n, roleOf plan n = r).
Proof.
  destruct Hros as (_ & (A1 & A2 & A3 & A4) & (B1 & B2 & B3 & B4) & (C1 & C2 & C3 & C4) & _).
  unfold roleOf. destruct r; intros Hr; [..|done]; cbn [listOf]; split_and!; try done.
  - intros l Hl. destruct (A3 l Hl) as (n & ? & ? & Hw & Ho). exists n. rewrite decide_True, Hw by done. done.
  - intros n Hn Hr'. apply A4; [done|]. repeat case_decide; destruct (wants plan n); done.
  - intros l Hl. destruct (B3 l Hl) as (n & ? & ? & Hw & Ho). exists n.
    rewrite decide_False, decide_True, Hw by congruence. done.
  - intros n Hn Hr'. apply B4; [done|]. repeat case_decide; destruct (wants plan n); done.
  - intros l Hl. destruct (C3 l Hl) as (n & ? & ? & Hw & Ho). exists n.
    rewrite decide_False, decide_True, Hw by congruence. done.
  - intros n Hn Hr'. apply C4; [done|]. repeat case_decide; destruct (wants plan n); done.
Qed.

Lemma listOf_disjoint r r' l : l ∈ listOf res r → l ∈ listOf res r' → r ≠ Aside → r = r'.
Proof.
  intros Hl Hl' Hr. assert (r' ≠ Aside) as Hr' by (intros ->; by apply elem_of_nil in Hl').
  destruct (roster_role r Hr) as (_ & _ & H1 & _). destruct (roster_role r' Hr') as (_ & _ & H2 & _).
  destruct (H1 l Hl) as (n & Hn & _ & Hrn). destruct (H2 l Hl') as (n' & Hn' & _ & Hrn'). congruence.
Qed.

(** Each node has become [g] of what it was, on the server and in the lists. *)
Definition staged (g : Node → Node) (s : st) (σ : cluster) : Prop :=
  (∀ n, n_Name (g n) = n_Name n) ∧
  (∀ k, cl_nodes σ !! k = g <$> cl_nodes σ0 !! k) ∧
  (∀ r l, l ∈ listOf res r → st_heap s !! l = g <$> st_heap s0 !! l) ∧
  (∀ l, n_Name <$> st_heap s !! l = n_Name <$> st_heap s0 !! l).

Definition after (r : role) (F g : Node → Node) (n : Node) : Node :=
  if decide (roleOf plan n = r) then F (g n) else g n.

Lemma staged_loc g s σ l : staged g s σ → is_Some (st_heap s0 !! l) → is_Some (st_heap s !! l).
Proof.
  intros (_ & _ & _ & Hloc) [n Hn]. specialize (Hloc l). rewrite Hn in Hloc.
  destruct (st_heap s !! l); [by eexists|done].
Qed.

Lemma staged_namesAt g s σ r : staged g s σ → namesAt s (listOf res r) = namesAt s0 (listOf res r).
Proof.
  intros (Hname & _ & Hheap & _). specialize (Hheap r). revert Hheap. generalize (listOf res r) as ls.
  intros ls Hheap. unfold namesAt. induction ls as [|l ls IH]; [done|]. cbn.
  rewrite (Hheap l (list_elem_of_here _ _)), IH by (intros; apply Hheap; by apply list_elem_of_further).
  destruct (st_heap s0 !! l); cbn; by rewrite ?Hname.
Qed.

Lemma staged_mapped g F r s σ s' σ' :
  r ≠ Aside → (∀ n, n_Name (F n) = n_Name n) → staged g s σ →
  mapped F s σ (listOf res r) s' σ' → staged (after r F g) s' σ'.
Proof.
  intros Hr HF Hst (_ & _ & Hheap & Hnodes). pose proof (staged_namesAt _ _ _ r Hst) as Hnames.
  destruct Hst as (Hg & Hn0 & Hh0 & Hloc). destruct (roster_role r Hr) as (_ & _ & Hin & Hall). split_and!.
  - intros n. unfold after. case_decide; by rewrite ?HF.
  - intros k. rewrite Hnodes, Hnames, Hn0. unfold after.
    destruct (cl_nodes σ0 !! k) as [n|] eqn:Hkn; [|by case_decide]. cbn.
    pose proof (proj1 Hk _ _ Hkn) as Hname. subst k.
    destruct (decide (n_Name n ∈ namesAt s0 (listOf res r))) as [Hi|Hi],
      (decide (roleOf plan n = r)) as [Hrn|Hrn]; try done.
    + exfalso. apply Hrn. apply elem_of_namesAt in Hi as (l & n' & Hl & Hn' & Hnm).
      destruct (Hin l Hl) as (n'' & Hn'' & Hc & <-). simplify_eq. rewrite Hnm in Hc. congruence.
    + exfalso. by apply Hi, Hall.
  - intros r' l Hl. rewrite Hheap, (Hh0 r' l Hl).
    destruct (decide (l ∈ listOf res r)) as [Hlr|Hlr].
    + destruct (Hin l Hlr) as (n & -> & _ & Hrn). cbn. unfold after. by rewrite decide_True.
    + assert (r' ≠ Aside) as Hr' by (intros ->; by apply elem_of_nil in Hl).
      destruct (roster_role r' Hr') as (_ & _ & Hin' & _). destruct (Hin' l Hl) as (n & -> & _ & Hrn).
      cbn. unfold after. rewrite decide_False; [done|]. intros Heq. apply Hlr. congruence.
  - intros l. rewrite Hheap, <-Hloc. case_decide; [|done]. destruct (st_heap s !! l); cbn; by rewrite ?HF.
Qed.

(** One loop of the pass, over the nodes of one role. *)
Lemma alone_stage r (f : loc → M unit) F (pre : Node → Prop) g s σ :
  r ≠ Aside → (∀ n, n_Name (F n) = n_Name n) → staged g s σ →
  (∀ n, roleOf plan n = r → pre (g n)) →
  (∀ l n s1 σ1 (Q : st → outcome unit → cluster → Prop), st_plan s1 = st_plan s →
     st_heap s1 !! l = Some n → cl_nodes σ1 !! n_Name n = Some n → pre n →
     Q (heapSet s1 l (F n)) (OK tt) (setNode (n_Name n) (F n) σ1) → alone (f l) s1 σ1 Q) →
  alone (rangeM (listOf res r) f) s σ (λ s' o σ', o = OK tt ∧
    st_plan s' = st_plan s ∧ cl_plans σ' = cl_plans σ ∧ staged (after r F g) s' σ').
Proof.
  intros Hr HF Hst Hpre Hstep. destruct (roster_role r Hr) as (Hnd & Hnames & Hin & _).
  eapply tpM_post; [apply (alone_loop f F pre); [exact Hstep|exact Hnd| |]|].
  - by rewrite (staged_namesAt _ _ _ _ Hst).
  - intros l Hl. destruct (Hin l Hl) as (n & Hn & Hc & Hrn). destruct Hst as (Hg & Hn0 & Hh0 & _).
    exists (g n). rewrite (Hh0 r l Hl), Hn, Hn0, Hg, Hc. by split_and!; [..|apply Hpre].
  - intros s' o σ' [-> Hm]. split; [done|]. destruct Hm as (H1 & H2 & H3 & H4).
    split_and!; [done|done|]. by eapply staged_mapped.
Qed.
End Stages.

(** ** What the steps make of a node *)

Lemma operatorCordoned_lookup n :
  operatorCordoned n = bool_decide (default "" (n_Annotations n ≫= lookup CordonedAnnotation) = "true").
Proof. done. Qed.

Lemma viewOf_merge n m : viewOf (mergeNode n m n) = viewOf m.
Proof.
  unfold viewOf. destruct (mergeNode_self n m CordonedAnnotation) as (Ha & _ & -> & ->).
  by rewrite !operatorCordoned_lookup, Ha.
Qed.

Lemma adoptMutation_cordoned plan cordon n m :
  adoptMutation plan cordon n = Some m → operatorCordoned m = cordon || operatorCordoned n.
Proof.
  unfold adoptMutation, operatorCordoned. pose proof (mapInit_get (n_Annotations n)) as Hget.
  destruct (mapInit_Some (n_Annotations n)) as [a Ha]. rewrite Ha in *.
  destruct (mapInit_Some (n_Labels n)) as [b ->].
  destruct cordon; cbn; intros [= <-]; cbn; rewrite !mapGet_insert; [done|]. by rewrite !decide_False, Hget.
Qed.

Lemma adopted_view plan cordon n :
  n_Name (adopted plan cordon n) = n_Name n ∧
  viewOf (adopted plan cordon n) =
    if settledAs plan n then viewOf n
    else MkNodeView (p_Name plan) (cordon || n_Unschedulable n) (cordon || operatorCordoned n).
Proof.
  unfold adopted. destruct (settledAs plan n); [done|]. split; [done|]. rewrite viewOf_merge.
  destruct (adoptMutation_Some plan cordon n) as [m Hm]. rewrite Hm. cbn.
  destruct (adoptMutation_spec _ _ _ _ Hm) as (Ho & _ & Hu & _). unfold viewOf.
  by rewrite Ho, Hu, (adoptMutation_cordoned _ _ _ _ Hm).
Qed.

Lemma releaseMutation_cordoned n : operatorCordoned (releaseMutation n) = false.
Proof. unfold operatorCordoned. cbn. rewrite !mapDelete_get. by repeat case_decide. Qed.

Lemma letGo_view plan n :
  n_Name (letGo plan n) = n_Name n ∧
  viewOf (letGo plan n) =
    if bool_decide (owner n = p_Name plan) && cordonEnabled plan && operatorCordoned n
       && negb (n_Unschedulable n)
    then MkNodeView "" false false else viewOf n.
Proof.
  unfold letGo. destruct (_ && _ && _ && _) eqn:E; [|done]. split; [done|]. rewrite viewOf_merge.
  unfold viewOf. rewrite releaseMutation_owner, releaseMutation_cordoned. cbn.
  apply andb_true_iff in E as [_ Hu%negb_true_iff]. by rewrite Hu.
Qed.

Lemma recordoned_view plan n :
  n_Name (recordoned plan n) = n_Name n ∧
  viewOf (recordoned plan n) =
    if decide (owner n = p_Name plan)
    then if cordonEnabled plan then MkNodeView (p_Name plan) true true
         else MkNodeView (p_Name plan) (n_Unschedulable n && negb (operatorCordoned n)) false
    else viewOf n.
Proof.
  split; [done|]. unfold recordoned. rewrite viewOf_merge.
  destruct (cordonResult_spec plan n) as (Ho & _ & Hother & Hown).
  case_decide as Hd; [|by rewrite Hother]. specialize (Hown Hd). unfold viewOf. rewrite Ho, Hd.
  destruct (cordonEnabled plan); destruct Hown as [-> ->]; done.
Qed.

Lemma freed_view P n :
  P ≠ "" → owner n = P → n_Name (freed P n) = n_Name n ∧ viewOf (freed P n) = MkNodeView "" false false.
Proof.
  intros HP Ho. destruct (freed_spec P n HP Ho) as (H1 & H2 & H3 & _ & H5 & _). split; [done|].
  unfold viewOf. by rewrite H1, H2, operatorCordoned_lookup, H5.
Qed.

Lemma freed_name P n : n_Name (freed P n) = n_Name n.
Proof. unfold freed. case_decide; [|done]. by destruct (n_Unschedulable n || annotationPresent n). Qed.

(** What a pass makes of a node. *)
Definition nodeAfter (plan : NodeMaintenancePlan) (open : bool) (n : Node) : Node :=
  match roleOf plan n with
  | ToTake => adopted plan (cordonEnabled plan && open) n
  | ToKeep => if open then recordoned plan (letGo plan n) else letGo plan n
  | ToLeave => if open then freed (p_Name plan) n else n
  | Aside => n
  end.

Lemma nodeAfter_spec plan open n :
  p_Name plan ≠ "" →
  viewOf (nodeAfter plan open n) =
  nodeSpec (p_Name plan) (cordonEnabled plan) open (wants plan n) (settledAs plan n) (viewOf n).
Proof.
  intros HP. unfold nodeAfter, nodeSpec, roleOf. cbn [v_Owner viewOf v_Unschedulable v_Cordoned].
  destruct (decide (owner n = "")) as [Ho|Ho].
  { destruct (wants plan n); [|done]. destruct (adopted_view plan (cordonEnabled plan && open) n) as [_ ->].
    by destruct (settledAs plan n). }
  destruct (decide (owner n = p_Name plan)) as [Hp|Hp]; [|done].
  destruct (wants plan n); [|destruct open; [by destruct (freed_view _ n HP Hp) as [_ ->]|done]].
  destruct (letGo_view plan n) as [_ Hv]. rewrite bool_decide_eq_true_2 in Hv by done. cbn [andb] in Hv.
  destruct open; cbn [negb]; [|rewrite Hv; by destruct (_ && _ && _)].
  destruct (recordoned_view plan (letGo plan n)) as [_ ->].
  assert (owner (letGo plan n) = v_Owner (viewOf (letGo plan n))) as -> by done.
  assert (n_Unschedulable (letGo plan n) = v_Unschedulable (viewOf (letGo plan n))) as -> by done.
  assert (operatorCordoned (letGo plan n) = v_Cordoned (viewOf (letGo plan n))) as -> by done.
  rewrite Hv. destruct (_ && _ && _); cbn [v_Owner v_Unschedulable v_Cordoned].
  - by rewrite decide_False.
  - by rewrite decide_True.
Qed.

(** ** The whole pass *)
Section Whole.
Context `{CO : ConditionOps} `{FL : FinalizerLaws}.

Lemma alone_ensureFinalizer P plan σ :
  p_Name plan = P → cl_plans σ !! P = Some plan → IsZero (p_DeletionTimestamp plan) = true → keyed σ →
  alone ensureFinalizer (MkSt plan []) σ (λ s' o σ', o = OK tt ∧ keyed σ' ∧ cl_nodes σ' = cl_nodes σ ∧
    ∃ fs, s' = MkSt (set_p_Finalizers fs plan) [] ∧ cl_plans σ' !! P = Some (set_p_Finalizers fs plan)).
Proof.
  intros Hp Hplan Hdel Hk. unfold ensureFinalizer. apply tpM_getPlan_bind. cbn [st_plan].
  destruct (ContainsFinalizer _ _).
  { apply tpM_ret. split_and!; [done..|]. exists (p_Finalizers plan).
    assert (set_p_Finalizers (p_Finalizers plan) plan = plan) as -> by by destruct plan. done. }
  apply tpM_modifyPlan_bind. eapply (alone_patchPlan h Hh _ plan); [cbn; by rewrite Hp|].
  cbn [st_heap st_plan]. split_and!; [done|by apply keyed_storePlan|done|]. eexists. split; [reflexivity|]. cbn.
  rewrite Hdel. cbn. rewrite Hp. apply lookup_insert_eq.
Qed.

#[local] Existing Instance reading_dec.

(** A part that writes no node. *)
Lemma alone_quiet {A} (m : M A) s σ :
  quiet m → alone m s σ (λ _ _ σ', cl_nodes σ' = cl_nodes σ).
Proof.
  intros Hm. eapply tp_mono;
    [apply (tp_rg _ _ _ _ keepsNames noNodeWrites (λ σ', cl_nodes σ' = cl_nodes σ))|];
    [by intros σ1 σ2 ? <-| |apply (Hm (st_heap s) (p_Name (st_plan s))); done|done|by intros a σ' [? _]].
  intros c r σ1 σ2 HI Hk Hc Hr. unfold servedBy in Hr. cbn in Hr.
  pose proof (responsive_serve h Hh c σ1) as Hsv. rewrite Hr in Hsv. cbn [fst snd] in Hsv.
  split_and!; [by eapply serve_keepsNames|done|].
  destruct (decide (reading c)) as [Hrd|Hrd]; [by rewrite (serve_reading _ _ _ _ Hrd Hsv)|].
  destruct c; try (by destruct Hrd; exact I); [done| |].
  - by apply serve_patchPlan in Hsv as [[-> _]|(c & _ & -> & _)].
  - by apply serve_patchPlanStatus in Hsv as [[-> _]|(c & s' & _ & -> & _)].
Qed.
(** The notes of the pass that decide nothing: warnings, status, preview. *)
Lemma kept_refl plan hp σ :
  p_Name plan ≠ "" → cl_plans σ !! p_Name plan = Some plan → IsZero (p_DeletionTimestamp plan) = true →
  kept (P := p_Name plan) (spec := p_Spec plan) (hp := hp) (nodes := cl_nodes σ) (MkSt plan hp) σ.
Proof. intros HP Hplan Hdel. split_and!; [done..|]. by exists plan. Qed.

Lemma staged_ext res σ0 s0 g s σ s' σ' :
  staged res σ0 s0 g s σ → st_heap s' = st_heap s → cl_nodes σ' = cl_nodes σ → staged res σ0 s0 g s' σ'.
Proof. by intros Hst Hh' Hn'; unfold staged; rewrite Hh', Hn'. Qed.

(** What a step makes of a node depends on the plan's name and spec only. *)
Lemma letGo_plan p p' n : p_Name p = p_Name p' → p_Spec p = p_Spec p' → letGo p n = letGo p' n.
Proof. intros Hn Hs. unfold letGo, cordonEnabled. by rewrite Hn, Hs. Qed.

Lemma recordoned_plan p p' n :
  p_Name p = p_Name p' → p_Spec p = p_Spec p' → recordoned p n = recordoned p' n.
Proof. intros Hn Hs. unfold recordoned, cordonResult, cordonEnabled. by rewrite Hn, Hs. Qed.

Section Steps.
Context (plan : NodeMaintenancePlan) (res : OwnershipResolution) (σ0 : cluster) (s0 : st).
Context (HP : p_Name plan ≠ "") (Hk : keyed σ0) (Hros : rosters σ0 plan res s0).
Abbreviation staged := (staged res σ0 s0).
Abbreviation stage := (alone_stage plan res σ0 s0 HP Hk Hros).

(** The node objects and the nodes are [g] of what they were; the plan is the live one. *)
Definition inStage (g : Node → Node) (s : st) (σ : cluster) : Prop :=
  staged g s σ ∧ p_Name (st_plan s) = p_Name plan ∧ p_Spec (st_plan s) = p_Spec plan ∧
  ∃ c, cl_plans σ !! p_Name plan = Some c ∧ p_Name c = p_Name plan ∧ p_Spec c = p_Spec plan ∧
    IsZero (p_DeletionTimestamp c) = true.

Lemma alone_calm {A} (m : M A) g s σ :
  (∀ hp nodes, (∀ l, l ∈ ow_All res ++ ow_ToAdopt res ++ ow_Stable res ++ ow_Conflicting res ++
      ow_ToRelease res → is_Some (hp !! l)) →
    calm (P := p_Name plan) (spec := p_Spec plan) (hp := hp) (nodes := nodes) m) →
  inStage g s σ → alone m s σ (λ s' o σ', (∃ a, o = OK a) ∧ inStage g s' σ').
Proof.
  intros Hm (Hst & Hn & Hs & c & Hc). eapply tpM_post.
  - apply (Hm (st_heap s) (cl_nodes σ)).
    + intros l Hl. eapply staged_loc; [exact Hst|]. destruct Hros as (_ & _ & _ & _ & Hloc). by apply Hloc.
    + split_and!; [done..|]. by exists c.
  - intros s' o σ' (Ho & H1 & H2 & H3 & H4 & c' & Hc'). split; [done|]. split_and!; [|done..|by exists c'].
    by eapply staged_ext.
Qed.

Lemma alone_inStage r (f : loc → M unit) F (pre : Node → Prop) g s σ :
  r ≠ Aside → (∀ n, n_Name (F n) = n_Name n) → inStage g s σ →
  (∀ n, roleOf plan n = r → pre (g n)) →
  (∀ l n s1 σ1 (Q : st → outcome unit → cluster → Prop), st_plan s1 = st_plan s →
     st_heap s1 !! l = Some n → cl_nodes σ1 !! n_Name n = Some n → pre n →
     Q (heapSet s1 l (F n)) (OK tt) (setNode (n_Name n) (F n) σ1) → alone (f l) s1 σ1 Q) →
  alone (rangeM (listOf res r) f) s σ (λ s' o σ', o = OK tt ∧ inStage (after plan r F g) s' σ' ∧
    st_plan s' = st_plan s ∧ cl_plans σ' = cl_plans σ).
Proof.
  intros Hr HF (Hst & Hn & Hs & Hc) Hpre Hstep. eapply tpM_post; [by eapply stage|].
  intros s' o σ' (-> & Hp & Hps & Hst'). split; [done|]. split; [|done]. split; [done|]. by rewrite Hp, Hps.
Qed.

Abbreviation takes open := (after plan ToTake (adopted plan (cordonEnabled plan && open)) (λ n, n)).
Abbreviation drifts open := (after plan ToKeep (letGo plan) (takes open)).

Lemma alone_warnConflicts ls s σ (Q : st → outcome unit → cluster → Prop) :
  (∀ l, l ∈ ls → is_Some (st_heap s !! l)) → Q s (OK tt) σ → alone (rangeM ls warnConflict) s σ Q.
Proof.
  intros Hls HQ. induction ls as [|l ls IH]; cbn [rangeM]; [by apply tpM_ret|].
  destruct (Hls l (list_elem_of_here _ _)) as [n Hn]. apply tpM_bind. eapply alone_warnConflict; [done|].
  apply IH. intros l' Hl'. apply Hls. by apply list_elem_of_further.
Qed.

Lemma alone_ReconcileOwnership open s σ :
  st_plan s = plan → inStage (λ n, n) s σ →
  alone (ReconcileOwnership res open) s σ (λ s' o σ', o = OK tt ∧ inStage (takes open) s' σ' ∧
    st_plan s' = plan ∧ cl_plans σ' = cl_plans σ).
Proof.
  intros Hp Hst. unfold ReconcileOwnership. apply tpM_bind, alone_warnConflicts.
  { intros l Hl. eapply staged_loc; [apply Hst|]. destruct Hros as (_ & _ & _ & _ & Hloc). apply Hloc. set_solver. }
  apply tpM_getPlan_bind. rewrite Hp. eapply tpM_post;
    [apply (alone_inStage ToTake _ (adopted plan (cordonEnabled plan && open)) (λ _, True)); [done| |exact Hst|done|]|].
  - intros n. by apply adopted_view.
  - intros l n s2 σ2 Q Hp2 Hl Hn _ HQ. rewrite Hp in Hp2. apply alone_adoptStep with n; [done..|].
    by rewrite Hp2.
  - intros s' o σ' (-> & Hst' & Hp' & Hps). by rewrite Hp' , Hp.
Qed.

Lemma alone_ReconcileDrift g s σ :
  inStage g s σ →
  alone (ReconcileDrift res) s σ (λ s' o σ', o = OK tt ∧ inStage (after plan ToKeep (letGo plan) g) s' σ').
Proof.
  intros Hst. eapply tpM_post; [apply (alone_inStage ToKeep _ (letGo plan) (λ _, True)); [done| |exact Hst|done|]|].
  - intros n. by apply letGo_view.
  - intros l n s2 σ2 Q Hp2 Hl Hn _ HQ. destruct Hst as (_ & Hname & Hspec & _).
    apply alone_driftStep with n; [congruence|done..|]. by rewrite (letGo_plan _ plan) by congruence.
  - intros s' o σ' (-> & Hst' & _). by split.
Qed.

Lemma alone_ReconcileCordon g s σ :
  inStage g s σ → (∀ n, roleOf plan n = ToLeave → owner (g n) = p_Name plan) →
  alone (ReconcileCordon res) s σ (λ s' o σ', o = OK tt ∧
    inStage (after plan ToLeave (freed (p_Name plan)) (after plan ToKeep (recordoned plan) g)) s' σ').
Proof.
  intros Hst Hown. unfold ReconcileCordon. apply tpM_getPlan_bind, tpM_bind. eapply tpM_post.
  { apply (alone_inStage ToKeep _ (recordoned plan) (λ _, True)); [done|done|exact Hst|done|].
    intros l n s2 σ2 Q Hp2 Hl Hn _ HQ. destruct Hst as (_ & Hname & Hspec & _). rewrite <-Hp2.
    apply alone_cordonStableStep with n; [done..|]. by rewrite (recordoned_plan _ plan) by congruence. }
  intros s1 o σ1 (-> & Hst1 & _). eapply tpM_post;
    [apply (alone_inStage ToLeave _ (freed (p_Name plan)) (λ n, owner n = p_Name plan)); [done| |exact Hst1| |]|].
  - apply freed_name.
  - intros n Hn. unfold after. rewrite decide_False by congruence. by apply Hown.
  - intros l n s2 σ2 Q Hp2 Hl Hn Ho HQ. destruct Hst1 as (_ & Hname & _).
    apply (alone_releaseStep (p_Name plan) l n); [done|congruence|done..].
  - intros s' o σ' (-> & Hst' & _). by split.
Qed.

Lemma stages_nodeAfter (open : bool) n :
  (if open then after plan ToLeave (freed (p_Name plan)) (after plan ToKeep (recordoned plan) (drifts true))
   else drifts false) n = nodeAfter plan open n.
Proof. unfold nodeAfter, after. by destruct open, (roleOf plan n). Qed.

Lemma inStage_ext g g' s σ : (∀ n, g n = g' n) → inStage g s σ → inStage g' s σ.
Proof.
  intros Hgg' [(H1 & H2 & H3 & H4) Hrest]. split; [|done].
  assert (∀ o : option Node, g <$> o = g' <$> o) as Ho by (intros [n|]; cbn; by rewrite ?Hgg').
  split_and!; [|..|done].
  - intros n. by rewrite <-Hgg'.
  - intros k. by rewrite <-Ho.
  - intros r l Hl. rewrite <-Ho. by eapply H3.
Qed.

(** The steps of the pass after the resolution. *)
Lemma alone_nodeSteps (open : bool) (k : M Duration) s σ (Q : st → outcome Duration → cluster → Prop) :
  st_plan s = plan → inStage (λ n, n) s σ →
  (∀ s' σ', inStage (nodeAfter plan open) s' σ' → alone k s' σ' Q) →
  alone (ReconcileOwnership res open;;
         UpdateStatus res;;
         ReconcilePreview res;;
         ReconcileDrift res;;
         (if open then ReconcileCordon res else mret tt);;
         k) s σ Q.
Proof.
  intros Hp Hst Hk'. apply tpM_bind. eapply tpM_post; [by apply alone_ReconcileOwnership|].
  intros s1 o σ1 (-> & Hst1 & _). apply tpM_bind.
  eapply tpM_post; [eapply alone_calm; [intros; by apply calm_UpdateStatus|exact Hst1]|].
  intros s2 o σ2 [[a ->] Hst2]. apply tpM_bind.
  eapply tpM_post; [eapply alone_calm; [intros; by apply calm_ReconcilePreview|exact Hst2]|].
  intros s3 o σ3 [[a' ->] Hst3]. apply tpM_bind. eapply tpM_post; [by apply alone_ReconcileDrift|].
  intros s4 o σ4 [-> Hst4]. apply tpM_bind. pose proof (stages_nodeAfter open) as Hnodes.
  destruct open; [|by apply tpM_ret, Hk', (inStage_ext _ _ _ _ Hnodes)].
  eapply tpM_post; [apply alone_ReconcileCordon; [exact Hst4|]|].
  - intros n Hn. unfold after. rewrite !decide_False by congruence. revert Hn. unfold roleOf.
    by repeat case_decide; destruct (wants plan n).
  - intros s5 o σ5 [-> Hst5]. by apply Hk', (inStage_ext _ _ _ _ Hnodes).
Qed.
End Steps.

Lemma inStage_start plan res σ s :
  rosters σ plan res s → st_plan s = plan → cl_plans σ !! p_Name plan = Some plan →
  IsZero (p_DeletionTimestamp plan) = true → inStage plan res σ s (λ n, n) s σ.
Proof.
  intros Hros Hp Hplan Hdel. split; [split_and!|split_and!; [by rewrite Hp..|by exists plan]].
  - done.
  - intros k. by destruct (cl_nodes σ !! k).
  - intros r l _. by destruct (st_heap s !! l).
  - done.
Qed.

(** The cordon window, as the pass sees it. *)
Definition windowOpen (plan : NodeMaintenancePlan) : bool := sr_ShouldAct (sch_Cordon (scheduleAt plan now)).

Lemma alone_ComputeSchedule s σ (Q : st → outcome PlanSchedule → cluster → Prop) :
  Q s (OK (scheduleAt (st_plan s) now)) σ → alone ComputeSchedule s σ Q.
Proof.
  intros HQ. unfold ComputeSchedule. apply tpM_bind, alone_reads, rgM_perform; [done|].
  intros r (_ & _ & Hr). cbn in Hr. rewrite <-Hr in HQ. exact HQ.
Qed.

(** What follows the steps on the nodes. *)
Lemma alone_tail res (schedule : PlanSchedule) s σ :
  alone (drainRequeue ← (if sr_ShouldAct (sch_Drain schedule) then ReconcileDrain res else mret 0);
         plan ← getPlan;
         perform (CRecordPlan plan);;
         mret (if negb (drainRequeue =? 0) then drainRequeue else sch_RequeueAfter schedule)) s σ
    (λ _ o σ', cl_nodes σ' = cl_nodes σ ∧
       (sr_ShouldAct (sch_Drain schedule) = false → o = OK (sch_RequeueAfter schedule))).
Proof.
  destruct (sr_ShouldAct (sch_Drain schedule)).
  - eapply tpM_post; [apply alone_quiet|by intros ? ? ? ?]. quiet_tac.
  - apply tpM_bind, tpM_ret, tpM_getPlan_bind, tpM_bind, (alone_read h Hh); [done|]. intros r _ _.
    by apply tpM_ret.
Qed.

Lemma alone_reconcilePass P plan σ :
  P ≠ "" → p_Name plan = P → cl_plans σ !! P = Some plan → IsZero (p_DeletionTimestamp plan) = true →
  keyed σ → selectorOK plan →
  alone reconcilePass (MkSt plan []) σ (λ _ o σ',
    (∀ k, cl_nodes σ' !! k = nodeAfter plan (windowOpen plan) <$> cl_nodes σ !! k) ∧
    (sr_ShouldAct (sch_Drain (scheduleAt plan now)) = false →
     o = OK (sch_RequeueAfter (scheduleAt plan now)))).
Proof.
  intros HP Hp Hplan Hdel Hk Hsel. unfold reconcilePass. apply tpM_getPlan_bind. cbn [st_plan].
  rewrite Hdel. cbn [negb]. apply tpM_bind. eapply tpM_post; [by apply (alone_ensureFinalizer P)|].
  intros s1 o σ1 (-> & Hk1 & Hnodes & fs & -> & Hplan1). set (plan1 := set_p_Finalizers fs plan) in *.
  apply tpM_bind, alone_reads. eapply rgM_post; [apply rgM_resolution; [done|by rewrite <-Hp in HP|exact Hsel]|].
  intros s2 o (Hp2 & res & -> & Hros & _). apply tpM_bind, alone_ComputeSchedule. rewrite Hp2.
  eapply (alone_nodeSteps plan1 res σ1 s2); [by rewrite <-Hp in HP|done|done|done| |].
  - apply inStage_start; [done..|by rewrite <-Hp in Hplan1|done].
  - intros s3 σ3 ((_ & Hn3 & _) & _). eapply tpM_post; [apply alone_tail|].
    intros s4 o σ4 [Hn4 Ho]. split; [|exact Ho]. intros k. by rewrite Hn4, Hn3, Hnodes.
Qed.
End Whole.
End Alone.

Lemma nodeAfter_name plan open n : n_Name (nodeAfter plan open n) = n_Name n.
Proof.
  unfold nodeAfter. destruct (roleOf plan n); [by apply adopted_view| | |done].
  - assert (n_Name (letGo plan n) = n_Name n) as Hl by apply letGo_view. by destruct open.
  - destruct open; [apply freed_name|done].
Qed.

Section Main.
Context `{CO : ConditionOps} `{FL : FinalizerLaws}.

(** C3: a reconcile does to the nodes what the specification says.  Against a
    faithful API server, with caches that are up to date and nobody else writing,
    let a plan that is not in deletion, and whose node selector, if it has one, can
    be parsed, be reconciled.  Then every node of the cluster
    ends with the owner, the schedulability and the cordon mark [nodeSpec] gives
    for the plan's name, whether it cordons, whether the cordon window is open,
    whether the plan wants the node and whether its status has already let it go.
    In particular a node of the plan that the plan no longer wants is uncordoned
    and released only if the cordon window is open, and stays as it is until
    then.  No node appears, disappears or is renamed, and those
    that are neither the plan's nor free and wanted are untouched.  If no drain is
    due the reconcile succeeds and asks to be called again when the schedule
    says. *)
Theorem reconcile_refines now h P plan σ :
  faithful now h → keyed σ → P ≠ "" → cl_plans σ !! P = Some plan →
  IsZero (p_DeletionTimestamp plan) = true → selectorOK plan →
  let schedule := scheduleAt plan now in
  let '(_, o, σ') := interp h (Reconcile P) σ in
  (∀ k, cl_nodes σ !! k = None → cl_nodes σ' !! k = None) ∧
  (∀ k n, cl_nodes σ !! k = Some n → ∃ n', cl_nodes σ' !! k = Some n' ∧ n_Name n' = n_Name n ∧
     viewOf n' = nodeSpec P (cordonEnabled plan) (sr_ShouldAct (sch_Cordon schedule))
                   (wants plan n) (settledAs plan n) (viewOf n) ∧
     (owner n ≠ P → (owner n ≠ "" ∨ wants plan n = false) → n' = n)) ∧
  (sr_ShouldAct (sch_Drain schedule) = false → o = OK (sch_RequeueAfter schedule)).
Proof.
  intros Hf Hk HP Hplan Hdel Hsel. cbn zeta. pose proof (proj2 Hk _ _ Hplan) as Hp.
  destruct (interp_Reconcile h (faithful_responsive _ _ Hf) P plan σ (λ o σ',
    (∀ k, cl_nodes σ' !! k = nodeAfter plan (windowOpen now plan) <$> cl_nodes σ !! k) ∧
    (sr_ShouldAct (sch_Drain (scheduleAt plan now)) = false →
     o = OK (sch_RequeueAfter (scheduleAt plan now)))) Hk Hplan) as [Hn Ho];
    [by apply (alone_reconcilePass now h Hf P)|].
  destruct (interp h (Reconcile P) σ) as [[t o] σ']. cbn [fst snd] in Ho, Hn. split_and!; [| |exact Ho].
  - intros k Hnone. by rewrite Hn, Hnone.
  - intros k n Hkn. eexists. rewrite Hn, Hkn. split; [done|]. split; [apply nodeAfter_name|].
    rewrite <-Hp in *. split; [by apply nodeAfter_spec|]. intros Hne Hor. unfold nodeAfter, roleOf.
    destruct (decide (owner n = "")), (wants plan n); try done; [by destruct Hor| |]; by rewrite decide_False.
Qed.
End Main.
End Refine.

(** ** Against the executable server *)

(** Every selector is the empty one, which selects everything. *)
#[local] Instance everything : SelectorOps := {| LabelSelectorAsSelector := λ _, inr (λ _, true) |}.

Lemma answer_faithful : faithful 0 answer.
Proof.
  split; [apply answer_responsive|]. intros c σ Hk.
  destruct c as [|sel lim| | | | | | | | | | | | | | |]; cbn; try done.
  - by destruct (cl_nodes σ !! name) eqn:E; cbn.
  - destruct sel as [sel|]; [|done]. intros n. unfold selects. cbn. rewrite list_elem_of_fmap. split.
    + intros ([k n'] & -> & Hkn%elem_of_map_to_list). cbn. by rewrite (proj1 Hk _ _ Hkn).
    + intros [Hn _]. exists (n_Name n, n). split; [done|]. by apply elem_of_map_to_list.
  - by destruct (cl_plans σ !! p_Name modified) eqn:E; cbn.
Qed.

(** n1 is free and wanted, n2 is the plan's but no longer wanted, n3 is another's. *)
Definition mixedCluster : cluster :=
  MkCluster {[ "plan-a" := examplePlan ["n1"] ]}
    (<["n1" := exampleNode "n1"]> (<["n2" := ownedNode "plan-a" "n2"]> {[ "n3" := ownedNode "plan-b" "n3" ]})).

Lemma mixedCluster_keyed : keyed mixedCluster.
Proof.
  split; intros k x; unfold mixedCluster; cbn.
  - rewrite !lookup_insert_Some, lookup_singleton_Some. naive_solver.
  - by intros [<- <-]%lookup_singleton_Some.
Qed.

Lemma reconcile_refines_witness :
  let '(_, o, σ') := interp answer (Reconcile "plan-a") mixedCluster in
  ∃ n1 n2, cl_nodes σ' !! "n1" = Some n1 ∧ viewOf n1 = MkNodeView "plan-a" true true ∧
    cl_nodes σ' !! "n2" = Some n2 ∧ viewOf n2 = MkNodeView "" false false ∧
    cl_nodes σ' !! "n3" = Some (ownedNode "plan-b" "n3").
Proof.
  pose proof (reconcile_refines 0 answer "plan-a" (examplePlan ["n1"]) mixedCluster answer_faithful
    mixedCluster_keyed ltac:(discriminate) eq_refl eq_refl ltac:(intros sel Hs; discriminate Hs)) as Href.
  cbn zeta in Href. destruct (interp answer (Reconcile "plan-a") mixedCluster) as [[t o] σ'].
  destruct Href as (_ & Hn & _).
  destruct (Hn "n1" _ eq_refl) as (n1 & H1 & _ & Hv1 & _).
  destruct (Hn "n2" _ eq_refl) as (n2 & H2 & _ & Hv2 & _).
  destruct (Hn "n3" _ eq_refl) as (n3 & H3 & _ & _ & Hsame).
  rewrite (Hsame ltac:(vm_compute; discriminate) ltac:(left; vm_compute; discriminate)) in H3.
  exists n1, n2. split; [exact H1|]. split; [rewrite Hv1; vm_compute; reflexivity|].
  split; [exact H2|]. split; [rewrite Hv2; vm_compute; reflexivity|exact H3].
Defined.
