(* ===== verification/WellTyped.v ===== *)
(** * The type of a plan's status

    [planOK] says what the fields of a status may hold: percentages between 0 and
    100, pod counts that add up, a drift reason exactly for drifted nodes, one of
    the documented phases, a node count that counts.  [typed] says that an
    operation keeps it and sends only such statuses to the API server. *)
From S2P Require Import Prelude GoTime Api Prog Kube Conditions Schedule Drift Filters.
From S2P Require Import Cordon Ownership DrainNode DrainStatus DrainPool DrainReconcile.
From S2P Require Import Status Preview Reconcile Controller Pass.

(** ** Well-formed statuses *)

(** Not drifted, or drifted for one of the two reasons of drift. *)
Definition driftOK (drifted : bool) (reason : string) : Prop :=
  if drifted then reason = DriftReasonManualUncordon ∨ reason = DriftReasonExternalCordon
  else reason = "".

Record nodeOK (ns : NodeStatus) : Prop := MkNodeOK {
  ok_progress : 0 ≤ ns_DrainProgress ns ≤ 100;
  ok_initial : 0 ≤ ns_InitialPodCount ns ≤ maxPods;
  ok_total : 0 ≤ ns_TotalPods ns ≤ maxPods;
  ok_evictable : 0 ≤ ns_EvictablePods ns;
  ok_blocked : 0 ≤ ns_BlockedPods ns;
  ok_sum : ns_EvictablePods ns + ns_BlockedPods ns ≤ ns_TotalPods ns;
  ok_evicted : isInt32 (ns_EvictedTotal ns);
  ok_drift : driftOK (ns_Drifted ns) (ns_DriftReason ns)
}.

Definition phases : list string :=
  [PhasePending; PhaseAdopted; PhaseScheduled; PhaseCordoned; PhaseDraining; PhaseBlocked; PhaseReady;
   PhaseTimedOut; PhaseConflict].

Record planOK (p : NodeMaintenancePlan) : Prop := MkPlanOK {
  ok_nodes : Forall nodeOK (ps_Nodes (p_Status p));
  ok_count : ps_NodeCount (p_Status p) = len32 (ps_Nodes (p_Status p));
  ok_phase : ps_Phase (p_Status p) = "" ∨ ps_Phase (p_Status p) ∈ phases
}.

(** A plan of a pass: well formed, and from [UpdateStatus] on ([computed]) with one
    of the documented phases. *)
Definition planTyped (computed : bool) (p : NodeMaintenancePlan) : Prop :=
  planOK p ∧ (computed = true → ps_Phase (p_Status p) ∈ phases).

(** The statuses the API server stores are well formed, one that was sent comes back
    with a phase, and no node has more pods than the [int32] progress computation
    can take. *)
Definition storedOK : rely resp := λ c,
  match c return resp c → Prop with
  | CGetPlan _ | CPatchPlan _ _ => λ r, ∀ p, r = inr p → planOK p
  | CPatchPlanStatus _ _ => λ r, ∀ p, r = inr p → planTyped true p
  | CListPods _ => λ r, ∀ pods, r = inr pods → Z.of_nat (length pods) ≤ maxPods
  | _ => λ _, True
  end.

(** What is sent to be stored is well formed. *)
Definition sendsOK : guar call := λ c,
  match c with CPatchPlan _ p => planOK p | CPatchPlanStatus _ p => planTyped true p | _ => True end.

Definition typed (b : bool) {A} (m : M A) : Prop :=
  preserves storedOK sendsOK (λ s, planTyped b (st_plan s)) m.

Create HintDb typed.

(** *** Plans *)

Lemma nodeOK_zero : nodeOK zeroNodeStatus.
Proof. split; cbn; unfold maxPods, isInt32; try lia. done. Qed.

Lemma planOK_zero p : p_Status p = zeroPlanStatus → planOK p.
Proof. intros H. split; rewrite H; [constructor|done|by left]. Qed.

(** Updates of the other fields. *)
Lemma planOK_same p q :
  planOK p → ps_Nodes (p_Status q) = ps_Nodes (p_Status p) →
  ps_NodeCount (p_Status q) = ps_NodeCount (p_Status p) → ps_Phase (p_Status q) = ps_Phase (p_Status p) →
  planOK q.
Proof. intros [H1 H2 H3] Hn Hc Hp. split; [by rewrite Hn|by rewrite Hc, Hn|by rewrite Hp]. Qed.

Lemma planTyped_same b p q :
  planTyped b p → ps_Nodes (p_Status q) = ps_Nodes (p_Status p) →
  ps_NodeCount (p_Status q) = ps_NodeCount (p_Status p) → ps_Phase (p_Status q) = ps_Phase (p_Status p) →
  planTyped b q.
Proof. intros [H1 H2] Hn Hc Hp. split; [by eapply planOK_same|by rewrite Hp]. Qed.

Lemma Forall_updateFirst {A} (P : A → Prop) p f l :
  Forall P l → (∀ x, P x → P (f x)) → Forall P (updateFirst p f l).
Proof.
  intros H Hf. induction H as [|x l Hx Hl IH]; cbn; [constructor|].
  destruct (p x); constructor; auto.
Qed.

Lemma planOK_mapNodes p (q : NodeStatus → bool) f :
  planOK p → (∀ ns, nodeOK ns → nodeOK (f ns)) → planOK (mapNodes (updateFirst q f) p).
Proof.
  intros [H1 H2 H3] Hf. split; cbn; [by apply Forall_updateFirst| |done].
  rewrite H2. unfold len32. by rewrite length_updateFirst.
Qed.

Lemma planTyped_mapNodes b p (q : NodeStatus → bool) f :
  planTyped b p → (∀ ns, nodeOK ns → nodeOK (f ns)) → planTyped b (mapNodes (updateFirst q f) p).
Proof. intros [H1 H2] Hf. split; [by apply planOK_mapNodes|done]. Qed.

Lemma findNodeStatus_OK p name ns : planOK p → findNodeStatus p name = Some ns → nodeOK ns.
Proof.
  intros [H1 _ _] Hf. apply findFirst_Some in Hf as [Hin _].
  rewrite list.Forall_forall in H1. by apply H1.
Qed.

Section Plans.
Context `{CO : ConditionOps}.

Lemma planTyped_setCondition b p t status reason msg :
  planTyped b p → planTyped b (setCondition p t status reason msg).
Proof. intros H. by eapply planTyped_same. Qed.

Lemma computePhase_in p : computePhase p ∈ phases.
Proof.
  unfold computePhase, phases. repeat case_match; rewrite !elem_of_cons; tauto.
Qed.

Lemma planTyped_recompute b p : planTyped b p → planTyped true (recomputePlanSummaries p).
Proof.
  intros [[H1 H2 H3] _]. split; [split; cbn; [done|done|right; apply computePhase_in]|].
  intros _. apply computePhase_in.
Qed.
End Plans.
#[export] Hint Resolve planTyped_setCondition : typed.

(** *** Outcomes of the drain *)

Record outcomeOK (o : drainOutcome) : Prop := MkOutcomeOK {
  oo_total : 0 ≤ do_Total o ≤ maxPods;
  oo_evictable : 0 ≤ do_Evictable o;
  oo_terminating : 0 ≤ do_Terminating o;
  oo_sum : do_Evictable o + do_Terminating o ≤ do_Total o
}.

Lemma outcomeOK_zero : outcomeOK zeroOutcome.
Proof. by split; cbn. Qed.

(** The buckets of a classification together hold no more pods than were listed. *)
Lemma classifyPods_length pods cfg now :
  let r := classifyPods pods cfg now in
  (length (fr_Evictable r) + length (fr_Blocked r) + length (fr_Terminating r)
   + length (fr_StuckTerminating r) ≤ length pods)%nat.
Proof.
  cbn zeta. unfold classifyPods. rewrite classifyPods_acc. cbn.
  pose proof (Permutation_length (buckets_perm cfg now pods)) as H. rewrite !length_app in H. lia.
Qed.

Lemma initialOutcome_OK pods cfg now :
  Z.of_nat (length pods) ≤ maxPods → outcomeOK (initialOutcome (classifyPods pods cfg now)).
Proof.
  intros Hle. pose proof (classifyPods_length pods cfg now) as Hsum. cbn zeta in Hsum.
  unfold maxPods in Hle. unfold initialOutcome, len32.
  assert (∀ z, 0 ≤ z ≤ 21474836 → int32 z = z) as Hid by (intros; apply int32_id; unfold isInt32; lia).
  split; cbn; rewrite !Hid by lia; unfold maxPods; lia.
Qed.

Lemma incEvicted_OK o : outcomeOK o → outcomeOK (incEvicted o).
Proof. intros [H1 H2 H3 H4]. by split. Qed.

Lemma rg_evictLoop_OK R cfg o pdb pods :
  outcomeOK o → rg R sendsOK (evictLoop cfg o pdb pods) (λ l, outcomeOK l.1).
Proof.
  revert o pdb. induction pods as [|pod pods IH]; intros o pdb Ho; [done|]. cbn [evictLoop].
  apply rg_bind. split; [done|]. intros [err|] _; cbn; [|by apply IH, incEvicted_OK].
  repeat case_match; cbn; try done; try (by apply IH).
  split; [done|]. intros [d|] _; [|by apply IH, incEvicted_OK].
  destruct (IsNotFound d); cbn; [by apply IH, incEvicted_OK|done].
Qed.

Lemma rg_filterPods_OK node cfg :
  rg storedOK sendsOK (filterPodsForDrain node cfg)
    (λ r, ∀ result, r = inr result → outcomeOK (initialOutcome result)).
Proof.
  split; [done|]. intros [e|pods] Hr; cbn; [by intros|]. split; [done|].
  intros now _ result [= <-]. by apply initialOutcome_OK, Hr.
Qed.

Lemma rg_drainNode_OK plan node :
  rg storedOK sendsOK (drainNode plan node) (λ r, outcomeOK r.1).
Proof.
  unfold drainNode. destruct (getDrainConfig plan) as [cfg|]; [|apply outcomeOK_zero].
  apply rg_bind. eapply rg_post; [apply rg_filterPods_OK|].
  intros [e|result] Hr; [apply outcomeOK_zero|]. apply rg_bind.
  eapply rg_post; [by apply rg_evictLoop_OK, Hr|]. by intros [o [e|pdb]] Ho.
Qed.

Lemma rg_inOrder R G {A} (P : A → Prop) (ps : list (kprog A)) :
  (∀ p, p ∈ ps → rg R G p P) → rg R G (inOrder ps) (Forall P).
Proof.
  induction ps as [|p ps IH]; intros Hp; cbn [inOrder]; [constructor|].
  apply rg_bind. eapply rg_post; [apply Hp, list_elem_of_here|]. intros a Ha. apply rg_bind.
  eapply rg_post; [apply IH; intros q Hq; by apply Hp, list_elem_of_further|].
  intros rest Hrest. by constructor.
Qed.

Definition resultOK (r : drainNodeResult) : Prop := outcomeOK (dr_Outcome r).

Lemma rg_drainNodes_OK plan nodes : rg storedOK sendsOK (drainNodes plan nodes) (Forall resultOK).
Proof.
  apply rg_inOrder. intros p (node & -> & _)%list_elem_of_fmap. apply rg_bind.
  eapply rg_post; [apply rg_drainNode_OK|]. done.
Qed.

(** *** Node updates *)

Lemma applyOutcome_fields o issues ns :
  let ns' := applyOutcome o issues ns in
  ns_TotalPods ns' = do_Total o ∧ ns_EvictablePods ns' = do_Evictable o ∧
  ns_BlockedPods ns' = int32 (int32 (do_Total o - do_Evictable o) - do_Terminating o) ∧
  ns_EvictedTotal ns' = int32 (ns_EvictedTotal ns + do_Evicted o) ∧
  ns_Drifted ns' = ns_Drifted ns ∧ ns_DriftReason ns' = ns_DriftReason ns.
Proof. cbn zeta. unfold applyOutcome. destruct (_ && _); cbn; by destruct (0 <? _). Qed.

Lemma nodeOK_applyOutcome o issues ns : outcomeOK o → nodeOK ns → nodeOK (applyOutcome o issues ns).
Proof.
  intros [H1 H2 H3 H4] [N1 N2 N3 N4 N5 N6 N7 N8].
  destruct (applyOutcome_fields o issues ns) as (E1 & E2 & E3 & E4 & E5 & E6).
  pose proof (applyOutcome_initial o issues ns) as Ei.
  pose proof (applyOutcome_DrainProgress o issues ns) as Ed. cbn zeta in Ed.
  assert (0 ≤ ns_InitialPodCount (applyOutcome o issues ns) ≤ maxPods) as Hi.
  { rewrite Ei. destruct (_ && _); [exact H1|exact N2]. }
  assert (∀ z, 0 ≤ z ≤ maxPods → int32 z = z) as Hid.
  { intros z Hz. apply int32_id. unfold isInt32, maxPods in *. lia. }
  rewrite (Hid (do_Total o - do_Evictable o)), Hid in E3 by lia. split; rewrite ?E1, ?E2, ?E3, ?E4, ?E5, ?E6; try lia; try done.
  - rewrite Ed. destruct (Z.ltb_spec 0 (ns_InitialPodCount (applyOutcome o issues ns))); [|lia].
    rewrite progress_exact by lia.
    set (i := ns_InitialPodCount (applyOutcome o issues ns)) in *.
    split; [apply Z.div_pos; lia|apply Z.div_le_upper_bound; lia].
  - apply int32_range.
Qed.

Lemma nodeOK_setIssues issues ns : nodeOK ns → nodeOK (set_ns_Issues issues ns).
Proof. intros []. by split. Qed.

Lemma nodeOK_setPreview pv ns : nodeOK ns → nodeOK (set_ns_DrainPreview pv ns).
Proof. intros []. by split. Qed.

Lemma nodeOK_markReady ns :
  nodeOK ns → nodeOK (ns |> set_ns_ReadyForMaintenance true |> set_ns_DrainProgress 100).
Proof. intros []. by split. Qed.

Lemma planTyped_markReady b name p : planTyped b p → planTyped b (markNodeReadyForMaintenance name p).1.
Proof.
  intros Hp. unfold markNodeReadyForMaintenance. destruct (findNodeStatus p name) as [ns|]; [|done].
  destruct (_ || _); [done|]. apply planTyped_mapNodes; [done|]. intros. by apply nodeOK_markReady.
Qed.

(** *** The statuses of UpdateStatus *)

Lemma driftOK_detect plan node :
  let d := DetectNodeDrift (Some node) plan in
  d.2 = DriftReasonMaintenanceComplete ∨ driftOK d.1 d.2.
Proof. unfold DetectNodeDrift. repeat case_match; cbn; auto. Qed.

Lemma driftOK_recorded plan node :
  planOK plan → let d := recordedDrift plan node in driftOK d.1 d.2.
Proof.
  intros Hp. unfold recordedDrift. pose proof (driftOK_detect plan node) as Hd. cbn zeta in Hd.
  destruct (DetectNodeDrift (Some node) plan) as [[] r]; cbn in *.
  - case_decide; [done|]. by destruct Hd.
  - unfold GetNodeDriftState. destruct (findNodeStatus plan (n_Name node)) as [ns|] eqn:Hf; cbn;
      case_decide; cbn; try done. by apply (ok_drift _ (findNodeStatus_OK _ _ _ Hp Hf)).
Qed.

Lemma indexStatuses_OK nodes x ns :
  Forall nodeOK nodes → indexStatuses nodes !! x = Some ns → nodeOK ns.
Proof.
  intros H. unfold indexStatuses. rewrite indexStatuses_acc, lookup_empty.
  destruct (findFirst _ (rev nodes)) as [ns'|] eqn:Hf; [|done]. intros [= <-].
  apply findFirst_Some in Hf as [Hin _]. rewrite list.Forall_forall in H. apply H.
  by apply list_elem_of_In, in_rev, list_elem_of_In.
Qed.

Lemma nodeOK_buildNodeStatus plan now node :
  planOK plan → nodeOK (buildNodeStatus (indexStatuses (ps_Nodes (p_Status plan))) plan now node).
Proof.
  intros Hp. unfold buildNodeStatus. pose proof (driftOK_recorded plan node Hp) as Hd. cbn zeta in Hd.
  destruct (recordedDrift plan node) as [d r]. cbn [fst snd] in Hd.
  assert (nodeOK (default zeroNodeStatus (indexStatuses (ps_Nodes (p_Status plan)) !! n_Name node)))
    as [N1 N2 N3 N4 N5 N6 N7 N8].
  { destruct (_ !! _) as [ns|] eqn:Hl; [|apply nodeOK_zero]. eapply indexStatuses_OK; [apply Hp|exact Hl]. }
  destruct (negb (isNodeReady node)); [|by split]. by case_match; split.
Qed.

(** ** Operations *)

Lemma typed_getPlan_bind b {A} (f : NodeMaintenancePlan → M A) :
  (∀ p, planTyped b p → typed b (f p)) → typed b (getPlan ≫= f).
Proof. intros Hf s Hs. apply rgM_bind, rgM_getPlan. by apply Hf. Qed.

Lemma typed_modifyPlan b f : (∀ p, planTyped b p → planTyped b (f p)) → typed b (modifyPlan f).
Proof. intros Hf. apply preserves_modifyPlan. intros s. apply Hf. Qed.

Lemma typed_setPlan b p : planTyped b p → typed b (setPlan p).
Proof. intros Hp s Hs. by apply rgM_setPlan. Qed.

Lemma typed_patchPlan original : typed false (patchPlan original).
Proof. intros s Hs. apply rgM_patchPlan; [apply Hs|done|]. intros p Hp. split; [by apply Hp|done]. Qed.

Lemma typed_patchPlanStatus original : typed true (patchPlanStatus original).
Proof. intros s Hs. apply rgM_patchPlanStatus; [done|done|]. intros p Hp. by apply Hp. Qed.

Lemma typed_liftProg b {A} (p : kprog A) : rg anyAnswer sendsOK p (λ _, True) → typed b (liftProg p).
Proof. intros Hp. apply preserves_liftProg. by eapply rg_mono. Qed.

#[export] Hint Resolve typed_patchPlan typed_patchPlanStatus : typed.

(** One step towards [typed]; leaves what is not structural. *)
Ltac typed_rule :=
  lazymatch goal with
  | |- preserves _ _ _ (getPlan ≫= _) => apply typed_getPlan_bind; intros ? ?
  | |- preserves _ _ _ (modifyPlan _) => apply typed_modifyPlan; intros ? ?
  | |- preserves _ _ _ (setPlan _) => apply typed_setPlan
  | |- preserves _ _ _ _ => keep_step
  end.
Ltac typed_step :=
  lazymatch goal with
  | |- typed _ ?m => first [solve [auto with typed nocore] | unfold typed]
  | |- preserves _ _ (λ s, planTyped ?b (st_plan s)) ?m =>
      first [ solve [change (typed b m); auto with typed nocore] | typed_rule ]
  | |- sendsOK _ => exact I
  | |- ∀ _, sendsOK _ => intros ?; exact I
  end.
Ltac typed_tac := repeat typed_step; try done.

Section Operations.
Context `{SO : SelectorOps} `{CO : ConditionOps} `{FO : FinalizerOps}.


Lemma typed_ensureFinalizer : typed false ensureFinalizer.
Proof. unfold ensureFinalizer. typed_tac. by eapply planTyped_same. Qed.

Lemma typed_ComputeSchedule b : typed b ComputeSchedule.
Proof. unfold ComputeSchedule. typed_tac. Qed.

Lemma typed_ResolveOwnedNodes b name : typed b (ResolveOwnedNodes name).
Proof. unfold ResolveOwnedNodes, indexOwnedNode. typed_tac. Qed.

#[local] Hint Resolve typed_ResolveOwnedNodes : typed.

Lemma typed_resolveDesired b : typed b resolveDesired.
Proof.
  unfold resolveDesired, ResolveNodes, resolveExplicitNodes, resolveExplicitStep, resolveSnapshotNodes,
    resolveSnapshotStep, resolveSelectorNodes. typed_tac.
Qed.

#[local] Hint Resolve typed_resolveDesired : typed.

Lemma typed_ComputeOwnershipResolution b : typed b ComputeOwnershipResolution.
Proof.
  unfold ComputeOwnershipResolution, indexNode, ComputeOwnership, classifyDesired, classifyManaged. typed_tac.
Qed.

(** Mutations of nodes leave the plan alone. *)
Lemma typed_ReconcileOwnership b res cordon : typed b (ReconcileOwnership res cordon).
Proof. unfold ReconcileOwnership, warnConflict, adoptStep, AdoptNode, patchNode. typed_tac. Qed.

Lemma typed_ReconcileDrift b res : typed b (ReconcileDrift res).
Proof. unfold ReconcileDrift, driftStep, ReleaseNode, patchNode. typed_tac. Qed.

Lemma typed_ReconcileCordon b res : typed b (ReconcileCordon res).
Proof.
  unfold ReconcileCordon, cordonStableStep, releaseStep, CordonNode, UncordonNode, ReleaseNode, patchNode.
  typed_tac.
Qed.

Lemma typed_CleanUp b : typed b CleanUp.
Proof. unfold CleanUp, cleanUpNode, UncordonNode, ReleaseNode, patchNode. typed_tac. Qed.

#[local] Hint Resolve typed_CleanUp : typed.

Lemma typed_handleDeletion : typed false handleDeletion.
Proof.
  unfold handleDeletion. typed_tac; [by eapply planTyped_same|].
  unfold ignoreNotFound. intros s Hs. apply rg_bind. eapply rg_post; [by apply typed_patchPlan|].
  by intros [s' o].
Qed.

(** *** UpdateStatus *)

Lemma typed_loadAll b ls : typed b (loadAll ls).
Proof. unfold loadAll. typed_tac. Qed.

Lemma typed_warnDisappearedNodes b existing res : typed b (warnDisappearedNodes existing res).
Proof. unfold warnDisappearedNodes, loadAll, warnDisappearedNode. typed_tac. Qed.

Lemma typed_setScheduled b cordoned : typed b (setScheduled cordoned).
Proof. unfold setScheduled. typed_tac. case_match; by apply planTyped_setCondition. Qed.

Lemma typed_setNodeNotReadyCondition b statuses : typed b (setNodeNotReadyCondition statuses).
Proof.
  unfold setNodeNotReadyCondition, notReadyStep. typed_tac. case_match; by apply planTyped_setCondition.
Qed.

#[local] Hint Resolve typed_loadAll typed_warnDisappearedNodes typed_setScheduled typed_setNodeNotReadyCondition : typed.

(** What turns a well-formed plan into one with a phase. *)
Definition establishes {A} (m : M A) : Prop := ∀ s, planTyped false (st_plan s) →
  rgM storedOK sendsOK m s (λ s' o, ∀ a, o = OK a → planTyped true (st_plan s')).

Lemma establishes_getPlan {A} (f : NodeMaintenancePlan → M A) :
  (∀ p, planTyped false p → establishes (f p)) → establishes (getPlan ≫= f).
Proof. intros Hf s Hs. apply rgM_bind, rgM_getPlan. by apply Hf. Qed.

Lemma establishes_bind {A B} (m : M A) (f : A → M B) :
  typed false m → (∀ a, establishes (f a)) → establishes (m ≫= f).
Proof.
  intros Hm Hf s Hs. apply rgM_bind. eapply rgM_post; [by apply Hm|].
  intros s' [a|e|] Hs'; [by apply Hf|done..].
Qed.

Lemma establishes_recompute {A} (m : M A) : typed true m → establishes (modifyPlan recomputePlanSummaries;; m).
Proof.
  intros Hm s Hs. apply rgM_bind, rgM_modifyPlan. eapply rgM_post; [apply Hm|]; [by eapply planTyped_recompute|].
  by intros s' o Hs' a _.
Qed.

Lemma establishes_UpdateStatus res : establishes (UpdateStatus res).
Proof.
  unfold UpdateStatus. apply establishes_getPlan. intros p [Hp _].
  do 3 (apply establishes_bind; [typed_tac|intros ?]).
  apply establishes_bind; [apply typed_modifyPlan; intros q [[_ _ Hph] _]|intros _].
  { split; [split; cbn; [|done|done]|done].
    apply Forall_fmap. apply Forall_true. intros node. by apply nodeOK_buildNodeStatus. }
  do 3 (apply establishes_bind; [apply typed_modifyPlan; intros q Hq;
    unfold setNodesSelected, setCordoned, setConflict; case_match; by apply planTyped_setCondition|intros _]).
  apply establishes_bind; [typed_tac|intros _].
  apply establishes_bind; [apply typed_modifyPlan; intros q Hq;
    unfold setDriftDetected; case_match; by apply planTyped_setCondition|intros _].
  apply establishes_bind; [typed_tac|intros _]. apply establishes_recompute. typed_tac.
  unfold persistSnapshot. case_match; [by eapply planTyped_same|done].
Qed.

(** *** Preview *)

Lemma typed_ReconcilePreview res : typed true (ReconcilePreview res).
Proof.
  unfold ReconcilePreview, previewNode, buildPDBIssues, buildPDBIssuesStep. typed_tac.
  - apply typed_liftProg. split; [done|]. intros [e|pods] _; cbn; [done|]. by split.
  - apply planTyped_mapNodes; [done|]. intros. by apply nodeOK_setPreview.
  - by eapply planTyped_same.
Qed.

(** *** The drain phase *)

Lemma typed_applyDrainResult b original r : resultOK r → typed b (applyDrainResult original r).
Proof.
  intros Hr. unfold applyDrainResult, clockYielded, updateNodeDrainStatus, setNodeIssues.
  assert (∀ name o issues p, outcomeOK o → planTyped b p → planTyped b (updateNodeDrainStatus name o issues p)) as Hup.
  { intros name o issues p Ho Hp. apply planTyped_mapNodes; [done|]. intros. by apply nodeOK_applyOutcome. }
  assert (typed b (plan ← getPlan;
    let '(plan', transitioned) := markNodeReadyForMaintenance (dr_NodeName r) plan in
    setPlan plan';;
    if transitioned
    then Eventf None EventTypeNormal "NodeReadyForMaintenance" "CompleteDrain"
           ("node " +:+ quote (dr_NodeName r) +:+ " is ready for maintenance")
    else mret tt)) as Hmark.
  { apply typed_getPlan_bind. intros p Hp. pose proof (planTyped_markReady b (dr_NodeName r) p Hp) as Hm.
    destruct (markNodeReadyForMaintenance (dr_NodeName r) p) as [p' tr]. typed_tac. }
  typed_tac; try (by apply Hup); apply planTyped_mapNodes; try done; intros;
    first [by apply nodeOK_applyOutcome|by apply nodeOK_setIssues].
Qed.

Lemma typed_finishDrainPass original fl : typed true (finishDrainPass original fl).
Proof.
  unfold finishDrainPass. typed_tac.
  - unfold setDrainConditions. repeat case_match; by repeat apply planTyped_setCondition.
  - by eapply planTyped_same.
  - by eapply planTyped_recompute.
Qed.

#[local] Hint Resolve typed_finishDrainPass : typed.

Lemma typed_rangeM_Forall b {A} (P : A → Prop) (xs : list A) (f : A → M unit) :
  Forall P xs → (∀ x, P x → typed b (f x)) → typed b (rangeM xs f).
Proof.
  intros H Hf. induction H as [|x xs Hx Hxs IH]; cbn [rangeM]; [by apply preserves_ret|].
  apply preserves_bind; [by apply Hf|done].
Qed.

Lemma typed_applyDrainResults results : Forall resultOK results → typed true (applyDrainResults results).
Proof.
  intros Hr. unfold applyDrainResults, endDrainPass, abortDrain. apply typed_getPlan_bind. intros p Hp.
  apply preserves_bind.
  { eapply typed_rangeM_Forall; [exact Hr|]. intros r. apply typed_applyDrainResult. }
  intros _. typed_tac.
  - unfold ensureDrainStarted. case_match; [done|by eapply planTyped_same].
  - unfold setTimedOutConditions. by repeat apply planTyped_setCondition.
Qed.

(** The synthetic results of nodes that are not ready have no pods. *)
Lemma rgM_selectTargets ls idx acc s :
  Forall resultOK acc.1 → planTyped true (st_plan s) →
  rgM storedOK sendsOK (foldM (selectDrainTarget idx) acc ls) s (λ s' o,
    planTyped true (st_plan s') ∧ ∀ r, o = OK r → Forall resultOK r.1).
Proof.
  revert acc s. induction ls as [|l ls IH]; intros acc s Hacc Hs; cbn [foldM].
  { rg_step. split; [done|]. by intros r [= <-]. }
  rg_step. unfold selectDrainTarget at 1. rg_step. rg_step; [|by split].
  rg_step. apply IH; [|done]. unfold selectNode.
  destruct (negb (n_Unschedulable n)); [done|]. destruct (negb (isNodeReady n)); [|done].
  apply Forall_app. split; [done|]. constructor; [apply outcomeOK_zero|constructor].
Qed.

Lemma typed_ReconcileDrain res : typed true (ReconcileDrain res).
Proof.
  unfold ReconcileDrain. apply typed_getPlan_bind. intros p Hp.
  destruct (getDrainConfig p); [|by apply preserves_ret].
  destruct (isConditionTrue p ConditionDrainTimedOut); [by apply preserves_ret|].
  intros s Hs. apply rgM_bind. eapply rgM_post; [apply rgM_selectTargets; [constructor|done]|].
  intros s' [[results nodes]|e|] [Hs' Hr]; [|done..]. specialize (Hr _ eq_refl). cbn [fst] in Hr.
  assert (rgM storedOK sendsOK (drained ← liftProg (drainNodes p nodes);
    applyDrainResults (results ++ drained)) s' (λ s _, planTyped true (st_plan s))) as Hdrain.
  { apply rgM_bind, rg_bind.
    eapply rg_post; [apply rg_drainNodes_OK|].
    intros drained Hd. apply typed_applyDrainResults; [|done]. by apply Forall_app. }
  destruct results, nodes; [by rg_step|done..].
Qed.

#[local] Hint Resolve typed_handleDeletion typed_ensureFinalizer typed_ComputeOwnershipResolution : typed.
#[local] Hint Resolve typed_ComputeSchedule typed_ReconcileOwnership : typed.
#[local] Hint Resolve typed_ReconcilePreview typed_ReconcileDrift typed_ReconcileCordon typed_ReconcileDrain : typed.

(** A pass: well formed up to [UpdateStatus], with a phase from then on. *)
Definition proceeds {A} (m : M A) : Prop := ∀ s, planTyped false (st_plan s) →
  rgM storedOK sendsOK m s (λ _ _, True).

Lemma proceeds_bind {A B} (m : M A) (f : A → M B) :
  typed false m → (∀ a, proceeds (f a)) → proceeds (m ≫= f).
Proof.
  intros Hm Hf s Hs. apply rgM_bind. eapply rgM_post; [by apply Hm|].
  intros s' [a|e|] Hs'; [by apply Hf|done..].
Qed.

Lemma proceeds_establish {A B} (m : M A) (f : A → M B) :
  establishes m → (∀ a, typed true (f a)) → proceeds (m ≫= f).
Proof.
  intros Hm Hf s Hs. apply rgM_bind. eapply rgM_post; [by apply Hm|].
  intros s' [a|e|] Hs'; [|done..]. eapply rgM_post; [apply Hf; by eapply Hs'|done].
Qed.

Lemma proceeds_typed {A} (m : M A) : typed false m → proceeds m.
Proof. intros Hm s Hs. eapply rgM_post; [by apply Hm|done]. Qed.

Lemma proceeds_reconcilePass : proceeds reconcilePass.
Proof.
  unfold reconcilePass. apply proceeds_bind; [typed_tac|intros p].
  destruct (negb _); [apply proceeds_typed; typed_tac|].
  do 4 (apply proceeds_bind; [typed_tac|intros ?]).
  apply proceeds_establish; [apply establishes_UpdateStatus|intros _]. typed_tac.
Qed.

Lemma rg_Reconcile_typed name : rg storedOK sendsOK (Reconcile name) (λ _, True).
Proof.
  split; [done|]. intros [e|plan] Hr; cbn [pbind].
  - by destruct (IsNotFound e).
  - apply rg_bind. eapply rg_post; [apply proceeds_reconcilePass; split; [by apply Hr|done]|]. done.
Qed.

(** C14: the operator only stores well-formed statuses.  Suppose the plans the API
    server hands out are well formed (a plan without a phase yet included), a stored
    status comes back with a documented phase, and no node has more than 21474836
    pods.  Then every plan a reconcile sends to be stored, by any of its patches and
    whatever fails on the way, is well formed: drain progress is a percentage; the
    initial, total, evictable and blocked pod counts of a node are not negative, and
    the evictable and blocked ones add up to at most the total (the running total of
    evicted pods is only known to be an [int32]: it is summed without a bound); a
    node has a drift reason exactly when it is drifted; and the node count is the
    number of entries.  Every status it sends has one of the nine documented
    phases. *)
Theorem Reconcile_wellTyped name t o :
  run (Reconcile name) t o → answered storedOK t →
  ∀ e, e ∈ t → match ev_act e with
    | CPatchPlan _ p => planOK p
    | CPatchPlanStatus _ p => planOK p ∧ ps_Phase (p_Status p) ∈ phases
    | _ => True
    end.
Proof.
  intros Hrun Hans e He.
  destruct (rg_sound _ _ _ _ _ _ (rg_Reconcile_typed name) Hrun Hans) as [Hi _].
  pose proof (issued_elem _ _ _ Hi He) as Hs. destruct (ev_act e); try done.
  destruct Hs as [H1 H2]. split; [done|by apply H2].
Qed.
End Operations.

(** ** Witness *)

#[local] Instance noSelectors : SelectorOps := {| LabelSelectorAsSelector := λ _, inr (λ _, false) |}.

Lemma passTables_storedOK c w : sendsOK c → storedOK c (tableEnv passTables c w).1.
Proof.
  destruct c; cbn; try done.
  - intros _ pods [= <-]. by vm_compute.
  - intros _ p Hp. unfold lookupNamed in Hp. cbn in Hp.
    destruct (bool_decide _); [|done]. injection Hp as <-. by apply planOK_zero.
  - by intros Hp p [= <-].
  - by intros Hp p [= <-].
Qed.

Lemma passTables_answered : answered storedOK (runReconcile passTables "plan-a").1.
Proof.
  unfold runReconcile.
  apply (interp_answered_rg storedOK sendsOK (tableEnv passTables) (Reconcile "plan-a") (λ _, True));
    [exact passTables_storedOK|apply rg_Reconcile_typed].
Qed.

(** A pass over a cordoned node with one pod: the last status it stores. *)
Lemma Reconcile_wellTyped_witness :
  ∃ e original p, e ∈ (runReconcile passTables "plan-a").1 ∧ ev_act e = CPatchPlanStatus original p ∧
    planOK p ∧ ps_Phase (p_Status p) = PhaseDraining.
Proof.
  assert (∃ e, (runReconcile passTables "plan-a").1 !! 20%nat = Some e ∧
    match ev_act e with CPatchPlanStatus _ p => ps_Phase (p_Status p) = PhaseDraining | _ => False end)
    as (e & He & Hph) by (vm_compute; eexists; split; reflexivity).
  apply list_elem_of_lookup_2 in He.
  pose proof (Reconcile_wellTyped "plan-a" _ _ (runReconcile_run passTables "plan-a") passTables_answered e He) as Hp. cbn zeta in Hp.
  exists e. destruct (ev_act e); try done. destruct Hp as [Hp _]. eexists _, _. by split_and!.
Defined.
