(* ===== verification/Settle.v ===== *)
(** * A reconcile settles

    Reconciling twice is reconciling once: the second of two consecutive passes
    changes no node.  What a pass leaves in the plan's status ([follows]: the nodes
    it has let go stay recorded, the selector's snapshot stays taken) is what keeps
    the next one from undoing or repeating its work. *)
From S2P Require Import Prelude GoTime Api Prog Threads Kube Drift Conditions Schedule Filters.
From S2P Require Import Cordon Ownership DrainNode DrainStatus DrainPool DrainReconcile.
From S2P Require Import Status Preview Reconcile Controller Pass Cluster Refine WellTyped.

(** ** What a pass must not forget *)

(** The status records that the node has been let go. *)
Definition settledName (plan : NodeMaintenancePlan) (name : string) : bool :=
  (GetNodeDriftState plan name).1 || nodeCompletedMaintenance plan name.

Record follows (q p : NodeMaintenancePlan) : Prop := MkFollows {
  fl_name : p_Name p = p_Name q;
  fl_spec : p_Spec p = p_Spec q;
  fl_taken : ps_NodeSnapshotTaken (p_Status p) = ps_NodeSnapshotTaken (p_Status q);
  fl_resolved : ps_ResolvedNodes (p_Status p) = ps_ResolvedNodes (p_Status q);
  fl_settled name : settledName q name = true → settledName p name = true
}.

Lemma follows_refl q : follows q q.
Proof. by split. Qed.

Lemma follows_trans p q r : follows p q → follows q r → follows p r.
Proof. intros [H1 H2 H3 H4 H5] [K1 K2 K3 K4 K5]. split; [congruence..|auto]. Qed.

Lemma settledName_nodes p p' name :
  ps_Nodes (p_Status p') = ps_Nodes (p_Status p) → settledName p' name = settledName p name.
Proof.
  intros Hn. unfold settledName, GetNodeDriftState, nodeCompletedMaintenance, findNodeStatus. by rewrite Hn.
Qed.

(** Updates of the other fields. *)
Lemma follows_same q p p' :
  follows q p → p_Name p' = p_Name p → p_Spec p' = p_Spec p →
  ps_NodeSnapshotTaken (p_Status p') = ps_NodeSnapshotTaken (p_Status p) →
  ps_ResolvedNodes (p_Status p') = ps_ResolvedNodes (p_Status p) →
  ps_Nodes (p_Status p') = ps_Nodes (p_Status p) → follows q p'.
Proof.
  intros [H1 H2 H3 H4 H5] K1 K2 K3 K4 K5. split; [congruence..|]. intros name Hs.
  rewrite (settledName_nodes p) by done. by apply H5.
Qed.

(** An entry that is kept where it counts. *)
Definition keepsEntry (f : NodeStatus → NodeStatus) : Prop := ∀ ns,
  ns_Name (f ns) = ns_Name ns ∧ ns_Drifted (f ns) = ns_Drifted ns ∧
  (ns_ReadyForMaintenance ns = true → ns_ReadyForMaintenance (f ns) = true).

Lemma follows_mapNodes q p name f :
  keepsEntry f → follows q p →
  follows q (mapNodes (updateFirst (λ ns, bool_decide (ns_Name ns = name)) f) p).
Proof.
  intros Hf Hp. eapply follows_trans; [exact Hp|]. split; [done..|]. intros name' Hs.
  unfold settledName, GetNodeDriftState, nodeCompletedMaintenance in *.
  rewrite (findNodeStatus_mapNodes p f name name') by apply Hf.
  destruct (findNodeStatus p name') as [ns|]; [cbn in *|done]. destruct (Hf ns) as (_ & Hd & Hr).
  case_decide; [|done]. rewrite Hd. destruct (ns_Drifted ns); [done|]. by apply Hr.
Qed.

Section Following.
Context `{CO : ConditionOps}.

Lemma follows_setCondition q p t status reason msg :
  follows q p → follows q (setCondition p t status reason msg).
Proof. intros Hp. by eapply follows_same. Qed.

Lemma follows_recompute q p : follows q p → follows q (recomputePlanSummaries p).
Proof. intros Hp. by eapply follows_same. Qed.
End Following.

Lemma keepsEntry_applyOutcome o issues : keepsEntry (applyOutcome o issues).
Proof. intros ns. unfold applyOutcome. by repeat case_match. Qed.

#[local] Hint Resolve follows_setCondition follows_recompute keepsEntry_applyOutcome : follow.

(** ** Operations that follow a plan *)

(** Status patches are answered with the status sent. *)
Definition statusEcho : rely resp := λ c,
  match c return resp c → Prop with
  | CPatchPlanStatus _ m => λ r, ∀ p, r = inr p →
      p_Status p = p_Status m ∧ p_Name p = p_Name m ∧ p_Spec p = p_Spec m
  | _ => λ _, True
  end.

Definition sendsFollowing (q : NodeMaintenancePlan) : guar call := λ c,
  match c with CPatchPlanStatus _ m => follows q m | CPatchPlan _ _ => False | _ => True end.

Section Operations.
Context `{SO : SelectorOps} `{CO : ConditionOps}.
Context (q : NodeMaintenancePlan).

Definition follow {A} (m : M A) : Prop := preserves statusEcho (sendsFollowing q) (λ s, follows q (st_plan s)) m.

Lemma follow_getPlan_bind {A} (f : NodeMaintenancePlan → M A) :
  (∀ p, follows q p → follow (f p)) → follow (getPlan ≫= f).
Proof. intros Hf s Hs. apply rgM_bind, rgM_getPlan. by apply Hf. Qed.

Lemma follow_modifyPlan f : (∀ p, follows q p → follows q (f p)) → follow (modifyPlan f).
Proof. intros Hf. apply preserves_modifyPlan. intros s. apply Hf. Qed.

Lemma follow_setPlan p : follows q p → follow (setPlan p).
Proof. intros Hp s Hs. by apply rgM_setPlan. Qed.

Lemma follow_patchPlanStatus original : follow (patchPlanStatus original).
Proof.
  intros s Hs. apply rgM_patchPlanStatus; [done|done|]. intros p Hp. destruct (Hp p eq_refl) as (H1 & H2 & H3).
  cbn. eapply follows_same; [exact Hs|done|done|by rewrite H1..].
Qed.

Lemma follow_liftProg {A} (p : kprog A) : rg anyAnswer (sendsFollowing q) p (λ _, True) → follow (liftProg p).
Proof. intros Hp. apply preserves_liftProg. by eapply rg_mono. Qed.

Ltac follow_step :=
  lazymatch goal with
  | |- follow ?m => first [solve [auto with follow nocore] | unfold follow]
  | |- preserves _ _ _ ?m =>
      first [ solve [change (follow m); auto with follow nocore]
            | lazymatch goal with
              | |- preserves _ _ _ (getPlan ≫= _) => apply follow_getPlan_bind; intros ? ?
              | |- preserves _ _ _ (modifyPlan _) => apply follow_modifyPlan; intros ? ?
              | |- preserves _ _ _ (setPlan _) => apply follow_setPlan
              | |- preserves _ _ _ _ => keep_step
              end ]
  | |- sendsFollowing _ _ => exact I
  | |- ∀ _, sendsFollowing _ _ => intros ?; exact I
  end.
Ltac follow_tac := repeat follow_step; try done.

#[local] Hint Resolve follow_patchPlanStatus : follow.

Lemma follow_ReconcileDrift res : follow (ReconcileDrift res).
Proof. unfold ReconcileDrift, driftStep, ReleaseNode, patchNode. follow_tac. Qed.

Lemma follow_ReconcileCordon res : follow (ReconcileCordon res).
Proof.
  unfold ReconcileCordon, cordonStableStep, releaseStep, CordonNode, UncordonNode, ReleaseNode, patchNode.
  follow_tac.
Qed.

Lemma follow_ReconcilePreview res : follow (ReconcilePreview res).
Proof.
  unfold ReconcilePreview, previewNode, buildPDBIssues, buildPDBIssuesStep. follow_tac.
  - apply follow_liftProg. split; [done|]. intros [e|pods] _; cbn; [done|]. by split.
  - by apply follows_mapNodes.
  - by eapply follows_same.
Qed.

Lemma follow_applyDrainResult original r : follow (applyDrainResult original r).
Proof.
  unfold applyDrainResult, clockYielded, updateNodeDrainStatus, setNodeIssues.
  assert (follow (plan ← getPlan;
    let '(plan', transitioned) := markNodeReadyForMaintenance (dr_NodeName r) plan in
    setPlan plan';;
    if transitioned
    then Eventf None EventTypeNormal "NodeReadyForMaintenance" "CompleteDrain"
           ("node " +:+ quote (dr_NodeName r) +:+ " is ready for maintenance")
    else mret tt)) as Hmark.
  { apply follow_getPlan_bind. intros p Hp.
    assert (follows q (markNodeReadyForMaintenance (dr_NodeName r) p).1) as Hm.
    { unfold markNodeReadyForMaintenance. repeat case_match; try done. by apply follows_mapNodes. }
    destruct (markNodeReadyForMaintenance (dr_NodeName r) p) as [p' tr]. follow_tac. }
  follow_tac; apply follows_mapNodes; auto with follow. by intros ns.
Qed.

#[local] Hint Resolve follow_applyDrainResult : follow.

Lemma follow_applyDrainResults results : follow (applyDrainResults results).
Proof.
  unfold applyDrainResults, endDrainPass, abortDrain, finishDrainPass, ensureDrainStarted, setTimedOutConditions,
    setDrainConditions.
  follow_tac; repeat case_match; auto with follow; by eapply follows_same.
Qed.

#[local] Hint Resolve follow_applyDrainResults : follow.

Lemma follow_ReconcileDrain res : follow (ReconcileDrain res).
Proof.
  unfold ReconcileDrain, selectDrainTarget. follow_tac.
  all: apply follow_liftProg; eapply rg_mono; [apply rg_drainNodes|done|by intros []|done].
Qed.

#[local] Hint Resolve follow_ReconcileDrift follow_ReconcileCordon follow_ReconcilePreview follow_ReconcileDrain : follow.

(** The steps after the status. *)
Lemma follow_afterStatus res (schedule : PlanSchedule) :
  follow (ReconcilePreview res;;
    ReconcileDrift res;;
    (if sr_ShouldAct (sch_Cordon schedule) then ReconcileCordon res else mret tt);;
    drainRequeue ← (if sr_ShouldAct (sch_Drain schedule) then ReconcileDrain res else mret 0);
    plan ← getPlan;
    perform (CRecordPlan plan);;
    mret (if negb (drainRequeue =? 0) then drainRequeue else sch_RequeueAfter schedule)).
Proof. follow_tac. Qed.
End Operations.

(** ** The plan on the server *)

(** With nobody else writing, the server stores the status it is sent. *)
Definition echoing (h : ∀ c, cluster → resp c * cluster) : Prop :=
  ∀ original m σ p, (h (CPatchPlanStatus original m) σ).1 = inr p → p_Status p = p_Status m.

Section Server.
Context `{SO : SelectorOps} `{CL : ConditionLaws} `{FL : FinalizerLaws}.
Context (now : Time) (h : ∀ c, cluster → resp c * cluster) (Hf : faithful now h) (He : echoing h).

Abbreviation alone := (tpM eq keyed (servedBy h) (λ _ _ _, True)).

#[local] Existing Instance reading_dec.

Let Hh : responsive h := faithful_responsive now h Hf.

Definition stored (P : string) (q : NodeMaintenancePlan) (σ : cluster) : Prop :=
  ∃ c, cl_plans σ !! P = Some c ∧ follows q c ∧ IsZero (p_DeletionTimestamp c) = true.

(** A status that reaches the server. *)
Lemma answered_status original m c σ r σ' :
  keyed σ → cl_plans σ !! p_Name m = Some c → h (CPatchPlanStatus original m) σ = (r, σ') →
  r = inr (set_p_Status (p_Status m) c) ∧ σ' = storePlan (set_p_Status (p_Status m) c) σ.
Proof.
  intros Hk Hc Hr. pose proof (responsive_serve h Hh (CPatchPlanStatus original m) σ) as Hsv.
  pose proof (faithful_answer now h Hf (CPatchPlanStatus original m) σ Hk) as Ha.
  pose proof (He original m σ) as Hecho. rewrite Hr in Hsv, Ha, Hecho. cbn [fst snd] in *.
  destruct r as [e|p]; [cbn in Ha; congruence|]. destruct Hsv as (c' & status & Hc' & -> & ->).
  rewrite Hc in Hc'. injection Hc' as <-. specialize (Hecho _ eq_refl). cbn in Hecho. by subst.
Qed.

Lemma stored_status P q m c σ :
  p_Name q = P → keyed σ → follows q m → cl_plans σ !! P = Some c → follows q c →
  IsZero (p_DeletionTimestamp c) = true →
  follows q (set_p_Status (p_Status m) c) ∧ stored P q (storePlan (set_p_Status (p_Status m) c) σ).
Proof.
  intros HP Hk Hm Hc Hqc Hdel.
  assert (follows q (set_p_Status (p_Status m) c)) as Hf'.
  { eapply follows_same; [exact Hm|..]; try done; cbn.
    - rewrite (fl_name _ _ Hqc). symmetry. apply Hm.
    - rewrite (fl_spec _ _ Hqc). symmetry. apply Hm. }
  split; [done|]. exists (set_p_Status (p_Status m) c). split; [|done]. cbn. rewrite Hdel. cbn.
  rewrite (proj2 Hk _ _ Hc). apply lookup_insert_eq.
Qed.

Lemma alone_follow {A} (m : M A) q s σ :
  follow q m → follows q (st_plan s) → stored (p_Name q) q σ →
  alone m s σ (λ s' _ σ', follows q (st_plan s') ∧ stored (p_Name q) q σ').
Proof.
  intros Hm Hs Hst. eapply tp_mono; [eapply (tp_rg _ _ _ _ statusEcho (sendsFollowing q) (stored (p_Name q) q))|].
  - by intros σ1 σ2 ? <-.
  - intros c r σ1 σ2 HI Hk Hc Hr. unfold servedBy in Hr. cbn in Hr.
    pose proof (responsive_serve h Hh c σ1) as Hsv. rewrite Hr in Hsv. cbn [fst snd] in Hsv.
    destruct (decide (reading c)) as [Hrd|Hrd].
    { rewrite (serve_reading _ _ _ _ Hrd Hsv). by destruct c. }
    destruct c; try (by destruct Hrd; exact I); [|done|].
    + by apply serve_patchNode in Hsv as [[-> _]|(c & _ & -> & _)].
    + destruct HI as (c & Hplan & Hqc & Hdel). cbn in Hc.
      destruct (answered_status original modified c σ1 r σ2 Hk) as [-> ->]; [by rewrite (fl_name _ _ Hc)|done|].
      destruct (stored_status (p_Name q) q modified c σ1 eq_refl Hk Hc Hplan Hqc Hdel) as [Hq' Hst'].
      split_and!; [|done|done]. intros p [= <-]. cbn. split_and!; [done|..].
      * rewrite (fl_name _ _ Hqc). symmetry. apply Hc.
      * rewrite (fl_spec _ _ Hqc). symmetry. apply Hc.
  - by apply Hm.
  - done.
  - intros [s' o] σ' [H1 H2]. by split.
Qed.

Lemma alone_patchPlanStatus original c s σ (Q : st → outcome unit → cluster → Prop) :
  cl_plans σ !! p_Name (st_plan s) = Some c →
  (let p' := set_p_Status (p_Status (st_plan s)) c in Q (MkSt p' (st_heap s)) (OK tt) (storePlan p' σ)) →
  alone (patchPlanStatus original) s σ Q.
Proof.
  intros Hc HQ. apply tpM_getPlan_bind, tpM_bind. intros σ1 <- Hk r σ2 Hr. split; [done|].
  unfold servedBy in Hr. cbn in Hr. destruct (answered_status _ _ _ _ _ _ Hk Hc Hr) as [-> ->]. exact HQ.
Qed.

(** The status [UpdateStatus] leaves behind. *)
Lemma alone_UpdateStatus res q s σ :
  st_plan s = q → stored (p_Name q) q σ →
  alone (UpdateStatus res) s σ (λ s' o σ', o = OK tt → ∃ nodes t p,
    Forall2 (λ l n, st_heap s !! l = Some n) (ow_All res) nodes ∧
    updatedPlan res (buildNodeStatuses (indexStatuses (ps_Nodes (p_Status q))) nodes q t) q p ∧
    p_Name p = p_Name q ∧ p_Spec p = p_Spec q ∧
    follows p (st_plan s') ∧ stored (p_Name q) p σ').
Proof.
  intros Hq Hst. unfold UpdateStatus. apply tpM_getPlan_bind. rewrite Hq.
  apply tpM_bind, (alone_reads now h Hf).
  eapply rgM_post; [by apply (preserves_warnDisappearedNodes _ reading (eq s))|]. intros s1 o <-.
  destruct o as [[]|e|]; [|done..]. apply tpM_bind, (alone_read h Hh); [done|]. intros t _ _.
  apply tpM_bind, (alone_reads now h Hf).
  eapply rgM_mono; [apply (rgM_loadAll _)|done|by intros []|]. intros s1 o [-> Ho].
  destruct o as [nodes|e|]; [|done..]. specialize (Ho nodes eq_refl).
  do 4 apply tpM_modifyPlan_bind. cbn [st_plan st_heap]. rewrite Hq.
  apply tpM_bind, (alone_reads now h Hf).
  eapply rgM_mono; [apply (rgM_setScheduled _)|done|by intros []|]. intros s5 o [-> H5].
  apply tpM_modifyPlan_bind, tpM_bind, (alone_reads now h Hf).
  eapply rgM_mono; [apply (rgM_setNodeNotReadyCondition _)|done|by intros []|]. intros s7 o [-> H7].
  do 2 apply tpM_modifyPlan_bind. cbn [st_plan st_heap] in *.
  match goal with |- tpM _ _ _ _ (patchPlanStatus _) (MkSt ?p _) _ _ => set (p' := p) end.
  pose proof (updatedPlan_chain _ _ _ _ _ H5 H7 : updatedPlan res _ q p') as Hup.
  assert (p_Name p' = p_Name q) as Hn by by apply (updatedPlan_meta p_Name _ _ _ _ _ ltac:(done) H5 H7).
  assert (p_Spec p' = p_Spec q) as Hsp by by apply (updatedPlan_meta p_Spec _ _ _ _ _ ltac:(done) H5 H7).
  destruct Hst as (c & Hc & Hqc & Hdel).
  apply (alone_patchPlanStatus _ c); [cbn; by rewrite Hn|]. cbn zeta. intros _.
  exists nodes, t, p'. split_and!; try done.
  - eapply follows_same; [apply (follows_refl p')|..]; try done; cbn; rewrite ?Hn, ?Hsp; [apply Hqc..].
  - exists (set_p_Status (p_Status p') c). split; [|split; [|done]].
    + cbn. rewrite Hdel. cbn. rewrite (fl_name _ _ Hqc). apply lookup_insert_eq.
    + eapply follows_same; [apply (follows_refl p')|..]; try done; cbn; rewrite ?Hn, ?Hsp; [apply Hqc..].
Qed.
End Server.

(** ** What the next pass reads *)

Lemma findFirst_map_unique {A} (F : A → NodeStatus) (key : A → string) (xs : list A) x :
  (∀ x, ns_Name (F x) = key x) → NoDup (map key xs) → x ∈ xs →
  findFirst (λ ns, bool_decide (ns_Name ns = key x)) (map F xs) = Some (F x).
Proof.
  intros HF. induction xs as [|y xs IH]; intros Hnd Hx; [by apply elem_of_nil in Hx|]. cbn [map] in *.
  apply list.NoDup_cons in Hnd as [Hy Hnd]. cbn. rewrite HF.
  apply elem_of_cons in Hx as [->|Hx]; [by rewrite bool_decide_eq_true_2|].
  rewrite bool_decide_eq_false_2; [by apply IH|]. intros Heq. apply Hy. rewrite Heq. by apply list_elem_of_fmap_2.
Qed.

(** Completed maintenance is recognised by the entry that says ready. *)
Lemma DetectNodeDrift_complete q node :
  NoDup (map ns_Name (ps_Nodes (p_Status q))) →
  (DetectNodeDrift (Some node) q).1 = true → (DetectNodeDrift (Some node) q).2 = DriftReasonMaintenanceComplete →
  nodeCompletedMaintenance q (n_Name node) = true.
Proof.
  intros Hnd. unfold DetectNodeDrift, nodeCompletedMaintenance.
  destruct (n_Annotations node); [|done]. destruct (decide _); [done|].
  destruct (_ && _ && _); [|by destruct (_ && _ && _)].
  destruct (existsb _ _) eqn:Hex; [|done]. intros _ _. apply existsb_exists in Hex as (ns & Hin & Hns).
  apply andb_true_iff in Hns as [Hname%bool_decide_eq_true Hr]. apply list_elem_of_In in Hin.
  unfold findNodeStatus. rewrite <-Hname.
  pose proof (findFirst_map_unique id ns_Name (ps_Nodes (p_Status q)) ns (λ _, eq_refl) Hnd Hin) as Hfind.
  rewrite map_id in Hfind. by rewrite Hfind.
Qed.

(** A node that was let go, or is about to be, is recorded as such. *)
Lemma settled_updated q nodes t p node :
  planOK q → NoDup (map ns_Name (ps_Nodes (p_Status q))) → NoDup (map n_Name nodes) → node ∈ nodes →
  ps_Nodes (p_Status p) = buildNodeStatuses (indexStatuses (ps_Nodes (p_Status q))) nodes q t →
  settledName q (n_Name node) = true ∨ (DetectNodeDrift (Some node) q).1 = true →
  settledName p (n_Name node) = true.
Proof.
  intros Hok Hnd Hnodes Hin Hps Hor.
  pose proof (λ node, buildNodeStatus_carries q t node Hnd) as Hcarry. cbn zeta in Hcarry.
  set (F := buildNodeStatus (indexStatuses (ps_Nodes (p_Status q))) q t) in *.
  assert (findNodeStatus p (n_Name node) = Some (F node)) as Hfind.
  { unfold findNodeStatus. rewrite Hps. apply (findFirst_map_unique F n_Name); [|done..].
    intros x. by destruct (Hcarry x) as [-> _]. }
  destruct (Hcarry node) as (_ & _ & _ & _ & _ & _ & _ & _ & Hready & _ & _ & _ & Hdr).
  unfold settledName, GetNodeDriftState, nodeCompletedMaintenance. rewrite Hfind. cbn [fst].
  destruct (nodeCompletedMaintenance q (n_Name node)) eqn:Hc.
  { unfold nodeCompletedMaintenance in Hc. destruct (findNodeStatus q (n_Name node)) as [ns|]; [|done].
    cbn in Hready. rewrite Hready, Hc. apply orb_true_r. }
  assert (ns_Drifted (F node) = true) as ->; [|done]. apply Hdr.
  destruct (DetectNodeDrift (Some node) q).1 eqn:Hd.
  - intros Hmc. pose proof (DetectNodeDrift_complete q node Hnd Hd Hmc). congruence.
  - destruct Hor as [Hs|?]; [|done]. unfold settledName in Hs. rewrite Hc, orb_false_r in Hs.
    split; [done|]. unfold GetNodeDriftState in *. destruct (findNodeStatus q (n_Name node)) as [ns|] eqn:Hq; [|done].
    pose proof (ok_drift _ (findNodeStatus_OK _ _ _ Hok Hq)) as Hdok. cbn in *. rewrite Hs in Hdok.
    by destruct Hdok as [-> | ->].
Qed.

(** Drift handling lets go of what drift detection detects. *)
Lemma letGo_detected q n :
  owner n = p_Name q → p_Name q ≠ "" →
  cordonEnabled q && operatorCordoned n && negb (n_Unschedulable n) = true →
  (DetectNodeDrift (Some n) q).1 = true.
Proof.
  intros Ho HP Hc. unfold DetectNodeDrift.
  destruct (n_Annotations n) eqn:Ha; [|exfalso; apply (owner_annotated n); congruence].
  rewrite decide_False by (intros Hne; congruence). rewrite Hc. by destruct (existsb _ _).
Qed.

Section Wants.
Context `{SO : SelectorOps} `{CO : ConditionOps}.

(** The next pass wants the same nodes. *)
Lemma wants_next σ s q res statuses p p2 n n' :
  desiredRoster σ q res s → updatedPlan res statuses q p → p_Spec p = p_Spec q → follows p p2 →
  cl_nodes σ !! n_Name n = Some n → n_Name n' = n_Name n → wants p2 n' = wants q n.
Proof.
  intros (_ & _ & Hsnap) (_ & _ & _ & _ & _ & _ & _ & _ & _ & _ & _ & Hup) Hspec Hfo Hn Hname.
  assert (wants p2 n' = wants p n') as ->.
  { unfold wants. by rewrite (fl_spec _ _ Hfo), (fl_taken _ _ Hfo), (fl_resolved _ _ Hfo). }
  unfold wants, resolved in *. rewrite Hspec, Hname.
  destruct (s_NodeSelector (p_Spec q)) as [sel|]; [|done].
  destruct (ps_NodeSnapshotTaken (p_Status q)) eqn:Ht.
  - rewrite Hsnap in Hup. by destruct Hup as [-> ->]; rewrite ?Ht.
  - destruct Hsnap as (names & Heq & Hnames). rewrite Heq in Hup. destruct Hup as [-> ->]. specialize (Hnames n Hn).
    destruct (selects sel n); [by apply bool_decide_eq_true_2, Hnames|].
    apply bool_decide_eq_false_2. intros Hin. by apply Hnames in Hin.
Qed.
End Wants.

(** ** The plan after a pass *)

Section Reported.
Context `{SO : SelectorOps}.
Context (plan : NodeMaintenancePlan) (res : OwnershipResolution) (σ : cluster) (s0 : st).
Context (HP : p_Name plan ≠ "") (Hros : rosters σ plan res s0) (Hdes : desiredRoster σ plan res s0).

Definition takes (open : bool) : Node → Node :=
  after plan ToTake (adopted plan (cordonEnabled plan && open)) (λ n, n).

Lemma namesAt_same s ls :
  (∀ l, n_Name <$> st_heap s !! l = n_Name <$> st_heap s0 !! l) → namesAt s ls = namesAt s0 ls.
Proof. intros Hs. unfold namesAt. induction ls as [|l ls IH]; [done|]. cbn. by rewrite Hs, IH. Qed.

Lemma namesAt_loaded s ls nodes :
  Forall2 (λ l n, st_heap s !! l = Some n) ls nodes → namesAt s ls = map n_Name nodes.
Proof. unfold namesAt. induction 1 as [|l n ls nodes Hl _ IH]; [done|]. cbn. by rewrite Hl, IH. Qed.

(** The nodes the status is built from. *)
Lemma reported_nodes open s σ' nodes :
  staged res σ s0 (takes open) s σ' → Forall2 (λ l n, st_heap s !! l = Some n) (ow_All res) nodes →
  NoDup (map n_Name nodes) ∧
  ∀ n, cl_nodes σ !! n_Name n = Some n → wants plan n = true → owner n = "" ∨ owner n = p_Name plan →
    takes open n ∈ nodes.
Proof.
  intros (_ & _ & Hheap & Hnames) Hall. destruct Hdes as (Hroster & Hsub & _). split.
  - rewrite <-(namesAt_loaded s _ _ Hall), namesAt_same by done. apply Hroster.
  - intros n Hn Hw Ho.
    assert (∃ r, roleOf plan n = r ∧ r ≠ Aside ∧ ∀ l, l ∈ listOf res r → l ∈ ow_All res) as (r & Hr & Hra & Hl).
    { unfold roleOf. rewrite Hw. destruct Ho as [->|Ho].
      - rewrite decide_True by done. exists ToTake. split_and!; [done|done|]. intros l Hl. apply Hsub. set_solver.
      - rewrite decide_False, decide_True by congruence. exists ToKeep. split_and!; [done|done|].
        intros l Hl. apply Hsub. set_solver. }
    destruct (roster_role plan res σ s0 HP Hros r Hra) as (_ & _ & Hcur & Hin).
    specialize (Hin n Hn Hr). apply elem_of_namesAt in Hin as (l & n0 & Hlr & Hn0 & Hname).
    destruct (Hcur l Hlr) as (n1 & Hn1 & Hc & _). assert (n1 = n) as -> by congruence.
    specialize (Hheap r l Hlr). rewrite Hn1 in Hheap. cbn in Hheap.
    specialize (Hl l Hlr). apply list_elem_of_lookup in Hl as [i Hi].
    destruct (Forall2_lookup_l _ _ _ _ _ Hall Hi) as (m & Hm & Hlm).
    assert (m = takes open n) as <- by congruence. by eapply list_elem_of_lookup_2.
Qed.

Lemma takes_name open n : n_Name (takes open n) = n_Name n.
Proof. unfold takes, after. case_decide; [by apply adopted_view|done]. Qed.

(** What the next pass finds. *)
Record nextPlan (p : NodeMaintenancePlan) : Prop := MkNextPlan {
  np_name : p_Name p = p_Name plan;
  np_spec : p_Spec p = p_Spec plan;
  np_wants n n' : cl_nodes σ !! n_Name n = Some n → n_Name n' = n_Name n → wants p n' = wants plan n;
  np_settled n : cl_nodes σ !! n_Name n = Some n → wants plan n = true →
    (owner n = "" ∧ settledAs plan n = true) ∨
    (owner n = p_Name plan ∧ cordonEnabled plan && operatorCordoned n && negb (n_Unschedulable n) = true) →
    settledName p (n_Name n) = true
}.

Lemma next_plan `{CO : ConditionOps} open s σ' nodes t p p2 :
  planOK plan → NoDup (map ns_Name (ps_Nodes (p_Status plan))) →
  staged res σ s0 (takes open) s σ' → Forall2 (λ l n, st_heap s !! l = Some n) (ow_All res) nodes →
  updatedPlan res (buildNodeStatuses (indexStatuses (ps_Nodes (p_Status plan))) nodes plan t) plan p →
  p_Name p = p_Name plan → p_Spec p = p_Spec plan → follows p p2 → nextPlan p2.
Proof.
  intros Hok Hnd Hst Hall Hup Hname Hspec Hfo.
  destruct (reported_nodes open s σ' nodes Hst Hall) as [Hdist Hin]. split.
  - rewrite (fl_name _ _ Hfo). exact Hname.
  - rewrite (fl_spec _ _ Hfo). exact Hspec.
  - intros n n'. by eapply wants_next.
  - intros n Hn Hw Hor. apply (fl_settled _ _ Hfo).
    rewrite <-(takes_name open n). eapply (settled_updated plan nodes t p); [done|done|done| |apply Hup|].
    + apply Hin; [done|done|]. destruct Hor as [[? _]|[? _]]; auto.
    + rewrite takes_name. destruct Hor as [[Ho Hs]|[Ho Hc]]; [by left|right].
      assert (takes open n = n) as ->; [|by apply letGo_detected].
      unfold takes, after. rewrite decide_False; [done|]. unfold roleOf.
      by rewrite decide_False, decide_True, Hw by congruence.
Qed.
End Reported.

Section Pass.
Context `{SO : SelectorOps} `{CL : ConditionLaws} `{FL : FinalizerLaws}.
Context (now : Time) (h : ∀ c, cluster → resp c * cluster) (Hf : faithful now h) (He : echoing h).

Abbreviation alone := (tpM eq keyed (servedBy h) (λ _ _ _, True)).

(** A plan whose status is as the operator leaves it. *)
Definition tidyStatus (plan : NodeMaintenancePlan) : Prop :=
  planOK plan ∧ NoDup (map ns_Name (ps_Nodes (p_Status plan))).

Lemma alone_pass_plan P plan σ :
  P ≠ "" → p_Name plan = P → cl_plans σ !! P = Some plan → IsZero (p_DeletionTimestamp plan) = true →
  keyed σ → selectorOK plan → tidyStatus plan →
  alone reconcilePass (MkSt plan []) σ (λ _ _ σ', ∃ p2,
    cl_plans σ' !! P = Some p2 ∧ IsZero (p_DeletionTimestamp p2) = true ∧ nextPlan plan σ p2).
Proof.
  intros HP Hp Hplan Hdel Hk Hsel [Hok Hnd]. unfold reconcilePass. apply tpM_getPlan_bind. cbn [st_plan].
  rewrite Hdel. cbn [negb]. apply tpM_bind.
  eapply tpM_post; [by apply (alone_ensureFinalizer now h Hf P)|].
  intros s1 o σ1 (-> & Hk1 & Hnodes & fs & -> & Hplan1). set (plan1 := set_p_Finalizers fs plan) in *.
  assert (p_Name plan1 ≠ "") as HP1 by (cbn; congruence).
  assert (cl_plans σ1 !! p_Name plan1 = Some plan1) as Hstored1 by (cbn; by rewrite Hp).
  apply tpM_bind, (alone_reads now h Hf).
  eapply rgM_post; [by apply (rgM_resolution now σ1 Hk1 plan1)|].
  intros s2 o (Hp2 & res & -> & Hros & Hdes). apply tpM_bind, (alone_ComputeSchedule now h Hf). rewrite Hp2.
  set (schedule := scheduleAt plan1 now). apply tpM_bind.
  eapply tpM_post; [apply (alone_ReconcileOwnership now h Hf plan1 res σ1 s2); [done..|by apply inStage_start]|].
  intros s3 o σ3 (-> & Hst3 & Hp3 & Hps3). apply tpM_bind.
  eapply tpM_post; [eapply tpM_and;
    [eapply (alone_calm h plan1 res σ1 s2 Hros); [intros; by eapply calm_UpdateStatus|exact Hst3]
    |apply (alone_UpdateStatus now h Hf He res plan1)]; [done|]|].
  { exists plan1. split; [by rewrite Hps3|]. split; [apply follows_refl|done]. }
  intros s4 o σ4 [[[[] ->] _] Hup]. destruct (Hup eq_refl) as (nodes & t & p & Hall & Hupd & Hn & Hs & Hfo & Hst).
  rewrite <-Hn in Hst.
  eapply tpM_post; [by eapply (alone_follow now h Hf He _ p); [apply follow_afterStatus|..]|].
  intros s5 o σ5 [_ (p2 & Hp2' & Hfo2 & Hdel2)]. exists p2. rewrite Hn in Hp2'. cbn in Hp2'. rewrite Hp in Hp2'.
  split; [done|]. split; [done|].
  pose proof (next_plan plan1 res σ1 s2 HP1 Hros Hdes (sr_ShouldAct (sch_Cordon schedule)) s3 σ3 nodes t p p2) as Hnext.
  destruct Hnext as [N1 N2 N3 N4]; try done; [by eapply planOK_same|apply Hst3|].
  split; [done|done| |]; rewrite Hnodes in *; [exact N3|exact N4].
Qed.
End Pass.

(** ** A pass over its own result *)
Section Twice.
Context `{SO : SelectorOps}.

Lemma annotationPresent_merge n m : annotationPresent (mergeNode n m n) = annotationPresent m.
Proof.
  unfold annotationPresent, mapGet. by destruct (mergeNode_self n m CordonedAnnotation) as (-> & _).
Qed.

Lemma adoptMutation_present plan n m :
  adoptMutation plan false n = Some m → annotationPresent m = annotationPresent n.
Proof.
  unfold adoptMutation, annotationPresent. pose proof (mapInit_get (n_Annotations n)) as Hget.
  destruct (mapInit_Some (n_Annotations n)) as [a Ha]. rewrite Ha in *.
  destruct (mapInit_Some (n_Labels n)) as [b ->]. cbn. intros [= <-]. cbn.
  rewrite !mapGet_insert. by rewrite !decide_False, Hget.
Qed.

(** The fields of a view. *)
Lemma view_fields n o u c :
  viewOf n = MkNodeView o u c → owner n = o ∧ n_Unschedulable n = u ∧ operatorCordoned n = c.
Proof. by intros [= <- <- <-]. Qed.

(** Nothing is left to do for a node. *)
Lemma nodeAfter_steady p open n :
  p_Name p ≠ "" → owner n = p_Name p → wants p n = true →
  cordonEnabled p && operatorCordoned n && negb (n_Unschedulable n) = false →
  (open = true → cordonResult p n = n) → nodeAfter p open n = n.
Proof.
  intros HP Ho Hw Hc Hres. unfold nodeAfter, roleOf. rewrite decide_False, decide_True, Hw by congruence.
  assert (letGo p n = n) as ->. { unfold letGo. by rewrite bool_decide_eq_true_2, andb_true_l, Hc by done. }
  destruct open; [|done]. unfold recordoned. by rewrite (Hres eq_refl), mergeNode_id.
Qed.

Lemma nodeAfter_aside p open n : owner n ≠ "" ∨ wants p n = false → owner n ≠ p_Name p → nodeAfter p open n = n.
Proof.
  intros Hor Hne. unfold nodeAfter, roleOf.
  destruct (decide (owner n = "")), (wants p n); try done; [by destruct Hor|by rewrite decide_False..].
Qed.

Lemma nodeAfter_settledFree p open n :
  owner n = "" → wants p n = true → settledAs p n = true → nodeAfter p open n = n.
Proof.
  intros Ho Hw Hs. unfold nodeAfter, roleOf. rewrite decide_True, Hw by done. unfold adopted. by rewrite Hs.
Qed.

(** Cordoning twice is cordoning once. *)
Lemma cordonResult_again p p' n :
  p_Name p' = p_Name p → p_Spec p' = p_Spec p → cordonResult p' (recordoned p n) = recordoned p n.
Proof.
  intros Hn Hs. unfold cordonResult at 1.
  assert (cordonEnabled p' = cordonEnabled p) as -> by (unfold cordonEnabled; by rewrite Hs). rewrite Hn.
  destruct (recordoned_view p n) as [_ Hv].
  destruct (decide (owner (recordoned p n) ≠ p_Name p)) as [?|Ho%dec_stable]; [done|].
  destruct (decide (owner n = p_Name p)) as [Hon|Hon].
  2: { unfold recordoned, cordonResult. rewrite decide_True by done. rewrite mergeNode_id. apply view_fields in Hv as (Hv & _). congruence. }
  unfold alreadyCordoned. destruct (cordonEnabled p) eqn:Hen; apply view_fields in Hv as (_ & -> & ->); [done|].
  cbn [negb]. rewrite andb_true_r.
  destruct (n_Unschedulable n && negb (operatorCordoned n)) eqn:E; [done|]. cbn [negb andb].
  assert (annotationPresent (recordoned p n) = false) as ->; [|done].
  unfold recordoned. rewrite annotationPresent_merge. unfold cordonResult.
  rewrite decide_False, Hen, E by (by intros Hne). destruct (negb (n_Unschedulable n) && negb (annotationPresent n)) eqn:E2.
  - by apply andb_true_iff in E2 as [_ E2%negb_true_iff].
  - unfold annotationPresent. cbn. rewrite mapDelete_get. by case_decide.
Qed.

Section Again.
Context (p p' : NodeMaintenancePlan) (HP : p_Name p ≠ "").
Context (Hn : p_Name p' = p_Name p) (Hs : p_Spec p' = p_Spec p).

Lemma enabled_same : cordonEnabled p' = cordonEnabled p.
Proof. unfold cordonEnabled. by rewrite Hs. Qed.

Lemma again_free open n :
  owner n = "" → annotationPresent n = false →
  wants p' (nodeAfter p open n) = wants p n →
  (wants p n = true → settledAs p n = true → settledAs p' (nodeAfter p open n) = true) →
  nodeAfter p' open (nodeAfter p open n) = nodeAfter p open n.
Proof.
  intros Ho Hfree Hw Hset. destruct (wants p n) eqn:Hwant.
  2: { assert (nodeAfter p open n = n) as Heq by (apply nodeAfter_aside; [by right|congruence]).
       rewrite Heq in *. apply nodeAfter_aside; [by right|congruence]. }
  destruct (settledAs p n) eqn:Hsn.
  { assert (nodeAfter p open n = n) as Heq by by apply nodeAfter_settledFree. rewrite Heq in *.
    apply nodeAfter_settledFree; auto. }
  assert (nodeAfter p open n = adopted p (cordonEnabled p && open) n) as Heq
    by (unfold nodeAfter, roleOf; by rewrite decide_True, Hwant).
  rewrite Heq in *. clear Heq. set (c := cordonEnabled p && open) in *.
  destruct (adopted_view p c n) as [_ Hv]. rewrite Hsn in Hv. apply view_fields in Hv as (Hvo & Hvu & Hvm).
  rewrite (annotationPresent_operator n Hfree), orb_false_r in Hvm.
  apply nodeAfter_steady; [congruence|congruence|done| |].
  - rewrite Hvm, Hvu. destruct c; [by rewrite andb_false_r|by rewrite andb_false_r].
  - intros ->. unfold cordonResult. rewrite decide_False by (intros Hne; congruence). rewrite enabled_same.
    unfold alreadyCordoned. rewrite Hvu, Hvm. subst c. destruct (cordonEnabled p); [done|]. cbn [andb orb negb].
    rewrite andb_true_r. destruct (n_Unschedulable n); [done|]. cbn [negb andb].
    assert (annotationPresent (adopted p false n) = false) as ->; [|done].
    unfold adopted. rewrite Hsn, annotationPresent_merge.
    destruct (adoptMutation_Some p false n) as [m Hm]. rewrite Hm. cbn. by rewrite (adoptMutation_present _ _ _ Hm).
Qed.

Lemma again_owned open n :
  owner n = p_Name p →
  wants p' (nodeAfter p open n) = wants p n →
  (wants p n = true → cordonEnabled p && operatorCordoned n && negb (n_Unschedulable n) = true →
   settledAs p' (nodeAfter p open n) = true) →
  nodeAfter p' open (nodeAfter p open n) = nodeAfter p open n.
Proof.
  intros Ho Hw Hset.
  assert (nodeAfter p open n = if wants p n then (if open then recordoned p (letGo p n) else letGo p n)
    else if open then freed (p_Name p) n else n) as Heq
    by (unfold nodeAfter, roleOf; rewrite decide_False, decide_True by congruence; by destruct (wants p n)).
  rewrite Heq in *. clear Heq. destruct (wants p n) eqn:Hwant.
  2: { destruct open; [|unfold nodeAfter, roleOf; by rewrite decide_False, decide_True, Hw by congruence].
       destruct (freed_view _ n HP Ho) as [_ Hv]. apply view_fields in Hv as (Hvo & _).
       apply nodeAfter_aside; [by right|congruence]. }
  destruct (cordonEnabled p && operatorCordoned n && negb (n_Unschedulable n)) eqn:Hc.
  - destruct (letGo_view p n) as [_ Hv]. rewrite bool_decide_eq_true_2, andb_true_l, Hc in Hv by done.
    apply view_fields in Hv as (Hvo & _).
    assert (recordoned p (letGo p n) = letGo p n) as Hrec.
    { unfold recordoned, cordonResult. rewrite decide_True by congruence. apply mergeNode_id. }
    assert ((if open then recordoned p (letGo p n) else letGo p n) = letGo p n) as Heq by by destruct open.
    rewrite Heq in *. apply nodeAfter_settledFree; auto.
  - assert (letGo p n = n) as Hl by (unfold letGo; by rewrite bool_decide_eq_true_2, andb_true_l, Hc).
    rewrite Hl in *. destruct open.
    + destruct (recordoned_view p n) as [_ Hv]. rewrite decide_True in Hv by done.
      apply nodeAfter_steady; [congruence| |done| |].
      * destruct (cordonEnabled p); apply view_fields in Hv as (-> & _); congruence.
      * rewrite enabled_same. destruct (cordonEnabled p); [|done]. by apply view_fields in Hv as (_ & -> & ->).
      * intros _. by apply cordonResult_again.
    + apply nodeAfter_steady; [congruence|congruence|done|by rewrite enabled_same|done].
Qed.
End Again.

Lemma nodeAfter_again p p' open n :
  p_Name p ≠ "" → p_Name p' = p_Name p → p_Spec p' = p_Spec p →
  let n' := nodeAfter p open n in
  wants p' n' = wants p n →
  (wants p n = true → (owner n = "" ∧ settledAs p n = true) ∨
     (owner n = p_Name p ∧ cordonEnabled p && operatorCordoned n && negb (n_Unschedulable n) = true) →
   settledAs p' n' = true) →
  (owner n = "" → annotationPresent n = false) →
  nodeAfter p' open n' = n'.
Proof.
  intros HP Hn Hs n' Hw Hset Hfree. subst n'.
  assert (cordonEnabled p' = cordonEnabled p) as Hen by (unfold cordonEnabled; by rewrite Hs).
  destruct (decide (owner n = "")) as [Ho|Ho];
    [apply (again_free p p'); auto|destruct (decide (owner n = p_Name p)) as [Hop|Hop]; [apply (again_owned p p'); auto|]].
  assert (nodeAfter p open n = n) as Heq by (apply nodeAfter_aside; auto). rewrite Heq in *.
  apply nodeAfter_aside; [by left|congruence].
Qed.
End Twice.

(** ** Two reconciles *)
Section Main.
Context `{SO : SelectorOps} `{CL : ConditionLaws} `{FL : FinalizerLaws}.

Lemma scheduleAt_spec p p' now : p_Spec p' = p_Spec p → scheduleAt p' now = scheduleAt p now.
Proof. intros Hs. unfold scheduleAt, cordonSchedule, drainSchedule. by rewrite Hs. Qed.

(** The cluster after one reconcile, and the plan on it. *)
Lemma interp_once now h P plan σ :
  faithful now h → echoing h → keyed σ → P ≠ "" → cl_plans σ !! P = Some plan →
  IsZero (p_DeletionTimestamp plan) = true → selectorOK plan → tidyStatus plan →
  let σ1 := (interp h (Reconcile P) σ).2 in
  (∀ k, cl_nodes σ1 !! k = nodeAfter plan (windowOpen now plan) <$> cl_nodes σ !! k) ∧
  ∃ p2, cl_plans σ1 !! P = Some p2 ∧ IsZero (p_DeletionTimestamp p2) = true ∧ nextPlan plan σ p2.
Proof.
  intros Hf He Hk HP Hplan Hdel Hsel Htidy. pose proof (proj2 Hk _ _ Hplan) as Hp.
  apply (interp_Reconcile h (faithful_responsive _ _ Hf) P plan σ (λ _ σ',
    (∀ k, cl_nodes σ' !! k = nodeAfter plan (windowOpen now plan) <$> cl_nodes σ !! k) ∧
    ∃ p2, cl_plans σ' !! P = Some p2 ∧ IsZero (p_DeletionTimestamp p2) = true ∧ nextPlan plan σ p2)); [done..|].
  eapply tpM_post; [apply tpM_and;
    [by apply (alone_reconcilePass now h Hf P)|by apply (alone_pass_plan now h Hf He P)]|].
  by intros s o σ' [[Hn _] H2].
Qed.

Lemma interp_keyed now h P σ : faithful now h → keyed σ → keyed (interp h (Reconcile P) σ).2.
Proof.
  intros Hf Hk. apply interp_sane; [|done].
  intros c σ1 Hk1. eapply serve_keyed; [done|]. apply (responsive_serve h (faithful_responsive _ _ Hf)).
Qed.

(** C4: a reconcile settles.  Against a faithful API server that stores the status
    it is sent, with caches that are up to date and nobody else writing, let a plan
    that is not in deletion, whose node selector, if it has one, can be parsed
    and whose status is as the operator leaves it be reconciled twice at the same
    instant.  The second reconcile leaves every node exactly as the first one
    left it: owners, labels, annotations and schedulability are those of one
    pass.  (A free node is supposed to carry no stale cordon annotation.) *)
Theorem reconcile_settles now h P plan σ :
  faithful now h → echoing h → keyed σ → P ≠ "" → cl_plans σ !! P = Some plan →
  IsZero (p_DeletionTimestamp plan) = true → selectorOK plan → tidyStatus plan →
  (∀ k n, cl_nodes σ !! k = Some n → owner n = "" → annotationPresent n = false) →
  let σ1 := (interp h (Reconcile P) σ).2 in
  cl_nodes (interp h (Reconcile P) σ1).2 = cl_nodes σ1.
Proof.
  intros Hf He Hk HP Hplan Hdel Hsel Htidy Hfree σ1. pose proof (proj2 Hk _ _ Hplan) as Hp.
  destruct (interp_once now h P plan σ) as (Hn1 & p2 & Hp2 & Hdel2 & [Hname Hspec Hwants Hset]); [done..|].
  fold σ1 in Hn1, Hp2. pose proof (interp_keyed now h P σ Hf Hk : keyed σ1) as Hk1.
  assert (windowOpen now p2 = windowOpen now plan) as Hw by (unfold windowOpen; by rewrite (scheduleAt_spec plan)).
  assert (selectorOK p2) as Hsel2 by (unfold selectorOK; by rewrite Hspec).
  assert (∀ k, cl_nodes (interp h (Reconcile P) σ1).2 !! k = nodeAfter p2 (windowOpen now p2) <$> cl_nodes σ1 !! k)
    as Hn2.
  { apply (interp_Reconcile h (faithful_responsive _ _ Hf) P p2 σ1 (λ _ σ',
      ∀ k, cl_nodes σ' !! k = nodeAfter p2 (windowOpen now p2) <$> cl_nodes σ1 !! k)); [done..|].
    eapply tpM_post; [apply (alone_reconcilePass now h Hf P p2); try done; congruence|]. by intros s o σ' [? _]. }
  apply map_eq. intros k. rewrite Hn2, Hn1, Hw. destruct (cl_nodes σ !! k) as [n|] eqn:E; [cbn; f_equal|done].
  pose proof (proj1 Hk _ _ E) as <-. pose proof (nodeAfter_name plan (windowOpen now plan) n) as Hnn.
  apply nodeAfter_again; [congruence|done|done|by apply Hwants| |by eapply Hfree].
  intros Hwn Hor. unfold settledAs. rewrite Hnn. by apply Hset.
Qed.
End Main.

(** ** Against the executable server *)

Lemma answer_echoing : echoing answer.
Proof. intros original m σ p. cbn. destruct (cl_plans σ !! p_Name m); [|done]. by intros [= <-]. Qed.

(** Every selector is the empty one, which selects everything. *)
#[local] Instance everything : SelectorOps := {| LabelSelectorAsSelector := λ _, inr (λ _, true) |}.

(** A plan with a selector; a free node, and one whose cordon was undone by hand. *)
Definition selectingPlan : NodeMaintenancePlan :=
  MkNodeMaintenancePlan "plan-a" "" 1 None []
    (MkNodeMaintenancePlanSpec [] (Some (MkLabelSelector [] [])) "kernel upgrade" (Some (MkCordonSpec true None)) None)
    zeroPlanStatus.

Definition undoneNode : Node :=
  MkNode "n2" (Some {[ InMaintenanceLabel := "true" ]})
    (Some {[ ManagedByAnnotation := "plan-a"; CordonedAnnotation := "true" ]}) None false
    [MkNodeCondition NodeReady ConditionTrue].

Definition undoneCluster : cluster :=
  MkCluster {[ "plan-a" := selectingPlan ]} (<["n1" := exampleNode "n1"]> {[ "n2" := undoneNode ]}).

Lemma undoneCluster_keyed : keyed undoneCluster.
Proof.
  split; intros k x; unfold undoneCluster; cbn.
  - rewrite lookup_insert_Some, lookup_singleton_Some. naive_solver.
  - by intros [<- <-]%lookup_singleton_Some.
Qed.

(** The first reconcile cordons the one and lets go of the other; the second, which
    would adopt the latter again but for the recorded drift, does nothing. *)
Lemma reconcile_settles_witness :
  let σ1 := (interp answer (Reconcile "plan-a") undoneCluster).2 in
  viewOf <$> cl_nodes σ1 !! "n1" = Some (MkNodeView "plan-a" true true) ∧
  viewOf <$> cl_nodes σ1 !! "n2" = Some (MkNodeView "" false false) ∧
  cl_nodes (interp answer (Reconcile "plan-a") σ1).2 = cl_nodes σ1.
Proof.
  split; [vm_compute; reflexivity|]. split; [vm_compute; reflexivity|].
  apply (reconcile_settles 0 answer "plan-a" selectingPlan undoneCluster answer_faithful answer_echoing
    undoneCluster_keyed); [discriminate|reflexivity|reflexivity| | |].
  - intros sel _. by eexists.
  - by split; [repeat constructor|constructor].
  - intros k n Hkn Ho. unfold undoneCluster in Hkn. cbn in Hkn.
    apply lookup_insert_Some in Hkn as [[<- <-]|[_ [<- <-]%lookup_singleton_Some]]; [reflexivity|].
    exfalso. revert Ho. vm_compute. discriminate.
Defined.

(** A free node with a cordon annotation left on it, and a cordon that starts later. *)
Definition staleCluster : cluster :=
  MkCluster {[ "plan-a" := MkNodeMaintenancePlan "plan-a" "" 1 None []
      (MkNodeMaintenancePlanSpec ["n1"] None "kernel upgrade" (Some (MkCordonSpec true (Some Hour))) None)
      zeroPlanStatus ]}
    {[ "n1" := MkNode "n1" None (Some {[ CordonedAnnotation := "true" ]}) None false
                 [MkNodeCondition NodeReady ConditionTrue] ]}.

(** The first reconcile adopts it; the second takes the annotation for a cordon
    undone by hand and lets it go. *)
Lemma stale_annotation_unsettled :
  let σ1 := (interp answer (Reconcile "plan-a") staleCluster).2 in
  viewOf <$> cl_nodes σ1 !! "n1" = Some (MkNodeView "plan-a" false true) ∧
  viewOf <$> cl_nodes (interp answer (Reconcile "plan-a") σ1).2 !! "n1" = Some (MkNodeView "" false false).
Proof. split; vm_compute; reflexivity. Qed.
