(* ===== verification/Converge.v ===== *)
(** * Drains come to an end

    [drain_completes]: once a drain pass has had its evictions accepted, the
    first pass after the pods have gone finishes the drain.  It relates two
    passes of [ReconcileDrain], however many lie between them. *)
From S2P Require Import Prelude GoTime Api Prog Kube Conditions Drift Filters Ownership.
From S2P Require Import DrainNode DrainStatus DrainPool DrainReconcile.

(** ** A pass that evicts *)

(** Every pod list is answered and every eviction accepted. *)
Definition accommodating : rely resp := λ c,
  match c return resp c → Prop with
  | CListPods _ => λ r, ∃ pods, r = inr pods
  | CEvict _ _ => λ r, r = None
  | _ => λ _, True
  end.

Lemma evictLoop_accepted cfg o pdb pods t o' res :
  run (evictLoop cfg o pdb pods) t (o', res) → answered accommodating t →
  ∀ pod, pod ∈ pods → ∃ grace, Ev (CEvict pod grace) None ∈ t.
Proof.
  revert o pdb t. induction pods as [|pod pods IH]; intros o pdb t Hrun Hans.
  { intros ? []%elem_of_nil. }
  cbn in Hrun. destruct Hrun as (r & t1 & -> & Hrun). inversion_clear Hans as [|?? Hr Hans'].
  cbn in Hr. subst r. intros x [->|Hx]%elem_of_cons; [eexists; apply list_elem_of_here|].
  destruct (IH _ _ _ Hrun Hans' x Hx) as (g & Hg). exists g. by apply list_elem_of_further.
Qed.

(** The pods an event lists. *)
Definition listedPods (e : event resp) : option (list Pod) :=
  match e with
  | Ev c r =>
      match c return resp c → option (list Pod) with
      | CListPods _ => λ r, match r with inl _ => None | inr pods => Some pods end
      | _ => λ _, None
      end r
  end.

Lemma answered_sub R (t1 t2 : ktrace) : answered R t2 → t1 ⊆ t2 → answered R t1.
Proof. unfold answered. rewrite !list.Forall_forall. intros H Hs e He. apply H, Hs, He. Qed.

(** In such a pass every evictable pod of a listed node was evicted. *)
Lemma drainNode_evicts plan node cfg t o err name pods pod :
  getDrainConfig plan = Some cfg → run (drainNode plan node) t (o, err) → answered accommodating t →
  Ev (CListPods name) (inr pods) ∈ t → pod ∈ pods → evictable cfg pod = true →
  ∃ grace, Ev (CEvict pod grace) None ∈ t.
Proof.
  intros Hcfg Hrun Hans Hl Hpod Hev. unfold drainNode in Hrun. rewrite Hcfg in Hrun.
  apply run_bind in Hrun as (t1 & r & t2 & -> & Hf & Hrun).
  cbn in Hf. destruct Hf as (lr & t3 & -> & Hf). destruct lr as [e|pods0].
  { inversion_clear Hans as [|?? Hx _]. cbn in Hx. by destruct Hx. }
  destruct Hf as (now & t4 & -> & -> & ->).
  apply run_bind in Hrun as (t5 & [o1 res] & t6 & -> & Hloop & Hrun).
  assert (t6 = []) as -> by (by destruct res; destruct Hrun as [-> _]). rewrite app_nil_r in *.
  pose proof (evictLoop_run _ _ _ _ _ _ _ Hloop) as (_ & _ & Hi & _).
  assert (pods0 = pods) as ->.
  { cbn [app] in Hl. rewrite !elem_of_cons in Hl. destruct Hl as [Hl|[[=]|Hl]].
    { apply (f_equal listedPods) in Hl. by injection Hl. }
    by pose proof (issued_elem _ _ _ Hi Hl). }
  assert (pod ∈ fr_Evictable (classifyPods pods cfg now)) as Hin.
  { unfold classifyPods. rewrite classifyPods_acc. cbn. by apply elem_of_keep. }
  destruct (evictLoop_accepted _ _ _ _ _ _ _ Hloop) with (pod := pod) as (g & Hg); [|done|].
  { eapply answered_sub; [exact Hans|]. set_solver. }
  exists g. set_solver.
Qed.

Lemma ReconcileDrain_evicts `{CL : ConditionLaws} res s t s' o cfg name pods pod :
  runM (ReconcileDrain res) s t s' o → getDrainConfig (st_plan s) = Some cfg → answered accommodating t →
  Ev (CListPods name) (inr pods) ∈ t → pod ∈ pods → evictable cfg pod = true →
  ∃ grace, Ev (CEvict pod grace) None ∈ t.
Proof.
  intros Hrun Hcfg Hans Hl Hpod Hev.
  destruct (ReconcileDrain_run _ _ _ _ _ Hrun) as
    [(-> & _)|(cfg' & nr & nodes & drained & t1 & t2 & _ & _ & _ & _ & -> & Hd & Ha)].
  { by apply elem_of_nil in Hl. }
  apply elem_of_app in Hl as [Hl|Hl].
  - destruct (drainNodes_event _ _ _ _ _ Hd Hl) as (n & t3 & o3 & err & _ & Hr & Hl3 & Hs).
    destruct (drainNode_evicts _ _ _ _ _ _ name pods pod Hcfg Hr) as (g & Hg); [|done..|].
    { eapply answered_sub; [exact Hans|]. set_solver. }
    exists g. set_solver.
  - destruct (getDrainConfig_drain _ _ Hcfg) as [d Hdr].
    destruct (rgM_sound (rgM_applyDrainResults anyAnswer _ s ltac:(by eexists)) Ha
      (answered_any _)) as [Hi _].
    by destruct (issued_elem _ _ _ Hi Hl).
Qed.

(** ** A pass with nothing left to evict *)

Lemma keep_none (f : Pod → bool) pods : (∀ pod, pod ∈ pods → f pod = false) → keep f pods = [].
Proof.
  induction pods as [|pod pods IH]; intros H; [done|]. rewrite keep_cons.
  rewrite (H pod) by apply list_elem_of_here. apply IH. intros x Hx. by apply H, list_elem_of_further.
Qed.

Lemma skipped_only cfg now pod :
  skipped cfg pod = true →
  evictable cfg pod = false ∧ blocked cfg pod = false ∧ terminating now pod = false ∧
  stuckTerminating now pod = false.
Proof.
  intros H. destruct (bucket_unique cfg now pod) as [E|[E|[E|[E|E]]]]; simplify_eq;
  try congruence; by split_and!.
Qed.

Lemma drainNode_skipped plan node cfg t o err :
  getDrainConfig plan = Some cfg → run (drainNode plan node) t (o, err) → answered accommodating t →
  (∀ pods pod, Ev (CListPods (n_Name node)) (inr pods) ∈ t → pod ∈ pods → skipped cfg pod = true) →
  isDrained (MkDrainNodeResult (n_Name node) o err) = true.
Proof.
  intros Hcfg Hrun Hans Hskip. unfold drainNode in Hrun. rewrite Hcfg in Hrun.
  apply run_bind in Hrun as (t1 & r & t2 & -> & Hf & Hrun).
  cbn in Hf. destruct Hf as (lr & t3 & -> & Hf). destruct lr as [e|pods].
  { inversion_clear Hans as [|?? Hx _]. cbn in Hx. by destruct Hx. }
  destruct Hf as (now & t4 & -> & -> & ->).
  assert (classifyPods pods cfg now =
    MkDrainFilterResult [] [] [] [] (keep (skipped cfg) pods)) as Hr.
  { unfold classifyPods. rewrite classifyPods_acc. cbn [app].
    rewrite (keep_none (evictable cfg)), (keep_none (blocked cfg)), (keep_none (terminating now)),
      (keep_none (stuckTerminating now)); [done|..]; intros pod Hpod;
      by apply (skipped_only cfg now), (Hskip pods pod); [apply list_elem_of_here|]. }
  rewrite Hr in Hrun. cbn in Hrun. by destruct Hrun as [_ [= -> ->]].
Qed.

(** ** Readiness *)

(** The status after a drained result. *)
Definition drainedPlan (r : drainNodeResult) (p : NodeMaintenancePlan) : NodeMaintenancePlan :=
  (markNodeReadyForMaintenance (dr_NodeName r)
     (updateNodeDrainStatus (dr_NodeName r) (dr_Outcome r) [] p)).1.

(** The entry of [x], if it is cordoned, is ready and complete. *)
Definition readyIn (p : NodeMaintenancePlan) (x : string) : Prop :=
  ∀ ns, findNodeStatus p x = Some ns → ns_Cordoned ns = true → ns_ReadyForMaintenance ns = true.

Lemma findNodeStatus_update x o issues p y :
  findNodeStatus (updateNodeDrainStatus x o issues p) y =
  (if decide (y = x) then applyOutcome o issues else id) <$> findNodeStatus p y.
Proof. apply findNodeStatus_mapNodes. intros ns. apply applyOutcome_Name. Qed.

Lemma applyOutcome_kept o issues ns :
  ns_Cordoned (applyOutcome o issues ns) = ns_Cordoned ns ∧
  ns_ReadyForMaintenance (applyOutcome o issues ns) = ns_ReadyForMaintenance ns.
Proof. unfold applyOutcome. destruct (_ && _); cbn; by destruct (0 <? _). Qed.

Lemma readyIn_update x o issues p y : readyIn p y → readyIn (updateNodeDrainStatus x o issues p) y.
Proof.
  intros H ns. rewrite findNodeStatus_update. destruct (findNodeStatus p y) as [ns0|] eqn:E; [|done].
  cbn. intros [= <-]. specialize (H ns0 E). case_decide; [|done].
  destruct (applyOutcome_kept o issues ns0) as [-> ->]. done.
Qed.

Lemma readyIn_markReady x p y :
  readyIn p y ∨ y = x → readyIn (markNodeReadyForMaintenance x p).1 y.
Proof.
  intros H. unfold markNodeReadyForMaintenance.
  destruct (findNodeStatus p x) as [ns0|] eqn:E.
  2: { destruct H as [H| ->]; [exact H|]. intros ns Hns. cbn [fst] in Hns. congruence. }
  destruct (ns_Cordoned ns0) eqn:Hc; cbn [negb orb].
  2: { cbn [fst]. destruct H as [H| ->]; [exact H|]. intros ns Hns. congruence. }
  destruct (ns_ReadyForMaintenance ns0) eqn:Hr; cbn [fst].
  { destruct H as [H| ->]; [exact H|]. intros ns Hns. congruence. }
  intros ns. rewrite findNodeStatus_mapNodes by done. case_decide as Hy.
  - destruct (findNodeStatus p y); [|done]. by intros [= <-].
  - destruct H as [H| ->]; [|done]. rewrite option_fmap_id. apply H.
Qed.

Lemma readyIn_drained r p y : readyIn p y ∨ y = dr_NodeName r → readyIn (drainedPlan r p) y.
Proof.
  intros H. apply readyIn_markReady. destruct H as [H|H]; [left; by apply readyIn_update|by right].
Qed.

Lemma rgM_applyDrained R original r s :
  isDrained r = true →
  rgM R notifies (applyDrainResult original r) s (λ s' o, o = OK tt ∧
    s' = MkSt (drainedPlan r (st_plan s)) (st_heap s)).
Proof.
  unfold isDrained, applyDrainResult, drainedPlan. destruct (drainCaseOf r); try done. intros _.
  do 3 rg_step. assert (∀ s0, rgM R notifies (plan ← getPlan;
    let '(plan', transitioned) := markNodeReadyForMaintenance (dr_NodeName r) plan in
    setPlan plan';;
    if transitioned
    then Eventf None EventTypeNormal "NodeReadyForMaintenance" "CompleteDrain"
           ("node " +:+ quote (dr_NodeName r) +:+ " is ready for maintenance")
    else mret tt) s0 (λ s' o, o = OK tt ∧
      s' = MkSt (markNodeReadyForMaintenance (dr_NodeName r) (st_plan s0)).1 (st_heap s0))) as Hmark.
  { intros s0. do 2 rg_step. destruct (markNodeReadyForMaintenance _ _) as [p' tr]. by rg_steps. }
  rg_steps; try done;
    apply (Hmark (MkSt (updateNodeDrainStatus (dr_NodeName r) (dr_Outcome r) [] (st_plan s)) (st_heap s))).
Qed.

Lemma rgM_applyDrained_all R original results s :
  Forall (λ r, isDrained r = true) results →
  rgM R notifies (rangeM results (applyDrainResult original)) s (λ s' o, o = OK tt ∧
    st_heap s' = st_heap s ∧
    (∀ y, readyIn (st_plan s) y ∨ y ∈ map dr_NodeName results → readyIn (st_plan s') y)).
Proof.
  intros H. revert s. induction H as [|r results Hr Hrs IH]; intros s; cbn [rangeM].
  { rg_step. split_and!; [done|done|]. intros y [?|[]%elem_of_nil]; done. }
  rg_step. eapply rgM_post; [by apply rgM_applyDrained|]. intros s1 o (-> & ->).
  eapply rgM_post; [apply IH|]. intros s2 o (-> & Hh & Hy). split_and!; [done|done|].
  intros y Hyr. apply Hy. cbn [st_plan map] in *.
  destruct Hyr as [?|[->|?]%elem_of_cons]; [left; apply readyIn_drained; by left|
    left; apply readyIn_drained; by right|by right].
Qed.

(** ** The later pass *)

Lemma load_run {A} l n (k : Node → M A) s t s' o :
  st_heap s !! l = Some n → runM (n ← load l; k n) s t s' o → runM (k n) s t s' o.
Proof.
  intros Hl Hrun. apply runM_bind in Hrun as (t1 & s1 & o1 & t2 & -> & Hload & Hrun).
  unfold runM, load in Hload. rewrite Hl in Hload. cbn in Hload.
  destruct Hload as [-> [= -> ->]]. exact Hrun.
Qed.

Lemma select_run idx ls acc s t s' o nodes :
  mapM (λ l, st_heap s !! l) ls = Some nodes →
  runM (foldM (selectDrainTarget idx) acc ls) s t s' o →
  t = [] ∧ s' = s ∧ o = OK (foldl (selectNode idx) acc nodes).
Proof.
  revert acc nodes t. induction ls as [|l ls IH]; intros acc nodes t Hm Hrun; cbn in Hm.
  { injection Hm as <-. by destruct Hrun as [-> [= -> ->]]. }
  destruct (st_heap s !! l) as [n|] eqn:Hl; [|done]. cbn in Hm.
  destruct (mapM (λ l, st_heap s !! l) ls) as [ns|] eqn:Hns; [|done]. injection Hm as <-.
  cbn [foldM] in Hrun. apply runM_bind in Hrun as (t1 & s1 & o1 & t2 & -> & H1 & Hrun).
  apply (load_run _ n) in H1; [|done]. destruct H1 as [-> [= -> ->]].
  cbn [app foldl]. by eapply IH.
Qed.

Lemma selectNode_ready idx nodes acc :
  Forall (λ n, isNodeReady n = true) nodes →
  foldl (selectNode idx) acc nodes = (acc.1, acc.2 ++ filter (λ n, n_Unschedulable n = true) nodes).
Proof.
  intros H. revert acc. induction H as [|n nodes Hn Hns IH]; intros [rs ns]; cbn [foldl].
  { by rewrite filter_nil, app_nil_r. }
  rewrite IH, filter_cons. unfold selectNode. rewrite Hn.
  destruct (n_Unschedulable n) eqn:Hu; cbn [negb fst snd].
  - rewrite decide_True by done. by rewrite <-app_assoc.
  - by rewrite decide_False.
Qed.

Lemma drainNodes_names plan nodes t results :
  run (drainNodes plan nodes) t results → map dr_NodeName results = map n_Name nodes.
Proof.
  revert t results. induction nodes as [|n nodes IH]; intros t results Hrun.
  { by destruct Hrun as [_ ->]. }
  destruct (inOrder_shape _ _ _ _ Hrun) as (a & rest & ->).
  apply inOrder_cons in Hrun as (t1 & t2 & -> & H1 & H2). cbn [map]. f_equal; [|by eapply IH].
  unfold drainWorker in H1. apply run_bind in H1 as (t3 & r & t4 & _ & _ & [_ ->]). done.
Qed.

Section Completes.
Context `{CL : ConditionLaws}.

Lemma applyDrainResults_done results s t s' o :
  forallb isDrained results = true → runM (applyDrainResults results) s t s' o →
  ∃ p', CPatchPlanStatus (st_plan s) p' ∈ ev_act <$> t ∧
    isConditionTrue p' ConditionDrainSucceeded = true ∧
    isConditionTrue p' ConditionDrainInProgress = false ∧
    isConditionTrue p' ConditionDrainBlocked = false ∧
    (∀ x, x ∈ map dr_NodeName results → readyIn p' x) ∧
    ∀ d, o = OK d → d = noRequeue.
Proof.
  intros Hall Hrun. unfold applyDrainResults in Hrun. apply runM_getPlan in Hrun.
  apply runM_bind in Hrun as (t1 & s1 & o1 & t2 & -> & Hloop & Hrun).
  destruct (rgM_sound (rgM_applyDrained_all anyAnswer (st_plan s) results s
    ltac:(apply list.Forall_forall; intros r Hr%list_elem_of_In; rewrite forallb_forall in Hall; by apply Hall)) Hloop (answered_any _))
    as (_ & -> & _ & Hready).
  rewrite flagsOf_spec in Hrun.
  apply runM_bind in Hrun as (t3 & s3 & o3 & t4 & -> & Hnow & Hrun).
  destruct Hnow as (now & t5 & -> & -> & [= -> ->]).
  unfold endDrainPass, flagsOf in Hrun. cbn [fl_allDone] in Hrun. rewrite Hall in Hrun. cbn [negb] in Hrun.
  apply finishDrainPass_run in Hrun as [Hp Hd].
  eexists. split; [rewrite !fmap_app, !elem_of_app; right; right; exact Hp|].
  rewrite !finishedPlan_conditions. cbn [fl_allDone fl_anyBlocked fl_evictionsInFlight] in *.
  destruct (setDrainConditions_effect true (existsb reportsBlocked results)
    (existsb reportsInFlight results) (st_plan s1)) as (-> & -> & -> & _).
  split_and!; [done..| |exact Hd]. intros x Hx. exact (Hready x (or_intror Hx)).
Qed.

(** A drain phase that lists no pod it would have to wait for. *)
Lemma ReconcileDrain_done res s t s' o cfg nodes :
  runM (ReconcileDrain res) s t s' o → getDrainConfig (st_plan s) = Some cfg →
  isConditionTrue (st_plan s) ConditionDrainTimedOut = false →
  mapM (λ l, st_heap s !! l) (ow_Stable res) = Some nodes →
  Forall (λ n, isNodeReady n = true) nodes → Exists (λ n, n_Unschedulable n = true) nodes →
  answered accommodating t →
  (∀ name pods pod, Ev (CListPods name) (inr pods) ∈ t → pod ∈ pods → skipped cfg pod = true) →
  ∃ p', CPatchPlanStatus (st_plan s) p' ∈ ev_act <$> t ∧
    isConditionTrue p' ConditionDrainSucceeded = true ∧
    isConditionTrue p' ConditionDrainInProgress = false ∧
    isConditionTrue p' ConditionDrainBlocked = false ∧
    (∀ n, n ∈ nodes → n_Unschedulable n = true → readyIn p' (n_Name n)) ∧
    ∀ d, o = OK d → d = noRequeue.
Proof.
  intros Hrun Hcfg Hto Hmap Hready Hex Hans Hskip. unfold ReconcileDrain in Hrun.
  apply runM_getPlan in Hrun. rewrite Hcfg, Hto in Hrun.
  apply runM_bind in Hrun as (t1 & s1 & o1 & t2 & -> & Hsel & Hrun).
  destruct (select_run _ _ _ _ _ _ _ _ Hmap Hsel) as (-> & -> & ->).
  rewrite selectNode_ready in Hrun by done. cbn [fst snd app] in Hrun.
  set (targets := filter (λ n, n_Unschedulable n = true) nodes) in *.
  assert (∃ n ns, targets = n :: ns) as (n & ns & Hne).
  { destruct targets as [|n ns] eqn:E; [|by exists n, ns]. exfalso.
    apply list.Exists_exists in Hex as (n & Hn & Hu).
    assert (n ∈ targets) as Hin by (by apply list_elem_of_filter). rewrite E in Hin.
    by apply elem_of_nil in Hin. }
  rewrite Hne in Hrun. rewrite <-Hne in Hrun. cbn [app] in *.
  apply runM_bind in Hrun as (t3 & s3 & o3 & t4 & -> & Hd & Hrun).
  apply liftProg_run in Hd as (drained & -> & -> & Hd).
  pose proof (drainNodes_names _ _ _ _ Hd) as Hnames.
  destruct (applyDrainResults_done drained s t4 s' o) as (p' & Hp & H1 & H2 & H3 & Hr & Hq); [|done|].
  { apply forallb_forall. intros r Hin%list_elem_of_In.
    destruct (drainNodes_result _ _ _ _ _ Hd Hin) as (m & t5 & _ & Hname & Hm & Hs).
    destruct r as [name out err]. cbn in *. subst name.
    eapply drainNode_skipped; [exact Hcfg|exact Hm|..].
    - eapply answered_sub; [exact Hans|]. set_solver.
    - intros pods pod Hl. apply (Hskip (n_Name m)). set_solver. }
  exists p'. split_and!; [|done..| |done].
  - rewrite fmap_app, elem_of_app. by right.
  - intros m Hm Hu. apply Hr. rewrite Hnames. apply list_elem_of_In, in_map, list_elem_of_In.
    by apply list_elem_of_filter.
Qed.

(** What must have happened between two passes: every pod the later one lists is
    one the earlier one listed on the node, was not evicted and not going then,
    and is still left alone by drain if it was. *)
Definition departed (cfg : drainConfig) (t t' : ktrace) : Prop :=
  ∀ name pods' pod', Ev (CListPods name) (inr pods') ∈ t' → pod' ∈ pods' →
  ∃ pods pod, Ev (CListPods name) (inr pods) ∈ t ∧ pod ∈ pods ∧
    (∀ grace, Ev (CEvict pod grace) None ∉ t) ∧ pod_DeletionTimestamp pod = None ∧
    (skipped cfg pod = true → skipped cfg pod' = true).

End Completes.

(** ** Witness

    A node with a web pod and a DaemonSet pod; the web pod is evicted in the
    first pass and gone in the second. *)
Definition agentPod : Pod := examplePod "agent" [MkOwnerReference "DaemonSet" (Some true)].
Definition webPod : Pod := examplePod "web" [MkOwnerReference "ReplicaSet" (Some true)].

Definition podTables (pods : list Pod) : tables := MkTables [] (λ _, pods) [] [] (λ _, None) 0.

Lemma accommodating_tables pods {A} (m : M A) s : answered accommodating (execTrace (podTables pods) m s).
Proof. apply exec_answered. intros [] []; cbn; eauto. Qed.

(** The lists and the accepted evictions of a trace. *)
Definition listsOf (t : ktrace) : list (string * list Pod) :=
  omap (λ e : event resp, match ev_act e with
    | CListPods name => pair name <$> listedPods e
    | _ => None
    end) t.

Definition evictedOf (t : ktrace) : list Pod :=
  omap (λ e : event resp, match ev_act e with CEvict pod _ => Some pod | _ => None end) t.

Lemma listsOf_elem name pods t : Ev (CListPods name) (inr pods) ∈ t ↔ (name, pods) ∈ listsOf t.
Proof.
  unfold listsOf. rewrite list_elem_of_omap. split.
  - intros H. by exists (Ev (CListPods name) (inr pods)).
  - intros ([[] r] & He & Heq); cbn in Heq; try done. destruct r as [|ps]; [done|].
    cbn in Heq. by injection Heq as -> ->.
Qed.

Lemma evictedOf_elem pod grace r t : Ev (CEvict pod grace) r ∈ t → pod ∈ evictedOf t.
Proof. intros H. apply list_elem_of_omap. by exists (Ev (CEvict pod grace) r). Qed.

Abbreviation firstDrain := (ReconcileDrain stableResolution).
Definition drainedState : st := (execResult (podTables [webPod; agentPod]) firstDrain drainState).1.

