(* ===== verification/Webhook.v ===== *)
(** * The validating webhook (internal/webhook/validator.go) *)
From S2P Require Import Prelude GoTime Api Prog Kube.

Inductive Operation : Type := Create | Update | Delete | Connect.

#[export] Instance Operation_eq_dec : EqDecision Operation.
Proof. solve_decision. Defined.

Inductive Response : Type :=
| Allowed (reason : string)
| Denied (reason : string)
| Errored (code : Z) (err : error).

Definition StatusBadRequest : Z := 400.
Definition StatusInternalServerError : Z := 500.

(** Early return of a response, or the value to go on with. *)
Definition orRespond {A} (p : kprog (Response + A)) (f : A → kprog Response) : kprog Response :=
  pbind p (λ r, match r with inl resp => Ret resp | inr a => f a end).

(** The node names a plan currently manages. *)
Definition planOwnedNodes (plan : NodeMaintenancePlan) : list string :=
  match s_Nodes (p_Spec plan) with
  | [] => ps_ResolvedNodes (p_Status plan)
  | nodes => nodes
  end.

Definition ownedMessage (nodeName owner : string) : string :=
  "node " +:+ quote nodeName +:+ " is already owned by plan " +:+ quote owner.

(** The loop over [plan.Spec.Nodes]; the accumulator is [denied]. *)
Fixpoint checkNodes (planName : string) (denied : list string) (names : list string)
    : kprog (Response + list string) :=
  match names with
  | [] => Ret (inr denied)
  | nodeName :: rest =>
      pbind (trigger (CGetNode nodeName)) (λ r : resp (CGetNode nodeName),
      match r with
      | inl e =>
          if IsNotFound e
          then checkNodes planName
                 (denied ++ ["node " +:+ quote nodeName +:+ " does not exist"]) rest
          else Ret (inl (Errored StatusInternalServerError (ErrApi e)))
      | inr node =>
          if decide (owner node ≠ "" ∧ owner node ≠ planName)
          then checkNodes planName (denied ++ [ownedMessage nodeName (owner node)]) rest
          else checkNodes planName denied rest
      end)
  end.

(** [if len(denied) > 0 { Denied } else { Allowed }]. *)
Definition verdict (denied : list string) : Response :=
  match denied with
  | [] => Allowed "ok"
  | _ => Denied (strJoin "; " denied)
  end.

Section Webhook.
Context `{SO : SelectorOps}.

(** The inner loop of [validateNodeSelector] over the nodes of one plan. *)
Fixpoint checkPlanNodes (matches : strmap → bool) (planName : string) (denied : list string)
    (names : list string) : kprog (Response + list string) :=
  match names with
  | [] => Ret (inr denied)
  | nodeName :: rest =>
      pbind (trigger (CGetNode nodeName)) (λ r : resp (CGetNode nodeName),
      match r with
      | inl e =>
          if IsNotFound e then checkPlanNodes matches planName denied rest
          else Ret (inl (Errored StatusInternalServerError (ErrApi e)))
      | inr node =>
          if matches (n_Labels node)
          then checkPlanNodes matches planName (denied ++ [ownedMessage nodeName planName]) rest
          else checkPlanNodes matches planName denied rest
      end)
  end.

Fixpoint checkPlans (matches : strmap → bool) (planName : string) (denied : list string)
    (plans : list NodeMaintenancePlan) : kprog (Response + list string) :=
  match plans with
  | [] => Ret (inr denied)
  | existing :: rest =>
      if decide (p_Name existing = planName) then checkPlans matches planName denied rest
      else pbind (checkPlanNodes matches (p_Name existing) denied (planOwnedNodes existing)) (λ r,
           match r with
           | inl resp => Ret (inl resp)
           | inr denied => checkPlans matches planName denied rest
           end)
  end.

Definition validateNodeSelector (planName : string) (selector : LabelSelector) : kprog Response :=
  match LabelSelectorAsSelector selector with
  | inl e => Ret (Errored StatusBadRequest (ErrWrap "invalid nodeSelector" (ErrNew e)))
  | inr matches =>
      pbind (trigger (CListNodes (Some selector) (Some 1)))
        (λ r : resp (CListNodes (Some selector) (Some 1)),
      match r with
      | inl e => Ret (Errored StatusInternalServerError (ErrApi e))
      | inr [] => Ret (Denied "nodeSelector matches no existing nodes")
      | inr _ =>
          pbind (trigger CListPlans) (λ r : resp CListPlans,
          match r with
          | inl e => Ret (Errored StatusInternalServerError (ErrApi e))
          | inr plans =>
              orRespond (checkPlans matches planName [] plans) (λ denied, Ret (verdict denied))
          end)
      end)
  end.

(** [Handle]; [decoded] is the result of [json.Unmarshal(req.Object.Raw, &plan)]. *)
Definition Handle (operation : Operation) (decoded : string + NodeMaintenancePlan)
    : kprog Response :=
  if decide (operation = Delete) then Ret (Allowed "ok")
  else match decoded with
  | inl err => Ret (Errored StatusBadRequest (ErrNew err))
  | inr plan =>
      match s_Nodes (p_Spec plan) with
      | [] =>
          match s_NodeSelector (p_Spec plan) with
          | Some selector =>
              if decide (operation = Create) then validateNodeSelector (p_Name plan) selector
              else Ret (Allowed "ok")
          | None => Ret (Allowed "ok")
          end
      | names =>
          orRespond (checkNodes (p_Name plan) [] names) (λ denied, Ret (verdict denied))
      end
  end.
End Webhook.

(** ** Verdicts *)

(** A cluster that answers the reads of one admission request consistently. *)
Record cluster : Type := MkCluster {
  cl_node : string → ApiError + Node;
  cl_matching : list Node;          (* the nodes listed for the selector *)
  cl_plans : list NodeMaintenancePlan
}.

Definition consistent (cl : cluster) : rely resp := λ c,
  match c return resp c → Prop with
  | CGetNode name => λ r, r = cl_node cl name
  | CListNodes _ _ => λ r, r = inr (cl_matching cl)
  | CListPlans => λ r, r = inr (cl_plans cl)
  | _ => λ _, True
  end.

(** A read that failed for another reason than the node not existing. *)
Definition hardError (cl : cluster) (name : string) : option ApiError :=
  match cl_node cl name with
  | inl e => if IsNotFound e then None else Some e
  | inr _ => None
  end.

(** The plan may claim the node. *)
Definition claimable (cl : cluster) (planName name : string) : Prop :=
  ∃ node, cl_node cl name = inr node ∧ (owner node = "" ∨ owner node = planName).

(** What the loop adds to [denied] for a name. *)
Definition nodeDenial (cl : cluster) (planName name : string) : option string :=
  match cl_node cl name with
  | inl _ => Some ("node " +:+ quote name +:+ " does not exist")
  | inr node =>
      if decide (owner node ≠ "" ∧ owner node ≠ planName)
      then Some (ownedMessage name (owner node)) else None
  end.

Lemma nodeDenial_None cl planName name :
  hardError cl name = None → nodeDenial cl planName name = None ↔ claimable cl planName name.
Proof.
  unfold hardError, nodeDenial, claimable. destruct (cl_node cl name) as [e|node].
  - intros _. split; [done|]. by intros (? & ? & _).
  - intros _. case_decide as Ho.
    + split; [done|]. intros (n & [= <-] & Hc). tauto.
    + split; [|done]. intros _. exists node. split; [done|].
      destruct (decide (owner node = "")); [by left|]. right.
      destruct (decide (owner node = planName)); [done|]. tauto.
Qed.

Lemma checkNodes_run cl planName denied names t r :
  run (checkNodes planName denied names) t r → answered (consistent cl) t →
  match omap (hardError cl) names with
  | e :: _ => r = inl (Errored StatusInternalServerError (ErrApi e))
  | [] => r = inr (denied ++ omap (nodeDenial cl planName) names)
  end.
Proof.
  revert denied t. induction names as [|name names IH]; intros denied t Hrun Hans.
  { destruct Hrun as [_ ->]. cbn. by rewrite app_nil_r. }
  cbn in Hrun. destruct Hrun as (a & t1 & -> & Hrun). inversion_clear Hans as [|?? Ha Hans'].
  cbn in Ha. cbn [omap list_omap]. unfold hardError at 1, nodeDenial at 1. rewrite <-Ha.
  destruct a as [e|node].
  - destruct (IsNotFound e); [|by destruct Hrun as [_ ->]].
    specialize (IH _ _ Hrun Hans'). destruct (omap (hardError cl) names); [|done].
    by rewrite IH, <-app_assoc.
  - case_decide; specialize (IH _ _ Hrun Hans'); destruct (omap (hardError cl) names);
      rewrite ?IH, <-?app_assoc; done.
Qed.

Lemma verdict_Allowed denied : verdict denied = Allowed "ok" ↔ denied = [].
Proof. destruct denied; cbn; split; done. Qed.

Lemma omap_nil_iff {A B} (f : A → option B) l : omap f l = [] ↔ ∀ x, x ∈ l → f x = None.
Proof.
  induction l as [|x l IH]; cbn.
  - split; [|done]. intros _ x Hx. by apply elem_of_nil in Hx.
  - setoid_rewrite elem_of_cons. destruct (f x) as [b|] eqn:E.
    + split; [done|]. intros Hall. rewrite (Hall x (or_introl eq_refl)) in E. done.
    + rewrite IH. split; [|by auto]. intros Hall y [->|Hy]; auto.
Qed.

Section Verdicts.
Context `{SO : SelectorOps}.

(** C34: admission of a plan that lists its nodes.  When a create or update lists
    nodes and the cluster answers consistently, the request is allowed exactly
    when every listed node exists and is unowned or already this plan's; a read
    failure other than "not found" makes it a server error, and in every other
    case it is denied. *)
Theorem Handle_nodes cl operation plan t response :
  operation ≠ Delete → s_Nodes (p_Spec plan) ≠ [] →
  run (Handle operation (inr plan)) t response → answered (consistent cl) t →
  let names := s_Nodes (p_Spec plan) in
  (response = Allowed "ok" ↔ ∀ name, name ∈ names → claimable cl (p_Name plan) name) ∧
  ((∃ e, response = Errored StatusInternalServerError (ErrApi e)) ↔
     ∃ name, name ∈ names ∧ is_Some (hardError cl name)) ∧
  ((∃ msg, response = Denied msg) ↔
     (∀ name, name ∈ names → hardError cl name = None) ∧
     ∃ name, name ∈ names ∧ ¬ claimable cl (p_Name plan) name).
Proof.
  intros Hop Hne Hrun Hans names. unfold Handle in Hrun. rewrite decide_False in Hrun by done.
  assert (run (orRespond (checkNodes (p_Name plan) [] names) (λ denied, Ret (verdict denied))) t response)
    as Hrun' by (unfold names; by destruct (s_Nodes (p_Spec plan))).
  clear Hrun. unfold orRespond in Hrun'.
  apply run_bind in Hrun' as (t1 & r & t2 & -> & Hc & Hrun). apply Forall_app in Hans as [Hans _].
  pose proof (checkNodes_run cl _ _ _ _ _ Hc Hans) as Hr. cbn [app] in Hr.
  destruct (omap (hardError cl) names) as [|e es] eqn:Hhard; subst r.
  - destruct Hrun as [_ ->]. rewrite omap_nil_iff in Hhard.
    assert (omap (nodeDenial cl (p_Name plan)) names = [] ↔
      ∀ name, name ∈ names → claimable cl (p_Name plan) name) as Hden.
    { rewrite omap_nil_iff. split; intros Hall x Hx;
        (apply nodeDenial_None; [by apply Hhard|by apply Hall]). }
    split_and!.
    + by rewrite verdict_Allowed.
    + split; [|intros (x & Hx & [e He])].
      * intros [e He]. by destruct (omap _ names).
      * rewrite (Hhard x Hx) in He. done.
    + split.
      * intros [msg Hmsg]. split; [done|].
        destruct (omap (nodeDenial cl (p_Name plan)) names) as [|m ms] eqn:E; [done|].
        assert (m ∈ omap (nodeDenial cl (p_Name plan)) names) as Hm
          by (rewrite E; apply list_elem_of_here).
        apply list_elem_of_omap in Hm as (x & Hx & Hd). exists x. split; [done|].
        intros Hcl. apply nodeDenial_None in Hcl; [congruence|by apply Hhard].
      * intros [_ (x & Hx & Hncl)].
        destruct (omap (nodeDenial cl (p_Name plan)) names) as [|m ms]; [|by eexists].
        destruct Hncl. by apply Hden.
  - destruct Hrun as [_ ->].
    assert (e ∈ omap (hardError cl) names) as He by (rewrite Hhard; apply list_elem_of_here).
    apply list_elem_of_omap in He as (x & Hx & He).
    assert (¬ claimable cl (p_Name plan) x) as Hncl.
    { intros (node & Hn & _). unfold hardError in He. by rewrite Hn in He. }
    split_and!.
    + split; [done|]. intros Hall. by destruct Hncl; apply Hall.
    + split; [|by eexists]. intros _. exists x. by split.
    + split; [by intros [? ?]|]. intros [Hno _]. rewrite (Hno x Hx) in He. done.
Qed.

(** A node another plan manages that the selector matches. *)
Definition overlap (cl : cluster) (matches : strmap → bool) (plan : NodeMaintenancePlan)
    (name : string) : Prop :=
  name ∈ planOwnedNodes plan ∧ ∃ node, cl_node cl name = inr node ∧ matches (n_Labels node) = true.

Lemma checkPlanNodes_run cl matches planName denied names t r :
  (∀ name, name ∈ names → hardError cl name = None) →
  run (checkPlanNodes matches planName denied names) t r → answered (consistent cl) t →
  ∃ more, r = inr (denied ++ more) ∧
    (more = [] ↔ ∀ name node, name ∈ names → cl_node cl name = inr node → matches (n_Labels node) = false).
Proof.
  revert denied t. induction names as [|name names IH]; intros denied t Hno Hrun Hans.
  { destruct Hrun as [_ ->]. exists []. rewrite app_nil_r. split; [done|]. split; [|done].
    intros _ ? ? Hx. by apply elem_of_nil in Hx. }
  cbn in Hrun. destruct Hrun as (a & t1 & -> & Hrun). inversion_clear Hans as [|?? Ha Hans'].
  cbn in Ha. pose proof (Hno name (list_elem_of_here _ _)) as Hh. unfold hardError in Hh.
  rewrite <-Ha in Hh.
  specialize (λ denied t1, IH denied t1 (λ x Hx, Hno x (list_elem_of_further _ _ _ Hx))).
  destruct a as [e|node].
  - destruct (IsNotFound e); [|done].
    destruct (IH _ _ Hrun Hans') as (more & -> & Hm). exists more. split; [done|].
    rewrite Hm. setoid_rewrite elem_of_cons. split; [|by eauto].
    intros Hall x n [->|Hx]; [congruence|by apply Hall].
  - destruct (matches (n_Labels node)) eqn:Em; destruct (IH _ _ Hrun Hans') as (more & -> & Hm).
    + eexists (_ :: more). rewrite <-app_assoc. split; [done|]. split; [done|].
      intros Hall. specialize (Hall name node (list_elem_of_here _ _) (eq_sym Ha)). congruence.
    + exists more. split; [done|]. rewrite Hm. setoid_rewrite elem_of_cons. split; [|by eauto].
      intros Hall x n [->|Hx]; [congruence|by apply Hall].
Qed.

Lemma checkPlans_run cl matches planName denied plans t r :
  (∀ name, hardError cl name = None) →
  run (checkPlans matches planName denied plans) t r → answered (consistent cl) t →
  ∃ more, r = inr (denied ++ more) ∧
    (more = [] ↔ ∀ plan name, plan ∈ plans → p_Name plan ≠ planName → ¬ overlap cl matches plan name).
Proof.
  intros Hno. revert denied t. induction plans as [|plan plans IH]; intros denied t Hrun Hans.
  { destruct Hrun as [_ ->]. exists []. rewrite app_nil_r. split; [done|]. split; [|done].
    intros _ ? ? Hx. by apply elem_of_nil in Hx. }
  cbn [checkPlans] in Hrun. case_decide as Hn.
  - destruct (IH _ _ Hrun Hans) as (more & -> & Hm). exists more. split; [done|].
    rewrite Hm. setoid_rewrite elem_of_cons. split; [|by eauto].
    intros Hall p x [->|Hp] Hne; [done|by apply Hall].
  - apply run_bind in Hrun as (t1 & r1 & t2 & -> & Hp & Hrun). apply Forall_app in Hans as [H1 H2].
    destruct (checkPlanNodes_run cl _ _ _ _ _ _ (λ x _, Hno x) Hp H1) as (m1 & -> & Hm1).
    destruct (IH _ _ Hrun H2) as (m2 & -> & Hm2). exists (m1 ++ m2). rewrite app_assoc.
    split; [done|].
    assert (m1 ++ m2 = [] ↔ m1 = [] ∧ m2 = []) as -> by (destruct m1, m2; cbn; intuition done).
    rewrite Hm1, Hm2. unfold overlap. setoid_rewrite elem_of_cons. split.
    + intros [Ha Hb] p x [->|Hin] Hne; [|by apply Hb]. intros (Hx & node & Hnode & Hmt).
      rewrite (Ha x node Hx Hnode) in Hmt. done.
    + intros Hall. split; [|by eauto]. intros x node Hx Hnode.
      destruct (matches (n_Labels node)) eqn:E; [|done].
      destruct (Hall plan x (or_introl eq_refl) Hn). split; [done|]. by exists node.
Qed.

(** Admission of a new plan with a selector.  When the selector parses, every
    read succeeds (a managed node may be gone) and the cluster answers
    consistently, creation is allowed exactly when the selector matches some node
    and no node another plan manages; otherwise it is denied. *)
Theorem Handle_selector cl plan selector matches t response :
  s_Nodes (p_Spec plan) = [] → s_NodeSelector (p_Spec plan) = Some selector →
  LabelSelectorAsSelector selector = inr matches → (∀ name, hardError cl name = None) →
  run (Handle Create (inr plan)) t response → answered (consistent cl) t →
  (response = Allowed "ok" ↔ cl_matching cl ≠ [] ∧
     ∀ other name, other ∈ cl_plans cl → p_Name other ≠ p_Name plan →
       ¬ overlap cl matches other name) ∧
  (response = Allowed "ok" ∨ ∃ msg, response = Denied msg).
Proof.
  intros Hn Hs Hsel Hno Hrun Hans. unfold Handle in Hrun. rewrite Hn, Hs in Hrun.
  rewrite decide_False, decide_True in Hrun by done.
  unfold validateNodeSelector in Hrun. rewrite Hsel in Hrun. cbn in Hrun.
  destruct Hrun as (r1 & t1 & -> & Hrun). inversion_clear Hans as [|?? Ha Hans1].
  cbn in Ha. subst r1.
  destruct (cl_matching cl) as [|n0 ns].
  { destruct Hrun as [_ ->]. split; [|right; by eexists]. split; [done|]. by intros [? _]. }
  cbn in Hrun. destruct Hrun as (r2 & t2 & -> & Hrun). inversion_clear Hans1 as [|?? Ha Hans2].
  cbn in Ha. subst r2. unfold orRespond in Hrun.
  apply run_bind in Hrun as (t3 & r3 & t4 & -> & Hp & Hrun). apply Forall_app in Hans2 as [Hans3 _].
  destruct (checkPlans_run cl _ _ _ _ _ _ Hno Hp Hans3) as (more & -> & Hm).
  destruct Hrun as [_ ->]. cbn [app]. split.
  - rewrite verdict_Allowed, Hm. split; [intros Hall; by split|by intros [_ ?]].
  - destruct more; [by left|right; by eexists].
Qed.
End Verdicts.

(** ** Witnesses

    n1 is free, n2 is managed by plan-b, nothing else exists. *)
Definition admissionNode (name owner : string) : Node :=
  MkNode name None (Some {[ ManagedByAnnotation := owner ]}) None false [].

Definition admissionTables : tables :=
  MkTables [exampleNode "n1"; admissionNode "n2" "plan-b"] (λ _, []) []
    [MkNodeMaintenancePlan "plan-b" "" 1 None [] (exampleSpec ["n2"]) zeroPlanStatus]
    (λ _, None) 0.

Definition admissionCluster : cluster :=
  MkCluster (λ name, lookupNamed n_Name name (tb_nodes admissionTables)) (tb_nodes admissionTables)
    (tb_plans admissionTables).

Lemma admission_consistent c w : consistent admissionCluster c (tableEnv admissionTables c w).1.
Proof. by destruct c. Qed.

#[local] Instance everySelector : SelectorOps := {| LabelSelectorAsSelector := λ _, inr (λ _, true) |}.

Definition runHandle (operation : Operation) (plan : NodeMaintenancePlan) : ktrace * Response :=
  (interp (tableEnv admissionTables) (Handle operation (inr plan)) tt).1.

Lemma runHandle_run operation plan :
  run (Handle operation (inr plan)) (runHandle operation plan).1 (runHandle operation plan).2 ∧
  answered (consistent admissionCluster) (runHandle operation plan).1.
Proof.
  unfold runHandle. split.
  - destruct (interp _ _ _) as [[t r] []] eqn:E. by eapply interp_run.
  - apply interp_answered. intros c w. apply admission_consistent.
Qed.

Lemma Handle_nodes_witness :
  let r := runHandle Update (examplePlan ["n1"; "n2"; "n9"]) in
  (∃ msg, r.2 = Denied msg) ∧ ¬ (∀ name, name ∈ ["n1"; "n2"; "n9"] →
    claimable admissionCluster "plan-a" name).
Proof.
  intros r. assert (∃ msg, r.2 = Denied msg) as Hd by (eexists; vm_compute; reflexivity).
  split; [exact Hd|]. intros Hall.
  pose proof (Handle_nodes admissionCluster Update (examplePlan ["n1"; "n2"; "n9"]) r.1 r.2
    ltac:(discriminate) ltac:(discriminate) (proj1 (runHandle_run _ _)) (proj2 (runHandle_run _ _))) as [Hok _].
  destruct Hd as [msg Hmsg]. rewrite (proj2 Hok Hall) in Hmsg. discriminate.
Defined.

Definition selectorPlan : NodeMaintenancePlan :=
  MkNodeMaintenancePlan "plan-a" "" 1 None []
    (MkNodeMaintenancePlanSpec [] (Some (MkLabelSelector [] [])) "upgrade" None None) zeroPlanStatus.

Lemma Handle_selector_witness :
  let r := runHandle Create selectorPlan in
  r.2 = Denied (ownedMessage "n2" "plan-b") ∧
  (r.2 = Allowed "ok" ∨ ∃ msg, r.2 = Denied msg).
Proof.
  intros r. split; [vm_compute; reflexivity|].
  refine (proj2 (Handle_selector admissionCluster selectorPlan (MkLabelSelector [] []) (λ _, true)
    r.1 r.2 eq_refl eq_refl eq_refl _ (proj1 (runHandle_run _ _)) (proj2 (runHandle_run _ _)))).
  intros name. unfold hardError, admissionCluster, lookupNamed. cbn [cl_node].
  destruct (findFirst _ _); reflexivity.
Defined.

