(* ===== verification/CertEnv.v ===== *)
(** * The environment of the certificate bootstrapper

    The calls internal/webhook/certbootstrap.go makes to the outside (the
    Secret and the webhook configuration on the API server, the file system, the
    clock, the source of randomness, the waits on its context), the crypto
    packages as a parameter with their documented laws, the monad the
    bootstrapper is written in, and the file system as a transition relation. *)
From S2P Require Import Prelude GoTime Prog Kube.

(** Byte slices are strings of bytes; the nil slice is the empty one. *)
Abbreviation bytes := string.

(** ** crypto/x509, crypto/ecdsa and encoding/pem *)

Inductive KeyUsage : Type := DigitalSignature | KeyEncipherment | CertSign | CRLSign.
Inductive ExtKeyUsage : Type := ServerAuth.

(** The fields of [x509.Certificate] the bootstrapper sets in a template. *)
Record Certificate : Type := MkCertificate {
  crt_SerialNumber : Z;
  crt_CommonName : string;
  crt_DNSNames : list string;
  crt_IPAddresses : list string;
  crt_NotBefore : Time;
  crt_NotAfter : Time;
  crt_KeyUsage : list KeyUsage;
  crt_ExtKeyUsage : list ExtKeyUsage;
  crt_BasicConstraintsValid : bool;
  crt_IsCA : bool
}.

(** Keys, their encodings and those of certificates.  [certKey] is the public key
    a certificate binds and [signedBy] says that a certificate carries a valid
    signature of a key. *)
Class CryptoOps : Type := {
  PrivateKey : Type;
  PublicKey : Type;
  publicOf : PrivateKey → PublicKey;
  pemDecode : bytes → option bytes;
  pemEncode : string → bytes → bytes;
  ParseCertificate : bytes → string + Certificate;
  ParseECPrivateKey : bytes → string + PrivateKey;
  MarshalECPrivateKey : PrivateKey → string + bytes;
  certKey : bytes → PublicKey → Prop;
  signedBy : bytes → PublicKey → Prop
}.

(** A PEM block decodes to its bytes, a marshalled key parses to itself. *)
Class CryptoLaws `{CryptoOps} : Prop := {
  pemDecode_pemEncode ty b : pemDecode (pemEncode ty b) = Some b;
  Parse_MarshalECPrivateKey k b :
    MarshalECPrivateKey k = inr b → ParseECPrivateKey b = inr k
}.

(** Certificates encode times with a precision of one second. *)
Definition truncateSecond (t : Time) : Time := t - t `mod` Second.

(** What [x509.CreateCertificate] makes of a template: the DER bytes parse to the
    template, bind the key and carry the signature of the parent's key. *)
Definition issues `{CryptoOps} (tmpl : Certificate) (pub : PublicKey) (priv : PrivateKey)
    (der : bytes) : Prop :=
  (∃ c, ParseCertificate der = inr c ∧
     crt_SerialNumber c = crt_SerialNumber tmpl ∧ crt_CommonName c = crt_CommonName tmpl ∧
     crt_DNSNames c = crt_DNSNames tmpl ∧ crt_IPAddresses c = crt_IPAddresses tmpl ∧
     crt_NotBefore c = truncateSecond (crt_NotBefore tmpl) ∧
     crt_NotAfter c = truncateSecond (crt_NotAfter tmpl) ∧
     crt_KeyUsage c = crt_KeyUsage tmpl ∧ crt_ExtKeyUsage c = crt_ExtKeyUsage tmpl ∧
     crt_IsCA c = crt_IsCA tmpl) ∧
  certKey der pub ∧ signedBy der (publicOf priv).

(** ** API objects *)

Record Secret : Type := MkSecret {
  sec_Namespace : string;
  sec_Name : string;
  sec_Data : strmap
}.

Record ValidatingWebhook : Type := MkValidatingWebhook {
  vw_Name : string;
  vw_CABundle : bytes
}.

Record ValidatingWebhookConfiguration : Type := MkValidatingWebhookConfiguration {
  vwc_Name : string;
  vwc_Webhooks : list ValidatingWebhook
}.

(** ** Calls *)

Section Calls.
Context `{CR : CryptoOps}.

Inductive ccall : Type :=
| CGetSecret (namespace name : string)
| CCreateSecret (secret : Secret)
| CPatchSecret (original modified : Secret)
| CGetWebhookConfig (name : string)
| CPatchWebhookConfig (original modified : ValidatingWebhookConfiguration)
| CTime                                     (* time.Now, time.Until *)
| CGenerateKey                              (* ecdsa.GenerateKey *)
| CRandInt (max : Z)                        (* cryptorand.Int *)
| CCreateCertificate (template parent : Certificate) (pub : PublicKey) (priv : PrivateKey)
| CReadFile (path : string)
| CMkdirAll (path : string) (perm : Z)
| CCreateTemp (dir pattern : string)
| CChmod (path : string) (perm : Z)
| CWriteFile (path : string) (data : bytes)
| CCloseFile (path : string)
| CRename (oldpath newpath : string)
| CRemove (path : string)
| CFileOrder                                (* for name, content := range files *)
| CWait (d : Duration)                      (* select on ctx.Done and time.After(d) *)
| CTick (d : Duration).                     (* select on ctx.Done and a ticker *)

(** [inl] and [Some] hold the error; an answer to [CFileOrder] says whether the
    first entry comes first; [CWait] and [CTick] answer with [ctx.Err()] when the
    context is done. *)
Definition cresp (c : ccall) : Type :=
  match c with
  | CGetSecret _ _ => ApiError + Secret
  | CCreateSecret _ | CPatchSecret _ _ | CPatchWebhookConfig _ _ => option ApiError
  | CGetWebhookConfig _ => ApiError + ValidatingWebhookConfiguration
  | CTime => Time
  | CGenerateKey => string + PrivateKey
  | CRandInt _ => string + Z
  | CCreateCertificate _ _ _ _ => string + bytes
  | CReadFile _ => string + bytes
  | CCreateTemp _ _ => string + string
  | CMkdirAll _ _ | CChmod _ _ | CWriteFile _ _ | CCloseFile _ | CRename _ _ | CRemove _ =>
      option string
  | CFileOrder => bool
  | CWait _ | CTick _ => option string
  end.

Definition cprog (A : Type) : Type := prog cresp A.
Definition ctrace : Type := list (event cresp).
End Calls.

Arguments ccall : clear implicits.
Arguments ccall {CR}.

(** ** The monad *)

(** How a program stands: it has returned (a value, a Go error or a panic), or it
    is still polling when the number of polls allowed to it is used up. *)
Inductive ending (A : Type) : Type :=
| Done (o : outcome A)
| Polling.
Arguments Done {A} o.
Arguments Polling {A}.

Section Monad.
Context `{CR : CryptoOps}.

Definition C (A : Type) : Type := cprog (ending A).

Definition bindEnding {A B} (f : A → C B) (r : ending A) : C B :=
  match r with
  | Done (OK a) => f a
  | Done (Fail e) => Ret (Done (Fail e))
  | Done Panic => Ret (Done Panic)
  | Polling => Ret Polling
  end.

#[export] Instance C_ret : MRet C := λ A a, Ret (Done (OK a)).
#[export] Instance C_bind : MBind C := λ A B f m, pbind m (bindEnding f).

Definition fail {A} (e : error) : C A := Ret (Done (Fail e)).
Definition panicC {A} : C A := Ret (Done Panic).
Definition ask (c : ccall) : C (cresp c) := Vis c (λ r, Ret (Done (OK r))).

(** [x, err := f(...)] of a function of another package. *)
Definition orFail {A} (msg : string) (r : string + A) : C A :=
  match r with inl e => fail (ErrWrap msg (ErrNew e)) | inr a => mret a end.

Definition okOr (msg : string) (r : option string) : C unit :=
  match r with Some e => fail (ErrWrap msg (ErrNew e)) | None => mret tt end.

Definition apiOkOr (msg : string) (r : option ApiError) : C unit :=
  match r with Some e => fail (ErrWrap msg (ErrApi e)) | None => mret tt end.

(** The error of a call is wrapped on the way up. *)
Definition wrapC {A} (msg : string) (m : C A) : C A :=
  pbind m (λ r, Ret (match r with Done (Fail e) => Done (Fail (ErrWrap msg e)) | r => r end)).

(** [defer fin()]: [fin] runs after [m] however [m] ends, its error is dropped. *)
Definition deferred {A} (fin : C unit) (m : C A) : C A :=
  pbind m (λ r, pbind fin (λ _, Ret r)).

(** An ending that is no value, at another type. *)
Definition aborted {A B} (r : ending A) : option (ending B) :=
  match r with
  | Done (OK _) => None
  | Done (Fail e) => Some (Done (Fail e))
  | Done Panic => Some (Done Panic)
  | Polling => Some Polling
  end.

Lemma runC_bind {A B} (m : C A) (f : A → C B) t o :
  run (m ≫= f) t o ↔
  ∃ t1 r t2, t = t1 ++ t2 ∧ run m t1 r ∧
    match r with
    | Done (OK a) => run (f a) t2 o
    | _ => t2 = [] ∧ aborted r = Some o
    end.
Proof.
  unfold mbind, C_bind. rewrite run_bind. split.
  - intros (t1 & r & t2 & -> & H1 & H2). exists t1, r, t2. split_and!; [done|done|].
    destruct r as [[a|e|]|]; cbn in *; try done; by destruct H2 as [-> ->].
  - intros (t1 & r & t2 & -> & H1 & H2). exists t1, r, t2. split_and!; [done|done|].
    destruct r as [[a|e|]|]; cbn in *; try done; by destruct H2 as [-> [= ->]].
Qed.

(** A successful sequence is two successful parts. *)
Lemma runC_bind_ok {A B} (m : C A) (f : A → C B) t b :
  run (m ≫= f) t (Done (OK b)) ↔
  ∃ t1 a t2, t = t1 ++ t2 ∧ run m t1 (Done (OK a)) ∧ run (f a) t2 (Done (OK b)).
Proof.
  rewrite runC_bind. split.
  - intros (t1 & [[a|e|]|] & t2 & -> & H1 & H2); cbn in H2; try by destruct H2 as [_ ?].
    by exists t1, a, t2.
  - intros (t1 & a & t2 & -> & H1 & H2). by exists t1, (Done (OK a)), t2.
Qed.

Lemma run_ask c t o : run (ask c) t o ↔ ∃ r, t = [Ev c r] ∧ o = Done (OK r).
Proof.
  cbn. split.
  - intros (r & t' & -> & -> & ->). by exists r.
  - intros (r & -> & ->). by exists r, [].
Qed.

Lemma run_wrapC {A} msg (m : C A) t o :
  run (wrapC msg m) t o ↔ ∃ r, run m t r ∧
    o = match r with Done (Fail e) => Done (Fail (ErrWrap msg e)) | r => r end.
Proof.
  unfold wrapC. rewrite run_bind. split.
  - intros (t1 & r & t2 & -> & H1 & -> & ->). rewrite app_nil_r. by exists r.
  - intros (r & H1 & ->). exists t, r, []. rewrite app_nil_r. by split_and!.
Qed.

Lemma run_wrapC_ok {A} msg (m : C A) t a :
  run (wrapC msg m) t (Done (OK a)) ↔ run m t (Done (OK a)).
Proof.
  rewrite run_wrapC. split.
  - intros ([[?|?|]|] & H & Ho); simplify_eq; done.
  - intros H. by exists (Done (OK a)).
Qed.
End Monad.

(** ** The file system

    [fsStep] is the effect of one call with its answer on the contents of the
    files: what POSIX and package os document.  A failed write may leave any
    prefix; [os.CreateTemp] replaces the [*] of the pattern and never picks an
    existing file; [os.Rename] replaces its target atomically. *)

(** [filepath.Join] and [filepath.Dir] of clean paths. *)
Definition filepathJoin (dir name : string) : string := dir +:+ "/" +:+ name.

(** The text up to the last separator, if there is one. *)
Fixpoint beforeLastSlash (path : string) : option string :=
  match path with
  | EmptyString => None
  | String c rest =>
      match beforeLastSlash rest with
      | Some d => Some (String c d)
      | None => if decide (c = Ascii.ascii_of_nat 47) then Some EmptyString else None
      end
  end.

Definition filepathDir (path : string) : string :=
  match beforeLastSlash path with
  | None => "."
  | Some EmptyString => "/"
  | Some d => d
  end.

Definition tempPattern : string := ".cert-tmp-*".

Abbreviation fs := (gmap string bytes).

Section FileSystem.
Context `{CR : CryptoOps}.

Definition tempPath (dir path : string) : Prop :=
  ∃ x, beforeLastSlash x = None ∧ path = filepathJoin dir (".cert-tmp-" +:+ x).

Definition fsStep (σ : fs) (e : event cresp) (σ' : fs) : Prop :=
  match e with
  | Ev (CReadFile path) (inr data) => σ !! path = Some data ∧ σ' = σ
  | Ev (CCreateTemp dir _) (inr path) => σ !! path = None ∧ tempPath dir path ∧ σ' = <[path := ""]> σ
  | Ev (CWriteFile path data) None => σ' = <[path := data]> σ
  | Ev (CWriteFile path data) (Some _) =>
      ∃ part, (part = "" ∨ ∃ rest, data = part +:+ rest) ∧ σ' = <[path := part]> σ
  | Ev (CRename oldpath newpath) None =>
      ∃ data, σ !! oldpath = Some data ∧ σ' = <[newpath := data]> (delete oldpath σ)
  | Ev (CRemove path) None => σ' = delete path σ
  | _ => σ' = σ
  end.

Inductive fsRun : fs → ctrace → fs → Prop :=
| fsRun_nil σ : fsRun σ [] σ
| fsRun_cons σ1 e σ2 t σ3 : fsStep σ1 e σ2 → fsRun σ2 t σ3 → fsRun σ1 (e :: t) σ3.

Lemma fsRun_nil_inv σ σ' : fsRun σ [] σ' → σ' = σ.
Proof. by inversion 1. Qed.

Lemma fsRun_cons_inv σ e t σ' : fsRun σ (e :: t) σ' → ∃ σ1, fsStep σ e σ1 ∧ fsRun σ1 t σ'.
Proof. inversion 1; subst. by eexists. Qed.

Lemma fsRun_app σ t1 t2 σ' :
  fsRun σ (t1 ++ t2) σ' ↔ ∃ σ1, fsRun σ t1 σ1 ∧ fsRun σ1 t2 σ'.
Proof.
  split.
  - revert σ. induction t1 as [|e t1 IH]; intros σ H; [exists σ; split; [constructor|done]|].
    apply fsRun_cons_inv in H as (σ1 & Hs & Hr). destruct (IH _ Hr) as (σ2 & ? & ?).
    exists σ2. split; [by econstructor|done].
  - intros (σ1 & H1 & H2). induction H1 as [|???? ? Hs H1 IH]; [done|].
    econstructor; [exact Hs|by apply IH].
Qed.
End FileSystem.

(** ** Weakest preconditions over the file system

    [wp R I p σ Q]: from files [σ], if the answers satisfy [R] and act on the
    files as [fsStep] says, then [I] holds of the files after every call of [p]
    and [Q] of its result and the files at the end. *)
Section WP.
Context `{CR : CryptoOps} (R : rely cresp) (I : fs → Prop).

Fixpoint wp {A} (p : cprog A) (σ : fs) (Q : A → fs → Prop) : Prop :=
  match p with
  | Ret a => Q a σ
  | Vis c k => ∀ r σ', R c r → fsStep σ (Ev c r) σ' → I σ' ∧ wp (k r) σ' Q
  end.

Lemma wp_sound {A} (p : cprog A) σ Q t a :
  wp p σ Q → I σ → run p t a → answered R t →
  (∀ t1 t2 σ1, t = t1 ++ t2 → fsRun σ t1 σ1 → I σ1) ∧ (∀ σ', fsRun σ t σ' → Q a σ').
Proof.
  revert σ t. induction p as [x|c k IH]; intros σ t Hwp HI Hrun Hans; cbn in *.
  - destruct Hrun as [-> ->]. split.
    + intros [|] t2 σ1 Ht Hfs; [|done]. by apply fsRun_nil_inv in Hfs as ->.
    + by intros σ' ->%fsRun_nil_inv.
  - destruct Hrun as (r & t' & -> & Hrun). inversion_clear Hans as [|?? Hr Hans']. split.
    + intros [|e t1] t2 σ1 Ht Hfs; [by apply fsRun_nil_inv in Hfs as ->|].
      cbn in Ht. simplify_eq. apply fsRun_cons_inv in Hfs as (σ2 & Hs & Hfs).
      destruct (Hwp r σ2 Hr Hs) as [HI2 Hk].
      by apply (proj1 (IH r σ2 _ Hk HI2 Hrun Hans') t1 t2).
    + intros σ' (σ2 & Hs & Hfs)%fsRun_cons_inv. destruct (Hwp r σ2 Hr Hs) as [HI2 Hk].
      by apply (proj2 (IH r σ2 _ Hk HI2 Hrun Hans')).
Qed.

Lemma wp_mono {A} (p : cprog A) σ (Q1 Q2 : A → fs → Prop) :
  wp p σ Q1 → (∀ a σ', Q1 a σ' → Q2 a σ') → wp p σ Q2.
Proof.
  revert σ. induction p as [x|c k IH]; intros σ H HQ; cbn in *; [by apply HQ|].
  intros r σ' Hr Hs. destruct (H r σ' Hr Hs). by split; [|apply IH].
Qed.

Lemma wp_pbind {A B} (p : cprog A) (f : A → cprog B) σ Q :
  wp p σ (λ a σ', wp (f a) σ' Q) → wp (pbind p f) σ Q.
Proof.
  revert σ. induction p as [x|c k IH]; intros σ H; cbn in *; [done|].
  intros r σ' Hr Hs. destruct (H r σ' Hr Hs). by split; [|apply IH].
Qed.

Lemma wp_bind {A B} (m : C A) (f : A → C B) σ (Q : ending B → fs → Prop) :
  wp m σ (λ r σ', match r with
    | Done (OK a) => wp (f a) σ' Q
    | Done (Fail e) => Q (Done (Fail e)) σ'
    | Done Panic => Q (Done Panic) σ'
    | Polling => Q Polling σ'
    end) → wp (m ≫= f) σ Q.
Proof.
  intros H. apply wp_pbind. eapply wp_mono; [exact H|].
  by intros [[a|e|]|] σ' Hr; cbn.
Qed.

Lemma wp_ret {A} (a : A) σ (Q : ending A → fs → Prop) : Q (Done (OK a)) σ → wp (mret a : C A) σ Q.
Proof. done. Qed.

Lemma wp_fail {A} e σ (Q : ending A → fs → Prop) : Q (Done (Fail e)) σ → wp (fail e) σ Q.
Proof. done. Qed.

Lemma wp_ask c σ Q :
  (∀ r σ', R c r → fsStep σ (Ev c r) σ' → I σ' ∧ Q (Done (OK r)) σ') → wp (ask c) σ Q.
Proof. done. Qed.

Lemma wp_wrapC {A} msg (m : C A) σ (Q : ending A → fs → Prop) :
  wp m σ (λ r σ', Q (match r with Done (Fail e) => Done (Fail (ErrWrap msg e)) | r => r end) σ') →
  wp (wrapC msg m) σ Q.
Proof. intros H. by apply wp_pbind. Qed.

Lemma wp_deferred {A} (fin : C unit) (m : C A) σ (Q : ending A → fs → Prop) :
  wp m σ (λ r σ', wp fin σ' (λ _ σ'', Q r σ'')) → wp (deferred fin m) σ Q.
Proof.
  intros H. apply wp_pbind. eapply wp_mono; [exact H|]. intros r σ' Hr. by apply wp_pbind.
Qed.

Lemma wp_orFail {A} msg (r : string + A) σ (Q : ending A → fs → Prop) :
  (∀ e, Q (Done (Fail e)) σ) → (∀ a, r = inr a → Q (Done (OK a)) σ) → wp (orFail msg r) σ Q.
Proof. intros H1 H2. destruct r; [by apply H1|by apply H2]. Qed.

Lemma wp_okOr msg (r : option string) σ (Q : ending unit → fs → Prop) :
  (∀ e, Q (Done (Fail e)) σ) → (r = None → Q (Done (OK tt)) σ) → wp (okOr msg r) σ Q.
Proof. intros H1 H2. destruct r; [by apply H1|by apply H2]. Qed.
End WP.

(** One constructor of the monad per step. *)
Ltac wp_step :=
  lazymatch goal with
  | |- wp _ _ (mbind _ _) _ _ => apply wp_bind
  | |- wp _ _ (mret _) _ _ => apply wp_ret
  | |- wp _ _ (fail _) _ _ => apply wp_fail
  | |- wp ?R ?I (ask ?c) ?s ?Q =>
      refine (wp_ask R I c s Q _); let r := fresh "r" in let σ := fresh "σ" in
      let Hr := fresh "Hr" in let Hs := fresh "Hs" in intros r σ Hr Hs
  | |- wp _ _ (wrapC _ _) _ _ => apply wp_wrapC
  | |- wp _ _ (deferred _ _) _ _ => apply wp_deferred
  | |- wp _ _ (orFail _ _) _ _ => apply wp_orFail; [intros ?|intros ? ?]
  | |- wp _ _ (okOr _ _) _ _ => apply wp_okOr; [intros ?|intros ?]
  end; cbn beta iota.


(** ** Programs that make only some calls

    [only G may pan m]: every call of [m] is in [G]; [m] runs out of polls only
    if [may] and panics only if [pan]. *)
Definition only `{CR : CryptoOps} (G : guar ccall) (may pan : Prop) {A} (m : C A) : Prop :=
  rg anyAnswer G m (λ r, (r = Polling → may) ∧ (r = Done Panic → pan)).

Section Only.
Context `{CR : CryptoOps} {G : guar ccall} {may pan : Prop}.

Lemma only_run {A} (m : C A) t r : only G may pan m → run m t r → issued G t ∧ (r = Polling → may) ∧ (r = Done Panic → pan).
Proof. intros H Hrun. apply (rg_sound _ _ _ _ _ _ H Hrun). apply answered_any. Qed.

Lemma only_bind {A B} (m : C A) (f : A → C B) :
  only G may pan m → (∀ a, only G may pan (f a)) → only G may pan (m ≫= f).
Proof.
  intros Hm Hf. apply rg_bind. eapply rg_post; [exact Hm|].
  intros [[a|e|]|] [H1 H2]; cbn; [apply Hf|done|..]; split; try done; intros _; auto.
Qed.

Lemma only_mret {A} (a : A) : only G may pan (mret a : C A).
Proof. done. Qed.

Lemma only_fail {A} e : only G may pan (fail e : C A).
Proof. done. Qed.

Lemma only_panicC {A} : pan → only G may pan (panicC : C A).
Proof. by intros H. Qed.

Lemma only_ask c : G c → only G may pan (ask c).
Proof. intros Hc. by split. Qed.

Lemma only_wrapC {A} msg (m : C A) : only G may pan m → only G may pan (wrapC msg m).
Proof.
  intros Hm. apply rg_bind. eapply rg_post; [exact Hm|]. intros [[a|e|]|] [H1 H2]; cbn; split; try done; intros _; auto.
Qed.

Lemma only_deferred {A} (fin : C unit) (m : C A) :
  only G may pan fin → only G may pan m → only G may pan (deferred fin m).
Proof.
  intros Hf Hm. apply rg_bind. eapply rg_post; [exact Hm|]. intros r Hr. apply rg_bind.
  eapply rg_post; [exact Hf|]. done.
Qed.

Lemma only_orFail {A} msg (r : string + A) : only G may pan (orFail msg r).
Proof. by destruct r. Qed.

(** A step that needs what [orFail] got. *)
Lemma only_orFail_bind {A B} msg (r : string + A) (f : A → C B) :
  (∀ a, r = inr a → only G may pan (f a)) → only G may pan (orFail msg r ≫= f).
Proof. intros H. destruct r as [e|a]; [done|]. by apply (H a). Qed.

Lemma only_okOr msg (r : option string) : only G may pan (okOr msg r).
Proof. by destruct r. Qed.

Lemma only_apiOkOr msg (r : option ApiError) : only G may pan (apiOkOr msg r).
Proof. by destruct r. Qed.
End Only.

Ltac only_step :=
  lazymatch goal with
  | |- only _ _ _ (mbind _ _) => apply only_bind; [|intros ?]
  | |- only _ _ _ (mret _) => apply only_mret
  | |- only _ _ _ (fail _) => apply only_fail
  | |- only _ _ _ panicC => apply only_panicC
  | |- only _ _ _ (ask ?c) => refine (only_ask c _)
  | |- only _ _ _ (wrapC _ _) => apply only_wrapC
  | |- only _ _ _ (deferred _ _) => apply only_deferred
  | |- only _ _ _ (orFail _ _) => apply only_orFail
  | |- only _ _ _ (okOr _ _) => apply only_okOr
  | |- only _ _ _ (apiOkOr _ _) => apply only_apiOkOr
  | |- only _ _ _ (if ?b then _ else _) => destruct b
  | |- only _ _ _ (match ?x with _ => _ end) => destruct x
  end.
Ltac only_tac := repeat only_step; try lazymatch goal with |- only _ _ _ _ => fail | |- _ => done end.

(** Calls that leave the files alone. *)
Definition noFileWrites `{CR : CryptoOps} : guar ccall := λ c,
  match c with
  | CCreateTemp _ _ | CWriteFile _ _ | CRename _ _ | CRemove _ => False
  | _ => True
  end.

Lemma noFileWrites_fsRun `{CR : CryptoOps} t σ σ' :
  issued noFileWrites t → fsRun σ t σ' → σ' = σ.
Proof.
  intros Hi Hfs. induction Hfs as [|σ1 e σ2 t σ3 Hs Hfs IH]; [done|].
  inversion_clear Hi as [|?? Hc Hi']. rewrite (IH Hi'). destruct e as [[] r]; cbn in *; try done.
  destruct r; [done|by destruct Hs].
Qed.
