(* ===== verification/CertBootstrap.v ===== *)
(** * Certificate bootstrap (internal/webhook/certbootstrap.go)

    Self-signed TLS credentials for the webhook and the metrics server: the
    shared CA in a Secret, the server certificates on each pod's disk, the CA
    bundle in the webhook configuration. *)
From S2P Require Import Prelude GoTime Prog Kube CertEnv.

Definition renewBefore : Duration := 30 * 24 * Hour.
Definition certValidity : Duration := 90 * 24 * Hour.
Definition renewalCheckInterval : Duration := 12 * Hour.

Definition caCertField : string := "ca.crt".
Definition caKeyField : string := "ca.key".
Definition pemCertificate : string := "CERTIFICATE".
Definition pemECPrivateKey : string := "EC PRIVATE KEY".
Definition localhostDNS : string := "localhost".

Record CertBootstrapper : Type := MkCertBootstrapper {
  b_Namespace : string;
  b_SecretName : string;
  b_CertDir : string;
  b_ServiceName : string;
  b_WebhookConfigName : string;
  b_MetricsCertDir : string;
  b_MetricsServiceName : string
}.

Definition IsAlreadyExists (e : ApiError) : bool := bool_decide (ae_Reason e = ReasonAlreadyExists).

Section CertBootstrap.
Context `{CR : CryptoOps}.

(** The check both [caIsExpiring] and [serverCertNeedsRenewal] end with. *)
Definition pemExpiring (data : bytes) : C bool :=
  match pemDecode data with
  | None => mret true
  | Some block =>
      match ParseCertificate block with
      | inl _ => mret true
      | inr cert =>
          now ← ask CTime;
          mret (Sub (crt_NotAfter cert) now <? renewBefore)
      end
  end.

Definition caIsExpiring (secret : Secret) : C bool :=
  pemExpiring (mapGet (sec_Data secret) caCertField).

Definition serverCertNeedsRenewal (dir : string) : C bool :=
  r ← ask (CReadFile (filepathJoin dir "tls.crt"));
  match r : string + bytes with
  | inl _ => mret true
  | inr data => pemExpiring data
  end.

(** [cryptorand.Int(rand, 1 << 128)]. *)
Definition serialBound : Z := Z.shiftl 1 128.

Definition caTemplate (serial : Z) (now1 now2 : Time) : Certificate :=
  MkCertificate serial "node-maintenance-orchestrator-ca" [] []
    (Add now1 (- 5 * Minute)) (Add now2 certValidity) [CertSign; CRLSign] [] true true.

Definition generateCA : C (bytes * bytes) :=
  r ← ask CGenerateKey;
  priv ← orFail "generating key" r;
  r ← ask (CRandInt serialBound);
  serial ← orFail "generating serial number" r;
  now1 ← ask CTime;
  now2 ← ask CTime;
  let tmpl := caTemplate serial now1 now2 in
  r ← ask (CCreateCertificate tmpl tmpl (publicOf priv) priv);
  certDER ← orFail "creating certificate" r;
  keyDER ← orFail "marshaling key" (MarshalECPrivateKey priv);
  mret (pemEncode pemCertificate certDER, pemEncode pemECPrivateKey keyDER).

Definition serverNames (serviceName namespace : string) (extraDNS : list string) : list string :=
  [serviceName;
   serviceName +:+ "." +:+ namespace;
   serviceName +:+ "." +:+ namespace +:+ ".svc";
   serviceName +:+ "." +:+ namespace +:+ ".svc.cluster.local"] ++ extraDNS.

Definition serverTemplate (serial : Z) (dnsNames extraIPs : list string) (now1 now2 : Time)
    : Certificate :=
  MkCertificate serial (nth 2 dnsNames "") dnsNames extraIPs
    (Add now1 (- 5 * Minute)) (Add now2 certValidity)
    [DigitalSignature; KeyEncipherment] [ServerAuth] false false.

Definition generateServerCert (caCertPEM caKeyPEM : bytes) (serviceName namespace : string)
    (extraDNS extraIPs : list string) : C (bytes * bytes) :=
  match pemDecode caCertPEM with
  | None => fail (ErrNew "decoding CA cert PEM")
  | Some caBlock =>
      caCert ← orFail "parsing CA cert" (ParseCertificate caBlock);
      match pemDecode caKeyPEM with
      | None => fail (ErrNew "decoding CA key PEM")
      | Some caKeyBlock =>
          caKey ← orFail "parsing CA key" (ParseECPrivateKey caKeyBlock);
          r ← ask CGenerateKey;
          priv ← orFail "generating server key" r;
          r ← ask (CRandInt serialBound);
          serial ← orFail "generating serial number" r;
          let dnsNames := serverNames serviceName namespace extraDNS in
          now1 ← ask CTime;
          now2 ← ask CTime;
          let tmpl := serverTemplate serial dnsNames extraIPs now1 now2 in
          r ← ask (CCreateCertificate tmpl caCert (publicOf priv) caKey);
          certDER ← orFail "creating server cert" r;
          keyDER ← orFail "marshaling server key" (MarshalECPrivateKey priv);
          mret (pemEncode pemCertificate certDER, pemEncode pemECPrivateKey keyDER)
      end
  end.

(** The steps on the open temporary file: [tmp.Close()] on the way out of a
    failed one, its error dropped. *)
Definition fillTemp (tmpPath path : string) (data : bytes) (perm : Z) : C unit :=
  r ← ask (CChmod tmpPath perm);
  match r : option string with
  | Some e => ask (CCloseFile tmpPath);; fail (ErrWrap "setting permissions" (ErrNew e))
  | None =>
      r ← ask (CWriteFile tmpPath data);
      match r : option string with
      | Some e => ask (CCloseFile tmpPath);; fail (ErrWrap "writing data" (ErrNew e))
      | None =>
          r ← ask (CCloseFile tmpPath);
          okOr "closing temp file" r;;
          r ← ask (CRename tmpPath path);
          match r : option string with
          | Some e => fail (ErrNew e)
          | None => mret tt
          end
      end
  end.

Definition atomicWriteFile (path : string) (data : bytes) (perm : Z) : C unit :=
  r ← ask (CCreateTemp (filepathDir path) tempPattern);
  tmpPath ← orFail "creating temp file" r;
  deferred (ask (CRemove tmpPath);; mret tt) (fillTemp tmpPath path data perm).

Definition writeCert (dir : string) (file : string * bytes) : C unit :=
  wrapC ("writing " +:+ file.1) (atomicWriteFile (filepathJoin dir file.1) file.2 384).

Definition writeCertsToDisk (dir : string) (serverCert serverKey : bytes) : C unit :=
  r ← ask (CMkdirAll dir 448);
  okOr "creating cert dir" r;;
  certFirst ← ask CFileOrder;
  let crt := ("tls.crt", serverCert) in
  let key := ("tls.key", serverKey) in
  if certFirst : bool
  then writeCert dir crt;; writeCert dir key
  else writeCert dir key;; writeCert dir crt.

(** The loop of [patchCABundle], for at most [polls] polls. *)
Fixpoint waitForConfig (polls : nat) (name : string) : C ValidatingWebhookConfiguration :=
  match polls with
  | O => Ret Polling
  | S polls =>
      r ← ask (CGetWebhookConfig name);
      match r : ApiError + ValidatingWebhookConfiguration with
      | inr config => mret config
      | inl e =>
          if negb (IsNotFound e)
          then fail (ErrWrap ("getting webhook config " +:+ quote name) (ErrApi e))
          else
            w ← ask (CWait (2 * Second));
            match w : option string with
            | Some ctxErr =>
                fail (ErrWrap ("timed out waiting for webhook config " +:+ quote name) (ErrNew ctxErr))
            | None => waitForConfig polls name
            end
      end
  end.

Definition setCABundle (caBundle : bytes) (config : ValidatingWebhookConfiguration)
    : ValidatingWebhookConfiguration :=
  MkValidatingWebhookConfiguration (vwc_Name config)
    (map (λ w, MkValidatingWebhook (vw_Name w) caBundle) (vwc_Webhooks config)).

Definition patchCABundle (polls : nat) (b : CertBootstrapper) (caBundle : bytes) : C unit :=
  webhookConfig ← waitForConfig polls (b_WebhookConfigName b);
  r ← ask (CPatchWebhookConfig webhookConfig (setCABundle caBundle webhookConfig));
  apiOkOr ("patching caBundle on " +:+ quote (b_WebhookConfigName b)) r.

(** The CA certificate and key, and whether they are new to this pod. *)
Definition rotateCA (secret : Secret) : C (bytes * bytes * bool) :=
  ca ← wrapC "rotating CA" generateCA;
  match mapSet (sec_Data secret) caCertField ca.1 ≫= (λ d, mapSet d caKeyField ca.2) with
  | None => panicC
  | Some data =>
      r ← ask (CPatchSecret secret (MkSecret (sec_Namespace secret) (sec_Name secret) data));
      apiOkOr "patching CA secret" r;;
      mret (ca.1, ca.2, true)
  end.

Definition createCA (b : CertBootstrapper) : C (bytes * bytes * bool) :=
  ca ← wrapC "generating CA" generateCA;
  let newSecret := MkSecret (b_Namespace b) (b_SecretName b)
    (Some {[ caCertField := ca.1; caKeyField := ca.2 ]}) in
  r ← ask (CCreateSecret newSecret);
  match r : option ApiError with
  | Some createErr =>
      if negb (IsAlreadyExists createErr)
      then fail (ErrWrap "creating CA secret" (ErrApi createErr))
      else
        r ← ask (CGetSecret (b_Namespace b) (b_SecretName b));
        match r : ApiError + Secret with
        | inl e => fail (ErrWrap "reading CA secret after create race" (ErrApi e))
        | inr secret =>
            mret (mapGet (sec_Data secret) caCertField, mapGet (sec_Data secret) caKeyField, true)
        end
  | None => mret (ca.1, ca.2, true)
  end.

(** The two cases of a successful read evaluate [caIsExpiring] once each. *)
Definition ensureCA (b : CertBootstrapper) : C (bytes * bytes * bool) :=
  r ← ask (CGetSecret (b_Namespace b) (b_SecretName b));
  match r : ApiError + Secret with
  | inr secret =>
      expiring ← caIsExpiring secret;
      if negb expiring
      then mret (mapGet (sec_Data secret) caCertField, mapGet (sec_Data secret) caKeyField, false)
      else
        expiring ← caIsExpiring secret;
        if expiring : bool then rotateCA secret
        else fail (ErrNew "getting CA secret: %!w(<nil>)")
  | inl getErr =>
      if IsNotFound getErr then createCA b
      else fail (ErrWrap "getting CA secret" (ErrApi getErr))
  end.

(** [dir != "" && (caRotated || serverCertNeedsRenewal(dir))]. *)
Definition needsCert (dir : string) (caRotated : bool) : C bool :=
  if decide (dir = "") then mret false
  else if caRotated then mret true
  else serverCertNeedsRenewal dir.

Definition ensureWebhookCert (polls : nat) (b : CertBootstrapper) (caCert caKey : bytes)
    (caRotated : bool) : C unit :=
  needed ← needsCert (b_CertDir b) caRotated;
  if needed : bool then
    pair ← wrapC "generating webhook server cert"
      (generateServerCert caCert caKey (b_ServiceName b) (b_Namespace b) [] []);
    wrapC "writing webhook certs to disk" (writeCertsToDisk (b_CertDir b) pair.1 pair.2);;
    patchCABundle polls b caCert
  else mret tt.

Definition ensureMetricsCert (b : CertBootstrapper) (caCert caKey : bytes) (caRotated : bool)
    : C unit :=
  needed ← needsCert (b_MetricsCertDir b) caRotated;
  if needed : bool then
    pair ← wrapC "generating metrics server cert"
      (generateServerCert caCert caKey (b_MetricsServiceName b) (b_Namespace b)
         [localhostDNS] ["127.0.0.1"]);
    wrapC "writing metrics certs to disk" (writeCertsToDisk (b_MetricsCertDir b) pair.1 pair.2)
  else mret tt.

Definition EnsureCerts (polls : nat) (b : CertBootstrapper) : C unit :=
  ca ← ensureCA b;
  let '(caCert, caKey, caRotated) := ca in
  ensureWebhookCert polls b caCert caKey caRotated;;
  ensureMetricsCert b caCert caKey caRotated.

(** The loop of [Start], for at most [ticks] ticks: the error of a renewal is
    logged and dropped. *)
Fixpoint Start (ticks polls : nat) (b : CertBootstrapper) : C unit :=
  match ticks with
  | O => Ret Polling
  | S ticks =>
      w ← ask (CTick renewalCheckInterval);
      match w : option string with
      | Some _ => mret tt
      | None =>
          pbind (EnsureCerts polls b) (λ r,
          match r with
          | Done Panic => Ret (Done Panic)
          | Polling => Ret Polling
          | Done (OK _) | Done (Fail _) => Start ticks polls b
          end)
      end
  end.
End CertBootstrap.

(** ** Writing the certificate files *)

Lemma beforeLastSlash_app (a b : string) :
  beforeLastSlash b = None → beforeLastSlash (a +:+ String (Ascii.ascii_of_nat 47) b) = Some a.
Proof.
  intros Hb. induction a as [|c a IH].
  - change ("" +:+ ?x) with x. cbn. by rewrite Hb.
  - change (String c a +:+ ?x) with (String c (a +:+ x)). cbn. by rewrite IH.
Qed.

(** [Dir] gives back what [Join] was given. *)
Lemma filepathDir_Join dir name :
  dir ≠ "" → beforeLastSlash name = None → filepathDir (filepathJoin dir name) = dir.
Proof.
  intros Hd Hn. unfold filepathDir, filepathJoin.
  change ("/" +:+ name) with (String (Ascii.ascii_of_nat 47) name).
  rewrite beforeLastSlash_app by done. by destruct dir.
Qed.

Lemma filepathJoin_inj dir a b : filepathJoin dir a = filepathJoin dir b → a = b.
Proof. unfold filepathJoin. intros H. apply (inj (String.append dir)) in H. by injection H. Qed.

(** The same contents but for temporary files of [dir]. *)
Definition agree (dir : string) (σ σ' : fs) `{CR : CryptoOps} : Prop :=
  ∀ p, ¬ tempPath dir p → σ' !! p = σ !! p.

Section Files.
Context `{CR : CryptoOps}.

Lemma agree_refl dir σ : agree dir σ σ.
Proof. done. Qed.

Lemma agree_insert_temp dir σ σ' p x : tempPath dir p → agree dir σ σ' → agree dir σ (<[p := x]> σ').
Proof. intros Hp H q Hq. rewrite lookup_insert_ne by (by intros ->). by apply H. Qed.

Lemma agree_delete_temp dir σ σ' p : tempPath dir p → agree dir σ σ' → agree dir σ (delete p σ').
Proof. intros Hp H q Hq. rewrite lookup_delete_ne by (by intros ->). by apply H. Qed.

Lemma agree_insert dir σ σ' p x : agree dir σ σ' → agree dir (<[p := x]> σ) (<[p := x]> σ').
Proof.
  intros H q Hq. destruct (decide (p = q)) as [->|Hne]; [by rewrite !lookup_insert_eq|].
  rewrite !lookup_insert_ne by done. by apply H.
Qed.

#[local] Hint Resolve agree_refl agree_insert_temp agree_delete_temp agree_insert : core.

(** The two files are not temporary ones. *)
Lemma tls_not_temp dir name : name = "tls.crt" ∨ name = "tls.key" → ¬ tempPath dir (filepathJoin dir name).
Proof. intros [-> | ->] (x & _ & Hx%filepathJoin_inj); discriminate Hx. Qed.

(** What a write of [data] to [path] may end in. *)
Definition written (dir path : string) (data : bytes) (σ : fs) (r : ending unit) (σ' : fs) : Prop :=
  (r = Done (OK tt) ∧ agree dir (<[path := data]> σ) σ') ∨
  (∃ e, r = Done (Fail e) ∧ agree dir σ σ').

Context (R : rely cresp).

Lemma wp_fillTemp (I : fs → Prop) dir tmp path data perm σ0 σ :
  tempPath dir tmp → agree dir σ0 σ →
  (∀ σ1, agree dir σ0 σ1 ∨ agree dir (<[path := data]> σ0) σ1 → I σ1) →
  wp R I (fillTemp tmp path data perm) σ (written dir path data σ0).
Proof.
  intros Ht Ha HI. unfold fillTemp. do 2 wp_step. destruct r; cbn in Hs; subst.
  { split; [auto|]. do 2 wp_step. cbn in Hs. subst. split; [auto|]. wp_step. right. eexists; auto. }
  split; [auto|]. do 2 wp_step. destruct r; cbn in Hs.
  { destruct Hs as (part & _ & ->). split; [auto|]. do 2 wp_step. cbn in Hs. subst.
    split; [auto|]. wp_step. right. eexists; auto. }
  subst. split; [auto|]. do 2 wp_step. cbn in Hs. subst. split; [auto|]. do 2 wp_step.
  { right. eexists; auto. }
  subst. do 2 wp_step. destruct r; cbn in Hs; subst.
  { split; [auto|]. wp_step. right. eexists; auto. }
  destruct Hs as (data' & Hd & ->). rewrite lookup_insert_eq in Hd. injection Hd as <-.
  assert (agree dir (<[path:=data]> σ0) (<[path:=data]> (delete tmp (<[tmp:=data]> σ)))) by auto 8.
  split; [auto|]. wp_step. by left.
Qed.

Lemma wp_atomicWriteFile (I : fs → Prop) dir name data perm σ :
  dir ≠ "" → name = "tls.crt" ∨ name = "tls.key" →
  let path := filepathJoin dir name in
  (∀ σ1, agree dir σ σ1 ∨ agree dir (<[path := data]> σ) σ1 → I σ1) →
  wp R I (atomicWriteFile path data perm) σ (written dir path data σ).
Proof.
  intros Hd Hn path HI. unfold atomicWriteFile.
  assert (filepathDir path = dir) as -> by (apply filepathDir_Join; [done|by destruct Hn as [-> | ->]]).
  do 2 wp_step. destruct r as [e|tmp]; cbn in Hs.
  { subst. split; [auto|]. wp_step. cbn [orFail]. wp_step. right. eexists; auto. }
  destruct Hs as (_ & Ht & ->). split; [auto|]. wp_step. cbn [orFail]. wp_step.
  wp_step. eapply wp_mono; [apply (wp_fillTemp I dir tmp path data perm σ); auto|].
  intros o σ1 Ho. do 2 wp_step.
  assert (written dir path data σ o σ0) as Ho'.
  { destruct r; cbn in Hs; subst; [done|].
    destruct Ho as [[-> Ha]|(e & -> & Ha)]; [left|right; exists e]; auto. }
  split; [|by wp_step]. destruct Ho' as [[_ Ha]|(e & _ & Ha)]; auto.
Qed.

(** Every file is as before or holds the whole of its new contents, temporary
    files apart. *)
Definition wholeFiles (dir : string) (new : list (string * bytes)) (σ σ' : fs) : Prop :=
  ∀ p, ¬ tempPath dir p →
  σ' !! p = σ !! p ∨
  ∃ name data, (name, data) ∈ new ∧ p = filepathJoin dir name ∧ σ' !! p = Some data.

Lemma wholeFiles_agree dir new σ σ1 σ2 :
  wholeFiles dir new σ σ1 → agree dir σ1 σ2 → wholeFiles dir new σ σ2.
Proof. intros H Ha p Hp. rewrite (Ha p Hp). by apply H. Qed.

Lemma wholeFiles_insert dir new σ σ1 name data :
  (name, data) ∈ new → wholeFiles dir new σ σ1 →
  wholeFiles dir new σ (<[filepathJoin dir name := data]> σ1).
Proof.
  intros Hin H p Hp. destruct (decide (filepathJoin dir name = p)) as [<-|Hne].
  - right. exists name, data. by rewrite lookup_insert_eq.
  - rewrite lookup_insert_ne by done. by apply H.
Qed.

Lemma wp_writeCert dir new name data σ0 σ (Q : ending unit → fs → Prop) :
  dir ≠ "" → name = "tls.crt" ∨ name = "tls.key" → (name, data) ∈ new →
  wholeFiles dir new σ0 σ →
  (∀ σ', agree dir (<[filepathJoin dir name := data]> σ) σ' → Q (Done (OK tt)) σ') →
  (∀ e σ', agree dir σ σ' → Q (Done (Fail e)) σ') →
  wp R (wholeFiles dir new σ0) (writeCert dir (name, data)) σ Q.
Proof.
  intros Hd Hn Hin Hw Hok Hfail. unfold writeCert. cbn [fst snd]. wp_step.
  eapply wp_mono; [apply wp_atomicWriteFile; [done|done|]|].
  - intros σ1 [Ha|Ha]; (eapply wholeFiles_agree; [|exact Ha]); [done|by apply wholeFiles_insert].
  - intros o σ' [[-> Ha]|(e & -> & Ha)]; auto.
Qed.

(** Both new files, under their names. *)
Definition installed (dir : string) (crt key : bytes) (σ σ' : fs) : Prop :=
  agree dir (<[filepathJoin dir "tls.crt" := crt]> (<[filepathJoin dir "tls.key" := key]> σ)) σ'.

Lemma wp_writeCertsToDisk dir crt key σ0 σ (Q : ending unit → fs → Prop) :
  let new := [("tls.crt", crt); ("tls.key", key)] in
  dir ≠ "" → wholeFiles dir new σ0 σ →
  (∀ σ', installed dir crt key σ σ' → Q (Done (OK tt)) σ') →
  (∀ e σ', wholeFiles dir new σ σ' → Q (Done (Fail e)) σ') →
  wp R (wholeFiles dir new σ0) (writeCertsToDisk dir crt key) σ Q.
Proof.
  intros new Hd Hw Hok Hfail. unfold writeCertsToDisk.
  assert (wholeFiles dir new σ σ) as Hrefl by (intros p _; by left).
  do 2 wp_step. destruct r; cbn in Hs; subst; (split; [done|]); wp_step; cbn [okOr]; wp_step; [by apply Hfail|].
  do 2 wp_step. cbn in Hs. subst. split; [done|].
  assert (∀ n1 d1 n2 d2, (n1 = "tls.crt" ∨ n1 = "tls.key") → (n2 = "tls.crt" ∨ n2 = "tls.key") →
    (n1, d1) ∈ new → (n2, d2) ∈ new →
    (∀ σ', agree dir (<[filepathJoin dir n2 := d2]> (<[filepathJoin dir n1 := d1]> σ)) σ' →
       Q (Done (OK tt)) σ') →
    wp R (wholeFiles dir new σ0) (writeCert dir (n1, d1);; writeCert dir (n2, d2)) σ Q) as Hboth.
  { intros n1 d1 n2 d2 Hn1 Hn2 Hi1 Hi2 Hq. wp_step. apply wp_writeCert; [done..| |].
    - intros σ' Ha. assert (wholeFiles dir new σ σ') as Hs1.
      { eapply wholeFiles_agree; [|exact Ha]. by apply wholeFiles_insert. }
      apply wp_writeCert; [done..| | |].
      + eapply wholeFiles_agree; [|exact Ha]. by apply wholeFiles_insert.
      + intros σ2 Ha2. apply Hq. intros p Hp. rewrite (Ha2 p Hp). by apply (agree_insert _ _ _ _ _ Ha).
      + intros e σ2 Ha2. apply Hfail. by eapply wholeFiles_agree.
    - intros e σ' Ha. apply Hfail. by eapply wholeFiles_agree. }
  destruct r.
  - apply Hboth; [by left|by right|subst new; set_solver..|].
    intros σ' Ha. apply Hok. intros p Hp. rewrite (Ha p Hp). f_equal.
    apply insert_insert_ne. by intros ?%filepathJoin_inj.
  - apply Hboth; [by right|by left|subst new; set_solver..|]. intros σ' Ha. by apply Hok.
Qed.
End Files.

(** C31: certificates are replaced whole.  However [writeCertsToDisk] is
    interrupted, after any number of its system calls and whichever of them fail,
    each file of the system other than a temporary one is as it was or, for the
    two certificate files, holds all of its new contents: no reader ever sees a
    partly written certificate or key.  When it succeeds both files are the new
    ones and no other file has changed. *)
Theorem writeCertsToDisk_atomic `{CR : CryptoOps} dir crt key σ t o :
  dir ≠ "" → run (writeCertsToDisk dir crt key) t o →
  (∀ t1 t2 σ1, t = t1 ++ t2 → fsRun σ t1 σ1 → ∀ p, ¬ tempPath dir p →
     σ1 !! p = σ !! p ∨
     p = filepathJoin dir "tls.crt" ∧ σ1 !! p = Some crt ∨
     p = filepathJoin dir "tls.key" ∧ σ1 !! p = Some key) ∧
  (o = Done (OK tt) → ∀ σ', fsRun σ t σ' →
     σ' !! filepathJoin dir "tls.crt" = Some crt ∧ σ' !! filepathJoin dir "tls.key" = Some key ∧
     ∀ p, ¬ tempPath dir p → p ≠ filepathJoin dir "tls.crt" → p ≠ filepathJoin dir "tls.key" →
       σ' !! p = σ !! p).
Proof.
  intros Hd Hrun. set (new := [("tls.crt", crt); ("tls.key", key)]).
  assert (wholeFiles dir new σ σ) as Hw by (intros p _; by left).
  pose proof (wp_writeCertsToDisk anyAnswer dir crt key σ σ
    (λ r σ', r = Done (OK tt) → installed dir crt key σ σ') Hd Hw (λ _ H _, H) ltac:(done)) as Hwp.
  destruct (wp_sound _ _ _ _ _ _ _ Hwp Hw Hrun (answered_any _)) as [Hpre Hpost].
  split.
  - intros t1 t2 σ1 Ht Hfs p Hp. destruct (Hpre t1 t2 σ1 Ht Hfs p Hp) as
      [?|(name & data & Hin & -> & ?)]; [by left|right].
    subst new. apply elem_of_cons in Hin as [[= -> ->]|[[= -> ->]|[]%elem_of_nil]%elem_of_cons]; auto.
  - intros Ho σ' Hfs. pose proof (Hpost σ' Hfs Ho) as Hi. unfold installed, agree in Hi.
    split_and!.
    + rewrite Hi by (apply tls_not_temp; by left). by rewrite lookup_insert_eq.
    + rewrite Hi by (apply tls_not_temp; by right).
      rewrite lookup_insert_ne by (by intros ?%filepathJoin_inj). by rewrite lookup_insert_eq.
    + intros p Hp Hc Hk. by rewrite Hi, !lookup_insert_ne.
Qed.

(** ** Generated certificates *)
Section Generated.
Context `{CL : CryptoLaws}.

(** A clock that has reached [t0], and a crypto library that issues what it is
    asked for. *)
Definition pki (t0 : Time) : rely cresp := λ c,
  match c return cresp c → Prop with
  | CTime => λ now, t0 ≤ now
  | CCreateCertificate tmpl _ pub priv => λ r, ∀ der, r = inr der → issues tmpl pub priv der
  | _ => λ _, True
  end.

(** A PEM certificate and PEM key that belong together, the certificate issued
    by the key in [caKeyPEM], for server authentication under [names], and
    valid until at least [until]. *)
Record servingPair (caKeyPEM : bytes) (names ips : list string) (until : Time) (crt key : bytes)
    : Prop := {
  sp_certificate : ∃ der cert, pemDecode crt = Some der ∧ ParseCertificate der = inr cert ∧
    crt_DNSNames cert = names ∧ crt_IPAddresses cert = ips ∧
    crt_ExtKeyUsage cert = [ServerAuth] ∧ crt_IsCA cert = false ∧ until ≤ crt_NotAfter cert ∧
    (∃ block caKey, pemDecode caKeyPEM = Some block ∧ ParseECPrivateKey block = inr caKey ∧
       signedBy der (publicOf caKey)) ∧
    (∃ block priv, pemDecode key = Some block ∧ ParseECPrivateKey block = inr priv ∧
       certKey der (publicOf priv))
}.

(** A PEM certificate with more than [renewBefore] left at [now]. *)
Definition fresh (data : bytes) (now : Time) : Prop :=
  ∃ block cert, pemDecode data = Some block ∧ ParseCertificate block = inr cert ∧
    renewBefore ≤ Sub (crt_NotAfter cert) now.

Lemma truncateSecond_bounds t : t - Second < truncateSecond t ≤ t.
Proof.
  unfold truncateSecond. pose proof (Z.mod_pos_bound t Second). unfold Second in *. lia.
Qed.

Definition validFor : Duration := certValidity - Second.

Section WP.
Context (R : rely cresp) (I : fs → Prop) (t0 : Time).
Context (HR : ∀ c r, R c r → pki t0 c r).

(** A call that leaves the files alone. *)
Ltac wp_quiet := wp_step; cbn in *; subst; split; [done|].

Lemma wp_generateServerCert caCertPEM caKeyPEM service ns extraDNS ips σ
    (Q : ending (bytes * bytes) → fs → Prop) :
  I σ →
  (∀ crt key, servingPair caKeyPEM (serverNames service ns extraDNS) ips (t0 + validFor) crt key →
     Q (Done (OK (crt, key))) σ) →
  (∀ e, Q (Done (Fail e)) σ) →
  wp R I (generateServerCert caCertPEM caKeyPEM service ns extraDNS ips) σ Q.
Proof using HR CL.
  intros HI Hok Hfail. unfold generateServerCert.
  destruct (pemDecode caCertPEM) as [caBlock|]; [|by wp_step]. wp_step. wp_step; [done|].
  destruct (pemDecode caKeyPEM) as [keyBlock|] eqn:Hkb; [|by wp_step].
  wp_step. apply wp_orFail; [done|]. intros caKey Hca.
  do 2 wp_step. cbn in Hs. subst. split; [done|]. wp_step. apply wp_orFail; [done|]. intros priv _.
  do 2 wp_step. cbn in Hs. subst. split; [done|]. wp_step. apply wp_orFail; [done|]. intros serial _.
  do 2 wp_step. cbn in Hs. subst. split; [done|].
  do 2 wp_step. cbn in Hs. subst. split; [done|].
  do 2 wp_step. cbn in Hs. subst. split; [done|]. wp_step. apply wp_orFail; [done|]. intros der ->.
  wp_step. apply wp_orFail; [done|]. intros keyDER Hm. wp_step. apply Hok. constructor.
  pose proof (HR _ _ Hr3 der eq_refl) as ((c & Hp & _ & _ & Hdns & Hip & _ & Hna & _ & Heku & Hisca) & Hck & Hsig).
  exists der, c. rewrite !pemDecode_pemEncode. split_and!; try done.
  - rewrite Hna. cbn. pose proof (HR _ _ Hr2) as Hclk. cbn in Hclk.
    pose proof (truncateSecond_bounds (Add r2 certValidity)). unfold validFor, Add in *. lia.
  - by exists keyBlock, caKey.
  - exists keyDER, priv. split_and!; [done|by apply Parse_MarshalECPrivateKey|done].
Qed.
End WP.

(** ** Renewal *)

Lemma pemExpiring_false data t :
  run (pemExpiring data) t (Done (OK false)) → ∃ now, t = [Ev CTime now] ∧ fresh data now.
Proof.
  unfold pemExpiring. intros Hrun.
  destruct (pemDecode data) as [block|] eqn:Hd; [|by destruct Hrun as [_ ?]].
  destruct (ParseCertificate block) as [|cert] eqn:Hp; [by destruct Hrun as [_ ?]|].
  cbn in Hrun. destruct Hrun as (now & t' & -> & -> & [= Hb]). exists now. split; [done|].
  exists block, cert. split_and!; [done|done|]. lia.
Qed.

Lemma needsCert_false dir rotated t σ σ' :
  run (needsCert dir rotated) t (Done (OK false)) → dir ≠ "" → fsRun σ t σ' →
  rotated = false ∧ σ' = σ ∧
  ∃ data now, σ !! filepathJoin dir "tls.crt" = Some data ∧
    t = [Ev (CReadFile (filepathJoin dir "tls.crt")) (inr data); Ev CTime now] ∧ fresh data now.
Proof.
  unfold needsCert, serverCertNeedsRenewal. intros Hrun Hd Hfs.
  rewrite decide_False in Hrun by done. destruct rotated; [by destruct Hrun as [_ ?]|].
  apply runC_bind_ok in Hrun as (t1 & r & t2 & -> & (r' & -> & [= ->])%run_ask & Hrun).
  destruct r' as [e|data]; [by destruct Hrun as [_ ?]|].
  apply pemExpiring_false in Hrun as (now & -> & Hf).
  apply fsRun_cons_inv in Hfs as (σ1 & [Hl ->] & (σ2 & Hs & Hn)%fsRun_cons_inv).
  apply fsRun_nil_inv in Hn as ->. cbn in Hs. subst. split_and!; [done|done|]. by exists data, now.
Qed.

Lemma only_pemExpiring data : only noFileWrites True True (pemExpiring data).
Proof. unfold pemExpiring. only_tac. Qed.

Lemma only_needsCert dir rotated : only noFileWrites True True (needsCert dir rotated).
Proof. unfold needsCert, serverCertNeedsRenewal, pemExpiring. only_tac. Qed.

Lemma only_generateCA : only noFileWrites True True generateCA.
Proof. unfold generateCA. only_tac. Qed.

Lemma only_ensureCA b : only noFileWrites True True (ensureCA b).
Proof.
  unfold ensureCA, caIsExpiring, pemExpiring, rotateCA, createCA, generateCA. only_tac.
Qed.

Lemma only_waitForConfig polls name : only noFileWrites True True (waitForConfig polls name).
Proof. induction polls as [|polls IH]; cbn [waitForConfig]; [done|]. only_tac. apply IH. Qed.

Lemma only_patchCABundle polls b caBundle : only noFileWrites True True (patchCABundle polls b caBundle).
Proof. unfold patchCABundle. only_tac. apply only_waitForConfig. Qed.

Lemma quiet_files {A} (m : C A) t r σ σ' :
  only noFileWrites True True m → run m t r → fsRun σ t σ' → σ' = σ.
Proof. intros Hm Hrun. apply noFileWrites_fsRun. apply (only_run _ _ _ Hm Hrun). Qed.

(** A new pair on disk. *)
Definition renewed (dir : string) (caKeyPEM : bytes) (names ips : list string) (t0 : Time)
    (σ σ' : fs) : Prop :=
  ∃ crt key, servingPair caKeyPEM names ips (t0 + validFor) crt key ∧ installed dir crt key σ σ'.

(** The certificate on disk was found good for another [renewBefore]. *)
Definition stillGood (dir : string) (t : ctrace) (σ : fs) : Prop :=
  ∃ data now, σ !! filepathJoin dir "tls.crt" = Some data ∧ Ev CTime now ∈ t ∧ fresh data now.

Lemma renew_run t0 msg1 msg2 caCert caKey service ns extraDNS ips dir t pair σ σ' :
  run (wrapC msg1 (generateServerCert caCert caKey service ns extraDNS ips)) t (Done (OK pair)) →
  answered (pki t0) t → fsRun σ t σ' → dir ≠ "" →
  σ' = σ ∧ ∀ t' σ2, run (wrapC msg2 (writeCertsToDisk dir pair.1 pair.2)) t' (Done (OK tt)) →
    fsRun σ t' σ2 → renewed dir caKey (serverNames service ns extraDNS) ips t0 σ σ2.
Proof.
  intros Hgen%run_wrapC_ok Hans Hfs Hd.
  pose proof (wp_generateServerCert (pki t0) (eq σ) t0 (λ _ _ H, H) caCert caKey service ns extraDNS
    ips σ (λ r σ1, σ = σ1 ∧ ∀ crt key, r = Done (OK (crt, key)) →
      servingPair caKey (serverNames service ns extraDNS) ips (t0 + validFor) crt key) eq_refl) as Hwp.
  destruct (proj2 (wp_sound _ _ _ _ _ _ _ (Hwp ltac:(by intros ???; split; [|intros ?? [= <- <-]])
    ltac:(done)) eq_refl Hgen Hans) σ' Hfs) as [<- Hpair].
  split; [done|]. intros t' σ2 Hw%run_wrapC_ok Hfs2. destruct pair as [crt key].
  exists crt, key. split; [by apply Hpair|].
  pose proof (wp_writeCertsToDisk anyAnswer dir crt key σ σ
    (λ r σ', r = Done (OK tt) → installed dir crt key σ σ') Hd (λ p _, or_introl eq_refl)
    (λ _ H _, H) ltac:(done)) as Hwp2.
  by apply (proj2 (wp_sound _ _ _ _ _ _ _ Hwp2 (λ p _, or_introl eq_refl) Hw
    (answered_any _)) σ2 Hfs2).
Qed.

Lemma ensureWebhookCert_ok polls b caCert caKey rotated t t0 σ σ' :
  run (ensureWebhookCert polls b caCert caKey rotated) t (Done (OK tt)) → b_CertDir b ≠ "" →
  answered (pki t0) t → fsRun σ t σ' →
  (rotated = false ∧ σ' = σ ∧ stillGood (b_CertDir b) t σ) ∨
  (renewed (b_CertDir b) caKey (serverNames (b_ServiceName b) (b_Namespace b) []) [] t0 σ σ' ∧
   ∃ config, Ev (CPatchWebhookConfig config (setCABundle caCert config)) None ∈ t).
Proof.
  intros Hrun Hd Hans Hfs. unfold ensureWebhookCert in Hrun.
  apply runC_bind_ok in Hrun as (t1 & needed & t2 & -> & Hn & Hrun).
  apply fsRun_app in Hfs as (σ1 & Hfs1 & Hfs2). apply Forall_app in Hans as [_ Hans].
  pose proof (quiet_files _ _ _ _ _ (only_needsCert _ _) Hn Hfs1) as ->.
  destruct needed.
  2: { left. destruct Hrun as [-> _]. apply fsRun_nil_inv in Hfs2 as ->.
       destruct (needsCert_false _ _ _ _ _ Hn Hd Hfs1) as (-> & _ & data & now & Hl & -> & Hf).
       split_and!; [done|done|]. exists data, now. split_and!; [done|set_solver|done]. }
  right. apply runC_bind_ok in Hrun as (t3 & pair & t4 & -> & Hgen & Hrun).
  apply Forall_app in Hans as [Hans _]. apply fsRun_app in Hfs2 as (σ2 & Hfs2 & Hfs3).
  destruct (renew_run t0 _ "writing webhook certs to disk" _ _ _ _ _ _ _ _ _ _ _ Hgen Hans Hfs2 Hd)
    as [-> Hren].
  apply runC_bind_ok in Hrun as (t5 & [] & t6 & -> & Hw & Hpatch).
  apply fsRun_app in Hfs3 as (σ3 & Hfs3 & Hfs4).
  pose proof (quiet_files _ _ _ _ _ (only_patchCABundle _ _ _) Hpatch Hfs4) as ->.
  split; [by eapply Hren|].
  unfold patchCABundle in Hpatch.
  apply runC_bind_ok in Hpatch as (t7 & config & t8 & -> & _ & Hpatch).
  apply runC_bind_ok in Hpatch as (t9 & r & t10 & -> & (r' & -> & [= ->])%run_ask & Hpatch).
  destruct r' as [e|]; [by destruct Hpatch as [_ ?]|]. exists config. set_solver.
Qed.

Lemma ensureMetricsCert_ok b caCert caKey rotated t t0 σ σ' :
  run (ensureMetricsCert b caCert caKey rotated) t (Done (OK tt)) →
  answered (pki t0) t → fsRun σ t σ' →
  if decide (b_MetricsCertDir b = "") then σ' = σ else
  (rotated = false ∧ σ' = σ ∧ stillGood (b_MetricsCertDir b) t σ) ∨
  renewed (b_MetricsCertDir b) caKey
    (serverNames (b_MetricsServiceName b) (b_Namespace b) [localhostDNS]) ["127.0.0.1"] t0 σ σ'.
Proof.
  intros Hrun Hans Hfs. unfold ensureMetricsCert in Hrun.
  apply runC_bind_ok in Hrun as (t1 & needed & t2 & -> & Hn & Hrun).
  apply fsRun_app in Hfs as (σ1 & Hfs1 & Hfs2). apply Forall_app in Hans as [_ Hans].
  pose proof (quiet_files _ _ _ _ _ (only_needsCert _ _) Hn Hfs1) as ->.
  case_decide as Hd.
  { unfold needsCert in Hn. rewrite decide_True in Hn by done. destruct Hn as [_ [= ->]].
    destruct Hrun as [-> _]. by apply fsRun_nil_inv in Hfs2. }
  destruct needed.
  2: { left. destruct Hrun as [-> _]. apply fsRun_nil_inv in Hfs2 as ->.
       destruct (needsCert_false _ _ _ _ _ Hn Hd Hfs1) as (-> & _ & data & now & Hl & -> & Hf).
       split_and!; [done|done|]. exists data, now. split_and!; [done|set_solver|done]. }
  right. apply runC_bind_ok in Hrun as (t3 & pair & t4 & -> & Hgen & Hw).
  apply Forall_app in Hans as [Hans _]. apply fsRun_app in Hfs2 as (σ2 & Hfs2 & Hfs3).
  destruct (renew_run t0 _ "writing metrics certs to disk" _ _ _ _ _ _ _ _ _ _ _ Hgen Hans Hfs2 Hd)
    as [-> Hren].
  by eapply Hren.
Qed.

(** Files of another directory are not the ones a renewal touches. *)
Lemma installed_elsewhere dir dir' crt key σ σ' name :
  installed dir crt key σ σ' → dir ≠ "" → dir' ≠ "" → dir ≠ dir' →
  name = "tls.crt" ∨ name = "tls.key" →
  σ' !! filepathJoin dir' name = σ !! filepathJoin dir' name.
Proof.
  intros Hi Hd Hd' Hne Hname.
  assert (beforeLastSlash name = None) as Hn by (by destruct Hname as [-> | ->]).
  assert (∀ x, beforeLastSlash x = None → filepathJoin dir x ≠ filepathJoin dir' name) as Hx.
  { intros x Hx Heq. apply Hne. rewrite <-(filepathDir_Join dir x), <-(filepathDir_Join dir' name) by done.
    by rewrite Heq. }
  unfold installed, agree in Hi. rewrite Hi, !lookup_insert_ne; [done|by apply Hx..|].
  intros (x & Hnx & Heq). symmetry in Heq. revert Heq. apply Hx.
  repeat (change (String ?c ?a +:+ ?b) with (String c (a +:+ b))). change ("" +:+ x) with x.
  cbn. by rewrite Hnx.
Qed.

(** What a TLS server reading [dir] finds. *)
Definition serving (dir : string) (caKeyPEM : bytes) (names ips : list string) (t0 : Time) (σ : fs)
    : Prop :=
  ∃ crt key, σ !! filepathJoin dir "tls.crt" = Some crt ∧ σ !! filepathJoin dir "tls.key" = Some key ∧
    servingPair caKeyPEM names ips (t0 + validFor) crt key.

Lemma renewed_serving dir caKeyPEM names ips t0 σ σ' :
  renewed dir caKeyPEM names ips t0 σ σ' → serving dir caKeyPEM names ips t0 σ'.
Proof.
  intros (crt & key & Hsp & Hi). unfold installed, agree in Hi. exists crt, key. split_and!; [..|done].
  - rewrite Hi by (apply tls_not_temp; by left). by rewrite lookup_insert_eq.
  - rewrite Hi by (apply tls_not_temp; by right).
    rewrite lookup_insert_ne by (by intros ?%filepathJoin_inj). by rewrite lookup_insert_eq.
Qed.

(** C15: what a successful certificate check leaves behind.  Over a crypto library
    that issues what it is asked for and a clock past [t0], each enabled server
    either keeps the certificate on its disk, which was found to have at least
    thirty days left and whose CA is not new to this pod, or its disk holds a
    fresh key pair that belongs together, is signed by the CA key [ensureCA]
    returned, names the service under its four DNS names (and localhost for
    metrics) and lasts ninety days from [t0]; with a new webhook certificate
    every webhook of the configuration has been given that CA as its bundle. *)
Theorem EnsureCerts_serves polls b t t0 σ σ' :
  run (EnsureCerts polls b) t (Done (OK tt)) → answered (pki t0) t → fsRun σ t σ' →
  b_MetricsCertDir b ≠ b_CertDir b →
  ∃ caCert caKey rotated t1 t2,
    t = t1 ++ t2 ∧ run (ensureCA b) t1 (Done (OK (caCert, caKey, rotated))) ∧
    (b_CertDir b ≠ "" →
       (rotated = false ∧ stillGood (b_CertDir b) t σ ∧
        σ' !! filepathJoin (b_CertDir b) "tls.crt" = σ !! filepathJoin (b_CertDir b) "tls.crt" ∧
        σ' !! filepathJoin (b_CertDir b) "tls.key" = σ !! filepathJoin (b_CertDir b) "tls.key") ∨
       (serving (b_CertDir b) caKey (serverNames (b_ServiceName b) (b_Namespace b) []) [] t0 σ' ∧
        ∃ config, Ev (CPatchWebhookConfig config (setCABundle caCert config)) None ∈ t2)) ∧
    (b_MetricsCertDir b ≠ "" →
       (rotated = false ∧ stillGood (b_MetricsCertDir b) t σ') ∨
       serving (b_MetricsCertDir b) caKey
         (serverNames (b_MetricsServiceName b) (b_Namespace b) [localhostDNS]) ["127.0.0.1"] t0 σ').
Proof.
  intros Hrun Hans Hfs Hne. unfold EnsureCerts in Hrun.
  apply runC_bind_ok in Hrun as (t1 & [[caCert caKey] rotated] & t2 & -> & Hca & Hrun).
  exists caCert, caKey, rotated, t1, t2. split_and!; [done|done|..];
    apply fsRun_app in Hfs as (σ1 & Hfs1 & Hfs2); apply Forall_app in Hans as [_ Hans];
    pose proof (quiet_files _ _ _ _ _ (only_ensureCA _) Hca Hfs1) as ->;
    apply runC_bind_ok in Hrun as (t3 & [] & t4 & -> & Hw & Hm);
    apply fsRun_app in Hfs2 as (σ2 & Hfs2 & Hfs3); apply Forall_app in Hans as [Hans1 Hans2];
    pose proof (ensureMetricsCert_ok _ _ _ _ _ _ _ _ Hm Hans2 Hfs3) as Hmet.
  - intros Hd. pose proof (ensureWebhookCert_ok _ _ _ _ _ _ _ _ _ Hw Hd Hans1 Hfs2) as Hweb.
    assert (∀ name, name = "tls.crt" ∨ name = "tls.key" →
      σ' !! filepathJoin (b_CertDir b) name = σ2 !! filepathJoin (b_CertDir b) name) as Hkeep.
    { intros name Hname. case_decide as Hmd; [by subst|].
      destruct Hmet as [(_ & -> & _)|(crt & key & _ & Hi)]; [done|].
      by eapply installed_elsewhere. }
    destruct Hweb as [(-> & -> & data & now & Hl & Hin & Hf)|[Hren (config & Hin)]]; [left|right].
    + split_and!; [done| |by apply Hkeep; left|by apply Hkeep; right].
      exists data, now. split_and!; [done|set_solver|done].
    + split; [|exists config; set_solver]. apply renewed_serving in Hren as (crt & key & Hc & Hk & Hsp).
      exists crt, key. rewrite (Hkeep "tls.crt"), (Hkeep "tls.key") by auto. by split_and!.
  - intros Hmd. rewrite decide_False in Hmet by done.
    destruct Hmet as [(-> & -> & data & now & Hl & Hin & Hf)|Hren].
    + left. split; [done|]. exists data, now. split_and!; [done|set_solver|done].
    + right. by apply (renewed_serving _ _ _ _ _ _ _ Hren).
Qed.
End Generated.

(** ** Polling *)
Section Polls.
Context `{CR : CryptoOps}.

(** The waits of an execution that were not cut short by the context. *)
Definition waited (e : event cresp) : bool :=
  match e with Ev (CWait _) None => true | _ => false end.
Definition waits (t : ctrace) : nat := length (List.filter waited t).

Definition noWait : guar ccall := λ c, match c with CWait _ => False | _ => True end.

Lemma waits_app t1 t2 : waits (t1 ++ t2) = (waits t1 + waits t2)%nat.
Proof. unfold waits. by rewrite List.filter_app, length_app. Qed.

Lemma waits_none t : issued noWait t → waits t = 0%nat.
Proof.
  induction 1 as [|e t Hc Ht IH]; [done|]. unfold waits in *. cbn.
  destruct e as [[] r]; cbn in *; try done.
Qed.

(** A program that does not wait and does not run out of polls. *)
Lemma quiet_waits {A} (m : C A) t r : only noWait False True m → run m t r → waits t = 0%nat ∧ r ≠ Polling.
Proof. intros Hm Hrun. destruct (only_run _ _ _ Hm Hrun) as (? & ? & _). by split; [apply waits_none|]. Qed.

(** The waits of a program with [polls] polls: at most that many, and that many
    when it is still polling. *)
Definition polled (polls : nat) {A} (m : C A) : Prop :=
  ∀ t r, run m t r → (waits t ≤ polls)%nat ∧ (r = Polling → waits t = polls).

Lemma polled_quiet polls {A} (m : C A) : only noWait False True m → polled polls m.
Proof. intros Hm t r Hrun. destruct (quiet_waits _ _ _ Hm Hrun) as [-> ?]. split; [lia|done]. Qed.

Lemma polled_bind_l polls {A B} (m : C A) (f : A → C B) :
  only noWait False True m → (∀ a, polled polls (f a)) → polled polls (m ≫= f).
Proof.
  intros Hm Hf t o Hrun. apply runC_bind in Hrun as (t1 & r & t2 & -> & H1 & H2).
  destruct (quiet_waits _ _ _ Hm H1) as [Hw Hp]. rewrite waits_app, Hw.
  destruct r as [[a|e|]|]; [by apply Hf in H2|..|done]; destruct H2 as [-> [= <-]]; by split; [cbn; lia|].
Qed.

Lemma polled_bind_r polls {A B} (m : C A) (f : A → C B) :
  polled polls m → (∀ a, only noWait False True (f a)) → polled polls (m ≫= f).
Proof.
  intros Hm Hf t o Hrun. apply runC_bind in Hrun as (t1 & r & t2 & -> & H1 & H2).
  destruct (Hm _ _ H1) as [Hw Hp]. rewrite waits_app.
  destruct r as [[a|e|]|]; cbn in H2;
    [destruct (quiet_waits _ _ _ (Hf a) H2) as [-> ?]|destruct H2 as [-> [= <-]]..];
    rewrite Nat.add_0_r; split; try done; auto.
Qed.

Lemma polled_waitForConfig polls name : polled polls (waitForConfig polls name).
Proof.
  induction polls as [|polls IH]; cbn [waitForConfig]; intros t o Hrun.
  { by destruct Hrun as [-> ->]. }
  apply runC_bind in Hrun as (t1 & r & t2 & -> & H1 & H2). apply run_ask in H1 as (r' & -> & ->).
  rewrite waits_app. change (waits [Ev (CGetWebhookConfig name) r']) with 0%nat.
  destruct r' as [e|config]; [|destruct H2 as [-> ->]; split; [cbn; lia|done]].
  destruct (negb (IsNotFound e)); [destruct H2 as [-> ->]; split; [cbn; lia|done]|].
  apply runC_bind in H2 as (t3 & r & t4 & -> & H1 & H2). apply run_ask in H1 as (w & -> & ->).
  rewrite waits_app. destruct w as [err|]; [destruct H2 as [-> ->]; split; [cbn; lia|done]|].
  destruct (IH _ _ H2) as [Hle Heq]. change (waits [Ev (CWait (2 * Second)) None]) with 1%nat.
  split; [lia|]. intros Ho. specialize (Heq Ho). lia.
Qed.

(** C22: the certificate check ends when its context does.  With [polls] polls it
    is left polling only after that many full waits of two seconds for the
    webhook configuration; so under a context that allows fewer than [polls]
    waits, as any deadline below [2 * polls] seconds does, every execution
    returns: a value, an error or a panic, whatever the cluster, the disk and the
    crypto library do. *)
Theorem EnsureCerts_returns polls b t r :
  run (EnsureCerts polls b) t r →
  (waits t ≤ polls)%nat ∧ (r = Polling → waits t = polls) ∧ ((waits t < polls)%nat → ∃ o, r = Done o).
Proof.
  intros Hrun.
  assert (polled polls (EnsureCerts polls b)) as Hp.
  { unfold EnsureCerts. apply polled_bind_l.
    { unfold ensureCA, caIsExpiring, pemExpiring, rotateCA, createCA, generateCA. only_tac. }
    intros [[caCert caKey] rotated]. apply polled_bind_r.
    - unfold ensureWebhookCert. apply polled_bind_l.
      { unfold needsCert, serverCertNeedsRenewal, pemExpiring. only_tac. }
      intros []; [|by apply polled_quiet]. apply polled_bind_l.
      { unfold generateServerCert. only_tac. }
      intros pair. apply polled_bind_l.
      { unfold writeCertsToDisk, writeCert, atomicWriteFile, fillTemp. only_tac. }
      intros _. unfold patchCABundle. apply polled_bind_r; [apply polled_waitForConfig|].
      intros config. only_tac.
    - intros _. unfold ensureMetricsCert, needsCert, serverCertNeedsRenewal, pemExpiring,
        generateServerCert, writeCertsToDisk, writeCert, atomicWriteFile, fillTemp. only_tac. }
  destruct (Hp _ _ Hrun) as [Hle Heq]. split_and!; [done|done|]. intros Hlt.
  destruct r as [o|]; [by exists o|]. specialize (Heq eq_refl). lia.
Qed.
End Polls.

(** ** Checks that find nothing to do *)
Section Settled.
Context `{CR : CryptoOps}.

(** Reads of the API server, the disk and the clock. *)
Definition certReads : guar ccall := λ c,
  match c with CGetSecret _ _ | CReadFile _ | CTime => True | _ => False end.

(** The CA in the Secret and the certificates on disk all have more than
    [renewBefore] left at [t1], and the clock has not passed [t1]. *)
Definition settled (t1 : Time) : rely cresp := λ c,
  match c return cresp c → Prop with
  | CGetSecret _ _ => λ r, ∃ secret, r = inr secret ∧ fresh (mapGet (sec_Data secret) caCertField) t1
  | CReadFile _ => λ r, ∃ data, r = inr data ∧ fresh data t1
  | CTime => λ now, now ≤ t1
  | _ => λ _, True
  end.

Lemma fresh_earlier data t1 now : fresh data t1 → now ≤ t1 → fresh data now.
Proof.
  intros (block & cert & Hd & Hp & Hle) Hnow. exists block, cert. split_and!; [done|done|].
  unfold Sub in *. lia.
Qed.

Lemma rg_pemExpiring_fresh t1 data :
  fresh data t1 → rg (settled t1) certReads (pemExpiring data) (λ r, r = Done (OK false)).
Proof.
  intros Hf. pose proof Hf as (block & cert & Hd & Hp & _). unfold pemExpiring. rewrite Hd, Hp.
  split; [done|]. intros now Hnow. cbn in *.
  destruct (fresh_earlier _ _ _ Hf Hnow) as (block' & cert' & Hd' & Hp' & Hle). simplify_eq.
  assert (cert' = cert) as -> by congruence. do 2 f_equal. by apply Z.ltb_ge.
Qed.

Lemma rg_bind_ok {A B} R G (m : C A) (a : A) (f : A → C B) Q :
  rg R G m (λ r, r = Done (OK a)) → rg R G (f a) Q → rg R G (m ≫= f) Q.
Proof. intros Hm Hf. apply rg_bind. eapply rg_post; [exact Hm|]. by intros r ->. Qed.

Lemma rg_needsCert_fresh t1 dir :
  rg (settled t1) certReads (needsCert dir false) (λ r, r = Done (OK false)).
Proof.
  unfold needsCert. case_decide; [done|]. unfold serverCertNeedsRenewal.
  split; [done|]. intros r (data & -> & Hf). by apply rg_pemExpiring_fresh.
Qed.

(** C29: checking certificates is idempotent.  While the CA of the Secret and the
    certificates on disk keep more than thirty days, [EnsureCerts] succeeds and
    only reads: no Secret, webhook configuration or file is written. *)
Theorem EnsureCerts_idempotent polls b t1 t r :
  run (EnsureCerts polls b) t r → answered (settled t1) t →
  r = Done (OK tt) ∧ issued certReads t.
Proof.
  intros Hrun Hans.
  assert (rg (settled t1) certReads (EnsureCerts polls b) (λ r, r = Done (OK tt))) as Hrg.
  { unfold EnsureCerts. split; [done|]. intros g (secret & -> & Hf). cbn [bindEnding pbind].
    apply rg_bind, rg_bind. unfold caIsExpiring.
    eapply rg_post; [by apply rg_pemExpiring_fresh|]. intros r0 ->. cbn.
    eapply rg_bind_ok.
    - unfold ensureWebhookCert. eapply rg_bind_ok; [apply rg_needsCert_fresh|]. cbn. reflexivity.
    - unfold ensureMetricsCert. eapply rg_bind_ok; [apply rg_needsCert_fresh|]. cbn. reflexivity. }
  by destruct (rg_sound _ _ _ _ _ _ Hrg Hrun Hans).
Qed.
End Settled.

(** ** The renewal loop *)
Section Loop.
Context `{CR : CryptoOps}.

Lemma no_panic {A} (m : C A) t : only anyCall True False m → ¬ run m t (Done Panic).
Proof. intros Hm Hrun. by destruct (only_run _ _ _ Hm Hrun) as (_ & _ & H). Qed.

(** A panic of a sequence whose continuation cannot panic is one of its head. *)
Lemma panic_bind {A B} (m : C A) (f : A → C B) t :
  (∀ a, only anyCall True False (f a)) → run (m ≫= f) t (Done Panic) →
  ∃ t1, run m t1 (Done Panic) ∧ t1 ⊆ t.
Proof.
  intros Hf Hrun. apply runC_bind in Hrun as (t1 & [[a|e|]|] & t2 & -> & H1 & H2).
  - by destruct (no_panic _ _ (Hf a) H2).
  - by destruct H2 as [_ [=]].
  - exists t1. split; [done|set_solver].
  - by destruct H2 as [_ [=]].
Qed.

Lemma only_waitForConfig_panic polls name : only anyCall True False (waitForConfig polls name).
Proof. induction polls as [|polls IH]; cbn [waitForConfig]; [done|]. only_tac. apply IH. Qed.

Lemma only_rotateCA secret data :
  sec_Data secret = Some data → only anyCall True False (rotateCA secret).
Proof.
  intros Hd. unfold rotateCA. apply only_bind; [unfold generateCA; only_tac|]. intros ca. rewrite Hd.
  change (mapSet (Some data) caCertField ca.1 ≫= _)
    with (Some (Some (<[caKeyField := ca.2]> (<[caCertField := ca.1]> data)))).
  cbv beta iota. only_tac.
Qed.

Lemma EnsureCerts_panic polls b t :
  run (EnsureCerts polls b) t (Done Panic) →
  ∃ secret, Ev (CGetSecret (b_Namespace b) (b_SecretName b)) (inr secret) ∈ t ∧ sec_Data secret = None.
Proof.
  unfold EnsureCerts. intros Hrun. apply panic_bind in Hrun as (t1 & Hrun & Hsub).
  2: { intros [[caCert caKey] rotated].
       unfold ensureWebhookCert, ensureMetricsCert, needsCert, serverCertNeedsRenewal, pemExpiring,
         generateServerCert, writeCertsToDisk, writeCert, atomicWriteFile, fillTemp, patchCABundle.
       only_tac. apply only_waitForConfig_panic. }
  unfold ensureCA in Hrun. apply runC_bind in Hrun as (t2 & r & t3 & -> & H1 & Hrun).
  apply run_ask in H1 as (g & -> & ->). destruct g as [e|secret].
  { exfalso. revert Hrun. apply no_panic. unfold createCA, generateCA. only_tac. }
  exists secret. split; [set_solver|].
  apply runC_bind in Hrun as (t4 & r & t5 & -> & H1 & Hrun).
  destruct r as [[expiring|e|]|]; [|by destruct Hrun as [_ [=]]| |by destruct Hrun as [_ [=]]].
  2: { exfalso. revert H1. apply no_panic. unfold caIsExpiring, pemExpiring. only_tac. }
  destruct expiring; cbn [negb] in Hrun; [|by destruct Hrun as [_ ?]].
  apply runC_bind in Hrun as (t6 & r & t7 & -> & H2 & Hrun).
  destruct r as [[again|e|]|]; [|by destruct Hrun as [_ [=]]| |by destruct Hrun as [_ [=]]].
  2: { exfalso. revert H2. apply no_panic. unfold caIsExpiring, pemExpiring. only_tac. }
  destruct again; [|by destruct Hrun as [_ ?]].
  destruct (sec_Data secret) as [data|] eqn:Hd; [|done].
  by destruct (no_panic _ _ (only_rotateCA _ _ Hd) Hrun).
Qed.

(** C32: the renewal loop survives failed renewals.  However many ticks pass, the
    error of a certificate check never ends [Start]: it returns, without an
    error, only right after its context is done.  It panics only if a check does,
    which takes a CA Secret without data. *)
Theorem Start_survives ticks polls b t r :
  run (Start ticks polls b) t r →
  (∀ e, r ≠ Done (Fail e)) ∧
  (r = Done (OK tt) → ∃ t' err, t = t' ++ [Ev (CTick renewalCheckInterval) (Some err)]) ∧
  (r = Done Panic → ∃ secret,
     Ev (CGetSecret (b_Namespace b) (b_SecretName b)) (inr secret) ∈ t ∧ sec_Data secret = None).
Proof.
  revert t. induction ticks as [|ticks IH]; intros t Hrun; cbn [Start] in Hrun.
  { by destruct Hrun as [_ ->]. }
  apply runC_bind in Hrun as (t1 & w & t2 & -> & H1 & Hrun). apply run_ask in H1 as (w' & -> & ->).
  destruct w' as [err|]; [destruct Hrun as [-> ->]; split_and!; [done| |done]; by exists [], err|].
  apply run_bind in Hrun as (t3 & r' & t4 & -> & H1 & Hrun).
  destruct r' as [[a|e|]|]; [| | |by destruct Hrun as [_ ->]].
  3: { destruct Hrun as [-> ->]. split_and!; [done|done|]. intros _.
       apply EnsureCerts_panic in H1 as (secret & Hin & Hs). exists secret. set_solver. }
  all: apply IH in Hrun as (Hf & Ho & Hp); split_and!; [done| |];
    [intros ->; destruct (Ho eq_refl) as (t' & err & ->);
       by exists (Ev (CTick renewalCheckInterval) None :: t3 ++ t'), err; cbn; rewrite app_assoc
    |intros ->; destruct (Hp eq_refl) as (secret & Hin & Hs); exists secret; set_solver].
Qed.
End Loop.
