(* ===== verification/CertHA.v ===== *)
(** * Several replicas bootstrapping at once (certbootstrap.go, design for HA)

    Each pod of the operator runs [EnsureCerts] against the same Secret.
    [hstep] interleaves the pods call by call against the API server's state;
    the theorem says that, starting without a Secret and within the life of a
    CA, all pods end up on one CA. *)
From S2P Require Import Prelude GoTime Prog Threads Kube CertEnv CertBootstrap.

Section HA.
Context `{CR : CryptoOps} {CL : CryptoLaws}.

(** The Secret a merge patch makes: the two fields as sent. *)
Definition patched (modified s' : Secret) : Prop :=
  mapGet (sec_Data s') caCertField = mapGet (sec_Data modified) caCertField ∧
  mapGet (sec_Data s') caKeyField = mapGet (sec_Data modified) caKeyField.

(** The API server, as far as the Secret goes.  A request that is answered with
    an error other than the two the code tells apart may still have been carried
    out (a timeout). *)
Definition serve (σ : option Secret) (e : event cresp) (σ' : option Secret) : Prop :=
  match e with
  | Ev (CGetSecret _ _) (inr s) => σ = Some s ∧ σ' = σ
  | Ev (CGetSecret _ _) (inl e) => σ' = σ ∧ (IsNotFound e = true → σ = None)
  | Ev (CCreateSecret s) None => σ = None ∧ σ' = Some s
  | Ev (CCreateSecret s) (Some e) =>
      if IsAlreadyExists e then is_Some σ ∧ σ' = σ else σ' = σ ∨ (σ = None ∧ σ' = Some s)
  | Ev (CPatchSecret _ m) None => is_Some σ ∧ ∃ s', σ' = Some s' ∧ patched m s'
  | Ev (CPatchSecret _ m) (Some _) => σ' = σ ∨ ∃ s', σ' = Some s' ∧ patched m s'
  | _ => σ' = σ
  end.

(** ** The cluster *)

Abbreviation pod := (cprog (ending unit)).

Inductive hstep (R : rely cresp) : option Secret * list pod → event cresp → option Secret * list pod → Prop :=
| hstep_call σ pods i c k (r : cresp c) σ' :
    pods !! i = Some (Vis c k) → R c r → serve σ (Ev c r) σ' →
    hstep R (σ, pods) (Ev c r) (σ', <[i := k r]> pods).

Inductive hrun (R : rely cresp) : option Secret * list pod → ctrace → option Secret * list pod → Prop :=
| hrun_nil w : hrun R w [] w
| hrun_snoc w0 t w e w' : hrun R w0 t w → hstep R w e w' → hrun R w0 (t ++ [e]) w'.

(** ** The window of one CA *)
Context (t0 t1 : Time) (Hwindow : t1 - t0 ≤ validFor - renewBefore).

(** Every clock reading is between [t0] and [t1]. *)
Definition window : rely cresp := λ c,
  match c return cresp c → Prop with
  | CTime => λ now, t0 ≤ now ≤ t1
  | CCreateCertificate tmpl _ pub priv => λ r, ∀ der, r = inr der → issues tmpl pub priv der
  | _ => λ _, True
  end.

Definition youngCA (s : Secret) : Prop :=
  ∃ block cert, pemDecode (mapGet (sec_Data s) caCertField) = Some block ∧
    ParseCertificate block = inr cert ∧ t0 + validFor ≤ crt_NotAfter cert.

(** The Secret is created once, with a young CA, and then stays. *)
Definition evolves (σ σ' : option Secret) : Prop :=
  σ' = σ ∨ (σ = None ∧ ∃ s, σ' = Some s ∧ youngCA s).

Definition sane (σ : option Secret) : Prop := ∀ s, σ = Some s → youngCA s.

(** What a pod may ask for when the Secret is [σ]. *)
Definition oneCA (σ : option Secret) (c : ccall) : Prop :=
  match c with
  | CPatchWebhookConfig config m =>
      ∃ s, σ = Some s ∧ m = setCABundle (mapGet (sec_Data s) caCertField) config
  | CCreateCertificate tmpl _ _ priv =>
      crt_IsCA tmpl = false → ∃ s block, σ = Some s ∧
        pemDecode (mapGet (sec_Data s) caKeyField) = Some block ∧ ParseECPrivateKey block = inr priv
  | CPatchSecret _ _ => False
  | _ => True
  end.

Lemma evolves_refl σ : evolves σ σ.
Proof. by left. Qed.

Lemma evolves_trans σ1 σ2 σ3 : evolves σ1 σ2 → evolves σ2 σ3 → evolves σ1 σ3.
Proof.
  intros [-> | (-> & s & -> & Hs)] H2; [done|].
  destruct H2 as [-> | (? & _)]; [right; eauto|done].
Qed.

Lemma evolves_Some s σ : evolves (Some s) σ → σ = Some s.
Proof. by intros [-> | [? _]]. Qed.

Lemma sane_evolves σ σ' : sane σ → evolves σ σ' → sane σ'.
Proof. intros H [-> | [_ (s & -> & Hs)]]; [done|]. by intros s' [= <-]. Qed.

Lemma oneCA_evolves σ σ' c : evolves σ σ' → oneCA σ c → oneCA σ' c.
Proof.
  intros He. destruct c; cbn; try done.
  - intros (s & -> & ->). rewrite (evolves_Some _ _ He). eauto.
  - intros H Hca. destruct (H Hca) as (s & block & -> & ? & ?). rewrite (evolves_Some _ _ He). eauto.
Qed.

(** ** A logic for one pod among others

    [hp p σ Q]: whatever the other pods do to the Secret in between (it
    [evolves]), the pod's calls are in [oneCA], the Secret [evolves] under them,
    and [Q] holds at the end. *)
Definition answers (σ : option Secret) (e : event cresp) (σ' : option Secret) : Prop :=
  window (ev_act e) (ev_res e) ∧ serve σ e σ'.

Definition allows (σ : option Secret) (e : event cresp) (σ' : option Secret) : Prop :=
  oneCA σ (ev_act e) ∧ evolves σ σ'.

Abbreviation hp := (tp evolves sane answers allows).

#[local] Instance evolves_preorder : PreOrder evolves.
Proof. split; [exact evolves_refl|exact evolves_trans]. Qed.

(** One call of a pod. *)
Lemma hp_call {A} c (k : cresp c → cprog A) σ (Q : A → option Secret → Prop) :
  (∀ σ1, evolves σ σ1 → sane σ1 → oneCA σ1 c ∧
     ∀ r σ2, window c r → serve σ1 (Ev c r) σ2 → evolves σ1 σ2 ∧ hp (k r) σ2 Q) →
  hp (Vis c k) σ Q.
Proof.
  intros H σ1 He Hs r σ2 [Hw Hsv]. destruct (H σ1 He Hs) as [Hc Hk].
  by destruct (Hk r σ2 Hw Hsv).
Qed.

Lemma hp_bind {A B} (m : C A) (f : A → C B) σ (Q : ending B → option Secret → Prop) :
  hp m σ (λ r σ', match r with
    | Done (OK a) => hp (f a) σ' Q
    | Done (Fail e) => Q (Done (Fail e)) σ'
    | Done Panic => Q (Done Panic) σ'
    | Polling => Q Polling σ'
    end) → hp (m ≫= f) σ Q.
Proof. intros H. apply tp_pbind. eapply tp_mono; [exact H|]. by intros [[a|e|]|] σ' Hr. Qed.

(** Calls that leave the Secret alone and are allowed at [σ]. *)
Definition sharing (σ : option Secret) : guar ccall := λ c,
  match c with CCreateSecret _ | CPatchSecret _ _ => False | _ => oneCA σ c end.

Lemma sharing_oneCA σ σ' c : evolves σ σ' → sharing σ c → oneCA σ' c.
Proof. intros He Hc. eapply oneCA_evolves; [exact He|]. by destruct c. Qed.

Lemma sharing_serve c (r : cresp c) σ0 σ σ' : sharing σ0 c → serve σ (Ev c r) σ' → σ' = σ.
Proof. destruct c; try done. by destruct r as [e|s]; intros _ [? ?]. Qed.

Lemma hp_sharing {A} (p : cprog A) σ (Q : A → option Secret → Prop) :
  rg window (sharing σ) p (λ a, ∀ σ', evolves σ σ' → Q a σ') → hp p σ Q.
Proof.
  intros H. eapply tp_mono.
  - apply (tp_rg _ _ _ _ window (sharing σ) (evolves σ)); [|..|exact H|apply evolves_refl].
    + intros σ1 σ2 H1 H2. by etrans.
    + intros c r σ1 σ2 H1 _ Hc [Hw Hsv]. rewrite (sharing_serve _ _ _ _ _ Hc Hsv).
      split_and!; [done| |done].
      split; [exact (sharing_oneCA _ _ _ H1 Hc)|apply evolves_refl].
  - intros a σ' [He HQ]. by apply HQ.
Qed.

(** A sequence whose first part leaves the Secret alone. *)
Lemma hp_sharing_bind {A B} (m : C A) (f : A → C B) σ (Q : ending B → option Secret → Prop)
    (P : A → Prop) :
  rg window (sharing σ) m (λ r, ∀ a, r = Done (OK a) → P a) →
  (∀ r σ', (∀ b, r ≠ Done (OK b)) → Q r σ') →
  (∀ a σ', P a → evolves σ σ' → hp (f a) σ' Q) →
  hp (m ≫= f) σ Q.
Proof.
  intros Hm Herr Hf. apply hp_bind, hp_sharing. eapply rg_post; [exact Hm|].
  intros [[a|e|]|] Hr σ' He; [by apply Hf; [apply Hr|]|by apply Herr..].
Qed.

(** ** The parts of the bootstrapper *)

(** From [oneCA] at one Secret, whatever the answers. *)
Lemma only_rg {A} σ (m : C A) (P : A → Prop) :
  only (sharing σ) True True m → (∀ a, P a) →
  rg window (sharing σ) m (λ r, ∀ a, r = Done (OK a) → P a).
Proof.
  intros H HP. eapply (rg_mono anyAnswer window); [exact H|done|done|]. by intros r _ a _.
Qed.

Lemma young_expiring s σ :
  youngCA s → rg window (sharing σ) (caIsExpiring s) (λ r, r = Done (OK false)).
Proof.
  intros (block & cert & Hd & Hp & Hle). unfold caIsExpiring, pemExpiring. rewrite Hd, Hp.
  split; [done|]. intros now Hnow. cbn in *. do 2 f_equal. apply Z.ltb_ge. unfold Sub.
  assert (minDuration ≤ renewBefore ≤ maxDuration) by (by split; vm_compute). lia.
Qed.

(** A generated CA is young. *)
Definition youngPair (ca : bytes * bytes) : Prop :=
  ∃ block cert, pemDecode ca.1 = Some block ∧ ParseCertificate block = inr cert ∧
    t0 + validFor ≤ crt_NotAfter cert.

Lemma generateCA_young σ msg :
  rg window (sharing σ) (wrapC msg generateCA) (λ r, ∀ ca, r = Done (OK ca) → youngPair ca).
Proof.
  apply rg_bind, (rg_post _ _ _ (λ r, ∀ ca, r = Done (OK ca) → youngPair ca));
    [|by intros [[a|e|]|] H; cbn in *].
  unfold generateCA. split; [done|]. intros [e|priv] _; [done|]. split; [done|].
  intros [e|serial] _; [done|]. split; [done|]. intros now1 Hn1. split; [done|]. intros now2 Hn2.
  split; [by intros [=]|]. intros [e|der] Hder; [done|]. cbn -[caTemplate] in *.
  destruct (MarshalECPrivateKey priv) as [e|keyDER]; [done|]. intros ca [= <-].
  destruct (Hder der eq_refl) as ((c & Hp & _ & _ & _ & _ & _ & Hna & _) & _).
  exists der, c. cbn [fst]. rewrite pemDecode_pemEncode. split_and!; [done|done|].
  rewrite Hna. cbn. pose proof (truncateSecond_bounds (Add now2 certValidity)).
  unfold validFor, Add in *. lia.
Qed.

(** [ensureCA] ends with the pair of the Secret. *)
Definition ofSecret (ca : bytes * bytes * bool) (σ : option Secret) : Prop :=
  ∃ s, σ = Some s ∧ ca.1.1 = mapGet (sec_Data s) caCertField ∧ ca.1.2 = mapGet (sec_Data s) caKeyField.

Lemma ofSecret_evolves ca σ σ' : evolves σ σ' → ofSecret ca σ → ofSecret ca σ'.
Proof. intros He (s & -> & H). exists s. by rewrite (evolves_Some _ _ He). Qed.

Definition sharesSecret (r : ending (bytes * bytes * bool)) (σ : option Secret) : Prop :=
  ∀ ca, r = Done (OK ca) → ofSecret ca σ.

Lemma sharesSecret_ret s rotated σ :
  evolves (Some s) σ →
  sharesSecret (Done (OK (mapGet (sec_Data s) caCertField, mapGet (sec_Data s) caKeyField, rotated))) σ.
Proof. intros He ca [= <-]. exists s. by rewrite (evolves_Some _ _ He). Qed.

Lemma mapGet_new ca :
  let data := Some {[ caCertField := ca.1; caKeyField := ca.2 ]} in
  mapGet data caCertField = ca.1 ∧ mapGet data caKeyField = ca.2.
Proof.
  unfold mapGet; cbn. rewrite lookup_insert_eq. split; [done|].
  rewrite lookup_insert_ne by done. by rewrite lookup_insert_eq.
Qed.

Lemma createCA_shared b σ : hp (createCA b) σ sharesSecret.
Proof.
  unfold createCA. eapply hp_sharing_bind; [apply generateCA_young|by intros r σ' Hr ca ->; destruct (Hr ca)|].
  intros ca σ1 (block & cert & Hd & Hp & Hle) _. set (sec := MkSecret _ _ _).
  assert (mapGet (sec_Data sec) caCertField = ca.1 ∧ mapGet (sec_Data sec) caKeyField = ca.2)
    as [Hc Hk] by apply mapGet_new.
  assert (youngCA sec) as Hyoung by (exists block, cert; by rewrite Hc).
  apply hp_call. intros σ2 He Hs. split; [done|]. intros [err|] σ3 _ Hsv; cbn [serve] in Hsv.
  - cbn -[sec tp]. destruct (IsAlreadyExists err) eqn:Hae; cbn [negb].
    + destruct Hsv as [_ ->]. split; [apply evolves_refl|]. apply hp_call. intros σ4 He4 Hs4.
      split; [done|]. intros [e|s] σ5 _ Hg; cbn [serve] in Hg.
      * destruct Hg as [-> _]. by split; [apply evolves_refl|].
      * destruct Hg as [-> ->]. split; [apply evolves_refl|]. by apply sharesSecret_ret, evolves_refl.
    + split; [|done]. destruct Hsv as [-> | [-> ->]]; [apply evolves_refl|].
      right. split; [done|]. by exists sec.
  - destruct Hsv as [-> ->]. split; [right; split; [done|by exists sec]|].
    cbn -[sec]. rewrite <-Hc, <-Hk. by apply sharesSecret_ret, evolves_refl.
Qed.

Lemma ensureCA_shared b σ : hp (ensureCA b) σ sharesSecret.
Proof.
  unfold ensureCA. apply hp_call. intros σ1 He Hs. split; [done|].
  intros [e|s] σ2 _ Hg; cbn [serve] in Hg; destruct Hg as [Hg Hg']; subst; (split; [apply evolves_refl|]).
  - cbn -[tp]. destruct (IsNotFound e); [apply createCA_shared|done].
  - cbn -[tp]. apply hp_bind, hp_sharing. eapply rg_post; [by apply young_expiring, Hs|].
    intros r -> σ' ->%evolves_Some. cbn. by apply sharesSecret_ret, evolves_refl.
Qed.

(** What follows [ensureCA] stays within the Secret. *)
Lemma only_serverCert s caCert extraDNS ips service ns :
  only (sharing (Some s)) True True
    (generateServerCert caCert (mapGet (sec_Data s) caKeyField) service ns extraDNS ips).
Proof.
  unfold generateServerCert. destruct (pemDecode caCert); [|done]. only_step; [only_step|].
  destruct (pemDecode (mapGet (sec_Data s) caKeyField)) as [block|] eqn:Hd; [|done].
  apply only_orFail_bind. intros caKey Hp. repeat only_step; try done. intros _. by exists s, block.
Qed.

Lemma only_patch s polls b :
  only (sharing (Some s)) True True (patchCABundle polls b (mapGet (sec_Data s) caCertField)).
Proof.
  unfold patchCABundle. only_step; [|repeat only_step; by exists s].
  induction polls as [|polls IH]; cbn [waitForConfig]; [done|]. repeat only_step; try done.
Qed.

Lemma EnsureCerts_shared polls b σ : hp (EnsureCerts polls b) σ (λ _ _, True).
Proof.
  unfold EnsureCerts. apply hp_bind. eapply tp_mono; [apply ensureCA_shared|].
  intros [[[[caCert caKey] rotated]|e|]|] σ' Hca; try done.
  destruct (Hca _ eq_refl) as (s & -> & Hc & Hk). cbn [fst snd] in Hc, Hk. subst.
  cut (only (sharing (Some s)) True True
    (ensureWebhookCert polls b (mapGet (sec_Data s) caCertField) (mapGet (sec_Data s) caKeyField)
       rotated;; ensureMetricsCert b (mapGet (sec_Data s) caCertField)
       (mapGet (sec_Data s) caKeyField) rotated)).
  { intros H. apply hp_sharing. by eapply rg_mono. }
  unfold ensureWebhookCert, ensureMetricsCert, needsCert, serverCertNeedsRenewal, pemExpiring,
    writeCertsToDisk, writeCert, atomicWriteFile, fillTemp.
  repeat first [apply only_serverCert|apply only_patch|only_step]; done.
Qed.

(** ** The interleaved run *)

(** Every pod keeps to the logic at the Secret there is. *)
Definition inv (w : option Secret * list pod) : Prop :=
  sane w.1 ∧ ∀ i p, w.2 !! i = Some p → hp p w.1 (λ _ _, True).

Lemma hstep_inv w e w' :
  inv w → hstep window w e w' → inv w' ∧ evolves w.1 w'.1 ∧ oneCA w.1 (ev_act e).
Proof.
  intros [Hs Hp] Hstep. destruct Hstep as [σ pods i c k r σ' Hi Hr Hsv]. cbn [fst snd] in *.
  destruct (tp_call _ _ _ _ _ _ _ r σ' _ (Hp _ _ Hi) Hs) as [[Hc He] Hk']; [done|].
  split_and!; [|done|done]. split; [by eapply sane_evolves|]. intros j p Hj. cbn [fst snd] in *.
  destruct (decide (i = j)) as [<-|Hne].
  - rewrite list_lookup_insert_eq in Hj by (by eapply lookup_lt_Some). by injection Hj as <-.
  - rewrite list_lookup_insert_ne in Hj by done. eapply (tp_evolves evolves); [exact _|done|exact He|by eapply Hp].
Qed.

Lemma hrun_inv w t w' :
  inv w → hrun window w t w' → inv w' ∧ evolves w.1 w'.1 ∧ issued (oneCA w'.1) t.
Proof.
  intros Hw. induction 1 as [w|w t w1 e w2 Hrun IH Hstep].
  { split_and!; [done|apply evolves_refl|constructor]. }
  destruct (IH Hw) as (Hinv & He & Ht). destruct (hstep_inv _ _ _ Hinv Hstep) as (Hinv' & He' & Hc).
  split_and!; [done|by eapply evolves_trans|]. apply Forall_app; split.
  - eapply Forall_impl; [|exact Ht]. intros e' Hx. by eapply oneCA_evolves.
  - constructor; [by eapply oneCA_evolves|constructor].
Qed.

Lemma hstep_created w e w' s :
  hstep window w e w' → e = Ev (CCreateSecret s) None → w.1 = None ∧ w'.1 = Some s.
Proof. intros [σ pods i c k r σ' _ _ Hsv] Heq. rewrite Heq in Hsv. exact Hsv. Qed.

(** The one creation that succeeds makes the Secret there is at the end. *)
Lemma hrun_created w t w' s :
  inv w → hrun window w t w' → Ev (CCreateSecret s) None ∈ t → w.1 = None ∧ w'.1 = Some s.
Proof.
  intros Hw. induction 1 as [w|w t w1 e w2 Hrun IH Hstep]; [by intros []%elem_of_nil|].
  destruct (hrun_inv _ _ _ Hw Hrun) as (Hinv & He & _).
  destruct (hstep_inv _ _ _ Hinv Hstep) as (_ & He' & _).
  intros [Hin|Hin%list_elem_of_singleton]%elem_of_app.
  - destruct (IH Hw Hin) as [Hn Hs]. split; [done|]. rewrite Hs in He'. by apply evolves_Some in He'.
  - destruct (hstep_created _ _ _ s Hstep (eq_sym Hin)) as [Hn Hs]. split; [|done].
    destruct He as [He|(Hn' & _)]; congruence.
Qed.
End HA.

(** C16: however many replicas start at once, they share one CA.  Pods that each
    run [EnsureCerts] are interleaved call by call against the API server,
    starting with no CA Secret or one whose CA lasts the window, within a window
    in which no CA expires.  Then a Secret there was at the start stays, one that
    is created is created where there was none and is the one there is at the end,
    and none is ever patched; every CA bundle a pod gives the webhook configuration
    is the certificate of that one Secret; and every server certificate that a pod
    issues in this run is signed with the key of that Secret.  (A certificate that a
    pod found on its disk and kept is not covered: it may be of an earlier CA.) *)
Theorem EnsureCerts_HA `{CR : CryptoOps} {CL : CryptoLaws} b t0 t1 σ0 starts t σ pods :
  t1 - t0 ≤ validFor - renewBefore →
  (∀ s, σ0 = Some s → youngCA t0 s) →
  hrun (window t0 t1) (σ0, map (λ polls, EnsureCerts polls b) starts) t (σ, pods) →
  (∀ s, σ0 = Some s → σ = Some s) ∧
  (∀ s, Ev (CCreateSecret s) None ∈ t → σ0 = None ∧ σ = Some s) ∧
  (∀ original modified r, Ev (CPatchSecret original modified) r ∉ t) ∧
  (∀ config modified r, Ev (CPatchWebhookConfig config modified) r ∈ t →
     ∃ s, σ = Some s ∧ modified = setCABundle (mapGet (sec_Data s) caCertField) config) ∧
  (∀ tmpl parent pub priv r, Ev (CCreateCertificate tmpl parent pub priv) r ∈ t →
     crt_IsCA tmpl = false →
     ∃ s block, σ = Some s ∧ pemDecode (mapGet (sec_Data s) caKeyField) = Some block ∧
       ParseECPrivateKey block = inr priv).
Proof.
  intros Hw Hy Hrun.
  assert (inv t0 t1 (σ0, map (λ polls, EnsureCerts polls b) starts)) as Hinv.
  { split; [done|]. cbn. intros i p Hi. apply list_lookup_fmap_Some in Hi as (polls & -> & _).
    by apply EnsureCerts_shared. }
  destruct (hrun_inv t0 t1 _ _ _ Hinv Hrun) as (_ & He & Ht). cbn [fst] in *.
  unfold issued in Ht. rewrite list.Forall_forall in Ht. split_and!.
  - intros s ->. by apply evolves_Some in He.
  - intros s Hs. exact (hrun_created t0 t1 _ _ _ s Hinv Hrun Hs).
  - intros o m r Hin. apply (Ht _ Hin).
  - intros config m r Hin. apply (Ht _ Hin).
  - intros tmpl parent pub priv r Hin. apply (Ht _ Hin).
Qed.
