(* ===== verification/CertExample.v ===== *)
(** * Certificate bootstrap on a small cluster

    An executable crypto library and cluster for the certificate bootstrapper:
    concrete inputs for the theorems of CertBootstrap and CertHA, and executions
    that show where the bootstrapper does not get back to a good state. *)
From Stdlib Require Import Ascii.
From S2P Require Import Prelude GoTime Prog Kube CertEnv CertBootstrap CertHA.

(** ** A crypto library

    Keys are letters, a certificate is written as its kind, the letter of its
    key and the letter of its issuer. *)

#[export] Instance KeyUsage_eq_dec : EqDecision KeyUsage.
Proof. solve_decision. Defined.
#[export] Instance ExtKeyUsage_eq_dec : EqDecision ExtKeyUsage.
Proof. solve_decision. Defined.
#[export] Instance Certificate_eq_dec : EqDecision Certificate.
Proof. solve_decision. Defined.

Definition toyNow : Time := 2000 * Hour.

(** The certificates that can be written: a CA and server certificates made at
    [toyNow], and a CA made long before. *)
Definition toyKinds : list (Ascii.ascii * Certificate) :=
  [("c"%char, caTemplate 7 toyNow toyNow);
   ("s"%char, serverTemplate 7 (serverNames "svc" "ns" []) [] toyNow toyNow);
   ("m"%char, serverTemplate 7 (serverNames "met" "ns" [localhostDNS]) ["127.0.0.1"] toyNow toyNow);
   ("e"%char, caTemplate 7 0 0)].

Definition toyParse (der : bytes) : string + Certificate :=
  match der with
  | String kind (String _ (String _ EmptyString)) =>
      match List.find (λ e, bool_decide (e.1 = kind)) toyKinds with
      | Some e => inr e.2
      | None => inl "x509: malformed certificate"
      end
  | _ => inl "x509: malformed certificate"
  end.

#[export] Instance toyCrypto : CryptoOps := {|
  PrivateKey := Ascii.ascii;
  PublicKey := Ascii.ascii;
  publicOf k := k;
  pemDecode s := match s with String "P" b => Some b | _ => None end;
  pemEncode _ b := String "P" b;
  ParseCertificate := toyParse;
  ParseECPrivateKey b := match b with String k EmptyString => inr k | _ => inl "x509: malformed key" end;
  MarshalECPrivateKey k := inr (String k EmptyString);
  certKey der pub := ∃ kind signer, der = String kind (String pub (String signer EmptyString));
  signedBy der pub := ∃ kind key, der = String kind (String key (String pub EmptyString))
|}.

#[export] Instance toyLaws : CryptoLaws.
Proof. split; cbn; [done|]. by intros k b [= <-]. Qed.

Definition toySign (tmpl : Certificate) (pub priv : Ascii.ascii) : string + bytes :=
  match List.find (λ e, bool_decide (e.2 = tmpl)) toyKinds with
  | Some e => inr (String e.1 (String pub (String priv EmptyString)))
  | None => inl "x509: unsupported template"
  end.

Lemma toySign_issues tmpl pub priv der :
  toySign tmpl pub priv = inr der → issues tmpl pub priv der.
Proof.
  unfold toySign. destruct (List.find _ toyKinds) as [e|] eqn:Hf; [|done]. intros [= <-].
  apply List.find_some in Hf as [Hin Heq%bool_decide_eq_true_1]. subst tmpl.
  split; [|split; [by exists e.1, priv|by exists e.1, pub]]. exists e.2. revert Hin. cbn [toyKinds In].
  intros [<-|[<-|[<-|[<-|[]]]]]; vm_compute; by split_and!.
Qed.

(** ** A cluster *)

Record world : Type := MkWorld {
  w_now : Time;
  w_keys : nat;                        (* keys made so far *)
  w_ticks : nat;                       (* ticks before the context is done *)
  w_secret : option Secret;
  w_config : option ValidatingWebhookConfiguration;
  w_files : fs
}.

Definition toyError (r : StatusReason) : ApiError := MkApiError r "".

(** [deny] are the calls that fail without an effect. *)
Definition toyAnswer (deny : ccall → bool) (c : ccall) (w : world) : cresp c * world :=
  let 'MkWorld now keys ticks secret config files := w in
  let keepFiles := λ f, MkWorld now keys ticks secret config f in
  match c return cresp c * world with
  | CGetSecret _ _ =>
      (if deny c then inl (toyError ReasonOther)
       else match secret with Some s => inr s | None => inl (toyError ReasonNotFound) end, w)
  | CCreateSecret s =>
      if deny c then (Some (toyError ReasonOther), w)
      else match secret with
           | Some _ => (Some (toyError ReasonAlreadyExists), w)
           | None => (None, MkWorld now keys ticks (Some s) config files)
           end
  | CPatchSecret _ s =>
      if deny c then (Some (toyError ReasonOther), w)
      else (if secret then None else Some (toyError ReasonNotFound),
            MkWorld now keys ticks (if secret then Some s else None) config files)
  | CGetWebhookConfig _ =>
      (if deny c then inl (toyError ReasonOther)
       else match config with Some v => inr v | None => inl (toyError ReasonNotFound) end, w)
  | CPatchWebhookConfig _ v =>
      if deny c then (Some (toyError ReasonOther), w)
      else (None, MkWorld now keys ticks secret (Some v) files)
  | CTime => (now, w)
  | CGenerateKey => (inr (Ascii.ascii_of_nat (65 + keys)), MkWorld now (S keys) ticks secret config files)
  | CRandInt _ => (inr 7, w)
  | CCreateCertificate tmpl _ pub priv => (toySign tmpl pub priv, w)
  | CReadFile path =>
      (match files !! path with Some d => inr d | None => inl "no such file" end, w)
  | CMkdirAll _ _ => (None, w)
  | CCreateTemp dir _ =>
      let path := filepathJoin dir ".cert-tmp-1" in
      match files !! path with
      | Some _ => (inl "file exists", w)
      | None => (inr path, keepFiles (<[path := ""]> files))
      end
  | CChmod _ _ => (None, w)
  | CWriteFile path data =>
      if deny c then (Some "no space left", keepFiles (<[path := ""]> files))
      else (None, keepFiles (<[path := data]> files))
  | CCloseFile _ => (None, w)
  | CRename old new =>
      match files !! old with
      | Some d => (None, keepFiles (<[new := d]> (delete old files)))
      | None => (Some "no such file", w)
      end
  | CRemove path =>
      match files !! path with
      | Some _ => (None, keepFiles (delete path files))
      | None => (Some "no such file", w)
      end
  | CFileOrder => (true, w)
  | CWait _ => (None, w)
  | CTick _ =>
      match ticks with
      | O => (Some "context canceled", w)
      | S n => (None, MkWorld now keys n secret config files)
      end
  end.

Lemma toyAnswer_pki deny c w : pki toyNow c (toyAnswer deny c w).1 ∨ w_now w < toyNow.
Proof.
  destruct (decide (w_now w < toyNow)) as [|Hn]; [by right|left]. destruct w as [now ? ? ? ? ?].
  cbn in Hn. destruct c; cbn; try done; [lia|]. intros der. apply toySign_issues.
Qed.

(** The files of the cluster follow [fsStep], its Secret follows [serve]. *)
Lemma toyAnswer_fs deny c w :
  fsStep (w_files w) (Ev c (toyAnswer deny c w).1) (w_files (toyAnswer deny c w).2).
Proof.
  destruct w as [now keys ticks secret config files]; destruct c; cbn; try done;
    repeat case_match; cbn in *; simplify_eq; try done.
  all: match goal with
    | |- _ ∧ tempPath _ _ ∧ _ => split_and!; [done| |done]; by exists "1"
    | |- ∃ part, _ => exists ""; split; [by left|done]
    | |- ∃ data, _ => by eexists
    end.
Qed.

Lemma toyAnswer_serve deny c w :
  serve (w_secret w) (Ev c (toyAnswer deny c w).1) (w_secret (toyAnswer deny c w).2).
Proof.
  destruct w as [now keys ticks secret config files]; destruct c; cbn; try done;
    repeat case_match; cbn in *; simplify_eq; try done; try (by split); try (by left).
  split; [by eexists|]. by exists modified.
Qed.

Lemma toyAnswer_now deny c w : w_now (toyAnswer deny c w).2 = w_now w.
Proof. destruct w; destruct c; cbn; repeat case_match; cbn in *; by simplify_eq. Qed.

Lemma toy_fsRun deny {A} (p : cprog A) w :
  let '(t, _, w') := interp (toyAnswer deny) p w in fsRun (w_files w) t (w_files w').
Proof.
  revert w. induction p as [a|c k IH]; intros w; cbn; [constructor|].
  pose proof (toyAnswer_fs deny c w) as Hc. destruct (toyAnswer deny c w) as [r w1]. cbn in Hc.
  specialize (IH r w1). destruct (interp _ (k r) w1) as [[t a] w2]. by econstructor.
Qed.

(** An execution of [m] from [w]: its calls, its ending and the cluster after. *)
Definition toyRun {A} (deny : ccall → bool) (m : C A) (w : world) : ctrace * ending A * world :=
  interp (toyAnswer deny) m w.
Definition toyTrace {A} deny (m : C A) (w : world) : ctrace := (toyRun deny m w).1.1.
Definition toyEnd {A} deny (m : C A) (w : world) : ending A := (toyRun deny m w).1.2.
Definition toyAfter {A} deny (m : C A) (w : world) : world := (toyRun deny m w).2.

Lemma toyRun_run {A} deny (m : C A) w : run m (toyTrace deny m w) (toyEnd deny m w).
Proof.
  unfold toyTrace, toyEnd. destruct (toyRun deny m w) as [[t r] w'] eqn:H. by eapply interp_run.
Qed.

Lemma toyRun_fs {A} deny (m : C A) w :
  fsRun (w_files w) (toyTrace deny m w) (w_files (toyAfter deny m w)).
Proof.
  unfold toyTrace, toyAfter. pose proof (toy_fsRun deny m w) as H. unfold toyRun.
  by destruct (interp _ m w) as [[t r] w'].
Qed.

Lemma toyRun_pki {A} deny (m : C A) w :
  w_now w = toyNow → answered (pki toyNow) (toyTrace deny m w).
Proof.
  unfold toyTrace, toyRun. revert w. induction m as [a|c k IH]; intros w Hnow; cbn; [constructor|].
  pose proof (toyAnswer_pki deny c w) as [Hc|]; [|lia].
  assert (w_now (toyAnswer deny c w).2 = toyNow) as Hnow' by (by rewrite toyAnswer_now).
  destruct (toyAnswer deny c w) as [r1 w1]. cbn in *. specialize (IH r1 w1 Hnow').
  destruct (interp _ (k r1) w1) as [[t a] w2]. by constructor.
Qed.

Definition allow : ccall → bool := λ _, false.
Definition toyConfig (bundle : bytes) : ValidatingWebhookConfiguration :=
  MkValidatingWebhookConfiguration "vwc" [MkValidatingWebhook "vwebhook" bundle].
Definition toyBootstrapper : CertBootstrapper :=
  MkCertBootstrapper "ns" "secret" "/certs" "svc" "vwc" "/metrics" "met".
Definition toyWorld : world := MkWorld toyNow 0 0 None (Some (toyConfig "")) ∅.
Definition toyEnsure : C unit := EnsureCerts 1 toyBootstrapper.

(** ** Witnesses *)

Lemma writeCertsToDisk_atomic_witness :
  let m := writeCertsToDisk "/certs" "PsBA" "PB" in
  let t := toyTrace allow m toyWorld in
  toyEnd allow m toyWorld = Done (OK tt) ∧
  (∀ t1 t2 σ1, t = t1 ++ t2 → fsRun ∅ t1 σ1 → ∀ p, ¬ tempPath "/certs" p →
     σ1 !! p = (∅ : fs) !! p ∨
     p = filepathJoin "/certs" "tls.crt" ∧ σ1 !! p = Some "PsBA" ∨
     p = filepathJoin "/certs" "tls.key" ∧ σ1 !! p = Some "PB") ∧
  fsRun ∅ t (w_files (toyAfter allow m toyWorld)) ∧
  w_files (toyAfter allow m toyWorld) !! "/certs/tls.crt" = Some "PsBA".
Proof.
  intros m t. split; [by vm_compute|].
  destruct (writeCertsToDisk_atomic "/certs" "PsBA" "PB" ∅ t (toyEnd allow m toyWorld)
    ltac:(done) (toyRun_run allow m toyWorld)) as [H1 H2].
  split; [exact H1|]. split; [apply (toyRun_fs allow m toyWorld)|].
  by apply (H2 ltac:(by vm_compute) _ (toyRun_fs allow m toyWorld)).
Defined.

(** A first start: no Secret, no certificates on disk. *)
Lemma EnsureCerts_serves_witness :
  let t := toyTrace allow toyEnsure toyWorld in
  let σ' := w_files (toyAfter allow toyEnsure toyWorld) in
  ∃ caCert caKey rotated t1 t2,
    t = t1 ++ t2 ∧ run (ensureCA toyBootstrapper) t1 (Done (OK (caCert, caKey, rotated))) ∧
    ((rotated = false ∧ stillGood "/certs" t ∅ ∧
        σ' !! filepathJoin "/certs" "tls.crt" = (∅ : fs) !! filepathJoin "/certs" "tls.crt" ∧
        σ' !! filepathJoin "/certs" "tls.key" = (∅ : fs) !! filepathJoin "/certs" "tls.key") ∨
       (serving "/certs" caKey (serverNames "svc" "ns" []) [] toyNow σ' ∧
        ∃ config, Ev (CPatchWebhookConfig config (setCABundle caCert config)) None ∈ t2)) ∧
    ((rotated = false ∧ stillGood "/metrics" t σ') ∨
       serving "/metrics" caKey (serverNames "met" "ns" [localhostDNS]) ["127.0.0.1"] toyNow σ').
Proof.
  intros t σ'.
  destruct (EnsureCerts_serves 1 toyBootstrapper t toyNow ∅ σ') as
    (caCert & caKey & rotated & t1 & t2 & H1 & H2 & H3 & H4).
  - assert (toyEnd allow toyEnsure toyWorld = Done (OK tt)) as <- by (by vm_compute).
    apply toyRun_run.
  - by apply toyRun_pki.
  - apply (toyRun_fs allow toyEnsure toyWorld).
  - done.
  - exists caCert, caKey, rotated, t1, t2. split_and!; [done|done|by apply H3|by apply H4].
Defined.

Lemma EnsureCerts_returns_witness :
  (waits (toyTrace allow toyEnsure toyWorld) < 1)%nat ∧ ∃ o, toyEnd allow toyEnsure toyWorld = Done o.
Proof.
  split; [by vm_compute; lia|].
  apply (EnsureCerts_returns 1 toyBootstrapper _ _ (toyRun_run allow toyEnsure toyWorld)).
  vm_compute. lia.
Defined.

(** The check after that start finds nothing to do. *)
Lemma EnsureCerts_idempotent_witness :
  let w := toyAfter allow toyEnsure toyWorld in
  toyEnd allow toyEnsure w = Done (OK tt) ∧ issued certReads (toyTrace allow toyEnsure w).
Proof.
  intros w. apply (EnsureCerts_idempotent 1 toyBootstrapper toyNow _ _ (toyRun_run allow toyEnsure w)).
  assert (∃ s d1 d2, toyTrace allow toyEnsure w =
    [Ev (CGetSecret "ns" "secret") (inr s); Ev CTime toyNow; Ev (CReadFile "/certs/tls.crt") (inr d1);
     Ev CTime toyNow; Ev (CReadFile "/metrics/tls.crt") (inr d2); Ev CTime toyNow] ∧
    mapGet (sec_Data s) caCertField = "PcAA" ∧ d1 = "PsBA" ∧ d2 = "PmCA")
    as (s & d1 & d2 & -> & Hs & -> & ->) by (by vm_compute; do 3 eexists).
  assert (∀ kind cert, In (kind, cert) (take 3 toyKinds) → ∀ b c,
    fresh (String "P" (String kind (String b (String c "")))) toyNow) as Hfresh.
  { intros kind cert Hin b c. eexists _, cert. split; [done|].
    cbn [toyKinds take In] in Hin. destruct Hin as [[= <- <-]|[[= <- <-]|[[= <- <-]|[]]]]; by vm_compute. }
  repeat (constructor; [cbn|]); try constructor; try done.
  - exists s. split; [done|]. rewrite Hs. eapply Hfresh. by left.
  - eexists. split; [done|]. eapply Hfresh. by right; left.
  - eexists. split; [done|]. eapply Hfresh. by right; right; left.
Defined.

(** One tick whose check fails, then the context is done. *)
Definition denySecret : ccall → bool := λ c, match c with CGetSecret _ _ => true | _ => false end.

Lemma Start_survives_witness :
  let w := MkWorld toyNow 0 1 None None ∅ in
  let m := Start 2 1 toyBootstrapper in
  toyEnd denySecret m w = Done (OK tt) ∧
  ∃ t' err, toyTrace denySecret m w = t' ++ [Ev (CTick renewalCheckInterval) (Some err)].
Proof.
  intros w m. assert (toyEnd denySecret m w = Done (OK tt)) as Hend by (by vm_compute).
  split; [exact Hend|].
  by apply (Start_survives 2 1 toyBootstrapper _ _ (toyRun_run denySecret m w)).
Defined.

(** ** Replicas

    The pods named by [sched] take one call each, in that order. *)
Fixpoint toySched (sched : list nat) (t : ctrace) (w : world) (pods : list (cprog (ending unit)))
    : ctrace * world * list (cprog (ending unit)) :=
  match sched with
  | [] => (t, w, pods)
  | i :: sched =>
      match pods !! i with
      | Some (Vis c k) =>
          let '(r, w') := toyAnswer allow c w in
          toySched sched (t ++ [Ev c r]) w' (<[i := k r]> pods)
      | _ => toySched sched t w pods
      end
  end.

Lemma toySched_hrun sched t w pods w0 t' w' pods' :
  w_now w = toyNow → hrun (window toyNow toyNow) w0 t (w_secret w, pods) →
  toySched sched t w pods = (t', w', pods') →
  hrun (window toyNow toyNow) w0 t' (w_secret w', pods').
Proof.
  revert t w pods. induction sched as [|i sched IH]; intros t w pods Hnow Hrun Hs; cbn in Hs.
  { by simplify_eq. }
  destruct (pods !! i) as [[a|c k]|] eqn:Hi; [by eapply IH| |by eapply IH].
  pose proof (toyAnswer_pki allow c w) as Hr. pose proof (toyAnswer_serve allow c w) as Hsv.
  pose proof (toyAnswer_now allow c w) as Hnow'.
  assert (c = CTime → (toyAnswer allow c w).1 = (toyAnswer allow c w).1) as _ by done.
  assert (window toyNow toyNow c (toyAnswer allow c w).1) as Hw.
  { destruct Hr as [Hr|]; [|lia]. destruct w; destruct c; cbn in *; try done. lia. }
  destruct (toyAnswer allow c w) as [r w1]. cbn in *.
  eapply IH; [|eapply hrun_snoc; [exact Hrun|by econstructor]|exact Hs]. by rewrite Hnow'.
Qed.

(** Two replicas start at once: both find no Secret and generate a CA, pod 0
    creates the Secret and pod 1 loses the race. *)
Definition raceSched : list nat :=
  flat_map (λ _, [0; 1]%nat) (seq 0 8) ++ replicate 60 0%nat ++ replicate 60 1%nat.
Definition raceEnd : ctrace * world * list (cprog (ending unit)) :=
  toySched raceSched [] toyWorld [toyEnsure; toyEnsure].

Lemma raceEnd_hrun :
  hrun (window toyNow toyNow) (None, map (λ polls, EnsureCerts polls toyBootstrapper) [1; 1]%nat)
    raceEnd.1.1 (w_secret raceEnd.1.2, raceEnd.2).
Proof.
  unfold raceEnd. destruct (toySched _ _ _ _) as [[t w] pods] eqn:H.
  eapply (toySched_hrun raceSched [] toyWorld); [done|apply hrun_nil|exact H].
Qed.

Lemma EnsureCerts_HA_witness :
  raceEnd.2 = [Ret (Done (OK tt)); Ret (Done (OK tt))] ∧
  (∃ s, w_secret raceEnd.1.2 = Some s ∧ mapGet (sec_Data s) caCertField = "PcAA" ∧
     ∀ config modified r, Ev (CPatchWebhookConfig config modified) r ∈ raceEnd.1.1 →
       modified = setCABundle "PcAA" config).
Proof.
  split; [by vm_compute|].
  destruct (EnsureCerts_HA toyBootstrapper toyNow toyNow None [1; 1]%nat raceEnd.1.1
    (w_secret raceEnd.1.2) raceEnd.2 ltac:(by vm_compute) ltac:(done) raceEnd_hrun)
    as (_ & _ & _ & Hpatch & _).
  assert (∃ s, w_secret raceEnd.1.2 = Some s ∧ mapGet (sec_Data s) caCertField = "PcAA")
    as (s & Hs & Hc) by (by vm_compute; eexists).
  exists s. split_and!; [exact Hs|exact Hc|]. intros config modified r Hin.
  destruct (Hpatch config modified r Hin) as (s' & Hs' & ->).
  assert (s' = s) as -> by congruence. by rewrite Hc.
Defined.

(** ** Where it does not recover

    A CA bundle whose patch failed is not patched again: the certificates on disk
    are good, so the next check returns without looking at the configuration. *)
Example bundle_not_retried :
  let denyPatch : ccall → bool := λ c, match c with CPatchWebhookConfig _ _ => true | _ => false end in
  let w1 := toyAfter denyPatch toyEnsure toyWorld in
  let w2 := toyAfter allow toyEnsure w1 in
  (∃ e, toyEnd denyPatch toyEnsure toyWorld = Done (Fail e)) ∧
  w_files w1 !! "/certs/tls.crt" = Some "PsBA" ∧
  toyEnd allow (ensureWebhookCert 1 toyBootstrapper "PcAA" "PA" false) w1 = Done (OK tt) ∧
  w_config w2 = Some (toyConfig "").
Proof. vm_compute. split_and!; try done. by eexists. Qed.

(** A key that could not be written is not written again: the check looks at the
    certificate only. *)
Example key_not_retried :
  let denyKey : ccall → bool := λ c, match c with CWriteFile _ data => bool_decide (data = "PB") | _ => false end in
  let w1 := toyAfter denyKey toyEnsure toyWorld in
  let w2 := toyAfter allow toyEnsure w1 in
  (∃ e, toyEnd denyKey toyEnsure toyWorld = Done (Fail e)) ∧
  toyEnd allow toyEnsure w1 = Done (OK tt) ∧
  w_files w2 !! "/certs/tls.crt" = Some "PsBA" ∧ w_files w2 !! "/certs/tls.key" = None.
Proof. vm_compute. split_and!; try done. by eexists. Qed.

(** A CA whose thirty last days have begun, and replicas with good certificates
    of that CA on disk: the one that checks first rotates the CA and sets the
    bundle, the other finds the new CA good, keeps its certificate, and serves
    one that the bundle does not verify. *)
Definition oldSecret : Secret :=
  MkSecret "ns" "secret" (Some {[ caCertField := "PeXX"; caKeyField := "PX" ]}).
Definition oldDisk : fs :=
  {[ "/certs/tls.crt" := "PsYX"; "/certs/tls.key" := "PY";
     "/metrics/tls.crt" := "PmZX"; "/metrics/tls.key" := "PZ" ]}.
Definition oldWorld : world := MkWorld toyNow 0 0 (Some oldSecret) (Some (toyConfig "PeXX")) oldDisk.

Example other_replica_stranded :
  let w1 := toyAfter allow toyEnsure oldWorld in
  let other := MkWorld toyNow (w_keys w1) 0 (w_secret w1) (w_config w1) oldDisk in
  let w2 := toyAfter allow toyEnsure other in
  toyEnd allow toyEnsure oldWorld = Done (OK tt) ∧ w_config w1 = Some (toyConfig "PcAA") ∧
  toyEnd allow toyEnsure other = Done (OK tt) ∧
  w_config w2 = Some (toyConfig "PcAA") ∧ w_files w2 !! "/certs/tls.crt" = Some "PsYX".
Proof. vm_compute. by split_and!. Qed.

(** Two replicas that rotate at once each write their own CA: the bundle and the
    Secret end up with different ones. *)
Definition rotateSched : list nat :=
  flat_map (λ _, [0; 1]%nat) (seq 0 9) ++ replicate 60 1%nat ++ replicate 60 0%nat.

Example rotation_race :
  let r := toySched rotateSched [] oldWorld [toyEnsure; toyEnsure] in
  r.2 = [Ret (Done (OK tt)); Ret (Done (OK tt))] ∧
  (∃ s, w_secret r.1.2 = Some s ∧ mapGet (sec_Data s) caCertField = "PcBB") ∧
  w_config r.1.2 = Some (toyConfig "PcAA").
Proof. vm_compute. split_and!; [done|by eexists|done]. Qed.

(** A CA Secret without data panics the check: [secret.Data] is a nil map. *)
Example secret_without_data :
  toyEnd allow toyEnsure (MkWorld toyNow 0 0 (Some (MkSecret "ns" "secret" None)) None ∅) = Done Panic.
Proof. by vm_compute. Qed.
