(* ===== verification/Main.v ===== *)
(** * The process (cmd/main.go)

    The start of the operator: its flags, the bootstrap of its certificates, the
    manager with its servers, the controller and the webhook.  [EnsureCerts] and
    [SetupWithManager] run inside it as they do in the code. *)
From S2P Require Import Prelude GoTime Api Prog Kube Watch CertEnv CertBootstrap CertExample.

(** ** Flags *)

Record Flags : Type := MkFlags {
  metricsAddr : string;
  metricsCertPath : string;
  metricsCertName : string;
  metricsCertKey : string;
  webhookCertPath : string;
  webhookCertName : string;
  webhookCertKey : string;
  enableLeaderElection : bool;
  probeAddr : string;
  secureMetrics : bool;
  enableHTTP2 : bool;
  webhookEnabled : bool;
  operatorNamespace : string;
  webhookServiceName : string;
  webhookConfigName : string;
  tlsCertSecretName : string;
  metricsServiceName : string
}.

Definition defaultFlags : Flags := {|
  metricsAddr := "0";
  metricsCertPath := "";
  metricsCertName := "tls.crt";
  metricsCertKey := "tls.key";
  webhookCertPath := "";
  webhookCertName := "tls.crt";
  webhookCertKey := "tls.key";
  enableLeaderElection := false;
  probeAddr := ":8081";
  secureMetrics := true;
  enableHTTP2 := false;
  webhookEnabled := false;
  operatorNamespace := "nmo-system";
  webhookServiceName := "node-maintenance-orchestrator-webhook-service";
  webhookConfigName := "node-maintenance-orchestrator-validating-webhook-configuration";
  tlsCertSecretName := "node-maintenance-orchestrator-tls-cert";
  metricsServiceName := "node-maintenance-orchestrator-ctrl-manager-metrics-service"
|}.

(** ** Options *)

(** The field of [tls.Config] the program sets. *)
Record TLSConfig : Type := MkTLSConfig { tls_NextProtos : list string }.

Definition disableHTTP2 (c : TLSConfig) : TLSConfig := MkTLSConfig ["http/1.1"].

Definition tlsOpts (f : Flags) : list (TLSConfig → TLSConfig) :=
  if negb (enableHTTP2 f) then [disableHTTP2] else [].

Record WebhookOptions : Type := MkWebhookOptions {
  wo_TLSOpts : list (TLSConfig → TLSConfig);
  wo_CertDir : string;
  wo_CertName : string;
  wo_KeyName : string
}.

Record MetricsOptions : Type := MkMetricsOptions {
  mx_BindAddress : string;
  mx_SecureServing : bool;
  mx_TLSOpts : list (TLSConfig → TLSConfig);
  mx_Authenticated : bool;          (* FilterProvider is set *)
  mx_CertDir : string;
  mx_CertName : string;
  mx_KeyName : string
}.

Record ManagerOptions : Type := MkManagerOptions {
  mo_Metrics : MetricsOptions;
  mo_WebhookServer : option WebhookOptions;
  mo_HealthProbeBindAddress : string;
  mo_LeaderElection : bool;
  mo_LeaderElectionID : string
}.

(** ** Start-up calls *)

Section Main.
Context `{SO : SelectorOps} {WO : WatchOps} {CR : CryptoOps}.

Inductive mainCall : Type :=
| MGetConfig                             (* ctrl.GetConfigOrDie *)
| MNewClient                             (* client.New *)
| MCert (c : ccall)                      (* a call of the certificate bootstrap *)
| MNewManager (o : ManagerOptions)
| MAdd (b : CertBootstrapper)            (* mgr.Add *)
| MSetup (c : setupCall)                 (* a call of SetupWithManager *)
| MRegister (path : string)              (* mgr.GetWebhookServer().Register *)
| MAddHealthzCheck (name : string)
| MAddReadyzCheck (name : string)
| MStart.                                (* mgr.Start *)

Definition mainResp (c : mainCall) : Type :=
  match c with
  | MCert c => cresp c
  | MSetup c => setupResp c
  | MRegister _ => unit
  | _ => option string
  end.

Definition mprog (A : Type) : Type := prog mainResp A.

(** How the process stands. *)
Inductive exit : Type :=
| Exited (code : Z)
| Returned
| Panicked
| Waiting.       (* still polling in the bootstrap *)

(** [inl] ends the process. *)
Definition startup (A : Type) : Type := mprog (exit + A).
#[export] Instance startup_ret : MRet startup := λ A a, Ret (inr a).
#[export] Instance startup_bind : MBind startup := λ A B f m,
  pbind m (λ r, match r with inl x => Ret (inl x) | inr a => f a end).

Fixpoint certs {A} (p : cprog A) : mprog A :=
  match p with
  | Ret a => Ret a
  | Vis c k => Vis (MCert c) (λ r, certs (k r))
  end.

Fixpoint setups {A} (p : prog setupResp A) : mprog A :=
  match p with
  | Ret a => Ret a
  | Vis c k => Vis (MSetup c) (λ r, setups (k r))
  end.

(** [if err != nil { ...; os.Exit(1) }]. *)
Definition exitOn (r : option string) : startup unit :=
  Ret (match r with Some _ => inl (Exited 1) | None => inr tt end).

Definition defaultWebhookCertDir : string := "/tmp/k8s-webhook-server/serving-certs".
Definition defaultMetricsCertDir : string := "/tmp/k8s-metrics-server/serving-certs".

Definition bootstrapsWebhook (f : Flags) : bool :=
  webhookEnabled f && bool_decide (webhookCertPath f = "").
Definition bootstrapsMetrics (f : Flags) : bool :=
  secureMetrics f && bool_decide (metricsCertPath f = "").
Definition needsBootstrap (f : Flags) : bool := bootstrapsWebhook f || bootstrapsMetrics f.

(** The bootstrapper [b] as it stands when [EnsureCerts] is called. *)
Definition bootstrapperOf (f : Flags) : CertBootstrapper :=
  let web := λ x, if bootstrapsWebhook f then x else "" in
  let met := λ x, if bootstrapsMetrics f then x else "" in
  MkCertBootstrapper (operatorNamespace f) (tlsCertSecretName f)
    (web defaultWebhookCertDir) (web (webhookServiceName f)) (web (webhookConfigName f))
    (met defaultMetricsCertDir) (met (metricsServiceName f)).

(** What the bootstrap leaves: the certificate paths of the webhook and of the
    metrics server, and the bootstrapper to go on with. *)
Record certState : Type := MkCertState {
  cs_webhookCertPath : string;
  cs_metricsCertPath : string;
  cs_bootstrapper : option CertBootstrapper
}.

Definition bootstrap (polls : nat) (f : Flags) : startup certState :=
  let unmanaged := MkCertState (webhookCertPath f) (metricsCertPath f) None in
  if negb (needsBootstrap f) then mret unmanaged
  else
    r ← (Vis MNewClient (λ r, Ret (inr r)) : startup (option string));
    exitOn r;;
    let b := bootstrapperOf f in
    pbind (certs (EnsureCerts polls b)) (λ r, Ret (
      match r with
      | Done (OK _) => inr (MkCertState
          (if decide (b_CertDir b = "") then webhookCertPath f else defaultWebhookCertDir)
          (if decide (b_MetricsCertDir b = "") then metricsCertPath f else defaultMetricsCertDir)
          (Some b))
      | Done (Fail _) => inr unmanaged
      | Done Panic => inl Panicked
      | Polling => inl Waiting
      end)).

Definition managerOptions (f : Flags) (cs : certState) : ManagerOptions := {|
  mo_Metrics := {|
    mx_BindAddress := metricsAddr f;
    mx_SecureServing := secureMetrics f;
    mx_TLSOpts := tlsOpts f;
    mx_Authenticated := secureMetrics f;
    mx_CertDir := if decide (cs_metricsCertPath cs = "") then "" else cs_metricsCertPath cs;
    mx_CertName := if decide (cs_metricsCertPath cs = "") then "" else metricsCertName f;
    mx_KeyName := if decide (cs_metricsCertPath cs = "") then "" else metricsCertKey f
  |};
  mo_WebhookServer :=
    if webhookEnabled f && negb (bool_decide (cs_webhookCertPath cs = ""))
    then Some (MkWebhookOptions (tlsOpts f) (cs_webhookCertPath cs) (webhookCertName f) (webhookCertKey f))
    else None;
  mo_HealthProbeBindAddress := probeAddr f;
  mo_LeaderElection := enableLeaderElection f;
  mo_LeaderElectionID := "ab079f3e.nmoo.io"
|}.

Definition webhookPath : string := "/validate-maintenance-nmoo-io-v1alpha1-nodemaintenanceplan".

(** A start-up call whose error ends the process. *)
Definition must (c : mainCall) (asError : mainResp c → option string) : startup unit :=
  Vis c (λ r, exitOn (asError r)).

Definition when (b : bool) (m : startup unit) : startup unit := if b then m else mret tt.

Definition startManager (f : Flags) (cs : certState) : startup unit :=
  let webhookReady := webhookEnabled f && negb (bool_decide (cs_webhookCertPath cs = "")) in
  must (MNewManager (managerOptions f cs)) (λ r, r);;
  match cs_bootstrapper cs with
  | Some b => must (MAdd b) (λ r, r)
  | None => mret tt
  end;;
  pbind (setups SetupWithManager) (λ r, Ret (match r with
    | OK _ => inr tt
    | Fail _ => inl (Exited 1)
    | Panic => inl Panicked
    end));;
  when webhookReady (Vis (MRegister webhookPath) (λ _, Ret (inr tt)));;
  must (MAddHealthzCheck "healthz") (λ r, r);;
  must (MAddReadyzCheck "readyz") (λ r, r);;
  when webhookReady (must (MAddReadyzCheck "webhook") (λ r, r));;
  must MStart (λ r, r).

Definition main (polls : nat) (f : Flags) : mprog exit :=
  pbind (must MGetConfig (λ r, r);; cs ← bootstrap polls f; startManager f cs)
    (λ r, Ret (match r with inl x => x | inr _ => Returned end)).

(** ** Executions *)

(** The calls of the certificate bootstrap among those of the process. *)
Fixpoint certTrace (t : list (event mainResp)) : ctrace :=
  match t with
  | [] => []
  | Ev c r :: t =>
      match c return mainResp c → ctrace with MCert c => λ r, [Ev c r] | _ => λ _, [] end r ++ certTrace t
  end.

Lemma certTrace_app t1 t2 : certTrace (t1 ++ t2) = certTrace t1 ++ certTrace t2.
Proof. induction t1 as [|[c r] t1 IH]; cbn; [done|]. by rewrite IH, app_assoc. Qed.

Definition isCert (c : mainCall) : Prop := match c with MCert _ => True | _ => False end.
Definition notCert (c : mainCall) : Prop := ¬ isCert c.

Lemma certTrace_none t : issued notCert t → certTrace t = [].
Proof.
  induction 1 as [|[c r] t Hc Ht IH]; [done|]. cbn in *. rewrite IH, app_nil_r.
  by destruct c; try done; destruct Hc.
Qed.

Lemma run_certs {A} (p : cprog A) t a :
  run (certs p) t a → run p (certTrace t) a ∧ issued isCert t.
Proof.
  revert t. induction p as [x|c k IH]; intros t; cbn; [intros [-> ->]; by split; [|constructor]|].
  intros (r & t' & -> & Hrun). destruct (IH _ _ Hrun) as [Hr Hi]. split; [|by constructor].
  by exists r, (certTrace t').
Qed.

Lemma runS_bind {A B} (m : startup A) (f : A → startup B) t o :
  run (m ≫= f) t o ↔
  ∃ t1 r t2, t = t1 ++ t2 ∧ run m t1 r ∧
    match r with inl x => t2 = [] ∧ o = inl x | inr a => run (f a) t2 o end.
Proof.
  unfold mbind, startup_bind. rewrite run_bind.
  split; intros (t1 & [x|a] & t2 & -> & H1 & H2); by exists t1; eexists _, t2.
Qed.

(** *** Calls that fail *)

(** A start-up call, other than those of the bootstrap, answered with an error. *)
Definition failed (e : event mainResp) : Prop :=
  match e with
  | Ev (MCert _) _ | Ev (MRegister _) _ => False
  | Ev MGetConfig r | Ev MNewClient r | Ev (MNewManager _) r | Ev (MAdd _) r | Ev (MSetup _) r
  | Ev (MAddHealthzCheck _) r | Ev (MAddReadyzCheck _) r | Ev MStart r => r ≠ None
  end.

Definition clean (t : list (event mainResp)) : Prop := Forall (λ e, ¬ failed e) t.

(** The first failing start-up call ends the process, nothing else does. *)
Definition careful {A} (m : startup A) : Prop := ∀ t r, run m t r →
  (clean t ∧ ∀ code, r ≠ inl (Exited code)) ∨
  (r = inl (Exited 1) ∧ ∃ t' e, t = t' ++ [e] ∧ clean t' ∧ failed e).

Lemma careful_bind {A B} (m : startup A) (f : A → startup B) :
  careful m → (∀ a, careful (f a)) → careful (m ≫= f).
Proof.
  intros Hm Hf t o Hrun. apply runS_bind in Hrun as (t1 & r & t2 & -> & H1 & H2).
  destruct (Hm _ _ H1) as [[Hc Hr]|(-> & t' & e & -> & Hc & He)].
  - destruct r as [x|a].
    + destruct H2 as [-> ->]. left. rewrite app_nil_r. split; [done|].
      intros code [= ->]. by destruct (Hr code).
    + destruct (Hf a _ _ H2) as [[Hc2 Ho]|(-> & t' & e & -> & Hc2 & He)]; [left|right].
      * split; [by apply Forall_app|done].
      * split; [done|]. exists (t1 ++ t'), e. rewrite app_assoc.
        split_and!; [done|by apply Forall_app|done].
  - destruct H2 as [-> ->]. right. split; [done|]. exists t', e. by rewrite app_nil_r.
Qed.

Lemma careful_ret {A} (r : exit + A) : (∀ code, r ≠ inl (Exited code)) → careful (Ret r).
Proof. intros Hr t o [-> ->]. left. by split; [constructor|]. Qed.

Lemma careful_must c asError :
  (∀ r, failed (Ev c r) ↔ asError r ≠ None) → careful (must c asError).
Proof.
  intros Hf t o (r & t' & -> & -> & ->). destruct (asError r) as [err|] eqn:He; [right|left].
  - split; [done|]. exists [], (Ev c r). split_and!; [done|constructor|]. apply Hf. by rewrite He.
  - split; [|done]. constructor; [|constructor]. intros H%Hf. by rewrite He in H.
Qed.

Lemma careful_when b m : careful m → careful (when b m).
Proof. destruct b; [done|]. intros _. by apply careful_ret. Qed.

Lemma careful_setup :
  careful (pbind (setups SetupWithManager) (λ r, Ret (match r with
    | OK _ => inr tt
    | Fail _ => inl (Exited 1)
    | Panic => inl Panicked
    end))).
Proof.
  intros t o (r & t' & -> & Hrun). destruct r as [err|]; cbn in Hrun.
  - destruct Hrun as [-> ->]. right. split; [done|]. exists [], (Ev (MSetup (SIndexField "spec.nodeName" podNodeName)) (Some err)).
    by split_and!; [|constructor|].
  - destruct Hrun as (r & t'' & -> & Hrun). destruct r as [err|]; destruct Hrun as [-> ->]; [right|left].
    + split; [done|]. eexists [_], _. split_and!; [done| |done]. constructor; [by intros []|constructor].
    + split; [|done]. constructor; [by intros []|]. constructor; [by intros []|constructor].
Qed.

Lemma careful_bootstrap polls f : careful (bootstrap polls f).
Proof.
  unfold bootstrap. destruct (needsBootstrap f); cbn [negb]; [|by apply careful_ret].
  intros t o Hrun. apply runS_bind in Hrun as (t1 & r1 & t2 & -> & (r & t0 & -> & -> & ->) & Hrun).
  apply runS_bind in Hrun as (t3 & r3 & t6 & -> & [-> ->] & Hrun). destruct r as [err|].
  { destruct Hrun as [-> ->]. right. split; [done|]. exists [], (Ev MNewClient (Some err)).
    by split_and!; [|constructor|]. }
  apply run_bind in Hrun as (t4 & r & t5 & -> & [_ Hcert]%run_certs & [-> ->]).
  left. rewrite app_nil_r. split; [|intros code; by destruct r as [[?|?|]|]; intros [=]].
  constructor; [by intros []|].
  eapply Forall_impl; [|exact Hcert]. intros [c a]; destruct c; cbn; tauto.
Qed.

Lemma careful_startManager f cs : careful (startManager f cs).
Proof.
  unfold startManager.
  repeat first
    [apply careful_bind; [|intros _]|apply careful_when|apply careful_must|apply careful_setup
    |intros r; cbn; by destruct r|case_match|by apply careful_ret].
  intros t o ([] & t' & -> & -> & ->). left. split; [|done]. constructor; [by intros []|constructor].
Qed.

(** *** The bootstrap *)

Definition unmanaged (f : Flags) : certState := MkCertState (webhookCertPath f) (metricsCertPath f) None.
Definition managed (f : Flags) : certState :=
  MkCertState (if bootstrapsWebhook f then defaultWebhookCertDir else webhookCertPath f)
    (if bootstrapsMetrics f then defaultMetricsCertDir else metricsCertPath f) (Some (bootstrapperOf f)).

(** How the bootstrap ended, and the certificates the process goes on with. *)
Definition bootstrapEnded (polls : nat) (f : Flags) (t : ctrace) (r : exit + certState) : Prop :=
  (needsBootstrap f = false ∧ t = [] ∧ r = inr (unmanaged f)) ∨
  (needsBootstrap f = true ∧ t = [] ∧ r = inl (Exited 1)) ∨
  (needsBootstrap f = true ∧ ∃ e, run (EnsureCerts polls (bootstrapperOf f)) t e ∧
     r = match e with
         | Done (OK _) => inr (managed f)
         | Done (Fail _) => inr (unmanaged f)
         | Done Panic => inl Panicked
         | Polling => inl Waiting
         end).

Lemma bootstrap_ended polls f t r :
  run (bootstrap polls f) t r → bootstrapEnded polls f (certTrace t) r.
Proof.
  unfold bootstrap, bootstrapEnded. destruct (needsBootstrap f); cbn [negb].
  2: { intros [-> ->]. by left. }
  intros Hrun. apply runS_bind in Hrun as (t1 & r1 & t2 & -> & (a & t0 & -> & -> & ->) & Hrun).
  apply runS_bind in Hrun as (t3 & r3 & t6 & -> & [-> ->] & Hrun). right. destruct a as [err|]; [destruct Hrun as [-> ->]; by left|right]. split; [done|].
  apply run_bind in Hrun as (t4 & e & t5 & -> & [Hens _]%run_certs & [-> ->]). rewrite app_nil_r.
  exists e. split; [exact Hens|]. destruct e as [[[]|?|]|]; try done. unfold managed.
  do 2 f_equal; cbn; by destruct (bootstrapsWebhook f), (bootstrapsMetrics f).
Qed.

(** *** The manager *)

Definition webhookReady (f : Flags) (cs : certState) : bool :=
  webhookEnabled f && negb (bool_decide (cs_webhookCertPath cs = "")).

Definition managerCall (f : Flags) (cs : certState) : guar mainCall := λ c,
  match c with
  | MNewManager o => o = managerOptions f cs
  | MAdd b => cs_bootstrapper cs = Some b
  | MRegister path => webhookReady f cs = true
  | MAddReadyzCheck name => name = "webhook" → webhookReady f cs = true
  | MGetConfig | MNewClient | MCert _ => False
  | _ => True
  end.

(** Whatever ends the process early is an exit. *)
Definition stops {A} (r : exit + A) : Prop := ∀ x, r = inl x → x = Exited 1.

Lemma rg_startup_bind {A B} G (m : startup A) (k : A → startup B) :
  rg anyAnswer G m stops → (∀ a, rg anyAnswer G (k a) stops) → rg anyAnswer G (m ≫= k) stops.
Proof.
  intros Hm Hk. apply rg_bind. eapply rg_post; [exact Hm|].
  intros [x|a] Hs; [intros y [= <-]; by apply Hs|apply Hk].
Qed.

Lemma rg_must G c asError : G c → rg anyAnswer G (must c asError) stops.
Proof. intros Hc. split; [done|]. intros r _. cbn. destruct (asError r); [by intros x [= <-]|by intros x]. Qed.

Lemma startManager_calls f cs : rg anyAnswer (managerCall f cs) (startManager f cs) stops.
Proof.
  unfold startManager. fold (webhookReady f cs).
  apply rg_startup_bind; [by apply rg_must|intros _].
  apply rg_startup_bind; [destruct (cs_bootstrapper cs) eqn:Hb; [by apply rg_must|by intros x]|intros _].
  apply rg_startup_bind.
  { split; [done|]. intros [err|] _; [by intros x [= <-]|]. split; [done|].
    intros [err|] _; [by intros x [= <-]|by intros x]. }
  intros _.
  apply rg_startup_bind; [destruct (webhookReady f cs) eqn:Hw; [split; [done|]; by intros r _ x|by intros x]|intros _].
  apply rg_startup_bind; [by apply rg_must|intros _].
  apply rg_startup_bind; [by apply rg_must|intros _].
  apply rg_startup_bind; [destruct (webhookReady f cs) eqn:Hw; [by apply rg_must; intros _|by intros x]|intros _].
  by apply rg_must.
Qed.

(** A start that goes through has made all its calls. *)
Lemma startManager_done f cs t :
  run (startManager f cs) t (inr tt) →
  MNewManager (managerOptions f cs) ∈ ev_act <$> t ∧ MStart ∈ ev_act <$> t ∧
  (∀ b, cs_bootstrapper cs = Some b → MAdd b ∈ ev_act <$> t) ∧
  (webhookReady f cs = true → MRegister webhookPath ∈ ev_act <$> t ∧ MAddReadyzCheck "webhook" ∈ ev_act <$> t).
Proof.
  unfold startManager. fold (webhookReady f cs). intros Hrun.
  apply runS_bind in Hrun as (t1 & [?|[]] & t2 & -> & H1 & Hrun); [by destruct Hrun|].
  apply runS_bind in Hrun as (t3 & [?|[]] & t4 & -> & H2 & Hrun); [by destruct Hrun|].
  apply runS_bind in Hrun as (t5 & [?|[]] & t6 & -> & _ & Hrun); [by destruct Hrun|].
  apply runS_bind in Hrun as (t7 & [?|[]] & t8 & -> & H4 & Hrun); [by destruct Hrun|].
  apply runS_bind in Hrun as (t9 & [?|[]] & t10 & -> & _ & Hrun); [by destruct Hrun|].
  apply runS_bind in Hrun as (t11 & [?|[]] & t12 & -> & _ & Hrun); [by destruct Hrun|].
  apply runS_bind in Hrun as (t13 & [?|[]] & t14 & -> & H7 & Hrun); [by destruct Hrun|].
  destruct H1 as (r1 & ? & -> & _), Hrun as (r8 & ? & -> & _). rewrite !fmap_app, !fmap_cons.
  split_and!; [set_solver|set_solver|..].
  - intros b Hb. rewrite Hb in H2. destruct H2 as (r2 & ? & -> & _). set_solver.
  - intros Hw. rewrite Hw in H4, H7. destruct H4 as (r4 & ? & -> & _), H7 as (r7 & ? & -> & _). set_solver.
Qed.

(** The whole process, split at the bootstrap. *)
Lemma main_split polls f t x :
  run (main polls f) t x →
  (∃ err, t = [Ev MGetConfig (Some err)] ∧ x = Exited 1) ∨
  ∃ t1 r t2, t = Ev MGetConfig None :: t1 ++ t2 ∧ run (bootstrap polls f) t1 r ∧
    match r with
    | inl x' => t2 = [] ∧ x = x'
    | inr cs => ∃ o, run (startManager f cs) t2 o ∧ x = match o with inl x => x | inr _ => Returned end
    end.
Proof.
  unfold main. intros (t0 & o & t9 & -> & Hrun & [-> ->])%run_bind. rewrite app_nil_r.
  apply runS_bind in Hrun as (t1 & r & t2 & -> & (a & t3 & -> & -> & ->) & Hrun).
  destruct a as [err|]; [destruct Hrun as [-> ->]; left; by exists err|right].
  apply runS_bind in Hrun as (t4 & r & t5 & -> & Hb & Hrun).
  exists t4, r, t5. split_and!; [done|done|]. destruct r as [x'|cs]; [by destruct Hrun as [-> ->]|].
  by exists o.
Qed.

Definition bootstrapCall : guar mainCall := λ c, match c with MNewClient | MCert _ => True | _ => False end.

Lemma bootstrap_calls polls f t r : run (bootstrap polls f) t r → issued bootstrapCall t.
Proof.
  unfold bootstrap. destruct (needsBootstrap f); cbn [negb]; [|by intros [-> ->]; constructor].
  intros Hrun. apply runS_bind in Hrun as (t1 & r1 & t2 & -> & (a & t0 & -> & -> & ->) & Hrun).
  apply runS_bind in Hrun as (t3 & r3 & t6 & -> & [-> ->] & Hrun).
  constructor; [done|]. destruct a as [err|]; [destruct Hrun as [-> _]; constructor|].
  apply run_bind in Hrun as (t4 & e & t5 & -> & [_ Hc]%run_certs & [-> ->]). rewrite app_nil_r.
  eapply Forall_impl; [|exact Hc]. intros [c a]. by destruct c.
Qed.

Lemma managerCall_notCert f cs c : managerCall f cs c → notCert c.
Proof. destruct c; by intros H []. Qed.

Lemma certTrace_manager f cs t : issued (managerCall f cs) t → certTrace t = [].
Proof.
  intros Hi. apply certTrace_none. eapply Forall_impl; [|exact Hi]. intros e. apply managerCall_notCert.
Qed.

(** C30: when the process exits.  The first start-up call that fails (reading the
    kubeconfig, making a client or the manager, adding the renewal loop, the
    controller or a check, running the manager) is the last call and the exit
    code is 1.  Nothing else exits: a bootstrap of certificates that fails lets
    the process go on, so without such a failure the process returns from the
    manager, unless the bootstrap itself panics (or is still waiting). *)
Theorem main_exits polls f t x :
  run (main polls f) t x →
  (x = Exited 1 ∧ ∃ t' e, t = t' ++ [e] ∧ clean t' ∧ failed e) ∨
  (clean t ∧ (x = Returned ∨
     x = Panicked ∧ run (EnsureCerts polls (bootstrapperOf f)) (certTrace t) (Done Panic) ∨
     x = Waiting ∧ run (EnsureCerts polls (bootstrapperOf f)) (certTrace t) Polling)).
Proof.
  intros Hrun. apply main_split in Hrun as [(err & -> & ->)|(t1 & r & t2 & -> & Hb & Hrun)].
  { left. split; [done|]. exists [], (Ev MGetConfig (Some err)). by split_and!; [|constructor|]. }
  pose proof (bootstrap_ended _ _ _ _ Hb) as Hended.
  assert (¬ failed (Ev MGetConfig None)) as Hok by (by intros []).
  destruct (careful_bootstrap _ _ _ _ Hb) as [[Hc1 Hr]|(-> & t' & e & -> & Hc1 & He)].
  2: { destruct Hrun as [-> ->]. left. split; [done|]. exists (Ev MGetConfig None :: t'), e.
       rewrite app_nil_r. by split_and!; [|constructor|]. }
  destruct r as [x'|cs].
  - destruct Hrun as [-> ->]. right. split; [rewrite app_nil_r; by constructor|].
    cbn [certTrace app]. rewrite app_nil_r.
    destruct Hended as [(_ & _ & [=])|[(_ & _ & [= ->])|(_ & e & Hens & He)]]; [by destruct (Hr 1)|].
    destruct e as [[[]|?|]|]; simplify_eq; auto.
  - destruct Hrun as (o & Hm & ->).
    destruct (careful_startManager _ _ _ _ Hm) as [[Hc2 Ho]|(-> & t' & e & -> & Hc2 & He)].
    + right. split; [constructor; [done|by apply Forall_app]|]. left.
      destruct o as [x|]; [|done]. destruct (rg_sound _ _ _ _ _ _ (startManager_calls f cs) Hm
        (answered_any _)) as [_ Hs]. by destruct (Ho 1); rewrite (Hs x eq_refl).
    + left. split; [done|]. exists (Ev MGetConfig None :: t1 ++ t'), e.
      split_and!; [by cbn; rewrite app_assoc|constructor; [done|by apply Forall_app]|done].
Qed.

(** The certificates of the process were bootstrapped. *)
Definition bootstrapped (polls : nat) (f : Flags) (t : list (event mainResp)) : Prop :=
  run (EnsureCerts polls (bootstrapperOf f)) (certTrace t) (Done (OK tt)).

(** The certificates a process goes on with are those of the flags or those the
    bootstrapper has just written. *)
Lemma ended_webhook polls f t cs :
  bootstrapEnded polls f t (inr cs) →
  if webhookReady f cs then
    webhookEnabled f = true ∧ cs_webhookCertPath cs ≠ "" ∧
    (cs_webhookCertPath cs = webhookCertPath f ∨
     webhookCertPath f = "" ∧ cs_webhookCertPath cs = b_CertDir (bootstrapperOf f) ∧
       run (EnsureCerts polls (bootstrapperOf f)) t (Done (OK tt)))
  else webhookEnabled f = false ∨
    webhookCertPath f = "" ∧ ∃ e, run (EnsureCerts polls (bootstrapperOf f)) t (Done (Fail e)).
Proof.
  intros Hended. destruct (webhookReady f cs) eqn:Hw.
  - pose proof Hw as [Hen Hne%negb_true_iff%bool_decide_eq_false]%andb_true_iff. split_and!; [done|done|].
    destruct Hended as [(_ & _ & [= ->])|[(_ & _ & [=])|(_ & e & Hens & He)]]; [by left|].
    destruct e as [[[]|?|]|]; simplify_eq; [|by left]. cbn [cs_webhookCertPath managed] in *.
    cbn [b_CertDir bootstrapperOf]. destruct (bootstrapsWebhook f) eqn:Hbw; [right|by left].
    by apply andb_true_iff in Hbw as [_ ?%bool_decide_eq_true].
  - destruct (webhookEnabled f) eqn:Hen; [right|by left].
    unfold webhookReady in Hw. rewrite Hen in Hw. apply negb_false_iff, bool_decide_eq_true in Hw.
    assert (bootstrapsWebhook f = bool_decide (webhookCertPath f = "")) as Hbw
      by (unfold bootstrapsWebhook; by rewrite Hen).
    destruct Hended as [(Hn & _ & [= ->])|[(_ & _ & [=])|(_ & e & Hens & He)]].
    { cbn in Hw. unfold needsBootstrap in Hn. apply orb_false_iff in Hn as [Hn _].
      rewrite Hbw in Hn. by apply bool_decide_eq_false in Hn. }
    destruct e as [[[]|err|]|]; simplify_eq; [|by split; [|exists err]].
    cbn in Hw. rewrite Hbw in Hw. by case_bool_decide.
Qed.

Lemma ended_metrics polls f t cs :
  bootstrapEnded polls f t (inr cs) →
  cs_metricsCertPath cs = metricsCertPath f ∨
  metricsCertPath f = "" ∧ cs_metricsCertPath cs = b_MetricsCertDir (bootstrapperOf f) ∧
    run (EnsureCerts polls (bootstrapperOf f)) t (Done (OK tt)).
Proof.
  intros [(_ & _ & [= ->])|[(_ & _ & [=])|(_ & e & Hens & He)]]; [by left|].
  destruct e as [[[]|?|]|]; simplify_eq; [|by left].
  cbn [cs_metricsCertPath managed b_MetricsCertDir bootstrapperOf].
  destruct (bootstrapsMetrics f) eqn:Hbm; [right|by left].
  by apply andb_true_iff in Hbm as [_ ?%bool_decide_eq_true].
Qed.

Lemma ended_bootstrapper polls f t cs b :
  bootstrapEnded polls f t (inr cs) → cs_bootstrapper cs = Some b →
  b = bootstrapperOf f ∧ run (EnsureCerts polls (bootstrapperOf f)) t (Done (OK tt)).
Proof.
  intros [(_ & _ & [= ->])|[(_ & _ & [=])|(_ & e & Hens & He)]] Hb; [done|].
  destruct e as [[[]|?|]|]; simplify_eq. cbn in Hb. by injection Hb as <-.
Qed.

(** A process that creates its manager: the bootstrap, then the manager with what
    it left, whose calls are those of [managerCall]. *)
Lemma main_manager polls f t x opts :
  run (main polls f) t x → MNewManager opts ∈ ev_act <$> t →
  ∃ cs, bootstrapEnded polls f (certTrace t) (inr cs) ∧ opts = managerOptions f cs ∧
    (∀ c, c ∈ ev_act <$> t → c ≠ MGetConfig → ¬ bootstrapCall c → managerCall f cs c) ∧
    (x = Returned → webhookReady f cs = true →
       MRegister webhookPath ∈ ev_act <$> t ∧ MAddReadyzCheck "webhook" ∈ ev_act <$> t).
Proof.
  intros Hrun Hnew.
  apply main_split in Hrun as [(err & -> & _)|(t1 & r & t2 & -> & Hb & Hrun)]; [set_solver|].
  pose proof (bootstrap_calls _ _ _ _ Hb) as Hcalls. pose proof (bootstrap_ended _ _ _ _ Hb) as Hended.
  assert (∀ c, c ∈ ev_act <$> (Ev MGetConfig None :: t1 ++ t2) → c ≠ MGetConfig → ¬ bootstrapCall c →
    c ∈ ev_act <$> t2) as Hin2.
  { intros c Hc Hg Hbc. rewrite fmap_cons, fmap_app in Hc.
    apply elem_of_cons in Hc as [->|[Hc|Hc]%elem_of_app]; [done| |done].
    apply list_elem_of_fmap in Hc as (e & -> & He). destruct Hbc.
    exact (issued_elem _ _ _ Hcalls He). }
  destruct r as [x'|cs]; [destruct Hrun as [-> _]; apply Hin2 in Hnew;
    [by apply elem_of_nil in Hnew|done|by intros []]|].
  destruct Hrun as (o & Hm & ->).
  destruct (rg_sound _ _ _ _ _ _ (startManager_calls f cs) Hm (answered_any _)) as [Hi Hs].
  assert (∀ c, c ∈ ev_act <$> t2 → managerCall f cs c) as Hcall.
  { intros c (e & -> & He)%list_elem_of_fmap. by apply (issued_elem _ _ _ Hi He). }
  exists cs. split_and!; [|by apply (Hcall _ (Hin2 _ Hnew ltac:(done) ltac:(by intros [])))|by auto|].
  - cbn [certTrace app]. by rewrite certTrace_app, (certTrace_manager _ _ _ Hi), app_nil_r.
  - intros Hx Hw. destruct o as [y|[]]; [by rewrite (Hs y eq_refl) in Hx|].
    apply startManager_done in Hm as (_ & _ & _ & Hreg). destruct (Hreg Hw).
    rewrite fmap_cons, fmap_app. set_solver.
Qed.

(** C23: the process serves the webhook exactly when it has certificates for it.
    A manager is created with a webhook server iff the webhook is enabled and
    there is a certificate directory: the one of the flags, or else the one the
    bootstrapper of this process has just filled with success.  Without it no
    handler and no readiness check of the webhook is registered; with it, a
    process that gets to the end has registered both.  The metrics server is
    given the directory of the flags or that of a successful bootstrap, and the
    renewal loop is added only for the bootstrapper that succeeded. *)
Theorem main_certificates polls f t x opts :
  run (main polls f) t x → MNewManager opts ∈ ev_act <$> t →
  let b := bootstrapperOf f in
  match mo_WebhookServer opts with
  | Some w => webhookEnabled f = true ∧ wo_CertDir w ≠ "" ∧
      (wo_CertDir w = webhookCertPath f ∨
       webhookCertPath f = "" ∧ wo_CertDir w = b_CertDir b ∧ bootstrapped polls f t) ∧
      (x = Returned → MRegister webhookPath ∈ ev_act <$> t ∧ MAddReadyzCheck "webhook" ∈ ev_act <$> t)
  | None => (webhookEnabled f = false ∨
       webhookCertPath f = "" ∧ ∃ e, run (EnsureCerts polls b) (certTrace t) (Done (Fail e))) ∧
      MRegister webhookPath ∉ ev_act <$> t ∧ MAddReadyzCheck "webhook" ∉ ev_act <$> t
  end ∧
  (mx_CertDir (mo_Metrics opts) = metricsCertPath f ∨
   metricsCertPath f = "" ∧ mx_CertDir (mo_Metrics opts) = b_MetricsCertDir b ∧ bootstrapped polls f t) ∧
  (∀ b', MAdd b' ∈ ev_act <$> t → b' = b ∧ bootstrapped polls f t).
Proof.
  intros Hrun Hnew b.
  destruct (main_manager _ _ _ _ _ Hrun Hnew) as (cs & Hended & -> & Hcall & Hreg). unfold bootstrapped.
  split_and!.
  - pose proof (ended_webhook _ _ _ _ Hended) as Hw.
    cbn [mo_WebhookServer managerOptions]. fold (webhookReady f cs).
    destruct (webhookReady f cs) eqn:E; cbn [wo_CertDir].
    + destruct Hw as (Hen & Hne & Hdir). by split_and!; [..|intros Hx; apply Hreg].
    + split_and!; [done| |]; intros Hin%Hcall; try done; try (by intros []).
      * cbn in Hin. congruence.
      * by rewrite Hin in E.
  - cbn [mo_Metrics managerOptions mx_CertDir].
    assert ((if decide (cs_metricsCertPath cs = "") then "" else cs_metricsCertPath cs) = cs_metricsCertPath cs)
      as -> by (by case_decide).
    by apply ended_metrics.
  - intros b' Hadd%Hcall; [|done|by intros []]. exact (ended_bootstrapper _ _ _ _ _ Hended Hadd).
Qed.
End Main.

(** ** Witnesses *)

#[local] Instance noSelectors : SelectorOps := {| LabelSelectorAsSelector := λ _, inr (λ _, false) |}.
#[local] Instance noWatch : WatchOps := {|
  GenerationChangedPredicate _ := true;
  NewPredicateFuncs f e := f (eventObject e);
  predicateOr p q e := p e || q e;
  EnqueueRequestsFromMapFunc f e := f (eventObject e)
|}.

(** Start-up calls succeed, those of the bootstrap act on the small cluster. *)
Definition toyStart (deny : ccall → bool) (c : mainCall) (w : world) : mainResp c * world :=
  match c return mainResp c * world with
  | MCert c => toyAnswer deny c w
  | MSetup _ => (None, w)
  | MRegister _ => (tt, w)
  | MGetConfig | MNewClient | MNewManager _ | MAdd _ | MAddHealthzCheck _ | MAddReadyzCheck _ | MStart =>
      (None, w)
  end.

Definition toyFlags : Flags := {|
  metricsAddr := ":8443"; metricsCertPath := ""; metricsCertName := "tls.crt"; metricsCertKey := "tls.key";
  webhookCertPath := ""; webhookCertName := "tls.crt"; webhookCertKey := "tls.key";
  enableLeaderElection := true; probeAddr := ":8081"; secureMetrics := true; enableHTTP2 := false;
  webhookEnabled := true; operatorNamespace := "ns"; webhookServiceName := "svc"; webhookConfigName := "vwc";
  tlsCertSecretName := "secret"; metricsServiceName := "met"
|}.

Definition toyMain (deny : ccall → bool) : list (event mainResp) * exit :=
  (interp (toyStart deny) (main 61 toyFlags) toyWorld).1.

Lemma toyMain_run deny : run (main 61 toyFlags) (toyMain deny).1 (toyMain deny).2.
Proof. unfold toyMain. destruct (interp _ _ _) as [[t x] w] eqn:H. by eapply interp_run. Qed.

Lemma main_exits_witness :
  (toyMain denySecret).2 = Returned ∧ clean (toyMain denySecret).1.
Proof.
  assert ((toyMain denySecret).2 = Returned) as Hx by (by vm_compute). split; [exact Hx|].
  destruct (main_exits 61 toyFlags _ _ (toyMain_run denySecret)) as [[Hx' _]|[Hc _]]; [|exact Hc].
  rewrite Hx in Hx'. discriminate Hx'.
Defined.

(** With certificates the webhook is served from the bootstrapped directory,
    without the Secret it is not. *)
Lemma main_certificates_witness :
  (∃ opts w, MNewManager opts ∈ ev_act <$> (toyMain allow).1 ∧ mo_WebhookServer opts = Some w ∧
     wo_CertDir w = defaultWebhookCertDir ∧ MRegister webhookPath ∈ ev_act <$> (toyMain allow).1) ∧
  (∃ opts, MNewManager opts ∈ ev_act <$> (toyMain denySecret).1 ∧ mo_WebhookServer opts = None ∧
     MRegister webhookPath ∉ ev_act <$> (toyMain denySecret).1).
Proof.
  split.
  - pose (opts := managerOptions toyFlags (managed toyFlags)).
    assert (MNewManager opts ∈ ev_act <$> (toyMain allow).1) as Hin.
    { apply (list_elem_of_lookup_2 _ 49). vm_compute. reflexivity. }
    destruct (main_certificates 61 toyFlags _ _ opts (toyMain_run allow) Hin) as [H _].
    exists opts. eexists. split_and!; [exact Hin|reflexivity|reflexivity|].
    apply H. vm_compute. reflexivity.
  - pose (opts := managerOptions toyFlags (unmanaged toyFlags)).
    assert (MNewManager opts ∈ ev_act <$> (toyMain denySecret).1) as Hin.
    { apply (list_elem_of_lookup_2 _ 3). vm_compute. reflexivity. }
    destruct (main_certificates 61 toyFlags _ _ opts (toyMain_run denySecret) Hin) as [H _].
    exists opts. split_and!; [exact Hin|reflexivity|]. apply H.
Defined.
