(* ===== verification/Wiring.v ===== *)
(** * Wiring (service.go, groupversion_info.go, the init functions)

    What is set up before and around the operations: the service's dependencies,
    the API group's registration with a scheme, and the [init] functions of the
    process.  Clients, loggers, recorders, clocks and the scheme are the
    libraries' own: parameters, the scheme with its documented behaviour as laws. *)
From S2P Require Import Prelude Metrics.

(** ** service.go *)
Section Service.
Context {Client Logger EventRecorder Clock : Type}.
Context (WithName : Logger → string → Logger) (RealClock : Clock).

Record MaintenanceService : Type := MkMaintenanceService {
  svc_client : Client;
  svc_log : Logger;
  svc_recorder : EventRecorder;
  svc_clock : Clock
}.

(** An interface value: [None] is nil. *)
Definition NewMaintenanceService (c : Client) (log : Logger) (recorder : EventRecorder)
    (clk : option Clock) : MaintenanceService :=
  let clk := match clk with None => RealClock | Some clk => clk end in
  {| svc_client := c; svc_log := WithName log "MaintenanceService"; svc_recorder := recorder; svc_clock := clk |}.

(** The service always has a clock: the caller's, or else the real one. *)
Lemma NewMaintenanceService_clock c log recorder clk :
  svc_clock (NewMaintenanceService c log recorder clk) = default RealClock clk ∧
  svc_client (NewMaintenanceService c log recorder clk) = c ∧
  svc_recorder (NewMaintenanceService c log recorder clk) = recorder.
Proof. by destruct clk. Qed.
End Service.

(** ** groupversion_info.go *)

Record GroupVersionT : Type := MkGroupVersion { gv_Group : string; gv_Version : string }.

(** runtime.Scheme and its builder. *)
Class SchemeOps : Type := {
  Scheme : Type;
  recognizes : Scheme → GroupVersionT → string → bool;      (* the kind in that version *)
  AddKnownTypes : GroupVersionT → list string → Scheme → Scheme;
  AddToGroupVersion : GroupVersionT → Scheme → Scheme;      (* metav1.AddToGroupVersion *)
  clientgoAddToScheme : Scheme → option string * Scheme     (* client-go's own types *)
}.

Class SchemeLaws `{SchemeOps} : Prop := {
  AddKnownTypes_recognizes gv kinds s gv' kind :
    recognizes (AddKnownTypes gv kinds s) gv' kind = true ↔
    (gv' = gv ∧ kind ∈ kinds) ∨ recognizes s gv' kind = true;
  AddToGroupVersion_keeps gv s gv' kind :
    recognizes s gv' kind = true → recognizes (AddToGroupVersion gv s) gv' kind = true
}.

Definition GroupVersion : GroupVersionT := MkGroupVersion "maintenance.nmoo.io" "v1alpha1".

Section Registration.
Context `{SC : SchemeOps} `{GO : GaugeOps}.

Definition addKnownTypes (s : Scheme) : option string * Scheme :=
  let s := AddKnownTypes GroupVersion ["NodeMaintenancePlan"; "NodeMaintenancePlanList"] s in
  let s := AddToGroupVersion GroupVersion s in
  (None, s).

(** runtime.SchemeBuilder is a slice of functions; AddToScheme applies them in
    turn and stops at the first error. *)
Definition SchemeBuilder : list (Scheme → option string * Scheme) := [addKnownTypes].

Fixpoint applyBuilder (b : list (Scheme → option string * Scheme)) (s : Scheme) : option string * Scheme :=
  match b with
  | [] => (None, s)
  | f :: b => match f s with
              | (Some err, s) => (Some err, s)
              | (None, s) => applyBuilder b s
              end
  end.

Definition AddToScheme (s : Scheme) : option string * Scheme := applyBuilder SchemeBuilder s.

(** ** init *)

(** [utilruntime.Must]: [None] is a panic. *)
Definition Must {A} (r : option string * A) : option A :=
  match r with (None, a) => Some a | (Some _, _) => None end.

(** cmd/main.go's [init]. *)
Definition initScheme (scheme : Scheme) : option Scheme :=
  scheme ← Must (clientgoAddToScheme scheme);
  Must (AddToScheme scheme).

(** The process before [main]: imported packages first. *)
Definition inits (scheme : Scheme) (r : registry) : option (Scheme * registry) :=
  r ← registerMetrics r;
  scheme ← initScheme scheme;
  Some (scheme, r).
End Registration.

(** The process comes up able to talk about its own kinds.  With its metric names
    free, [init] panics exactly if client-go cannot register its types; otherwise
    the manager's scheme recognises the plan and its list, in the group the
    manifests name, and everything client-go registered, and the ten metric
    vectors are registered. *)
Theorem inits_spec `{SL : SchemeLaws} `{GL : GaugeLaws} scheme r :
  (∀ vec, vec ∈ metricsVecs → gv_Name vec ∉ registered r) →
  match clientgoAddToScheme scheme with
  | (Some _, _) => inits scheme r = None
  | (None, s) => ∃ scheme' r', inits scheme r = Some (scheme', r') ∧
      (∀ kind, kind ∈ ["NodeMaintenancePlan"; "NodeMaintenancePlanList"] →
         recognizes scheme' (MkGroupVersion "maintenance.nmoo.io" "v1alpha1") kind = true) ∧
      (∀ gv kind, recognizes s gv kind = true → recognizes scheme' gv kind = true) ∧
      ∀ vec, vec ∈ metricsVecs → gv_Name vec ∈ registered r'
  end.
Proof.
  intros Hr. destruct (registerMetrics_ok r Hr) as (r' & Hr' & Hreg & _).
  unfold inits. rewrite Hr'. cbn. unfold initScheme.
  destruct (clientgoAddToScheme scheme) as [[err|] s]; cbn; [done|].
  eexists _, r'. split; [done|]. split_and!.
  - intros kind Hk. apply AddToGroupVersion_keeps, AddKnownTypes_recognizes. by left.
  - intros gv kind Hk. apply AddToGroupVersion_keeps, AddKnownTypes_recognizes. by right.
  - intros vec Hvec. rewrite Hreg. apply elem_of_app. right. by apply list_elem_of_fmap_2.
Qed.

(** A scheme as the list of what it knows. *)
#[export] Instance listScheme : SchemeOps := {|
  Scheme := list (string * string * string);
  recognizes := λ s gv kind, bool_decide ((gv_Group gv, gv_Version gv, kind) ∈ s);
  AddKnownTypes := λ gv kinds s, map (λ kind, (gv_Group gv, gv_Version gv, kind)) kinds ++ s;
  AddToGroupVersion := λ gv s, (gv_Group gv, gv_Version gv, "WatchEvent") :: s;
  clientgoAddToScheme := λ s, (None, ("", "v1", "Node") :: ("", "v1", "Pod") :: s)
|}.

#[export] Instance listScheme_laws : SchemeLaws.
Proof.
  split; cbn.
  - intros gv kinds s [g v] kind. destruct gv as [g' v']. cbn.
    rewrite !bool_decide_eq_true, elem_of_app, list_elem_of_fmap. naive_solver.
  - intros gv s gv' kind. rewrite !bool_decide_eq_true. by right.
Qed.

Lemma inits_spec_witness :
  ∃ scheme' r', inits ([] : @Scheme listScheme) freshRegistry = Some (scheme', r') ∧
    recognizes scheme' (MkGroupVersion "maintenance.nmoo.io" "v1alpha1") "NodeMaintenancePlan" = true ∧
    recognizes scheme' (MkGroupVersion "" "v1") "Node" = true.
Proof.
  pose proof (inits_spec ([] : @Scheme listScheme) freshRegistry freshRegistry_fresh) as Hspec.
  cbn [clientgoAddToScheme listScheme] in Hspec. destruct Hspec as (s & r & Hinit & Hown & Hcore & _).
  exists s, r. split; [exact Hinit|]. split; [apply Hown; left|apply Hcore; reflexivity].
Defined.
